(* ===== verification/_CoqProject ===== *)
-Q . S2P
Prelude.v
Endian.v
Key.v
Iterators.v
Block.v
BlockCache.v
Double.v
Rounding.v
Bloom.v
Table.v
Sizes.v
TableIterator.v
Wal.v
MemTable.v
IteratorProps.v
State.v
Layers.v
SimpleLeveled.v
Tiered.v
Leveled.v
Compact.v
Manifest.v
LsmStorage.v
LsmSpec.v
LsmRead.v
LsmWrite.v
LsmGen.v
LsmCompact.v
LsmInstall.v
LsmStrategies.v
LsmLeveled.v
LsmJournal.v
LsmTrace.v
LsmOpen.v
LsmThreads.v
LsmConcurrent.v
LsmEngine.v
LsmWriters.v
LsmSnapshot.v
LsmCrash.v
Cli.v
Bench.v
