(* ===== verification/Prelude.v ===== *)
(** * Mini-LSM: a verified model of a log-structured merge-tree storage engine

    This library models the C++ key-value engine of the repository as executable
    Rocq definitions and proves that it behaves as one finite map: through its
    iterators, blocks, tables, logs, memtables, compaction strategies, manifest
    and restarts, with the compaction thread beside the client, after crashes, and
    through its command line tool and its benchmarks.

    ** The program

    A [put] goes to the log of the mutable memtable and into the memtable.  A full
    memtable is frozen and later flushed to a sorted string table (SST).  Flushed
    tables form level 0 (or, under the tiered strategy, tiers of one table); a
    compaction strategy picks tables, the engine merges them with a stack of
    iterators and installs the output.  The manifest records every change of the
    structure; opening a directory replays it, opens the tables and replays the
    logs of the memtables that were not flushed.  A read looks at the memtables
    from the newest to the oldest and then at the tables; blocks are read through
    a shared cache and tables are skipped by key range and bloom filter.

    ** The model

    [res] is the result of a call: a value, or what C++ does instead (an
    assertion, an exception, undefined behaviour, or fuel that ran out).  [eff W]
    passes a world [W]: the block cache for iterators, the files for logs, tables
    and the manifest, and both ([World]) for the engine.  Bytes are
    [Strings.Byte], integers of a format are [Z] with their wrap-around written
    out, ids and sizes of containers are [nat] with bounds where they are written
    to a file.  An object is a record, passed and returned by the operations that
    change it; a [std::variant] with its tag is one inductive type.

    Code outside of the repository is a parameter: zlib's crc32 ([Zlib]), snappy
    ([Snappy]; its laws [SnappyLaws] and [SnappyBound] say that decompression
    undoes compression and how much it may grow), farmhash ([Farmhash], any
    function), [std::log] ([Libm], any function) and the JSON library ([Json],
    [JsonLaws]: parsing undoes dumping, and accessors find what constructors
    stored).  The files instantiate each of them with a concrete function, and
    every theorem with a hypothesis is applied to a concrete run.  Doubles are the
    Standard Library's [spec_float].

    ** The files, bottom up

    - [Prelude]: [res], [eff], loops with fuel and their rules, tactics.
      [Endian]: endian.h.  [Key]: key.h, and key-sorted association lists, the
      theory of [std::map] in its iteration order.
    - [Iterators]: iterators.h, lsm_iterator.h and .cpp, iterators/*.cpp.  The
      class [StorageIterator] is the abstract base class; [IteratorSpec] is what
      an iterator promises (it [denotes] a sorted list), and the merging, fused
      and concatenating iterators are verified against it for any sources.
      [IteratorProps] holds the properties.
    - [Block] (block.h, block/*.cpp), [BlockCache] (block_cache.h, .cpp),
      [Double] (the arithmetic of doubles), [Rounding] (a quotient that is not
      above one stays so when rounded), [Bloom] (table/bloom.cpp), [Table]
      (table.h, table/builder.cpp), [Sizes] (how large a file can get), [TableIterator]
      (table/iterator.cpp, concat_iterator.cpp), [Wal] (wal.h, .cpp), [MemTable]
      (mem_table.h, .cpp, mem_table_iterator.cpp).
    - [State] (options and tasks of compact.h, the state of lsm_storage.h),
      [Layers] (what a structure stores: newer layers over older ones),
      [SimpleLeveled], [Tiered], [Leveled] (compact/*.cpp), [Compact] (the
      controller in compact.h and compact.cpp), [Manifest] (manifest.h, .cpp and
      the JSON of compact.cpp).
    - [LsmStorage]: lsm_storage.h, lsm_storage.cpp and the engine's half of
      compact.cpp, one definition per function, with the parts of long functions
      split off.  [LsmThreads]: the loops of the two threads as schedules.
      [Cli]: bin/mini_lsm_cli.cpp.  [Bench]: bench/*.h and *.cpp, with what the
      clock, the random generator and the scheduler do as inputs.
    - The proofs about the engine: [LsmSpec] (the invariant [engine_ok] and what
      a state [shown]s), [LsmRead] (get and scan), [LsmWrite] (put, freeze, flush,
      sync), [LsmGen] and [LsmCompact] (merging), [LsmInstall] (installing an
      output), [LsmStrategies] and [LsmLeveled] (each strategy's tasks),
      [LsmJournal] (the manifest describes the structure), [LsmTrace] (sequences
      of calls), [LsmOpen] (opening, closing, recovery), [LsmConcurrent]
      (interleavings), [LsmEngine] (the properties), [LsmWriters] (several threads
      in [put]), [LsmSnapshot] (an iterator drained beside everything else),
      [LsmCrash] (crashes).

    ** What is proved

    - The whole engine: any sequence of calls on a new directory returns and is
      answered as by one finite map ([engine_refines_map]), also when the steps of
      the compaction thread come between the calls in any way
      ([interleavings_refine_map]; the steps split the operation of the code,
      [thread_alone_is_trigger_compaction]) and a pass always ends
      ([compaction_pass_finishes]).  Concurrent writers take effect one at a time
      ([writers_linearizable]) and never store what is not logged
      ([writers_write_ahead]).  An iterator shows the map of the moment it was
      made, whatever goes on while it is drained ([scan_is_snapshot]).
    - Persistence: a restart changes no answer ([restart_keeps_data],
      [interleaved_restart_keeps_data]); a crash loses at most the ends of the
      logs ([crash_loses_log_ends]).
    - The command line tool prints what a map would, for any input that opens one
      new directory and that once, and a second session finds what the first one
      stored ([cli_refines_map], [cli_sessions_keep_data]).
    - The benchmarks: the read benchmark finds every key it loaded and no other,
      and takes its percentiles within the samples ([read_suite_finds_keys]); the
      write benchmark, in its runs without a compaction strategy, measures a single
      table however much it wrote ([write_bench_measures_one_memtable]).
    - The type of a state: unique ids, sorted memtables that their logs replay to,
      open tables with their files, levels of disjoint ranges, and a manifest that
      replays to the structure, at any moment ([engine_well_formed]).
    - Each operation: get, scan, put, del, freeze, flush, triggered and full
      compaction, close, and the manifest ([get_correct] and the others of
      [LsmEngine]).
    - Each strategy: its task, applied, leaves what is stored unchanged and the
      structure well formed, and the conditions this needs; where the code does
      not meet them, a theorem says which keys change
      ([tiered_merge_width_loses_deletion], [leveled_base_level_reorders]), and
      [leveled_recovery_breaks_run] is an example of a level out of order.
    - Each format: what is written is read back (integers, blocks, tables, logs,
      manifest), and what happens to damaged, torn and oversized data.
    - Each structure: the iterators against sorted lists, the cache against a
      least-recently-used list, the filter without false negatives, the binary
      search for a block against a scan, keys as a total order.

    ** Bounds and fuel

    Loops whose number of rounds is evident carry their own fuel (a log of [n]
    bytes is recovered in at most [n + 1] rounds).  Loops over iterators use
    [LoopFuel]; the theorems ask that it exceeds the number of entries written,
    so that running out is never the answer.  [fits] bounds what was written so
    that no table exceeds the 4 GiB that its offsets can express; [N] exceeds the
    number of writes, and a call takes at most [N] ids, so that ids stay below
    2^64.  Keys are not empty and keys and values are shorter than 64 KiB
    ([kv_ok]), since their lengths are written as 16 bits.

    ** Not modelled

    - The tests and the build.
    - Directories as objects (one is the files whose paths begin with its name),
      [fsync] and failures of system calls on open files.  A file that does not
      exist, and any content of a file, are modelled.
    - Locks as objects: a call is one step between two steps of the compaction
      thread, which is what [state_lock] and [state_mutex] give for one writer.
      Several writers are split at their locks in [LsmWriters], without flushes
      beside them: they may freeze an empty memtable, whose flush is undefined
      ([empty_memtable_flush]).  Of a crash in the middle of a step see [LsmCrash].
    - Sleeping and the stop flag of the threads: they only choose the schedule.
    - What an object is after an exception left it, except in [FusedIterator],
      which the code makes safe to use again; the theorems show that none is
      thrown in the situations above.
    - The leveled strategy beyond single compactions: a task of level 0 may skip
      a level that holds tables, and recovery breaks the order of its levels, as
      the theorems above show.  A task never goes below the last level
      ([leveled_compaction_correct]).
    - A second restart: opening overwrites the head of the manifest
      ([manifest_reopen_overwrites]), so nothing is promised of the third
      process, and data is lost ([third_process_loses_data]). *)

From Stdlib Require Export ZArith Lia.
From stdpp Require Export prelude list gmap sorting strings.
From Stdlib Require Export Strings.Byte.

Set Default Goal Selector "!".

(** ** Errors and the two monads *)

(** What a C++ call can do instead of returning. *)
Inductive error :=
| AssertFail (where_ : string)   (* assert(...) fired: abort() *)
| Exn (what : string)            (* a C++ exception propagates *)
| UB (what : string)             (* undefined behaviour: out-of-bounds access, empty optional *)
| OutOfFuel.                     (* the bound put on a loop was too small *)

Inductive res (A : Type) :=
| Ok (a : A)
| Err (e : error).
Arguments Ok {_} _.
Arguments Err {_} _.

#[export] Instance res_ret : MRet res := @Ok.
#[export] Instance res_bind : MBind res := λ A B f m,
  match m with Ok a => f a | Err e => Err e end.
#[export] Instance res_fmap : FMap res := λ A B f m,
  match m with Ok a => Ok (f a) | Err e => Err e end.
#[export] Instance error_eq_dec : EqDecision error.
Proof. solve_decision. Defined.
#[export] Instance res_eq_dec `{EqDecision A} : EqDecision (res A).
Proof. solve_decision. Defined.

(** [assert(b)], with assertions compiled in. *)
Definition cassert (b : bool) (where_ : string) : res unit :=
  if b then Ok tt else Err (AssertFail where_).

(** Dereferencing a [std::optional] or a pointer. *)
Definition deref {A} (o : option A) (what : string) : res A :=
  match o with Some a => Ok a | None => Err (UB what) end.

(** Computations over a shared mutable world [W]. *)
Definition eff (W A : Type) : Type := W → res (W * A).
#[export] Instance eff_ret {W} : MRet (eff W) := λ A a w, Ok (w, a).
#[export] Instance eff_bind {W} : MBind (eff W) := λ A B f m w,
  match m w with Ok (w', a) => f a w' | Err e => Err e end.
Definition lift {W A} (m : res A) : eff W A := λ w,
  match m with Ok a => Ok (w, a) | Err e => Err e end.

(** A run of a sequence, taken apart and put together. *)
Lemma eff_bind_Ok {W A B} (m : eff W A) (f : A → eff W B) w r :
  (m ≫= f) w = Ok r → ∃ w1 a, m w = Ok (w1, a) ∧ f a w1 = Ok r.
Proof. unfold mbind, eff_bind. destruct (m w) as [[w1 a]|]; [|done]. by exists w1, a. Qed.
Lemma eff_bind_run {W A B} (m : eff W A) (f : A → eff W B) w w1 a : m w = Ok (w1, a) → (m ≫= f) w = f a w1.
Proof. unfold mbind, eff_bind. by intros ->. Qed.

Lemma lift_Ok {S A} (m : res A) (w w' : S) a : lift m w = Ok (w', a) → w' = w ∧ m = Ok a.
Proof. unfold lift. destruct m; [|done]. by intros [= -> ->]. Qed.

(** Total correctness: [m] returns and its result satisfies [Q]; for an
    effectful [m], from every world satisfying [I], which it restores. *)
Definition returns {A} (m : res A) (Q : A → Prop) : Prop := ∃ a, m = Ok a ∧ Q a.
Definition wp {W A} (I : W → Prop) (m : eff W A) (Q : A → Prop) : Prop :=
  ∀ w, I w → ∃ w' a, m w = Ok (w', a) ∧ I w' ∧ Q a.

Declare Scope lsm_scope.
Delimit Scope lsm_scope with lsm.
Open Scope lsm_scope.
Notation "m '⇓' Q" := (returns m Q) (at level 70, Q at level 200) : lsm_scope.
Notation "m '⇓{' I '}' Q" := (wp I m Q)
  (at level 70, I at level 200, Q at level 200) : lsm_scope.

Create HintDb lsm discriminated.
Create Rewrite HintDb lsm.

Lemma returns_ret {A} (a : A) (Q : A → Prop) : Q a → returns (mret a) Q.
Proof. by exists a. Qed.

Lemma returns_bind {A B} (m : res A) (f : A → res B) (P : A → Prop) (Q : B → Prop) :
  returns m P → (∀ a, P a → returns (f a) Q) → returns (m ≫= f) Q.
Proof. intros (a & -> & Ha) Hf. by apply Hf. Qed.

Lemma returns_mono {A} (m : res A) (P Q : A → Prop) :
  returns m P → (∀ a, P a → Q a) → returns m Q.
Proof. intros (a & -> & Ha) HPQ. exists a; auto. Qed.

Lemma returns_eq {A} (m : res A) (a : A) (Q : A → Prop) :
  m = Ok a → Q a → returns m Q.
Proof. intros -> ?. by exists a. Qed.

Lemma cassert_true (b : bool) w : b = true → cassert b w = Ok tt.
Proof. by intros ->. Qed.

(** The instruction after an assertion that holds, or after a call that returns. *)
Lemma cassert_bind {A} (b : bool) w (m : res A) : b = true → (cassert b w;; m) = m.
Proof. by intros ->. Qed.
Lemma bind_Ok {A B} (m : res A) (f : A → res B) (b : B) : m ≫= f = Ok b → ∃ a, m = Ok a ∧ f a = Ok b.
Proof. destruct m as [a|e]; [|done]. intros Hf. by exists a. Qed.
Lemma cassert_Ok (b : bool) what u : cassert b what = Ok u → b = true.
Proof. by destruct b. Qed.
Lemma bind_ok {A B} (m : res A) (a : A) (f : A → res B) : m = Ok a → m ≫= f = f a.
Proof. by intros ->. Qed.

Section wp.
Context {W : Type} (I : W → Prop).

Lemma wp_ret {A} (a : A) (Q : A → Prop) : Q a → wp I (mret a) Q.
Proof. intros HQ w Hw. by exists w, a. Qed.

Lemma wp_lift {A} (m : res A) (Q : A → Prop) : returns m Q → wp I (lift m) Q.
Proof. intros (a & -> & Ha) w Hw. by exists w, a. Qed.

Lemma wp_lift_ok {A} (m : res A) (a : A) (Q : A → Prop) :
  m = Ok a → Q a → wp I (lift m) Q.
Proof. intros -> ?. apply wp_lift. by exists a. Qed.

Lemma wp_bind {A B} (m : eff W A) (f : A → eff W B) (P : A → Prop) (Q : B → Prop) :
  wp I m P → (∀ a, P a → wp I (f a) Q) → wp I (m ≫= f) Q.
Proof.
  intros Hm Hf w Hw. destruct (Hm w Hw) as (w' & a & Hrun & Hw' & Ha).
  destruct (Hf a Ha w' Hw') as (w'' & b & Hrun' & ? & ?).
  exists w'', b. split; [|done]. unfold mbind, eff_bind. by rewrite Hrun.
Qed.

Lemma wp_bind_ok {A B} (m : res A) (a : A) (f : A → eff W B) (Q : B → Prop) :
  m = Ok a → wp I (f a) Q → wp I (lift m ≫= f) Q.
Proof. intros -> Hf w Hw. by apply Hf. Qed.

Lemma wp_ret_bind {A B} (a : A) (f : A → eff W B) (Q : B → Prop) :
  wp I (f a) Q → wp I (mret a ≫= f) Q.
Proof. intros Hf w Hw. by apply Hf. Qed.

Lemma wp_bind_assoc {A B C} (m : eff W A) (f : A → eff W B) (g : B → eff W C) (Q : C → Prop) :
  wp I (m ≫= λ a, f a ≫= g) Q → wp I ((m ≫= f) ≫= g) Q.
Proof.
  intros Hm w Hw. destruct (Hm w Hw) as (w' & c & Hrun & ?). exists w', c. split; [|done].
  unfold mbind, eff_bind in *. by destruct (m w) as [[]|].
Qed.

Lemma wp_mono {A} (m : eff W A) (P Q : A → Prop) :
  wp I m P → (∀ a, P a → Q a) → wp I m Q.
Proof.
  intros Hm HPQ w Hw. destruct (Hm w Hw) as (w' & a & ? & ? & ?).
  exists w', a. auto.
Qed.
End wp.

(** ** Loops

    [loop fuel step s] iterates [step] from [s] until it answers [inr].  The
    definitions that use it choose the fuel; [wp_loop] turns a measure below
    the fuel into total correctness. *)
Fixpoint loop {W S R} (fuel : nat) (step : S → eff W (S + R)) (s : S) : eff W R :=
  match fuel with
  | O => lift (Err OutOfFuel)
  | S n => r ← step s;
      match r with inl s' => loop n step s' | inr r => mret r end
  end.

Lemma wp_loop_step {W S R} (I : W → Prop) fuel (step : S → eff W (S + R)) s (Q : R → Prop) :
  wp I (step s) (λ r, match r with inl s' => wp I (loop fuel step s') Q | inr r => Q r end) →
  wp I (loop (Datatypes.S fuel) step s) Q.
Proof. intros Hs. eapply wp_bind; [exact Hs|]. intros [s'|r] Hr; [done|by apply wp_ret]. Qed.

Lemma wp_loop {W S R} (I : W → Prop) (step : S → eff W (S + R))
    (J : S → Prop) (measure : S → nat) (Q : R → Prop) :
  (∀ s, J s → wp I (step s) (λ r,
     match r with inl s' => J s' ∧ measure s' < measure s | inr r => Q r end)) →
  ∀ fuel s, J s → measure s < fuel → wp I (loop fuel step s) Q.
Proof.
  intros Hstep fuel; induction fuel as [|n IH]; intros s HJ Hm; [lia|].
  eapply wp_bind; [by apply Hstep|]. intros [s'|r] Hr; [|by apply wp_ret].
  destruct Hr. apply IH; [done|lia].
Qed.

Fixpoint loopR {S R} (fuel : nat) (step : S → res (S + R)) (s : S) : res R :=
  match fuel with
  | O => Err OutOfFuel
  | S n => r ← step s;
      match r with inl s' => loopR n step s' | inr r => mret r end
  end.

Lemma returns_loopR {S R} (step : S → res (S + R))
    (J : S → Prop) (measure : S → nat) (Q : R → Prop) :
  (∀ s, J s → returns (step s) (λ r,
     match r with inl s' => J s' ∧ measure s' < measure s | inr r => Q r end)) →
  ∀ fuel s, J s → measure s < fuel → returns (loopR fuel step s) Q.
Proof.
  intros Hstep fuel; induction fuel as [|n IH]; intros s HJ Hm; [lia|].
  eapply returns_bind; [by apply Hstep|]. intros [s'|r] Hr; [|by apply returns_ret].
  destruct Hr. apply IH; [done|lia].
Qed.

(** ** Machine integers and bytes *)
Abbreviation bytes := (list byte).

#[export] Instance byte_eq_decision : EqDecision byte := Byte.byte_eq_dec.

Definition byte_to_Z (b : byte) : Z := Z.of_N (Byte.to_N b).
(** [static_cast<uintN_t>]. *)
Definition u8 (z : Z) : byte := default x00 (Byte.of_N (Z.to_N (z mod 256))).
Definition u16 (z : Z) : Z := (z mod 2 ^ 16)%Z.
Definition u32 (z : Z) : Z := (z mod 2 ^ 32)%Z.
Definition u64 (z : Z) : Z := (z mod 2 ^ 64)%Z.

Lemma byte_range b : (0 ≤ byte_to_Z b < 256)%Z.
Proof. unfold byte_to_Z. pose proof (Byte.to_N_bounded b). lia. Qed.

Lemma byte_to_Z_u8 z : byte_to_Z (u8 z) = (z mod 256)%Z.
Proof.
  unfold byte_to_Z, u8. pose proof (Z.mod_pos_bound z 256 ltac:(lia)) as Hb.
  destruct (Byte.of_N _) as [b|] eqn:E; simpl.
  - apply Byte.to_of_N in E. rewrite E. lia.
  - apply Byte.of_N_None_iff in E. lia.
Qed.

Lemma u8_byte_to_Z b : u8 (byte_to_Z b) = b.
Proof.
  unfold u8, byte_to_Z. rewrite Z.mod_small by apply byte_range.
  rewrite N2Z.id, Byte.of_to_N. done.
Qed.

#[export] Instance byte_to_Z_inj : Inj (=) (=) byte_to_Z.
Proof. intros b1 b2 H. rewrite <-(u8_byte_to_Z b1), <-(u8_byte_to_Z b2). by f_equal. Qed.

#[export] Program Instance byte_countable : Countable byte :=
  inj_countable Byte.to_N Byte.of_N _.
Next Obligation. intros b. apply Byte.of_to_N. Qed.

(** [src + off] for [len] bytes of a buffer. *)
Definition slice (off len : nat) (buf : bytes) : bytes := take len (drop off buf).

(** ** Generic list lemmas *)
Lemma filter_all {A} (P : A → Prop) `{∀ x, Decision (P x)} (l : list A) :
  Forall P l → filter P l = l.
Proof. induction 1; [done|]. rewrite filter_cons_True by done. by f_equal. Qed.

Lemma filter_none {A} (P : A → Prop) `{∀ x, Decision (P x)} (l : list A) :
  Forall (λ x, ¬ P x) l → filter P l = [].
Proof. induction 1; [done|]. by rewrite filter_cons_False. Qed.

Lemma strongly_sorted_lookup {A} (R : A → A → Prop) l : StronglySorted R l →
  ∀ i j x y, l !! i = Some x → l !! j = Some y → i < j → R x y.
Proof.
  induction 1 as [|z l _ IH Hz]; intros i j x y Hi Hj Hij; [done|].
  destruct j as [|j]; [lia|]. destruct i as [|i]; simplify_eq/=.
  - eapply Forall_lookup_1; [exact Hz|done].
  - apply (IH i j); [done..|lia].
Qed.

(** ** Left-biased unions *)
Section union.
Context `{Countable K} {V : Type}.
Implicit Types (m : gmap K V).

Lemma union_insert_shadow m1 m2 k v : is_Some (m1 !! k) → m1 ∪ <[k := v]> m2 = m1 ∪ m2.
Proof.
  intros [v' Hk]. apply map_eq. intros k'. rewrite !lookup_union.
  destruct (decide (k = k')) as [<-|Hne].
  - rewrite Hk, lookup_insert_eq. by destruct (m2 !! k).
  - by rewrite lookup_insert_ne.
Qed.
End union.

(** ** Wrap-around *)
Lemma u16_small z : (0 ≤ z < 65536)%Z → u16 z = z.
Proof. intros. unfold u16. by apply Z.mod_small. Qed.
Lemma u32_small z : (0 ≤ z < 4294967296)%Z → u32 z = z.
Proof. intros. unfold u32. by apply Z.mod_small. Qed.
Lemma u64_small z : (0 ≤ z < 18446744073709551616)%Z → u64 z = z.
Proof. intros. unfold u64. by apply Z.mod_small. Qed.
Lemma u16_range z : (0 ≤ u16 z < 65536)%Z.
Proof. by apply Z.mod_pos_bound. Qed.
Lemma u32_range z : (0 ≤ u32 z < 4294967296)%Z.
Proof. by apply Z.mod_pos_bound. Qed.
Lemma u16_u16 z : u16 (u16 z) = u16 z.
Proof. apply u16_small, u16_range. Qed.
Lemma u32_u32 z : u32 (u32 z) = u32 z.
Proof. apply u32_small, u32_range. Qed.
