(* ===== verification/Endian.v ===== *)
(** * Big-endian codec of include/mini_lsm/endian.h

    [put_uN_be] appends to a vector, [write_uN_be] stores through a pointer
    (a buffer and an offset here) and [read_uN_be] loads through one.  Reading
    or writing outside the buffer is undefined behaviour, an [Err (UB _)].
    The round trips are stated with the bytes before and after the field, the
    way every format of the program reads them back. *)
From S2P Require Import Prelude.

#[local] Open Scope Z_scope.

(** ** Definitions *)

(** zlib's [crc32], continued from the initial value [crc32(0, Z_NULL, 0)]. *)
Class Zlib := crc32 : bytes → Z.

(** A concrete checksum, used in examples only. *)
Definition demo_zlib : Zlib := λ data, foldr (λ b s, byte_to_Z b + 31 * s) 7 data.

(** zlib takes the length as a 32-bit [uInt]. *)
Definition crc32_hash `{!Zlib} (data : bytes) : Z :=
  let len := Z.to_nat (u32 (Z.of_nat (length data))) in
  u32 (crc32 (take len data)).

(** One byte of a big-endian store: [static_cast<uint8_t>((val >> s) & 0xFF)]. *)
Definition byte_of (val s : Z) : byte := u8 (Z.land (Z.shiftr val s) 255).

Definition put_u16_be (buf : bytes) (val : Z) : bytes :=
  buf ++ [byte_of val 8; byte_of val 0].

Definition put_u32_be (buf : bytes) (val : Z) : bytes :=
  buf ++ [byte_of val 24; byte_of val 16; byte_of val 8; byte_of val 0].

Definition put_u64_be (buf : bytes) (val : Z) : bytes :=
  buf ++ [byte_of val 56; byte_of val 48; byte_of val 40; byte_of val 32;
          byte_of val 24; byte_of val 16; byte_of val 8; byte_of val 0].

(** [p[i]] through a raw pointer. *)
Definition byte_at (buf : bytes) (i : nat) : res Z :=
  byte_to_Z <$> deref (buf !! i) "read out of bounds".

Definition set_byte (buf : bytes) (i : nat) (b : byte) : res bytes :=
  if decide (i < length buf)%nat then Ok (<[i := b]> buf)
  else Err (UB "write out of bounds").

Definition write_u16_be (dst : bytes) (off : nat) (val : Z) : res bytes :=
  dst ← set_byte dst off (byte_of val 8);
  set_byte dst (off + 1) (byte_of val 0).

Definition write_u32_be (dst : bytes) (off : nat) (val : Z) : res bytes :=
  dst ← set_byte dst off (byte_of val 24);
  dst ← set_byte dst (off + 1) (byte_of val 16);
  dst ← set_byte dst (off + 2) (byte_of val 8);
  set_byte dst (off + 3) (byte_of val 0).

Definition write_u64_be (dst : bytes) (off : nat) (val : Z) : res bytes :=
  dst ← set_byte dst off (byte_of val 56);
  dst ← set_byte dst (off + 1) (byte_of val 48);
  dst ← set_byte dst (off + 2) (byte_of val 40);
  dst ← set_byte dst (off + 3) (byte_of val 32);
  dst ← set_byte dst (off + 4) (byte_of val 24);
  dst ← set_byte dst (off + 5) (byte_of val 16);
  dst ← set_byte dst (off + 6) (byte_of val 8);
  set_byte dst (off + 7) (byte_of val 0).

Definition read_u16_be (src : bytes) (off : nat) : res Z :=
  b0 ← byte_at src off; b1 ← byte_at src (off + 1);
  mret (u16 (Z.lor (Z.shiftl b0 8) b1)).

Definition read_u32_be (src : bytes) (off : nat) : res Z :=
  b0 ← byte_at src off; b1 ← byte_at src (off + 1);
  b2 ← byte_at src (off + 2); b3 ← byte_at src (off + 3);
  mret (u32 (Z.lor (Z.lor (Z.lor (Z.shiftl b0 24) (Z.shiftl b1 16)) (Z.shiftl b2 8)) b3)).

Definition read_u64_be (src : bytes) (off : nat) : res Z :=
  b0 ← byte_at src off; b1 ← byte_at src (off + 1);
  b2 ← byte_at src (off + 2); b3 ← byte_at src (off + 3);
  b4 ← byte_at src (off + 4); b5 ← byte_at src (off + 5);
  b6 ← byte_at src (off + 6); b7 ← byte_at src (off + 7);
  mret (u64 (Z.lor (Z.lor (Z.lor (Z.lor (Z.lor (Z.lor (Z.lor
    (Z.shiftl b0 56) (Z.shiftl b1 48)) (Z.shiftl b2 40)) (Z.shiftl b3 32))
    (Z.shiftl b4 24)) (Z.shiftl b5 16)) (Z.shiftl b6 8)) b7)).

(** ** A Horner view of both directions *)

(** The [n] low bytes of [v], most significant first, and their value. *)
Fixpoint be_bytes (n : nat) (v : Z) : bytes :=
  match n with O => [] | S m => be_bytes m (Z.shiftr v 8) ++ [u8 v] end.
Definition be_val (bs : bytes) : Z := foldl (λ acc b, acc * 256 + byte_to_Z b) 0 bs.

Lemma be_val_snoc bs b : be_val (bs ++ [b]) = be_val bs * 256 + byte_to_Z b.
Proof. unfold be_val. by rewrite foldl_app. Qed.

Lemma be_val_bytes n v : be_val (be_bytes n v) = v mod 256 ^ Z.of_nat n.
Proof.
  revert v; induction n as [|n IH]; intros v.
  { change (256 ^ Z.of_nat 0) with 1. by rewrite Z.mod_1_r. }
  cbn [be_bytes]. rewrite be_val_snoc, IH, byte_to_Z_u8, Z.shiftr_div_pow2 by lia.
  rewrite Nat2Z.inj_succ, Z.pow_succ_r by lia. change (2 ^ 8) with 256.
  rewrite Z.rem_mul_r by (try apply Z.pow_nonzero; lia). lia.
Qed.

Lemma byte_of_shift v s : byte_of v s = u8 (Z.shiftr v s).
Proof.
  apply byte_to_Z_inj. unfold byte_of. rewrite !byte_to_Z_u8.
  change 255 with (Z.ones 8). rewrite Z.land_ones by lia. apply Z.mod_mod; lia.
Qed.

Lemma lor_shiftl_add x y n : 0 ≤ n → 0 ≤ y < 2 ^ n → Z.lor (Z.shiftl x n) y = x * 2 ^ n + y.
Proof.
  intros Hn Hy. rewrite <-Z.shiftl_mul_pow2, <-(Z.add_lor_land (Z.shiftl x n)) by lia.
  enough (Z.land (Z.shiftl x n) y = 0) as -> by lia.
  apply Z.bits_inj'. intros i Hi. rewrite Z.land_spec, Z.bits_0.
  destruct (decide (i < n)); [by rewrite Z.shiftl_spec_low|].
  rewrite <-(Z.mod_small y (2 ^ n)), <-Z.land_ones, Z.land_spec, Z.ones_spec_high by lia.
  by rewrite !andb_false_r.
Qed.

Lemma lor_step x y n : 0 ≤ n →
  Z.lor (Z.shiftl x (n + 8)) (Z.shiftl y n) = Z.shiftl (Z.lor (Z.shiftl x 8) y) n.
Proof.
  intros. rewrite Z.shiftl_lor, Z.shiftl_shiftl by lia. do 2 f_equal; lia.
Qed.

(** ** Loads see what is in the buffer *)

Lemma byte_at_lookup buf i b : buf !! i = Some b → byte_at buf i = Ok (byte_to_Z b).
Proof. unfold byte_at. by intros ->. Qed.

Lemma be_val_bound bs : 0 ≤ be_val bs < 256 ^ Z.of_nat (length bs).
Proof.
  induction bs as [|b bs IH] using rev_ind; [unfold be_val; simpl; lia|].
  rewrite be_val_snoc, length_app, Nat2Z.inj_add, Z.pow_add_r by lia.
  pose proof (byte_range b). simpl length. change (256 ^ Z.of_nat 1) with 256. nia.
Qed.

Lemma slice_lookup off len buf i : (i < len)%nat → slice off len buf !! i = buf !! (off + i)%nat.
Proof. intros. unfold slice. by rewrite lookup_take_lt, lookup_drop by done. Qed.

Lemma slice_read off len buf bs i :
  slice off len buf = bs → length bs = len → (i < len)%nat →
  byte_at buf (off + i) = byte_to_Z <$> deref (bs !! i) "read out of bounds".
Proof. intros <- _ Hi. unfold byte_at. by rewrite slice_lookup. Qed.

Lemma read_u16_be_slice src off bs :
  slice off 2 src = bs → length bs = 2%nat → read_u16_be src off = Ok (be_val bs).
Proof.
  intros Hs Hl. unfold read_u16_be.
  rewrite <-(Nat.add_0_r off) at 1. rewrite !(slice_read _ _ _ _ _ Hs Hl) by lia.
  destruct bs as [|b0 [|b1 [|]]]; try discriminate Hl. cbn. f_equal.
  pose proof (byte_range b0). pose proof (byte_range b1).
  rewrite lor_shiftl_add by lia. unfold u16. apply Z.mod_small. lia.
Qed.

Lemma read_u32_be_slice src off bs :
  slice off 4 src = bs → length bs = 4%nat → read_u32_be src off = Ok (be_val bs).
Proof.
  intros Hs Hl. pose proof (be_val_bound bs) as Hb. rewrite Hl in Hb. unfold read_u32_be.
  rewrite <-(Nat.add_0_r off) at 1. rewrite !(slice_read _ _ _ _ _ Hs Hl) by lia.
  destruct bs as [|b0 [|b1 [|b2 [|b3 [|]]]]]; try discriminate Hl. cbn. f_equal.
  change 24 with (16 + 8). rewrite lor_step by lia. change 16 with (8 + 8).
  rewrite lor_step by lia.
  pose proof (byte_range b0). pose proof (byte_range b1).
  pose proof (byte_range b2). pose proof (byte_range b3).
  rewrite !(lor_shiftl_add _ _ 8) by lia.
  unfold u32. rewrite Z.mod_small by exact Hb. reflexivity.
Qed.

Lemma read_u64_be_slice src off bs :
  slice off 8 src = bs → length bs = 8%nat → read_u64_be src off = Ok (be_val bs).
Proof.
  intros Hs Hl. pose proof (be_val_bound bs) as Hb. rewrite Hl in Hb. unfold read_u64_be.
  rewrite <-(Nat.add_0_r off) at 1. rewrite !(slice_read _ _ _ _ _ Hs Hl) by lia.
  destruct bs as [|b0 [|b1 [|b2 [|b3 [|b4 [|b5 [|b6 [|b7 [|]]]]]]]]]; try discriminate Hl.
  cbn. f_equal.
  change 56 with (48 + 8). rewrite lor_step by lia.
  change 48 with (40 + 8). rewrite lor_step by lia.
  change 40 with (32 + 8). rewrite lor_step by lia.
  change 32 with (24 + 8). rewrite lor_step by lia.
  change 24 with (16 + 8). rewrite lor_step by lia.
  change 16 with (8 + 8). rewrite lor_step by lia.
  repeat match goal with |- context [byte_to_Z ?b] =>
    lazymatch goal with H : 0 ≤ byte_to_Z b < 256 |- _ => fail
    | _ => pose proof (byte_range b) end end.
  rewrite !(lor_shiftl_add _ _ 8) by lia.
  unfold u64. rewrite Z.mod_small by exact Hb. reflexivity.
Qed.

(** ** Stores append (or overwrite with) the big-endian bytes *)

Lemma length_be_bytes n v : length (be_bytes n v) = n.
Proof. revert v; induction n as [|n IH]; intros v; [done|]. cbn. rewrite length_app, IH. simpl. lia. Qed.

Lemma put_u16_be_eq buf v : put_u16_be buf v = buf ++ be_bytes 2 v.
Proof. unfold put_u16_be. by rewrite !byte_of_shift, Z.shiftr_0_r. Qed.
Lemma put_u32_be_eq buf v : put_u32_be buf v = buf ++ be_bytes 4 v.
Proof. unfold put_u32_be. rewrite !byte_of_shift. cbn. by rewrite !Z.shiftr_shiftr, Z.shiftr_0_r by lia. Qed.
Lemma put_u64_be_eq buf v : put_u64_be buf v = buf ++ be_bytes 8 v.
Proof. unfold put_u64_be. rewrite !byte_of_shift. cbn. by rewrite !Z.shiftr_shiftr, Z.shiftr_0_r by lia. Qed.

#[export] Hint Rewrite put_u16_be_eq put_u32_be_eq put_u64_be_eq length_be_bytes : lsm.

Lemma slice_app_mid (pre mid post : bytes) n :
  length mid = n → slice (length pre) n (pre ++ mid ++ post) = mid.
Proof. intros <-. unfold slice. by rewrite drop_app_length, take_app_length. Qed.

Lemma be_val_u16 v : be_val (be_bytes 2 v) = u16 v.
Proof. apply be_val_bytes. Qed.
Lemma be_val_u32 v : be_val (be_bytes 4 v) = u32 v.
Proof. apply be_val_bytes. Qed.
Lemma be_val_u64 v : be_val (be_bytes 8 v) = u64 v.
Proof. apply be_val_bytes. Qed.

Lemma read_u16_be_mid pre v post off :
  off = length pre → read_u16_be (pre ++ be_bytes 2 v ++ post) off = Ok (u16 v).
Proof. intros ->. rewrite <-be_val_u16. apply read_u16_be_slice; [by apply slice_app_mid|done]. Qed.
Lemma read_u32_be_mid pre v post off :
  off = length pre → read_u32_be (pre ++ be_bytes 4 v ++ post) off = Ok (u32 v).
Proof. intros ->. rewrite <-be_val_u32. apply read_u32_be_slice; [by apply slice_app_mid|done]. Qed.
Lemma read_u64_be_mid pre v post off :
  off = length pre → read_u64_be (pre ++ be_bytes 8 v ++ post) off = Ok (u64 v).
Proof. intros ->. rewrite <-be_val_u64. apply read_u64_be_slice; [by apply slice_app_mid|done]. Qed.

(** The same with the buffer's shape as a premise, for formats with many fields. *)
Lemma read_u16_be_at buf pre v post off :
  buf = pre ++ be_bytes 2 v ++ post → off = length pre → read_u16_be buf off = Ok (u16 v).
Proof. intros -> ->. by apply read_u16_be_mid. Qed.
Lemma read_u32_be_at buf pre v post off :
  buf = pre ++ be_bytes 4 v ++ post → off = length pre → read_u32_be buf off = Ok (u32 v).
Proof. intros -> ->. by apply read_u32_be_mid. Qed.
Lemma read_u64_be_at buf pre v post off :
  buf = pre ++ be_bytes 8 v ++ post → off = length pre → read_u64_be buf off = Ok (u64 v).
Proof. intros -> ->. by apply read_u64_be_mid. Qed.
Lemma slice_at (buf pre mid post : bytes) off n :
  buf = pre ++ mid ++ post → off = length pre → n = length mid → slice off n buf = mid.
Proof. intros -> -> ->. by apply slice_app_mid. Qed.

(** Reads past the end are undefined behaviour. *)
Lemma read_u16_be_short buf off : (length buf < off + 2)%nat → ∃ e, read_u16_be buf off = Err (UB e).
Proof.
  intros H. unfold read_u16_be, byte_at. destruct (buf !! off) as [b|]; cbn; [|eauto].
  rewrite (lookup_ge_None_2 buf (off + 1)) by lia. cbn. eauto.
Qed.

(** Overwriting one byte after another. *)
Lemma set_byte_mid pre b b' post :
  set_byte (pre ++ b :: post) (length pre) b' = Ok (pre ++ b' :: post).
Proof.
  unfold set_byte. rewrite decide_True by (rewrite length_app; simpl; lia).
  by rewrite insert_app_r_alt, Nat.sub_diag by lia.
Qed.

Lemma set_byte_mid_at pre b b' post i :
  i = length pre → set_byte (pre ++ b :: post) i b' = Ok (pre ++ b' :: post).
Proof. intros ->. apply set_byte_mid. Qed.

Fixpoint set_bytes (buf : bytes) (off : nat) (bs : bytes) : res bytes :=
  match bs with [] => mret buf | b :: bs => buf ← set_byte buf off b; set_bytes buf (S off) bs end.

Lemma set_bytes_mid pre old new post :
  length old = length new →
  set_bytes (pre ++ old ++ post) (length pre) new = Ok (pre ++ new ++ post).
Proof.
  revert pre old; induction new as [|b new IH]; intros pre old Hl; destruct old as [|b' old];
    try discriminate Hl; [done|].
  cbn [set_bytes app]. rewrite set_byte_mid. cbn.
  rewrite (cons_middle b pre), (assoc_L (++)).
  specialize (IH (pre ++ [b]) old ltac:(by injection Hl)).
  rewrite length_app in IH; simpl in IH. rewrite Nat.add_1_r in IH.
  rewrite IH, <-(assoc_L (++)). done.
Qed.

Lemma bind_ret_r {A} (m : res A) : m ≫= mret = m.
Proof. by destruct m. Qed.

Lemma write_u16_be_eq dst off v : write_u16_be dst off v = set_bytes dst off (be_bytes 2 v).
Proof.
  unfold write_u16_be. rewrite !byte_of_shift, Z.shiftr_0_r, Nat.add_1_r. cbn.
  destruct set_byte; [cbn|done]. by destruct set_byte.
Qed.

Ltac chain_set_bytes :=
  change (8 + 8 + 8 + 8 + 8 + 8 + 8) with 56; change (8 + 8 + 8 + 8 + 8 + 8) with 48;
  change (8 + 8 + 8 + 8 + 8) with 40; change (8 + 8 + 8 + 8) with 32;
  change (8 + 8 + 8) with 24; change (8 + 8) with 16;
  repeat (match goal with |- context [set_byte ?d ?o ?b] => destruct (set_byte d o b); cbn end);
  try done.

Lemma write_u32_be_eq dst off v : write_u32_be dst off v = set_bytes dst off (be_bytes 4 v).
Proof.
  unfold write_u32_be. rewrite !byte_of_shift. cbn. rewrite !Z.shiftr_shiftr, Z.shiftr_0_r by lia.
  replace (off + 1)%nat with (S off) by lia. replace (off + 2)%nat with (S (S off)) by lia.
  replace (off + 3)%nat with (S (S (S off))) by lia. chain_set_bytes.
Qed.

Lemma write_u64_be_eq dst off v : write_u64_be dst off v = set_bytes dst off (be_bytes 8 v).
Proof.
  unfold write_u64_be. rewrite !byte_of_shift. cbn. rewrite !Z.shiftr_shiftr, Z.shiftr_0_r by lia.
  replace (off + 1)%nat with (S off) by lia. replace (off + 2)%nat with (S (S off)) by lia.
  replace (off + 3)%nat with (S (S (S off))) by lia.
  replace (off + 4)%nat with (S (S (S (S off)))) by lia.
  replace (off + 5)%nat with (S (S (S (S (S off))))) by lia.
  replace (off + 6)%nat with (S (S (S (S (S (S off)))))) by lia.
  replace (off + 7)%nat with (S (S (S (S (S (S (S off))))))) by lia. chain_set_bytes.
Qed.


(** Every string of [n] bytes is the encoding of its value. *)
Lemma be_bytes_val bs : be_bytes (length bs) (be_val bs) = bs.
Proof.
  induction bs as [|b bs IH] using rev_ind; [done|].
  rewrite length_app, Nat.add_1_r, be_val_snoc. cbn [be_bytes].
  pose proof (byte_range b). f_equal; [etrans; [|exact IH]; f_equal|f_equal].
  - rewrite Z.shiftr_div_pow2 by lia. change (2 ^ 8) with 256.
    rewrite Z.div_add_l, Z.div_small by lia. lia.
  - rewrite <-(u8_byte_to_Z b) at 2. apply byte_to_Z_inj. rewrite !byte_to_Z_u8.
    by rewrite Z.add_comm, Z.mod_add by lia.
Qed.

Lemma length_slice off n buf : (off + n ≤ length buf)%nat → length (slice off n buf) = n.
Proof. intros. unfold slice. rewrite length_take, length_drop. lia. Qed.

(** Reads inside the buffer succeed, and tell what the buffer holds there. *)
Lemma read_u16_be_in buf off : (off + 2 ≤ length buf)%nat →
  ∃ z, read_u16_be buf off = Ok z ∧ 0 ≤ z < 65536 ∧ slice off 2 buf = be_bytes 2 z.
Proof.
  intros H. pose proof (length_slice _ _ _ H) as Hl. exists (be_val (slice off 2 buf)).
  split_and!; [by apply read_u16_be_slice|..].
  1,2: pose proof (be_val_bound (slice off 2 buf)) as Hb; rewrite Hl in Hb; change (256 ^ Z.of_nat 2) with 65536 in Hb; lia.
  rewrite <-Hl at 2. by rewrite be_bytes_val.
Qed.
Lemma read_u32_be_in buf off : (off + 4 ≤ length buf)%nat →
  ∃ z, read_u32_be buf off = Ok z ∧ 0 ≤ z < 4294967296 ∧ slice off 4 buf = be_bytes 4 z.
Proof.
  intros H. pose proof (length_slice _ _ _ H) as Hl. exists (be_val (slice off 4 buf)).
  split_and!; [by apply read_u32_be_slice|..].
  1,2: pose proof (be_val_bound (slice off 4 buf)) as Hb; rewrite Hl in Hb; change (256 ^ Z.of_nat 4) with 4294967296 in Hb; lia.
  rewrite <-Hl at 2. by rewrite be_bytes_val.
Qed.

(** Adjacent slices are one. *)
Lemma slice_slice_app off n m buf : slice off n buf ++ slice (off + n) m buf = slice off (n + m) buf.
Proof. unfold slice. by rewrite <-drop_drop, take_take_drop. Qed.

Lemma crc32_hash_u32 `{!Zlib} data : u32 (crc32_hash data) = crc32_hash data.
Proof. apply u32_u32. Qed.

#[global] Opaque be_bytes.

(** ** Properties *)

(** What [put_uN_be] appended is what [read_uN_be] loads at that place, whatever
    follows: the value reduced modulo 2^16, 2^32, 2^64. *)
Lemma put_read pre post v :
  read_u16_be (put_u16_be pre v ++ post) (length pre) = Ok (u16 v) ∧
  read_u32_be (put_u32_be pre v ++ post) (length pre) = Ok (u32 v) ∧
  read_u64_be (put_u64_be pre v ++ post) (length pre) = Ok (u64 v).
Proof.
  autorewrite with lsm. rewrite <-!(assoc_L (++)).
  split_and!; [by apply read_u16_be_mid|by apply read_u32_be_mid|by apply read_u64_be_mid].
Qed.

(** Storing through a pointer inside the buffer changes exactly the field. *)
Lemma write_read pre old post v :
  (length old = 2%nat → ∃ dst, write_u16_be (pre ++ old ++ post) (length pre) v = Ok dst ∧
     dst = pre ++ be_bytes 2 v ++ post ∧ read_u16_be dst (length pre) = Ok (u16 v)) ∧
  (length old = 4%nat → ∃ dst, write_u32_be (pre ++ old ++ post) (length pre) v = Ok dst ∧
     dst = pre ++ be_bytes 4 v ++ post ∧ read_u32_be dst (length pre) = Ok (u32 v)) ∧
  (length old = 8%nat → ∃ dst, write_u64_be (pre ++ old ++ post) (length pre) v = Ok dst ∧
     dst = pre ++ be_bytes 8 v ++ post ∧ read_u64_be dst (length pre) = Ok (u64 v)).
Proof.
  split_and!; intros Hl;
    rewrite ?write_u16_be_eq, ?write_u32_be_eq, ?write_u64_be_eq;
    rewrite set_bytes_mid by (by rewrite length_be_bytes);
    eexists; (split; [done|]); (split; [done|]).
  - by apply read_u16_be_mid.
  - by apply read_u32_be_mid.
  - by apply read_u64_be_mid.
Qed.

(** A field that reaches past the end is undefined behaviour. *)
Lemma set_bytes_short buf (off : nat) bs : (length buf < off + length bs)%nat → (off ≤ length buf)%nat → ∃ what, set_bytes buf off bs = Err (UB what).
Proof.
  revert buf off; induction bs as [|b bs IH]; intros buf off Hlt Hle; simpl in *; [lia|]. unfold set_byte. case_decide; [|by eexists].
  apply IH; rewrite length_insert; lia.
Qed.

(** The byte order of every format.  What [put_uN_be] appended is what
    [read_uN_be] loads at that place, whatever follows: the value reduced modulo
    2^16, 2^32, 2^64.  Storing with [write_uN_be] changes exactly the field,
    leaves the length alone and is read back; a field that reaches past the end
    of the buffer is undefined behaviour. *)
Lemma codec_roundtrip pre old post v :
  (read_u16_be (put_u16_be pre v ++ post) (length pre) = Ok (u16 v) ∧
   read_u32_be (put_u32_be pre v ++ post) (length pre) = Ok (u32 v) ∧
   read_u64_be (put_u64_be pre v ++ post) (length pre) = Ok (u64 v)) ∧
  (length old = 2%nat → ∃ dst, write_u16_be (pre ++ old ++ post) (length pre) v = Ok dst ∧
     dst = pre ++ be_bytes 2 v ++ post ∧ read_u16_be dst (length pre) = Ok (u16 v)) ∧
  (length old = 4%nat → ∃ dst, write_u32_be (pre ++ old ++ post) (length pre) v = Ok dst ∧
     dst = pre ++ be_bytes 4 v ++ post ∧ read_u32_be dst (length pre) = Ok (u32 v)) ∧
  (length old = 8%nat → ∃ dst, write_u64_be (pre ++ old ++ post) (length pre) v = Ok dst ∧
     dst = pre ++ be_bytes 8 v ++ post ∧ read_u64_be dst (length pre) = Ok (u64 v)) ∧
  ((length old < 2)%nat → ∃ what, write_u16_be (pre ++ old) (length pre) v = Err (UB what)) ∧
  ((length old < 4)%nat → ∃ what, write_u32_be (pre ++ old) (length pre) v = Err (UB what)) ∧
  ((length old < 8)%nat → ∃ what, write_u64_be (pre ++ old) (length pre) v = Err (UB what)).
Proof.
  split; [apply put_read|]. destruct (write_read pre old post v) as (? & ? & ?). split_and!; [done..| | |]; intros Hl;
    rewrite ?write_u16_be_eq, ?write_u32_be_eq, ?write_u64_be_eq; apply set_bytes_short; rewrite ?length_app, ?length_be_bytes; lia.
Qed.

Lemma codec_roundtrip_witness :
  (∃ dst, write_u16_be ([x01] ++ [x02; x03] ++ [x04]) 1 258 = Ok dst ∧
    dst = [x01; x01; x02; x04] ∧ read_u16_be dst 1 = Ok 258%Z) ∧ ∃ what, write_u32_be [x01; x02; x03] 1 258 = Err (UB what).
Proof.
  destruct (codec_roundtrip [x01] [x02; x03] [x04] 258) as (_ & H2 & _ & _ & _ & H4 & _).
  split; [exact (H2 eq_refl)|apply H4; simpl; lia].
Defined.
