(* ===== verification/Key.v ===== *)
(** * Keys: include/mini_lsm/key.h, and ordered maps of keys

    A [KeySlice] (pointer and length) and a [KeyVec] (owned vector) are both
    their bytes here.  [compare] is the member function of [KeySlice]; the six
    operators are defined from it as in the code.  The second half is the theory
    of key-sorted association lists: [std::map<std::string, std::string>] seen
    through its iteration order, which every iterator of the program yields. *)
From Stdlib Require OrdersTac.
From S2P Require Import Prelude.

(** ** KeySlice *)
Module KeySlice.
(** The bytes of a C string, up to the terminating zero. *)
Fixpoint strlen (s : bytes) : nat :=
  match s with c :: s => if decide (c = x00) then 0 else S (strlen s) | [] => 0 end.
(** The constructor from a [const char*], which may be null. *)
Definition of_cstr (s : option bytes) : bytes :=
  match s with Some s => take (strlen s) s | None => [] end.
(** [len] bytes from [off] of a buffer; what lies outside has no bytes. *)
Definition from_slice (buf : bytes) (off len : nat) : res bytes :=
  if decide (off + len ≤ length buf) then Ok (slice off len buf)
  else Err (UB "KeySlice::from_slice out of bounds").
Definition to_string (s : bytes) : bytes := s.
Definition to_key_vec (s : bytes) : bytes := s.

Definition len (s : bytes) : nat := length s.
Definition is_empty (s : bytes) : bool := bool_decide (len s = 0).

(** [std::memcmp(p, q, n)]: the sign of the first differing unsigned byte. *)
Fixpoint memcmp (p q : bytes) (n : nat) {struct n} : Z :=
  match n, p, q with
  | S n, x :: p, y :: q =>
      if decide (x = y) then memcmp p q n else (byte_to_Z x - byte_to_Z y)%Z
  | _, _, _ => 0%Z
  end.

Definition compare (a b : bytes) : Z :=
  let min_len := len a `min` len b in
  let cmp := if decide (0 < min_len) then memcmp a b min_len else 0%Z in
  if decide (cmp ≠ 0%Z) then cmp
  else if decide (len a < len b) then (-1)%Z
  else if decide (len b < len a) then 1%Z
  else 0%Z.

Definition eqb (a b : bytes) : bool := bool_decide (compare a b = 0%Z).
Definition neb (a b : bytes) : bool := bool_decide (compare a b ≠ 0%Z).
Definition ltb (a b : bytes) : bool := bool_decide (compare a b < 0)%Z.
Definition gtb (a b : bytes) : bool := bool_decide (0 < compare a b)%Z.
Definition leb (a b : bytes) : bool := bool_decide (compare a b ≤ 0)%Z.
Definition geb (a b : bytes) : bool := bool_decide (0 ≤ compare a b)%Z.
End KeySlice.

(** ** KeyVec *)
Module KeyVec.
Definition from_slice (buf : bytes) (off len : nat) : res bytes :=
  if decide (off + len ≤ length buf) then Ok (slice off len buf)
  else Err (UB "KeyVec::from_slice out of bounds").
Definition clear (_ : bytes) : bytes := [].
(** [append(ptr, len)] with [ptr] pointing at [off] in [src]. *)
Definition append_ptr (data src : bytes) (off len : nat) : res bytes :=
  if decide (off + len ≤ length src) then Ok (data ++ slice off len src)
  else Err (UB "KeyVec::append out of bounds").
Definition append (data s : bytes) : bytes := data ++ s.
Definition set_from_slice (data s : bytes) : bytes := append (clear data) s.
Definition is_empty (data : bytes) : bool := KeySlice.is_empty data.
Definition from_vec (data : bytes) : bytes := data.
Definition as_key_slice (data : bytes) : bytes := data.
Definition as_slice (data : bytes) : bytes := as_key_slice data.
Definition into_inner (data : bytes) : bytes := data.
Definition len (data : bytes) : nat := length data.

(** The operators of a [KeyVec] and a [KeySlice]. *)
Definition eqb_slice (data rhs : bytes) : bool := KeySlice.eqb (as_key_slice data) rhs.
Definition neb_slice (data rhs : bytes) : bool := KeySlice.neb (as_key_slice data) rhs.
Definition ltb_slice (data rhs : bytes) : bool := KeySlice.ltb (as_key_slice data) rhs.
Definition gtb_slice (data rhs : bytes) : bool := KeySlice.gtb (as_key_slice data) rhs.
Definition leb_slice (data rhs : bytes) : bool := KeySlice.leb (as_key_slice data) rhs.
Definition geb_slice (data rhs : bytes) : bool := KeySlice.geb (as_key_slice data) rhs.

(** Of two [KeyVec]s. *)
Definition eqb (data rhs : bytes) : bool := KeySlice.eqb (as_key_slice data) (as_key_slice rhs).
Definition neb (data rhs : bytes) : bool := KeySlice.neb (as_key_slice data) (as_key_slice rhs).
Definition ltb (data rhs : bytes) : bool := KeySlice.ltb (as_key_slice data) (as_key_slice rhs).
Definition gtb (data rhs : bytes) : bool := KeySlice.gtb (as_key_slice data) (as_key_slice rhs).
Definition leb (data rhs : bytes) : bool := KeySlice.leb (as_key_slice data) (as_key_slice rhs).
Definition geb (data rhs : bytes) : bool := KeySlice.geb (as_key_slice data) (as_key_slice rhs).

(** Of a [KeySlice] and a [KeyVec]. *)
Definition slice_eqb (lhs data : bytes) : bool := KeySlice.eqb lhs (as_key_slice data).
Definition slice_neb (lhs data : bytes) : bool := KeySlice.neb lhs (as_key_slice data).
Definition slice_ltb (lhs data : bytes) : bool := KeySlice.ltb lhs (as_key_slice data).
Definition slice_gtb (lhs data : bytes) : bool := KeySlice.gtb lhs (as_key_slice data).
Definition slice_leb (lhs data : bytes) : bool := KeySlice.leb lhs (as_key_slice data).
Definition slice_geb (lhs data : bytes) : bool := KeySlice.geb lhs (as_key_slice data).

(** [operator<<] *)
Definition print_slice (os key : bytes) : bytes := os ++ KeySlice.to_string key.
Definition print (os key : bytes) : bytes := os ++ KeySlice.to_string (as_key_slice key).
End KeyVec.

(** ** The lexicographic order *)

(** The order the comparison is meant to compute. *)
Fixpoint lex (a b : bytes) : comparison :=
  match a, b with
  | [], [] => Eq
  | [], _ :: _ => Lt
  | _ :: _, [] => Gt
  | x :: a, y :: b =>
      match (byte_to_Z x ?= byte_to_Z y)%Z with Eq => lex a b | c => c end
  end.

Definition key_lt (a b : bytes) : Prop := (KeySlice.compare a b < 0)%Z.
Definition key_le (a b : bytes) : Prop := (KeySlice.compare a b ≤ 0)%Z.
#[export] Instance key_lt_dec : RelDecision key_lt := λ a b, Z_lt_dec _ _.
#[export] Instance key_le_dec : RelDecision key_le := λ a b, Z_le_dec _ _.

Lemma compare_cons x y a b :
  KeySlice.compare (x :: a) (y :: b) =
    if decide (x = y) then KeySlice.compare a b else (byte_to_Z x - byte_to_Z y)%Z.
Proof.
  unfold KeySlice.compare, KeySlice.len. simpl.
  destruct (decide (x = y)) as [->|Hne].
  - destruct (decide (0 < length a `min` length b)) as [_|Hz].
    + repeat case_decide; lia || done.
    + replace (length a `min` length b) with 0 by lia. simpl.
      repeat case_decide; lia || done.
  - assert (byte_to_Z x ≠ byte_to_Z y) by (by intros ?%byte_to_Z_inj).
    rewrite decide_True by lia. done.
Qed.

Lemma compare_lex a b : (KeySlice.compare a b ?= 0)%Z = lex a b.
Proof.
  revert b; induction a as [|x a IH]; intros [|y b]; [done..|].
  rewrite compare_cons. cbn [lex]. destruct (decide (x = y)) as [->|Hne].
  - by rewrite Z.compare_refl, IH.
  - assert (byte_to_Z x ≠ byte_to_Z y) by (by intros ?%byte_to_Z_inj).
    destruct (Z.compare_spec (byte_to_Z x) (byte_to_Z y)); [done|..];
      [apply Z.compare_lt_iff|apply Z.compare_gt_iff]; lia.
Qed.

Lemma lex_eq a b : lex a b = Eq ↔ a = b.
Proof.
  revert b; induction a as [|x a IH]; intros [|y b]; [done..|]. cbn [lex].
  destruct (Z.compare_spec (byte_to_Z x) (byte_to_Z y)) as [E|E|E].
  - apply byte_to_Z_inj in E as ->. rewrite IH. split; [by intros ->|by intros [= ->]].
  - split; [done|]. intros [= -> ->]. lia.
  - split; [done|]. intros [= -> ->]. lia.
Qed.

Lemma lex_antisym a b : lex b a = CompOpp (lex a b).
Proof.
  revert b; induction a as [|x a IH]; intros [|y b]; [done..|]. cbn [lex].
  rewrite (Z.compare_antisym (byte_to_Z x)). by destruct (_ ?= _)%Z; simpl.
Qed.

Lemma lex_trans a b c : lex a b = Lt → lex b c = Lt → lex a c = Lt.
Proof.
  revert b c; induction a as [|x a IH]; intros [|y b] [|z c]; try done. cbn [lex].
  destruct (Z.compare_spec (byte_to_Z x) (byte_to_Z y)) as [E1|E1|E1],
    (Z.compare_spec (byte_to_Z y) (byte_to_Z z)) as [E2|E2|E2]; try done; intros H1 H2.
  - rewrite E1, E2, Z.compare_refl. eauto.
  - rewrite (proj2 (Z.compare_lt_iff _ _)) by lia. done.
  - rewrite (proj2 (Z.compare_lt_iff _ _)) by lia. done.
  - rewrite (proj2 (Z.compare_lt_iff _ _)) by lia. done.
Qed.

Lemma key_lt_lex a b : key_lt a b ↔ lex a b = Lt.
Proof. unfold key_lt. by rewrite <-compare_lex, Z.compare_lt_iff. Qed.
Lemma compare_eq a b : KeySlice.compare a b = 0%Z ↔ a = b.
Proof. by rewrite <-lex_eq, <-compare_lex, Z.compare_eq_iff. Qed.
Lemma compare_gt a b : (0 < KeySlice.compare a b)%Z ↔ key_lt b a.
Proof.
  rewrite key_lt_lex, lex_antisym, <-compare_lex, <-Z.compare_gt_iff.
  by destruct (_ ?= _)%Z.
Qed.

#[export] Instance key_lt_strict : StrictOrder key_lt.
Proof.
  split.
  - intros a H%key_lt_lex. rewrite (proj2 (lex_eq a a)) in H; done.
  - intros a b c. rewrite !key_lt_lex. apply lex_trans.
Qed.

Lemma key_total a b : key_lt a b ∨ a = b ∨ key_lt b a.
Proof.
  rewrite !key_lt_lex, (lex_antisym a b), <-lex_eq. destruct (lex a b); auto.
Qed.

Lemma key_le_lteq a b : key_le a b ↔ key_lt a b ∨ a = b.
Proof. unfold key_le, key_lt. rewrite <-compare_eq. lia. Qed.

(** [order] over keys, from the Standard Library's functor. *)
Module KeyOrder.
Definition t := bytes.
Definition eq := @eq t.
Definition lt := key_lt.
Definition le := key_le.
Definition eq_equiv : Equivalence eq := eq_equivalence.
Definition lt_strorder : StrictOrder lt := key_lt_strict.
Lemma lt_compat : Proper (eq ==> eq ==> iff) lt.
Proof. by intros ?? -> ?? ->. Qed.
Definition le_lteq := key_le_lteq.
Definition lt_total := key_total.
End KeyOrder.
Module KeyOrderTac := OrdersTac.MakeOrderTac KeyOrder KeyOrder.

(** Closes goals about [key_lt], [key_le] and equality of keys. *)
Ltac key_order :=
  intros;
  repeat match goal with
  | H : key_lt _ _ |- _ => revert H
  | H : key_le _ _ |- _ => revert H
  | H : @eq bytes _ _ |- _ => revert H
  | H : ¬ key_lt _ _ |- _ => revert H
  | H : ¬ key_le _ _ |- _ => revert H
  | H : ¬ @eq bytes _ _ |- _ => revert H
  end;
  clear; unfold not;
  change key_lt with KeyOrder.lt; change key_le with KeyOrder.le;
  change (@eq bytes) with KeyOrder.eq; KeyOrderTac.order.

(** The six operators decide the order. *)
Lemma eqb_spec a b : KeySlice.eqb a b = bool_decide (a = b).
Proof. unfold KeySlice.eqb. apply bool_decide_ext, compare_eq. Qed.
Lemma neb_spec a b : KeySlice.neb a b = bool_decide (a ≠ b).
Proof. unfold KeySlice.neb. apply bool_decide_ext. by rewrite compare_eq. Qed.
Lemma ltb_spec a b : KeySlice.ltb a b = bool_decide (key_lt a b).
Proof. done. Qed.
Lemma gtb_spec a b : KeySlice.gtb a b = bool_decide (key_lt b a).
Proof. apply bool_decide_ext, compare_gt. Qed.
Lemma leb_spec a b : KeySlice.leb a b = bool_decide (key_le a b).
Proof. done. Qed.
Lemma key_nle a b : ¬ key_le a b ↔ key_lt b a.
Proof. split; intros; key_order. Qed.
Lemma geb_spec a b : KeySlice.geb a b = bool_decide (key_le b a).
Proof.
  apply bool_decide_ext. rewrite key_le_lteq, <-compare_gt, (symmetry_iff (=) b a), <-compare_eq. lia.
Qed.

(** The operators of owned keys decide the same order, and a key survives being
    copied into a vector. *)
Lemma vec_operators a b :
  KeyVec.eqb a b = bool_decide (a = b) ∧ KeyVec.ltb a b = bool_decide (key_lt a b) ∧ KeyVec.leb a b = bool_decide (key_le a b) ∧
  KeyVec.gtb a b = KeyVec.slice_ltb b a ∧ KeyVec.geb a b = KeyVec.leb_slice b a ∧ KeyVec.neb a b = negb (KeyVec.eqb_slice a b).
Proof.
  unfold KeyVec.eqb, KeyVec.ltb, KeyVec.leb, KeyVec.gtb, KeyVec.geb, KeyVec.neb, KeyVec.slice_ltb, KeyVec.leb_slice, KeyVec.eqb_slice, KeyVec.as_key_slice.
  rewrite !eqb_spec, !ltb_spec, !leb_spec, gtb_spec, geb_spec, neb_spec.
  split_and!; try done. apply bool_decide_not.
Qed.
Lemma to_key_vec_slice buf off len s : KeySlice.from_slice buf off len = Ok s →
  KeyVec.from_slice buf off len = Ok (KeySlice.to_key_vec s) ∧ KeyVec.len s = len.
Proof.
  unfold KeySlice.from_slice, KeyVec.from_slice, KeyVec.len. case_decide; [|done]. intros [= <-]. split; [done|].
  unfold slice. rewrite length_take, length_drop. lia.
Qed.
#[export] Hint Rewrite eqb_spec neb_spec ltb_spec gtb_spec leb_spec geb_spec : lsm.

(** ** Key-sorted association lists *)
Section sorted.
Context {V : Type}.
Implicit Types (l : list (bytes * V)) (k : bytes) (v : V).

Definition ksorted l : Prop := StronglySorted key_lt l.*1.
#[export] Instance ksorted_dec l : Decision (ksorted l).
Proof. unfold ksorted. apply _. Defined.
(** The finite map an association list stands for. *)
Definition kv_map l : gmap bytes V := list_to_map l.

Lemma ksorted_nil : ksorted [].
Proof. constructor. Qed.

Lemma ksorted_cons kv l :
  ksorted (kv :: l) ↔ ksorted l ∧ ∀ k, k ∈ l.*1 → key_lt kv.1 k.
Proof.
  unfold ksorted. rewrite fmap_cons, StronglySorted_cons, Forall_forall. tauto.
Qed.

Lemma ksorted_app l1 l2 :
  ksorted (l1 ++ l2) ↔ ksorted l1 ∧ ksorted l2 ∧
    ∀ k1 k2, k1 ∈ l1.*1 → k2 ∈ l2.*1 → key_lt k1 k2.
Proof.
  induction l1 as [|kv l1 IH]; simpl.
  - split; [|tauto]. intros. split_and!; [apply ksorted_nil|done|set_solver].
  - rewrite !ksorted_cons, IH, fmap_app. set_solver.
Qed.

Lemma ksorted_snoc l k v :
  ksorted (l ++ [(k, v)]) ↔ ksorted l ∧ ∀ k', k' ∈ l.*1 → key_lt k' k.
Proof.
  rewrite ksorted_app. split; [intros (? & ? & H); split; [done|]; set_solver|].
  intros [? H]. split_and!; [done| |set_solver].
  apply ksorted_cons; split; [apply ksorted_nil|set_solver].
Qed.

Lemma ksorted_NoDup l : ksorted l → NoDup l.*1.
Proof.
  induction l as [|kv l IH]; [constructor|]. rewrite ksorted_cons. intros [Hs Hlt].
  constructor; [|by apply IH]. intros Hin%Hlt. by apply (irreflexivity key_lt) in Hin.
Qed.

Lemma kv_map_nil : kv_map [] = ∅.
Proof. done. Qed.
Lemma kv_map_cons k v l : kv_map ((k, v) :: l) = <[k := v]> (kv_map l).
Proof. done. Qed.
Lemma kv_map_app l1 l2 : kv_map (l1 ++ l2) = kv_map l1 ∪ kv_map l2.
Proof. apply list_to_map_app. Qed.

Lemma kv_map_None l k : k ∉ l.*1 → kv_map l !! k = None.
Proof. apply not_elem_of_list_to_map_1. Qed.

Lemma kv_map_Some_key l k v : kv_map l !! k = Some v → k ∈ l.*1.
Proof.
  intros H. destruct (decide (k ∈ l.*1)) as [|Hn]; [done|].
  by rewrite kv_map_None in H.
Qed.

Lemma kv_map_is_Some l k : is_Some (kv_map l !! k) ↔ k ∈ l.*1.
Proof.
  split; [intros [v Hv]; by eapply kv_map_Some_key|]. intros Hin.
  destruct (kv_map l !! k) eqn:E; [by eexists|].
  by apply not_elem_of_list_to_map_2 in E.
Qed.

Lemma kv_map_lookup l k v : ksorted l → kv_map l !! k = Some v ↔ (k, v) ∈ l.
Proof. intros Hs. symmetry. apply elem_of_list_to_map. by apply ksorted_NoDup. Qed.

Lemma ksorted_head_lt k v l k' :
  ksorted ((k, v) :: l) → k' ∈ l.*1 → key_lt k k'.
Proof. rewrite ksorted_cons. intros [_ H]. apply H. Qed.

Lemma kv_map_below k v l k' :
  ksorted ((k, v) :: l) → key_lt k' k → kv_map ((k, v) :: l) !! k' = None.
Proof.
  intros Hs Hlt. apply kv_map_None. rewrite fmap_cons, elem_of_cons. simpl.
  intros [->|Hin]; [key_order|]. pose proof (ksorted_head_lt _ _ _ _ Hs Hin). key_order.
Qed.

Lemma kv_map_tail_head k v l : ksorted ((k, v) :: l) → kv_map l !! k = None.
Proof.
  intros Hs. apply kv_map_None. intros Hin. pose proof (ksorted_head_lt _ _ _ _ Hs Hin). key_order.
Qed.

(** The tail is the map without the head's key. *)
Lemma kv_map_tail k v l : ksorted ((k, v) :: l) → kv_map l = delete k (kv_map ((k, v) :: l)).
Proof.
  intros Hs. rewrite kv_map_cons, delete_insert_id; [done|]. by eapply kv_map_tail_head.
Qed.

(** A sorted list is determined by its map. *)
Lemma ksorted_ext l1 l2 : ksorted l1 → ksorted l2 → kv_map l1 = kv_map l2 → l1 = l2.
Proof.
  revert l2; induction l1 as [|[k1 v1] l1 IH]; intros [|[k2 v2] l2] H1 H2 Heq; [done|..].
  - by destruct (insert_non_empty (kv_map l2) k2 v2).
  - by destruct (insert_non_empty (kv_map l1) k1 v1).
  - assert (k1 = k2) as ->.
    { destruct (key_total k1 k2) as [Hlt|[?|Hlt]]; [|done|].
      - pose proof (kv_map_below _ _ _ _ H2 Hlt) as Hn.
        by rewrite <-Heq, kv_map_cons, lookup_insert_eq in Hn.
      - pose proof (kv_map_below _ _ _ _ H1 Hlt) as Hn.
        by rewrite Heq, kv_map_cons, lookup_insert_eq in Hn. }
    assert (v1 = v2) as ->.
    { apply (f_equal (lookup k2)) in Heq. rewrite !kv_map_cons, !lookup_insert_eq in Heq. congruence. }
    pose proof (proj1 (proj1 (ksorted_cons _ _) H1)). pose proof (proj1 (proj1 (ksorted_cons _ _) H2)).
    f_equal. apply IH; [done..|].
    rewrite (kv_map_tail k2 v2 l1), (kv_map_tail k2 v2 l2) by done. by rewrite Heq.
Qed.
End sorted.

#[global] Arguments kv_map : simpl never.
#[global] Arguments ksorted : simpl never.
#[export] Hint Resolve ksorted_nil : lsm.

(** ** [std::map<std::string, V>] through its iteration order

    The container keeps its entries sorted by key; a map is the list of its
    entries in iteration order. *)
Module StdMap.
Section ops.
Context {V : Type}.
Implicit Types l : list (bytes * V).

(** [m[k] = v]: inserts, or overwrites the entry in place. *)
Fixpoint assign (k : bytes) (v : V) l : list (bytes * V) :=
  match l with
  | [] => [(k, v)]
  | (k', v') :: l' =>
      if KeySlice.ltb k k' then (k, v) :: l
      else if KeySlice.ltb k' k then (k', v') :: assign k v l'
      else (k, v) :: l'
  end.

(** [m.find(k)], the value or [end()]. *)
Fixpoint find (k : bytes) l : option V :=
  match l with
  | [] => None
  | (k', v') :: l' => if KeySlice.eqb k' k then Some v' else find k l'
  end.

(** [m.lower_bound(k)], [m.upper_bound(k)]: the entries from there on. *)
Fixpoint lower_bound (k : bytes) l : list (bytes * V) :=
  match l with
  | [] => []
  | kv :: l' => if KeySlice.ltb kv.1 k then lower_bound k l' else l
  end.
Fixpoint upper_bound (k : bytes) l : list (bytes * V) :=
  match l with
  | [] => []
  | kv :: l' => if KeySlice.leb kv.1 k then upper_bound k l' else l
  end.

Lemma find_lookup k l : find k l = kv_map l !! k.
Proof.
  induction l as [|[k' v'] l IH]; [done|]. simpl. rewrite kv_map_cons, eqb_spec.
  case_bool_decide as H; [subst; by rewrite lookup_insert_eq|].
  by rewrite lookup_insert_ne.
Qed.

Lemma assign_keys k v l k' : k' ∈ (assign k v l).*1 → k' = k ∨ k' ∈ l.*1.
Proof.
  induction l as [|[k1 v1] l IH]; simpl; [set_solver|].
  rewrite !ltb_spec. repeat case_bool_decide; set_solver.
Qed.

Lemma assign_sorted k v l : ksorted l → ksorted (assign k v l).
Proof.
  induction l as [|[k1 v1] l IH]; simpl; intros Hs.
  { apply ksorted_cons. split; [apply ksorted_nil|set_solver]. }
  rewrite !ltb_spec. pose proof Hs as Hs0. apply ksorted_cons in Hs as [Hs Hlt]. simpl in Hlt.
  repeat case_bool_decide.
  - apply ksorted_cons. split; [done|]. simpl. intros k'. rewrite elem_of_cons.
    intros [->|Hin%Hlt]; key_order.
  - apply ksorted_cons. split; [by apply IH|]. simpl.
    intros k' [->|Hin]%assign_keys; [done|by apply Hlt].
  - assert (k = k1) as -> by key_order. by apply ksorted_cons.
Qed.

Lemma assign_map k v l : ksorted l → kv_map (assign k v l) = <[k := v]> (kv_map l).
Proof.
  induction l as [|[k1 v1] l IH]; simpl; intros Hs; [done|].
  rewrite !ltb_spec. apply ksorted_cons in Hs as [Hs Hlt].
  repeat case_bool_decide.
  - by rewrite !kv_map_cons.
  - rewrite !kv_map_cons, IH by done. apply insert_insert_ne. intros ->. key_order.
  - assert (k = k1) as -> by key_order. by rewrite !kv_map_cons, insert_insert_eq.
Qed.

(** On a sorted map the bounds cut exactly at the key. *)
Lemma lower_bound_filter k l :
  ksorted l → lower_bound k l = filter (λ kv, key_le k kv.1) l.
Proof.
  induction l as [|kv l IH]; intros Hs; [done|]. simpl. rewrite ltb_spec.
  pose proof Hs as Hs0. apply ksorted_cons in Hs as [Hs Hlt].
  case_bool_decide.
  - rewrite filter_cons_False by (simpl; key_order). by apply IH.
  - rewrite filter_cons_True by (simpl; key_order). f_equal. symmetry.
    apply filter_all. apply Forall_forall. intros kv' Hin.
    specialize (Hlt kv'.1 ltac:(by apply list_elem_of_fmap_2)). key_order.
Qed.

Lemma upper_bound_filter k l :
  ksorted l → upper_bound k l = filter (λ kv, key_lt k kv.1) l.
Proof.
  induction l as [|kv l IH]; intros Hs; [done|]. simpl. rewrite leb_spec.
  pose proof Hs as Hs0. apply ksorted_cons in Hs as [Hs Hlt].
  case_bool_decide.
  - rewrite filter_cons_False by (simpl; key_order). by apply IH.
  - rewrite filter_cons_True by (simpl; key_order). f_equal. symmetry.
    apply filter_all. apply Forall_forall. intros kv' Hin.
    specialize (Hlt kv'.1 ltac:(by apply list_elem_of_fmap_2)). key_order.
Qed.
End ops.
End StdMap.

(** ** The sorted entries of a finite map *)
Section entries.
Context {V : Type}.
Implicit Types (l : list (bytes * V)) (m : gmap bytes V).

Definition entries m : list (bytes * V) :=
  foldr (λ kv l, StdMap.assign kv.1 kv.2 l) [] (map_to_list m).

Lemma entries_fold_sorted l :
  ksorted (foldr (λ kv l, StdMap.assign kv.1 kv.2 l) [] l).
Proof. induction l; simpl; [apply ksorted_nil|]. by apply StdMap.assign_sorted. Qed.

Lemma entries_sorted m : ksorted (entries m).
Proof. apply entries_fold_sorted. Qed.

Lemma kv_map_entries m : kv_map (entries m) = m.
Proof.
  rewrite <-(list_to_map_to_list m) at 2. unfold entries.
  induction (map_to_list m) as [|[k v] l IH]; [done|]. simpl.
  by rewrite StdMap.assign_map, IH by apply entries_fold_sorted.
Qed.

Lemma entries_kv_map l : ksorted l → entries (kv_map l) = l.
Proof.
  intros Hs. apply ksorted_ext; [apply entries_sorted|done|apply kv_map_entries].
Qed.

Lemma length_entries m : length (entries m) = size m.
Proof.
  rewrite <-(kv_map_entries m) at 2. unfold kv_map. rewrite <-size_dom, dom_list_to_map.
  rewrite size_list_to_set by apply ksorted_NoDup, entries_sorted. by rewrite length_fmap.
Qed.

(** The least key of the map heads the list. *)
Lemma ksorted_head l k v :
  ksorted l → kv_map l !! k = Some v →
  (∀ k', is_Some (kv_map l !! k') → key_le k k') →
  ∃ l', l = (k, v) :: l' ∧ ksorted l' ∧ kv_map l' = delete k (kv_map l).
Proof.
  intros Hs Hk Hmin. destruct l as [|[k1 v1] l]; [done|].
  assert (k1 = k) as ->.
  { specialize (Hmin k1). rewrite kv_map_cons, lookup_insert_eq in Hmin.
    specialize (Hmin ltac:(eauto)). apply kv_map_Some_key in Hk.
    rewrite fmap_cons, elem_of_cons in Hk. destruct Hk as [->|Hk]; [done|].
    pose proof (ksorted_head_lt _ _ _ _ Hs Hk). key_order. }
  rewrite kv_map_cons, lookup_insert_eq in Hk. injection Hk as ->.
  exists l. split_and!; [done|by apply ksorted_cons in Hs as []|by apply kv_map_tail].
Qed.

(** Removing the least key of a left-biased union, when one side holds it. *)
Lemma ksorted_union_l la lb l k v :
  ksorted ((k, v) :: la) → ksorted l → kv_map l = kv_map ((k, v) :: la) ∪ kv_map lb →
  (∀ k', k' ∈ lb.*1 → key_lt k k') →
  ∃ l', l = (k, v) :: l' ∧ ksorted l' ∧ kv_map l' = kv_map la ∪ kv_map lb.
Proof.
  intros Hsa Hs Hm Hlb.
  destruct (ksorted_head l k v Hs) as (l' & -> & Hs' & Hm').
  - rewrite Hm, lookup_union, kv_map_cons, lookup_insert_eq. by destruct (_ !! k).
  - intros k'. rewrite Hm, lookup_union_is_Some, !kv_map_is_Some, fmap_cons, elem_of_cons.
    intros [[->|Hk%(ksorted_head_lt _ _ _ _ Hsa)]|Hk%Hlb]; simpl; key_order.
  - exists l'. split_and!; [done..|].
    rewrite Hm', Hm, delete_union, <-(kv_map_tail k v la) by done.
    by rewrite (delete_id (kv_map lb)) by (apply kv_map_None; intros ?%Hlb; key_order).
Qed.

Lemma ksorted_union_r la lb l k v :
  ksorted ((k, v) :: lb) → ksorted l → kv_map l = kv_map la ∪ kv_map ((k, v) :: lb) →
  (∀ k', k' ∈ la.*1 → key_lt k k') →
  ∃ l', l = (k, v) :: l' ∧ ksorted l' ∧ kv_map l' = kv_map la ∪ kv_map lb.
Proof.
  intros Hsb Hs Hm Hla.
  assert (kv_map la !! k = None) as Hk by (apply kv_map_None; intros ?%Hla; key_order).
  destruct (ksorted_head l k v Hs) as (l' & -> & Hs' & Hm').
  - by rewrite Hm, lookup_union_r, kv_map_cons, lookup_insert_eq.
  - intros k'. rewrite Hm, lookup_union_is_Some, !kv_map_is_Some, fmap_cons, elem_of_cons.
    intros [Hk'%Hla|[->|Hk'%(ksorted_head_lt _ _ _ _ Hsb)]]; simpl; key_order.
  - exists l'. split_and!; [done..|].
    by rewrite Hm', Hm, delete_union, <-(kv_map_tail k v lb), (delete_id (kv_map la)) by done.
Qed.

Lemma ksorted_below k kv l :
  ksorted (kv :: l) → key_lt k kv.1 → ∀ k', k' ∈ (kv :: l).*1 → key_lt k k'.
Proof.
  intros [_ Hl]%ksorted_cons Hk k'. rewrite fmap_cons, elem_of_cons.
  intros [->|?%Hl]; key_order.
Qed.
End entries.

(** ** Several sorted lists, the first ones shadowing the later ones *)
Section merged.
Context {V : Type}.
Implicit Types (ls : list (list (bytes * V))) (l : list (bytes * V)).

Definition merged ls : gmap bytes V := ⋃ (kv_map <$> ls).

Lemma merged_cons l ls : merged (l :: ls) = kv_map l ∪ merged ls.
Proof. done. Qed.

Lemma merged_is_Some ls k : is_Some (merged ls !! k) ↔ ∃ l, l ∈ ls ∧ k ∈ l.*1.
Proof.
  induction ls as [|l ls IH].
  { unfold merged. simpl. rewrite lookup_empty. split; [by intros []|]. by intros (?&?%not_elem_of_nil&_). }
  rewrite merged_cons, lookup_union_is_Some, IH, kv_map_is_Some.
  setoid_rewrite elem_of_cons. naive_solver.
Qed.

Lemma merged_first ls i l k v :
  ls !! i = Some l → kv_map l !! k = Some v →
  (∀ j l', j < i → ls !! j = Some l' → k ∉ l'.*1) → merged ls !! k = Some v.
Proof.
  revert i; induction ls as [|l0 ls IH]; intros i Hi Hk Hbefore; [done|].
  rewrite merged_cons. destruct i as [|i].
  - injection Hi as ->. by apply lookup_union_Some_l.
  - rewrite lookup_union_r; [|apply kv_map_None; by apply (Hbefore 0); [lia|]].
    apply (IH i); [done..|]. intros j l' Hj Hl'. apply (Hbefore (S j)); [lia|done].
Qed.

Lemma merged_update ls i l l' k :
  ls !! i = Some l → kv_map l' !! k = kv_map l !! k →
  merged (<[i := l']> ls) !! k = merged ls !! k.
Proof.
  revert i; induction ls as [|l0 ls IH]; intros i Hi Hk; [done|].
  destruct i as [|i]; simpl; rewrite !merged_cons, !lookup_union.
  - injection Hi as ->. by rewrite Hk.
  - by rewrite IH.
Qed.
End merged.
#[global] Arguments merged : simpl never.

Lemma ksorted_filter {V} (P : bytes * V → Prop) `{∀ x, Decision (P x)} (l : list (bytes * V)) :
  ksorted l → ksorted (filter P l).
Proof.
  induction l as [|e l IH]; [done|]. intros [Hs Hlt]%ksorted_cons.
  rewrite filter_cons. case_decide; [|by apply IH]. apply ksorted_cons. split; [by apply IH|].
  intros k (e' & -> & [_ He']%list_elem_of_filter)%list_elem_of_fmap_1.
  by apply Hlt, list_elem_of_fmap_2.
Qed.

(** ** Properties *)

(** The member function [compare] and the six operators are the
    lexicographic order on unsigned bytes with a shorter key first: a strict
    total order, [==] being equality of the contents. *)
Lemma key_comparison_total_order (a b c : bytes) :
  (KeySlice.compare a b ?= 0)%Z = lex a b ∧
  (KeySlice.eqb a b = true ↔ a = b) ∧
  KeySlice.neb a b = negb (KeySlice.eqb a b) ∧
  KeySlice.gtb a b = KeySlice.ltb b a ∧
  KeySlice.leb a b = negb (KeySlice.ltb b a) ∧
  KeySlice.geb a b = negb (KeySlice.ltb a b) ∧
  KeySlice.ltb a a = false ∧
  (KeySlice.ltb a b = true ∨ a = b ∨ KeySlice.ltb b a = true) ∧
  (KeySlice.ltb a b = true → KeySlice.ltb b c = true → KeySlice.ltb a c = true) ∧
  (a = [] ∨ KeySlice.ltb c (c ++ a) = true).
Proof.
  rewrite eqb_spec, neb_spec, gtb_spec, leb_spec, geb_spec, !ltb_spec, !bool_decide_eq_true, <-!bool_decide_not.
  split_and!; try (by apply bool_decide_ext; split; intros; key_order); try done.
  - apply compare_lex.
  - apply bool_decide_false. intros ?. key_order.
  - apply key_total.
  - intros. by transitivity b.
  - destruct a as [|x a]; [by left|right]. apply key_lt_lex.
    induction c as [|y c IH]; [done|]. simpl. by rewrite Z.compare_refl.
Qed.
