(* ===== verification/Iterators.v ===== *)
(** * The iterator stack: include/mini_lsm/iterators.h, lsm_iterator.h

    [StorageIterator] is the abstract class of the program: four virtual
    functions.  [IteratorSpec] is what its implementations promise to the
    iterators built on top of them: an iterator denotes the key-sorted list of
    the entries it has left, and [next] drops the first one.  The combinators
    are verified against that interface only. *)
From S2P Require Import Prelude Key.

Abbreviation kv := (bytes * bytes)%type.

(** ** Interface *)
Class StorageIterator (W I : Type) := {
  key : I → res bytes;
  value : I → res bytes;
  is_valid : I → bool;
  next : I → eff W I }.
#[export] Hint Mode StorageIterator - + : typeclass_instances.

Class IteratorSpec (W I : Type) `{!StorageIterator W I} (Inv : W → Prop) := {
  denotes : I → list kv → Prop;
  denotes_sorted it l : denotes it l → ksorted l;
  denotes_valid_nil it : denotes it [] → is_valid it = false;
  denotes_valid_cons it kv l : denotes it (kv :: l) → is_valid it = true;
  denotes_key it k v l : denotes it ((k, v) :: l) → key it = Ok k;
  denotes_value it k v l : denotes it ((k, v) :: l) → value it = Ok v;
  denotes_next it kv l : denotes it (kv :: l) → next it ⇓{Inv} λ it', denotes it' l }.
#[export] Hint Mode IteratorSpec - + - - : typeclass_instances.

(** [Bound]: the struct's [type] decides which constructor, its [key] the argument. *)
Inductive Bound :=
| Unbounded
| Included (k : bytes)
| Excluded (k : bytes).

(** ** StorageIteratorWrapper

    An iterator of any type behind the virtual functions of [StorageIterator]. *)
Module StorageIteratorWrapper.
Record t (T : Type) := mk { iter_ : T }.
Arguments mk {_} _.
Arguments iter_ {_} _.

Definition inner {T} (it : t T) : T := iter_ it.

Section code.
Context {W T : Type} `{!StorageIterator W T}.

#[global] Instance storage : StorageIterator W (t T) := {
  key it := Iterators.key (iter_ it);
  value it := Iterators.value (iter_ it);
  is_valid it := Iterators.is_valid (iter_ it);
  next it := iter ← Iterators.next (iter_ it); mret (mk iter) }.
End code.

(** It promises what the iterator inside promises. *)
Section spec.
Context {W T : Type} {Inv : W → Prop} `{!StorageIterator W T} `{!IteratorSpec W T Inv}.

#[global] Program Instance spec : IteratorSpec W (t T) Inv := { denotes it l := Iterators.denotes (Inv:=Inv) (iter_ it) l }.
Next Obligation. intros it l Hd. exact (denotes_sorted _ _ Hd). Qed.
Next Obligation. intros it Hd. exact (denotes_valid_nil _ Hd). Qed.
Next Obligation. intros it kv l Hd. exact (denotes_valid_cons _ _ _ Hd). Qed.
Next Obligation. intros it k v l Hd. exact (denotes_key _ _ _ _ Hd). Qed.
Next Obligation. intros it k v l Hd. exact (denotes_value _ _ _ _ Hd). Qed.
Next Obligation.
  intros it kv l Hd. eapply wp_bind; [exact (denotes_next _ _ _ Hd)|]. intros iter Hi. by apply wp_ret.
Qed.
End spec.
End StorageIteratorWrapper.

(** ** TwoMergeIterator *)
Module TwoMergeIterator.
Record t (A B : Type) := mk { a_ : A; b_ : B; first_ : bool }.
Arguments mk {_ _} _ _ _.
Arguments a_ {_ _} _.
Arguments b_ {_ _} _.
Arguments first_ {_ _} _.

Section code.
Context {W A B : Type} `{!StorageIterator W A} `{!StorageIterator W B}.

Definition skip_b (it : t A B) : eff W (t A B) :=
  if is_valid (a_ it) then
    if is_valid (b_ it) then
      kb ← lift (key (b_ it)); ka ← lift (key (a_ it));
      if KeySlice.eqb kb ka then
        b ← next (b_ it); mret (mk (a_ it) b (first_ it))
      else mret it
    else mret it
  else mret it.

Definition choose_a (it : t A B) : res bool :=
  if negb (is_valid (a_ it)) then mret false
  else if negb (is_valid (b_ it)) then mret true
  else ka ← key (a_ it); kb ← key (b_ it); mret (KeySlice.ltb ka kb).

(** [skip_b(); first_ = choose_a();], the end of the constructor and of [next]. *)
Definition settle (it : t A B) : eff W (t A B) :=
  it ← skip_b it; first ← lift (choose_a it);
  mret (mk (a_ it) (b_ it) first).

Definition create (a : A) (b : B) : eff W (t A B) := settle (mk a b false).

#[global] Instance storage : StorageIterator W (t A B) := {
  key it := if first_ it then key (a_ it) else key (b_ it);
  value it := if first_ it then value (a_ it) else value (b_ it);
  is_valid it := if first_ it then is_valid (a_ it) else is_valid (b_ it);
  next it :=
    it ← (if first_ it then a ← next (a_ it); mret (mk a (b_ it) (first_ it))
          else b ← next (b_ it); mret (mk (a_ it) b (first_ it)));
    settle it }.
End code.

Section spec.
Context {W A B : Type} {Inv : W → Prop}.
Context `{!StorageIterator W A} `{!StorageIterator W B}.
Context `{!IteratorSpec W A Inv} `{!IteratorSpec W B Inv}.
Implicit Types (it : t A B) (la lb l : list kv).
#[local] Abbreviation denotes := (denotes (Inv:=Inv)).

(** After [skip_b] the heads differ, and the smaller one is selected. *)
Definition chosen (la lb : list kv) : option bool :=
  match la, lb with
  | [], _ => Some false
  | _, [] => Some true
  | (ka, _) :: _, (kb, _) :: _ =>
      if decide (ka = kb) then None else Some (bool_decide (key_lt ka kb))
  end.

Definition repr (it : t A B) l : Prop := ∃ la lb,
  denotes (a_ it) la ∧ denotes (b_ it) lb ∧
  chosen la lb = Some (first_ it) ∧
  ksorted l ∧ kv_map l = kv_map la ∪ kv_map lb.

Lemma skip_b_spec it la lb :
  denotes (a_ it) la → denotes (b_ it) lb →
  skip_b it ⇓{Inv} λ it', ∃ lb',
    denotes (a_ it') la ∧ denotes (b_ it') lb' ∧
    is_Some (chosen la lb') ∧ kv_map la ∪ kv_map lb' = kv_map la ∪ kv_map lb.
Proof.
  intros Ha Hb. unfold skip_b. destruct la as [|[ka va] la].
  { rewrite (denotes_valid_nil _ Ha). apply wp_ret. eauto 6. }
  rewrite (denotes_valid_cons _ _ _ Ha). destruct lb as [|[kb vb] lb].
  { rewrite (denotes_valid_nil _ Hb). apply wp_ret. exists []. eauto 6. }
  rewrite (denotes_valid_cons _ _ _ Hb).
  eapply wp_bind_ok; [by eapply denotes_key|].
  eapply wp_bind_ok; [by eapply denotes_key|].
  rewrite eqb_spec. destruct (decide (kb = ka)) as [->|Hk];
    [rewrite bool_decide_true by done|rewrite bool_decide_false by done].
  - eapply wp_bind; [by eapply denotes_next|]. intros b' Hb'.
    apply wp_ret. exists lb. split_and!; [done|done| |].
    + simpl. destruct lb as [|[kb' vb'] lb]; [done|].
      pose proof (denotes_sorted _ _ Hb) as Hs.
      pose proof (ksorted_head_lt _ _ _ kb' Hs ltac:(set_solver)).
      rewrite decide_False by key_order. eauto.
    + rewrite (kv_map_cons ka vb), union_insert_shadow; [done|].
      rewrite kv_map_cons, lookup_insert_eq. eauto.
  - apply wp_ret. exists ((kb, vb) :: lb). split_and!; [done|done| |done].
    simpl. rewrite decide_False by done. eauto.
Qed.

Lemma choose_a_spec it la lb first :
  denotes (a_ it) la → denotes (b_ it) lb →
  chosen la lb = Some first → choose_a it = Ok first.
Proof.
  intros Ha Hb Hc. unfold choose_a. destruct la as [|[ka va] la].
  { rewrite (denotes_valid_nil _ Ha). by injection Hc as <-. }
  rewrite (denotes_valid_cons _ _ _ Ha). destruct lb as [|[kb vb] lb].
  { rewrite (denotes_valid_nil _ Hb). by injection Hc as <-. }
  rewrite (denotes_valid_cons _ _ _ Hb), (denotes_key _ _ _ _ Ha). cbn.
  rewrite (denotes_key _ _ _ _ Hb). cbn in *. by case_decide; simplify_eq.
Qed.

Lemma settle_spec it la lb l :
  denotes (a_ it) la → denotes (b_ it) lb →
  ksorted l → kv_map l = kv_map la ∪ kv_map lb →
  settle it ⇓{Inv} λ it', repr it' l.
Proof.
  intros Ha Hb Hs Hm. eapply wp_bind; [by eapply skip_b_spec|].
  intros it' (lb' & Ha' & Hb' & [first Hc] & Hu).
  eapply wp_bind_ok; [by eapply choose_a_spec|].
  apply wp_ret. exists la, lb'. by rewrite Hu.
Qed.

(** What an iterator that denotes [l] is looking at. *)
Lemma two_merge_repr_cases it l : repr it l →
  (first_ it = true ∧ ∃ k v la lb l', denotes (a_ it) ((k, v) :: la) ∧ denotes (b_ it) lb ∧
     l = (k, v) :: l' ∧ ksorted l' ∧ kv_map l' = kv_map la ∪ kv_map lb) ∨
  (first_ it = false ∧ ∃ k v la lb l', denotes (a_ it) la ∧ denotes (b_ it) ((k, v) :: lb) ∧
     l = (k, v) :: l' ∧ ksorted l' ∧ kv_map l' = kv_map la ∪ kv_map lb) ∨
  (first_ it = false ∧ l = [] ∧ denotes (b_ it) []).
Proof.
  intros (la & lb & Ha & Hb & Hc & Hs & Hm).
  pose proof (denotes_sorted _ _ Ha) as Hsa. pose proof (denotes_sorted _ _ Hb) as Hsb.
  destruct la as [|[ka va] la]; [destruct lb as [|[kb vb] lb]|].
  - right; right. injection Hc as <-. split_and!; [done| |done].
    apply ksorted_ext; [done..|]. by rewrite Hm, kv_map_nil, (left_id_L ∅ (∪)).
  - right; left. injection Hc as <-. split; [done|].
    rewrite kv_map_nil, (left_id_L ∅ (∪)) in Hm. apply ksorted_ext in Hm as ->; [|done..].
    exists kb, vb, [], lb, lb. rewrite kv_map_nil, (left_id_L ∅ (∪)).
    split_and!; try done. by apply ksorted_cons in Hsb as [].
  - assert (∀ k', k' ∈ lb.*1 → key_lt ka k' ∨ first_ it = false) as Hlt.
    { intros k' Hk'. destruct lb as [|[kb vb] lb]; [set_solver|]. cbn in Hc.
      case_decide; [done|]. injection Hc as Hf. destruct (decide (key_lt ka kb)) as [Hab|].
      - left. by apply (ksorted_below ka _ _ Hsb Hab).
      - right. by rewrite <-Hf, bool_decide_false. }
    destruct (first_ it) eqn:Hf.
    + left. split; [done|].
      destruct (ksorted_union_l la lb l ka va) as (l' & -> & ? & ?); [done..| |].
      { intros k' Hk'. by destruct (Hlt k' Hk'). }
      exists ka, va, la, lb, l'. done.
    + right; left. split; [done|]. destruct lb as [|[kb vb] lb]; [done|].
      cbn in Hc. case_decide; [done|]. injection Hc as Hf'%bool_decide_eq_false_1.
      destruct (ksorted_union_r ((ka, va) :: la) lb l kb vb) as (l' & -> & ? & ?); [done..| |].
      { apply ksorted_below; [done|]. simpl. key_order. }
      exists kb, vb, ((ka, va) :: la), lb, l'. done.
Qed.

#[global] Instance spec : IteratorSpec W (t A B) Inv.
Proof.
  exists repr.
  - by intros it l (? & ? & ? & ? & ? & ? & ?).
  - intros it Hr. apply two_merge_repr_cases in Hr as [(_&?&?&?&?&?&_&_&[=]&_)|[(_&?&?&?&?&?&_&_&[=]&_)|(Hf&_&Hb)]].
    simpl. rewrite Hf. by apply denotes_valid_nil.
  - intros it kv l Hr. simpl.
    apply two_merge_repr_cases in Hr as [(->&?&?&?&?&?&Ha&_)|[(->&?&?&?&?&?&_&Hb&_)|(_&[=]&_)]].
    + by eapply denotes_valid_cons.
    + by eapply denotes_valid_cons.
  - intros it k v l Hr. simpl.
    apply two_merge_repr_cases in Hr as [(->&?&?&?&?&?&Ha&_&[= -> -> ->]&_)|[(->&?&?&?&?&?&_&Hb&[= -> -> ->]&_)|(_&[=]&_)]].
    + by eapply denotes_key.
    + by eapply denotes_key.
  - intros it k v l Hr. simpl.
    apply two_merge_repr_cases in Hr as [(->&?&?&?&?&?&Ha&_&[= -> -> ->]&_)|[(->&?&?&?&?&?&_&Hb&[= -> -> ->]&_)|(_&[=]&_)]].
    + by eapply denotes_value.
    + by eapply denotes_value.
  - intros it kv l Hr. simpl.
    apply two_merge_repr_cases in Hr as [(->&?&?&?&?&?&Ha&Hb&[= -> ->]&?&?)|[(->&?&?&?&?&?&Ha&Hb&[= -> ->]&?&?)|(_&[=]&_)]].
    + apply wp_bind_assoc. eapply wp_bind; [by eapply denotes_next|]. intros a' Ha'.
      apply wp_ret_bind. eapply settle_spec; [exact Ha'|exact Hb|done..].
    + apply wp_bind_assoc. eapply wp_bind; [by eapply denotes_next|]. intros b' Hb'.
      apply wp_ret_bind. eapply settle_spec; [exact Ha|exact Hb'|done..].
Defined.

Lemma two_merge_create_repr a b la lb :
  denotes a la → denotes b lb →
  create a b ⇓{Inv} λ it, repr it (entries (kv_map la ∪ kv_map lb)).
Proof.
  intros Ha Hb. eapply settle_spec; [done..|apply entries_sorted|apply kv_map_entries].
Qed.
End spec.
End TwoMergeIterator.

(** ** MergeIterator *)
Module MergeIterator.
Record HeapWrapper (I : Type) := wrap { index : nat; iter : I }.
Arguments wrap {_} _ _.
Arguments index {_} _.
Arguments iter {_} _.

(** [heap_] is the sequence of elements in the order [std::pop_heap] hands
    them out (largest under [operator<] first); [operator<] is a total order
    on the elements, their indices being distinct, so [front()] does not
    depend on the shape of the heap. *)
Record t (I : Type) := mk {
  heap_ : list (HeapWrapper I);
  current_ : option (HeapWrapper I) }.
Arguments mk {_} _ _.
Arguments heap_ {_} _.
Arguments current_ {_} _.

Section code.
Context {W I : Type} `{!StorageIterator W I}.

(** [HeapWrapper::operator<]. *)
Definition wrapper_ltb (x y : HeapWrapper I) : res bool :=
  kx ← key (iter x); ky ← key (iter y);
  let cmp := KeySlice.compare kx ky in
  mret (if decide (cmp ≠ 0%Z) then bool_decide (0 < cmp)%Z
        else bool_decide (index y < index x)).

(** [heap_.push_back(x); std::push_heap(...)]. *)
Fixpoint push_heap (x : HeapWrapper I) (h : list (HeapWrapper I)) :
    res (list (HeapWrapper I)) :=
  match h with
  | [] => mret [x]
  | y :: h' =>
      b ← wrapper_ltb y x;
      if b : bool then mret (x :: h) else h'' ← push_heap x h'; mret (y :: h'')
  end.

(** [std::make_heap]. *)
Fixpoint make_heap (xs : list (HeapWrapper I)) : res (list (HeapWrapper I)) :=
  match xs with
  | [] => mret []
  | x :: xs => h ← make_heap xs; push_heap x h
  end.

(** [std::pop_heap(...)], then [heap_.back()] and [heap_.pop_back()]. *)
Definition pop_heap (h : list (HeapWrapper I)) :
    res (HeapWrapper I * list (HeapWrapper I)) :=
  match h with x :: h => mret (x, h) | [] => Err (UB "pop_heap of an empty heap") end.

(** The constructor's first loop, from index [i]. *)
Fixpoint valid_iters (i : nat) (iters : list I) : list (HeapWrapper I) :=
  match iters with
  | [] => []
  | it :: iters =>
      if is_valid it then wrap i it :: valid_iters (S i) iters
      else valid_iters (S i) iters
  end.

Definition create (iters : list I) : eff W (t I) :=
  heap ← lift (make_heap (valid_iters 0 iters));
  if decide (heap = []) then mret (mk heap None)
  else '(top, heap) ← lift (pop_heap heap); mret (mk heap (Some top)).

(** One round of the [while] loop of [next]: the front element, if it has
    the key of [c], is advanced and goes back into the heap while valid. *)
Definition drain_step (c : HeapWrapper I) (h : list (HeapWrapper I)) :
    eff W (list (HeapWrapper I) + list (HeapWrapper I)) :=
  match h with
  | [] => mret (inr h)
  | front :: _ =>
      kf ← lift (key (iter front)); kc ← lift (key (iter c));
      if KeySlice.eqb kf kc then
        '(top, h) ← lift (pop_heap h);
        it ← next (iter top);
        let top := wrap (index top) it in
        if is_valid it then h ← lift (push_heap top h); mret (inl h)
        else mret (inl h)
      else mret (inr h)
  end.

(** The end of [next], once [*current_] is [c] (already advanced) and the
    heap is [h]: replace an exhausted [*current_] by the top of the heap,
    or swap them when [*current_ < heap_.front()]. *)
Definition requeue (c : HeapWrapper I) (h : list (HeapWrapper I)) : res (t I) :=
  if negb (is_valid (iter c)) then
    match h with
    | [] => mret (mk h None)
    | _ => '(top, h) ← pop_heap h; mret (mk h (Some top))
    end
  else
    match h with
    | [] => mret (mk h (Some c))
    | front :: _ =>
        b ← wrapper_ltb c front;
        if b : bool then
          '(top, h) ← pop_heap h;
          h ← push_heap c h; mret (mk h (Some top))
        else mret (mk h (Some c))
    end.

(** The loop runs at most once per heap element when the iterators are
    sorted (an advanced element has a larger key), hence the fuel. *)
Definition next_ (m : t I) : eff W (t I) :=
  lift (cassert (bool_decide (is_Some (current_ m))) "current_.has_value()");;
  c ← lift (deref (current_ m) "current_ is empty");
  h ← loop (S (length (heap_ m))) (drain_step c) (heap_ m);
  it ← next (iter c);
  lift (requeue (wrap (index c) it) h).

#[global] Instance storage : StorageIterator W (t I) := {
  key m := c ← deref (current_ m) "current_ is empty"; key (iter c);
  value m := c ← deref (current_ m) "current_ is empty"; value (iter c);
  is_valid m := match current_ m with Some c => is_valid (iter c) | None => false end;
  next := next_ }.
End code.

(** *** The heap *)
Section heap.
Context {W I : Type} {Inv : W → Prop} `{!StorageIterator W I}.
Implicit Types (x y : HeapWrapper I) (h : list (HeapWrapper I)).

(** Better rank: smaller key, then smaller index. *)
Definition rank_lt x y : Prop := ∃ kx ky,
  key (iter x) = Ok kx ∧ key (iter y) = Ok ky ∧
  (key_lt kx ky ∨ kx = ky ∧ index x < index y).
Definition has_key x : Prop := ∃ k, key (iter x) = Ok k.

#[export] Instance rank_lt_trans : Transitive rank_lt.
Proof.
  intros x y z (kx & ky & Hx & Hy & H1) (ky' & kz & Hy' & Hz & H2).
  rewrite Hy in Hy'. injection Hy' as <-. exists kx, kz. split_and!; [done..|].
  destruct H1 as [?|[-> ?]], H2 as [?|[-> ?]];
    [left; key_order|left; key_order|left; key_order|right; split; [done|lia]].
Qed.

Lemma wrapper_ltb_spec x y : has_key x → has_key y → index x ≠ index y →
  ∃ b, wrapper_ltb x y = Ok b ∧ if b then rank_lt y x else rank_lt x y.
Proof.
  intros [kx Hx] [ky Hy] Hne. unfold wrapper_ltb. rewrite Hx. cbn. rewrite Hy. cbn.
  eexists; split; [done|].
  pose proof (compare_eq kx ky) as Heq. pose proof (compare_gt kx ky) as Hgt.
  case_decide as Hc.
  - case_bool_decide as H0; [exists ky, kx|exists kx, ky]; split_and!; try done; left.
    + by apply Hgt.
    + unfold key_lt. lia.
  - apply Heq in Hc as ->.
    case_bool_decide; [exists ky, ky|exists ky, ky]; split_and!; try done; right; split; auto; lia.
Qed.

Lemma push_heap_spec x h :
  has_key x → Forall has_key h → index x ∉ index <$> h → StronglySorted rank_lt h →
  ∃ h', push_heap x h = Ok h' ∧ h' ≡ₚ x :: h ∧ StronglySorted rank_lt h'.
Proof.
  intros Hx. induction h as [|y h IH]; intros Hh Hni Hs; simpl.
  { exists [x]. split_and!; [done..|]. repeat constructor. }
  apply Forall_cons in Hh as [Hy Hh]. apply StronglySorted_cons in Hs as [Hyh Hs].
  destruct (wrapper_ltb_spec y x) as (b & Hb & Hr); [done..|set_solver|].
  rewrite Hb. cbn. destruct b.
  - exists (x :: y :: h). split_and!; [done..|]. constructor; [by constructor|].
    constructor; [done|]. eapply Forall_impl; [done|]. intros z Hz. by trans y.
  - destruct IH as (h' & Hp & Hperm & Hs'); [done|set_solver|done|].
    rewrite Hp. cbn. exists (y :: h'). split_and!; [done| |].
    + rewrite Hperm. constructor.
    + constructor; [done|]. rewrite Hperm. by constructor.
Qed.
End heap.

(** *** What the merge denotes

    [ls] lists what each input iterator has left, by index.  [tracks ls ws]:
    the wrappers [ws] are the inputs that have something left. *)
Section spec.
Context {W I : Type} {Inv : W → Prop}.
Context `{!StorageIterator W I} `{!IteratorSpec W I Inv}.
Implicit Types (x y : HeapWrapper I) (h ws : list (HeapWrapper I)) (ls : list (list kv)).
Implicit Types (m : t I) (iters : list I).
#[local] Abbreviation denotes := (denotes (Inv:=Inv)).

Record tracks ls ws : Prop := {
  tracks_NoDup : NoDup (index <$> ws);
  tracks_elem x : x ∈ ws → ∃ e l, ls !! index x = Some (e :: l) ∧ denotes (iter x) (e :: l);
  tracks_index i e l : ls !! i = Some (e :: l) → i ∈ index <$> ws }.

#[export] Instance tracks_perm : Proper ((=) ==> (≡ₚ) ==> iff) tracks.
Proof.
  intros ls ? <- ws ws' Hp. split; intros [H1 H2 H3]; split.
  - by rewrite <-Hp.
  - intros x. rewrite <-Hp. apply H2.
  - intros i e l Hi. rewrite <-Hp. by eapply H3.
  - by rewrite Hp.
  - intros x. rewrite Hp. apply H2.
  - intros i e l Hi. rewrite Hp. by eapply H3.
Qed.

Lemma tracks_key ls ws x : tracks ls ws → x ∈ ws →
  ∃ k v l, ls !! index x = Some ((k, v) :: l) ∧ denotes (iter x) ((k, v) :: l) ∧
    key (iter x) = Ok k ∧ ksorted ((k, v) :: l).
Proof.
  intros Ht Hx. destruct (tracks_elem _ _ Ht x Hx) as ([k v] & l & ? & Hd).
  exists k, v, l. split_and!; [done..|by eapply denotes_key|by eapply denotes_sorted].
Qed.

Lemma tracks_has_key ls ws : tracks ls ws → Forall has_key ws.
Proof.
  intros Ht. apply Forall_forall. intros x Hx.
  destruct (tracks_key _ _ _ Ht Hx) as (k & ? & ? & ? & ? & ? & ?). by exists k.
Qed.

(** Replacing a wrapper by its advanced version, or dropping it. *)
Lemma tracks_advance ls ws x e l it :
  tracks ls (x :: ws) → ls !! index x = Some (e :: l) → denotes it l →
  if is_valid it then tracks (<[index x := l]> ls) (wrap (index x) it :: ws)
  else tracks (<[index x := l]> ls) ws.
Proof.
  intros [Hnd Hel Hix] Hx Hit. rewrite fmap_cons, NoDup_cons in Hnd. destruct Hnd as [Hni Hnd].
  assert (∀ y, y ∈ ws → ∃ e l', <[index x:=l]> ls !! index y = Some (e :: l') ∧ denotes (iter y) (e :: l'))
    as Hrest.
  { intros y Hy. destruct (Hel y) as (e' & l' & ? & ?); [by right|].
    exists e', l'. split; [|done]. rewrite list_lookup_insert_ne; [done|].
    intros Heq. apply Hni. rewrite Heq. by apply list_elem_of_fmap_2. }
  assert (∀ i e' l', i ≠ index x → <[index x:=l]> ls !! i = Some (e' :: l') → i ∈ index <$> ws) as Hix'.
  { intros i e' l' Hne. rewrite list_lookup_insert_ne by done. intros Hi%Hix. set_solver. }
  assert (index x < length ls) as Hlen by by eapply lookup_lt_Some.
  destruct l as [|e' l].
  - rewrite (denotes_valid_nil _ Hit). split; [done..|].
    intros i e' l' Hi. eapply Hix'; [|done]. intros ->.
    by rewrite list_lookup_insert_eq in Hi.
  - rewrite (denotes_valid_cons _ _ _ Hit). split; simpl.
    + by constructor.
    + intros y [->|Hy]%elem_of_cons; [|by apply Hrest].
      exists e', l. by rewrite list_lookup_insert_eq.
    + intros i e1 l1 Hi. destruct (decide (i = index x)) as [->|Hne]; [by left|].
      right. by eapply Hix'.
Qed.

Definition repr (m : t I) (l : list kv) : Prop :=
  match current_ m with
  | None => heap_ m = [] ∧ l = []
  | Some c => ∃ ls, tracks ls (c :: heap_ m) ∧ StronglySorted rank_lt (c :: heap_ m) ∧
      ksorted l ∧ kv_map l = merged ls
  end.

(** The keys of a tracked input are at least the key its wrapper shows. *)
Lemma tracks_lower ls ws i l k : tracks ls ws → ls !! i = Some l → k ∈ l.*1 →
  ∃ x kx, x ∈ ws ∧ index x = i ∧ key (iter x) = Ok kx ∧ key_le kx k.
Proof.
  intros Ht Hi Hk. destruct l as [|e l]; [set_solver|].
  pose proof (tracks_index _ _ Ht _ _ _ Hi) as (x & -> & Hx)%list_elem_of_fmap_1.
  destruct (tracks_key _ _ _ Ht Hx) as (kx & vx & lx & Hlx & _ & Hkx & Hs).
  rewrite Hi in Hlx. injection Hlx as -> ->.
  exists x, kx. split_and!; [done..|]. apply key_le_lteq.
  rewrite fmap_cons, elem_of_cons in Hk. destruct Hk as [->|Hk]; [by right|].
  left. by eapply ksorted_head_lt.
Qed.

Lemma repr_head c h ls l k v lc :
  tracks ls (c :: h) → StronglySorted rank_lt (c :: h) →
  ls !! index c = Some ((k, v) :: lc) → denotes (iter c) ((k, v) :: lc) →
  ksorted l → kv_map l = merged ls →
  ∃ l', l = (k, v) :: l' ∧ ksorted l' ∧ kv_map l' = delete k (merged ls).
Proof.
  intros Ht Hr Hc Hd Hs Hm. apply StronglySorted_cons in Hr as [Hch _].
  pose proof (denotes_key _ _ _ _ Hd) as Hk.
  assert (∀ i li k', ls !! i = Some li → k' ∈ li.*1 →
    key_lt k k' ∨ k = k' ∧ index c ≤ i) as Hmin.
  { intros i li k' Hi Hk'. destruct (tracks_lower _ _ _ _ _ Ht Hi Hk') as (x & kx & Hx & <- & Hkx & Hle).
    apply elem_of_cons in Hx as [->|Hx].
    - rewrite Hk in Hkx. injection Hkx as <-. apply key_le_lteq in Hle as [?| ->]; auto.
    - rewrite Forall_forall in Hch. destruct (Hch _ Hx) as (k1 & k2 & H1 & H2 & Hlt).
      rewrite Hk in H1; injection H1 as <-. rewrite Hkx in H2; injection H2 as <-.
      destruct Hlt as [?|[-> ?]]; [left; key_order|].
      apply key_le_lteq in Hle as [?| ->]; [by left|right; split; [done|lia]]. }
  rewrite <-Hm. apply ksorted_head; [done|..].
  - rewrite Hm. eapply (merged_first _ (index c)); [done|by rewrite kv_map_cons, lookup_insert_eq|].
    intros j l' Hj Hl' Hin. destruct (Hmin _ _ _ Hl' Hin) as [?|[_ ?]]; [key_order|lia].
  - intros k'. rewrite Hm, merged_is_Some. intros (li & [i Hi]%list_elem_of_lookup & Hin).
    destruct (Hmin _ _ _ Hi Hin) as [?|[-> _]]; apply key_le_lteq; auto.
Qed.

(** What the [while] loop of [next] maintains: every other input has only
    keys from [k] on, and no entry with another key was lost. *)
Definition draining (c : HeapWrapper I) (k : bytes) ls (strict : bool) h : Prop := ∃ ls',
  tracks ls' (c :: h) ∧ StronglySorted rank_lt h ∧
  Forall (λ y, ∃ ky, key (iter y) = Ok ky ∧ if strict then key_lt k ky else key_le k ky) h ∧
  ls' !! index c = ls !! index c ∧
  ∀ k', k' ≠ k → merged ls' !! k' = merged ls !! k'.

Definition drain_measure (k : bytes) h : nat :=
  length (filter (λ y, key (iter y) = Ok k) h).
#[local] Arguments drain_measure : simpl never.

Lemma tracks_current ls c h e lc : tracks ls (c :: h) → ls !! index c = Some (e :: lc) →
  denotes (iter c) (e :: lc).
Proof.
  intros Ht Hc. destruct (tracks_elem _ _ Ht c) as (e' & l & Hc' & Hd); [by left|].
  rewrite Hc in Hc'. by injection Hc' as -> ->.
Qed.

Lemma drain_measure_perm k h h' : h ≡ₚ h' → drain_measure k h = drain_measure k h'.
Proof. unfold drain_measure. by intros ->. Qed.

(** Putting back an element whose first entry [(k, _)] was dropped. *)
Lemma draining_advance c k v lc ls y h0 ly vy it :
  (∃ ls', tracks ls' (c :: y :: h0) ∧ StronglySorted rank_lt (y :: h0) ∧
    Forall (λ z, ∃ kz, key (iter z) = Ok kz ∧ key_le k kz) (y :: h0) ∧
    ls' !! index c = ls !! index c ∧ ls' !! index y = Some ((k, vy) :: ly) ∧
    ∀ k', k' ≠ k → merged ls' !! k' = merged ls !! k') →
  ls !! index c = Some ((k, v) :: lc) → ksorted ((k, vy) :: ly) → denotes it ly →
  if is_valid it then
    ∃ h', push_heap (wrap (index y) it) h0 = Ok h' ∧ draining c k ls false h' ∧
      drain_measure k h' < S (drain_measure k h0)
  else draining c k ls false h0.
Proof.
  intros (ls' & Ht & Hs & Hge & Hc & Hy & Hm) Hlc Hsy Hit.
  assert (c :: y :: h0 ≡ₚ y :: c :: h0) as Hp by constructor.
  rewrite Hp in Ht. pose proof (tracks_NoDup _ _ Ht) as Hnd. rewrite !fmap_cons in Hnd.
  pose proof (tracks_advance _ _ _ _ _ _ Ht Hy Hit) as Ht'.
  apply StronglySorted_cons in Hs as [_ Hs]. apply Forall_cons in Hge as [_ Hge].
  set (ls'' := <[index y := ly]> ls') in *.
  assert (ls'' !! index c = ls !! index c) as Hc''.
  { unfold ls''. rewrite list_lookup_insert_ne, Hc; [done|]. apply NoDup_cons in Hnd as [Hni _]. set_solver. }
  assert (∀ k', k' ≠ k → merged ls'' !! k' = merged ls !! k') as Hm''.
  { intros k' Hne. rewrite <-Hm by done. eapply merged_update; [done|].
    by rewrite kv_map_cons, lookup_insert_ne. }
  destruct (is_valid it) eqn:Hv.
  - assert (wrap (index y) it :: c :: h0 ≡ₚ c :: wrap (index y) it :: h0) as Hp' by constructor.
    rewrite Hp' in Ht'. pose proof (tracks_has_key _ _ Ht') as Hks.
    apply Forall_cons in Hks as [_ Hks]. apply Forall_cons in Hks as [Hky Hks].
    destruct (push_heap_spec (wrap (index y) it) h0) as (h' & Hpush & Hperm & Hsort); [done..| |done|].
    { apply NoDup_cons in Hnd as [Hni _]. simpl. set_solver. }
    destruct ly as [|[k1 v1] ly]; [by rewrite (denotes_valid_nil _ Hit) in Hv|].
    pose proof (denotes_key _ _ _ _ Hit) as Hk1.
    pose proof (ksorted_head_lt _ _ _ k1 Hsy ltac:(by left)) as Hlt.
    exists h'. split_and!; [done| |].
    + exists ls''. split_and!; [by rewrite Hperm|done|rewrite Hperm|done..].
      constructor; [|done]. exists k1. split; [done|]. key_order.
    + rewrite (drain_measure_perm _ _ _ Hperm). unfold drain_measure.
      rewrite filter_cons_False; [lia|]. simpl. rewrite Hk1. intros [= ->]. key_order.
  - exists ls''. done.
Qed.

Lemma drain_step_spec c k v lc ls h :
  ls !! index c = Some ((k, v) :: lc) → draining c k ls false h →
  drain_step c h ⇓{Inv} λ r, match r with
    | inl h' => draining c k ls false h' ∧ drain_measure k h' < drain_measure k h
    | inr h' => draining c k ls true h' end.
Proof.
  intros Hlc (ls' & Ht & Hs & Hge & Hc & Hm). unfold drain_step. destruct h as [|y h0].
  { apply wp_ret. exists ls'. split_and!; try done; constructor. }
  destruct (tracks_key _ _ y Ht) as (ky & vy & ly & Hy & Hdy & Hky & Hsy); [by do 2 constructor|].
  eapply wp_bind_ok; [done|]. rewrite <-Hc in Hlc.
  eapply wp_bind_ok; [by eapply denotes_key, tracks_current|].
  rewrite eqb_spec. destruct (decide (ky = k)) as [->|Hne];
    [rewrite bool_decide_true by done|rewrite bool_decide_false by done].
  - eapply wp_bind_ok; [done|]. eapply wp_bind; [by eapply denotes_next|]. intros it Hit. cbn.
    rewrite Hc in Hlc.
    pose proof (draining_advance c k v lc ls y h0 ly vy it) as Hadv.
    assert (drain_measure k (y :: h0) = S (drain_measure k h0)) as Hmeas.
    { unfold drain_measure. by rewrite filter_cons_True. }
    destruct (is_valid it).
    + destruct Hadv as (h' & Hpush & Hd & Hlt); [eauto 8|done..|].
      eapply wp_bind_ok; [done|]. apply wp_ret. split; [done|by rewrite Hmeas].
    + apply wp_ret. split; [apply Hadv; [eauto 8|done..]|rewrite Hmeas; lia].
  - apply wp_ret. exists ls'. split_and!; try done.
    apply Forall_cons in Hge as [(ky' & Hky' & Hle) Hge].
    rewrite Hky in Hky'. injection Hky' as <-.
    assert (key_lt k ky) as Hlt by key_order.
    constructor; [eauto|]. apply StronglySorted_cons in Hs as [Hs _].
    eapply Forall_impl; [exact Hs|]. intros z (k1 & kz & H1 & Hkz & Hr).
    rewrite Hky in H1. injection H1 as <-. exists kz. split; [done|].
    destruct Hr as [?|[-> _]]; key_order.
Qed.

(** After the loop and [current_->iter.next()] nothing with key [k] is left. *)
Lemma drained_advance c k v lc ls h it :
  ls !! index c = Some ((k, v) :: lc) → ksorted ((k, v) :: lc) →
  draining c k ls true h → denotes it lc →
  ∃ ls', (if is_valid it then tracks ls' (wrap (index c) it :: h) else tracks ls' h) ∧
    StronglySorted rank_lt h ∧ merged ls' = delete k (merged ls).
Proof.
  intros Hlc Hsc (ls' & Ht & Hs & Hgt & Hc & Hm) Hit. rewrite Hlc in Hc.
  exists (<[index c := lc]> ls'). split_and!; [by eapply tracks_advance|done|].
  apply map_eq. intros k'. destruct (decide (k' = k)) as [->|Hne].
  - rewrite lookup_delete_eq. apply eq_None_not_Some. rewrite merged_is_Some.
    intros (l & [i Hi]%list_elem_of_lookup & Hin). destruct (decide (i = index c)) as [->|Hne].
    + rewrite list_lookup_insert_eq in Hi by by eapply lookup_lt_Some.
      injection Hi as <-. pose proof (ksorted_head_lt _ _ _ _ Hsc Hin). key_order.
    + rewrite list_lookup_insert_ne in Hi by done.
      destruct (tracks_lower _ _ _ _ _ Ht Hi Hin) as (x & kx & Hx & <- & Hkx & Hle).
      apply elem_of_cons in Hx as [->|Hx]; [done|].
      rewrite Forall_forall in Hgt. destruct (Hgt x Hx) as (ky & Hky & Hlt).
      rewrite Hkx in Hky. injection Hky as <-. key_order.
  - rewrite lookup_delete_ne, <-Hm by done. eapply merged_update; [done|].
    by rewrite kv_map_cons, lookup_insert_ne.
Qed.

Lemma requeue_spec c h ls l :
  (if is_valid (iter c) then tracks ls (c :: h) else tracks ls h) →
  StronglySorted rank_lt h → ksorted l → kv_map l = merged ls →
  requeue c h ⇓ λ m, repr m l.
Proof.
  intros Ht Hs Hl Hm. unfold requeue. destruct (is_valid (iter c)); cbn.
  - pose proof (tracks_has_key _ _ Ht) as [Hkx Hks]%Forall_cons.
    destruct h as [|y h]; [apply returns_ret; exists ls; split_and!; try done; repeat constructor|].
    apply Forall_cons in Hks as [Hky Hks].
    pose proof (tracks_NoDup _ _ Ht) as Hnd. rewrite !fmap_cons in Hnd.
    apply NoDup_cons in Hnd as [Hni Hnd].
    destruct (wrapper_ltb_spec c y) as (b & -> & Hrank); [done..|set_solver|]. cbn.
    pose proof Hs as [Hyh Hh]%StronglySorted_cons. destruct b; cbn.
    + destruct (push_heap_spec c h) as (h' & -> & Hperm & Hsort); [done..|set_solver|done|].
      apply returns_ret. exists ls. cbn. split_and!; try done.
      * rewrite Hperm. assert (y :: c :: h ≡ₚ c :: y :: h) as -> by constructor. done.
      * constructor; [done|]. rewrite Hperm. by constructor.
    + apply returns_ret. exists ls. split_and!; try done. constructor; [done|].
      constructor; [done|]. eapply Forall_impl; [exact Hyh|]. intros z Hz. by trans y.
  - destruct h as [|y h]; cbn; [|apply returns_ret; by exists ls].
    apply returns_ret. split; [done|]. apply ksorted_ext; [done|apply ksorted_nil|].
    rewrite Hm. apply map_eq. intros k'. apply eq_None_not_Some. rewrite merged_is_Some.
    intros (li & [i Hi]%list_elem_of_lookup & Hin). destruct li as [|e' li]; [set_solver|].
    pose proof (tracks_index _ _ Ht _ _ _ Hi). set_solver.
Qed.

Lemma merge_next_spec m e l : repr m (e :: l) → next_ m ⇓{Inv} λ m', repr m' l.
Proof.
  unfold repr at 1, next_. destruct (current_ m) as [c|] eqn:Hcur; [|by intros []].
  intros (ls & Ht & Hr & Hs & Hm).
  destruct (tracks_key _ _ c Ht) as (k & v & lc & Hlc & Hdc & Hkc & Hsc); [by left|].
  destruct (repr_head _ _ _ _ _ _ _ Ht Hr Hlc Hdc Hs Hm) as (l' & [= -> ->] & Hs' & Hm').
  apply wp_bind_ok with tt; [by rewrite bool_decide_true by eauto|].
  eapply wp_bind_ok; [done|].
  eapply wp_bind; [eapply (wp_loop _ _ (draining c k ls false) (drain_measure k) (draining c k ls true))|].
  { intros h Hd. by eapply drain_step_spec. }
  { exists ls. split_and!; try done; apply StronglySorted_cons in Hr as [Hr Hrh]; [done|].
    eapply Forall_impl; [exact Hr|]. intros y (k1 & ky & H1 & Hky & Hlt).
    rewrite Hkc in H1. injection H1 as <-. exists ky. split; [done|]. destruct Hlt as [?|[-> _]]; key_order. }
  { unfold drain_measure. pose proof (length_filter (λ y, key (iter y) = Ok k) (heap_ m)). lia. }
  intros h Hd. eapply wp_bind; [by eapply denotes_next|]. intros it Hit.
  destruct (drained_advance _ _ _ _ _ _ _ Hlc Hsc Hd Hit) as (ls' & Ht' & Hsh & Hmm).
  apply wp_lift. apply requeue_spec with ls'; [done..|]. by rewrite Hm', Hmm.
Qed.

(** *** Construction *)
Lemma valid_iters_elem n iters x :
  x ∈ valid_iters n iters ↔
    ∃ i, index x = n + i ∧ iters !! i = Some (iter x) ∧ is_valid (iter x) = true.
Proof.
  revert n; induction iters as [|it iters IH]; intros n; simpl.
  { split; [by intros ?%not_elem_of_nil|by intros (?&_&?&_)]. }
  assert (x ∈ valid_iters (S n) iters ↔
    ∃ i, index x = n + S i ∧ (it :: iters) !! S i = Some (iter x) ∧ is_valid (iter x) = true) as IH'.
  { rewrite IH. by setoid_rewrite Nat.add_succ_r. }
  destruct (is_valid it) eqn:Hv; rewrite ?elem_of_cons, IH'; split.
  - intros [->|(i & ?)]; [exists 0; by rewrite Nat.add_0_r|by exists (S i)].
  - intros ([|i] & Hi & Hl & Hx); [left|right; eauto]. destruct x; simpl in *.
    rewrite Nat.add_0_r in Hi. by simplify_eq.
  - intros (i & ?). by exists (S i).
  - intros ([|i] & Hi & Hl & Hx); [|eauto]. simplify_eq/=. congruence.
Qed.

Lemma valid_iters_NoDup n iters : NoDup (index <$> valid_iters n iters).
Proof.
  revert n; induction iters as [|it iters IH]; intros n; simpl; [constructor|].
  destruct (is_valid it); [|apply IH]. constructor; [|apply IH].
  intros (x & Hx & (i & Hi & _)%valid_iters_elem)%list_elem_of_fmap_1. simpl in *. lia.
Qed.

Lemma valid_iters_tracks iters ls :
  Forall2 denotes iters ls → tracks ls (valid_iters 0 iters).
Proof.
  intros Hd. split; [apply valid_iters_NoDup|..].
  - intros x (i & -> & Hi & Hv)%valid_iters_elem.
    destruct (Forall2_lookup_l _ _ _ _ _ Hd Hi) as (l & Hl & Hdl).
    destruct l as [|e l]; [by rewrite (denotes_valid_nil _ Hdl) in Hv|]. by exists e, l.
  - intros i e l Hl. destruct (Forall2_lookup_r _ _ _ _ _ Hd Hl) as (it & Hi & Hdl).
    apply list_elem_of_fmap. exists (wrap i it). split; [done|].
    apply valid_iters_elem. exists i. split_and!; [done..|by eapply denotes_valid_cons].
Qed.

Lemma make_heap_spec xs :
  Forall has_key xs → NoDup (index <$> xs) →
  ∃ h, make_heap xs = Ok h ∧ h ≡ₚ xs ∧ StronglySorted rank_lt h.
Proof.
  induction xs as [|x xs IH]; intros Hk Hnd; simpl; [exists []; split_and!; constructor|].
  apply Forall_cons in Hk as [Hx Hk]. apply NoDup_cons in Hnd as [Hni Hnd].
  destruct IH as (h & -> & Hp & Hs); [done..|]. cbn.
  destruct (push_heap_spec x h) as (h' & -> & Hp' & Hs'); [done|by rewrite Hp| |done|].
  { by rewrite Hp. }
  exists h'. split_and!; [done| |done]. by rewrite Hp', Hp.
Qed.

Lemma merge_create_repr iters ls :
  Forall2 denotes iters ls → create iters ⇓{Inv} λ m, repr m (entries (merged ls)).
Proof.
  intros Hd. pose proof (valid_iters_tracks _ _ Hd) as Ht. unfold create.
  destruct (make_heap_spec (valid_iters 0 iters)) as (h & Hh & Hp & Hs);
    [by eapply tracks_has_key|by apply tracks_NoDup in Ht|].
  eapply wp_bind_ok; [done|]. rewrite <-Hp in Ht. destruct h as [|x h].
  - apply wp_ret. split; [done|]. apply ksorted_ext; [apply entries_sorted|apply ksorted_nil|].
    rewrite kv_map_entries. apply map_eq. intros k. apply eq_None_not_Some. rewrite merged_is_Some.
    intros (l & [i Hi]%list_elem_of_lookup & Hin). destruct l as [|e l]; [set_solver|].
    pose proof (tracks_index _ _ Ht _ _ _ Hi). set_solver.
  - cbn. eapply wp_bind_ok; [done|]. apply wp_ret. exists ls.
    split_and!; [done..|apply entries_sorted|apply kv_map_entries].
Qed.

(** The selected wrapper shows the head of what is denoted. *)
Lemma merge_repr_current m l : repr m l →
  match l with
  | [] => current_ m = None
  | e :: _ => ∃ c lc, current_ m = Some c ∧ denotes (iter c) (e :: lc)
  end.
Proof.
  unfold repr. destruct (current_ m) as [c|]; [|by intros [_ ->]].
  intros (ls & Ht & Hr & Hs & Hm).
  destruct (tracks_key _ _ c Ht) as (k & v & lc & Hlc & Hdc & _); [by left|].
  destruct (repr_head _ _ _ _ _ _ _ Ht Hr Hlc Hdc Hs Hm) as (l' & -> & _). eauto.
Qed.

#[global] Instance spec : IteratorSpec W (t I) Inv.
Proof.
  exists repr.
  - intros m l. unfold repr. destruct (current_ m); [by intros (?&_&_&?&_)|].
    intros [_ ->]. apply ksorted_nil.
  - intros m Hr%merge_repr_current. simpl. by rewrite Hr.
  - intros m e l (c & lc & Hc & Hd)%merge_repr_current. simpl. rewrite Hc. by eapply denotes_valid_cons.
  - intros m k v l (c & lc & Hc & Hd)%merge_repr_current. simpl. rewrite Hc. by eapply denotes_key.
  - intros m k v l (c & lc & Hc & Hd)%merge_repr_current. simpl. rewrite Hc. by eapply denotes_value.
  - apply merge_next_spec.
Defined.
End spec.
End MergeIterator.

(** ** LsmIterator: tombstones and the upper bound

    [move_to_non_delete] loops for as long as the inner iterator shows
    tombstones, which the iterator itself does not bound: the model takes the
    bound from [LoopFuel], and an iterator is only ever said to denote a list
    that is shorter. *)
Class LoopFuel := loop_fuel : nat.

Definition below (b : Bound) (k : bytes) : Prop :=
  match b with Unbounded => True | Included e => key_le k e | Excluded e => key_lt k e end.
#[export] Instance below_dec b k : Decision (below b k).
Proof. destruct b; simpl; apply _. Defined.

Module LsmIterator.
Record t (I : Type) := mk {
  inner_ : option I;          (* std::unique_ptr<StorageIterator> *)
  end_bound_ : Bound;
  is_valid_ : bool }.
Arguments mk {_} _ _ _.
Arguments inner_ {_} _.
Arguments end_bound_ {_} _.
Arguments is_valid_ {_} _.

Section code.
Context {W I : Type} `{!StorageIterator W I} `{!LoopFuel}.

Definition invalidate (it : t I) : t I := mk (inner_ it) (end_bound_ it) false.

Definition match_end_bound (it : t I) : res (t I) :=
  if negb (is_valid_ it) then mret it
  else
    inner ← deref (inner_ it) "inner_ is null";
    match end_bound_ it with
    | Unbounded => mret it
    | Included e =>
        k ← key inner; mret (if KeySlice.gtb k e then invalidate it else it)
    | Excluded e =>
        k ← key inner; mret (if KeySlice.geb k e then invalidate it else it)
    end.

Definition next_inner (it : t I) : eff W (t I) :=
  inner ← lift (deref (inner_ it) "inner_ is null");
  inner ← next inner;
  let it := mk (Some inner) (end_bound_ it) (is_valid_ it) in
  if negb (is_valid inner) then mret (invalidate it)
  else lift (match_end_bound it).

Definition move_step (it : t I) : eff W (t I + t I) :=
  if is_valid_ it then
    inner ← lift (deref (inner_ it) "inner_ is null");
    v ← lift (value inner);
    if KeySlice.is_empty v then it ← next_inner it; mret (inl it)
    else mret (inr it)
  else mret (inr it).

Definition move_to_non_delete (it : t I) : eff W (t I) :=
  loop loop_fuel move_step it.

Definition create (inner : option I) (end_bound : Bound) : eff W (t I) :=
  match inner with
  | Some i =>
      if is_valid i then
        it ← lift (match_end_bound (mk inner end_bound true));
        move_to_non_delete it
      else mret (mk inner end_bound false)
  | None => mret (mk inner end_bound false)
  end.

Definition next_ (it : t I) : eff W (t I) :=
  if negb (is_valid_ it) then mret it
  else it ← next_inner it; move_to_non_delete it.

#[global] Instance storage : StorageIterator W (t I) := {
  key it := cassert (is_valid_ it) "is_valid_";;
            inner ← deref (inner_ it) "inner_ is null"; key inner;
  value it := cassert (is_valid_ it) "is_valid_";;
              inner ← deref (inner_ it) "inner_ is null"; value inner;
  is_valid := is_valid_;
  next := next_ }.
End code.

(** [create] of an iterator of any type, which it wraps. *)
Definition create_wrapped {W T : Type} `{!StorageIterator W T} `{!LoopFuel} (iter : T) (end_bound : Bound) :
    eff W (t (StorageIteratorWrapper.t T)) :=
  create (Some (StorageIteratorWrapper.mk iter)) end_bound.

(** The entries a scan shows: not deleted, and within the upper bound. *)
Definition live (b : Bound) (l : list kv) : list kv :=
  filter (λ e, e.2 ≠ [] ∧ below b e.1) l.

Lemma live_cons_shown b k v l : v ≠ [] → below b k → live b ((k, v) :: l) = (k, v) :: live b l.
Proof. intros. unfold live. by rewrite filter_cons_True. Qed.
Lemma live_cons_deleted b k l : live b ((k, []) :: l) = live b l.
Proof. unfold live. rewrite filter_cons_False; [done|]. by intros []. Qed.
Lemma live_past b k v l : ksorted ((k, v) :: l) → ¬ below b k → live b ((k, v) :: l) = [].
Proof.
  intros Hs Hb. apply filter_none, Forall_forall. intros e He [_ Hbe]. apply Hb.
  apply (list_elem_of_fmap_2 fst) in He. rewrite fmap_cons, elem_of_cons in He.
  destruct He as [He|He]; [by rewrite He in Hbe|].
  pose proof (ksorted_head_lt _ _ _ _ Hs He). destruct b; simpl in *; [done|key_order..].
Qed.
Lemma live_sorted b l : ksorted l → ksorted (live b l).
Proof. apply ksorted_filter. Qed.

Section spec.
Context {W I : Type} {Inv : W → Prop}.
Context `{!StorageIterator W I} `{!IteratorSpec W I Inv} `{!LoopFuel}.
Implicit Types (it : t I) (l : list kv).
#[local] Abbreviation denotes := (denotes (Inv:=Inv)).

(** [it] stands on the first entry of [l], which the bound lets through,
    or is past everything [l] would show. *)
Definition standing it l : Prop :=
  if is_valid_ it then
    ∃ i k v l', inner_ it = Some i ∧ l = (k, v) :: l' ∧ denotes i l ∧ below (end_bound_ it) k
  else live (end_bound_ it) l = [].

Definition repr it out : Prop :=
  if is_valid_ it then
    ∃ l k v l', standing it l ∧ l = (k, v) :: l' ∧ v ≠ [] ∧ length l < loop_fuel ∧
      out = live (end_bound_ it) l
  else out = [].

Lemma match_end_bound_spec it i k v l :
  is_valid_ it = true → inner_ it = Some i → denotes i ((k, v) :: l) →
  match_end_bound it ⇓ λ it', standing it' ((k, v) :: l) ∧ end_bound_ it' = end_bound_ it.
Proof.
  intros Hv Hi Hd. unfold match_end_bound. rewrite Hv, Hi. cbn.
  pose proof (denotes_sorted _ _ Hd) as Hs. pose proof (denotes_key _ _ _ _ Hd) as Hk.
  assert (below (end_bound_ it) k → standing it ((k, v) :: l)) as Hin.
  { intros. unfold standing. rewrite Hv. eauto 8. }
  assert (¬ below (end_bound_ it) k → standing (invalidate it) ((k, v) :: l)) as Hout.
  { intros. by apply live_past. }
  destruct (end_bound_ it) as [|e|e] eqn:Hb; [apply returns_ret; split; [by apply Hin|done]|..];
    rewrite Hk; apply returns_ret; rewrite ?gtb_spec, ?geb_spec; case_bool_decide as Hc;
    (split; [|done]).
  - apply Hout. simpl. key_order.
  - apply Hin. simpl. key_order.
  - apply Hout. simpl. key_order.
  - apply Hin. simpl. key_order.
Qed.

Lemma next_inner_spec it e l : standing it (e :: l) → is_valid_ it = true →
  next_inner it ⇓{Inv} λ it', standing it' l ∧ end_bound_ it' = end_bound_ it.
Proof.
  unfold standing at 1, next_inner. intros Hst Hv. rewrite Hv in Hst.
  destruct Hst as (i & k & v & l' & Hi & [= -> ->] & Hd & Hb). rewrite Hi.
  eapply wp_bind_ok; [done|]. eapply wp_bind; [by eapply denotes_next|]. intros i' Hi'.
  destruct l' as [|[k' v'] l'].
  - rewrite (denotes_valid_nil _ Hi'). by apply wp_ret.
  - rewrite (denotes_valid_cons _ _ _ Hi'). apply wp_lift.
    by apply (match_end_bound_spec (mk (Some i') (end_bound_ it) (is_valid_ it)) i').
Qed.

(** [move_to_non_delete] reaches the next visible entry. *)
Lemma move_step_spec it l : standing it l → length l < loop_fuel →
  move_step it ⇓{Inv} λ r, match r with
    | inl it' => ∃ l', standing it' l' ∧ length l' < length l ∧
        end_bound_ it' = end_bound_ it ∧ live (end_bound_ it) l = live (end_bound_ it) l'
    | inr it' => repr it' (live (end_bound_ it) l) end.
Proof.
  intros Hst Hfuel. unfold move_step. destruct (is_valid_ it) eqn:Hv; cycle 1.
  { apply wp_ret. unfold repr, standing in *. by rewrite Hv in *. }
  pose proof Hst as Hst'. unfold standing in Hst'. rewrite Hv in Hst'.
  destruct Hst' as (i & k & v & l' & Hi & -> & Hd & Hb). rewrite Hi.
  eapply wp_bind_ok; [done|].
  eapply wp_bind_ok; [by eapply denotes_value|]. unfold KeySlice.is_empty, KeySlice.len.
  destruct v as [|c v]; simpl.
  - eapply wp_bind; [by eapply next_inner_spec|].
    intros it' [Hst' Hb']. apply wp_ret. exists l'. split_and!; [done|simpl; lia|done|apply live_cons_deleted].
  - apply wp_ret. unfold repr. rewrite Hv. by exists ((k, c :: v) :: l'), k, (c :: v), l'.
Qed.

Lemma move_loop_spec n it l : standing it l → length l < n → length l < loop_fuel →
  loop n move_step it ⇓{Inv} λ it', repr it' (live (end_bound_ it) l).
Proof.
  revert it l; induction n as [|n IH]; intros it l Hst Hn Hfuel; [lia|]. simpl.
  eapply wp_bind; [by apply move_step_spec|]. intros [it'|it'] Hr; [|by apply wp_ret].
  destruct Hr as (l' & Hst' & Hlen & Hb & ->). rewrite <-Hb. apply IH; [done|lia..].
Qed.

Lemma move_to_non_delete_spec it l b : standing it l → end_bound_ it = b → length l < loop_fuel →
  move_to_non_delete it ⇓{Inv} λ it', repr it' (live b l).
Proof. intros ? <- ?. by apply move_loop_spec. Qed.

Lemma lsm_create_repr i l b : denotes i l → length l < loop_fuel →
  create (Some i) b ⇓{Inv} λ it, repr it (live b l).
Proof.
  intros Hd Hlen. unfold create. destruct l as [|[k v] l].
  { rewrite (denotes_valid_nil _ Hd). by apply wp_ret. }
  rewrite (denotes_valid_cons _ _ _ Hd).
  eapply wp_bind; [apply wp_lift; by apply (match_end_bound_spec (mk (Some i) b true) i)|].
  intros it [Hst Hb]. by apply move_to_non_delete_spec.
Qed.

Lemma lsm_next_spec it e out : repr it (e :: out) → next_ it ⇓{Inv} λ it', repr it' out.
Proof.
  unfold repr at 1, next_. destruct (is_valid_ it) eqn:Hv; [|done].
  intros (l & k & v & l' & Hst & -> & Hne & Hlen & Hout). simpl in *.
  eapply wp_bind; [by eapply next_inner_spec|]. intros it' [Hst' Hb'].
  unfold standing in Hst. rewrite Hv in Hst. destruct Hst as (? & ? & ? & ? & _ & [= <- <- <-] & _ & Hb).
  rewrite live_cons_shown in Hout by done. injection Hout as -> ->.
  apply move_to_non_delete_spec; [done..|lia].
Qed.

Lemma lsm_repr_current it e out : repr it (e :: out) → is_valid_ it = true ∧
  ∃ i l', inner_ it = Some i ∧ denotes i (e :: l').
Proof.
  unfold repr. destruct (is_valid_ it) eqn:Hv; [|done].
  intros (l & k & v & l' & Hst & -> & Hne & _ & Hout). split; [done|].
  unfold standing in Hst. rewrite Hv in Hst. destruct Hst as (i & ? & ? & ? & Hi & [= <- <- <-] & Hd & Hb).
  rewrite live_cons_shown in Hout by done. injection Hout as -> _. eauto.
Qed.

#[global] Instance spec : IteratorSpec W (t I) Inv.
Proof.
  exists repr.
  - intros it l. unfold repr. destruct (is_valid_ it) eqn:Hv; [|intros ->; apply ksorted_nil].
    intros (l0 & k & v & l' & Hst & -> & _ & _ & ->). apply live_sorted.
    unfold standing in Hst. rewrite Hv in Hst. destruct Hst as (i & ? & ? & ? & _ & _ & Hd & _).
    by eapply denotes_sorted.
  - intros it. unfold repr. simpl. destruct (is_valid_ it) eqn:Hv; [|done].
    intros (l & k & v & l' & Hst & -> & Hne & _ & Hout).
    unfold standing in Hst. rewrite Hv in Hst. destruct Hst as (i & ? & ? & ? & Hi & [= <- <- <-] & Hd & Hb).
    by rewrite live_cons_shown in Hout.
  - by intros it e l [Hv _]%lsm_repr_current.
  - intros it k v l (Hv & i & l' & Hi & Hd)%lsm_repr_current. simpl. rewrite Hv, Hi. by eapply denotes_key.
  - intros it k v l (Hv & i & l' & Hi & Hd)%lsm_repr_current. simpl. rewrite Hv, Hi. by eapply denotes_value.
  - apply lsm_next_spec.
Defined.
End spec.
End LsmIterator.

(** ** FusedIterator

    [next] rethrows what the wrapped iterator throws, after recording it in
    [has_errored_]; [next_catch] is that member function with the object it
    leaves behind, [next] of the class only the outcome.  Only C++ exceptions
    are caught. *)
Module FusedIterator.
Record t (I : Type) := mk { iter_ : option I; has_errored_ : bool }.
Arguments mk {_} _ _.
Arguments iter_ {_} _.
Arguments has_errored_ {_} _.

Section code.
Context {W I : Type} `{!StorageIterator W I}.

Definition create (it : I) : t I := mk (Some it) false.

Definition is_valid_ (it : t I) : bool :=
  negb (has_errored_ it) && match iter_ it with Some i => is_valid i | None => false end.

Definition next_catch (it : t I) (w : W) : t I * res (W * unit) :=
  match has_errored_ it, iter_ it with
  | false, Some i =>
      if negb (is_valid i) then (it, Ok (w, tt))
      else match next i w with
           | Ok (w', i') => (mk (Some i') (has_errored_ it), Ok (w', tt))
           | Err (Exn what) => (mk (iter_ it) true, Err (Exn what))
           | Err e => (it, Err e)
           end
  | _, _ => (it, Ok (w, tt))
  end.

#[global] Instance storage : StorageIterator W (t I) := {
  key it := cassert (is_valid_ it) "is_valid()";; i ← deref (iter_ it) "iter_ is null"; key i;
  value it := cassert (is_valid_ it) "is_valid()";; i ← deref (iter_ it) "iter_ is null"; value i;
  is_valid := is_valid_;
  next it := λ w, match next_catch it w with
                  | (it', Ok (w', _)) => Ok (w', it')
                  | (_, Err e) => Err e
                  end }.

(** Once an exception has passed through, the iterator is exhausted for good. *)
Lemma next_catch_errored it w it' what :
  next_catch it w = (it', Err (Exn what)) →
  is_valid it' = false ∧ ∀ w', next_catch it' w' = (it', Ok (w', tt)).
Proof.
  unfold next_catch. simpl. unfold is_valid_.
  destruct (has_errored_ it) eqn:He, (iter_ it) as [i|] eqn:Hi; try done.
  destruct (negb (is_valid i)); [done|]. destruct (next i w) as [[w' i']|e]; [done|].
  destruct e; try done. by intros [= <- ->].
Qed.
End code.

Section spec.
Context {W I : Type} {Inv : W → Prop}.
Context `{!StorageIterator W I} `{!IteratorSpec W I Inv}.

Definition repr (it : t I) (l : list kv) : Prop :=
  has_errored_ it = false ∧
  match iter_ it with Some i => denotes (Inv:=Inv) i l | None => l = [] end.

#[global] Instance spec : IteratorSpec W (t I) Inv.
Proof.
  exists repr; unfold repr; intros [[i|] e]; simpl.
  - intros l [_ Hd]. by eapply denotes_sorted.
  - intros l [_ ->]. apply ksorted_nil.
  - intros [-> Hd]. simpl. by apply denotes_valid_nil.
  - by intros [-> _].
  - intros kv l [-> Hd]. unfold is_valid_. simpl. by eapply denotes_valid_cons.
  - by intros kv l [_ ?].
  - intros k v l [-> Hd]. unfold is_valid_. simpl. rewrite (denotes_valid_cons _ _ _ Hd). by eapply denotes_key.
  - by intros k v l [_ ?].
  - intros k v l [-> Hd]. unfold is_valid_. simpl. rewrite (denotes_valid_cons _ _ _ Hd). by eapply denotes_value.
  - by intros k v l [_ ?].
  - intros kv l [-> Hd] w Hw. unfold next_catch. simpl. rewrite (denotes_valid_cons _ _ _ Hd). simpl.
    destruct (denotes_next _ _ _ Hd w Hw) as (w' & i' & -> & Hw' & Hd'). eauto 6.
  - by intros kv l [_ ?].
Defined.
End spec.
End FusedIterator.

(** ** Draining an iterator

    [while (iter.is_valid()) { ...key(), value()...; iter.next(); }], the loop
    of every reader of a scan, with the entries it saw. *)
Section collect.
Context {W I : Type} `{!StorageIterator W I}.

Fixpoint collect (fuel : nat) (it : I) : eff W (list kv) :=
  match fuel with
  | O => lift (Err OutOfFuel)
  | S n =>
      if is_valid it then
        k ← lift (key it); v ← lift (value it);
        it ← next it; rest ← collect n it; mret ((k, v) :: rest)
      else mret []
  end.

(** An iterator that denotes a list yields exactly that list. *)
Lemma collect_denotes {Inv : W → Prop} `{!IteratorSpec W I Inv} it l fuel :
  denotes (Inv:=Inv) it l → length l < fuel → collect fuel it ⇓{Inv} λ r, r = l.
Proof.
  revert it l; induction fuel as [|n IH]; intros it l Hd Hlen; [lia|]. simpl.
  destruct l as [|[k v] l].
  { rewrite (denotes_valid_nil _ Hd). by apply wp_ret. }
  rewrite (denotes_valid_cons _ _ _ Hd).
  eapply wp_bind_ok; [by eapply denotes_key|]. eapply wp_bind_ok; [by eapply denotes_value|].
  eapply wp_bind; [by eapply denotes_next|]. intros it' Hd'.
  eapply wp_bind; [apply (IH it' l Hd'); simpl in Hlen; lia|]. intros ? ->. by apply wp_ret.
Qed.
End collect.
