(* ===== verification/Block.v ===== *)
(** * Blocks: include/mini_lsm/block.h, src/block/builder.cpp, iterator.cpp

    A block is a byte string of prefix-compressed entries and the offsets of
    the entries.  [Block] is the codec, [BlockBuilder] the only writer,
    [BlockIterator] the reader.  Their common reference is [block_of], the
    block that holds a given list of entries. *)
From S2P Require Import Prelude Endian Key Iterators.

(** ** Definitions *)
Module Block.
Record t := mk { data : bytes; offsets : list Z }.

Definition encode (b : t) : bytes :=
  let buf := foldl put_u16_be (data b) (offsets b) in
  put_u16_be buf (u16 (Z.of_nat (length (offsets b)))).

(** The loop that reads [n] offsets from [off] on. *)
Fixpoint read_offsets (raw : bytes) (off n : nat) : res (list Z) :=
  match n with
  | O => mret []
  | S n => o ← read_u16_be raw off; os ← read_offsets raw (off + 2) n; mret (o :: os)
  end.

(** [data_end] is computed in [size_t]: it wraps around when the footer
    announces more offsets than there are bytes, and the assertion sees it. *)
Definition decode (raw : bytes) : res t :=
  let len := length raw in
  cassert (bool_decide (2 ≤ len)) "len >= 2";;
  num_entries ← read_u16_be raw (len - 2);
  let offsets_len := (num_entries * 2)%Z in
  let data_end := u64 (Z.of_nat len - 2 - offsets_len) in
  cassert (bool_decide (data_end ≤ Z.of_nat len - 2)%Z) "data_end <= len - 2";;
  offsets ← read_offsets raw (Z.to_nat data_end) (Z.to_nat num_entries);
  mret (mk (take (Z.to_nat data_end) raw) offsets).
End Block.

(** The length of the common prefix. *)
Fixpoint compute_overlap (first_key key : bytes) : nat :=
  match first_key, key with
  | x :: f, y :: k => if decide (x = y) then S (compute_overlap f k) else 0
  | _, _ => 0
  end.

Module BlockBuilder.
Record t := mk {
  offsets_ : list Z;
  data_ : bytes;
  block_size_ : nat;
  first_key_ : bytes }.

Definition create (block_size : nat) : t := mk [] [] block_size [].

Definition is_empty (b : t) : bool := bool_decide (offsets_ b = []).

Definition add (b : t) (key value : bytes) : res (bool * t) :=
  cassert (negb (KeySlice.is_empty key)) "!key.is_empty()";;
  let estimated := 2 + length (offsets_ b) * 2 + length (data_ b) in
  if bool_decide (block_size_ b < estimated + length key + length value + 2 * 3)
     && negb (is_empty b)
  then mret (false, b)
  else
    let offsets := offsets_ b ++ [u16 (Z.of_nat (length (data_ b)))] in
    let overlap := compute_overlap (first_key_ b) key in
    let data := put_u16_be (data_ b) (u16 (Z.of_nat overlap)) in
    let data := put_u16_be data (u16 (Z.of_nat (length key - overlap))) in
    let data := data ++ drop overlap key in
    let data := put_u16_be data (u16 (Z.of_nat (length value))) in
    let data := data ++ value in
    let first_key := if KeyVec.is_empty (first_key_ b) then key else first_key_ b in
    mret (true, mk offsets data (block_size_ b) first_key).

Definition build (b : t) : res Block.t :=
  cassert (negb (is_empty b)) "!is_empty()";;
  mret (Block.mk (data_ b) (offsets_ b)).
End BlockBuilder.

Module BlockIterator.
Record t := mk {
  block_ : option Block.t;     (* std::shared_ptr<Block> *)
  key_ : bytes;
  value_start_ : nat;
  value_len_ : nat;
  idx_ : nat;
  first_key_ : bytes }.

(** The default constructor. *)
Definition empty : t := mk None [] 0 0 0 [].

Definition of_block (block : option Block.t) : res t :=
  match block with
  | Some b =>
      if decide (Block.offsets b ≠ []) then
        _ ← read_u16_be (Block.data b) 0;
        key_len ← read_u16_be (Block.data b) 2;
        first ← KeyVec.append_ptr [] (Block.data b) 4 (Z.to_nat key_len);
        mret (mk block [] 0 0 0 first)
      else mret (mk block [] 0 0 0 [])
  | None => mret (mk block [] 0 0 0 [])
  end.

Definition seek_to_offset (it : t) : res t :=
  block ← deref (block_ it) "block_ is null";
  let data := Block.data block in
  offset ← Z.to_nat <$> deref (Block.offsets block !! idx_ it) "offsets out of bounds";
  overlap_len ← Z.to_nat <$> read_u16_be data offset;
  key_len ← Z.to_nat <$> read_u16_be data (offset + 2);
  key ← KeyVec.append_ptr [] (first_key_ it) 0 overlap_len;
  key ← KeyVec.append_ptr key data (offset + 4) key_len;
  val_len ← Z.to_nat <$> read_u16_be data (offset + 4 + key_len);
  mret (mk (block_ it) key (offset + 4 + key_len + 2) val_len (idx_ it) (first_key_ it)).

Definition seek_to (it : t) (idx : nat) : res t :=
  match block_ it with
  | Some b =>
      if decide (length (Block.offsets b) ≤ idx)
      then mret (mk (block_ it) [] 0 0 (idx_ it) (first_key_ it))
      else seek_to_offset
             (mk (block_ it) (key_ it) (value_start_ it) (value_len_ it) idx (first_key_ it))
  | None => mret (mk (block_ it) [] 0 0 (idx_ it) (first_key_ it))
  end.

Definition seek_to_first (it : t) : res t := seek_to it 0.

Definition is_valid_ (it : t) : bool := negb (KeyVec.is_empty (key_ it)).

Definition get_key (it : t) : res bytes :=
  cassert (negb (KeyVec.is_empty (key_ it))) "!key_.is_empty()";; mret (key_ it).

Definition get_value (it : t) : res bytes :=
  cassert (negb (KeyVec.is_empty (key_ it))) "!key_.is_empty()";;
  block ← deref (block_ it) "block_ is null";
  if decide (value_start_ it + value_len_ it ≤ length (Block.data block))
  then mret (slice (value_start_ it) (value_len_ it) (Block.data block))
  else Err (UB "value out of bounds").

Definition next_ (it : t) : res t :=
  let idx := S (idx_ it) in
  seek_to (mk (block_ it) (key_ it) (value_start_ it) (value_len_ it) idx (first_key_ it)) idx.

(** One round of the binary search, on [(low, high)] and the iterator. *)
Definition search_step (target : bytes) (s : nat * nat * t) : res ((nat * nat * t) + t) :=
  let '(low, high, it) := s in
  if decide (low < high) then
    let mid := low + (high - low) / 2 in
    it ← seek_to it mid;
    cassert (is_valid_ it) "is_valid()";;
    k ← get_key it;
    let cmp := KeySlice.compare k target in
    if decide (cmp < 0)%Z then mret (inl (mid + 1, high, it))
    else if decide (0 < cmp)%Z then mret (inl (low, mid, it))
    else mret (inr it)
  else it ← seek_to it low; mret (inr it).

Definition seek_to_key (it : t) (target : bytes) : res t :=
  match block_ it with
  | None => mret it
  | Some b =>
      let high := length (Block.offsets b) in
      loopR (S high) (search_step target) (0, high, it)
  end.

Definition create_and_seek_to_first (block : option Block.t) : res t :=
  it ← of_block block; seek_to_first it.

Definition create_and_seek_to_key (block : option Block.t) (target : bytes) : res t :=
  it ← of_block block; seek_to_key it target.

#[global] Instance storage {W} : StorageIterator W t := {
  key := get_key;
  value := get_value;
  is_valid := is_valid_;
  next it := lift (next_ it) }.
End BlockIterator.

(** ** The block that holds a list of entries *)

Definition first_of (kvs : list kv) : bytes :=
  match kvs with [] => [] | (k, _) :: _ => k end.

(** One entry, its key compressed against [first]. *)
Definition entry (first key value : bytes) : bytes :=
  let overlap := compute_overlap first key in
  be_bytes 2 (u16 (Z.of_nat overlap)) ++
  be_bytes 2 (u16 (Z.of_nat (length key - overlap))) ++
  drop overlap key ++
  be_bytes 2 (u16 (Z.of_nat (length value))) ++ value.

#[global] Arguments entry : simpl never.

Definition entries_bytes (kvs : list kv) : bytes :=
  match kvs with
  | [] => []
  | (k, v) :: rest => entry [] k v ++ concat ((λ e, entry k e.1 e.2) <$> rest)
  end.

Definition entry_offset (kvs : list kv) (i : nat) : Z :=
  u16 (Z.of_nat (length (entries_bytes (take i kvs)))).

Definition block_of (kvs : list kv) : Block.t :=
  Block.mk (entries_bytes kvs) (entry_offset kvs <$> seq 0 (length kvs)).

(** Keys and values whose lengths the 16-bit fields can hold, and keys that the
    iterator can tell from its end marker. *)
Definition kv_ok (e : kv) : Prop :=
  e.1 ≠ [] ∧ (Z.of_nat (length e.1) < 65536)%Z ∧ (Z.of_nat (length e.2) < 65536)%Z.

(** A block whose offsets did not wrap around. *)
Record block_wf (kvs : list kv) : Prop := {
  block_wf_ok : Forall kv_ok kvs;
  block_wf_offset i : i < length kvs →
    (Z.of_nat (length (entries_bytes (take i kvs))) < 65536)%Z }.

Lemma compute_overlap_nil key : compute_overlap [] key = 0.
Proof. done. Qed.
Lemma compute_overlap_le first key :
  compute_overlap first key ≤ length first ∧ compute_overlap first key ≤ length key.
Proof.
  revert key; induction first as [|x f IH]; intros [|y k]; simpl; try lia.
  case_decide; [|lia]. specialize (IH k). lia.
Qed.
Lemma compute_overlap_take first key :
  take (compute_overlap first key) first = take (compute_overlap first key) key.
Proof.
  revert key; induction first as [|x f IH]; intros [|y k]; simpl; try done.
  case_decide as H; [|done]. simpl. by rewrite H, IH.
Qed.
(** Decompression undoes compression. *)
Lemma compute_overlap_restore first key :
  take (compute_overlap first key) first ++ drop (compute_overlap first key) key = key.
Proof. by rewrite compute_overlap_take, take_drop. Qed.

Lemma first_of_snoc kvs e : first_of (kvs ++ [e]) = if decide (kvs = []) then e.1 else first_of kvs.
Proof. destruct kvs as [|[k v] kvs], e; done. Qed.

Lemma entries_bytes_snoc kvs k v :
  entries_bytes (kvs ++ [(k, v)]) = entries_bytes kvs ++ entry (first_of kvs) k v.
Proof.
  destruct kvs as [|[k0 v0] kvs]; simpl; [by rewrite app_nil_r|].
  rewrite fmap_app, concat_app. simpl. rewrite app_nil_r. by rewrite (assoc_L (++)).
Qed.

Lemma entries_bytes_app kvs1 kvs2 :
  ∃ post, entries_bytes (kvs1 ++ kvs2) = entries_bytes kvs1 ++ post.
Proof.
  induction kvs2 as [|[k v] kvs2 [post IH]] using rev_ind.
  - exists []. by rewrite !app_nil_r.
  - rewrite (assoc_L (++)), entries_bytes_snoc, IH. eexists. by rewrite <-(assoc_L (++)).
Qed.

Lemma entries_bytes_split kvs i k v : kvs !! i = Some (k, v) →
  ∃ post, entries_bytes kvs =
    entries_bytes (take i kvs) ++ entry (first_of (take i kvs)) k v ++ post.
Proof.
  intros Hi.
  replace (entries_bytes kvs) with (entries_bytes (take i kvs ++ (k, v) :: drop (S i) kvs))
    by (by rewrite take_drop_middle).
  rewrite cons_middle, (assoc_L (++)).
  destruct (entries_bytes_app (take i kvs ++ [(k, v)]) (drop (S i) kvs)) as [post ->].
  exists post. by rewrite entries_bytes_snoc, <-(assoc_L (++)).
Qed.

Lemma first_of_take kvs i : first_of (take i kvs) = [] ∨ first_of (take i kvs) = first_of kvs.
Proof. destruct i, kvs as [|[]]; auto. Qed.

Lemma entry_offset_app kvs1 kvs2 i : i ≤ length kvs1 →
  entry_offset (kvs1 ++ kvs2) i = entry_offset kvs1 i.
Proof. intros. unfold entry_offset. by rewrite take_app_le. Qed.

Lemma block_of_offset kvs i : i < length kvs →
  Block.offsets (block_of kvs) !! i = Some (entry_offset kvs i).
Proof. intros Hi. simpl. rewrite list_lookup_fmap, lookup_seq_lt by exact Hi. done. Qed.

Lemma length_block_offsets kvs : length (Block.offsets (block_of kvs)) = length kvs.
Proof. simpl. by rewrite length_fmap, length_seq. Qed.

(** ** The builder writes [block_of] *)
Module BlockBuilderSpec.
Import BlockBuilder.

(** The size of the encoded block: data, offsets and footer. *)
Definition encoded_size (kvs : list kv) : nat :=
  length (entries_bytes kvs) + 2 * length kvs + 2.

(** Another entry is refused only by a block that has one already. *)
Definition fits (block_size : nat) (kvs : list kv) (e : kv) : Prop :=
  kvs = [] ∨ encoded_size kvs + length e.1 + length e.2 + 6 ≤ block_size.
#[export] Instance fits_dec bs kvs e : Decision (fits bs kvs e).
Proof. unfold fits. apply _. Defined.

Record repr (b : t) (kvs : list kv) : Prop := {
  repr_data : data_ b = entries_bytes kvs;
  repr_offsets : offsets_ b = Block.offsets (block_of kvs);
  repr_first : first_key_ b = first_of kvs;
  repr_keys : Forall (λ e, e.1 ≠ []) kvs;
  repr_fit i : 0 < i < length kvs → encoded_size (take i kvs) + 6 ≤ block_size_ b }.

Lemma block_builder_create_repr bs : repr (create bs) [].
Proof. split; simpl; done || lia. Qed.

Lemma repr_is_empty b kvs : repr b kvs → is_empty b = bool_decide (kvs = []).
Proof.
  intros Hb. unfold is_empty. apply bool_decide_ext. rewrite (repr_offsets _ _ Hb).
  split; [|by intros ->]. destruct kvs; done.
Qed.

Lemma key_nonempty k : k ≠ [] → KeySlice.is_empty k = false.
Proof. by destruct k. Qed.

Lemma block_of_snoc_offsets kvs e :
  Block.offsets (block_of (kvs ++ [e])) =
    Block.offsets (block_of kvs) ++ [u16 (Z.of_nat (length (entries_bytes kvs)))].
Proof.
  simpl. rewrite length_app, Nat.add_1_r, seq_S, fmap_app. simpl. f_equal.
  - apply list_fmap_ext. intros i j [-> Hj]%lookup_seq. apply entry_offset_app. lia.
  - unfold entry_offset. by rewrite take_app_length.
Qed.

Lemma repr_snoc b kvs k v :
  repr b kvs → k ≠ [] → fits (block_size_ b) kvs (k, v) →
  repr (mk (offsets_ b ++ [u16 (Z.of_nat (length (data_ b)))])
           (data_ b ++ entry (first_key_ b) k v) (block_size_ b)
           (if KeyVec.is_empty (first_key_ b) then k else first_key_ b)) (kvs ++ [(k, v)]).
Proof.
  intros [Hd Ho Hf Hk Hfit] Hne Hfits.
  split; cbn [data_ offsets_ first_key_ block_size_].
  - by rewrite Hd, Hf, entries_bytes_snoc.
  - by rewrite Ho, Hd, block_of_snoc_offsets.
  - rewrite Hf, first_of_snoc. destruct kvs as [|[k0 v0] kvs]; [done|]. simpl.
    inversion_clear Hk. unfold KeyVec.is_empty. by rewrite key_nonempty.
  - apply Forall_app; split; [done|]. by constructor.
  - intros i Hi. rewrite length_app in Hi. simpl in Hi.
    destruct (decide (i < length kvs)); [rewrite take_app_le by lia; apply Hfit; lia|].
    replace i with (length kvs) by lia. rewrite take_app_length.
    destruct Hfits as [->|Hfits]; simpl in *; lia.
Qed.

(** [add] on every branch: the entry goes in, or the block is full and is
    left as it was.  The only failure is the empty key. *)
Lemma block_builder_add_spec b kvs k v : repr b kvs → k ≠ [] →
  if decide (fits (block_size_ b) kvs (k, v))
  then ∃ b', add b k v = Ok (true, b') ∧ repr b' (kvs ++ [(k, v)]) ∧ block_size_ b' = block_size_ b
  else add b k v = Ok (false, b).
Proof.
  intros Hb Hk. unfold add. rewrite cassert_bind by (by rewrite key_nonempty).
  cbv zeta. rewrite (repr_is_empty _ _ Hb).
  assert (2 + length (offsets_ b) * 2 + length (data_ b) = encoded_size kvs) as ->.
  { rewrite (repr_data _ _ Hb), (repr_offsets _ _ Hb), length_block_offsets. unfold encoded_size. lia. }
  destruct (decide (fits _ _ _)) as [Hfit|Hfit].
  - assert (bool_decide (block_size_ b < encoded_size kvs + length k + length v + 2 * 3)
      && negb (bool_decide (kvs = [])) = false) as ->.
    { destruct Hfit as [->|Hfit]; [by rewrite andb_false_r|]. simpl in Hfit.
      rewrite bool_decide_false by lia. done. }
    eexists. split; [reflexivity|]. split; [|done].
    autorewrite with lsm. rewrite <-!(assoc_L (++)). by apply repr_snoc.
  - rewrite bool_decide_true, bool_decide_false; [done|..].
    + intros ->. apply Hfit. by left.
    + apply not_ge. intros ?. apply Hfit. right. simpl. lia.
Qed.

(** A block size the offsets can address: the block is well formed. *)
Lemma repr_block_wf b kvs :
  repr b kvs → Forall kv_ok kvs → block_size_ b ≤ Z.to_nat 65536 → block_wf kvs.
Proof.
  intros Hb Hok Hbs. split; [done|]. intros i Hi.
  destruct (decide (i = 0)) as [->|]; [by simpl|].
  pose proof (repr_fit _ _ Hb i ltac:(lia)) as Hfit. unfold encoded_size in Hfit. lia.
Qed.

Lemma block_builder_build_spec b kvs : repr b kvs → kvs ≠ [] → build b = Ok (block_of kvs).
Proof.
  intros Hb Hne. unfold build. rewrite (repr_is_empty _ _ Hb), bool_decide_false by done.
  simpl. by rewrite (repr_data _ _ Hb), (repr_offsets _ _ Hb).
Qed.
End BlockBuilderSpec.

(** ** The codec *)
Lemma foldl_put_u16 buf os : foldl put_u16_be buf os = buf ++ concat (be_bytes 2 <$> os).
Proof.
  revert buf; induction os as [|o os IH]; intros buf; simpl; [by rewrite app_nil_r|].
  by rewrite IH, put_u16_be_eq, <-(assoc_L (++)).
Qed.

Lemma encode_eq b : Block.encode b =
  Block.data b ++ concat (be_bytes 2 <$> Block.offsets b) ++
  be_bytes 2 (u16 (Z.of_nat (length (Block.offsets b)))).
Proof. unfold Block.encode. by rewrite put_u16_be_eq, foldl_put_u16, <-(assoc_L (++)). Qed.

Lemma length_concat_be n os : length (concat (be_bytes n <$> os)) = n * length os.
Proof.
  induction os as [|o os IH]; [simpl; lia|].
  rewrite fmap_cons, concat_cons, length_app, IH, length_be_bytes. simpl. lia.
Qed.

Lemma length_encode b : length (Block.encode b) = length (Block.data b) + 2 * length (Block.offsets b) + 2.
Proof. rewrite encode_eq, !length_app, length_concat_be, length_be_bytes. lia. Qed.

Lemma read_offsets_spec raw pre os post off :
  raw = pre ++ concat (be_bytes 2 <$> os) ++ post → off = length pre →
  Forall (λ o, u16 o = o) os → Block.read_offsets raw off (length os) = Ok os.
Proof.
  revert pre off; induction os as [|o os IH]; intros pre off Hraw Hoff Hos; [done|].
  inversion_clear Hos as [|? ? Ho Hos']. rewrite fmap_cons, concat_cons in Hraw. cbn [length Block.read_offsets].
  rewrite (bind_ok _ (u16 o)); cycle 1.
  { eapply read_u16_be_at; [|exact Hoff]. by rewrite Hraw, <-(assoc_L (++)). }
  rewrite (bind_ok _ os); [by rewrite Ho|].
  apply (IH (pre ++ be_bytes 2 o)); [|rewrite length_app, length_be_bytes; lia|done].
  by rewrite Hraw, <-!(assoc_L (++)).
Qed.

(** What [decode] promises of [encode]: nothing is lost as long as the
    footer can count the offsets. *)
Lemma decode_encode_id b :
  (Z.of_nat (length (Block.offsets b)) < 65536)%Z → Forall (λ o, u16 o = o) (Block.offsets b) →
  (Z.of_nat (length (Block.data b)) < 18446744073709551616)%Z →
  Block.decode (Block.encode b) = Ok b.
Proof.
  destruct b as [data offs]. simpl. intros Hlen Hos Hdata. unfold Block.decode.
  rewrite length_encode. simpl Block.data. simpl Block.offsets.
  set (raw := Block.encode _).
  assert (raw = (data ++ concat (be_bytes 2 <$> offs)) ++ be_bytes 2 (u16 (Z.of_nat (length offs))) ++ []) as Hraw.
  { unfold raw. rewrite encode_eq. simpl. by rewrite app_nil_r, (assoc_L (++)). }
  rewrite cassert_bind by (apply bool_decide_eq_true; lia).
  rewrite (bind_ok _ (Z.of_nat (length offs))); cycle 1.
  { rewrite (read_u16_be_at _ _ _ _ _ Hraw).
    - by rewrite u16_u16, u16_small by lia.
    - rewrite length_app, length_concat_be. lia. }
  cbv zeta. replace (u64 _) with (Z.of_nat (length data)) by (rewrite u64_small; lia).
  rewrite cassert_bind by (apply bool_decide_eq_true; lia).
  rewrite <-(assoc_L (++)) in Hraw. rewrite !Nat2Z.id.
  rewrite (bind_ok _ offs) by (eapply read_offsets_spec; [exact Hraw|done..]).
  by rewrite Hraw, take_app_length.
Qed.

Lemma u16_entry_offset kvs i : u16 (entry_offset kvs i) = entry_offset kvs i.
Proof. apply u16_u16. Qed.

(** A well-formed block has at most 65536 entries: each takes six bytes. *)
Lemma length_entry first k v : 6 ≤ length (entry first k v).
Proof. unfold entry. rewrite !length_app, !length_be_bytes. lia. Qed.

Lemma length_entries_bytes kvs : 6 * length kvs ≤ length (entries_bytes kvs).
Proof.
  induction kvs as [|[k v] kvs IH] using rev_ind; [done|].
  rewrite entries_bytes_snoc, !length_app. pose proof (length_entry (first_of kvs) k v). simpl. lia.
Qed.

Lemma entry_upper first k v : length (entry first k v) ≤ 6 + length k + length v.
Proof. unfold entry. rewrite !length_app, !length_be_bytes, length_drop. lia. Qed.

Lemma block_wf_count kvs : block_wf kvs → (6 * Z.of_nat (length kvs) < 65536 + 6)%Z.
Proof.
  intros Hwf. destruct (decide (kvs = [])) as [->|Hne]; [simpl; lia|].
  assert (0 < length kvs) by (destruct kvs; [done|simpl; lia]).
  pose proof (block_wf_offset _ Hwf (length kvs - 1) ltac:(lia)).
  pose proof (length_entries_bytes (take (length kvs - 1) kvs)) as Hl.
  rewrite length_take in Hl. lia.
Qed.

Lemma block_wf_size kvs : block_wf kvs → (Z.of_nat (length (entries_bytes kvs)) < 262144)%Z.
Proof.
  intros Hwf. destruct kvs as [|[k v] kvs _] using rev_ind; [done|].
  pose proof (block_wf_offset _ Hwf (length kvs) ltac:(rewrite length_app; simpl; lia)) as Ho.
  rewrite take_app_length in Ho. rewrite entries_bytes_snoc, length_app.
  pose proof (entry_upper (first_of kvs) k v).
  pose proof (block_wf_ok _ Hwf) as [_ [(_ & Hk & Hv) _]%Forall_cons]%Forall_app. simpl in *. lia.
Qed.

Lemma decode_encode_block_of kvs : block_wf kvs → Block.decode (Block.encode (block_of kvs)) = Ok (block_of kvs).
Proof.
  intros Hwf. apply decode_encode_id.
  - rewrite length_block_offsets. pose proof (block_wf_count _ Hwf). lia.
  - apply Forall_fmap, Forall_true. intros. apply u16_entry_offset.
  - pose proof (block_wf_size _ Hwf). simpl. lia.
Qed.

(** ** The iterator *)
Module BlockIteratorSpec.
Import BlockIterator.

(** The iterator stands on the [i]-th entry of the block that holds [kvs],
    or past its end. *)
Record at_index (kvs : list kv) (it : t) (i : nat) : Prop := {
  at_block : block_ it = Some (block_of kvs);
  at_first : first_key_ it = first_of kvs;
  at_entry : match kvs !! i with
    | Some (k, v) => key_ it = k ∧ idx_ it = i ∧
        slice (value_start_ it) (value_len_ it) (entries_bytes kvs) = v ∧
        value_start_ it + value_len_ it ≤ length (entries_bytes kvs)
    | None => key_ it = []
    end }.

Section block.
Context (kvs : list kv) (Hwf : block_wf kvs).
Implicit Types it : t.

Lemma kvs_ok i k v : kvs !! i = Some (k, v) → kv_ok (k, v).
Proof. apply Forall_lookup_1, block_wf_ok, Hwf. Qed.

(** Where the fields of the [i]-th entry are. *)
Lemma entry_fields i k v : kvs !! i = Some (k, v) →
  let pre := entries_bytes (take i kvs) in
  let ov := compute_overlap (first_of (take i kvs)) k in
  Z.to_nat (entry_offset kvs i) = length pre ∧
  take ov (first_of kvs) = take ov k ∧ ov ≤ length (first_of kvs) ∧ ov ≤ length k ∧
  ∃ post, entries_bytes kvs = pre ++ be_bytes 2 (u16 (Z.of_nat ov)) ++
    be_bytes 2 (u16 (Z.of_nat (length k - ov))) ++ drop ov k ++
    be_bytes 2 (u16 (Z.of_nat (length v))) ++ v ++ post.
Proof.
  intros Hi pre ov. pose proof (lookup_lt_Some _ _ _ Hi) as Hlt.
  pose proof (compute_overlap_le (first_of (take i kvs)) k) as [Hle1 Hle2].
  fold ov in Hle1, Hle2. split_and!.
  - unfold entry_offset. pose proof (block_wf_offset _ Hwf i Hlt). rewrite u16_small by lia.
    by rewrite Nat2Z.id.
  - destruct (first_of_take kvs i) as [E|E].
    + unfold ov. rewrite E. done.
    + rewrite <-E. apply compute_overlap_take.
  - destruct (first_of_take kvs i) as [E|E]; rewrite E in Hle1; simpl in Hle1; lia.
  - done.
  - destruct (entries_bytes_split _ _ _ _ Hi) as [post Hpost]. exists post.
    rewrite Hpost. unfold entry. fold ov. by rewrite <-!(assoc_L (++)).
Qed.

Lemma append_ptr_at data src pre mid post off n :
  src = pre ++ mid ++ post → off = length pre → n = length mid →
  KeyVec.append_ptr data src off n = Ok (data ++ mid).
Proof.
  intros Hs Ho Hn. unfold KeyVec.append_ptr.
  rewrite decide_True by (rewrite Hs, !length_app; lia).
  by rewrite (slice_at _ _ _ _ _ _ Hs Ho Hn).
Qed.

Lemma append_ptr_take (data src : bytes) n : n ≤ length src →
  KeyVec.append_ptr data src 0 n = Ok (data ++ take n src).
Proof. intros. unfold KeyVec.append_ptr. by rewrite decide_True by lia. Qed.

Lemma seek_to_offset_spec it i : block_ it = Some (block_of kvs) →
  first_key_ it = first_of kvs → idx_ it = i → i < length kvs →
  seek_to_offset it ⇓ λ it', at_index kvs it' i.
Proof.
  intros Hb Hf Hidx Hlt. destruct (lookup_lt_is_Some_2 kvs i Hlt) as [[k v] Hi].
  destruct (kvs_ok _ _ _ Hi) as (Hne & Hk & Hv). simpl in Hne, Hk, Hv.
  destruct (entry_fields _ _ _ Hi) as (Hoff & Htake & Hov1 & Hov2 & post & Hdata).
  set (pre := entries_bytes (take i kvs)) in *.
  set (ov := compute_overlap (first_of (take i kvs)) k) in *.
  unfold seek_to_offset. rewrite Hb, Hidx. cbn [deref]. cbv zeta.
  rewrite (bind_ok _ (block_of kvs)) by done. rewrite block_of_offset by done. cbn [deref].
  rewrite (bind_ok _ (length pre)) by (cbn; by rewrite Hoff). cbn [Block.data block_of].
  assert (∀ z, (0 ≤ z < 65536)%Z → u16 (u16 z) = z) as Hu16 by (intros; by rewrite u16_u16, u16_small).
  rewrite (bind_ok _ ov); cycle 1.
  { rewrite (read_u16_be_at _ _ _ _ _ Hdata eq_refl). cbn. rewrite Hu16 by lia. by rewrite Nat2Z.id. }
  rewrite (assoc_L (++)) in Hdata.
  rewrite (bind_ok _ (length k - ov)); cycle 1.
  { rewrite (read_u16_be_at _ _ _ _ _ Hdata) by (rewrite length_app, length_be_bytes; lia).
    cbn. rewrite Hu16 by lia. by rewrite Nat2Z.id. }
  rewrite (bind_ok _ (take ov k)) by (rewrite append_ptr_take by (rewrite Hf; lia); by rewrite Hf, Htake).
  rewrite (assoc_L (++)) in Hdata.
  rewrite (bind_ok _ k); cycle 1.
  { rewrite (append_ptr_at _ _ _ _ _ _ _ Hdata).
    - by rewrite take_drop.
    - rewrite !length_app, !length_be_bytes. lia.
    - by rewrite length_drop. }
  rewrite (assoc_L (++)) in Hdata.
  rewrite (bind_ok _ (length v)); cycle 1.
  { rewrite (read_u16_be_at _ _ _ _ _ Hdata).
    - cbn. rewrite Hu16 by lia. by rewrite Nat2Z.id.
    - rewrite !length_app, !length_be_bytes, length_drop. lia. }
  rewrite (assoc_L (++)) in Hdata. eexists. split; [done|].
  split; simpl; [done..|]. rewrite Hi. split_and!; [done..| |].
  - apply (slice_at _ _ _ _ _ _ Hdata); [|done]. rewrite !length_app, !length_be_bytes, length_drop. lia.
  - rewrite Hdata, !length_app, !length_be_bytes, length_drop. lia.
Qed.

Lemma seek_to_spec it i : block_ it = Some (block_of kvs) → first_key_ it = first_of kvs →
  seek_to it i ⇓ λ it', at_index kvs it' i.
Proof.
  intros Hb Hf. unfold seek_to. rewrite Hb, length_block_offsets.
  destruct (decide (length kvs ≤ i)).
  - apply returns_ret. split; [done..|]. simpl. by rewrite lookup_ge_None_2.
  - apply seek_to_offset_spec; [done..|lia].
Qed.

Lemma block_iterator_next_spec it i : at_index kvs it i → i < length kvs →
  next_ it ⇓ λ it', at_index kvs it' (S i).
Proof.
  intros [Hb Hf He] [[k v] Hi]%lookup_lt_is_Some_2. rewrite Hi in He. destruct He as (_ & Hidx & _).
  unfold next_. rewrite Hidx. by apply seek_to_spec.
Qed.

Lemma at_key it i k v : at_index kvs it i → kvs !! i = Some (k, v) →
  get_key it = Ok k ∧ get_value it = Ok v ∧ is_valid_ it = true.
Proof.
  intros [Hb Hf He] Hi. rewrite Hi in He. destruct He as (Hk & Hidx & Hs & Hle).
  assert (KeyVec.is_empty (key_ it) = false) as Hne.
  { rewrite Hk. destruct (kvs_ok _ _ _ Hi). by apply BlockBuilderSpec.key_nonempty. }
  unfold get_key, get_value, is_valid_. rewrite Hne, Hb, Hk. simpl.
  by rewrite decide_True, Hs by done.
Qed.

Lemma at_end it i : at_index kvs it i → length kvs ≤ i → is_valid_ it = false.
Proof.
  intros [Hb Hf He] Hi. rewrite lookup_ge_None_2 in He by done.
  unfold is_valid_. by rewrite He.
Qed.

Lemma of_block_spec : of_block (Some (block_of kvs)) ⇓ λ it,
  block_ it = Some (block_of kvs) ∧ first_key_ it = first_of kvs.
Proof.
  unfold of_block. destruct (kvs !! 0) as [[k v]|] eqn:H0; cycle 1.
  { apply lookup_ge_None_1 in H0.
    assert (kvs = []) as -> by (by apply nil_length_inv, Nat.le_0_r). by eexists. }
  assert (first_of kvs = k) as Hfirst by (by destruct kvs as [|[]]; simplify_eq/=).
  rewrite decide_True by (by destruct kvs).
  destruct (entry_fields 0 k v H0) as (_ & _ & _ & _ & post & Hdata).
  destruct (kvs_ok 0 k v H0) as (_ & Hk & _). simpl in Hdata, Hk.
  rewrite Nat.sub_0_r in Hdata. cbn [Block.data block_of].
  rewrite (bind_ok _ 0%Z); cycle 1.
  { by rewrite (read_u16_be_at _ [] _ _ 0 Hdata eq_refl). }
  rewrite (bind_ok _ (Z.of_nat (length k))); cycle 1.
  { rewrite (read_u16_be_at _ _ _ _ 2 Hdata) by (by rewrite length_be_bytes).
    by rewrite u16_u16, u16_small by lia. }
  rewrite (assoc_L (++)) in Hdata.
  rewrite (bind_ok _ k); cycle 1.
  { rewrite (append_ptr_at _ _ _ _ _ _ _ Hdata); [done| |by rewrite Nat2Z.id].
    by rewrite !length_app, !length_be_bytes. }
  eexists. by split.
Qed.

(** The binary search: everything before [low] is too small, everything
    from [high] on too large. *)
Definition searching (target : bytes) (s : nat * nat * t) : Prop :=
  let '(low, high, it) := s in
  block_ it = Some (block_of kvs) ∧ first_key_ it = first_of kvs ∧
  low ≤ high ≤ length kvs ∧
  (∀ j e, j < low → kvs !! j = Some e → key_lt e.1 target) ∧
  (∀ j e, high ≤ j → kvs !! j = Some e → key_lt target e.1).

(** The position [seek_to_key] is meant to find. *)
Definition sought (target : bytes) (i : nat) : Prop :=
  (∀ j e, j < i → kvs !! j = Some e → key_lt e.1 target) ∧
  (∀ j e, i ≤ j → kvs !! j = Some e → key_le target e.1).

Lemma sorted_lookup i j e1 e2 : ksorted kvs → i < j →
  kvs !! i = Some e1 → kvs !! j = Some e2 → key_lt e1.1 e2.1.
Proof.
  intros Hs Hij H1 H2. rewrite <-(take_drop_middle _ _ _ H1) in Hs.
  apply ksorted_app in Hs as (_ & Hs & _). apply ksorted_cons in Hs as [_ Hlt].
  apply Hlt, list_elem_of_fmap_2, list_elem_of_lookup. exists (j - S i). rewrite lookup_drop.
  by replace (S i + (j - S i)) with j by lia.
Qed.

Lemma search_step_spec target s : ksorted kvs → searching target s →
  search_step target s ⇓ λ r, match r with
    | inl s' => searching target s' ∧ s'.1.2 - s'.1.1 < s.1.2 - s.1.1
    | inr it => ∃ i, at_index kvs it i ∧ sought target i end.
Proof.
  destruct s as [[low high] it]. intros Hs (Hb & Hf & Hle & Hlow & Hhigh). unfold search_step.
  destruct (decide (low < high)) as [Hlt|Hge]; cycle 1.
  { eapply returns_bind; [by apply (seek_to_spec it low)|]. intros it' Hit. apply returns_ret.
    exists low. split; [done|]. split; [done|]. intros j e Hj He.
    pose proof (Hhigh j e ltac:(lia) He). key_order. }
  pose proof (Nat.div_lt (high - low) 2 ltac:(lia) ltac:(lia)) as Hhalf.
  cbv zeta. set (mid := low + (high - low) / 2) in *.
  assert (low ≤ mid < high) as Hmid by lia.
  destruct (lookup_lt_is_Some_2 kvs mid ltac:(lia)) as [[k v] Hk].
  eapply returns_bind; [by apply (seek_to_spec it mid)|]. intros it' Hit.
  destruct (at_key it' mid k v Hit Hk) as (Hkey & _ & ->).
  rewrite cassert_bind by done. rewrite Hkey, (bind_ok _ k) by done.
  destruct Hit as [Hb' Hf' He'].
  repeat case_decide; apply returns_ret.
  - split; [|simpl; lia]. unfold searching. split_and!; [done..|lia|lia| |done].
    intros j e Hj He. destruct (decide (j = mid)) as [->|]; [by simplify_eq|].
    transitivity k; [|done]. eapply (sorted_lookup j mid e (k, v)); [done|lia|done..].
  - split; [|simpl; lia]. unfold searching. split_and!; [done..|lia|lia|done|].
    apply compare_gt in H0.
    intros j e Hj He. destruct (decide (j = mid)) as [->|]; [by simplify_eq|].
    transitivity k; [done|]. eapply (sorted_lookup mid j (k, v) e); [done|lia|done..].
  - assert (k = target) as -> by (apply compare_eq; lia). exists mid. split; [done|]. split.
    + intros j e Hj He. by eapply (sorted_lookup j mid e (target, v)).
    + intros j e Hj He. destruct (decide (j = mid)) as [->|]; [simplify_eq; simpl; key_order|].
      pose proof (sorted_lookup mid j (target, v) e Hs ltac:(lia) Hk He). simpl in *. key_order.
Qed.

Lemma block_iterator_seek_to_key_spec it target : ksorted kvs →
  block_ it = Some (block_of kvs) → first_key_ it = first_of kvs →
  seek_to_key it target ⇓ λ it', ∃ i, at_index kvs it' i ∧ sought target i.
Proof.
  intros Hs Hb Hf. unfold seek_to_key. rewrite Hb, length_block_offsets.
  apply (returns_loopR _ (searching target) (λ s, s.1.2 - s.1.1)).
  - intros s HJ. by apply search_step_spec.
  - unfold searching. split_and!; [done..|lia|lia|lia|].
    intros j e Hj He%lookup_lt_Some. lia.
  - simpl. lia.
Qed.

Lemma sought_filter target i : sought target i →
  drop i kvs = filter (λ e, key_le target e.1) kvs.
Proof.
  intros [Hlt Hge]. rewrite <-(take_drop i kvs) at 2. rewrite filter_app, filter_none.
  - rewrite app_nil_l, filter_all; [done|]. apply Forall_lookup. intros j e He.
    rewrite lookup_drop in He. apply (Hge (i + j)); [lia|done].
  - apply Forall_lookup. intros j e [He Hj]%lookup_take_Some.
    pose proof (Hlt j e Hj He). key_order.
Qed.
End block.

(** ** What the iterator denotes *)
Definition repr (it : t) (l : list kv) : Prop :=
  (∃ kvs i, block_wf kvs ∧ ksorted kvs ∧ at_index kvs it i ∧ l = drop i kvs) ∨
  (l = [] ∧ is_valid_ it = false).

Lemma drop_cons {A} i (l : list A) e l' : e :: l' = drop i l → l !! i = Some e ∧ l' = drop (S i) l.
Proof.
  intros H. assert (l !! i = Some e) as Hi.
  { rewrite <-(Nat.add_0_r i), <-lookup_drop, <-H. done. }
  split; [done|]. rewrite (drop_S _ _ _ Hi) in H. by injection H.
Qed.

Lemma block_iterator_repr_cons it k v l : repr it ((k, v) :: l) →
  get_key it = Ok k ∧ get_value it = Ok v ∧ is_valid_ it = true ∧
  next_ it ⇓ λ it', repr it' l.
Proof.
  intros [(kvs & i & Hwf & Hs & Hit & [Hi ->]%drop_cons)|[[=] _]].
  destruct (at_key kvs Hwf it i k v Hit Hi) as (? & ? & ?). split_and!; [done..|].
  eapply returns_mono; [apply (block_iterator_next_spec kvs Hwf it i Hit); by eapply lookup_lt_Some|].
  intros it' Hit'. left. exists kvs, (S i). done.
Qed.

Lemma block_iterator_repr_nil it : repr it [] → is_valid_ it = false.
Proof.
  intros [(kvs & i & Hwf & _ & Hit & Hd)|[_ ?]]; [|done].
  apply (f_equal length) in Hd. eapply at_end; [done|]. rewrite length_drop in Hd. simpl in Hd. lia.
Qed.

#[global] Instance spec {W} {Inv : W → Prop} : IteratorSpec W t Inv.
Proof.
  exists repr.
  - intros it l [(kvs & i & _ & Hs & _ & ->)|[-> _]]; [|apply ksorted_nil].
    rewrite <-(take_drop i kvs) in Hs. by apply ksorted_app in Hs as (_ & ? & _).
  - intros it. apply block_iterator_repr_nil.
  - by intros it [k v] l (_ & _ & ? & _)%block_iterator_repr_cons.
  - by intros it k v l (? & _)%block_iterator_repr_cons.
  - by intros it k v l (_ & ? & _)%block_iterator_repr_cons.
  - intros it [k v] l (_ & _ & _ & ?)%block_iterator_repr_cons. by apply wp_lift.
Defined.

Lemma seek_to_first_repr kvs : block_wf kvs → ksorted kvs →
  create_and_seek_to_first (Some (block_of kvs)) ⇓ λ it, repr it kvs.
Proof.
  intros Hwf Hs. eapply returns_bind; [by apply of_block_spec|]. intros it [Hb Hf].
  eapply returns_mono; [by apply (seek_to_spec kvs Hwf it 0)|]. intros it' Hit.
  left. by exists kvs, 0.
Qed.

Lemma seek_to_key_repr kvs target : block_wf kvs → ksorted kvs →
  create_and_seek_to_key (Some (block_of kvs)) target ⇓
    λ it, repr it (filter (λ e, key_le target e.1) kvs).
Proof.
  intros Hwf Hs. eapply returns_bind; [by apply of_block_spec|]. intros it [Hb Hf].
  eapply returns_mono; [by apply (block_iterator_seek_to_key_spec kvs Hwf it target)|].
  intros it' (i & Hit & Hi). left. exists kvs, i. by rewrite sought_filter with (target := target).
Qed.
End BlockIteratorSpec.

(** ** Properties *)

(** The builders the code can reach by accepted calls of [add]. *)
Inductive built (block_size : nat) : list kv → BlockBuilder.t → Prop :=
| built_new : built block_size [] (BlockBuilder.create block_size)
| built_add kvs b k v b' : built block_size kvs b →
    BlockBuilder.add b k v = Ok (true, b') → built block_size (kvs ++ [(k, v)]) b'.

Lemma add_empty_key b v : BlockBuilder.add b [] v = Err (AssertFail "!key.is_empty()").
Proof. done. Qed.

Lemma built_repr bs kvs b : built bs kvs b →
  BlockBuilderSpec.repr b kvs ∧ BlockBuilder.block_size_ b = bs.
Proof.
  induction 1 as [|kvs b k v b' _ [IH Hbs] Hadd]; [split; [apply BlockBuilderSpec.block_builder_create_repr|done]|].
  assert (k ≠ []) as Hk by (by intros ->).
  pose proof (BlockBuilderSpec.block_builder_add_spec b kvs k v IH Hk) as Hspec.
  destruct (decide _); [|congruence]. destruct Hspec as (b'' & Hadd' & ? & ?). split; congruence.
Qed.

(** An entry in a block needs at most six bytes besides its key and value. *)
Lemma encoded_size_snoc kvs e :
  BlockBuilderSpec.encoded_size (kvs ++ [e]) ≤
    BlockBuilderSpec.encoded_size kvs + length e.1 + length e.2 + 8.
Proof.
  destruct e as [k v]. unfold BlockBuilderSpec.encoded_size. rewrite entries_bytes_snoc, !length_app.
  pose proof (entry_upper (first_of kvs) k v). simpl in *. lia.
Qed.

Lemma built_size bs kvs b : built bs kvs b → length kvs ≤ 1 ∨ BlockBuilderSpec.encoded_size kvs ≤ bs + 2.
Proof.
  induction 1 as [|kvs b k v b' Hb _ Hadd]; [left; simpl; lia|].
  assert (k ≠ []) as Hk by (by intros ->). apply built_repr in Hb as [Hr Hbs].
  pose proof (BlockBuilderSpec.block_builder_add_spec b kvs k v Hr Hk) as Hspec.
  destruct (decide _) as [[->|Hfit]|]; [left; simpl; lia| |congruence].
  right. pose proof (encoded_size_snoc kvs (k, v)). simpl in *. lia.
Qed.

Lemma collect_block it l fuel : BlockIteratorSpec.repr it l → length l < fuel →
  collect (W:=unit) fuel it tt = Ok (tt, l).
Proof.
  intros Hit Hlen. assert (denotes (W:=unit) (Inv:=λ _, True) it l) as Hd by exact Hit.
  by destruct (collect_denotes it l fuel Hd Hlen tt I) as ([] & ? & ? & _ & ->).
Qed.

(** C35: what a block builder accepted is what the block iterator reads.  For
    every sequence of accepted, key-sorted entries whose lengths fit the 16-bit
    fields, and a block size up to 64 KiB, [build] succeeds, [decode] undoes
    [encode], an iterator from the first entry yields exactly the entries in
    order, and an iterator positioned by [seek_to_key] yields exactly those at
    or above the target. *)
Theorem block_roundtrip bs kvs b :
  built bs kvs b → bs ≤ Z.to_nat 65536 → kvs ≠ [] → ksorted kvs → Forall kv_ok kvs →
  ∃ blk, BlockBuilder.build b = Ok blk ∧
    Block.decode (Block.encode blk) = Ok blk ∧
    (∃ it, BlockIterator.create_and_seek_to_first (Some blk) = Ok it ∧
       collect (W:=unit) (S (length kvs)) it tt = Ok (tt, kvs)) ∧
    (∀ target, ∃ it, BlockIterator.create_and_seek_to_key (Some blk) target = Ok it ∧
       collect (W:=unit) (S (length kvs)) it tt = Ok (tt, filter (λ e, key_le target e.1) kvs)).
Proof.
  intros [Hr Hbs]%built_repr Hle Hne Hs Hok. rewrite <-Hbs in Hle.
  pose proof (BlockBuilderSpec.repr_block_wf _ _ Hr Hok Hle) as Hwf.
  exists (block_of kvs). split_and!.
  - by apply BlockBuilderSpec.block_builder_build_spec.
  - by apply decode_encode_block_of.
  - destruct (BlockIteratorSpec.seek_to_first_repr kvs Hwf Hs) as (it & -> & Hit). exists it. split; [done|].
    by apply collect_block; [|lia].
  - intros target.
    destruct (BlockIteratorSpec.seek_to_key_repr kvs target Hwf Hs) as (it & -> & Hit). exists it. split; [done|].
    pose proof (length_filter (λ e : kv, key_le target e.1) kvs). by apply collect_block; [|lia].
Qed.

Definition demo_entries : list kv :=
  [([x61], [x01; x02]); ([x61; x62], []); ([x62], [x03])].

Fixpoint add_each (b : BlockBuilder.t) (kvs : list kv) : res BlockBuilder.t :=
  match kvs with
  | [] => mret b
  | (k, v) :: kvs =>
      r ← BlockBuilder.add b k v;
      if r.1 : bool then add_each r.2 kvs else Err (Exn "block full")
  end.

Lemma add_each_built bs kvs0 b kvs b' : built bs kvs0 b → add_each b kvs = Ok b' → built bs (kvs0 ++ kvs) b'.
Proof.
  revert kvs0 b; induction kvs as [|[k v] kvs IH]; intros kvs0 b Hb; simpl.
  { intros [= <-]. by rewrite app_nil_r. }
  destruct (BlockBuilder.add b k v) as [[[] b1]|] eqn:E; [|done..]. simpl. intros Hadd.
  rewrite cons_middle, (assoc_L (++)). eapply IH; [|exact Hadd]. by eapply built_add.
Qed.

Lemma block_roundtrip_witness : ∃ b blk,
  built 32 demo_entries b ∧ BlockBuilder.build b = Ok blk ∧
  (∃ it, BlockIterator.create_and_seek_to_key (Some blk) [x61; x61] = Ok it ∧
     collect (W:=unit) 4 it tt = Ok (tt, [([x61; x62], []); ([x62], [x03])])).
Proof.
  destruct (add_each (BlockBuilder.create 32) demo_entries) as [b|] eqn:E; [|vm_compute in E; discriminate E].
  assert (built 32 demo_entries b) as Hb by exact (add_each_built 32 [] _ _ _ (built_new 32) E).
  exists b.
  destruct (block_roundtrip 32 demo_entries b Hb) as (blk & Hbuild & _ & _ & Hseek).
  - apply Nat2Z.inj_le. vm_compute. discriminate.
  - discriminate.
  - apply (bool_decide_unpack _). vm_compute. exact I.
  - repeat constructor; vm_compute; discriminate || reflexivity.
  - exists blk. split; [exact Hb|]. split; [exact Hbuild|]. exact (Hseek [x61; x61]).
Defined.

(** [add] on every branch.  The empty key fails the assertion.  Any other
    entry is taken when the block is empty or when the encoded block, the entry
    and six more bytes fit [block_size]; otherwise the builder is unchanged.
    The estimate forgets the two bytes of the new offset, so a block of several
    entries can exceed [block_size], by two bytes and no more. *)
Lemma block_add_branches bs kvs b :
  built bs kvs b →
  let size := length (Block.encode (Block.mk (BlockBuilder.data_ b) (BlockBuilder.offsets_ b))) in
  (length kvs ≤ 1 ∨ size ≤ bs + 2) ∧
  ∀ k v,
    (k = [] ∧ BlockBuilder.add b k v = Err (AssertFail "!key.is_empty()")) ∨
    (k ≠ [] ∧ (kvs = [] ∨ size + length k + length v + 6 ≤ bs) ∧
       ∃ b', BlockBuilder.add b k v = Ok (true, b') ∧ built bs (kvs ++ [(k, v)]) b') ∨
    (k ≠ [] ∧ kvs ≠ [] ∧ bs < size + length k + length v + 6 ∧
       BlockBuilder.add b k v = Ok (false, b)).
Proof.
  intros Hb size. pose proof (built_repr _ _ _ Hb) as [Hr Hbs].
  assert (size = BlockBuilderSpec.encoded_size kvs) as ->.
  { unfold size. rewrite length_encode. simpl. destruct Hr as [-> -> _ _ _].
    rewrite length_block_offsets. unfold BlockBuilderSpec.encoded_size. lia. }
  split; [by eapply built_size|]. intros k v. destruct (decide (k = [])) as [->|Hk]; [by left|right].
  pose proof (BlockBuilderSpec.block_builder_add_spec b kvs k v Hr Hk) as Hspec. rewrite Hbs in Hspec.
  destruct (decide (BlockBuilderSpec.fits _ _ _)) as [Hfit|Hfull].
  - left. destruct Hspec as (b' & Hadd & _ & _). split_and!; [done|exact Hfit|].
    exists b'. split; [done|]. by eapply built_add.
  - right. unfold BlockBuilderSpec.fits in Hfull. simpl in Hfull.
    split_and!; [done|tauto|lia|done].
Qed.

Lemma block_add_branches_witness : ∃ b,
  add_each (BlockBuilder.create 24) [([x61], [x01; x02]); ([x62], [x03])] = Ok b ∧
  (length [([x61], [x01; x02]); ([x62], [x03])] ≤ 1 ∨
   length (Block.encode (Block.mk (BlockBuilder.data_ b) (BlockBuilder.offsets_ b))) ≤ 24 + 2).
Proof.
  destruct (add_each (BlockBuilder.create 24) [([x61], [x01; x02]); ([x62], [x03])]) as [b|] eqn:E;
    [|vm_compute in E; discriminate E].
  exists b. split; [reflexivity|].
  exact (proj1 (block_add_branches 24 [([x61], [x01; x02]); ([x62], [x03])] b
    (add_each_built 24 [] _ _ _ (built_new 24) E))).
Defined.

Lemma single_entry_read k v :
  k ≠ [] → (Z.of_nat (length k) < 65536)%Z → Z.of_nat (length v) = 65536%Z →
  ∃ it, BlockIterator.create_and_seek_to_first (Some (block_of [(k, v)])) = Ok it ∧
    BlockIterator.get_key it = Ok k ∧ BlockIterator.get_value it = Ok [].
Proof.
  intros Hk Hlen Hv. set (blk := block_of [(k, v)]).
  assert (Block.data blk = be_bytes 2 (u16 0) ++ be_bytes 2 (u16 (Z.of_nat (length k))) ++ k ++
    be_bytes 2 (u16 65536) ++ v ++ []) as Hdata.
  { unfold blk. simpl. unfold entry. simpl. by rewrite !app_nil_r, Nat.sub_0_r, Hv. }
  pose proof (read_u16_be_at _ [] _ _ 0 Hdata eq_refl) as R0.
  rewrite (assoc_L (++)) in Hdata. pose proof Hdata as Hd1. rewrite <-(assoc_L (++)) in Hd1.
  pose proof (read_u16_be_at _ _ _ _ 2 Hd1 ltac:(by rewrite length_be_bytes)) as R2.
  rewrite u16_u16, u16_small in R2 by lia.
  assert (KeyVec.append_ptr [] (Block.data blk) 4 (length k) = Ok k) as Rk.
  { eapply (BlockIteratorSpec.append_ptr_at []); [exact Hdata| |done].
    by rewrite length_app, !length_be_bytes. }
  rewrite (assoc_L (++)) in Hdata.
  pose proof (read_u16_be_at _ _ _ _ (4 + length k) Hdata
    ltac:(rewrite !length_app, !length_be_bytes; lia)) as Rv.
  assert (4 + length k + 2 + 0 ≤ length (Block.data blk)).
  { rewrite Hdata, !length_app, !length_be_bytes. lia. }
  exists (BlockIterator.mk (Some blk) k (4 + length k + 2) 0 0 k). split_and!.
  - unfold BlockIterator.create_and_seek_to_first.
    rewrite (bind_ok _ (BlockIterator.mk (Some blk) [] 0 0 0 k)); cycle 1.
    { unfold BlockIterator.of_block. destruct (decide (Block.offsets blk ≠ [])) as [_|[]]; [|done].
      rewrite R0, (bind_ok _ _ _ eq_refl), R2, (bind_ok _ _ _ eq_refl), Nat2Z.id. by rewrite Rk. }
    unfold BlockIterator.seek_to_first, BlockIterator.seek_to. cbn [BlockIterator.block_].
    destruct (decide (length (Block.offsets blk) ≤ 0)) as [Hle|_]; [simpl in Hle; lia|].
    unfold BlockIterator.seek_to_offset. cbn [BlockIterator.block_ BlockIterator.idx_ BlockIterator.first_key_ deref].
    rewrite (bind_ok _ blk) by done. rewrite (bind_ok _ 0) by done.
    rewrite R0, (bind_ok _ 0) by done. change (0 + 2) with 2. change (0 + 4) with 4.
    rewrite R2, (bind_ok _ (length k)) by (cbn; by rewrite Nat2Z.id).
    rewrite (bind_ok _ []) by done. rewrite Rk, (bind_ok _ k) by done. rewrite Rv. done.
  - unfold BlockIterator.get_key. simpl. unfold KeyVec.is_empty. by rewrite BlockBuilderSpec.key_nonempty.
  - unfold BlockIterator.get_value. simpl. unfold KeyVec.is_empty. rewrite BlockBuilderSpec.key_nonempty by done.
    simpl. rewrite decide_True by done. done.
Qed.

(** C38: the 16-bit length field loses a long value.  A value of exactly 65536
    bytes is accepted by the builder without an error, and the iterator over the
    block reads it back as the empty value, which is the mark of a deletion. *)
Theorem block_value_truncated bs k v :
  k ≠ [] → (Z.of_nat (length k) < 65536)%Z → Z.of_nat (length v) = 65536%Z →
  ∃ b blk it, BlockBuilder.add (BlockBuilder.create bs) k v = Ok (true, b) ∧
    BlockBuilder.build b = Ok blk ∧
    BlockIterator.create_and_seek_to_first (Some blk) = Ok it ∧
    BlockIterator.get_key it = Ok k ∧ BlockIterator.get_value it = Ok [].
Proof.
  intros Hk Hlen Hv.
  pose proof (BlockBuilderSpec.block_builder_add_spec (BlockBuilder.create bs) [] k v (BlockBuilderSpec.block_builder_create_repr bs) Hk) as Hadd.
  rewrite decide_True in Hadd by (by left). destruct Hadd as (b & Hadd & Hr & _).
  exists b, (block_of [(k, v)]). destruct (single_entry_read k v Hk Hlen Hv) as (it & Hit & ? & ?).
  exists it. split_and!; [done|by apply (BlockBuilderSpec.block_builder_build_spec _ _ Hr)|done..].
Qed.

Lemma block_value_truncated_witness :
  ∃ b blk it, BlockBuilder.add (BlockBuilder.create 4096) [x6b] (replicate (Z.to_nat 65536) x76) = Ok (true, b) ∧
    BlockBuilder.build b = Ok blk ∧
    BlockIterator.create_and_seek_to_first (Some blk) = Ok it ∧
    BlockIterator.get_key it = Ok [x6b] ∧ BlockIterator.get_value it = Ok [].
Proof.
  apply (block_value_truncated 4096 [x6b] (replicate (Z.to_nat 65536) x76)); [discriminate|reflexivity|].
  rewrite length_replicate. apply Z2Nat.id. lia.
Defined.
