(* ===== verification/BlockCache.v ===== *)
(** * The LRU block cache: include/mini_lsm/block_cache.h, src/block_cache.cpp

    The cache is a [std::list] of entries and a hash map from keys to list
    iterators.  List nodes have identities here, so an iterator of the map is
    a node and using one that is no longer in the list is undefined behaviour;
    the invariant [wf] excludes it.  [contents] forgets the nodes: it is the
    list of entries, most recently used first, on which the reference
    operations [ref_touch] and [ref_insert] are defined.  The mutex makes every
    operation one atomic step. *)
From S2P Require Import Prelude Key Iterators Block.

(** ** Definitions *)
Module BlockCache.
(** (sst_id, block_idx) *)
Abbreviation Key := (nat * nat)%type.
Abbreviation ListEntry := (Key * Block.t)%type.

Record t := mk {
  capacity_ : nat;
  list_ : list (nat * ListEntry);     (* nodes, front first *)
  map_ : gmap Key nat;
  fresh_ : nat }.                     (* the next node *)

Definition create (capacity : nat) : t := mk capacity [] ∅ 0.

(** The entry of a node and the list without it: what [splice] unlinks. *)
Fixpoint unlink (n : nat) (l : list (nat * ListEntry)) :
    option (ListEntry * list (nat * ListEntry)) :=
  match l with
  | [] => None
  | (n', e) :: l =>
      if decide (n' = n) then Some (e, l)
      else match unlink n l with Some (e', l') => Some (e', (n', e) :: l') | None => None end
  end.

Definition get (sst_id block_idx : nat) : eff t (option Block.t) := λ c,
  let key := (sst_id, block_idx) in
  match map_ c !! key with
  | None => Ok (c, None)
  | Some n =>
      '(e, rest) ← deref (unlink n (list_ c)) "dangling list iterator";
      Ok (mk (capacity_ c) ((n, e) :: rest) (map_ c) (fresh_ c), Some e.2)
  end.

Definition insert (sst_id block_idx : nat) (block : option Block.t) : eff t unit := λ c,
  match block with
  | None => Ok (c, tt)
  | Some b =>
      if decide (capacity_ c = 0) then Ok (c, tt) else
      let key := (sst_id, block_idx) in
      match map_ c !! key with
      | Some n =>
          '(e, rest) ← deref (unlink n (list_ c)) "dangling list iterator";
          Ok (mk (capacity_ c) ((n, (e.1, b)) :: rest) (map_ c) (fresh_ c), tt)
      | None =>
          c ← (if decide (capacity_ c ≤ size (map_ c)) then
                 '(_, e) ← deref (last (list_ c)) "back() of an empty list";
                 Ok (mk (capacity_ c) (removelast (list_ c)) (delete e.1 (map_ c)) (fresh_ c))
               else Ok c);
          Ok (mk (capacity_ c) ((fresh_ c, (key, b)) :: list_ c)
                 (<[key := fresh_ c]> (map_ c)) (S (fresh_ c)), tt)
      end
  end.

Definition try_get_with (sst_id block_idx : nat) (loader : res (option Block.t)) :
    eff t (option Block.t) :=
  r ← get sst_id block_idx;
  match r with
  | Some b => mret (Some b)
  | None =>
      blk ← lift loader;
      if decide (is_Some blk)
      then insert sst_id block_idx blk;; mret blk
      else mret blk
  end.

Definition size_ (c : t) : nat := size (map_ c).
End BlockCache.

(** ** The reference: a list of entries, most recently used first *)
Module LruReference.
Import BlockCache.
Implicit Types (l : list ListEntry) (k : Key) (b : Block.t).

Definition ref_get k l : option Block.t := (list_to_map l : gmap Key Block.t) !! k.
Definition ref_touch k l : list ListEntry :=
  match ref_get k l with
  | Some b => (k, b) :: filter (λ e : ListEntry, e.1 ≠ k) l
  | None => l
  end.
Definition ref_insert (cap : nat) k b l : list ListEntry :=
  take cap ((k, b) :: filter (λ e : ListEntry, e.1 ≠ k) l).
End LruReference.

Module BlockCacheSpec.
Import BlockCache LruReference.
Implicit Types (c : t) (k : Key) (b : Block.t) (n : nat).

Definition contents c : list ListEntry := (list_ c).*2.
Definition keys (l : list (nat * ListEntry)) : list Key := l.*2.*1.
(** The hash map the list should be indexed by. *)
Definition index (l : list (nat * ListEntry)) : gmap Key nat :=
  list_to_map ((λ e, (e.2.1, e.1)) <$> l).

Record wf c : Prop := {
  wf_nodes : NoDup (list_ c).*1;
  wf_keys : NoDup (keys (list_ c));
  wf_map : map_ c = index (list_ c);
  wf_fresh n : n ∈ (list_ c).*1 → n < fresh_ c;
  wf_capacity : length (list_ c) ≤ capacity_ c }.

Lemma create_wf cap : wf (create cap).
Proof. split; simpl; try constructor; try set_solver; lia. Qed.

Lemma unlink_spec n l1 e l2 : n ∉ l1.*1 → unlink n (l1 ++ (n, e) :: l2) = Some (e, l1 ++ l2).
Proof.
  induction l1 as [|[n' e'] l1 IH]; simpl; intros Hn.
  - by rewrite decide_True.
  - rewrite decide_False by set_solver. by rewrite IH by set_solver.
Qed.

Lemma keys_app l1 l2 : keys (l1 ++ l2) = keys l1 ++ keys l2.
Proof. unfold keys. by rewrite !fmap_app. Qed.

Lemma index_keys l : ((λ e : nat * ListEntry, (e.2.1, e.1)) <$> l).*1 = keys l.
Proof. unfold keys. by rewrite <-!list_fmap_compose. Qed.

(** Looking a key up finds its entry in the list, and nothing else is there. *)
Lemma wf_split c k n : wf c → map_ c !! k = Some n →
  ∃ b l1 l2, list_ c = l1 ++ (n, (k, b)) :: l2 ∧
    unlink n (list_ c) = Some ((k, b), l1 ++ l2) ∧ k ∉ keys (l1 ++ l2).
Proof.
  intros [Hn Hk Hm _ _]. rewrite Hm. unfold index. intros Hin%elem_of_list_to_map_2.
  apply list_elem_of_fmap_1 in Hin as ([n' [k' b]] & [= -> ->] & (l1 & l2 & Hl)%list_elem_of_split).
  exists b, l1, l2. rewrite Hl in *. rewrite fmap_app in Hn. rewrite keys_app in *.
  apply NoDup_app in Hn as (_ & Hn1 & _). cbn in Hk.
  rewrite <-Permutation_middle in Hk. apply NoDup_cons in Hk as [? _].
  rewrite unlink_spec by (simpl in Hn1; set_solver). done.
Qed.

Lemma wf_absent c k : wf c → map_ c !! k = None → k ∉ keys (list_ c).
Proof.
  intros [_ _ Hm _ _]. rewrite Hm. intros Hk%not_elem_of_list_to_map_2. by rewrite index_keys in Hk.
Qed.

Lemma ref_get_None (l : list (nat * ListEntry)) k : k ∉ keys l → ref_get k l.*2 = None.
Proof. apply not_elem_of_list_to_map_1. Qed.

Lemma ref_get_middle (l1 l2 : list (nat * ListEntry)) n k b : k ∉ keys (l1 ++ l2) →
  ref_get k (l1 ++ (n, (k, b)) :: l2).*2 = Some b.
Proof.
  unfold ref_get. rewrite keys_app, fmap_app, list_to_map_app. intros Hk. simpl.
  rewrite lookup_union_r by (apply not_elem_of_list_to_map_1; set_solver).
  apply lookup_insert_eq.
Qed.

Lemma filter_fresh (l : list (nat * ListEntry)) k :
  k ∉ keys l → filter (λ e : ListEntry, e.1 ≠ k) l.*2 = l.*2.
Proof.
  intros Hk. apply filter_all, Forall_forall. intros e He Hek. apply Hk. rewrite <-Hek.
  by apply list_elem_of_fmap_2.
Qed.

Lemma filter_middle (l1 l2 : list (nat * ListEntry)) n k b : k ∉ keys (l1 ++ l2) →
  filter (λ e : ListEntry, e.1 ≠ k) (l1 ++ (n, (k, b)) :: l2).*2 = (l1 ++ l2).*2.
Proof.
  rewrite keys_app. intros Hk. rewrite fmap_app, fmap_cons.
  rewrite filter_app, filter_cons_False by (simpl; by intros []).
  by rewrite !filter_fresh, fmap_app by set_solver.
Qed.

(** Moving an entry to the front, possibly with another block, keeps [wf]. *)
Lemma wf_move c l1 l2 n k b b' : wf c → list_ c = l1 ++ (n, (k, b)) :: l2 →
  wf (mk (capacity_ c) ((n, (k, b')) :: l1 ++ l2) (map_ c) (fresh_ c)).
Proof.
  intros [Hn Hk Hm Hf Hc] Hl. rewrite Hl in *.
  assert ((l1 ++ (n, (k, b)) :: l2).*1 ≡ₚ ((n, (k, b')) :: l1 ++ l2).*1) as Hp1.
  { rewrite fmap_cons, !fmap_app, fmap_cons. symmetry. apply Permutation_middle. }
  assert (keys (l1 ++ (n, (k, b)) :: l2) ≡ₚ keys ((n, (k, b')) :: l1 ++ l2)) as Hp2.
  { change (keys ((n, (k, b')) :: l1 ++ l2)) with (k :: keys (l1 ++ l2)).
    rewrite !keys_app. symmetry. apply Permutation_middle. }
  split; cbn [list_ map_ capacity_ fresh_].
  - by rewrite <-Hp1.
  - by rewrite <-Hp2.
  - rewrite Hm. unfold index. apply list_to_map_proper; [by rewrite index_keys|].
    by rewrite <-Permutation_middle.
  - intros n'. rewrite <-Hp1. apply Hf.
  - rewrite length_app in Hc. simpl in *. rewrite length_app. lia.
Qed.

Lemma wf_push c k b : wf c → k ∉ keys (list_ c) → length (list_ c) < capacity_ c →
  wf (mk (capacity_ c) ((fresh_ c, (k, b)) :: list_ c) (<[k := fresh_ c]> (map_ c)) (S (fresh_ c))).
Proof.
  intros [Hn Hk Hm Hf Hc] Hnew Hlt. split; simpl.
  - constructor; [|done]. intros ?%Hf. lia.
  - by constructor.
  - by rewrite Hm.
  - intros n [->|?%Hf]%elem_of_cons; lia.
  - lia.
Qed.

Lemma wf_pop c l n k b : wf c → list_ c = l ++ [(n, (k, b))] →
  wf (mk (capacity_ c) l (delete k (map_ c)) (fresh_ c)).
Proof.
  intros [Hn Hk Hm Hf Hc] Hl. rewrite Hl in *. rewrite keys_app in Hk.
  apply NoDup_app in Hk as (Hk1 & Hk2 & _). cbn in Hk2.
  split; cbn [list_ map_ capacity_ fresh_].
  - rewrite fmap_app in Hn. by apply NoDup_app in Hn as [].
  - done.
  - rewrite Hm. unfold index. rewrite fmap_app, list_to_map_app, delete_union.
    rewrite (delete_id (list_to_map _)); cycle 1.
    { apply not_elem_of_list_to_map_1. rewrite index_keys. set_solver. }
    simpl. by rewrite delete_insert_eq, delete_empty, (right_id_L ∅ (∪)).
  - intros n' Hin. apply Hf. rewrite fmap_app. set_solver.
  - rewrite length_app in Hc. simpl in *. lia.
Qed.

Lemma wf_size c : wf c → size (map_ c) = length (list_ c).
Proof.
  intros [_ Hk Hm _ _]. rewrite Hm. unfold index.
  rewrite map_size_list_to_map by (by rewrite index_keys). by rewrite length_fmap.
Qed.

(** [get] answers like the reference and moves the entry to the front. *)
Lemma cache_get_spec c i j : wf c → ∃ c', get i j c = Ok (c', ref_get (i, j) (contents c)) ∧
  wf c' ∧ contents c' = ref_touch (i, j) (contents c) ∧ capacity_ c' = capacity_ c.
Proof.
  intros Hwf. unfold get, ref_touch, contents.
  destruct (map_ c !! (i, j)) as [n|] eqn:Hk.
  - destruct (wf_split _ _ _ Hwf Hk) as (b & l1 & l2 & Hl & Hu & Hni). rewrite Hu. simpl.
    rewrite Hl, ref_get_middle, filter_middle by done. eexists. split; [done|].
    split; [by eapply wf_move|done].
  - rewrite ref_get_None by (by apply wf_absent). by eexists.
Qed.

(** [insert] is the reference's: the entry in front, the oldest one dropped
    when there is no room. *)
Lemma insert_spec c i j b : wf c → ∃ c', insert i j (Some b) c = Ok (c', tt) ∧
  wf c' ∧ contents c' = ref_insert (capacity_ c) (i, j) b (contents c) ∧ capacity_ c' = capacity_ c.
Proof.
  intros Hwf. pose proof (wf_capacity _ Hwf) as Hcap. unfold insert, ref_insert, contents.
  destruct (decide (capacity_ c = 0)) as [H0|H0].
  { exists c. rewrite H0. split_and!; [done..| |done]. destruct (list_ c); simpl in *; [done|lia]. }
  destruct (map_ c !! (i, j)) as [n|] eqn:Hk.
  { destruct (wf_split _ _ _ Hwf Hk) as (b0 & l1 & l2 & Hl & Hu & Hni). rewrite Hu. simpl.
    eexists. split; [done|]. split; [by eapply wf_move|]. split; [|done]. simpl.
    rewrite Hl in *. rewrite filter_middle by done. rewrite take_ge; [done|].
    rewrite length_app in Hcap. simpl in *. rewrite length_fmap, length_app. lia. }
  pose proof (wf_absent _ _ Hwf Hk) as Hni. rewrite filter_fresh, (wf_size _ Hwf) by done.
  destruct (decide (capacity_ c ≤ length (list_ c))) as [Hfull|Hroom].
  - destruct (exists_last (l:=list_ c)) as (l & [n [k0 b0]] & Hl); [by destruct (list_ c); simpl in *; lia || done|].
    rewrite Hl in *. rewrite last_snoc, removelast_last. simpl.
    eexists. split; [done|]. rewrite keys_app in Hni. rewrite length_app in Hfull, Hcap. simpl in *.
    split; [|split; [|done]].
    + pose proof (wf_push (mk (capacity_ c) l (delete k0 (map_ c)) (fresh_ c)) (i, j) b) as Hpush.
      simpl in Hpush. apply Hpush; [by eapply wf_pop|set_solver|lia].
    + simpl. rewrite fmap_app. destruct (capacity_ c) as [|cap]; [done|]. simpl.
      rewrite take_app_le, take_ge by (rewrite length_fmap; lia). done.
  - simpl. eexists. split; [done|]. split; [apply wf_push; [done..|lia]|].
    split; [|done]. simpl. rewrite take_ge; [done|]. simpl. rewrite length_fmap. lia.
Qed.

(** What is cached is what the files hold. *)
Definition cache_ok (content : gmap Key Block.t) c : Prop :=
  wf c ∧ ∀ k b, (k, b) ∈ contents c → content !! k = Some b.

Lemma cache_ok_mono content content' c :
  content ⊆ content' → cache_ok content c → cache_ok content' c.
Proof. intros Hsub [Hwf Hc]. split; [done|]. intros k b Hin. by eapply lookup_weaken, Hsub; apply Hc. Qed.

Lemma ref_get_elem k l b : ref_get k l = Some b → (k, b) ∈ l.
Proof. apply elem_of_list_to_map_2. Qed.

Lemma ref_touch_sub k l e : e ∈ ref_touch k l → e ∈ l.
Proof.
  unfold ref_touch. destruct (ref_get k l) as [b|] eqn:E; [|done].
  intros [->|[_ ?]%list_elem_of_filter]%elem_of_cons; [by apply ref_get_elem|done].
Qed.

Lemma ref_insert_sub cap k b l e : e ∈ ref_insert cap k b l → e = (k, b) ∨ e ∈ l.
Proof.
  intros (i & Hi)%list_elem_of_lookup. apply lookup_take_Some in Hi as [Hi _].
  apply list_elem_of_lookup_2 in Hi.
  apply elem_of_cons in Hi as [->|[_ ?]%list_elem_of_filter]; auto.
Qed.

Lemma get_ok content i j :
  get i j ⇓{cache_ok content} λ r, r = None ∨ r = content !! (i, j).
Proof.
  intros c [Hwf Hc]. destruct (cache_get_spec c i j Hwf) as (c' & Hg & Hwf' & Hcont & _).
  exists c', (ref_get (i, j) (contents c)). split; [done|]. split.
  - split; [done|]. intros k b. rewrite Hcont. intros ?%ref_touch_sub. by apply Hc.
  - destruct (ref_get _ _) as [b|] eqn:E; [right|by left]. symmetry. by apply Hc, ref_get_elem.
Qed.

Lemma insert_ok content i j b : content !! (i, j) = Some b →
  insert i j (Some b) ⇓{cache_ok content} λ _, True.
Proof.
  intros Hk c [Hwf Hc]. destruct (insert_spec c i j b Hwf) as (c' & Hg & Hwf' & Hcont & _).
  exists c', tt. split; [done|]. split; [|done]. split; [done|]. intros k b'. rewrite Hcont.
  intros [[= -> ->]|Hin]%ref_insert_sub; [done|by apply Hc].
Qed.

(** A cached read is a read. *)
Lemma try_get_with_ok content i j loader b :
  content !! (i, j) = Some b → loader = Ok (Some b) →
  try_get_with i j loader ⇓{cache_ok content} λ r, r = Some b.
Proof.
  intros Hk ->. eapply wp_bind; [apply get_ok|]. intros r Hr.
  destruct r as [b'|]; [apply wp_ret; destruct Hr; congruence|].
  eapply wp_bind_ok; [done|]. rewrite decide_True by eauto.
  eapply wp_bind; [by apply insert_ok|]. intros _ _. by apply wp_ret.
Qed.
End BlockCacheSpec.

(** ** Properties *)

(** The states of the cache under any interleaving of its two atomic
    operations; [ok] restricts what may be inserted. *)
Inductive reachable (capacity : nat) (ok : nat → nat → Block.t → Prop) : BlockCache.t → Prop :=
| reachable_new : reachable capacity ok (BlockCache.create capacity)
| reachable_get c i j c' r : reachable capacity ok c →
    BlockCache.get i j c = Ok (c', r) → reachable capacity ok c'
| reachable_insert c i j b c' : reachable capacity ok c → ok i j b →
    BlockCache.insert i j (Some b) c = Ok (c', tt) → reachable capacity ok c'.

Lemma reachable_ok capacity ok c : reachable capacity ok c →
  BlockCacheSpec.wf c ∧ BlockCache.capacity_ c = capacity ∧
  ∀ i j b, ((i, j), b) ∈ BlockCacheSpec.contents c → ok i j b.
Proof.
  induction 1 as [|c i j c' r _ (Hwf & Hcap & Hok) Hget|c i j b c' _ (Hwf & Hcap & Hok) Hb Hins].
  - split; [apply BlockCacheSpec.create_wf|]. split; [done|]. intros i j b Hin. by apply elem_of_nil in Hin.
  - destruct (BlockCacheSpec.cache_get_spec c i j Hwf) as (? & Hget' & Hwf' & Hcont & Hcap').
    rewrite Hget in Hget'. injection Hget' as <- ->. split_and!; [done|congruence|].
    intros i' j' b. rewrite Hcont. intros ?%BlockCacheSpec.ref_touch_sub. by apply Hok.
  - destruct (BlockCacheSpec.insert_spec c i j b Hwf) as (? & Hins' & Hwf' & Hcont & Hcap').
    rewrite Hins in Hins'. injection Hins' as <-. split_and!; [done|congruence|].
    intros i' j' b'. rewrite Hcont. intros [[= -> -> ->]|?]%BlockCacheSpec.ref_insert_sub; [done|by apply Hok].
Qed.

Definition any_block (i j : nat) (b : Block.t) : Prop := True.

(** C36: the list and the hash map implement a least-recently-used cache.  In
    every reachable state, whatever was looked up and inserted before, no list
    iterator of the map dangles, the size is the number of entries and within the
    capacity, [get] returns what the most-recently-used list maps the key to and
    moves it to the front, and [insert] puts the entry in front and drops the
    least recently used ones beyond the capacity. *)
Theorem cache_refines_lru capacity c i j b :
  reachable capacity any_block c →
  BlockCache.size_ c = length (BlockCacheSpec.contents c) ∧
  BlockCache.size_ c ≤ capacity ∧
  (∃ c', BlockCache.get i j c = Ok (c', LruReference.ref_get (i, j) (BlockCacheSpec.contents c)) ∧
     BlockCacheSpec.contents c' = LruReference.ref_touch (i, j) (BlockCacheSpec.contents c)) ∧
  (∃ c', BlockCache.insert i j (Some b) c = Ok (c', tt) ∧
     BlockCacheSpec.contents c' = LruReference.ref_insert capacity (i, j) b (BlockCacheSpec.contents c)) ∧
  BlockCache.insert i j None c = Ok (c, tt).
Proof.
  intros (Hwf & <- & _)%reachable_ok.
  assert (BlockCache.size_ c = length (BlockCacheSpec.contents c)) as Hsize.
  { unfold BlockCache.size_, BlockCacheSpec.contents. by rewrite BlockCacheSpec.wf_size, length_fmap. }
  split_and!; [done| | | |done].
  - rewrite Hsize. unfold BlockCacheSpec.contents. rewrite length_fmap. apply Hwf.
  - destruct (BlockCacheSpec.cache_get_spec c i j Hwf) as (c' & ? & _ & ? & _). by exists c'.
  - destruct (BlockCacheSpec.insert_spec c i j b Hwf) as (c' & ? & _ & ? & _). by exists c'.
Qed.

Definition demo_block (n : nat) : Block.t := Block.mk (replicate n x00) [].

Lemma cache_refines_lru_witness : ∃ c c',
  BlockCache.insert 1 0 (Some (demo_block 1)) (BlockCache.create 1) = Ok (c, tt) ∧
  BlockCache.insert 2 0 (Some (demo_block 2)) c = Ok (c', tt) ∧
  BlockCacheSpec.contents c' = [((2, 0), demo_block 2)] ∧ BlockCache.size_ c' ≤ 1.
Proof.
  destruct (BlockCache.insert 1 0 (Some (demo_block 1)) (BlockCache.create 1)) as [[c []]|] eqn:E1;
    [|vm_compute in E1; discriminate E1].
  destruct (BlockCache.insert 2 0 (Some (demo_block 2)) c) as [[c' []]|] eqn:E2;
    [|vm_compute in E1; injection E1 as <-; vm_compute in E2; discriminate E2].
  assert (reachable 1 any_block c') as Hr
    by (eapply reachable_insert; [eapply reachable_insert; [apply reachable_new|exact I|exact E1]|exact I|exact E2]).
  exists c, c'. split; [reflexivity|]. split; [exact E2|]. split.
  - vm_compute in E1; injection E1 as <-; vm_compute in E2; injection E2 as <-. reflexivity.
  - exact (proj1 (proj2 (cache_refines_lru 1 c' 0 0 (demo_block 0) Hr))).
Defined.

(** Caching is transparent.  If only blocks that agree with the files were
    ever inserted, in any interleaving of lookups and insertions by other
    threads and with any evictions, then [try_get_with] returns exactly what
    its loader would have read, and leaves a state of the same kind. *)
Lemma cache_transparent capacity (file : nat → nat → Block.t) c i j :
  reachable capacity (λ i j b, file i j = b) c →
  ∃ c', BlockCache.try_get_with i j (Ok (Some (file i j))) c = Ok (c', Some (file i j)) ∧
    reachable capacity (λ i j b, file i j = b) c'.
Proof.
  intros Hc. pose proof (reachable_ok _ _ _ Hc) as (Hwf & _ & Hok).
  destruct (BlockCacheSpec.cache_get_spec c i j Hwf) as (c1 & Hget & Hwf1 & _ & _).
  pose proof (reachable_get _ _ _ _ _ _ _ Hc Hget) as Hc1.
  unfold BlockCache.try_get_with, mbind, eff_bind. rewrite Hget.
  destruct (LruReference.ref_get (i, j) (BlockCacheSpec.contents c)) as [b|] eqn:E.
  - apply BlockCacheSpec.ref_get_elem, Hok in E as ->. by exists c1.
  - destruct (BlockCacheSpec.insert_spec c1 i j (file i j) Hwf1) as (c2 & Hins & _ & _ & _).
    exists c2. unfold lift. rewrite decide_True by eauto. rewrite Hins.
    split; [done|]. by eapply reachable_insert.
Qed.

Lemma cache_transparent_witness : ∃ c,
  BlockCache.try_get_with 3 1 (Ok (Some (demo_block 4))) (BlockCache.create 2) = Ok (c, Some (demo_block 4)) ∧
  reachable 2 (λ i j b, demo_block (i + j) = b) c.
Proof. exact (cache_transparent 2 (λ i j, demo_block (i + j)) _ 3 1 (reachable_new _ _)). Defined.
