(* ===== verification/Double.v ===== *)
(** * IEEE 754 doubles

    The floating-point arithmetic of the program (filter sizing, compaction
    ratios): binary64 as the Standard Library's [spec_float], round to nearest.
    Division by zero gives infinities and NaNs as in the standard, comparisons
    with NaN are false, and converting a double that is out of range to an
    integer is undefined behaviour.  [std::log] is a parameter: its result is not
    fixed by the standard. *)
From Stdlib Require Import SpecFloat.
From S2P Require Import Prelude.

#[local] Open Scope Z_scope.

Abbreviation double := spec_float.

Module Double.
Definition prec : Z := 53.
Definition emax : Z := 1024.
Definition of_Z (z : Z) : double := binary_normalize prec emax z 0 false.
Definition mul : double → double → double := SFmul prec emax.
Definition add : double → double → double := SFadd prec emax.
Definition div : double → double → double := SFdiv prec emax.
Definition opp : double → double := SFopp.

Definition ltb : double → double → bool := SFltb.
Definition leb : double → double → bool := SFleb.
Definition eqb : double → double → bool := SFeqb.

(** The integer part, towards zero and upwards. *)
Definition trunc (m : positive) (e : Z) : Z :=
  if decide (0 ≤ e) then Zpos m * 2 ^ e else Zpos m / 2 ^ (- e).
Definition ceil (x : double) : double :=
  match x with
  | S754_finite s m e =>
      if decide (0 ≤ e) then x
      else if s then
        let z := trunc m e in if decide (z = 0) then S754_zero true else of_Z (- z)
      else of_Z (- (- Zpos m / 2 ^ (- e)))
  | _ => x
  end.

(** [static_cast<uintW_t>(x)]: the truncated value, if it is representable. *)
Definition to_unsigned (w : Z) (x : double) : res Z :=
  match x with
  | S754_zero _ => Ok 0
  | S754_finite s m e =>
      let z := if s then - trunc m e else trunc m e in
      if decide (0 ≤ z < 2 ^ w) then Ok z else Err (UB "double out of range")
  | _ => Err (UB "double out of range")
  end.

(** The literals of the program. *)
Definition ln2 : double := S754_finite false 6243314768165359 (-53).    (* 0.6931471805599453 *)
Definition c069 : double := S754_finite false 6214967485771284 (-53).   (* 0.69 *)
Definition c001 : double := S754_finite false 5764607523034235 (-59).   (* 0.01 *)
Definition c100 : double := of_Z 100.                                  (* 100.0 *)
Definition c1 : double := of_Z 1.                                      (* 1.0 *)
End Double.

Class Libm := log : double → double.
