(* ===== verification/Rounding.v ===== *)
(** * Rounding to nearest

    What the compaction controllers rely on when they compare doubles: an
    integer that is not above another one has a quotient that is not above one,
    although both integers and the quotient are rounded. *)
From Stdlib Require Import SpecFloat.
From S2P Require Import Prelude Double.

#[local] Open Scope Z_scope.

(** ** Digits *)
Lemma digits2_spec m : 2 ^ (Zpos (digits2_pos m) - 1) ≤ Zpos m < 2 ^ Zpos (digits2_pos m).
Proof.
  induction m as [m IH|m IH|]; cbn [digits2_pos]; [| |done];
    rewrite Pos2Z.inj_succ; replace (Z.succ (Zpos (digits2_pos m)) - 1) with (Z.succ (Zpos (digits2_pos m) - 1)) by lia;
    rewrite !Z.pow_succ_r by lia; lia.
Qed.

Lemma digits2_unique m d : 0 < d → 2 ^ (d - 1) ≤ Zpos m < 2 ^ d → Zpos (digits2_pos m) = d.
Proof.
  intros Hd [Hl Hu]. pose proof (digits2_spec m) as [Hl' Hu'].
  assert (d - 1 < Zpos (digits2_pos m)) by (apply (Z.pow_lt_mono_r_iff 2); lia).
  assert (Zpos (digits2_pos m) - 1 < d) by (apply (Z.pow_lt_mono_r_iff 2); lia). lia.
Qed.

(** ** Shifting right *)

(** Whether [rem / 2 ^ n] is zero, below, at or above one half. *)
Definition location_of (n rem : Z) : location :=
  if decide (rem = 0) then loc_Exact else loc_Inexact (2 * rem ?= 2 ^ n).

(** [m] with its last [n] digits [rem] cut off, as [shr_1] keeps it. *)
Record shifted (m n : Z) (mrs : shr_record) : Prop := {
  sh_m : shr_m mrs = m / 2 ^ n;
  sh_r : shr_r mrs = bool_decide (2 ^ n ≤ 2 * (m `mod` 2 ^ n));
  sh_s : shr_s mrs = bool_decide (m `mod` 2 ^ n ≠ 0 ∧ 2 * (m `mod` 2 ^ n) ≠ 2 ^ n) }.

Lemma shr_1_spec q r s : 0 ≤ q → shr_1 (Build_shr_record q r s) = Build_shr_record (q / 2) (bool_decide (q `mod` 2 = 1)) (r || s).
Proof.
  intros Hq. assert (∀ p, Zpos p~0 / 2 = Zpos p ∧ Zpos p~0 `mod` 2 = 0) as H0.
  { intros p. rewrite Pos2Z.inj_xO, Z.mul_comm. split; [by apply Z.div_mul|by apply Z_mod_mult]. }
  assert (∀ p, Zpos p~1 / 2 = Zpos p ∧ Zpos p~1 `mod` 2 = 1) as H1.
  { intros p. rewrite Pos2Z.inj_xI. split; [symmetry; apply (Z.div_unique _ _ _ 1)|symmetry; apply (Z.mod_unique _ _ (Zpos p))]; lia. }
  destruct q as [|[p|p|]|]; [done| | |done|lia]; unfold shr_1.
  - by destruct (H1 p) as [-> ->].
  - by destruct (H0 p) as [-> ->].
Qed.

Lemma shifted_step m n mrs : 0 ≤ m → 0 ≤ n → shifted m n mrs → shifted m (n + 1) (shr_1 mrs).
Proof.
  intros Hm Hn. destruct mrs as [q r s]. intros [Hq Hr Hs]. cbn [shr_m shr_r shr_s] in *.
  assert (0 < 2 ^ n) as Hp by (by apply Z.pow_pos_nonneg).
  assert (2 ^ (n + 1) = 2 ^ n * 2) as Ep by (by rewrite Z.pow_add_r).
  assert (0 ≤ q) by (subst q; by apply Z.div_pos).
  rewrite shr_1_spec by done.
  pose proof (Z.mod_pos_bound m (2 ^ n) Hp) as Hb.
  assert (m `mod` (2 ^ n * 2) = m `mod` 2 ^ n + 2 ^ n * (q `mod` 2)) as Em by (rewrite Hq; apply Z.rem_mul_r; lia).
  pose proof (Z.mod_pos_bound q 2 ltac:(lia)) as Hb2. split; cbn [shr_m shr_r shr_s]; rewrite Ep.
  - rewrite Hq. rewrite Z.div_div; [done|lia..].
  - rewrite Em. apply bool_decide_ext. assert (q `mod` 2 = 0 ∨ q `mod` 2 = 1) as [E|E] by lia; rewrite E; lia.
  - rewrite Em, Hr, Hs, <-bool_decide_or. apply bool_decide_ext.
    assert (q `mod` 2 = 0 ∨ q `mod` 2 = 1) as [E|E] by lia; rewrite E; lia.
Qed.

Lemma iter_pos_iter {A} (f : A → A) p x : SpecFloat.iter_pos f p x = Nat.iter (Pos.to_nat p) f x.
Proof.
  revert x. induction p as [p IH|p IH|]; intros x; cbn [SpecFloat.iter_pos]; [| |done].
  - rewrite !IH, Pos2Nat.inj_xI, Nat.iter_succ_r, <-Nat.iter_add. f_equal. lia.
  - rewrite !IH, Pos2Nat.inj_xO, <-Nat.iter_add. f_equal. lia.
Qed.

Lemma shr_spec m e n : 0 ≤ m → 0 ≤ n → ∃ mrs, shr (shr_record_of_loc m loc_Exact) e n = (mrs, e + n) ∧ shifted m n mrs.
Proof.
  intros Hm Hn. assert (shifted m 0 (shr_record_of_loc m loc_Exact)) as H0.
  { simpl. split; simpl; rewrite ?Z.div_1_r, ?Z.mod_1_r; done. }
  destruct n as [|p|]; [|clear Hn|lia].
  - rewrite Z.add_0_r. by eexists.
  - unfold shr. eexists. split; [done|]. rewrite iter_pos_iter, <-(positive_nat_Z p).
    induction (Pos.to_nat p) as [|k IH]; [done|]. rewrite Nat.iter_succ, Nat2Z.inj_succ. apply shifted_step; [done|lia|done].
Qed.

Lemma shifted_location m n mrs : 0 ≤ n → shifted m n mrs → loc_of_shr_record mrs = location_of n (m `mod` 2 ^ n).
Proof.
  intros Hn [_ Hr Hs]. destruct mrs as [q r s]; simpl in *. subst r s. unfold location_of.
  assert (0 < 2 ^ n) as Hp by (by apply Z.pow_pos_nonneg). pose proof (Z.mod_pos_bound m (2 ^ n) Hp).
  destruct (Z.compare_spec (2 * (m `mod` 2 ^ n)) (2 ^ n)); repeat case_bool_decide; case_decide; try done; lia.
Qed.

(** The integer part does not depend on what was cut off before. *)
Lemma shr_part m l e n : 0 ≤ m → 0 ≤ n → shr_m (shr (shr_record_of_loc m l) e n).1 = m / 2 ^ n ∧ (shr (shr_record_of_loc m l) e n).2 = e + n.
Proof.
  intros Hm Hn. assert (shr_m (shr_record_of_loc m l) = m) as H0 by (by destruct l as [|[]]).
  destruct n as [|p|]; [by rewrite Z.div_1_r, Z.add_0_r| |lia]. split; [|done]. cbn [shr fst].
  rewrite iter_pos_iter, <-(positive_nat_Z p). clear Hn.
  induction (Pos.to_nat p) as [|k IH]; [by rewrite Z.div_1_r|]. rewrite Nat.iter_succ, Nat2Z.inj_succ, Z.pow_succ_r by lia.
  destruct (Nat.iter k shr_1 _) as [q r s]. cbn [shr_m] in IH. assert (0 < 2 ^ Z.of_nat k) by (apply Z.pow_pos_nonneg; lia).
  rewrite shr_1_spec by (subst q; by apply Z.div_pos). cbn [shr_m]. rewrite IH, Z.mul_comm. rewrite Z.div_div; [done|lia..].
Qed.

(** ** Rounding *)
Lemma nearest_bounds q l : q ≤ round_nearest_even q l ≤ q + 1.
Proof. destruct l as [|[]]; simpl; [lia| |lia|lia]. destruct (Z.even q); lia. Qed.

(** A mantissa of 53 digits or more. *)
Definition wide (n m : Z) : Prop := 2 ^ (52 + n) ≤ m < 2 ^ (53 + n).

Lemma wide_digits n m : 0 ≤ n → wide n m → Zdigits2 m = 53 + n.
Proof.
  intros Hn [Hl Hu]. assert (0 < 2 ^ (52 + n)) by (apply Z.pow_pos_nonneg; lia). destruct m as [|m|m]; [lia| |lia].
  apply digits2_unique; [lia|]. by replace (53 + n - 1) with (52 + n) by lia.
Qed.

Lemma wide_part n m : 0 ≤ n → wide n m → 2 ^ 52 ≤ m / 2 ^ n < 2 ^ 53.
Proof.
  intros Hn [Hl Hu]. rewrite Z.pow_add_r in Hl, Hu by lia. assert (0 < 2 ^ n) by (by apply Z.pow_pos_nonneg).
  split; [apply Z.div_le_lower_bound|apply Z.div_lt_upper_bound]; lia.
Qed.

(** The rounded mantissa of [m], with [n] digits cut off. *)
Definition nearest (n m : Z) (l : location) : Z :=
  let mrs := (shr (shr_record_of_loc m l) 0 n).1 in round_nearest_even (shr_m mrs) (loc_of_shr_record mrs).

Lemma nearest_part n m l : 0 ≤ n → 0 ≤ m → m / 2 ^ n ≤ nearest n m l ≤ m / 2 ^ n + 1.
Proof. intros Hn Hm. unfold nearest. rewrite (proj1 (shr_part m l 0 n Hm Hn)). apply nearest_bounds. Qed.

Lemma shr_fst mrs e e' n : (shr mrs e n).1 = (shr mrs e' n).1.
Proof. by destruct n. Qed.

(** The result in the range of normal numbers. *)
Definition rounded (sx : bool) (r e : Z) : double :=
  if decide (r = 2 ^ 53) then S754_finite sx (2 ^ 52) (e + 1) else S754_finite sx (Z.to_pos r) e.

Lemma round_aux sx m n e l : 0 ≤ n → wide n m → -1074 ≤ e + n ≤ 970 →
  binary_round_aux Double.prec Double.emax sx m e l = rounded sx (nearest n m l) (e + n).
Proof.
  intros Hn Hw He. pose proof (wide_part _ _ Hn Hw) as Hq. assert (0 ≤ m) as Hm by (destruct Hw; pose proof (Z.pow_pos_nonneg 2 (52 + n)); lia).
  pose proof (nearest_part n m l Hn Hm) as Hr. unfold binary_round_aux.
  assert (shr_fexp Double.prec Double.emax m e l = shr (shr_record_of_loc m l) e n) as ->.
  { unfold shr_fexp. rewrite (wide_digits n m) by done. f_equal. unfold fexp, emin, Double.prec, Double.emax. lia. }
  unfold nearest in *. rewrite (shr_fst _ 0 e) in *. destruct (shr_part m l e n Hm Hn) as [_ E2].
  destruct (shr _ e n) as [mrs e'] eqn:E. cbn [fst snd] in *. subst e'.
  set (r := round_nearest_even _ _) in *. unfold rounded. case_decide as Er.
  - rewrite Er. unfold shr_fexp. replace (fexp _ _ _ - _) with 1.
    { change (shr (shr_record_of_loc (2 ^ 53) loc_Exact) (e + n) 1) with (Build_shr_record (Zpos (2 ^ 52)) false false, e + n + 1).
      cbn [shr_m]. rewrite (proj2 (Z.leb_le _ _)); [done|]. unfold Double.prec, Double.emax. lia. }
    change (Zdigits2 (2 ^ 53)) with 54. unfold fexp, emin, Double.prec, Double.emax. lia.
  - assert (wide 0 r) as Hw0 by (unfold wide; lia). unfold shr_fexp. rewrite (wide_digits 0 r) by done.
    replace (fexp _ _ _ - _) with 0 by (unfold fexp, emin, Double.prec, Double.emax; lia). cbn [shr shr_m shr_record_of_loc].
    destruct r as [|r|r]; [lia| |lia]. rewrite (proj2 (Z.leb_le _ _)); [done|]. unfold Double.prec, Double.emax. lia.
Qed.

(** ** Integers as doubles *)

(** A normalised positive double. *)
Inductive normal : double → Z → Z → Prop :=
  | is_normal m e : 2 ^ 52 ≤ Zpos m < 2 ^ 53 → normal (S754_finite false m e) (Zpos m) e.

(** The order of normalised doubles. *)
Definition below (m e m' e' : Z) : Prop := e < e' ∨ e = e' ∧ m ≤ m'.

(** An integer that is not rounded. *)
Lemma of_Z_small z : 0 < z < 2 ^ 53 → ∃ n, 0 ≤ n ≤ 52 ∧ 2 ^ 52 ≤ z * 2 ^ n < 2 ^ 53 ∧ Double.of_Z z = S754_finite false (Z.to_pos (z * 2 ^ n)) (- n).
Proof.
  intros [Hz1 Hz2]. destruct z as [|p|]; [lia| |lia]. pose proof (digits2_spec p) as [Hl Hu]. set (d := Zpos (digits2_pos p)) in *.
  assert (d - 1 < 53) by (apply (Z.pow_lt_mono_r_iff 2); lia). assert (1 ≤ d) by lia.
  assert (2 ^ d = 2 * 2 ^ (d - 1)) as Ed by (rewrite <-Z.pow_succ_r by lia; f_equal; lia).
  assert (0 < 2 ^ (d - 1)) by (apply Z.pow_pos_nonneg; lia).
  assert (2 ^ 52 = 2 ^ (d - 1) * 2 ^ (53 - d)) as E52 by (rewrite <-Z.pow_add_r by lia; f_equal; lia).
  assert (0 < 2 ^ (53 - d)) by (apply Z.pow_pos_nonneg; lia).
  exists (53 - d). assert (2 ^ 52 ≤ Zpos p * 2 ^ (53 - d) < 2 ^ 53) as Hw by (split; [|change (2 ^ 53) with (2 * 2 ^ 52)]; nia).
  split_and!; [lia|lia|lia|lia|]. unfold Double.of_Z, binary_normalize, binary_round.
  replace (shl_align _ _ _) with (Z.to_pos (Zpos p * 2 ^ (53 - d)), d - 53).
  - rewrite Z2Pos.id by lia. rewrite (round_aux _ _ 0) by (unfold wide; lia). unfold nearest. cbn [shr fst shr_record_of_loc shr_m loc_of_shr_record round_nearest_even].
    unfold rounded. rewrite decide_False by lia. f_equal. lia.
  - unfold shl_align. fold d. replace (fexp _ _ _ - 0) with (d - 53) by (unfold fexp, emin, Double.prec, Double.emax; lia).
    replace (fexp _ _ _) with (d - 53) by (unfold fexp, emin, Double.prec, Double.emax; lia).
    destruct (d - 53) as [|k|k] eqn:Ek; [|lia|].
    + replace (53 - d) with 0 by lia. by rewrite Z.mul_1_r.
    + f_equal. apply Pos2Z.inj. rewrite Z2Pos.id by lia. fold (shift_pos k p). rewrite shift_pos_correct.
      replace (53 - d) with (Zpos k) by lia. change (2 ^ Zpos k) with (Z.pow_pos 2 k). lia.
Qed.

(** An integer with more than 53 digits. *)
Lemma of_Z_large z : 2 ^ 53 ≤ z < 2 ^ 64 → ∃ n, 1 ≤ n ≤ 11 ∧ wide n z ∧ Double.of_Z z = rounded false (nearest n z loc_Exact) n.
Proof.
  intros [Hz1 Hz2]. destruct z as [|p|]; [lia| |lia]. pose proof (digits2_spec p) as [Hl Hu]. set (d := Zpos (digits2_pos p)) in *.
  assert (d - 1 < 64) by (apply (Z.pow_lt_mono_r_iff 2); lia). assert (53 < d) by (apply (Z.pow_lt_mono_r_iff 2); lia).
  assert (wide (d - 53) (Zpos p)) as Hw.
  { unfold wide. replace (52 + (d - 53)) with (d - 1) by lia. by replace (53 + (d - 53)) with d by lia. }
  exists (d - 53). split_and!; [lia|lia|done|]. unfold Double.of_Z, binary_normalize, binary_round.
  replace (shl_align _ _ _) with (p, 0).
  - rewrite (round_aux _ _ (d - 53)) by (done || lia). done.
  - unfold shl_align. fold d. replace (fexp _ _ _ - 0) with (d - 53) by (unfold fexp, emin, Double.prec, Double.emax; lia).
    destruct (d - 53) as [|k|k] eqn:Ek; [done..|lia].
Qed.

Lemma nearest_exact n m : 0 ≤ n → 0 ≤ m → nearest n m loc_Exact = round_nearest_even (m / 2 ^ n) (location_of n (m `mod` 2 ^ n)).
Proof.
  intros Hn Hm. unfold nearest. destruct (shr_spec m 0 n Hm Hn) as (mrs & -> & Hs). cbn [fst].
  by rewrite (shifted_location m n), (sh_m _ _ _ Hs).
Qed.

Lemma nearest_mono n m m' : 0 ≤ n → 0 ≤ m ≤ m' → nearest n m loc_Exact ≤ nearest n m' loc_Exact.
Proof.
  intros Hn [Hm Hle]. assert (0 < 2 ^ n) as Hp by (by apply Z.pow_pos_nonneg).
  pose proof (Z.div_le_mono m m' (2 ^ n) Hp Hle) as Hq.
  destruct (decide (m / 2 ^ n = m' / 2 ^ n)) as [E|Hne].
  - rewrite !nearest_exact, E by lia. pose proof (Z.div_mod m (2 ^ n)). pose proof (Z.div_mod m' (2 ^ n)).
    assert (m `mod` 2 ^ n ≤ m' `mod` 2 ^ n) as Hrem by lia. pose proof (Z.mod_pos_bound m (2 ^ n) Hp).
    set (q := m' / 2 ^ n). unfold location_of. repeat case_decide; [lia|apply nearest_bounds|lia|].
    destruct (Z.compare_spec (2 * (m `mod` 2 ^ n)) (2 ^ n)), (Z.compare_spec (2 * (m' `mod` 2 ^ n)) (2 ^ n)); simpl;
      destruct (Z.even q); lia.
  - pose proof (nearest_part n m loc_Exact Hn Hm). pose proof (nearest_part n m' loc_Exact Hn ltac:(lia)). lia.
Qed.

Lemma rounded_normal r e : 2 ^ 52 ≤ r ≤ 2 ^ 53 → ∃ m e', normal (rounded false r e) m e' ∧ (r = 2 ^ 53 ∧ m = 2 ^ 52 ∧ e' = e + 1 ∨ r < 2 ^ 53 ∧ m = r ∧ e' = e).
Proof.
  intros Hr. unfold rounded. case_decide.
  - exists (2 ^ 52), (e + 1). split; [|by left]. apply (is_normal (2 ^ 52)). lia.
  - exists r, e. split; [|right; lia]. rewrite <-(Z2Pos.id r) at 2 by lia. constructor. rewrite Z2Pos.id by lia. lia.
Qed.

(** Rounding an integer is monotone. *)
Lemma of_Z_mono z z' : 0 < z ≤ z' → z' < 2 ^ 64 → ∃ m e m' e', normal (Double.of_Z z) m e ∧ normal (Double.of_Z z') m' e' ∧
  below m e m' e' ∧ -52 ≤ e ∧ e' ≤ 12.
Proof.
  intros Hz Hz'. destruct (decide (z' < 2 ^ 53)) as [Hs'|Hs'].
  - destruct (of_Z_small z) as (n & Hn & Hw & ->); [lia|]. destruct (of_Z_small z') as (n' & Hn' & Hw' & ->); [lia|].
    exists (z * 2 ^ n), (- n), (z' * 2 ^ n'), (- n'). split_and!; [| | |lia|lia].
    + rewrite <-(Z2Pos.id (z * 2 ^ n)) at 2 by lia. constructor. rewrite Z2Pos.id; lia.
    + rewrite <-(Z2Pos.id (z' * 2 ^ n')) at 2 by lia. constructor. rewrite Z2Pos.id; lia.
    + unfold below. destruct (decide (n' < n)) as [?|Hge]; [lia|]. right.
      assert (2 ^ n' = 2 ^ n * 2 ^ (n' - n)) as Ep by (rewrite <-Z.pow_add_r by lia; f_equal; lia).
      assert (0 < 2 ^ n) by (apply Z.pow_pos_nonneg; lia).
      destruct (decide (n' = n)) as [->|]; [split; [done|nia]|]. exfalso.
      assert (2 ^ (n' - n) = 2 * 2 ^ (n' - n - 1)) by (rewrite <-Z.pow_succ_r by lia; f_equal; lia).
      assert (0 < 2 ^ (n' - n - 1)) by (apply Z.pow_pos_nonneg; lia). change (2 ^ 53) with (2 * 2 ^ 52) in *.
      assert (z * 2 ^ n ≤ z' * 2 ^ n) by nia. assert (2 * (z' * 2 ^ n) ≤ z' * 2 ^ n') by nia. lia.
  - destruct (of_Z_large z') as (n' & Hn' & Hw' & ->); [lia|]. pose proof (wide_part n' z' ltac:(lia) Hw').
    pose proof (nearest_part n' z' loc_Exact ltac:(lia) ltac:(lia)).
    destruct (rounded_normal (nearest n' z' loc_Exact) n') as (m' & e' & Hm' & Hc'); [lia|].
    destruct (decide (z < 2 ^ 53)) as [Hs|Hs].
    + destruct (of_Z_small z) as (n & Hn & Hw & ->); [lia|]. exists (z * 2 ^ n), (- n), m', e'. split_and!; [|done| |lia|lia].
      * rewrite <-(Z2Pos.id (z * 2 ^ n)) at 2 by lia. constructor. rewrite Z2Pos.id; lia.
      * left. lia.
    + destruct (of_Z_large z) as (n & Hn & Hw & ->); [lia|]. pose proof (wide_part n z ltac:(lia) Hw).
      pose proof (nearest_part n z loc_Exact ltac:(lia) ltac:(lia)).
      destruct (rounded_normal (nearest n z loc_Exact) n) as (m & e & Hm & Hc); [lia|].
      exists m, e, m', e'. split_and!; [done|done| |lia|lia]. unfold below.
      assert (52 + n < 53 + n') by (apply (Z.pow_lt_mono_r_iff 2); unfold wide in *; lia).
      destruct (decide (n = n')) as [->|]; [pose proof (nearest_mono n' z z' ltac:(lia) ltac:(lia))|]; lia.
Qed.

(** ** The quotient *)
Lemma normal_digits m : 2 ^ 52 ≤ Zpos m < 2 ^ 53 → Zdigits2 (Zpos m) = 53.
Proof. intros Hm. by apply (wide_digits 0). Qed.

(** What [SFdiv] rounds: the integer part of the quotient, with 53 more digits. *)
Lemma div_normal x y m1 e1 m2 e2 : normal x m1 e1 → normal y m2 e2 → -1000 ≤ e1 - e2 ≤ 0 →
  ∃ l, Double.div x y = binary_round_aux Double.prec Double.emax false (m1 * 2 ^ 53 / m2) (e1 - e2 - 53) l ∧
    (m1 = m2 → l = loc_Exact).
Proof.
  intros [p1 f1 Hm1] [p2 f2 Hm2] He. unfold Double.div, SFdiv, SFdiv_core_binary. rewrite !normal_digits by done.
  replace (Z.min _ _) with (f1 - f2 - 53) by (unfold fexp, emin, Double.prec, Double.emax; lia).
  replace (f1 - f2 - (f1 - f2 - 53)) with 53 by lia. rewrite Z.shiftl_mul_pow2 by done.
  unfold Z.div. pose proof (Z_div_mod (Zpos p1 * 2 ^ 53) (Zpos p2) ltac:(lia)) as Hd.
  destruct (Z.div_eucl _ _) as [q r]. destruct Hd as [Hq Hr]. eexists. split; [done|]. intros E. rewrite E in Hq.
  assert (r = 0) as ->. { assert (r = Zpos p2 * (2 ^ 53 - q)) by lia. assert (2 ^ 53 - q < 1 ∧ -1 < 2 ^ 53 - q) by nia. nia. }
  unfold new_location, new_location_even, new_location_odd. by destruct (Z.even _).
Qed.

(** A double that is not above one. *)
Lemma rounded_le_one r e : 2 ^ 52 ≤ r ≤ 2 ^ 53 → e ≤ -53 ∨ e = -52 ∧ r = 2 ^ 52 → Double.ltb Double.c1 (rounded false r e) = false.
Proof.
  intros Hr He. change Double.c1 with (S754_finite false (2 ^ 52) (-52)). unfold Double.ltb, rounded.
  assert (∀ m e', e' < -52 ∨ e' = -52 ∧ Zpos m = 2 ^ 52 → SFltb (S754_finite false (2 ^ 52) (-52)) (S754_finite false m e') = false) as Hle.
  { intros m e' [Hlt|[-> Em]]; unfold SFltb, SFcompare.
    - by destruct (Z.compare_spec (-52) e'); try lia.
    - by injection Em as ->. }
  case_decide; apply Hle; [lia|]. rewrite Z2Pos.id by lia. lia.
Qed.

Lemma div_below x y m1 e1 m2 e2 : normal x m1 e1 → normal y m2 e2 → below m1 e1 m2 e2 → -1000 ≤ e1 - e2 →
  Double.ltb Double.c1 (Double.div x y) = false.
Proof.
  intros Hx Hy Hb He. destruct (div_normal x y m1 e1 m2 e2 Hx Hy) as (l & -> & Hl); [destruct Hb; lia|].
  assert (2 ^ 52 ≤ m1 < 2 ^ 53 ∧ 2 ^ 52 ≤ m2 < 2 ^ 53) as [Hm1 Hm2] by (by destruct Hx, Hy). clear Hx Hy.
  assert (2 ^ 52 ≤ m1 * 2 ^ 53 / m2) as Hlow by (apply Z.div_le_lower_bound; lia).
  assert (m1 * 2 ^ 53 / m2 < 2 ^ 54) as Hup by (apply Z.div_lt_upper_bound; lia).
  set (q := m1 * 2 ^ 53 / m2) in *. destruct (decide (q < 2 ^ 53)) as [Hq|Hq].
  - rewrite (round_aux _ _ 0) by (unfold wide; destruct Hb; lia). pose proof (nearest_part 0 q l ltac:(done) ltac:(lia)) as Hr.
    rewrite Z.div_1_r in Hr. apply rounded_le_one; [lia|]. destruct Hb; lia.
  - assert (m1 < m2 ∨ m1 = m2 ∨ m2 < m1) as [Hlt|[Heq|Hlt]] by lia.
    { exfalso. apply Hq. apply Z.div_lt_upper_bound; lia. }
    + assert (q = 2 ^ 53) as Eq by (subst q m1; rewrite Z.mul_comm; apply Z.div_mul; lia). rewrite (Hl Heq), Eq.
      rewrite (round_aux _ _ 1) by (unfold wide; destruct Hb; lia). change (nearest 1 (2 ^ 53) loc_Exact) with (2 ^ 52).
      apply rounded_le_one; [lia|]. destruct Hb; lia.
    + rewrite (round_aux _ _ 1) by (unfold wide; destruct Hb; lia).
      assert (2 ^ 52 ≤ q / 2 ^ 1 < 2 ^ 53) by (apply wide_part; unfold wide; lia).
      pose proof (nearest_part 1 q l ltac:(done) ltac:(lia)). apply rounded_le_one; destruct Hb; lia.
Qed.

(** The quotient of an integer by one that is not below it is not above one. *)
Lemma ratio_le_one r t : 0 ≤ r ≤ t → 0 < t < 2 ^ 64 → Double.ltb Double.c1 (Double.div (Double.of_Z r) (Double.of_Z t)) = false.
Proof.
  intros Hr Ht. destruct (decide (r = 0)) as [->|].
  - destruct (of_Z_mono t t) as (m & e & _ & _ & Hn & _); [lia..|]. by destruct Hn.
  - destruct (of_Z_mono r t) as (m1 & e1 & m2 & e2 & Hx & Hy & Hb & ? & ?); [lia..|].
    eapply div_below; [done..|lia].
Qed.

(** ** Products *)

(** A rounded number with an exponent that is not positive, truncated. *)
Lemma rounded_unsigned r e : 2 ^ 52 ≤ r ≤ 2 ^ 53 → e ≤ 0 → ∃ z, Double.to_unsigned 64 (rounded false r e) = Ok z.
Proof.
  intros Hr He. assert (∀ p f, Zpos p < 2 ^ 53 → f ≤ 1 → ∃ z, Double.to_unsigned 64 (S754_finite false p f) = Ok z) as Hz.
  { intros p f Hp Hf. unfold Double.to_unsigned, Double.trunc. rewrite decide_True; [by eexists|]. case_decide as Hc.
    - assert (f = 0 ∨ f = 1) as [->| ->] by lia; lia.
    - assert (0 < 2 ^ (- f)) by (apply Z.pow_pos_nonneg; lia). split; [apply Z.div_pos; lia|].
      apply Z.div_lt_upper_bound; [done|]. nia. }
  unfold rounded. case_decide; apply Hz; [lia|lia|rewrite Z2Pos.id; lia|lia].
Qed.

(** A fraction of an integer that is not rounded: the product is a [uint64_t]. *)
Lemma fraction_unsigned x y m1 e1 m2 e2 : normal x m1 e1 → normal y m2 e2 → -900 ≤ e1 ≤ -53 → -52 ≤ e2 ≤ 0 →
  ∃ z, Double.to_unsigned 64 (Double.mul x y) = Ok z.
Proof.
  intros [p1 f1 Hm1] [p2 f2 Hm2] H1 H2. unfold Double.mul, SFmul. cbn [xorb]. rewrite Pos2Z.inj_mul.
  assert (2 ^ 104 ≤ Zpos p1 * Zpos p2 < 2 ^ 106) as Hm by nia.
  destruct (decide (Zpos p1 * Zpos p2 < 2 ^ 105)) as [Hlt|Hge].
  - assert (wide 52 (Zpos p1 * Zpos p2)) as Hw by (unfold wide; lia). rewrite (round_aux _ _ 52) by (done || lia).
    apply wide_part in Hw as Hp; [|lia]. pose proof (nearest_part 52 (Zpos p1 * Zpos p2) loc_Exact ltac:(done) ltac:(lia)).
    apply rounded_unsigned; lia.
  - assert (wide 53 (Zpos p1 * Zpos p2)) as Hw by (unfold wide; lia). rewrite (round_aux _ _ 53) by (done || lia).
    apply wide_part in Hw as Hp; [|lia]. pose proof (nearest_part 53 (Zpos p1 * Zpos p2) loc_Exact ltac:(done) ltac:(lia)).
    apply rounded_unsigned; lia.
Qed.

Lemma fraction_of_integer x m e n : normal x m e → -900 ≤ e ≤ -53 → 0 < n < 2 ^ 53 →
  ∃ z, Double.to_unsigned 64 (Double.mul x (Double.of_Z n)) = Ok z.
Proof.
  intros Hx He Hn. destruct (of_Z_small n Hn) as (k & Hk & Hw & ->).
  assert (normal (S754_finite false (Z.to_pos (n * 2 ^ k)) (- k)) (n * 2 ^ k) (- k)) as Hy.
  { rewrite <-(Z2Pos.id (n * 2 ^ k)) at 2 by lia. constructor. rewrite Z2Pos.id; lia. }
  eapply fraction_unsigned; [exact Hx|exact Hy|lia..].
Qed.
