(* ===== verification/Bloom.v ===== *)
(** * Bloom filters: struct Bloom of include/mini_lsm/table.h, src/table/bloom.cpp

    [build_from_key_hashes] sets bits, [may_contain] tests them; the property
    that matters to a reader is that a key that was added is never denied.
    The sizing of the filter is floating-point arithmetic ([Double]). *)
From Stdlib Require Import SpecFloat.
From S2P Require Import Prelude Endian Double.

#[local] Open Scope Z_scope.

(** util::Fingerprint32 of farmhash. *)
Class Farmhash := Fingerprint32 : bytes → Z.
Definition farmhash_fingerprint32 `{!Farmhash} (key : bytes) : Z := u32 (Fingerprint32 key).

(** ** Definitions *)
Module Bloom.
Record t := mk { filter : bytes; k : byte }.

Definition bloom_bits_per_key `{!Libm} (entries : Z) (false_positive_rate : double) : res Z :=
  let size := Double.div
    (Double.opp (Double.mul (Double.of_Z entries) (log false_positive_rate)))
    (Double.mul Double.ln2 Double.ln2) in
  let locs := Double.ceil (Double.div size (Double.of_Z entries)) in
  Double.to_unsigned 64 locs.

Definition delta_of (h : Z) : Z := Z.lor (u32 (Z.shiftl h 15)) (Z.shiftr h 17).

(** [filter[bit_pos / 8] |= 1 << (bit_pos % 8)] *)
Definition set_bit (filter : bytes) (bit_pos : Z) : res bytes :=
  b ← byte_at filter (Z.to_nat (bit_pos / 8));
  set_byte filter (Z.to_nat (bit_pos / 8)) (u8 (Z.lor b (Z.shiftl 1 (bit_pos mod 8)))).

(** [a % b] on unsigned integers. *)
Definition umod (a b : Z) : res Z := if decide (b = 0) then Err (UB "division by zero") else Ok (a mod b).

(** The inner loop, [k] rounds from the running hash [h]. *)
Fixpoint set_bits (filter : bytes) (nbits h delta : Z) (k : nat) : res bytes :=
  match k with
  | O => mret filter
  | S k =>
      bit_pos ← umod h nbits;
      filter ← set_bit filter bit_pos; set_bits filter nbits (u32 (h + delta)) delta k
  end.

Fixpoint set_hashes (filter : bytes) (nbits : Z) (k : nat) (hashes : list Z) : res bytes :=
  match hashes with
  | [] => mret filter
  | h :: hashes =>
      filter ← set_bits filter nbits h (delta_of h) k;
      set_hashes filter nbits k hashes
  end.

Definition build_from_key_hashes (hashes : list Z) (bits_per_key : Z) : res t :=
  k ← Double.to_unsigned 32 (Double.mul (Double.of_Z bits_per_key) Double.c069);
  let k := Z.min (Z.max k 1) 30 in
  let nbits := Z.max (u64 (Z.of_nat (length hashes) * bits_per_key)) 64 in
  let nbytes := u64 (nbits + 7) / 8 in
  let nbits := nbytes * 8 in
  filter ← set_hashes (replicate (Z.to_nat nbytes) x00) nbits (Z.to_nat k) hashes;
  mret (mk filter (u8 k)).

Definition test_bit (filter : bytes) (bit_pos : Z) : res bool :=
  b ← byte_at filter (Z.to_nat (bit_pos / 8));
  mret (bool_decide (Z.land b (Z.shiftl 1 (bit_pos mod 8)) ≠ 0)).

Fixpoint test_bits (filter : bytes) (nbits h delta : Z) (k : nat) : res bool :=
  match k with
  | O => mret true
  | S k =>
      bit_pos ← umod h nbits;
      b ← test_bit filter bit_pos;
      if b : bool then test_bits filter nbits (u32 (h + delta)) delta k else mret false
  end.

Definition may_contain (b : t) (h : Z) : res bool :=
  if decide (30 < byte_to_Z (k b)) then mret true
  else
    let nbits := Z.of_nat (length (filter b)) * 8 in
    if decide (nbits = 0) then mret true
    else test_bits (filter b) nbits h (delta_of h) (Z.to_nat (byte_to_Z (k b))).

Section checksum.
Context `{!Zlib}.

Definition encode (b : t) (buf : bytes) : bytes :=
  let buf' := buf ++ filter b in
  let buf' := buf' ++ [k b] in
  let checksum := crc32_hash (drop (length buf) buf') in
  put_u32_be buf' checksum.

Definition decode (raw : bytes) : res t :=
  let len := length raw in
  cassert (bool_decide (5 ≤ len)%nat) "len >= 5";;
  expected_checksum ← read_u32_be raw (len - 4);
  let actual_checksum := crc32_hash (take (len - 4) raw) in
  cassert (bool_decide (expected_checksum = actual_checksum)) "expected_checksum == actual_checksum";;
  k ← deref (raw !! (len - 5)%nat) "raw[len - 5]";
  mret (mk (take (len - 5) raw) k).
End checksum.
End Bloom.

(** ** Bits of a byte string *)
Section bits.
Implicit Types (f : bytes) (p q : Z).

Definition bit f p : bool :=
  match f !! Z.to_nat (p / 8) with
  | Some b => Z.testbit (byte_to_Z b) (p mod 8)
  | None => false
  end.

Definition in_filter f p : Prop := 0 ≤ p < 8 * Z.of_nat (length f).

Lemma in_filter_lookup f p : in_filter f p → ∃ b, f !! Z.to_nat (p / 8) = Some b.
Proof.
  intros [? ?]. apply lookup_lt_is_Some_2.
  pose proof (Z.div_lt_upper_bound p 8 (Z.of_nat (length f)) ltac:(lia) ltac:(lia)).
  pose proof (Z.div_pos p 8 ltac:(lia) ltac:(lia)). lia.
Qed.

Lemma testbit_u8 z i : 0 ≤ i < 8 → Z.testbit (byte_to_Z (u8 z)) i = Z.testbit z i.
Proof.
  intros. rewrite byte_to_Z_u8. change 256 with (2 ^ 8). rewrite Z.mod_pow2_bits_low; [done|lia].
Qed.

Lemma testbit_one i j : 0 ≤ i → 0 ≤ j → Z.testbit (Z.shiftl 1 i) j = bool_decide (i = j).
Proof.
  intros. rewrite Z.shiftl_1_l, Z.pow2_bits_eqb by lia. symmetry.
  destruct (Z.eqb_spec i j); [by rewrite bool_decide_true|by rewrite bool_decide_false].
Qed.

(** Positions that share byte and bit number are equal. *)
Lemma position_eq p q : 0 ≤ p → 0 ≤ q →
  Z.to_nat (p / 8) = Z.to_nat (q / 8) → p mod 8 = q mod 8 → p = q.
Proof.
  intros Hp Hq Hd Hm. pose proof (Z.div_pos p 8). pose proof (Z.div_pos q 8).
  assert (p / 8 = q / 8) as E by lia.
  rewrite (Z.div_mod p 8), (Z.div_mod q 8), E, Hm by lia. done.
Qed.

Lemma set_bit_spec f p : in_filter f p → ∃ f', Bloom.set_bit f p = Ok f' ∧
  length f' = length f ∧ ∀ q, 0 ≤ q → bit f' q = bit f q || bool_decide (p = q).
Proof.
  intros Hp. destruct (in_filter_lookup _ _ Hp) as [b Hb]. destruct Hp as [Hp0 Hp1].
  pose proof (lookup_lt_Some _ _ _ Hb) as Hlt.
  unfold Bloom.set_bit. rewrite (byte_at_lookup _ _ _ Hb), (bind_ok _ (byte_to_Z b)) by done.
  unfold set_byte. rewrite decide_True by done. eexists. split; [done|].
  split; [by rewrite length_insert|]. intros q Hq. unfold bit.
  destruct (decide (Z.to_nat (p / 8) = Z.to_nat (q / 8))) as [E|E].
  - rewrite <-E, list_lookup_insert_eq, Hb by done.
    pose proof (Z.mod_pos_bound q 8). pose proof (Z.mod_pos_bound p 8).
    rewrite testbit_u8, Z.lor_spec, testbit_one by lia. f_equal.
    apply bool_decide_ext. split; [by apply position_eq|by intros ->].
  - rewrite list_lookup_insert_ne, bool_decide_false by congruence. by rewrite orb_false_r.
Qed.

Lemma test_bit_spec f p : in_filter f p → Bloom.test_bit f p = Ok (bit f p).
Proof.
  intros Hp. destruct (in_filter_lookup _ _ Hp) as [b Hb].
  unfold Bloom.test_bit, bit. rewrite (byte_at_lookup _ _ _ Hb), Hb. cbn. f_equal.
  pose proof (Z.mod_pos_bound p 8). set (i := p mod 8) in *.
  destruct (Z.testbit (byte_to_Z b) i) eqn:E; [apply bool_decide_true|apply bool_decide_false]; intros H0.
  - apply (f_equal (λ z, Z.testbit z i)) in H0.
    rewrite Z.land_spec, testbit_one, bool_decide_true, E, Z.bits_0 in H0 by lia. done.
  - apply H0, Z.bits_inj'. intros j Hj. rewrite Z.land_spec, testbit_one, Z.bits_0 by lia.
    destruct (decide (i = j)) as [<-|]; [by rewrite E|]. rewrite bool_decide_false by done. apply andb_false_r.
Qed.
End bits.

(** ** No false negatives *)
Module BloomSpec.
Import Bloom.

Lemma umod_ok a b : b ≠ 0 → umod a b = Ok (a mod b).
Proof. intros. unfold umod. by rewrite decide_False. Qed.

(** The [k] positions probed from the running hash [h]. *)
Fixpoint positions (nbits h delta : Z) (k : nat) : list Z :=
  match k with
  | O => []
  | S k => h mod nbits :: positions nbits (u32 (h + delta)) delta k
  end.

Lemma positions_range nbits h delta k : 0 < nbits →
  Forall (λ p, 0 ≤ p < nbits) (positions nbits h delta k).
Proof.
  intros Hn. revert h; induction k as [|k IH]; intros h; simpl; constructor; [|done].
  by apply Z.mod_pos_bound.
Qed.

(** [f'] has the bits of [f] and those at [ps]. *)
Definition adds (f f' : bytes) (ps : list Z) : Prop :=
  length f' = length f ∧ ∀ q, 0 ≤ q → bit f' q = bit f q || bool_decide (q ∈ ps).

Lemma adds_nil f : adds f f [].
Proof. split; [done|]. intros q _. rewrite bool_decide_false, orb_false_r; [done|apply not_elem_of_nil]. Qed.

Lemma adds_trans f1 f2 f3 ps1 ps2 : adds f1 f2 ps1 → adds f2 f3 ps2 → adds f1 f3 (ps1 ++ ps2).
Proof.
  intros [L1 H1] [L2 H2]. split; [congruence|]. intros q Hq.
  rewrite H2, H1, <-orb_assoc by done. f_equal.
  rewrite <-bool_decide_or. apply bool_decide_ext. by rewrite elem_of_app.
Qed.

Lemma set_bits_spec nbits delta k f h : 0 < nbits → nbits = 8 * Z.of_nat (length f) →
  set_bits f nbits h delta k ⇓ λ f', adds f f' (positions nbits h delta k).
Proof.
  intros Hn. revert f h; induction k as [|k IH]; intros f h Hf; simpl.
  { apply returns_ret, adds_nil. }
  rewrite umod_ok by lia.
  destruct (set_bit_spec f (h mod nbits)) as (f1 & Hset & Hlen & Hbit).
  { unfold in_filter. rewrite <-Hf. by apply Z.mod_pos_bound. }
  cbn -[u32]. rewrite Hset, (bind_ok _ f1) by done.
  eapply returns_mono; [apply IH; congruence|]. intros f2 Hadd.
  apply (adds_trans f f1 f2 [h mod nbits]); [|done]. split; [done|].
  intros q Hq. rewrite Hbit by done. f_equal. apply bool_decide_ext. rewrite list_elem_of_singleton.
  split; by intros ->.
Qed.

Lemma set_hashes_spec nbits k hashes f : 0 < nbits → nbits = 8 * Z.of_nat (length f) →
  set_hashes f nbits k hashes ⇓
    λ f', adds f f' (mjoin ((λ h, positions nbits h (delta_of h) k) <$> hashes)).
Proof.
  intros Hn. revert f; induction hashes as [|h hashes IH]; intros f Hf; simpl.
  { apply returns_ret, adds_nil. }
  eapply returns_bind; [by apply set_bits_spec|]. intros f1 Hadd.
  eapply returns_mono; [apply IH; destruct Hadd; congruence|]. intros f2 Hadd2.
  exact (adds_trans _ _ _ _ _ Hadd Hadd2).
Qed.

Lemma test_bits_spec nbits delta k f h : 0 < nbits → nbits = 8 * Z.of_nat (length f) →
  test_bits f nbits h delta k = Ok (bool_decide (Forall (λ p, bit f p = true) (positions nbits h delta k))).
Proof.
  intros Hn Hf. revert h; induction k as [|k IH]; intros h; simpl; [done|].
  rewrite umod_ok by lia. cbn -[u32]. rewrite test_bit_spec by (unfold in_filter; rewrite <-Hf; by apply Z.mod_pos_bound).
  rewrite (bind_ok _ (bit f (h mod nbits))) by done.
  destruct (bit f (h mod nbits)) eqn:E.
  - rewrite IH. f_equal. apply bool_decide_ext. rewrite Forall_cons. tauto.
  - rewrite bool_decide_false; [done|]. rewrite Forall_cons. intros [? _]. congruence.
Qed.

(** Membership in the set the filter represents. *)
Definition represents (b : t) (hashes : list Z) : Prop :=
  ∀ h, h ∈ hashes → may_contain b h = Ok true.

(** [may_contain] reads inside the filter whatever the filter and the hash. *)
Lemma may_contain_total b h : ∃ r, may_contain b h = Ok r.
Proof.
  unfold may_contain. repeat case_decide; [by eexists..|].
  rewrite test_bits_spec by lia. by eexists.
Qed.

(** The filter for [hashes] is built as soon as the number of hash functions
    is defined and the sizes do not wrap around, and it denies none of them. *)
Definition sizing_ok (n bpk : Z) : Prop :=
  0 ≤ n * bpk < 2 ^ 63 ∧
  ∃ k, Double.to_unsigned 32 (Double.mul (Double.of_Z bpk) Double.c069) = Ok k.

Lemma bloom_build_spec hashes bpk : sizing_ok (Z.of_nat (length hashes)) bpk →
  build_from_key_hashes hashes bpk ⇓ λ b, represents b hashes ∧
    8 * Z.of_nat (length (filter b)) ≤ Z.of_nat (length hashes) * bpk + 71.
Proof.
  intros [Hbpk [k0 Hk]]. unfold build_from_key_hashes. rewrite Hk, (bind_ok _ k0) by done. cbv zeta.
  rewrite (u64_small (_ * bpk)) by lia. set (kk := Z.min (Z.max k0 1) 30).
  set (n0 := Z.max _ 64). rewrite (u64_small (n0 + 7)) by lia. set (nbytes := (n0 + 7) / 8).
  assert (8 ≤ nbytes) by (apply Z.div_le_lower_bound; lia).
  set (f0 := replicate (Z.to_nat nbytes) x00).
  assert (nbytes * 8 = 8 * Z.of_nat (length f0)) as Hlen.
  { unfold f0. rewrite length_replicate. lia. }
  eapply returns_bind; [apply set_hashes_spec; [lia|exact Hlen]|].
  intros f [Hl Hbit]. apply returns_ret. split; cycle 1.
  { cbn [filter]. rewrite Hl. pose proof (Z.mul_div_le (n0 + 7) 8). lia. }
  intros h Hh.
  unfold may_contain. simpl. rewrite byte_to_Z_u8, Z.mod_small by lia.
  rewrite decide_False by lia. rewrite decide_False by lia.
  rewrite test_bits_spec by lia. f_equal. apply bool_decide_true.
  rewrite (Z.mul_comm _ 8), Hl, <-Hlen. apply Forall_forall. intros p Hp.
  pose proof (positions_range (nbytes * 8) h (delta_of h) (Z.to_nat kk) ltac:(lia)) as Hr.
  rewrite Forall_forall in Hr. apply Hr in Hp as Hp0.
  rewrite Hbit by lia. apply orb_true_iff. right. apply bool_decide_true.
  apply list_elem_of_join. eexists. split; [exact Hp|].
  apply list_elem_of_fmap. by exists h.
Qed.

(** The encoding is undone by [decode]; what precedes it in the file is not
    part of the checksum. *)
Lemma decode_encode_bloom `{!Zlib} (b : t) (buf : bytes) :
  ∃ raw, encode b buf = buf ++ raw ∧ decode raw = Ok b ∧
    length raw = (length (filter b) + 5)%nat.
Proof.
  unfold encode. rewrite <-(assoc_L (++)), drop_app_length, put_u32_be_eq, <-(assoc_L (++)).
  eexists. split; [done|]. rewrite !length_app, length_be_bytes. simpl. split; [|lia].
  set (body := filter b ++ [k b]).
  assert (length body = length (filter b) + 1)%nat as Hbody by (unfold body; rewrite length_app; done).
  unfold decode. rewrite length_app, length_be_bytes.
  rewrite cassert_bind by (apply bool_decide_eq_true; lia).
  replace (length body + 4 - 4)%nat with (length body) by lia.
  rewrite (bind_ok _ (crc32_hash body)); cycle 1.
  { rewrite <-(app_nil_r (be_bytes _ _)). rewrite read_u32_be_mid by done. by rewrite crc32_hash_u32. }
  cbv zeta. rewrite take_app_length, cassert_bind by (by apply bool_decide_eq_true).
  replace (length body + 4 - 5)%nat with (length (filter b)) by lia.
  unfold body. rewrite <-(assoc_L (++)), take_app_length.
  rewrite lookup_app_r, Nat.sub_diag by lia. by destruct b.
Qed.
End BloomSpec.

(** ** Properties *)

(** The number of hash functions is defined for every sensible size. *)
Definition k_defined (bpk : Z) : bool :=
  match Double.to_unsigned 32 (Double.mul (Double.of_Z bpk) Double.c069) with Ok _ => true | Err _ => false end.

Lemma k_defined_upto : forallb k_defined (seqZ 0 1001) = true.
Proof. vm_compute. reflexivity. Qed.

Lemma sizing_ok_upto n bpk : 0 ≤ n < 2 ^ 50 → 0 ≤ bpk ≤ 1000 → BloomSpec.sizing_ok n bpk.
Proof.
  intros Hn Hb. split; [nia|].
  pose proof (proj1 (forallb_forall _ _) k_defined_upto bpk) as Hk.
  unfold k_defined in Hk. destruct (Double.to_unsigned _ _) as [k|]; [by exists k|].
  enough (false = true) by done. apply Hk, list_elem_of_In, elem_of_seqZ. lia.
Qed.

(** C37: a Bloom filter has no false negatives, and survives its encoding.  For
    up to 1000 bits per key the filter of any list of key hashes is built
    without undefined behaviour (every bit set lies inside it), [may_contain]
    answers yes for every hash of the list and answers something for every
    other one, and decoding what [encode] appended to any buffer gives the
    filter back. *)
Theorem bloom_no_false_negatives `{!Zlib} (hashes : list Z) (bits_per_key : Z) :
  Z.of_nat (length hashes) < 2 ^ 50 → 0 ≤ bits_per_key ≤ 1000 →
  ∃ b, Bloom.build_from_key_hashes hashes bits_per_key = Ok b ∧
    (∀ h, h ∈ hashes → Bloom.may_contain b h = Ok true) ∧
    (∀ h, ∃ r, Bloom.may_contain b h = Ok r) ∧
    (∀ buf, ∃ raw, Bloom.encode b buf = buf ++ raw ∧ Bloom.decode raw = Ok b).
Proof.
  intros Hn Hb. destruct (BloomSpec.bloom_build_spec hashes bits_per_key) as (b & Hbuild & Hrep & _).
  { apply sizing_ok_upto; lia. }
  exists b. split_and!; [done..|apply BloomSpec.may_contain_total|].
  intros buf. destruct (BloomSpec.decode_encode_bloom b buf) as (raw & ? & ? & _). by exists raw.
Qed.

(** Concrete functions for the parameters, used in examples only: a hash, and
    a logarithm that is right at 0.01. *)
Definition demo_farmhash : Farmhash := λ data, foldr (λ b s, byte_to_Z b + 131 * s) 1 data.
Definition demo_libm : Libm := λ _, S754_finite true 5184960683398421 (-50).

Lemma bloom_no_false_negatives_witness :
  ∃ b, Bloom.build_from_key_hashes [17; 4242424242; 99] 10 = Ok b ∧
    (∀ h, h ∈ [17; 4242424242; 99] → Bloom.may_contain b h = Ok true) ∧
    (∀ h, ∃ r, Bloom.may_contain b h = Ok r) ∧
    (∀ buf, ∃ raw, @Bloom.encode demo_zlib b buf = buf ++ raw ∧ @Bloom.decode demo_zlib raw = Ok b).
Proof. apply (@bloom_no_false_negatives demo_zlib [17; 4242424242; 99] 10); simpl; lia. Defined.
