(* ===== verification/Table.v ===== *)
(** * Sorted string tables: include/mini_lsm/table.h, src/table/builder.cpp

    A table file is: the blocks, each a flag byte, the (possibly compressed)
    encoded block and a checksum; the block metadata and their offset; the
    Bloom filter and its offset.  [SsTableBuilder] writes it, [SsTable.open] and
    [SsTable.read_block] read it back.

    Files are modelled by their contents: [Fs.t] maps paths to byte strings, and
    a [FileObject] holds the bytes its descriptor reads (the program never
    writes a table file again, and an unlinked file stays readable through its
    descriptor).  POSIX calls other than opening a missing file succeed.
    Arithmetic on [size_t] and [uint64_t] offsets wraps around, and reads out of
    a buffer are undefined behaviour as in the code. *)
From S2P Require Import Prelude Endian Key Iterators Block BlockCache Double Bloom.

(** ** Snappy *)
Class Snappy := {
  Compress : bytes → bytes;
  Uncompress : bytes → option bytes }.
(** Its documented contract. *)
Class SnappyLaws `{!Snappy} : Prop :=
  Uncompress_Compress data : Uncompress (Compress data) = Some data.

(** [MaxCompressedLength]. *)
Class SnappyBound `{!Snappy} : Prop :=
  length_Compress data : 6 * length (Compress data) ≤ 192 + 7 * length data.

(** A concrete compressor, used in examples only. *)
Definition demo_snappy : Snappy := {| Compress := λ data, xff :: rev data; Uncompress := λ data, Some (rev (tail data)) |}.
Lemma demo_snappy_laws : @SnappyLaws demo_snappy.
Proof. intros data. cbn. by rewrite rev_involutive. Qed.
Lemma demo_snappy_bound : @SnappyBound demo_snappy.
Proof. intros data. cbn. rewrite length_rev. lia. Qed.

(** ** Definitions *)
Module Fs.
Abbreviation t := (gmap string bytes).
End Fs.

Module FileObject.
Record t := mk { fd_ : option bytes; size_ : Z }.

Definition open (path : string) : eff Fs.t t := λ fs,
  match fs !! path with
  | None => Err (Exn "Failed to open file")
  | Some data => Ok (fs, mk (Some data) (u64 (Z.of_nat (length data))))
  end.

Definition create (path : string) (data : bytes) : eff Fs.t t := λ fs,
  open path (<[path := data]> fs).

Definition read_exact_at (f : t) (len offset : Z) : res bytes :=
  match fd_ f with
  | None => Err (Exn "FileObject not open")
  | Some data =>
      if decide (offset + len ≤ Z.of_nat (length data))%Z
      then Ok (slice (Z.to_nat offset) (Z.to_nat len) data)
      else Err (Exn "Unexpected EOF during pread")
  end.

Definition read (f : t) (offset len : Z) : res bytes :=
  if decide (0 < len)%Z then read_exact_at f len offset else mret [].

Definition size (f : t) : Z := size_ f.
End FileObject.

Inductive CompressionType := None_ | Snappy_.
#[export] Instance compression_eq_dec : EqDecision CompressionType.
Proof. solve_decision. Defined.

Module BlockMeta.
Record t := mk { offset : Z; first_key : bytes; last_key : bytes }.

(** One round of the loop of [encode_block_meta]. *)
Definition encode_one (buf : bytes) (m : t) : bytes :=
  let buf := put_u32_be buf (u32 (offset m)) in
  let buf := put_u16_be buf (u16 (Z.of_nat (length (first_key m)))) in
  let buf := buf ++ first_key m in
  let buf := put_u16_be buf (u16 (Z.of_nat (length (last_key m)))) in
  buf ++ last_key m.

(** The loop of [decode_block_meta], from [ptr] on. *)
Fixpoint decode_loop (raw : bytes) (ptr : nat) (num : nat) : res (list t) :=
  match num with
  | O => mret []
  | S num =>
      offset ← read_u32_be raw ptr;
      let ptr := ptr + 4 in
      fk_len ← Z.to_nat <$> read_u16_be raw ptr;
      let ptr := ptr + 2 in
      fk ← KeyVec.from_slice raw ptr fk_len;
      let ptr := ptr + fk_len in
      lk_len ← Z.to_nat <$> read_u16_be raw ptr;
      let ptr := ptr + 2 in
      lk ← KeyVec.from_slice raw ptr lk_len;
      let ptr := ptr + lk_len in
      meta ← decode_loop raw ptr num;
      mret (mk offset fk lk :: meta)
  end.

Section checksum.
Context `{!Zlib}.

Definition encode_block_meta (meta : list t) (buf : bytes) : bytes :=
  let orig_len := length buf in
  let buf := put_u32_be buf (u32 (Z.of_nat (length meta))) in
  let buf := foldl encode_one buf meta in
  let checksum := crc32_hash (drop (orig_len + 4) buf) in
  put_u32_be buf checksum.

Definition decode_block_meta (raw : bytes) : res (list t) :=
  let len := length raw in
  cassert (bool_decide (8 ≤ len)) "len >= 8";;
  num ← read_u32_be raw 0;
  expected_checksum ← read_u32_be raw (len - 4);
  let actual_checksum := crc32_hash (slice 4 (len - 8) raw) in
  if decide (expected_checksum ≠ actual_checksum)
  then Err (Exn "meta checksum mismatched")
  else decode_loop raw 4 (Z.to_nat num).
End checksum.
End BlockMeta.

Module SsTable.
Record t := mk {
  id : nat;
  file : FileObject.t;
  first_key : bytes;
  last_key : bytes;
  block_meta : list BlockMeta.t;
  block_meta_offset : Z;
  block_cache : bool;             (* the storage's shared cache, or null *)
  bloom : option Bloom.t;
  max_ts : nat }.

Section code.
Context `{!Zlib} `{!Snappy}.

Definition open (id : nat) (block_cache : bool) (file : FileObject.t) : res t :=
  let file_len := FileObject.size file in
  raw_bloom_offset ← FileObject.read file (u64 (file_len - 4)) 4;
  bloom_offset ← read_u32_be raw_bloom_offset 0;
  raw_bloom ← FileObject.read file bloom_offset (u64 (file_len - 4 - bloom_offset));
  bloom ← Bloom.decode raw_bloom;
  raw_meta_offset ← FileObject.read file (u32 (bloom_offset - 4)) 4;
  block_meta_offset ← read_u32_be raw_meta_offset 0;
  raw_meta ← FileObject.read file block_meta_offset (u32 (bloom_offset - 4 - block_meta_offset));
  block_meta ← BlockMeta.decode_block_meta raw_meta;
  front ← deref (head block_meta) "front() of an empty vector";
  back ← deref (last block_meta) "back() of an empty vector";
  mret (mk id file (BlockMeta.first_key front) (BlockMeta.last_key back)
           block_meta block_meta_offset block_cache (Some bloom) 0).

Definition num_blocks (t : t) : nat := length (block_meta t).
Definition table_size (t : t) : Z := FileObject.size (file t).

Definition read_block (t : t) (block_idx : nat) : res Block.t :=
  cassert (bool_decide (block_idx < num_blocks t)) "block_idx < block_meta.size()";;
  offset ← BlockMeta.offset <$> deref (block_meta t !! block_idx) "block_meta[block_idx]";
  offset_end ←
    (if decide (block_idx + 1 < num_blocks t)
     then BlockMeta.offset <$> deref (block_meta t !! (block_idx + 1)) "block_meta[block_idx + 1]"
     else mret (block_meta_offset t));
  let block_len_with_flag := u64 (offset_end - offset - 4) in
  data_with_chksum ← FileObject.read (file t) offset (u64 (offset_end - offset));
  expected_checksum ← read_u32_be data_with_chksum (Z.to_nat block_len_with_flag);
  let actual_checksum := crc32_hash (take (Z.to_nat block_len_with_flag) data_with_chksum) in
  if decide (expected_checksum ≠ actual_checksum)
  then Err (Exn "block checksum mismatched")
  else
    flag_byte ← deref (data_with_chksum !! 0) "data_with_chksum[0]";
    _ ← (if decide (0 < block_len_with_flag)%Z then mret tt
                   else Err (UB "block of length size_t(-1)"));
    let payload := slice 1 (Z.to_nat block_len_with_flag - 1) data_with_chksum in
    if decide (flag_byte = x00) then Block.decode payload
    else if decide (flag_byte = x01) then
      match Uncompress payload with
      | None => Err (Exn "failed to uncompress snappy block")
      | Some uncompressed => Block.decode uncompressed
      end
    else Err (Exn "unknown compression flag").

Definition read_block_cached (t : t) (block_idx : nat) : eff BlockCache.t (option Block.t) :=
  if block_cache t
  then BlockCache.try_get_with (id t) block_idx (Some <$> read_block t block_idx)
  else lift (Some <$> read_block t block_idx).

(** [std::upper_bound] over the first keys, as the library's header has it: of
    the [len] metadata from [first] on, it looks at the middle one and goes on
    with one of the halves.  A range that is not empty has a middle. *)
Fixpoint upper_bound_loop (fuel : nat) (key : bytes) (meta : list BlockMeta.t) (first len : nat) : nat :=
  match fuel with
  | O => first
  | S fuel =>
      if decide (len = 0) then first else
      let half := len / 2 in
      let middle := first + half in
      match meta !! middle with
      | None => first
      | Some m =>
          if KeySlice.ltb key (BlockMeta.first_key m)
          then upper_bound_loop fuel key meta first half
          else upper_bound_loop fuel key meta (S middle) (len - half - 1)
      end
  end.
Definition upper_bound (key : bytes) (meta : list BlockMeta.t) : nat :=
  upper_bound_loop (length meta) key meta 0 (length meta).

Definition find_block_idx (t : t) (key : bytes) : nat :=
  let idx := upper_bound key (block_meta t) in
  if decide (0 < idx) then idx - 1 else 0.
End code.
End SsTable.

Module SsTableBuilder.
Record t := mk {
  builder_ : BlockBuilder.t;
  first_key_ : bytes;
  last_key_ : bytes;
  data_ : bytes;
  meta_ : list BlockMeta.t;
  block_size_ : nat;
  compression_ : CompressionType;
  key_hashes_ : list Z }.

Definition create (block_size : nat) (compression : CompressionType) : t :=
  mk (BlockBuilder.create block_size) [] [] [] [] block_size compression [].

Definition set_compression (b : t) (compression : CompressionType) : t :=
  mk (builder_ b) (first_key_ b) (last_key_ b) (data_ b) (meta_ b) (block_size_ b)
     compression (key_hashes_ b).

Definition estimated_size (b : t) : nat := length (data_ b).

Definition is_empty (b : t) : bool :=
  bool_decide (meta_ b = []) && BlockBuilder.is_empty (builder_ b).

Section code.
Context `{!Zlib} `{!Snappy} `{!Farmhash} `{!Libm}.

(** Moved-from keys are left empty. *)
Definition finish_block (b : t) : res t :=
  if BlockBuilder.is_empty (builder_ b) then mret b
  else
    block ← BlockBuilder.build (builder_ b);
    let block_data := Block.encode block in
    let '(flag_byte, block_data) :=
      match compression_ b with
      | Snappy_ => (x01, Compress block_data)
      | None_ => (x00, block_data)
      end in
    let meta := BlockMeta.mk (Z.of_nat (length (data_ b))) (first_key_ b) (last_key_ b) in
    let data := data_ b ++ [flag_byte] in
    let data := data ++ block_data in
    let checksum := crc32_hash (drop (length data - length block_data - 1) data) in
    let data := put_u32_be data checksum in
    mret (mk (BlockBuilder.create (block_size_ b)) [] [] data (meta_ b ++ [meta])
             (block_size_ b) (compression_ b) (key_hashes_ b)).

Definition add (b : t) (key value : bytes) : res t :=
  let first_key := if KeyVec.is_empty (first_key_ b) then key else first_key_ b in
  let key_hashes := key_hashes_ b ++ [farmhash_fingerprint32 key] in
  '(added, builder) ← BlockBuilder.add (builder_ b) key value;
  if added : bool then
    mret (mk builder first_key key (data_ b) (meta_ b) (block_size_ b) (compression_ b) key_hashes)
  else
    b ← finish_block (mk builder first_key (last_key_ b) (data_ b) (meta_ b)
                         (block_size_ b) (compression_ b) key_hashes);
    '(added, builder) ← BlockBuilder.add (builder_ b) key value;
    cassert added "added";;
    mret (mk builder key key (data_ b) (meta_ b) (block_size_ b) (compression_ b) (key_hashes_ b)).

(** The contents of the file [build] writes. *)
Definition file_bytes (b : t) : res bytes :=
  b ← finish_block b;
  let buf := data_ b in
  let meta_offset := length buf in
  let buf := BlockMeta.encode_block_meta (meta_ b) buf in
  let buf := put_u32_be buf (u32 (Z.of_nat meta_offset)) in
  bits_per_key ← Bloom.bloom_bits_per_key (Z.of_nat (length (key_hashes_ b))) Double.c001;
  bloom ← Bloom.build_from_key_hashes (key_hashes_ b) bits_per_key;
  let bloom_offset := length buf in
  let buf := Bloom.encode bloom buf in
  mret (put_u32_be buf (u32 (Z.of_nat bloom_offset))).

Definition build (b : t) (id : nat) (block_cache : bool) (path : string) : eff Fs.t SsTable.t :=
  buf ← lift (file_bytes b);
  file ← FileObject.create path buf;
  lift (SsTable.open id block_cache file).

Definition build_for_test (b : t) (path : string) : eff Fs.t SsTable.t :=
  build b 0 false path.
End code.
End SsTableBuilder.

(** ** The metadata codec *)
Module BlockMetaSpec.
Import BlockMeta.

(** Metadata whose fields the file format can hold. *)
Definition meta_ok (m : t) : Prop :=
  (0 ≤ offset m < 4294967296)%Z ∧
  (Z.of_nat (length (first_key m)) < 65536)%Z ∧ (Z.of_nat (length (last_key m)) < 65536)%Z.

Definition meta_bytes (m : t) : bytes :=
  be_bytes 4 (u32 (offset m)) ++
  be_bytes 2 (u16 (Z.of_nat (length (first_key m)))) ++ first_key m ++
  be_bytes 2 (u16 (Z.of_nat (length (last_key m)))) ++ last_key m.

Lemma encode_one_eq buf m : encode_one buf m = buf ++ meta_bytes m.
Proof. unfold encode_one, meta_bytes. autorewrite with lsm. by rewrite <-!(assoc_L (++)). Qed.

Lemma encode_loop_eq buf ms : foldl encode_one buf ms = buf ++ concat (meta_bytes <$> ms).
Proof.
  revert buf; induction ms as [|m ms IH]; intros buf; simpl; [by rewrite app_nil_r|].
  by rewrite IH, encode_one_eq, <-(assoc_L (++)).
Qed.

Lemma from_slice_at (raw pre mid post : bytes) off n :
  raw = pre ++ mid ++ post → off = length pre → n = length mid →
  KeyVec.from_slice raw off n = Ok mid.
Proof.
  intros Hr Ho Hn. unfold KeyVec.from_slice. rewrite decide_True by (subst; rewrite !length_app; lia).
  by rewrite (slice_at _ _ _ _ _ _ Hr Ho Hn).
Qed.

Lemma decode_loop_spec raw pre ms post ptr :
  raw = pre ++ concat (meta_bytes <$> ms) ++ post → ptr = length pre → Forall meta_ok ms →
  decode_loop raw ptr (length ms) = Ok ms.
Proof.
  revert pre ptr; induction ms as [|m ms IH]; intros pre ptr Hraw Hptr Hms; [done|].
  inversion_clear Hms as [|? ? (Ho & Hf & Hl) Hms']. cbn [length decode_loop].
  rewrite fmap_cons, concat_cons in Hraw. unfold meta_bytes in Hraw at 1.
  rewrite <-!(assoc_L (++)) in Hraw. pose proof Hraw as H1.
  rewrite (bind_ok _ (offset m)); cycle 1.
  { by rewrite (read_u32_be_at _ _ _ _ _ H1 Hptr), u32_u32, u32_small. }
  cbv zeta. rewrite (assoc_L (++)) in H1.
  rewrite (bind_ok _ (length (first_key m))); cycle 1.
  { rewrite (read_u16_be_at _ _ _ _ _ H1) by (rewrite length_app, length_be_bytes; lia).
    cbn. by rewrite u16_u16, u16_small, Nat2Z.id by lia. }
  rewrite (assoc_L (++)) in H1.
  rewrite (bind_ok _ (first_key m)); cycle 1.
  { apply (from_slice_at _ _ _ _ _ _ H1); [|done]. rewrite !length_app, !length_be_bytes. lia. }
  rewrite (assoc_L (++)) in H1.
  rewrite (bind_ok _ (length (last_key m))); cycle 1.
  { rewrite (read_u16_be_at _ _ _ _ _ H1) by (rewrite !length_app, !length_be_bytes; lia).
    cbn. by rewrite u16_u16, u16_small, Nat2Z.id by lia. }
  rewrite (assoc_L (++)) in H1.
  rewrite (bind_ok _ (last_key m)); cycle 1.
  { apply (from_slice_at _ _ _ _ _ _ H1); [|done]. rewrite !length_app, !length_be_bytes. lia. }
  rewrite (assoc_L (++)) in H1. rewrite (bind_ok _ ms); [by destruct m|].
  apply (IH _ _ H1); [|done]. rewrite !length_app, !length_be_bytes. lia.
Qed.

Section codec.
Context `{!Zlib}.

(** What [encode_block_meta] appends. *)
Definition metas_bytes (ms : list t) : bytes :=
  be_bytes 4 (u32 (Z.of_nat (length ms))) ++ concat (meta_bytes <$> ms) ++
  be_bytes 4 (crc32_hash (concat (meta_bytes <$> ms))).

Lemma encode_block_meta_eq ms buf : encode_block_meta ms buf = buf ++ metas_bytes ms.
Proof.
  unfold encode_block_meta, metas_bytes. rewrite encode_loop_eq. autorewrite with lsm.
  rewrite drop_app_length' by (rewrite length_app, length_be_bytes; lia).
  by rewrite <-!(assoc_L (++)).
Qed.

Lemma length_metas_bytes ms : length (metas_bytes ms) = length (concat (meta_bytes <$> ms)) + 8.
Proof. unfold metas_bytes. rewrite !length_app, !length_be_bytes. lia. Qed.

Lemma decode_encode_metas ms : Forall meta_ok ms → (Z.of_nat (length ms) < 4294967296)%Z →
  decode_block_meta (metas_bytes ms) = Ok ms.
Proof.
  intros Hms Hlen. unfold decode_block_meta. rewrite length_metas_bytes.
  set (body := concat (meta_bytes <$> ms)). unfold metas_bytes. fold body.
  rewrite cassert_bind by (apply bool_decide_eq_true; lia).
  rewrite (bind_ok _ (Z.of_nat (length ms))); cycle 1.
  { erewrite (read_u32_be_at _ [] _ _ 0); [|reflexivity|reflexivity]. by rewrite u32_u32, u32_small by lia. }
  replace (length body + 8 - 4) with (length body + 4) by lia.
  replace (length body + 8 - 8) with (length body) by lia.
  rewrite (bind_ok _ (crc32_hash body)); cycle 1.
  { rewrite (assoc_L (++)), <-(app_nil_r (be_bytes 4 (crc32_hash body))).
    rewrite read_u32_be_mid by (rewrite length_app, length_be_bytes; lia). by rewrite crc32_hash_u32. }
  cbv zeta. erewrite (slice_at _ _ body); [|reflexivity|by rewrite length_be_bytes|done].
  rewrite decide_False by (by intros []). rewrite Nat2Z.id.
  by eapply decode_loop_spec; [done|by rewrite length_be_bytes|].
Qed.
End codec.
End BlockMetaSpec.

(** ** What a table holds

    [holds t kvss]: the blocks of [t] are the lists of entries [kvss], and every
    part of the table that readers rely on agrees with them. *)
Definition last_of (kvs : list kv) : bytes := match last kvs with Some e => e.1 | None => [] end.

Definition bloom_admits `{!Farmhash} (o : option Bloom.t) (kvs : list kv) : Prop :=
  match o with
  | Some b => BloomSpec.represents b ((λ e, farmhash_fingerprint32 e.1) <$> kvs)
  | None => True
  end.

Record holds `{!Zlib} `{!Snappy} `{!Farmhash} (t : SsTable.t) (kvss : list (list kv)) : Prop := {
  holds_nonempty : kvss ≠ [] ∧ Forall (λ kvs, kvs ≠ []) kvss;
  holds_wf : Forall block_wf kvss;
  holds_sorted : ksorted (mjoin kvss);
  holds_first_keys : BlockMeta.first_key <$> SsTable.block_meta t = first_of <$> kvss;
  holds_first : SsTable.first_key t = first_of (mjoin kvss);
  holds_last : SsTable.last_key t = last_of (mjoin kvss);
  holds_read i kvs : kvss !! i = Some kvs → SsTable.read_block t i = Ok (block_of kvs);
  holds_bloom : bloom_admits (SsTable.bloom t) (mjoin kvss) }.

Module TableBuilderSpec.
Import SsTableBuilder.

Section spec.
Context `{!Zlib} `{!Snappy} `{!SnappyLaws} `{!Farmhash} `{!Libm}.
Implicit Types (b : t) (kvs cur : list kv) (kvss : list (list kv)) (c : CompressionType).

Definition payload c (kvs : list kv) : bytes :=
  match c with
  | None_ => x00 :: Block.encode (block_of kvs)
  | Snappy_ => x01 :: Compress (Block.encode (block_of kvs))
  end.
Definition chunk c (kvs : list kv) : bytes :=
  payload c kvs ++ be_bytes 4 (crc32_hash (payload c kvs)).
Definition chunks c kvss : bytes := concat (chunk c <$> kvss).

Fixpoint metas c (off : nat) kvss : list BlockMeta.t :=
  match kvss with
  | [] => []
  | kvs :: kvss =>
      BlockMeta.mk (Z.of_nat off) (first_of kvs) (last_of kvs) ::
      metas c (off + length (chunk c kvs)) kvss
  end.

Record repr b kvss cur : Prop := {
  repr_builder : BlockBuilderSpec.repr (builder_ b) cur;
  repr_block_size : BlockBuilder.block_size_ (builder_ b) = block_size_ b;
  repr_small : block_size_ b ≤ Z.to_nat 65536;
  repr_data : data_ b = chunks (compression_ b) kvss;
  repr_meta : meta_ b = metas (compression_ b) 0 kvss;
  repr_nonempty : Forall (λ kvs, kvs ≠ []) kvss;
  repr_wf : Forall block_wf kvss;
  repr_cur_ok : Forall kv_ok cur;
  repr_first : first_key_ b = first_of cur;
  repr_last : cur ≠ [] → last_key_ b = last_of cur }.

(** The hashes of all keys so far. *)
Definition hashes kvs : list Z := (λ e, farmhash_fingerprint32 e.1) <$> kvs.

Lemma table_builder_create_repr bs c : bs ≤ Z.to_nat 65536 → repr (create bs c) [] [].
Proof. intros. split; try done. apply BlockBuilderSpec.block_builder_create_repr. Qed.

Lemma chunks_cons c kvs kvss : chunks c (kvs :: kvss) = chunk c kvs ++ chunks c kvss.
Proof. done. Qed.

Lemma chunks_snoc c kvss kvs : chunks c (kvss ++ [kvs]) = chunks c kvss ++ chunk c kvs.
Proof. unfold chunks. rewrite fmap_app, concat_app. simpl. by rewrite app_nil_r. Qed.

Lemma metas_snoc c off kvss kvs :
  metas c off (kvss ++ [kvs]) = metas c off kvss ++
    [BlockMeta.mk (Z.of_nat (off + length (chunks c kvss))) (first_of kvs) (last_of kvs)].
Proof.
  revert off; induction kvss as [|k0 kvss IH]; intros off; simpl.
  - by rewrite Nat.add_0_r.
  - rewrite IH. unfold chunks. simpl. by rewrite length_app, Nat.add_assoc.
Qed.

Lemma mjoin_snoc (kvss : list (list kv)) kvs : mjoin (kvss ++ [kvs]) = mjoin kvss ++ kvs.
Proof. rewrite join_app. simpl. by rewrite app_nil_r. Qed.

Lemma finish_block_spec b kvss cur : repr b kvss cur → cur ≠ [] →
  finish_block b ⇓ λ b', repr b' (kvss ++ [cur]) [] ∧ block_size_ b' = block_size_ b ∧
    compression_ b' = compression_ b ∧ key_hashes_ b' = key_hashes_ b.
Proof.
  intros [Hb Hbs Hsmall Hd Hm Hne Hwf Hok Hf Hl] Hcur. unfold finish_block.
  rewrite (BlockBuilderSpec.repr_is_empty _ _ Hb), bool_decide_false by done.
  rewrite (BlockBuilderSpec.block_builder_build_spec _ _ Hb Hcur), (bind_ok _ (block_of cur)) by done. cbv zeta.
  assert (block_wf cur) by (eapply BlockBuilderSpec.repr_block_wf; [done..|by rewrite Hbs]).
  assert (∀ (p : byte) (d : bytes), let data := (data_ b ++ [p]) ++ d in
    put_u32_be data (crc32_hash (drop (length data - length d - 1) data)) =
    data_ b ++ (p :: d) ++ be_bytes 4 (crc32_hash (p :: d))) as Hput.
  { intros p d data. unfold data. rewrite put_u32_be_eq, !length_app. simpl length.
    replace (length (data_ b) + 1 + length d - length d - 1) with (length (data_ b)) by lia.
    rewrite <-!(assoc_L (++)), drop_app_length. done. }
  destruct (compression_ b) eqn:Hc; (eexists; split; [done|]; split; [|done]);
    (split; simpl; [apply BlockBuilderSpec.block_builder_create_repr|done|done| | | | |done|done|done]).
  all: rewrite ?Hput, ?chunks_snoc, ?metas_snoc, ?Hd, ?Hm, ?Hf, ?Hl, ?Forall_app, ?Forall_singleton by done; done.
Qed.

Lemma last_of_snoc kvs k v : last_of (kvs ++ [(k, v)]) = k.
Proof. unfold last_of. by rewrite last_snoc. Qed.

Lemma first_nonempty cur : Forall kv_ok cur → cur ≠ [] → KeyVec.is_empty (first_of cur) = false.
Proof.
  destruct cur as [|[k0 v0] cur]; [done|]. intros [[? _] _]%Forall_cons _.
  by apply BlockBuilderSpec.key_nonempty.
Qed.

(** An entry that the current block takes. *)
Lemma repr_push b kvss cur k v builder fk hs : repr b kvss cur → kv_ok (k, v) →
  BlockBuilderSpec.repr builder (cur ++ [(k, v)]) →
  BlockBuilder.block_size_ builder = block_size_ b →
  fk = first_of (cur ++ [(k, v)]) →
  repr (mk builder fk k (data_ b) (meta_ b) (block_size_ b) (compression_ b) hs)
    kvss (cur ++ [(k, v)]).
Proof.
  intros [Hb Hbs Hsmall Hd Hm Hne Hwf Hok Hf Hl] Hkv Hb' Hbs' ->.
  split; simpl; try done.
  - apply Forall_app; split; [done|by constructor].
  - intros _. by rewrite last_of_snoc.
Qed.

(** [add] appends the entry, to the current block or to a new one. *)
Lemma table_builder_add_spec b kvss cur k v : repr b kvss cur → kv_ok (k, v) →
  add b k v ⇓ λ b', block_size_ b' = block_size_ b ∧ compression_ b' = compression_ b ∧
    key_hashes_ b' = key_hashes_ b ++ [farmhash_fingerprint32 k] ∧
    ∃ kvss' cur', repr b' kvss' cur' ∧ cur' ≠ [] ∧
      mjoin kvss' ++ cur' = mjoin kvss ++ cur ++ [(k, v)].
Proof.
  intros Hr Hkv. pose proof Hr as [Hb Hbs Hsmall Hd Hm Hne Hwf Hok Hf Hl].
  assert (k ≠ []) as Hk by apply Hkv. unfold add. cbv zeta. rewrite Hf.
  pose proof (BlockBuilderSpec.block_builder_add_spec _ _ k v Hb Hk) as Hadd. rewrite Hbs in Hadd.
  destruct (decide (BlockBuilderSpec.fits _ _ _)) as [Hfit|Hfull].
  - destruct Hadd as (builder & -> & Hb' & Hbs'). eexists. split; [reflexivity|].
    split_and!; [done..|]. exists kvss, (cur ++ [(k, v)]). split_and!; [|by destruct cur|done].
    eapply repr_push; [done..|congruence|].
    destruct (decide (cur = [])) as [->|Hcur]; [done|]. rewrite first_nonempty by done.
    rewrite first_of_snoc. by rewrite decide_False.
  - rewrite Hadd. assert (cur ≠ []) as Hcur by (intros ->; apply Hfull; by left).
    rewrite (bind_ok _ (false, builder_ b)) by done. rewrite first_nonempty by done.
    set (b1 := mk _ _ _ _ _ _ _ _).
    assert (repr b1 kvss cur) as Hr1 by (by split).
    destruct (finish_block_spec b1 _ _ Hr1 Hcur) as (b2 & -> & Hr2 & Hbs2 & Hc2 & Hh2).
    rewrite (bind_ok _ b2) by done.
    pose proof (BlockBuilderSpec.block_builder_add_spec _ _ k v (repr_builder _ _ _ Hr2) Hk) as Hadd2.
    rewrite decide_True in Hadd2 by (by left).
    destruct Hadd2 as (builder & -> & Hb' & Hbs'). eexists. split; [reflexivity|].
    split_and!; [done..|]. exists (kvss ++ [cur]), [(k, v)].
    split_and!; [|done|by rewrite mjoin_snoc, <-(assoc_L (++))].
    apply (repr_push b2 _ [] k v); [done..| |done]. rewrite Hbs'. apply Hr2.
Qed.

Lemma length_hashes kvs : length (hashes kvs) = length kvs.
Proof. apply length_fmap. Qed.

(** The layout of the file. *)
Definition layout c kvss (bloom_raw : bytes) : bytes :=
  let d := chunks c kvss in
  let m := BlockMetaSpec.metas_bytes (metas c 0 kvss) in
  d ++ m ++ be_bytes 4 (u32 (Z.of_nat (length d))) ++ bloom_raw ++
  be_bytes 4 (u32 (Z.of_nat (length d + length m + 4))).

(** The number of keys for which the filter's size is defined. *)
Definition sizable (n : nat) : Prop := ∃ bpk,
  Bloom.bloom_bits_per_key (Z.of_nat n) Double.c001 = Ok bpk ∧
  BloomSpec.sizing_ok (Z.of_nat n) bpk.

Lemma file_bytes_spec b kvss cur : repr b kvss cur → cur ≠ [] →
  key_hashes_ b = hashes (mjoin kvss ++ cur) → sizable (length (mjoin kvss ++ cur)) →
  file_bytes b ⇓ λ buf, ∃ bloom raw, buf = layout (compression_ b) (kvss ++ [cur]) raw ∧
    Bloom.decode raw = Ok bloom ∧ BloomSpec.represents bloom (hashes (mjoin kvss ++ cur)) ∧
    ∀ bpk, Bloom.bloom_bits_per_key (Z.of_nat (length (mjoin kvss ++ cur))) Double.c001 = Ok bpk →
      (8 * Z.of_nat (length raw) ≤ Z.of_nat (length (mjoin kvss ++ cur)) * bpk + 111)%Z.
Proof.
  intros Hr Hcur Hh (bpk & Hbpk & Hsz). unfold file_bytes.
  destruct (finish_block_spec b _ _ Hr Hcur) as (b' & -> & [] & _ & Hc & Hh').
  rewrite (bind_ok _ b') by done. cbv zeta. rewrite Hh', Hh.
  rewrite length_hashes, Hbpk, (bind_ok _ bpk) by done.
  eapply returns_bind; [apply BloomSpec.bloom_build_spec; by rewrite length_hashes|].
  intros bloom [Hbloom Hsmall]. apply returns_ret.
  rewrite BlockMetaSpec.encode_block_meta_eq, repr_data0, repr_meta0, Hc.
  destruct (BloomSpec.decode_encode_bloom bloom (put_u32_be (chunks (compression_ b) (kvss ++ [cur]) ++
    BlockMetaSpec.metas_bytes (metas (compression_ b) 0 (kvss ++ [cur])))
    (u32 (Z.of_nat (length (chunks (compression_ b) (kvss ++ [cur]))))))) as (raw & -> & Hdec & Hraw).
  exists bloom, raw. split_and!; [|done..|]; cycle 1.
  { intros bpk' Hbpk'. rewrite length_hashes in Hsmall. injection Hbpk' as <-. lia. }
  unfold layout. autorewrite with lsm.
  rewrite !length_app, length_be_bytes, <-!(assoc_L (++)). done.
Qed.

Lemma read_at (data pre mid post : bytes) sz off n :
  data = pre ++ mid ++ post → off = Z.of_nat (length pre) → n = Z.of_nat (length mid) →
  FileObject.read (FileObject.mk (Some data) sz) off n = Ok mid.
Proof.
  intros Hd -> ->. unfold FileObject.read, FileObject.read_exact_at. simpl.
  destruct mid as [|x mid]; [by rewrite decide_False by (simpl; lia)|].
  rewrite decide_True by (simpl; lia). rewrite decide_True by (subst; rewrite !length_app; lia).
  by rewrite !Nat2Z.id, (slice_at _ _ _ _ _ _ Hd).
Qed.

Lemma chunks_split c kvss i kvs : kvss !! i = Some kvs →
  chunks c kvss = chunks c (take i kvss) ++ chunk c kvs ++ chunks c (drop (S i) kvss).
Proof.
  intros Hi. unfold chunks at 1. rewrite <-(take_drop_middle _ _ _ Hi) at 1.
  by rewrite fmap_app, concat_app.
Qed.

Lemma metas_lookup c off kvss i kvs : kvss !! i = Some kvs →
  metas c off kvss !! i = Some (BlockMeta.mk (Z.of_nat (off + length (chunks c (take i kvss))))
                                 (first_of kvs) (last_of kvs)).
Proof.
  revert off i; induction kvss as [|k0 kvss IH]; intros off [|i] Hi; simplify_eq/=.
  - by rewrite Nat.add_0_r.
  - rewrite (IH _ _ Hi). unfold chunks. simpl. by rewrite length_app, Nat.add_assoc.
Qed.

Lemma length_metas c off kvss : length (metas c off kvss) = length kvss.
Proof. revert off; induction kvss as [|k0 kvss IH]; intros off; simpl; by rewrite ?IH. Qed.

Lemma chunk_min c kvs : 4 < length (chunk c kvs).
Proof. unfold chunk. rewrite length_app, length_be_bytes. destruct c; simpl; lia. Qed.

Lemma length_chunks c kvss : 4 * length kvss ≤ length (chunks c kvss).
Proof.
  induction kvss as [|k0 kvss IH]; [done|]. rewrite chunks_cons, length_app.
  pose proof (chunk_min c k0). simpl. lia.
Qed.

Lemma last_of_ok kvs : Forall kv_ok kvs → (Z.of_nat (length (last_of kvs)) < 65536)%Z.
Proof.
  intros Hok. unfold last_of. destruct (last kvs) as [e|] eqn:E; [|simpl; lia].
  apply last_Some in E as [l ->]. apply Forall_app in Hok as [_ [(_ & ? & _) _]%Forall_cons]. done.
Qed.

Lemma first_of_ok kvs : Forall kv_ok kvs → (Z.of_nat (length (first_of kvs)) < 65536)%Z.
Proof. destruct kvs as [|[k v] kvs]; [done|]. by intros [(_ & ? & _) _]%Forall_cons. Qed.

Lemma metas_ok c off kvss : Forall block_wf kvss →
  (Z.of_nat (off + length (chunks c kvss)) < 4294967296)%Z →
  Forall BlockMetaSpec.meta_ok (metas c off kvss).
Proof.
  intros Hwf. revert off; induction Hwf as [|kvs kvss Hkvs Hwf IH]; intros off Hoff; [constructor|].
  rewrite chunks_cons, length_app in Hoff. simpl. constructor; [|apply IH; lia].
  split_and!; simpl; [lia|lia|by apply first_of_ok, block_wf_ok|by apply last_of_ok, block_wf_ok].
Qed.

Lemma read_u32_be_self v : (0 ≤ v < 4294967296)%Z → read_u32_be (be_bytes 4 (u32 v)) 0 = Ok v.
Proof.
  intros Hv. rewrite <-(app_nil_r (be_bytes _ _)).
  erewrite (read_u32_be_at _ []); [|reflexivity|reflexivity]. by rewrite u32_u32, u32_small.
Qed.

Definition file_of (data : bytes) : FileObject.t :=
  FileObject.mk (Some data) (Z.of_nat (length data)).

Lemma metas_ends c kvss : kvss ≠ [] → ∃ front back,
  head (metas c 0 kvss) = Some front ∧ last (metas c 0 kvss) = Some back ∧
  BlockMeta.first_key front = first_of (default [] (head kvss)) ∧
  BlockMeta.last_key back = last_of (default [] (last kvss)).
Proof.
  intros Hne. destruct (exists_last Hne) as (kvss0 & kvs0 & E). rewrite E, metas_snoc, !last_snoc.
  destruct kvss0 as [|k1 kvss1]; simpl; eauto 10.
Qed.

(** [open] finds every section of the layout. *)
Lemma open_layout id cache c kvss raw bloom :
  let data := layout c kvss raw in
  (Z.of_nat (length data) < 4294967296)%Z →
  Forall block_wf kvss → kvss ≠ [] → Bloom.decode raw = Ok bloom →
  SsTable.open id cache (file_of data) =
    Ok (SsTable.mk id (file_of data) (first_of (default [] (head kvss)))
          (last_of (default [] (last kvss))) (metas c 0 kvss)
          (Z.of_nat (length (chunks c kvss))) cache (Some bloom) 0).
Proof.
  intros data Hlen Hwf Hne Hbloom. unfold SsTable.open. cbn [FileObject.size file_of FileObject.size_].
  set (d := chunks c kvss) in *. set (m := BlockMetaSpec.metas_bytes (metas c 0 kvss)) in *.
  assert (data = (d ++ m ++ be_bytes 4 (u32 (Z.of_nat (length d))) ++ raw) ++
    be_bytes 4 (u32 (Z.of_nat (length d + length m + 4))) ++ []) as Hd1.
  { unfold data, layout. fold d. fold m. by rewrite app_nil_r, <-!(assoc_L (++)). }
  assert (length data = length d + length m + 4 + length raw + 4) as Hl.
  { rewrite Hd1, !length_app, !length_be_bytes. simpl. lia. }
  erewrite bind_ok; [|apply (read_at _ _ _ _ _ _ _ Hd1);
    [rewrite u64_small, !length_app, !length_be_bytes; lia|by rewrite length_be_bytes]].
  rewrite read_u32_be_self, (bind_ok _ (Z.of_nat (length d + length m + 4))) by (done || lia).
  assert (data = (d ++ m ++ be_bytes 4 (u32 (Z.of_nat (length d)))) ++ raw ++
    be_bytes 4 (u32 (Z.of_nat (length d + length m + 4)))) as Hd2.
  { unfold data, layout. fold d. fold m. by rewrite <-!(assoc_L (++)). }
  erewrite bind_ok; [|apply (read_at _ _ _ _ _ _ _ Hd2);
    [rewrite !length_app, !length_be_bytes; lia|rewrite u64_small; lia]].
  rewrite Hbloom, (bind_ok _ bloom) by done.
  assert (data = (d ++ m) ++ be_bytes 4 (u32 (Z.of_nat (length d))) ++ raw ++
    be_bytes 4 (u32 (Z.of_nat (length d + length m + 4)))) as Hd3.
  { by rewrite Hd2, <-!(assoc_L (++)). }
  erewrite bind_ok; [|apply (read_at _ _ _ _ _ _ _ Hd3);
    [rewrite u32_small, !length_app; lia|by rewrite length_be_bytes]].
  rewrite read_u32_be_self, (bind_ok _ (Z.of_nat (length d))) by (done || lia).
  rewrite <-(assoc_L (++)) in Hd3.
  erewrite bind_ok; [|apply (read_at _ _ _ _ _ _ _ Hd3); [done|rewrite u32_small; lia]].
  assert (length kvss ≤ length d) by (pose proof (length_chunks c kvss); unfold d; lia).
  unfold m. rewrite BlockMetaSpec.decode_encode_metas; cycle 1.
  { apply metas_ok; [done|]. fold d. lia. }
  { rewrite length_metas. lia. }
  rewrite (bind_ok _ (metas c 0 kvss)) by done.
  destruct (metas_ends c kvss Hne) as (front & back & -> & -> & Hfront & Hback).
  by rewrite <-Hfront, <-Hback.
Qed.

(** [read_block] finds the block of its metadata. *)
Lemma read_block_layout t c kvss post i kvs :
  let data := chunks c kvss ++ post in
  SsTable.file t = file_of data → SsTable.block_meta t = metas c 0 kvss →
  SsTable.block_meta_offset t = Z.of_nat (length (chunks c kvss)) →
  (Z.of_nat (length data) < 4294967296)%Z → kvss !! i = Some kvs → block_wf kvs →
  SsTable.read_block t i = Ok (block_of kvs).
Proof.
  intros data Hfile Hmeta Hoff Hlen Hi Hwf. unfold SsTable.read_block, SsTable.num_blocks.
  pose proof (lookup_lt_Some _ _ _ Hi) as Hlt.
  rewrite Hmeta, length_metas, cassert_bind by (by apply bool_decide_eq_true).
  set (pre := chunks c (take i kvss)).
  rewrite (bind_ok _ (Z.of_nat (length pre))) by (by rewrite (metas_lookup _ _ _ _ _ Hi)).
  assert (length (chunks c (take (S i) kvss)) = length pre + length (chunk c kvs)) as Hnext.
  { by rewrite (take_S_r _ _ _ Hi), chunks_snoc, length_app. }
  pose proof (chunks_split c _ _ _ Hi) as Hd. fold pre in Hd.
  rewrite (bind_ok _ (Z.of_nat (length pre + length (chunk c kvs)))); cycle 1.
  { destruct (decide (i + 1 < length kvss)) as [Hlt'|Hge].
    - destruct (lookup_lt_is_Some_2 _ _ Hlt') as [kvs' Hi']. rewrite Nat.add_1_r in *.
      by rewrite (metas_lookup _ _ _ _ _ Hi'), Hnext.
    - rewrite Hoff, <-Hnext, take_ge by lia. done. }
  pose proof (chunk_min c kvs). cbv zeta.
  assert (length data = length (chunks c kvss) + length post) as Hl by apply length_app.
  rewrite Hd, !length_app in Hl.
  assert (length (chunk c kvs) = length (payload c kvs) + 4) as Hc.
  { unfold chunk. by rewrite length_app, length_be_bytes. }
  assert (u64 (Z.of_nat (length pre + length (chunk c kvs)) - Z.of_nat (length pre) - 4) =
    Z.of_nat (length (payload c kvs))) as -> by (rewrite u64_small; lia).
  rewrite Hfile, (bind_ok _ (chunk c kvs)); cycle 1.
  { apply (read_at _ pre _ (chunks c (drop (S i) kvss) ++ post)); [|done|rewrite u64_small; lia].
    unfold data. by rewrite Hd, <-!(assoc_L (++)). }
  rewrite Nat2Z.id. assert (take (length (payload c kvs)) (chunk c kvs) = payload c kvs) as Htake
    by apply take_app_length.
  rewrite (bind_ok _ (crc32_hash (payload c kvs))); cycle 1.
  { unfold chunk. rewrite <-(app_nil_r (be_bytes 4 _)), read_u32_be_mid by done. by rewrite crc32_hash_u32. }
  rewrite Htake, decide_False by (by intros []). unfold chunk.
  assert (0 < length (payload c kvs)) by (destruct c; simpl; lia).
  destruct c; cbn [payload app lookup list_lookup deref];
    rewrite (bind_ok _ _ _ eq_refl), (bind_ok _ tt) by (by rewrite decide_True by (simpl; lia)).
  - rewrite decide_True by done.
    erewrite (slice_at _ [x00] (Block.encode (block_of kvs)));
      [|simpl; reflexivity|done|simpl; lia]. by apply decode_encode_block_of.
  - rewrite decide_False, decide_True by done.
    erewrite (slice_at _ [x01] (Compress (Block.encode (block_of kvs))));
      [|simpl; reflexivity|done|simpl; lia].
    rewrite Uncompress_Compress. by apply decode_encode_block_of.
Qed.

(** A table file for the blocks [kvss]. *)
Record file_holds (data : bytes) kvss : Prop := {
  fh_small : (Z.of_nat (length data) < 4294967296)%Z;
  fh_nonempty : kvss ≠ [] ∧ Forall (λ kvs, kvs ≠ []) kvss;
  fh_wf : Forall block_wf kvss;
  fh_sorted : ksorted (mjoin kvss);
  fh_layout : ∃ c raw bloom, data = layout c kvss raw ∧ Bloom.decode raw = Ok bloom ∧
    BloomSpec.represents bloom (hashes (mjoin kvss)) }.

Lemma first_of_mjoin kvss : Forall (λ kvs, kvs ≠ []) kvss →
  first_of (mjoin kvss) = first_of (default [] (head kvss)).
Proof. by intros [|[|[k v] kvs] kvss' ? _]. Qed.

Lemma last_of_mjoin kvss : Forall (λ kvs, kvs ≠ []) kvss →
  last_of (mjoin kvss) = last_of (default [] (last kvss)).
Proof.
  destruct kvss as [|kvs kvss _] using rev_ind; [done|]. intros [_ [Hne _]%Forall_cons]%Forall_app.
  rewrite mjoin_snoc, last_snoc. unfold last_of. rewrite last_app. simpl.
  destruct (last kvs) eqn:E; [done|]. by apply last_None in E.
Qed.

Lemma open_holds data kvss id cache : file_holds data kvss →
  ∃ t, SsTable.open id cache (file_of data) = Ok t ∧ holds t kvss ∧
    SsTable.id t = id ∧ SsTable.block_cache t = cache ∧ SsTable.file t = file_of data.
Proof.
  intros [Hlen [Hne Hnes] Hwf Hs (c & raw & bloom & -> & Hraw & Hbloom)].
  eexists. split; [by apply open_layout|]. split; [|done]. split; simpl; try done.
  - assert (∀ off, BlockMeta.first_key <$> metas c off kvss = first_of <$> kvss) as E; [|done].
    clear. induction kvss as [|k0 kvss IH]; intros off; simpl; by rewrite ?IH.
  - by rewrite first_of_mjoin.
  - by rewrite last_of_mjoin.
  - intros i kvs Hi. eapply (read_block_layout _ c kvss _ i kvs); try done.
    by eapply Forall_lookup_1 in Hwf.
Qed.

Lemma open_bloom id cache f t : SsTable.open id cache f = Ok t → SsTable.bloom t ≠ None.
Proof.
  unfold SsTable.open, mbind, res_bind. intros Hopen. repeat (case_match; try discriminate Hopen).
  by injection Hopen as <-.
Qed.

Lemma file_of_open data path fs : (Z.of_nat (length data) < 4294967296)%Z →
  fs !! path = Some data → FileObject.open path fs = Ok (fs, file_of data).
Proof. intros Hl Hp. unfold FileObject.open, file_of. by rewrite Hp, u64_small by lia. Qed.

(** What [build] writes, as long as it is smaller than 4 GiB. *)
Lemma file_bytes_holds b kvss cur : repr b kvss cur → cur ≠ [] →
  key_hashes_ b = hashes (mjoin kvss ++ cur) → sizable (length (mjoin kvss ++ cur)) →
  ksorted (mjoin kvss ++ cur) →
  file_bytes b ⇓ λ buf, (Z.of_nat (length buf) < 4294967296)%Z → file_holds buf (kvss ++ [cur]).
Proof.
  intros Hr Hcur Hh Hsz Hs. eapply returns_mono; [by apply file_bytes_spec|].
  intros buf (bloom & raw & Hbuf & Hraw & Hbloom & _) Hlen. destruct Hr.
  split; [done| | |by rewrite mjoin_snoc|].
  - split; [by destruct kvss|]. apply Forall_app; split; [done|by constructor].
  - apply Forall_app; split; [done|]. constructor; [|done].
    eapply BlockBuilderSpec.repr_block_wf; [done..|by rewrite repr_block_size0].
  - exists (compression_ b), raw, bloom. by rewrite mjoin_snoc.
Qed.

(** *** Feeding a sorted list of entries *)
Definition add_all b (kvs : list kv) : res t :=
  foldl (λ m e, b ← m; add b e.1 e.2) (mret b) kvs.

Lemma add_all_cons b k v kvs b' : add b k v = Ok b' → add_all b ((k, v) :: kvs) = add_all b' kvs.
Proof. intros Hadd. unfold add_all. simpl. by rewrite Hadd. Qed.

(** A builder that was fed [kvs]. *)
Definition fed b (kvs : list kv) : Prop := ∃ kvss cur, repr b kvss cur ∧
  kvs = mjoin kvss ++ cur ∧ (kvs ≠ [] → cur ≠ []) ∧ key_hashes_ b = hashes kvs.

Lemma create_fed bs c : bs ≤ Z.to_nat 65536 → fed (create bs c) [].
Proof. intros. exists [], []. split_and!; [by apply table_builder_create_repr|done..]. Qed.

Lemma add_fed b kvs k v : fed b kvs → kv_ok (k, v) → add b k v ⇓ λ b', fed b' (kvs ++ [(k, v)]).
Proof.
  intros (kvss & cur & Hr & -> & Hne & Hh) Hkv.
  eapply returns_mono; [by eapply table_builder_add_spec|]. intros b' (_ & _ & Hh' & kvss' & cur' & Hr' & Hcur' & E).
  exists kvss', cur'. split_and!; [done|by rewrite E, (assoc_L (++))|done|].
  rewrite Hh', Hh. unfold hashes. rewrite !fmap_app. done.
Qed.

Lemma fed_is_empty b kvs : fed b kvs → is_empty b = bool_decide (kvs = []).
Proof.
  intros (kvss & cur & Hr & -> & Hne & _). unfold is_empty.
  rewrite (BlockBuilderSpec.repr_is_empty _ _ (repr_builder _ _ _ Hr)), (repr_meta _ _ _ Hr).
  rewrite <-bool_decide_and. apply bool_decide_ext. split.
  - intros [Hm ->]. apply (f_equal length) in Hm. rewrite length_metas in Hm. by destruct kvss.
  - intros E. rewrite E in *. apply app_eq_nil in E as [E ->].
    destruct kvss as [|kvs kvss]; [done|]. destruct Hr. apply Forall_cons in repr_nonempty0 as [? _].
    simpl in E. by apply app_eq_nil in E as [-> _].
Qed.

(** [build] after feeding a non-empty sorted list: a table that holds it. *)
Lemma build_fed b kvs id cache path fs : fed b kvs → kvs ≠ [] → ksorted kvs →
  sizable (length kvs) →
  ∃ buf, file_bytes b = Ok buf ∧ ((Z.of_nat (length buf) < 4294967296)%Z →
    ∃ t kvss, build b id cache path fs = Ok (<[path := buf]> fs, t) ∧ holds t kvss ∧
      SsTable.open id cache (file_of buf) = Ok t ∧ mjoin kvss = kvs ∧ file_holds buf kvss ∧
      SsTable.id t = id ∧ SsTable.block_cache t = cache ∧ SsTable.file t = file_of buf).
Proof.
  intros (kvss & cur & Hr & -> & Hne & Hh) Hkvs Hs Hsz.
  destruct (file_bytes_holds _ _ _ Hr (Hne Hkvs) Hh Hsz Hs) as (buf & Hbuf & Hfh).
  exists buf. split; [done|]. intros Hlen. specialize (Hfh Hlen).
  destruct (open_holds _ _ id cache Hfh) as (t & Ht & Hholds & ?).
  exists t, (kvss ++ [cur]). split_and!; [|done|done|by rewrite mjoin_snoc|done|naive_solver..].
  unfold build, mbind, eff_bind, lift, FileObject.create. rewrite Hbuf.
  rewrite (file_of_open buf) by (done || apply lookup_insert_eq). by rewrite Ht.
Qed.
End spec.
End TableBuilderSpec.

(** ** The search for a block *)
Module BlockSearch.
Import SsTable.
Implicit Types (key : bytes) (meta : list BlockMeta.t).

Abbreviation starts meta := (BlockMeta.first_key <$> meta) (only parsing).

(** The loop keeps the answer between [first] and [first + len]. *)
Lemma upper_bound_loop_cut key meta : StronglySorted key_le (starts meta) → ∀ fuel first len,
  len ≤ fuel → first + len ≤ length meta →
  (∀ i m, meta !! i = Some m → i < first → key_le (BlockMeta.first_key m) key) →
  (∀ i m, meta !! i = Some m → first + len ≤ i → key_lt key (BlockMeta.first_key m)) →
  let n := upper_bound_loop fuel key meta first len in
  n ≤ length meta ∧ ∀ i m, meta !! i = Some m → key_le (BlockMeta.first_key m) key ↔ i < n.
Proof.
  intros Hs. assert (∀ first len, len = 0 → first + len ≤ length meta →
    (∀ i m, meta !! i = Some m → i < first → key_le (BlockMeta.first_key m) key) →
    (∀ i m, meta !! i = Some m → first + len ≤ i → key_lt key (BlockMeta.first_key m)) →
    first ≤ length meta ∧ ∀ i m, meta !! i = Some m → key_le (BlockMeta.first_key m) key ↔ i < first) as Hdone.
  { intros first len -> Hlen Hbefore Hafter. split; [lia|]. intros i m Hi. split; [|by eapply Hbefore].
    intros Hle. apply Nat.nle_gt. intros Hge. specialize (Hafter i m Hi ltac:(lia)). key_order. }
  induction fuel as [|fuel IH]; intros first len Hfuel Hlen Hbefore Hafter; cbn [upper_bound_loop]; cbv zeta;
    [by apply (Hdone first len); [lia|..]|].
  destruct (decide (len = 0)) as [Hz|Hpos]; [by apply (Hdone first len)|].
  pose proof (Nat.div_lt len 2 ltac:(lia) ltac:(lia)) as Hhalf. set (half := len / 2) in *.
  destruct (lookup_lt_is_Some_2 meta (first + half)) as [m Hm]; [lia|]. rewrite Hm, ltb_spec.
  assert (∀ i j x y, meta !! i = Some x → meta !! j = Some y → i < j → key_le (BlockMeta.first_key x) (BlockMeta.first_key y)) as Hmono.
  { intros i j x y Hx Hy Hij. eapply (strongly_sorted_lookup key_le _ Hs i j); [by rewrite list_lookup_fmap, ?Hx, ?Hy..|done]. }
  assert (∀ i x, meta !! i = Some x → i ≤ first + half → key_le (BlockMeta.first_key x) (BlockMeta.first_key m)) as Hbelow.
  { intros i x Hx Hi. destruct (decide (i = first + half)) as [->|]; [|by apply (Hmono i (first + half)); [..|lia]]. simplify_eq. key_order. }
  assert (∀ i x, meta !! i = Some x → first + half ≤ i → key_le (BlockMeta.first_key m) (BlockMeta.first_key x)) as Habove.
  { intros i x Hx Hi. destruct (decide (i = first + half)) as [->|]; [|by apply (Hmono (first + half) i); [..|lia]]. simplify_eq. key_order. }
  destruct (decide (key_lt key (BlockMeta.first_key m))) as [Hlt|Hge].
  - rewrite bool_decide_true by done. apply IH; [lia|lia|done|]. intros i x Hx Hi. pose proof (Habove i x Hx Hi). key_order.
  - rewrite bool_decide_false by done. apply IH; [lia|lia| |].
    + intros i x Hx Hi. pose proof (Hbelow i x Hx ltac:(lia)). key_order.
    + intros i x Hx Hi. apply (Hafter i x Hx). lia.
Qed.

(** The answer separates what starts at or before [key] from the rest. *)
Lemma upper_bound_cut key meta : StronglySorted key_le (starts meta) →
  upper_bound key meta ≤ length meta ∧
  ∀ i m, meta !! i = Some m → key_le (BlockMeta.first_key m) key ↔ i < upper_bound key meta.
Proof.
  intros Hs. apply upper_bound_loop_cut; [done|lia|lia|intros; lia|].
  intros i m Hi%lookup_lt_Some ?. lia.
Qed.

Lemma filter_cut {A} (P : A → Prop) `{∀ x, Decision (P x)} (l : list A) (n : nat) : n ≤ length l →
  (∀ i x, l !! i = Some x → P x ↔ i < n) → filter P l = take n l.
Proof.
  intros Hn Hcut. rewrite <-(take_drop n l) at 1. rewrite filter_app, (filter_all _ (take n l)), (filter_none _ (drop n l)).
  - apply (right_id_L [] (++)).
  - apply Forall_lookup. intros i x Hx. rewrite lookup_drop in Hx. intros HP%(Hcut _ _ Hx). lia.
  - apply Forall_lookup. intros i x [Hx Hi]%lookup_take_Some. by apply (Hcut _ _ Hx).
Qed.
End BlockSearch.

(** C34: the binary search for a block is the scan of the metadata.  If the blocks
    of a table are in the order of their first keys, then [find_block_idx], which
    halves the range with [std::upper_bound], finds the last block that starts at
    or before the key, or the first block if all start after it: the blocks that
    start at or before the key are counted, whatever their number, and they are
    the first ones. *)
Theorem find_block_idx_is_scan (t : SsTable.t) (key : bytes) :
  let meta := SsTable.block_meta t in
  let count := length (filter (λ m, key_le (BlockMeta.first_key m) key) meta) in
  StronglySorted key_le (BlockMeta.first_key <$> meta) →
  SsTable.find_block_idx t key = count - 1 ∧
  (∀ i m, meta !! i = Some m → key_le (BlockMeta.first_key m) key ↔ i < count).
Proof.
  intros meta count Hs. destruct (BlockSearch.upper_bound_cut key meta Hs) as [Hn Hcut].
  assert (count = SsTable.upper_bound key meta) as E by (unfold count; rewrite (BlockSearch.filter_cut _ meta _ Hn Hcut), length_take; lia).
  rewrite E. split; [|done]. unfold SsTable.find_block_idx. fold meta. case_decide; lia.
Qed.

(** Three blocks, and keys before, between and behind them. *)
Definition demo_blocks : SsTable.t :=
  SsTable.mk 1 (FileObject.mk None 0) [x62] [x7a] (BlockMeta.mk 0 [x62] [x63] :: BlockMeta.mk 9 [x64] [x65] :: BlockMeta.mk 20 [x67] [x7a] :: []) 30 true None 0.

Lemma find_block_idx_is_scan_witness :
  SsTable.find_block_idx demo_blocks [x65; x65] = 1 ∧ SsTable.find_block_idx demo_blocks [x61] = 0 ∧ SsTable.find_block_idx demo_blocks [x67] = 2.
Proof.
  assert (StronglySorted key_le (BlockMeta.first_key <$> SsTable.block_meta demo_blocks)) as Hs.
  { repeat constructor; apply (bool_decide_unpack _); vm_compute; exact I. }
  destruct (find_block_idx_is_scan demo_blocks [x65; x65] Hs) as [E1 _].
  destruct (find_block_idx_is_scan demo_blocks [x61] Hs) as [E2 _].
  destruct (find_block_idx_is_scan demo_blocks [x67] Hs) as [E3 _].
  split; [rewrite E1; reflexivity|]. split; [rewrite E2; reflexivity|rewrite E3; reflexivity].
Defined.
