(* ===== verification/Sizes.v ===== *)
(** * How large a table file is: src/table/builder.cpp, src/table/bloom.cpp

    The offsets of a table file are 32 bits wide.  The bound here, linear in the
    bytes of the keys and values, says from which amount of data on they may
    wrap around; the engine's theorems assume less data than that. *)
From S2P Require Import Prelude Endian Key Iterators Block BlockCache Double Bloom Table.

(** The bytes of the keys and values. *)
Definition weight (kvs : list kv) : nat := sum_list ((λ e, length e.1 + length e.2) <$> kvs).
(** An upper bound on the size of the file for [kvs]. *)
Definition footprint (kvs : list kv) : nat := 4 * weight kvs + 200 * length kvs + 100.

(** The filter's parameters are in range: a fact about the logarithm of the C
    library, checked by evaluation for a concrete one. *)
Definition sized `{!Libm} (n : nat) : Prop := ∃ bpk,
  Bloom.bloom_bits_per_key (Z.of_nat n) Double.c001 = Ok bpk ∧ (0 ≤ bpk ≤ 1000)%Z.

(** A list of entries that fits a table, as do all its parts. *)
Record fits `{!Libm} (kvs : list kv) : Prop := {
  fits_sized n : 0 < n ≤ length kvs → sized n;
  fits_size : (Z.of_nat (footprint kvs) < 4294967296)%Z }.

Section weight.
Implicit Types (kvs : list kv).

Lemma weight_cons e kvs : weight (e :: kvs) = length e.1 + length e.2 + weight kvs.
Proof. done. Qed.
Lemma weight_app kvs1 kvs2 : weight (kvs1 ++ kvs2) = weight kvs1 + weight kvs2.
Proof. induction kvs1 as [|e kvs1 IH]; [done|]. simpl. rewrite !weight_cons, IH. lia. Qed.
#[export] Instance weight_proper : Proper ((≡ₚ) ==> (=)) weight.
Proof. induction 1; rewrite ?weight_cons in *; lia || done. Qed.

(** A list without repeated keys whose entries are all among [h] weighs no more. *)
Lemma weight_sub kvs h : NoDup kvs → kvs ⊆ h → weight kvs ≤ weight h ∧ length kvs ≤ length h.
Proof.
  intros Hnd Hsub. destruct (submseteq_Permutation kvs h) as [k ->].
  { by apply NoDup_submseteq. }
  rewrite weight_app, length_app. lia.
Qed.

Lemma fits_sub `{!Libm} kvs h : NoDup kvs → kvs ⊆ h → fits h → fits kvs.
Proof.
  intros Hnd Hsub [Hs Hf]. destruct (weight_sub _ _ Hnd Hsub). unfold footprint in *.
  split; [intros n Hn; apply Hs; lia|unfold footprint; lia].
Qed.

(** The same for a list that is a part of [h]. *)
Lemma fits_submseteq `{!Libm} kvs h : kvs ⊆+ h → fits h → fits kvs.
Proof.
  intros [k Hk]%submseteq_Permutation [Hs Hf]. unfold footprint in *. rewrite Hk, weight_app, length_app in Hf.
  split; [intros n Hn; apply Hs; rewrite Hk, length_app; lia|unfold footprint; lia].
Qed.

(** The entries of the map of a list are a part of it. *)
Lemma entries_submseteq kvs : entries (kv_map kvs) ⊆+ kvs.
Proof.
  apply NoDup_submseteq; [eapply NoDup_fmap_1, ksorted_NoDup, entries_sorted|]. intros [k v] Hin.
  apply kv_map_lookup in Hin; [|apply entries_sorted]. rewrite kv_map_entries in Hin. by apply elem_of_list_to_map_2.
Qed.

Lemma first_weight kvs : length (first_of kvs) ≤ weight kvs.
Proof. destruct kvs as [|[k v] kvs]; simpl; [lia|]. rewrite weight_cons. simpl. lia. Qed.
Lemma last_weight kvs : length (last_of kvs) ≤ weight kvs.
Proof.
  unfold last_of. destruct (last kvs) as [e|] eqn:E; [|simpl; lia].
  apply last_Some in E as [l ->]. rewrite weight_app, weight_cons. lia.
Qed.

Lemma entries_weight kvs : length (entries_bytes kvs) ≤ weight kvs + 6 * length kvs.
Proof.
  destruct kvs as [|[k v] kvs]; [done|]. rewrite weight_cons. cbn [entries_bytes length fst snd]. rewrite length_app.
  pose proof (entry_upper [] k v). assert (length (concat ((λ e, entry k e.1 e.2) <$> kvs)) ≤ weight kvs + 6 * length kvs); [|lia].
  clear. induction kvs as [|e kvs IH]; [done|]. rewrite fmap_cons, weight_cons. cbn [concat length].
  rewrite length_app. pose proof (entry_upper k e.1 e.2). lia.
Qed.

Lemma encode_weight kvs : length (Block.encode (block_of kvs)) ≤ weight kvs + 8 * length kvs + 2.
Proof.
  rewrite length_encode, length_block_offsets. pose proof (entries_weight kvs). simpl. lia.
Qed.

Context `{!Zlib} `{!Snappy} `{!SnappyBound}.

Lemma chunk_weight c kvs : kvs ≠ [] → length (TableBuilderSpec.chunk c kvs) ≤ 2 * weight kvs + 60 * length kvs.
Proof.
  intros Hne. assert (0 < length kvs) by (destruct kvs; [done|simpl; lia]).
  unfold TableBuilderSpec.chunk, TableBuilderSpec.payload. rewrite length_app, length_be_bytes.
  pose proof (encode_weight kvs). destruct c; simpl; [lia|].
  pose proof (length_Compress (Block.encode (block_of kvs))). lia.
Qed.

Lemma meta_weight off kvs :
  length (BlockMetaSpec.meta_bytes (BlockMeta.mk off (first_of kvs) (last_of kvs))) ≤ 8 + 2 * weight kvs.
Proof.
  unfold BlockMetaSpec.meta_bytes. rewrite !length_app, !length_be_bytes. simpl.
  pose proof (first_weight kvs). pose proof (last_weight kvs). lia.
Qed.

Lemma layout_weight c kvss raw : Forall (λ kvs, kvs ≠ []) kvss →
  length (TableBuilderSpec.layout c kvss raw) ≤ 4 * weight (mjoin kvss) + 68 * length (mjoin kvss) + 16 + length raw.
Proof.
  intros Hne. unfold TableBuilderSpec.layout. rewrite !length_app, !length_be_bytes, BlockMetaSpec.length_metas_bytes.
  assert (length (TableBuilderSpec.chunks c kvss) ≤ 2 * weight (mjoin kvss) + 60 * length (mjoin kvss)) as Hc.
  { induction Hne as [|kvs kvss Hkvs _ IH]; [done|]. unfold TableBuilderSpec.chunks in *. rewrite fmap_cons. cbn [concat]. change (mjoin (kvs :: kvss)) with (kvs ++ mjoin kvss).
    rewrite !length_app, weight_app. pose proof (chunk_weight c kvs Hkvs). lia. }
  assert (∀ off, length (concat (BlockMetaSpec.meta_bytes <$> TableBuilderSpec.metas c off kvss)) ≤
    2 * weight (mjoin kvss) + 8 * length (mjoin kvss)) as Hm.
  { clear Hc. induction Hne as [|kvs kvss Hkvs _ IH]; intros off; [done|]. cbn [TableBuilderSpec.metas]. rewrite fmap_cons. cbn [concat].
    change (mjoin (kvs :: kvss)) with (kvs ++ mjoin kvss).
    rewrite !length_app, weight_app. specialize (IH (off + length (TableBuilderSpec.chunk c kvs))).
    pose proof (meta_weight (Z.of_nat off) kvs). assert (0 < length kvs) by (destruct kvs; [done|simpl; lia]). lia. }
  specialize (Hm 0). lia.
Qed.

(** The size of the file a builder writes. *)
Lemma fits_sizable `{!Libm} kvs : kvs ≠ [] → fits kvs → TableBuilderSpec.sizable (length kvs).
Proof.
  intros Hne [Hs Hf]. destruct (Hs (length kvs)) as (bpk & Hbpk & Hb); [destruct kvs; simpl; [done|lia]|].
  unfold footprint in Hf. exists bpk. split; [done|]. apply sizing_ok_upto; lia.
Qed.

Lemma file_weight `{!Farmhash} `{!Libm} b kvs buf : TableBuilderSpec.fed b kvs → kvs ≠ [] → fits kvs →
  SsTableBuilder.file_bytes b = Ok buf → length buf ≤ footprint kvs.
Proof.
  intros Hfed Hkvs Hfits Hbuf. pose proof (fits_sizable _ Hkvs Hfits) as Hsz.
  assert (sized (length kvs)) as (bpk & Hbpk & Hb) by (apply Hfits; destruct kvs; simpl; [done|lia]).
  destruct Hfed as (kvss & cur & Hr & -> & Hne & Hh). assert (cur ≠ []) as Hcur by auto.
  destruct (TableBuilderSpec.file_bytes_spec b kvss cur Hr Hcur Hh Hsz) as (buf' & Hbuf' & bloom & raw & Hlay & _ & _ & Hraw).
  rewrite Hbuf in Hbuf'. injection Hbuf' as <-. rewrite Hlay. specialize (Hraw _ Hbpk).
  pose proof (layout_weight (SsTableBuilder.compression_ b) (kvss ++ [cur]) raw) as Hl.
  rewrite TableBuilderSpec.mjoin_snoc in Hl. unfold footprint.
  assert (Forall (λ kvs, kvs ≠ []) (kvss ++ [cur])) as Hall by (apply Forall_app; split; [apply Hr|by constructor]).
  specialize (Hl Hall). nia.
Qed.

(** Building a table for a list that fits. *)
Lemma build_fits `{!SnappyLaws} `{!Farmhash} `{!Libm} b kvs id cache path fs :
  TableBuilderSpec.fed b kvs → kvs ≠ [] → ksorted kvs → fits kvs →
  ∃ buf t kvss, SsTableBuilder.build b id cache path fs = Ok (<[path := buf]> fs, t) ∧
    holds t kvss ∧ mjoin kvss = kvs ∧ SsTable.id t = id ∧ SsTable.block_cache t = cache ∧
    (Z.of_nat (length buf) < 4294967296)%Z ∧ SsTable.open id cache (TableBuilderSpec.file_of buf) = Ok t.
Proof.
  intros Hfed Hne Hs Hfits.
  destruct (TableBuilderSpec.build_fed b kvs id cache path fs Hfed Hne Hs (fits_sizable _ Hne Hfits)) as (buf & Hbuf & Hbuild).
  assert (Z.of_nat (length buf) < 4294967296)%Z as Hlen.
  { pose proof (file_weight _ _ _ Hfed Hne Hfits Hbuf). destruct Hfits as [_ Hf]. lia. }
  destruct (Hbuild Hlen) as (t & kvss & Hrun & Hholds & Hopen & Hkvs & _ & Hid & Hc & _).
  exists buf, t, kvss. done.
Qed.
End weight.
