(* ===== verification/TableIterator.v ===== *)
(** * Iterators over tables: src/table/iterator.cpp, src/iterators/concat_iterator.cpp

    [SsTableIterator] walks the blocks of one table, [SstConcatIterator] the
    tables of one sorted run.  Both read blocks through the shared cache, which
    is the world of their effects; under the cache invariant they denote the
    entries the tables hold. *)
From S2P Require Import Prelude Endian Key Iterators Block BlockCache Double Bloom Table.

(** ** Definitions *)
Module SsTableIterator.
Record t := mk {
  table_ : option SsTable.t;
  blk_iter_ : BlockIterator.t;
  blk_idx_ : nat }.

(** The default constructor. *)
Definition empty : t := mk None BlockIterator.empty 0.

Section code.
Context `{!Zlib} `{!Snappy}.

Definition is_valid_ (it : t) : bool := BlockIterator.is_valid_ (blk_iter_ it).

Definition get_key (it : t) : res bytes :=
  cassert (is_valid_ it) "is_valid()";; BlockIterator.get_key (blk_iter_ it).
Definition get_value (it : t) : res bytes :=
  cassert (is_valid_ it) "is_valid()";; BlockIterator.get_value (blk_iter_ it).

(** [!table_ || idx >= table_->num_blocks()] *)
Definition no_block (it : t) (idx : nat) : bool :=
  match table_ it with None => true | Some tb => bool_decide (SsTable.num_blocks tb ≤ idx) end.

(** [read_block_cached(idx)] and [create_and_seek_to_first] on the block. *)
Definition load_block (tb : SsTable.t) (idx : nat) : eff BlockCache.t BlockIterator.t :=
  blk ← SsTable.read_block_cached tb idx;
  lift (BlockIterator.create_and_seek_to_first blk).

Definition seek_to_idx (it : t) (idx : nat) : eff BlockCache.t t :=
  if no_block it idx then mret (mk (table_ it) BlockIterator.empty (blk_idx_ it))
  else
    tb ← lift (deref (table_ it) "table_ is null");
    blk_iter ← load_block tb idx;
    mret (mk (table_ it) blk_iter idx).

Definition seek_to_first (it : t) : eff BlockCache.t t :=
  if no_block it 0 then mret (mk (table_ it) BlockIterator.empty (blk_idx_ it))
  else
    tb ← lift (deref (table_ it) "table_ is null");
    blk_iter ← load_block tb 0;
    mret (mk (table_ it) blk_iter 0).

Definition seek_to_key (it : t) (key : bytes) : eff BlockCache.t t :=
  if no_block it 0 then mret (mk (table_ it) BlockIterator.empty (blk_idx_ it))
  else
    tb ← lift (deref (table_ it) "table_ is null");
    let blk_idx := SsTable.find_block_idx tb key in
    blk ← SsTable.read_block_cached tb blk_idx;
    blk_iter ← lift (BlockIterator.create_and_seek_to_key blk key);
    if negb (BlockIterator.is_valid_ blk_iter) then
      let blk_idx := S blk_idx in
      if decide (blk_idx < SsTable.num_blocks tb) then
        blk_iter ← load_block tb blk_idx;
        mret (mk (table_ it) blk_iter blk_idx)
      else mret (mk (table_ it) blk_iter blk_idx)
    else mret (mk (table_ it) blk_iter blk_idx).

Definition next_ (it : t) : eff BlockCache.t t :=
  blk_iter ← lift (BlockIterator.next_ (blk_iter_ it));
  let it := mk (table_ it) blk_iter (blk_idx_ it) in
  if negb (BlockIterator.is_valid_ blk_iter) then
    let it := mk (table_ it) blk_iter (S (blk_idx_ it)) in
    tb ← lift (deref (table_ it) "table_ is null");
    if decide (blk_idx_ it < SsTable.num_blocks tb)
    then seek_to_idx it (blk_idx_ it) else mret it
  else mret it.

Definition create_and_seek_to_first (table : option SsTable.t) : eff BlockCache.t t :=
  seek_to_first (mk table BlockIterator.empty 0).
Definition create_and_seek_to_key (table : option SsTable.t) (key : bytes) : eff BlockCache.t t :=
  seek_to_key (mk table BlockIterator.empty 0) key.

#[global] Instance storage : StorageIterator BlockCache.t t := {
  key := get_key; value := get_value; is_valid := is_valid_; next := next_ }.
End code.
End SsTableIterator.

Module SstConcatIterator.
Record t := mk {
  current_ : option SsTableIterator.t;
  next_sst_idx_ : nat;
  sstables_ : list SsTable.t }.

(** The default constructor. *)
Definition empty : t := mk None 0 [].

Section code.
Context `{!Zlib} `{!Snappy}.

Definition range_ok (sst : SsTable.t) : bool :=
  KeySlice.leb (SsTable.first_key sst) (SsTable.last_key sst).
(** The second loop of [check_sst_valid]. *)
Fixpoint disjoint_ok (ssts : list SsTable.t) : bool :=
  match ssts with
  | s1 :: ((s2 :: _) as ssts') =>
      KeySlice.ltb (SsTable.last_key s1) (SsTable.first_key s2) && disjoint_ok ssts'
  | _ => true
  end.
Definition check_sst_valid (ssts : list SsTable.t) : res unit :=
  cassert (forallb range_ok ssts) "first_key <= last_key";;
  cassert (disjoint_ok ssts) "last_key < next first_key".

(** One round of the loop of [move_until_valid]. *)
Definition move_step (it : t) : eff BlockCache.t (t + t) :=
  match current_ it with
  | None => mret (inr it)
  | Some c =>
      if SsTableIterator.is_valid_ c then mret (inr it)
      else match sstables_ it !! next_sst_idx_ it with
           | None => mret (inl (mk None (next_sst_idx_ it) (sstables_ it)))
           | Some sst =>
               c ← SsTableIterator.create_and_seek_to_first (Some sst);
               mret (inl (mk (Some c) (S (next_sst_idx_ it)) (sstables_ it)))
           end
  end.
Definition move_until_valid (it : t) : eff BlockCache.t t :=
  loop (2 + length (sstables_ it)) move_step it.

Definition create_and_seek_to_first (sstables : list SsTable.t) : eff BlockCache.t t :=
  lift (check_sst_valid sstables);;
  match sstables with
  | [] => mret (mk None 0 sstables)
  | sst :: _ =>
      c ← SsTableIterator.create_and_seek_to_first (Some sst);
      move_until_valid (mk (Some c) 1 sstables)
  end.

(** The number of leading tables that start at or before [key]. *)
Fixpoint partition_point (ssts : list SsTable.t) (key : bytes) : nat :=
  match ssts with
  | [] => 0
  | s :: ssts => if KeySlice.leb (SsTable.first_key s) key then S (partition_point ssts key) else 0
  end.

Definition create_and_seek_to_key (sstables : list SsTable.t) (key : bytes) : eff BlockCache.t t :=
  lift (check_sst_valid sstables);;
  let part := partition_point sstables key in
  let idx := if decide (0 < part) then part - 1 else 0 in
  match sstables !! idx with
  | None => mret (mk None (length sstables) sstables)
  | Some sst =>
      c ← SsTableIterator.create_and_seek_to_key (Some sst) key;
      move_until_valid (mk (Some c) (idx + 1) sstables)
  end.

Definition is_valid_ (it : t) : bool :=
  match current_ it with Some c => SsTableIterator.is_valid_ c | None => false end.

Definition next_ (it : t) : eff BlockCache.t t :=
  lift (cassert (is_valid_ it) "is_valid()");;
  c ← lift (deref (current_ it) "current_ is empty");
  c ← SsTableIterator.next_ c;
  move_until_valid (mk (Some c) (next_sst_idx_ it) (sstables_ it)).

#[global] Instance storage : StorageIterator BlockCache.t t := {
  key it := cassert (is_valid_ it) "is_valid()";;
            c ← deref (current_ it) "current_ is empty"; SsTableIterator.get_key c;
  value it := cassert (is_valid_ it) "is_valid()";;
              c ← deref (current_ it) "current_ is empty"; SsTableIterator.get_value c;
  is_valid := is_valid_;
  next := next_ }.
End code.
End SstConcatIterator.

(** ** Tables and the cache *)

(** The blocks of [t] as the cache may know them. *)
Definition cached (content : gmap (nat * nat) Block.t) (t : SsTable.t) (kvss : list (list kv)) : Prop :=
  SsTable.block_cache t = true →
  ∀ i kvs, kvss !! i = Some kvs → content !! (SsTable.id t, i) = Some (block_of kvs).

Section tables.
Context `{!Zlib} `{!Snappy} `{!Farmhash} (content : gmap (nat * nat) Block.t).
#[local] Abbreviation Inv := (BlockCacheSpec.cache_ok content).
Implicit Types (t : SsTable.t) (kvss : list (list kv)).

Lemma holds_num_blocks t kvss : holds t kvss → SsTable.num_blocks t = length kvss.
Proof.
  intros Ht. pose proof (holds_first_keys _ _ Ht) as E. apply (f_equal length) in E.
  by rewrite !length_fmap in E.
Qed.

Lemma read_block_cached_ok t kvss i kvs : holds t kvss → cached content t kvss →
  kvss !! i = Some kvs →
  SsTable.read_block_cached t i ⇓{Inv} λ r, r = Some (block_of kvs).
Proof.
  intros Ht Hc Hi. pose proof (holds_read _ _ Ht _ _ Hi) as Hr. unfold SsTable.read_block_cached.
  destruct (SsTable.block_cache t) eqn:Hb.
  - apply BlockCacheSpec.try_get_with_ok; [by apply Hc|by rewrite Hr].
  - by eapply wp_lift_ok; [by rewrite Hr|].
Qed.

Lemma mjoin_split kvss i kvs : kvss !! i = Some kvs →
  mjoin kvss = mjoin (take i kvss) ++ kvs ++ mjoin (drop (S i) kvss).
Proof. intros Hi. rewrite <-(take_drop_middle _ _ _ Hi) at 1. by rewrite join_app. Qed.

Lemma mjoin_drop kvss i kvs : kvss !! i = Some kvs → mjoin (drop i kvss) = kvs ++ mjoin (drop (S i) kvss).
Proof. intros Hi. by rewrite (drop_S _ _ _ Hi). Qed.

Lemma holds_block t kvss i kvs : holds t kvss → kvss !! i = Some kvs →
  block_wf kvs ∧ ksorted kvs ∧ kvs ≠ [].
Proof.
  intros [[_ Hne] Hwf Hs] Hi. rewrite (mjoin_split _ _ _ Hi) in Hs.
  apply ksorted_app in Hs as (_ & (? & _ & _)%ksorted_app & _).
  split_and!; [by eapply Forall_lookup_1 in Hwf|done|by eapply Forall_lookup_1 in Hne].
Qed.

Lemma ksorted_mjoin_cut kvss i kvs : ksorted (mjoin kvss) → kvss !! i = Some kvs → kvs ≠ [] →
  (∀ e, e ∈ mjoin (take i kvss) → key_lt e.1 (first_of kvs)) ∧
  (∀ e, e ∈ mjoin (drop i kvss) → key_le (first_of kvs) e.1).
Proof.
  intros Hs Hi Hne. destruct kvs as [|[k v] kvs]; [done|]. simpl.
  rewrite <-(take_drop i kvss), join_app, (mjoin_drop _ _ _ Hi) in Hs.
  apply ksorted_app in Hs as (_ & Hs & Hlt). split.
  - intros e He. apply Hlt; [by apply list_elem_of_fmap_2|]. simpl. set_solver.
  - rewrite (mjoin_drop _ _ _ Hi). simpl. intros e [->|He]%elem_of_cons; [simpl; key_order|].
    pose proof (ksorted_head_lt _ _ _ e.1 Hs ltac:(by apply list_elem_of_fmap_2)). key_order.
Qed.

(** [n] counts the leading lists that start at or before [key]. *)
Definition starts_before key kvss (n : nat) : Prop :=
  n ≤ length kvss ∧ (∀ j kvs, j < n → kvss !! j = Some kvs → key_le (first_of kvs) key) ∧
  (∀ kvs, kvss !! n = Some kvs → key_lt key (first_of kvs)).

(** The first keys of the blocks are in order. *)
Lemma first_keys_sorted kvss : Forall (λ kvs, kvs ≠ []) kvss → ksorted (mjoin kvss) → StronglySorted key_le (first_of <$> kvss).
Proof.
  intros Hne Hs. induction Hne as [|kvs kvss Hkvs Hne IH]; [constructor|]. rewrite fmap_cons.
  destruct (ksorted_mjoin_cut (kvs :: kvss) 0 kvs Hs eq_refl Hkvs) as [_ Hge]. simpl in Hge. constructor.
  - apply IH. simpl in Hs. by apply ksorted_app in Hs as (_ & ? & _).
  - apply Forall_fmap, Forall_forall. intros kvs' Hin. pose proof (proj1 (Forall_forall _ _) Hne kvs' Hin) as Hne'. simpl.
    destruct kvs' as [|[k v] kvs']; [done|]. apply (Hge (k, v)), elem_of_app. right. apply list_elem_of_join.
    exists ((k, v) :: kvs'). split; [by left|done].
Qed.

(** Where [find_block_idx] lands: nothing before the block can be in the
    range, everything after it is. *)
Lemma upper_bound_spec key (meta : list BlockMeta.t) kvss :
  BlockMeta.first_key <$> meta = first_of <$> kvss → StronglySorted key_le (first_of <$> kvss) →
  starts_before key kvss (SsTable.upper_bound key meta).
Proof.
  intros HE Hs. destruct (BlockSearch.upper_bound_cut key meta) as [Hn Hcut]; [by rewrite HE|].
  assert (length meta = length kvss) as Hlen by (apply (f_equal length) in HE; by rewrite !length_fmap in HE).
  assert (∀ i kvs, kvss !! i = Some kvs → key_le (first_of kvs) key ↔ i < SsTable.upper_bound key meta) as Hcut'.
  { intros i kvs Hi. destruct (lookup_lt_is_Some_2 meta i) as [m Hm]; [rewrite Hlen; by eapply lookup_lt_Some|].
    rewrite <-(Hcut i m Hm). apply (f_equal (λ l, l !! i)) in HE. rewrite !list_lookup_fmap, Hm, Hi in HE. injection HE as ->. done. }
  split_and!; [lia|intros j kvs Hj Hi; by apply (Hcut' j)|].
  intros kvs Hi. apply key_nle. intros Hle%(Hcut' _ _ Hi). lia.
Qed.

Lemma cut_filter kvss key n : Forall (λ kvs, kvs ≠ []) kvss → ksorted (mjoin kvss) →
  kvss ≠ [] → starts_before key kvss n →
  let i := if decide (0 < n) then n - 1 else 0 in
  ∃ kvs, kvss !! i = Some kvs ∧
    filter (λ e, key_le key e.1) (mjoin kvss) =
    filter (λ e, key_le key e.1) kvs ++ mjoin (drop (S i) kvss).
Proof.
  intros Hne Hs Hne0 (Hn & Hbefore & Hafter) i.
  assert (0 < length kvss) by (destruct kvss; simpl; [done|lia]).
  assert (i < length kvss) as [kvs Hi]%lookup_lt_is_Some_2 by (unfold i; case_decide; lia).
  exists kvs. split; [done|].
  pose proof (Forall_lookup_1 _ _ _ _ Hne Hi) as Hkvs. simpl in Hkvs.
  pose proof (ksorted_mjoin_cut _ _ _ Hs Hi Hkvs) as [Hcut _].
  rewrite (mjoin_split _ _ _ Hi), !filter_app.
  rewrite (filter_none _ (mjoin (take i kvss))); cycle 1.
  { apply Forall_forall. intros e He. pose proof (Hcut e He). unfold i in *.
    destruct (decide (0 < n)); [|by apply elem_of_nil in He].
    pose proof (Hbefore (n - 1) kvs ltac:(lia) Hi). key_order. }
  rewrite app_nil_l. f_equal. apply filter_all, Forall_forall. intros e He.
  destruct (kvss !! S i) as [kvs'|] eqn:Hi'; cycle 1.
  { apply lookup_ge_None_1 in Hi'. rewrite drop_ge in He by lia. by apply elem_of_nil in He. }
  pose proof (Forall_lookup_1 _ _ _ _ Hne Hi') as Hkvs'. simpl in Hkvs'.
  destruct (ksorted_mjoin_cut _ _ _ Hs Hi' Hkvs') as [Hcut' Hge]. apply Hge in He.
  assert (key_lt key (first_of kvs')); [|key_order]. unfold i in *.
  destruct (decide (0 < n)); [apply Hafter; by replace n with (S (n - 1)) by lia|].
  replace n with 0 in Hafter by lia. specialize (Hafter kvs Hi).
  destruct kvs as [|[k0 v0] kvs]; [done|]. simpl in Hafter.
  specialize (Hcut' (k0, v0)). rewrite (take_S_r _ _ _ Hi), join_app in Hcut'. simpl in Hcut'.
  transitivity k0; [done|]. apply Hcut'. set_solver.
Qed.

Lemma find_block_filter t kvss key : holds t kvss →
  ∃ kvs, kvss !! SsTable.find_block_idx t key = Some kvs ∧
    filter (λ e, key_le key e.1) (mjoin kvss) =
    filter (λ e, key_le key e.1) kvs ++ mjoin (drop (S (SsTable.find_block_idx t key)) kvss).
Proof.
  intros Ht. destruct (holds_nonempty _ _ Ht). apply cut_filter; [done|by apply (holds_sorted t)|done|].
  apply upper_bound_spec; [apply (holds_first_keys _ _ Ht)|apply first_keys_sorted; [done|by apply (holds_sorted t)]].
Qed.
End tables.

(** ** SsTableIterator *)
Module SsTableIteratorSpec.
Import SsTableIterator.

Section spec.
Context `{!Zlib} `{!Snappy} `{!Farmhash} (content : gmap (nat * nat) Block.t).
#[local] Abbreviation Inv := (BlockCacheSpec.cache_ok content).
Implicit Types (it : t) (tb : SsTable.t) (kvss : list (list kv)) (l : list kv).

Definition repr it l : Prop := ksorted l ∧ (
  (∃ tb kvss li, table_ it = Some tb ∧ holds tb kvss ∧ cached content tb kvss ∧
     BlockIteratorSpec.repr (blk_iter_ it) li ∧ (li = [] → l = []) ∧
     l = li ++ mjoin (drop (S (blk_idx_ it)) kvss)) ∨
  (l = [] ∧ is_valid_ it = false)).

Lemma holds_suffix tb kvss i : holds tb kvss → ksorted (mjoin (drop i kvss)).
Proof.
  intros Hs%holds_sorted. rewrite <-(take_drop i kvss), join_app in Hs. by apply ksorted_app in Hs as (_ & ? & _).
Qed.

Lemma load_block_spec tb kvss i kvs : holds tb kvss → cached content tb kvss →
  kvss !! i = Some kvs →
  load_block tb i ⇓{Inv} λ b, BlockIteratorSpec.repr b kvs.
Proof.
  intros Ht Hc Hi. destruct (holds_block _ _ _ _ Ht Hi) as (Hwf & Hs & _).
  eapply wp_bind; [by eapply read_block_cached_ok|]. intros ? ->.
  apply wp_lift. by apply BlockIteratorSpec.seek_to_first_repr.
Qed.

Lemma blk_valid (b : BlockIterator.t) li : BlockIteratorSpec.repr b li →
  BlockIterator.is_valid_ b = negb (bool_decide (li = [])).
Proof.
  intros Hb. destruct li as [|[k v] li].
  - by apply BlockIteratorSpec.block_iterator_repr_nil.
  - by apply BlockIteratorSpec.block_iterator_repr_cons in Hb as (_ & _ & -> & _).
Qed.

Lemma no_block_spec it tb kvss i : table_ it = Some tb → holds tb kvss →
  no_block it i = bool_decide (length kvss ≤ i).
Proof. intros Htb Ht. unfold no_block. by rewrite Htb, (holds_num_blocks _ _ Ht). Qed.

Lemma seek_to_idx_spec it tb kvss i kvs : table_ it = Some tb → holds tb kvss →
  cached content tb kvss → kvss !! i = Some kvs →
  seek_to_idx it i ⇓{Inv} λ it', repr it' (mjoin (drop i kvss)).
Proof.
  intros Htb Ht Hc Hi. pose proof (lookup_lt_Some _ _ _ Hi).
  unfold seek_to_idx. rewrite (no_block_spec _ _ _ _ Htb Ht), bool_decide_false, Htb by lia.
  eapply wp_bind_ok; [done|]. eapply wp_bind; [by eapply load_block_spec|]. intros b Hb.
  apply wp_ret. split; [by eapply holds_suffix|]. left.
  exists tb, kvss, kvs. split_and!; [done..| |by apply mjoin_drop].
  intros ->. by destruct (holds_block _ _ _ _ Ht Hi) as (_ & _ & []).
Qed.

Lemma sst_iterator_seek_to_first_spec tb kvss : holds tb kvss → cached content tb kvss →
  create_and_seek_to_first (Some tb) ⇓{Inv} λ it, repr it (mjoin kvss).
Proof.
  intros Ht Hc. destruct (holds_nonempty _ _ Ht) as [Hne _].
  destruct (kvss !! 0) as [kvs|] eqn:Hk0; [|by destruct kvss].
  pose proof (lookup_lt_Some _ _ _ Hk0). unfold create_and_seek_to_first, seek_to_first.
  rewrite (no_block_spec (mk (Some tb) BlockIterator.empty 0) tb kvss 0 eq_refl Ht), bool_decide_false by lia.
  eapply wp_bind_ok; [done|]. eapply wp_bind; [by eapply load_block_spec|]. intros b Hb.
  apply wp_ret. split; [by apply (holds_suffix tb kvss 0)|]. left.
  exists tb, kvss, kvs. split_and!; [done..| |by rewrite <-(mjoin_drop _ 0)].
  intros ->. by destruct (holds_block _ _ _ _ Ht Hk0) as (_ & _ & []).
Qed.

Lemma sst_iterator_seek_to_key_spec tb kvss key : holds tb kvss → cached content tb kvss →
  create_and_seek_to_key (Some tb) key ⇓{Inv} λ it,
    repr it (filter (λ e, key_le key e.1) (mjoin kvss)).
Proof.
  intros Ht Hc. destruct (find_block_filter _ _ key Ht) as (kvs & Hi & Hfilter).
  pose proof (ksorted_filter (λ e, key_le key e.1) _ (holds_sorted _ _ Ht)) as Hsf.
  rewrite Hfilter in *. clear Hfilter.
  set (i := SsTable.find_block_idx tb key) in *. pose proof (lookup_lt_Some _ _ _ Hi).
  destruct (holds_block _ _ _ _ Ht Hi) as (Hwf & Hs & Hne).
  unfold create_and_seek_to_key, seek_to_key.
  rewrite (no_block_spec (mk (Some tb) BlockIterator.empty 0) tb kvss 0 eq_refl Ht), bool_decide_false by lia.
  eapply wp_bind_ok; [done|]. cbv zeta. fold i.
  eapply wp_bind; [by eapply read_block_cached_ok|]. intros ? ->.
  eapply wp_bind; [apply wp_lift; by apply BlockIteratorSpec.seek_to_key_repr|].
  intros b Hb. rewrite (blk_valid _ _ Hb), negb_involutive, (holds_num_blocks _ _ Ht).
  case_bool_decide as Hnil; cycle 1.
  { apply wp_ret. split; [done|]. left. exists tb, kvss, (filter (λ e, key_le key e.1) kvs).
    by split_and!. }
  rewrite Hnil in *. rewrite app_nil_l in *. destruct (decide (S i < length kvss)) as [Hlt|Hge].
  - apply lookup_lt_is_Some_2 in Hlt as [kvs' Hi'].
    eapply wp_bind; [by eapply load_block_spec|]. intros b' Hb'.
    apply wp_ret. split; [done|]. left. exists tb, kvss, kvs'. split_and!; [done..| |by apply mjoin_drop].
    intros ->. by destruct (holds_block _ _ _ _ Ht Hi') as (_ & _ & []).
  - apply wp_ret. split; [done|]. left. exists tb, kvss, [].
    rewrite !drop_ge by (simpl; lia). by split_and!.
Qed.

Lemma sst_iterator_repr_cases it e l : repr it (e :: l) → ∃ tb kvss li,
  table_ it = Some tb ∧ holds tb kvss ∧ cached content tb kvss ∧
  BlockIteratorSpec.repr (blk_iter_ it) (e :: li) ∧
  l = li ++ mjoin (drop (S (blk_idx_ it)) kvss).
Proof.
  intros [Hs [(tb & kvss & li & Htb & Ht & Hc & Hb & Hne & Hl)|[[=] _]]].
  destruct li as [|e' li]; [by specialize (Hne eq_refl)|].
  injection Hl as <- ->. by exists tb, kvss, li.
Qed.

Lemma sst_iterator_next_spec it e l : repr it (e :: l) → next_ it ⇓{Inv} λ it', repr it' l.
Proof.
  intros Hr. pose proof Hr as [[Hs _]%ksorted_cons _].
  apply sst_iterator_repr_cases in Hr as (tb & kvss & li & Htb & Ht & Hc & Hb & ->). destruct e as [k v].
  apply BlockIteratorSpec.block_iterator_repr_cons in Hb as (_ & _ & _ & Hnext). unfold next_.
  eapply wp_bind; [by apply wp_lift|]. intros b Hb. cbv zeta.
  rewrite (blk_valid _ _ Hb), negb_involutive. cbn [blk_iter_ blk_idx_ table_].
  case_bool_decide as Hnil; cycle 1.
  { apply wp_ret. split; [done|]. left. eexists tb, kvss, li. by split_and!. }
  subst li. rewrite Htb. eapply wp_bind_ok; [done|].
  rewrite (holds_num_blocks _ _ Ht). destruct (decide _) as [Hlt|Hge].
  - apply lookup_lt_is_Some_2 in Hlt as [kvs' Hi']. by eapply seek_to_idx_spec.
  - apply wp_ret. split; [done|]. left. exists tb, kvss, []. simpl. rewrite !drop_ge by lia. by split_and!.
Qed.

Lemma sst_iterator_repr_current it k v l : repr it ((k, v) :: l) →
  is_valid_ it = true ∧ get_key it = Ok k ∧ get_value it = Ok v.
Proof.
  intros (tb & kvss & li & _ & _ & _ & Hb & _)%sst_iterator_repr_cases.
  apply BlockIteratorSpec.block_iterator_repr_cons in Hb as (Hk & Hv & Hval & _).
  unfold get_key, get_value, is_valid_. by rewrite Hval, Hk, Hv.
Qed.

Lemma sst_iterator_repr_nil it : repr it [] → is_valid_ it = false.
Proof.
  intros [_ [(tb & kvss & li & _ & _ & _ & Hb & _ & Hl)|[_ ?]]]; [|done].
  symmetry in Hl. apply app_eq_nil in Hl as [-> _]. by apply BlockIteratorSpec.block_iterator_repr_nil.
Qed.

#[global] Instance spec : IteratorSpec BlockCache.t t Inv.
Proof.
  exists repr.
  - by intros it l [? _].
  - apply sst_iterator_repr_nil.
  - by intros it [k v] l (? & _ & _)%sst_iterator_repr_current.
  - by intros it k v l (_ & ? & _)%sst_iterator_repr_current.
  - by intros it k v l (_ & _ & ?)%sst_iterator_repr_current.
  - apply sst_iterator_next_spec.
Defined.
End spec.
End SsTableIteratorSpec.

(** ** SstConcatIterator *)
Module SstConcatIteratorSpec.
Import SstConcatIterator.

Section spec.
Context `{!Zlib} `{!Snappy} `{!Farmhash} (content : gmap (nat * nat) Block.t).
#[local] Abbreviation Inv := (BlockCacheSpec.cache_ok content).
Implicit Types (it : t) (ssts : list SsTable.t) (l : list kv).

(** A sorted run: each table with the entries it holds, in key order. *)
Definition run ssts (ls : list (list kv)) : Prop :=
  Forall2 (λ sst l, ∃ kvss, holds sst kvss ∧ cached content sst kvss ∧ l = mjoin kvss) ssts ls ∧
  ksorted (mjoin ls).

Definition repr it l : Prop := ksorted l ∧
  ∃ ls, run (sstables_ it) ls ∧
  match current_ it with
  | Some c => ∃ lc, SsTableIteratorSpec.repr content c lc ∧ lc ≠ [] ∧
      l = lc ++ mjoin (drop (next_sst_idx_ it) ls)
  | None => l = []
  end.

Lemma run_lookup ssts ls i l : run ssts ls → ls !! i = Some l →
  ∃ sst kvss, ssts !! i = Some sst ∧ holds sst kvss ∧ cached content sst kvss ∧ l = mjoin kvss.
Proof.
  intros [Hf _] Hi. destruct (Forall2_lookup_r _ _ _ _ _ Hf Hi) as (sst & Hsst & kvss & ?).
  exists sst, kvss. naive_solver.
Qed.

Lemma run_length ssts ls : run ssts ls → length ssts = length ls.
Proof. intros [Hf _]. by eapply Forall2_length. Qed.

Lemma holds_mjoin_nonempty sst kvss : holds sst kvss → mjoin kvss ≠ [].
Proof.
  intros [[Hne Hall] _ _ _ _ _ _ _]. destruct kvss as [|kvs kvss]; [done|].
  apply Forall_cons in Hall as [? _]. simpl. by destruct kvs.
Qed.

Lemma run_nonempty ssts ls i l : run ssts ls → ls !! i = Some l → l ≠ [].
Proof.
  intros Hr Hi. destruct (run_lookup _ _ _ _ Hr Hi) as (sst & kvss & _ & Ht & _ & ->).
  by eapply holds_mjoin_nonempty.
Qed.

Lemma move_spec it c lc ls l : current_ it = Some c → SsTableIteratorSpec.repr content c lc →
  run (sstables_ it) ls → l = lc ++ mjoin (drop (next_sst_idx_ it) ls) → ksorted l →
  move_until_valid it ⇓{Inv} λ it', repr it' l.
Proof.
  intros Hc Hlc Hrun -> Hs. unfold move_until_valid. apply wp_loop_step.
  unfold move_step. rewrite Hc. destruct lc as [|[k v] lc]; cycle 1.
  { destruct (SsTableIteratorSpec.sst_iterator_repr_current _ _ _ _ _ Hlc) as (-> & _).
    apply wp_ret. split; [done|]. exists ls. rewrite Hc. eauto. }
  rewrite (SsTableIteratorSpec.sst_iterator_repr_nil _ _ Hlc). simpl app in *.
  destruct (sstables_ it !! next_sst_idx_ it) as [sst|] eqn:Hi.
  - destruct (lookup_lt_is_Some_2 ls (next_sst_idx_ it)) as [l' Hl'].
    { rewrite <-(run_length _ _ Hrun). by eapply lookup_lt_Some. }
    destruct (run_lookup _ _ _ _ Hrun Hl') as (? & kvss & Hi' & Ht & Hcached & ->). simplify_eq.
    eapply wp_bind; [by eapply SsTableIteratorSpec.sst_iterator_seek_to_first_spec|]. intros c' Hc'.
    apply wp_ret, wp_loop_step. cbn [current_].
    pose proof (holds_mjoin_nonempty _ _ Ht) as Hne. rewrite (drop_S _ _ _ Hl') in *.
    destruct (mjoin kvss) as [|[k v] lc] eqn:E; [done|].
    destruct (SsTableIteratorSpec.sst_iterator_repr_current _ _ _ _ _ Hc') as (-> & _).
    apply wp_ret. split; [done|]. exists ls. split; [done|].
    cbn [current_]. by exists ((k, v) :: lc).
  - apply wp_ret, wp_loop_step. cbn [current_].
    apply wp_ret. split; [done|]. exists ls. split; [done|]. cbn [current_].
    apply lookup_ge_None_1 in Hi. rewrite (run_length _ _ Hrun) in Hi. by rewrite drop_ge.
Qed.

Lemma concat_iterator_next_spec it e l : repr it (e :: l) → next_ it ⇓{Inv} λ it', repr it' l.
Proof.
  intros [Hs (ls & Hrun & Hcur)]. unfold next_, is_valid_.
  destruct (current_ it) as [c|] eqn:Hc; [|done].
  destruct Hcur as (lc & Hlc & Hne & Hl). destruct lc as [|e' lc]; [done|]. injection Hl as <- ->.
  destruct e as [k v]. destruct (SsTableIteratorSpec.sst_iterator_repr_current _ _ _ _ _ Hlc) as (-> & _).
  do 2 (eapply wp_bind_ok; [done|]).
  eapply wp_bind; [by eapply SsTableIteratorSpec.sst_iterator_next_spec|]. intros c' Hc'.
  eapply move_spec; [done|exact Hc'|exact Hrun|done|]. by apply ksorted_cons in Hs as [].
Qed.

Lemma concat_iterator_repr_current it k v l : repr it ((k, v) :: l) → ∃ c, current_ it = Some c ∧
  SsTableIterator.is_valid_ c = true ∧ SsTableIterator.get_key c = Ok k ∧
  SsTableIterator.get_value c = Ok v.
Proof.
  intros [_ (ls & _ & Hcur)]. destruct (current_ it) as [c|]; [|done].
  destruct Hcur as (lc & Hlc & Hne & Hl). destruct lc as [|e' lc]; [done|]. injection Hl as <- ->.
  exists c. split; [done|]. by eapply SsTableIteratorSpec.sst_iterator_repr_current.
Qed.

#[global] Instance spec : IteratorSpec BlockCache.t t Inv.
Proof.
  exists repr.
  - by intros it l [? _].
  - intros it [_ (ls & _ & Hcur)]. simpl. unfold is_valid_. destruct (current_ it) as [c|]; [|done].
    destruct Hcur as ([|??] & _ & ? & ?); done.
  - intros it [k v] l (c & Hc & Hv & _)%concat_iterator_repr_current. simpl. unfold is_valid_. by rewrite Hc.
  - intros it k v l (c & Hc & Hv & Hk & _)%concat_iterator_repr_current. simpl. unfold is_valid_. rewrite Hc, Hv.
    by rewrite <-Hk.
  - intros it k v l (c & Hc & Hv & _ & Hval)%concat_iterator_repr_current. simpl. unfold is_valid_. rewrite Hc, Hv.
    by rewrite <-Hval.
  - apply concat_iterator_next_spec.
Defined.

(** *** The checks pass on a sorted run *)
Lemma last_of_elem (l : list kv) : l ≠ [] → last_of l ∈ l.*1.
Proof.
  intros Hne. unfold last_of. destruct (last l) as [e|] eqn:E; [|by apply last_None in E].
  apply last_Some in E as [l' ->]. rewrite fmap_app. set_solver.
Qed.
Lemma first_of_elem (l : list kv) : l ≠ [] → first_of l ∈ l.*1.
Proof. destruct l as [|[k v] l]; [done|]. set_solver. Qed.

Lemma run_cons sst ssts l ls : run (sst :: ssts) (l :: ls) →
  run ssts ls ∧ ∃ kvss, holds sst kvss ∧ cached content sst kvss ∧ l = mjoin kvss.
Proof.
  intros [[Hsst Hf]%Forall2_cons Hs]. split; [|done]. split; [done|].
  simpl in Hs. by apply ksorted_app in Hs as (_ & ? & _).
Qed.

Lemma check_ok ssts ls : run ssts ls → check_sst_valid ssts = Ok tt.
Proof.
  intros Hrun. unfold check_sst_valid.
  rewrite cassert_bind, cassert_true; [done|..].
  - revert ls Hrun; induction ssts as [|s1 ssts IH]; intros [|l1 ls] Hrun; try done.
    { by destruct Hrun as [Hf%Forall2_length _]. }
    pose proof Hrun as [_ Hs]. apply run_cons in Hrun as [Hrun (kvss & Ht & _ & ->)].
    specialize (IH _ Hrun). destruct ssts as [|s2 ssts]; [done|].
    destruct ls as [|l2 ls]; [by destruct Hrun as [Hf%Forall2_length _]|].
    apply run_cons in Hrun as [_ (kvss2 & Ht2 & _ & ->)]. simpl. simpl in IH. rewrite IH, andb_true_r.
    rewrite ltb_spec. apply bool_decide_true. rewrite (holds_last _ _ Ht), (holds_first _ _ Ht2).
    simpl in Hs. apply ksorted_app in Hs as (_ & _ & Hlt). apply Hlt.
    + by eapply last_of_elem, holds_mjoin_nonempty.
    + rewrite fmap_app, elem_of_app. left. by eapply first_of_elem, holds_mjoin_nonempty.
  - apply forallb_forall. intros sst (i & Hi)%list_elem_of_In%list_elem_of_lookup.
    destruct (lookup_lt_is_Some_2 ls i) as [l Hl].
    { rewrite <-(run_length _ _ Hrun). by eapply lookup_lt_Some. }
    destruct (run_lookup _ _ _ _ Hrun Hl) as (? & kvss & ? & Ht & _ & ->). simplify_eq.
    unfold range_ok. rewrite leb_spec. apply bool_decide_true.
    rewrite (holds_last _ _ Ht), (holds_first _ _ Ht).
    pose proof (holds_mjoin_nonempty _ _ Ht) as Hne. pose proof (holds_sorted _ _ Ht) as Hs.
    pose proof (last_of_elem _ Hne) as Hlast.
    destruct (mjoin kvss) as [|[k v] l]; [done|]. simpl.
    rewrite fmap_cons, elem_of_cons in Hlast. destruct Hlast as [->|Hlast]; [simpl; key_order|].
    pose proof (ksorted_head_lt _ _ _ _ Hs Hlast). key_order.
Qed.

Lemma concat_iterator_seek_to_first_spec ssts ls : run ssts ls →
  create_and_seek_to_first ssts ⇓{Inv} λ it, repr it (mjoin ls).
Proof.
  intros Hrun. unfold create_and_seek_to_first. eapply wp_bind_ok; [by eapply check_ok|].
  pose proof Hrun as [_ Hs]. destruct ssts as [|sst ssts].
  - apply wp_ret. split; [done|]. exists ls. split; [done|].
    destruct ls; [done|]. by destruct Hrun as [Hf%Forall2_length _].
  - destruct ls as [|l ls]; [by destruct Hrun as [Hf%Forall2_length _]|].
    pose proof Hrun as [_ (kvss & Ht & Hc & ->)]%run_cons.
    eapply wp_bind; [by eapply SsTableIteratorSpec.sst_iterator_seek_to_first_spec|]. intros c Hc'.
    eapply move_spec; [done|exact Hc'|exact Hrun|done|done].
Qed.

Lemma partition_point_spec ssts ls key : run ssts ls →
  starts_before key ls (partition_point ssts key).
Proof.
  revert ls; induction ssts as [|sst ssts IH]; intros [|l ls] Hrun;
    try by destruct Hrun as [Hf%Forall2_length _].
  apply run_cons in Hrun as [Hrun (kvss & Ht & _ & ->)]. simpl.
  rewrite leb_spec, (holds_first _ _ Ht).
  destruct (decide (key_le (first_of (mjoin kvss)) key)) as [Hle|Hgt].
  - rewrite bool_decide_true by done. destruct (IH _ Hrun) as (Hn & Hbefore & Hafter).
    split_and!; [simpl; lia| |done]. intros [|j] l Hj Hl; simplify_eq/=; [done|].
    apply (Hbefore j); [lia|done].
  - rewrite bool_decide_false by done. split_and!; [lia|intros; lia|].
    intros l [= <-]. by apply key_nle.
Qed.

Lemma run_all_nonempty ssts ls : run ssts ls → Forall (λ l, l ≠ []) ls.
Proof. intros Hrun. apply Forall_lookup. intros i l Hi. by eapply run_nonempty. Qed.

Lemma concat_iterator_seek_to_key_spec ssts ls key : run ssts ls →
  create_and_seek_to_key ssts key ⇓{Inv} λ it, repr it (filter (λ e, key_le key e.1) (mjoin ls)).
Proof.
  intros Hrun. unfold create_and_seek_to_key. eapply wp_bind_ok; [by eapply check_ok|]. cbv zeta.
  pose proof Hrun as [_ Hs]. destruct (decide (ls = [])) as [->|Hne].
  { destruct ssts; [|by destruct Hrun as [Hf%Forall2_length _]].
    apply wp_ret. split; [done|]. by exists []. }
  pose proof (ksorted_filter (λ e, key_le key e.1) _ Hs) as Hsf.
  destruct (cut_filter _ _ _ (run_all_nonempty _ _ Hrun) Hs Hne (partition_point_spec _ _ key Hrun))
    as (l & Hl & Hfilter). rewrite Hfilter in *. set (i := if decide _ then _ else _) in *.
  destruct (run_lookup _ _ _ _ Hrun Hl) as (sst & kvss & -> & Ht & Hc & ->).
  eapply wp_bind; [by eapply SsTableIteratorSpec.sst_iterator_seek_to_key_spec|]. intros c Hc'.
  eapply move_spec; [done|exact Hc'|exact Hrun|by rewrite Nat.add_1_r|done].
Qed.
End spec.
End SstConcatIteratorSpec.

(** ** Reading a table from a given cache *)
Section read.
Context `{!Zlib} `{!Snappy} `{!Farmhash}.

(** A scan of a whole table, and from a key on, collecting what it yields. *)
Definition read_all (n : nat) (t : SsTable.t) : eff BlockCache.t (list kv) :=
  it ← SsTableIterator.create_and_seek_to_first (Some t); collect n it.
Definition read_from (n : nat) (t : SsTable.t) (key : bytes) : eff BlockCache.t (list kv) :=
  it ← SsTableIterator.create_and_seek_to_key (Some t) key; collect n it.

Lemma collect_table content it l n : SsTableIteratorSpec.repr content it l → length l < n →
  collect n it ⇓{BlockCacheSpec.cache_ok content} λ r, r = l.
Proof.
  intros Hit Hn. assert (denotes (Inv:=BlockCacheSpec.cache_ok content) it l) as Hd by exact Hit.
  by apply collect_denotes.
Qed.

(** The blocks of one table, as a cache content. *)
Definition content_of (t : SsTable.t) (kvss : list (list kv)) : gmap (nat * nat) Block.t :=
  list_to_map (imap (λ i kvs, ((SsTable.id t, i), block_of kvs)) kvss).

Lemma cached_content_of t kvss : cached (content_of t kvss) t kvss.
Proof.
  intros _ i kvs Hi. apply elem_of_list_to_map_1.
  - assert ((imap (λ i kvs, ((SsTable.id t, i), block_of kvs)) kvss).*1 =
      (λ i, (SsTable.id t, i)) <$> seq 0 (length kvss)) as ->.
    { apply list_eq. intros j. rewrite !list_lookup_fmap, list_lookup_imap.
      destruct (kvss !! j) as [kvs'|] eqn:E; simpl.
      - by rewrite lookup_seq_lt by (by eapply lookup_lt_Some).
      - by rewrite lookup_seq_ge by (by apply lookup_ge_None_1). }
    apply NoDup_fmap; [intros ?? [=]; done|apply NoDup_seq].
  - apply list_elem_of_lookup. exists i. by rewrite list_lookup_imap, Hi.
Qed.

Lemma read_all_spec content t kvss n : holds t kvss → cached content t kvss → length (mjoin kvss) < n →
  read_all n t ⇓{BlockCacheSpec.cache_ok content} λ r, r = mjoin kvss.
Proof.
  intros Ht Hc Hn. eapply wp_bind; [by eapply SsTableIteratorSpec.sst_iterator_seek_to_first_spec|].
  intros it Hit. by eapply collect_table.
Qed.

Lemma read_from_spec content t kvss key n : holds t kvss → cached content t kvss → length (mjoin kvss) < n →
  read_from n t key ⇓{BlockCacheSpec.cache_ok content} λ r, r = filter (λ e, key_le key e.1) (mjoin kvss).
Proof.
  intros Ht Hc Hn. eapply wp_bind; [by eapply SsTableIteratorSpec.sst_iterator_seek_to_key_spec|].
  intros it Hit. eapply collect_table; [done|].
  pose proof (length_filter (λ e : kv, key_le key e.1) (mjoin kvss)). lia.
Qed.

Lemma create_cache_ok content cap : BlockCacheSpec.cache_ok content (BlockCache.create cap).
Proof. split; [apply BlockCacheSpec.create_wf|]. intros k b Hin. by apply elem_of_nil in Hin. Qed.
End read.
