(* ===== verification/Wal.v ===== *)
(** * The write-ahead log: include/mini_lsm/wal.h, src/wal.cpp

    A log file is a sequence of frames: key length, key, value length, value and
    a checksum of the four.  [fp_] is a stdio stream: what was written to it and
    has not reached the file yet is its buffer.  [recover] reads a file of any
    contents, keeps the frames up to the first one that is incomplete or whose
    checksum differs, and truncates the file behind them. *)
From S2P Require Import Prelude Endian Key Iterators Table.

(** [std::variant<A, std::string>]: a result or an error message. *)
Abbreviation fallible A := (A + string)%type.

(** ** Definitions *)
Module Wal.
Record t := mk { path_ : string; fp_ : option bytes }.

(** [fopen(path, "wb+")] *)
Definition create (path : string) : eff Fs.t (fallible t) := λ fs,
  Ok (<[path := []]> fs, inl (mk path (Some []))).

Section code.
Context `{!Zlib}.

(** The bytes [put] and one round of [put_batch] append. *)
Definition frame (key value : bytes) : bytes :=
  let frame := put_u16_be [] (u16 (Z.of_nat (length key))) in
  let frame := frame ++ key in
  let frame := put_u16_be frame (u16 (Z.of_nat (length value))) in
  let frame := frame ++ value in
  put_u32_be frame (crc32_hash frame).

Definition put (w : t) (key value : bytes) : t * fallible unit :=
  match fp_ w with
  | None => (w, inr "WAL file pointer is null"%string)
  | Some buf => (mk (path_ w) (Some (buf ++ frame key value)), inl tt)
  end.

Definition put_batch (w : t) (batch : list kv) : t * fallible unit :=
  match fp_ w with
  | None => (w, inr "WAL file pointer is null"%string)
  | Some buf =>
      let buffer := foldl (λ b e, b ++ frame e.1 e.2) [] batch in
      (mk (path_ w) (Some (buf ++ buffer)), inl tt)
  end.

(** [fflush]: the buffer reaches the file. *)
Definition fflush (path : string) (buf : bytes) (fs : Fs.t) : Fs.t :=
  <[path := default [] (fs !! path) ++ buf]> fs.

Definition sync (w : t) : eff Fs.t (t * fallible unit) := λ fs,
  match fp_ w with
  | None => Ok (fs, (w, inr "WAL file pointer is null"%string))
  | Some buf => Ok (fflush (path_ w) buf fs, (mk (path_ w) (Some []), inl tt))
  end.

(** The destructor. *)
Definition close (w : t) (fs : Fs.t) : Fs.t :=
  match fp_ w with Some buf => fflush (path_ w) buf fs | None => fs end.

(** One round of the recovery loop, on the position and the records so far. *)
Definition recover_step (buf : bytes) (s : nat * list kv) : res (nat * list kv + nat * list kv) :=
  let '(pos, records) := s in
  if decide (pos < length buf) then
    if decide (length buf - pos < 2) then mret (inr s) else
    key_len ← Z.to_nat <$> read_u16_be buf pos;
    if decide (length buf - pos < 2 + key_len + 2) then mret (inr s) else
    val_len ← Z.to_nat <$> read_u16_be buf (pos + 2 + key_len);
    let frame_content_len := 2 + key_len + 2 + val_len in
    if decide (length buf - pos < frame_content_len + 4) then mret (inr s) else
    let computed_crc := crc32_hash (slice pos frame_content_len buf) in
    expected_crc ← read_u32_be buf (pos + frame_content_len);
    if decide (computed_crc ≠ expected_crc) then mret (inr s) else
    key ← KeyVec.from_slice buf (pos + 2) key_len;
    val ← KeyVec.from_slice buf (pos + 2 + key_len + 2) val_len;
    mret (inl (pos + (frame_content_len + 4), records ++ [(key, val)]))
  else mret (inr s).

(** A round advances by at least eight bytes, so the fuel is never the end. *)
Definition recover_loop (buf : bytes) : res (nat * list kv) :=
  loopR (S (length buf)) (recover_step buf) (0, []).

Definition recover (path : string) : eff Fs.t (fallible t * list kv) := λ fs,
  match fs !! path with
  | None => '(fs, w) ← create path fs; Ok (fs, (w, []))
  | Some buf =>
      '(pos, records) ← recover_loop buf;
      let fs := if decide (pos ≠ length buf) then <[path := take pos buf]> fs else fs in
      Ok (fs, (inl (mk path (Some [])), records))
  end.
End code.
End Wal.

(** ** Frames *)
Module WalSpec.
Import Wal.

Section spec.
Context `{!Zlib}.
Implicit Types (rs : list kv) (k v buf : bytes).

(** Records whose lengths the 16-bit fields can hold. *)
Definition record_ok (e : kv) : Prop :=
  (Z.of_nat (length e.1) < 65536)%Z ∧ (Z.of_nat (length e.2) < 65536)%Z.

Definition content k v : bytes :=
  be_bytes 2 (u16 (Z.of_nat (length k))) ++ k ++ be_bytes 2 (u16 (Z.of_nat (length v))) ++ v.
Definition frames rs : bytes := concat ((λ e, frame e.1 e.2) <$> rs).

Lemma frame_eq k v : frame k v = content k v ++ be_bytes 4 (crc32_hash (content k v)).
Proof.
  unfold frame. cbv zeta. autorewrite with lsm. rewrite app_nil_l, <-!(assoc_L (++)).
  unfold content. by rewrite <-!(assoc_L (++)).
Qed.

Lemma length_content k v : length (content k v) = 2 + length k + 2 + length v.
Proof. unfold content. rewrite !length_app, !length_be_bytes. lia. Qed.

Lemma length_frame k v : length (frame k v) = 2 + length k + 2 + length v + 4.
Proof. rewrite frame_eq, length_app, length_content, length_be_bytes. lia. Qed.

Lemma frames_app rs1 rs2 : frames (rs1 ++ rs2) = frames rs1 ++ frames rs2.
Proof. unfold frames. by rewrite fmap_app, concat_app. Qed.
Lemma frames_cons e rs : frames (e :: rs) = frame e.1 e.2 ++ frames rs.
Proof. done. Qed.
Lemma frames_snoc rs e : frames (rs ++ [e]) = frames rs ++ frame e.1 e.2.
Proof. rewrite frames_app, frames_cons. unfold frames at 2. simpl. by rewrite app_nil_r. Qed.

Lemma put_batch_frames w buf batch : fp_ w = Some buf →
  put_batch w batch = (mk (path_ w) (Some (buf ++ frames batch)), inl tt).
Proof.
  intros Hw. unfold put_batch. rewrite Hw. do 3 f_equal. f_equal.
  assert (∀ b, foldl (λ b e, b ++ frame e.1 e.2) b batch = b ++ frames batch) as E.
  { clear. induction batch as [|e batch IH]; intros b; simpl; [by rewrite app_nil_r|].
    rewrite IH, frames_cons. by rewrite (assoc_L (++)). }
  apply E.
Qed.

(** The lengths [recover_step] reads in a buffer that continues with (part
    of) a frame. *)
Lemma read_key_len buf pre k rest pos :
  buf = pre ++ be_bytes 2 (u16 (Z.of_nat (length k))) ++ rest → pos = length pre →
  (Z.of_nat (length k) < 65536)%Z →
  Z.to_nat <$> read_u16_be buf pos = Ok (length k).
Proof.
  intros Hb Hp Hk. rewrite (read_u16_be_at _ _ _ _ _ Hb Hp), u16_u16, u16_small by lia.
  cbn. by rewrite Nat2Z.id.
Qed.

Lemma step_frame buf pre k v post records :
  buf = pre ++ frame k v ++ post → record_ok (k, v) →
  recover_step buf (length pre, records) =
    Ok (inl (length (pre ++ frame k v), records ++ [(k, v)])).
Proof.
  intros Hbuf [Hk Hv]. simpl in Hk, Hv. unfold recover_step.
  assert (length buf = length pre + length (frame k v) + length post) as Hlen.
  { rewrite Hbuf, !length_app. lia. }
  rewrite length_frame in Hlen. rewrite decide_True by lia. rewrite decide_False by lia.
  set (c := be_bytes 4 (crc32_hash (content k v))).
  set (lk := be_bytes 2 (u16 (Z.of_nat (length k)))). set (lv := be_bytes 2 (u16 (Z.of_nat (length v)))).
  assert (length lk = 2 ∧ length lv = 2) as [Hlk Hlv] by (split; apply length_be_bytes).
  assert (buf = pre ++ lk ++ k ++ lv ++ v ++ c ++ post) as Hb.
  { rewrite Hbuf, frame_eq. unfold content. by rewrite <-!(assoc_L (++)). }
  rewrite (bind_ok _ (length k)) by (by eapply read_key_len).
  rewrite decide_False by lia.
  rewrite (bind_ok _ (length v)); cycle 1.
  { apply (read_key_len _ (pre ++ lk ++ k) _ (v ++ c ++ post)); [|rewrite !length_app; lia|done].
    by rewrite Hb, <-!(assoc_L (++)). }
  cbv zeta. rewrite decide_False by lia.
  erewrite (slice_at buf pre (content k v) (c ++ post)); cycle 1.
  { rewrite Hbuf, frame_eq. by rewrite <-!(assoc_L (++)). } { done. } { by rewrite length_content. }
  rewrite (bind_ok _ (crc32_hash (content k v))); cycle 1.
  { rewrite (read_u32_be_at _ (pre ++ content k v) (crc32_hash (content k v)) post);
      [by rewrite crc32_hash_u32| |by rewrite length_app, length_content].
    rewrite Hbuf, frame_eq. by rewrite <-!(assoc_L (++)). }
  rewrite decide_False by (by intros []).
  rewrite (bind_ok _ k); cycle 1.
  { apply (BlockMetaSpec.from_slice_at _ (pre ++ lk) _ (lv ++ v ++ c ++ post)); [|rewrite length_app; lia|done].
    by rewrite Hb, <-!(assoc_L (++)). }
  rewrite (bind_ok _ v); cycle 1.
  { apply (BlockMetaSpec.from_slice_at _ (pre ++ lk ++ k ++ lv) _ (c ++ post));
      [|rewrite !length_app; lia|done]. by rewrite Hb, <-!(assoc_L (++)). }
  do 2 f_equal. f_equal. rewrite length_app, length_frame. lia.
Qed.

(** *** Any file
    The loop is total: no read leaves the buffer, whatever the file holds.
    What it accepted is exactly the encoding of the records it returns. *)
Definition accepted buf (s : nat * list kv) : Prop :=
  s.1 ≤ length buf ∧ take s.1 buf = frames s.2 ∧ Forall record_ok s.2.

Lemma from_slice_in buf off n : off + n ≤ length buf → KeyVec.from_slice buf off n = Ok (slice off n buf).
Proof. intros. unfold KeyVec.from_slice. by rewrite decide_True. Qed.

Lemma take_slice buf pos n : take pos buf ++ slice pos n buf = take (pos + n) buf.
Proof. apply take_take_drop. Qed.

Lemma step_sound buf s : accepted buf s →
  recover_step buf s ⇓ λ r, match r with
    | inl s' => accepted buf s' ∧ length buf - s'.1 < length buf - s.1
    | inr s' => accepted buf s' ∧ s' = s end.
Proof.
  destruct s as [pos rs]. intros (Hpos & Htake & Hok). simpl in Hpos, Htake, Hok.
  assert (returns (mret (inr (pos, rs) : nat * list kv + nat * list kv)) (λ r, match r with
    | inl s' => accepted buf s' ∧ length buf - s'.1 < length buf - pos
    | inr s' => accepted buf s' ∧ s' = (pos, rs) end)) as Hstop by (by apply returns_ret).
  unfold recover_step. destruct (decide _); [|done].
  destruct (decide _); [done|].
  destruct (read_u16_be_in buf pos ltac:(lia)) as (zk & -> & Hzk & Hsk).
  rewrite (bind_ok _ (Z.to_nat zk)) by done. set (kl := Z.to_nat zk).
  destruct (decide _); [done|].
  destruct (read_u16_be_in buf (pos + 2 + kl) ltac:(lia)) as (zv & -> & Hzv & Hsv).
  rewrite (bind_ok _ (Z.to_nat zv)) by done. set (vl := Z.to_nat zv). cbv zeta.
  destruct (decide _); [done|].
  destruct (read_u32_be_in buf (pos + (2 + kl + 2 + vl)) ltac:(lia)) as (zc & -> & Hzc & Hsc).
  rewrite (bind_ok _ zc) by done. destruct (decide _) as [|Hcrc]; [done|].
  rewrite !from_slice_in, !(bind_ok _ _ _ eq_refl) by lia. apply returns_ret.
  set (k := slice (pos + 2) kl buf). set (v := slice (pos + 2 + kl + 2) vl buf).
  assert (length k = kl ∧ length v = vl) as [Hk Hv] by (split; apply length_slice; lia).
  assert (slice pos (2 + kl + 2 + vl) buf = content k v) as Hcontent.
  { unfold content. rewrite Hk, Hv, !u16_small by lia.
    replace (Z.of_nat kl) with zk by lia. replace (Z.of_nat vl) with zv by lia.
    rewrite <-Hsk, <-Hsv. unfold k, v. rewrite <-!slice_slice_app, <-!(assoc_L (++)).
    by rewrite !Nat.add_assoc. }
  split; [|simpl; lia]. split_and!; simpl; [lia| |apply Forall_app; split; [done|]].
  - rewrite frames_snoc, <-Htake. cbn [fst snd]. rewrite frame_eq, <-Hcontent.
    assert (crc32_hash (slice pos (2 + kl + 2 + vl) buf) = zc) as -> by (by destruct (decide (crc32_hash (slice pos (2 + kl + 2 + vl) buf) = zc))).
    rewrite <-Hsc, slice_slice_app, take_slice. done.
  - constructor; [|done]. split; simpl; lia.
Qed.

Lemma recover_loop_sound buf : recover_loop buf ⇓ λ s, accepted buf s ∧ recover_step buf s = Ok (inr s).
Proof.
  apply (returns_loopR _ (accepted buf) (λ s, length buf - s.1)).
  - intros s Hs. destruct (step_sound buf s Hs) as ([s'|s'] & Hstep & Hs'); rewrite Hstep; eexists; (split; [done|]); [done|].
    destruct Hs' as [? ->]. by split.
  - split_and!; simpl; [lia|done|constructor].
  - simpl. lia.
Qed.

(** Where the loop stops no record begins. *)
Lemma stopped_no_frame buf s e rest : accepted buf s → recover_step buf s = Ok (inr s) → record_ok e →
  drop s.1 buf ≠ frame e.1 e.2 ++ rest.
Proof.
  destruct s as [pos rs], e as [k v]. intros (Hpos & _ & _) Hstop Hok Hdrop. cbn [fst snd] in *.
  assert (buf = take pos buf ++ frame k v ++ rest) as Hbuf by (rewrite <-Hdrop; by rewrite take_drop).
  pose proof (step_frame buf (take pos buf) k v rest rs Hbuf Hok) as Hstep.
  rewrite length_take_le, Hstop in Hstep by done. discriminate Hstep.
Qed.

(** *** A log cut anywhere
    A frame of which only the first bytes reached the file ends the loop. *)
Lemma step_torn buf pre k v n records :
  buf = pre ++ take n (frame k v) → n < length (frame k v) → record_ok (k, v) →
  recover_step buf (length pre, records) = Ok (inr (length pre, records)).
Proof.
  intros Hbuf Hn [Hk Hv]. simpl in Hk, Hv.
  assert (length buf = length pre + n) as Hlen by (rewrite Hbuf, length_app, length_take; lia).
  rewrite length_frame in Hn. unfold recover_step. cbv zeta.
  destruct (decide (length pre < length buf)); [|done].
  destruct (decide (length buf - length pre < 2)); [done|].
  set (lk := be_bytes 2 (u16 (Z.of_nat (length k)))). set (lv := be_bytes 2 (u16 (Z.of_nat (length v)))).
  assert (length lk = 2 ∧ length lv = 2) as [Hlk Hlv] by (split; apply length_be_bytes).
  assert (frame k v = lk ++ k ++ lv ++ v ++ be_bytes 4 (crc32_hash (content k v))) as Hf.
  { rewrite frame_eq. unfold content. by rewrite <-!(assoc_L (++)). }
  rewrite (bind_ok _ (length k)); cycle 1.
  { eapply read_key_len; [|done|done]. rewrite Hbuf, Hf. f_equal. by rewrite take_app_ge by lia. }
  destruct (decide (length buf - length pre < 2 + length k + 2)); [done|].
  rewrite (bind_ok _ (length v)); cycle 1.
  { eapply (read_key_len _ (pre ++ lk ++ k)); [|rewrite !length_app; lia|done].
    rewrite Hbuf, Hf, <-!(assoc_L (++)). f_equal.
    rewrite !take_app_ge by lia. by rewrite Hlk. }
  by rewrite decide_True by lia.
Qed.

(** [rs'] is what survives of [rs] when the log is cut after [n] bytes. *)
Definition survives rs (n : nat) rs' : Prop :=
  rs' `prefix_of` rs ∧ length (frames rs') ≤ n ∧
  ∀ e, rs' ++ [e] `prefix_of` rs → n < length (frames (rs' ++ [e])).

Lemma recover_torn rs n : Forall record_ok rs →
  recover_loop (take n (frames rs)) ⇓ λ s,
    s.1 = length (frames s.2) ∧ survives rs n s.2.
Proof.
  intros Hok. set (buf := take n (frames rs)).
  apply (returns_loopR _ (λ s : nat * list kv, s.1 = length (frames s.2) ∧
    s.2 `prefix_of` rs ∧ s.1 ≤ n) (λ s, length buf - s.1)).
  2: { split_and!; simpl; [done|by apply prefix_nil|lia]. }
  2: { simpl. lia. }
  intros [pos rs'] (Hpos & [rest Hrest] & Hn). simpl in Hpos, Hrest, Hn. subst pos.
  destruct rest as [|[k v] rest].
  { rewrite app_nil_r in Hrest. subst rs'. exists (inr (length (frames rs), rs)). split.
    - unfold recover_step. rewrite decide_False; [done|]. unfold buf. rewrite length_take. lia.
    - split; [done|]. split_and!; [done|simpl; lia|]. intros e [? E]. simpl in E.
      apply (f_equal length) in E. rewrite !length_app in E. simpl in E. lia. }
  assert (record_ok (k, v)) as Hkv by (rewrite Hrest in Hok; by apply Forall_app in Hok as [_ [? _]%Forall_cons]).
  assert (frames rs = frames rs' ++ frame k v ++ frames rest) as Hfs.
  { by rewrite Hrest, frames_app, frames_cons. }
  assert (buf = frames rs' ++ take (n - length (frames rs')) (frame k v ++ frames rest)) as Hbuf.
  { unfold buf. by rewrite Hfs, take_app_ge by lia. }
  destruct (decide (n < length (frames rs') + length (frame k v))) as [Hcut|Hfull].
  - exists (inr (length (frames rs'), rs')). split.
    + apply (step_torn _ _ k v (n - length (frames rs'))); [|lia|done].
      rewrite Hbuf. f_equal. apply take_app_le. lia.
    + split; [done|]. split_and!; [by exists ((k, v) :: rest)|simpl; lia|].
      simpl. intros e [rest' E]. rewrite Hrest, <-(assoc_L (++)) in E. simpl in E.
      apply (inj (rs' ++.)) in E. injection E as <- _. rewrite frames_snoc, length_app. cbn [fst snd]. lia.
  - eexists (inl _). split; [eapply step_frame; [|done]; rewrite Hbuf, take_app_ge by lia; done|].
    split; [|simpl; rewrite length_app, length_frame].
    + simpl. rewrite frames_snoc. split_and!; [done| |rewrite length_app; lia].
      exists rest. by rewrite Hrest, <-(assoc_L (++)).
    + rewrite Hbuf, length_app. rewrite take_app_ge by lia. rewrite length_app, length_frame. lia.
Qed.

(** *** Recovery of a file *)
Lemma recover_ok path fs buf : fs !! path = Some buf → ∃ rs,
  recover path fs = Ok (<[path := frames rs]> fs, (inl (mk path (Some [])), rs)) ∧
  Forall record_ok rs ∧ ∃ pos, recover_loop buf = Ok (pos, rs) ∧ take pos buf = frames rs.
Proof.
  intros Hp. destruct (recover_loop_sound buf) as ([pos rs] & Hloop & (Hpos & Htake & Hok) & _).
  simpl in Hpos, Htake, Hok. exists rs. split; [|eauto].
  unfold recover. rewrite Hp, Hloop. cbn. do 3 f_equal.
  destruct (decide (pos ≠ length buf)) as [|Heq%dec_stable]; [by rewrite Htake|].
  rewrite Heq, take_ge in Htake by lia. rewrite <-Htake. by rewrite insert_id.
Qed.

(** The whole log, with what is still buffered. *)
Definition logged (w : t) (fs : Fs.t) (rs : list kv) : Prop := ∃ buf file,
  fp_ w = Some buf ∧ fs !! path_ w = Some file ∧ file ++ buf = frames rs ∧ Forall record_ok rs.

Lemma create_logged path fs : ∃ fs' w, create path fs = Ok (fs', inl w) ∧ logged w fs' [] ∧
  path_ w = path ∧ fs' = <[path := []]> fs.
Proof.
  eexists _, _. split; [done|]. split; [|done]. exists [], []. by rewrite lookup_insert_eq.
Qed.

Lemma put_logged w fs rs k v : logged w fs rs → record_ok (k, v) → ∃ w',
  put w k v = (w', inl tt) ∧ logged w' fs (rs ++ [(k, v)]) ∧ path_ w' = path_ w.
Proof.
  intros (buf & file & Hfp & Hf & Hlog & Hok) Hkv. unfold put. rewrite Hfp. eexists. split; [done|].
  split; [|done]. eexists _, file. split_and!; [done|done| |apply Forall_app; split; [done|by constructor]].
  by rewrite frames_snoc, <-Hlog, <-(assoc_L (++)).
Qed.

Lemma sync_logged w fs rs : logged w fs rs → ∃ w',
  sync w fs = Ok (<[path_ w := frames rs]> fs, (w', inl tt)) ∧
  logged w' (<[path_ w := frames rs]> fs) rs ∧ path_ w' = path_ w.
Proof.
  intros (buf & file & Hfp & Hf & Hlog & Hok). unfold sync, fflush. rewrite Hfp, Hf. simpl.
  rewrite Hlog. eexists. split; [done|]. split; [|done]. exists [], (frames rs). simpl.
  by rewrite lookup_insert_eq, app_nil_r.
Qed.
End spec.
End WalSpec.

(** ** Properties *)
Section properties.
Context `{!Zlib}.
Implicit Types rs : list kv.

Lemma survives_take rs n rs' : WalSpec.survives rs n rs' → ∃ m, m ≤ length rs ∧ rs' = take m rs ∧
  length (WalSpec.frames (take m rs)) ≤ n ∧
  (m = length rs ∨ n < length (WalSpec.frames (take (S m) rs))).
Proof.
  intros ([rest ->] & Hle & Hmax). exists (length rs'). rewrite take_app_length, length_app.
  split_and!; [lia|done|done|]. destruct rest as [|e rest]; [left; simpl; lia|right].
  rewrite take_app_ge by lia. replace (S (length rs') - length rs') with 1 by lia. simpl.
  apply Hmax. exists rest. by rewrite <-(assoc_L (++)).
Qed.

Lemma survives_all rs rs' : WalSpec.survives rs (length (WalSpec.frames rs)) rs' → rs' = rs.
Proof.
  intros (m & Hm & -> & _ & [->|Hlt])%survives_take; [by rewrite take_ge|].
  rewrite <-(take_drop (S m) rs) in Hlt at 1. rewrite WalSpec.frames_app, length_app in Hlt. lia.
Qed.

(** A log that lost its end yields the records that are whole. *)
Lemma recover_loop_take rs n : Forall WalSpec.record_ok rs → ∃ m,
  Wal.recover_loop (take n (WalSpec.frames rs)) = Ok (length (WalSpec.frames (take m rs)), take m rs) ∧ m ≤ length rs ∧
  length (WalSpec.frames (take m rs)) ≤ n ∧ (m = length rs ∨ n < length (WalSpec.frames (take (S m) rs))).
Proof.
  intros Hok. destruct (WalSpec.recover_torn rs n Hok) as ([pos rs'] & Hloop & Hpos & Hsur).
  apply survives_take in Hsur as (m & Hm & Hrs & Hle & Hmax). simpl in Hpos, Hrs. subst pos rs'. exists m. by split_and!.
Qed.

Lemma recover_loop_frames rs : Forall WalSpec.record_ok rs →
  Wal.recover_loop (WalSpec.frames rs) = Ok (length (WalSpec.frames rs), rs).
Proof.
  intros Hok. destruct (WalSpec.recover_torn rs (length (WalSpec.frames rs)) Hok) as ([pos rs'] & Hloop & Hpos & Hsur).
  rewrite take_ge in Hloop by lia. apply survives_all in Hsur. simpl in Hpos, Hsur. by subst pos rs'.
Qed.

Lemma recover_frames path fs rs : Forall WalSpec.record_ok rs → fs !! path = Some (WalSpec.frames rs) →
  Wal.recover path fs = Ok (fs, (inl (Wal.mk path (Some [])), rs)).
Proof.
  intros Hok Hp. destruct (WalSpec.recover_ok _ _ _ Hp) as (rs' & -> & _ & pos & Hloop & _).
  rewrite recover_loop_frames in Hloop by done. injection Hloop as _ <-. by rewrite insert_id.
Qed.

(** C32: recovery of a log file of any contents.  Whatever bytes the file
    holds, [recover] reads inside the buffer only and returns.  The records it
    returns are those at the front of the file: their frames are the first [pos]
    bytes, and no record begins at [pos], whatever would follow it, so it stops at
    the first bad record and not earlier.  The file is truncated there, and
    recovering the truncated file again returns the same records and changes
    nothing. *)
Theorem wal_recover_any_file (path : string) (fs : Fs.t) (buf : bytes) :
  fs !! path = Some buf →
  ∃ rs pos, let fs' := <[path := take pos buf]> fs in
    Wal.recover path fs = Ok (fs', (inl (Wal.mk path (Some [])), rs)) ∧
    pos ≤ length buf ∧
    Forall WalSpec.record_ok rs ∧
    take pos buf = concat ((λ e, Wal.frame e.1 e.2) <$> rs) ∧
    (∀ e rest, WalSpec.record_ok e → drop pos buf ≠ Wal.frame e.1 e.2 ++ rest) ∧
    Wal.recover path fs' = Ok (fs', (inl (Wal.mk path (Some [])), rs)).
Proof.
  intros Hp. destruct (WalSpec.recover_ok _ _ _ Hp) as (rs & Hrec & Hok & pos & Hloop & Htake).
  destruct (WalSpec.recover_loop_sound buf) as (s & Hloop' & Hacc & Hstop). rewrite Hloop in Hloop'.
  injection Hloop' as <-. exists rs, pos. cbv zeta. rewrite Htake. split_and!; [done|apply Hacc|done|done| |].
  - intros e rest He. by apply (WalSpec.stopped_no_frame buf (pos, rs)).
  - apply recover_frames; [done|]. apply lookup_insert_eq.
Qed.

(** C33: a crash loses at most the end of the log.  After the puts of [rs] the
    stream holds their frames in order; if only the first [n] bytes of them
    are in the file when it is recovered (the rest was still buffered, or torn
    in the middle of a frame), recovery returns exactly the longest prefix of
    the records that lies within these bytes, and leaves their frames. *)
Theorem wal_crash_keeps_prefix (path : string) (fs : Fs.t) rs (n : nat) :
  Forall WalSpec.record_ok rs →
  fs !! path = Some (take n (concat ((λ e, Wal.frame e.1 e.2) <$> rs))) →
  Wal.fp_ (foldl (λ w e, (Wal.put w e.1 e.2).1) (Wal.mk path (Some [])) rs) =
    Some (concat ((λ e, Wal.frame e.1 e.2) <$> rs)) ∧
  ∃ m, m ≤ length rs ∧
    Wal.recover path fs =
      Ok (<[path := concat ((λ e, Wal.frame e.1 e.2) <$> take m rs)]> fs,
          (inl (Wal.mk path (Some [])), take m rs)) ∧
    length (concat ((λ e, Wal.frame e.1 e.2) <$> take m rs)) ≤ n ∧
    (m = length rs ∨ n < length (concat ((λ e, Wal.frame e.1 e.2) <$> take (S m) rs))).
Proof.
  intros Hok Hp. split.
  { clear. assert (∀ buf, Wal.fp_ (foldl (λ w e, (Wal.put w e.1 e.2).1) (Wal.mk path (Some buf)) rs) =
      Some (buf ++ WalSpec.frames rs)) as E; [|apply E].
    induction rs as [|e rs IH]; intros buf; simpl; [by rewrite app_nil_r|].
    rewrite IH, WalSpec.frames_cons. by rewrite (assoc_L (++)). }
  destruct (WalSpec.recover_ok _ _ _ Hp) as (rs' & Hrec & _ & pos & Hloop & _).
  destruct (recover_loop_take rs n Hok) as (m & Hloop' & Hm & Hle & Hmax).
  unfold WalSpec.frames in Hloop'. rewrite Hloop in Hloop'. injection Hloop' as -> ->.
  exists m. by split_and!.
Qed.
End properties.

Definition demo_records : list kv := [([x61], [x01; x02]); ([x62], []); ([x61], [x03])].

Definition demo_fs (buf : bytes) : Fs.t := {["w"%string := buf]}.

(** A record and two bytes of the next one: the record is returned. *)
Lemma wal_recover_any_file_witness :
  let buf := @Wal.frame demo_zlib [x61] [x01; x02] ++ [x00; x01] in
  ∃ rs pos, @Wal.recover demo_zlib "w" (demo_fs buf) =
      Ok (<["w"%string := take pos buf]> (demo_fs buf), (inl (Wal.mk "w" (Some [])), rs)) ∧ rs = [([x61], [x01; x02])].
Proof.
  intros buf. destruct (@wal_recover_any_file demo_zlib "w" (demo_fs buf) buf eq_refl) as (rs & pos & H & _).
  exists rs, pos. split; [exact H|]. vm_compute in H. injection H as _ <-. reflexivity.
Defined.

Lemma wal_crash_keeps_prefix_witness :
  let log := concat ((λ e, @Wal.frame demo_zlib e.1 e.2) <$> demo_records) in
  ∃ m, @Wal.recover demo_zlib "w" (demo_fs (take 25 log)) =
    Ok (<["w"%string := concat ((λ e, @Wal.frame demo_zlib e.1 e.2) <$> take m demo_records)]>
          (demo_fs (take 25 log)), (inl (Wal.mk "w" (Some [])), take m demo_records)).
Proof.
  destruct (@wal_crash_keeps_prefix demo_zlib "w" (demo_fs (take 25 (concat ((λ e, @Wal.frame demo_zlib e.1 e.2) <$> demo_records))))
    demo_records 25) as (_ & m & _ & H & _).
  - repeat constructor.
  - reflexivity.
  - exists m. exact H.
Defined.
