(* ===== verification/MemTable.v ===== *)
(** * Memtables: include/mini_lsm/mem_table.h, src/mem_table.cpp,
      src/iterators/mem_table_iterator.cpp

    A memtable is a [std::map] and, when write-ahead logging is on, the log every
    [put] goes to first.  [map_] is the list of its entries in iteration order
    ([Key.StdMap]); the abstraction of a memtable is the finite map [kv_map]. *)
From S2P Require Import Prelude Endian Key Iterators Block BlockCache Double Bloom Table TableIterator Wal.

(** ** Definitions *)
Module MemTable.
Record t := mk {
  id_ : nat;
  map_ : list kv;
  wal_ : option Wal.t;
  approximate_size_ : nat }.

(** The two constructors. *)
Definition create (id : nat) : t := mk id [] None 0.
Definition create_wal (id : nat) (wal : Wal.t) : t := mk id [] (Some wal) 0.

Definition create_with_wal (id : nat) (path : string) : eff Fs.t (fallible t) :=
  wal_res ← Wal.create path;
  match wal_res with
  | inr e => mret (inr e)
  | inl wal => mret (inl (create_wal id wal))
  end.

Definition get (m : t) (key : bytes) : option bytes := StdMap.find key (map_ m).
Definition is_empty (m : t) : bool := bool_decide (map_ m = []).

(** [map_[k] = v] and the counter of [approximate_size]. *)
Definition store (m : t) (wal : option Wal.t) (key value : bytes) : t :=
  mk (id_ m) (StdMap.assign key value (map_ m)) wal
     (approximate_size_ m + (length key + length value)).

Section code.
Context `{!Zlib}.

Definition recover_from_wal (id : nat) (path : string) : eff Fs.t (fallible t) :=
  '(wal_res, records) ← Wal.recover path;
  match wal_res with
  | inr e => mret (inr e)
  | inl wal =>
      mret (inl (foldl (λ m e, store m (wal_ m) e.1 e.2) (create_wal id wal) records))
  end.

Definition put (m : t) (key value : bytes) : t * fallible unit :=
  match wal_ m with
  | Some wal =>
      let '(wal, res) := Wal.put wal key value in
      match res with
      | inr e => (mk (id_ m) (map_ m) (Some wal) (approximate_size_ m), inr e)
      | inl _ => (store m (Some wal) key value, inl tt)
      end
  | None => (store m None key value, inl tt)
  end.

Definition sync_wal (m : t) : eff Fs.t (t * fallible unit) :=
  match wal_ m with
  | Some wal =>
      '(wal, r) ← Wal.sync wal;
      mret (mk (id_ m) (map_ m) (Some wal) (approximate_size_ m), r)
  | None => mret (m, inl tt)
  end.

Definition flush `{!Snappy} `{!Farmhash} (m : t) (builder : SsTableBuilder.t) : res SsTableBuilder.t :=
  foldl (λ b e, b ← b; SsTableBuilder.add b e.1 e.2) (mret builder) (map_ m).
End code.
End MemTable.

Module MemTableIterator.
Record t := mk { snapshot_ : list kv; idx_ : nat }.

(** The constructor over a whole table. *)
Definition of_table (table : option MemTable.t) : t :=
  mk (match table with Some m => MemTable.map_ m | None => [] end) 0.

(** The entries from the iterator [it] up to the upper bound. *)
Fixpoint until (upper : Bound) (l : list kv) : list kv :=
  match l with
  | [] => []
  | e :: l =>
      if match upper with
         | Included u => KeySlice.gtb e.1 u
         | Excluded u => KeySlice.geb e.1 u
         | Unbounded => false
         end
      then [] else e :: until upper l
  end.

Definition range (m : list kv) (lower upper : Bound) : list kv :=
  until upper
    match lower with
    | Included l => StdMap.lower_bound l m
    | Excluded l => StdMap.upper_bound l m
    | Unbounded => m
    end.

Definition create (table : option MemTable.t) (lower upper : Bound) : t :=
  mk (match table with Some m => range (MemTable.map_ m) lower upper | None => [] end) 0.

Definition is_valid_ (it : t) : bool := bool_decide (idx_ it < length (snapshot_ it)).

#[global] Instance storage {W} : StorageIterator W t := {
  key it := cassert (is_valid_ it) "is_valid()";;
            fst <$> deref (snapshot_ it !! idx_ it) "snapshot_[idx_]";
  value it := cassert (is_valid_ it) "is_valid()";;
              snd <$> deref (snapshot_ it !! idx_ it) "snapshot_[idx_]";
  is_valid := is_valid_;
  next it := mret (if is_valid_ it then mk (snapshot_ it) (S (idx_ it)) else it) }.
End MemTableIterator.

Definition scan (m : MemTable.t) (lower upper : Bound) : MemTableIterator.t :=
  MemTableIterator.create (Some m) lower upper.

(** ** The memtable is a finite map *)
Definition above (b : Bound) (k : bytes) : Prop :=
  match b with Unbounded => True | Included s => key_le s k | Excluded s => key_lt s k end.
#[export] Instance above_dec b k : Decision (above b k).
Proof. destruct b; simpl; apply _. Defined.

Definition in_range (lower upper : Bound) (k : bytes) : Prop := above lower k ∧ below upper k.
#[export] Instance in_range_dec lower upper k : Decision (in_range lower upper k).
Proof. unfold in_range. apply _. Defined.

Module MemTableSpec.
Import MemTable.

Section spec.
Context `{!Zlib}.
Implicit Types (m : t) (rs : list kv).

(** [m] maps keys as [g] does; its log, if it has one, is [rs] on [fs]. *)
Record repr (fs : Fs.t) m (g : gmap bytes bytes) (rs : list kv) : Prop := {
  repr_sorted : ksorted (map_ m);
  repr_map : kv_map (map_ m) = g;
  repr_wal w : wal_ m = Some w → WalSpec.logged w fs rs }.

(** The map a sequence of writes leaves behind, later writes winning. *)
Definition replay rs : gmap bytes bytes := foldl (λ g e, <[e.1 := e.2]> g) ∅ rs.

Lemma replay_snoc rs k v : replay (rs ++ [(k, v)]) = <[k := v]> (replay rs).
Proof. unfold replay. by rewrite foldl_app. Qed.

Lemma memtable_get_spec fs m g rs k : repr fs m g rs → get m k = g !! k.
Proof. intros [_ <- _]. apply StdMap.find_lookup. Qed.

Lemma is_empty_spec fs m g rs : repr fs m g rs → is_empty m = bool_decide (g = ∅).
Proof.
  intros [_ <- _]. unfold is_empty. apply bool_decide_ext. split; [by intros ->|].
  destruct (map_ m) as [|[k v] l]; [done|]. rewrite kv_map_cons. by intros ?%insert_non_empty.
Qed.

Lemma memtable_create_repr fs id : repr fs (create id) ∅ [].
Proof. split; simpl; [apply ksorted_nil|done|done]. Qed.

Lemma put_nowal fs m g rs k v : repr fs m g rs → wal_ m = None → ∃ m',
  put m k v = (m', inl tt) ∧ repr fs m' (<[k := v]> g) rs ∧ wal_ m' = None ∧ id_ m' = id_ m ∧
  approximate_size_ m' = approximate_size_ m + (length k + length v).
Proof.
  intros [Hs <- Hw] Hnone. unfold put. rewrite Hnone. eexists. split; [done|]. split; [|done].
  split; simpl; [by apply StdMap.assign_sorted|by apply StdMap.assign_map|done].
Qed.

Lemma put_wal fs m g rs k v w : repr fs m g rs → wal_ m = Some w → WalSpec.record_ok (k, v) → ∃ m' w',
  put m k v = (m', inl tt) ∧ repr fs m' (<[k := v]> g) (rs ++ [(k, v)]) ∧
  wal_ m' = Some w' ∧ Wal.path_ w' = Wal.path_ w ∧ id_ m' = id_ m ∧
  approximate_size_ m' = approximate_size_ m + (length k + length v).
Proof.
  intros [Hs <- Hw] Hsome Hok. unfold put. rewrite Hsome.
  destruct (WalSpec.put_logged _ _ _ k v (Hw _ Hsome) Hok) as (w' & -> & Hlog & Hpath).
  eexists _, w'. split; [done|]. split; [|done].
  split; simpl; [by apply StdMap.assign_sorted|by apply StdMap.assign_map|by intros ? [= <-]].
Qed.

Lemma stores_spec rs m : ksorted (map_ m) →
  let m' := foldl (λ m e, store m (wal_ m) e.1 e.2) m rs in
  ksorted (map_ m') ∧ kv_map (map_ m') = foldl (λ g e, <[e.1 := e.2]> g) (kv_map (map_ m)) rs ∧
  wal_ m' = wal_ m ∧ id_ m' = id_ m.
Proof.
  revert m; induction rs as [|[k v] rs IH]; intros m Hs; simpl; [done|].
  specialize (IH (store m (wal_ m) k v)). simpl in IH.
  rewrite StdMap.assign_map in IH by done. by apply IH, StdMap.assign_sorted.
Qed.

(** Recovery from any log: the map of the records the log yields, and a log
    that holds exactly those. *)
Lemma recover_spec id path fs buf : fs !! path = Some buf → ∃ rs m pos,
  recover_from_wal id path fs = Ok (<[path := WalSpec.frames rs]> fs, inl m) ∧
  repr (<[path := WalSpec.frames rs]> fs) m (replay rs) rs ∧ id_ m = id ∧
  wal_ m = Some (Wal.mk path (Some [])) ∧
  Wal.recover_loop buf = Ok (pos, rs).
Proof.
  intros Hbuf. destruct (WalSpec.recover_ok _ _ _ Hbuf) as (rs & Hrec & Hok & pos & Hloop & _).
  unfold recover_from_wal, mbind, eff_bind. rewrite Hrec.
  destruct (stores_spec rs (create_wal id (Wal.mk path (Some [])))) as (Hs & Hm & Hw & Hid); [apply ksorted_nil|].
  eexists rs, _, pos. split; [done|]. split_and!; [|done..].
  split; [done|done|]. rewrite Hw. intros ? [= <-]. exists [], (WalSpec.frames rs).
  simpl. by rewrite lookup_insert_eq, app_nil_r.
Qed.
End spec.
End MemTableSpec.

(** ** The iterator denotes the range *)
Module MemTableIteratorSpec.
Import MemTableIterator.

Definition repr (it : t) (l : list kv) : Prop := ksorted l ∧ l = drop (idx_ it) (snapshot_ it).

Lemma memtable_iterator_repr_cons it e l : repr it (e :: l) →
  snapshot_ it !! idx_ it = Some e ∧ is_valid_ it = true ∧ repr (mk (snapshot_ it) (S (idx_ it))) l.
Proof.
  intros [[Hs _]%ksorted_cons [Hi ->]%BlockIteratorSpec.drop_cons]. split_and!; [done| |by split].
  apply bool_decide_true. by eapply lookup_lt_Some.
Qed.

#[global] Instance spec {W} {Inv : W → Prop} : IteratorSpec W t Inv.
Proof.
  exists repr.
  - by intros it l [? _].
  - intros it [_ Hd]. apply bool_decide_false. apply (f_equal length) in Hd.
    rewrite length_drop in Hd. simpl in Hd. lia.
  - by intros it e l (_ & ? & _)%memtable_iterator_repr_cons.
  - intros it k v l (Hi & Hv & _)%memtable_iterator_repr_cons. simpl. by rewrite Hv, Hi.
  - intros it k v l (Hi & Hv & _)%memtable_iterator_repr_cons. simpl. by rewrite Hv, Hi.
  - intros it e l (_ & Hv & Hr)%memtable_iterator_repr_cons. simpl. rewrite Hv. by apply wp_ret.
Defined.

Lemma until_filter upper l : ksorted l → until upper l = filter (λ e, below upper e.1) l.
Proof.
  induction l as [|e l IH]; [done|]. intros [Hs Hlt]%ksorted_cons. simpl.
  assert (match upper with Included u => KeySlice.gtb e.1 u | Excluded u => KeySlice.geb e.1 u
    | Unbounded => false end = bool_decide (¬ below upper e.1)) as ->.
  { destruct upper as [|u|u]; simpl; [done|..].
    - rewrite gtb_spec. apply bool_decide_ext. symmetry. apply key_nle.
    - rewrite geb_spec. apply bool_decide_ext. split; intros; key_order. }
  destruct (decide (below upper e.1)) as [Hb|Hb].
  - by rewrite bool_decide_false, filter_cons_True, IH by tauto.
  - rewrite bool_decide_true, filter_cons_False by done. symmetry.
    apply filter_none, Forall_forall. intros e' He' Hb'. apply Hb.
    pose proof (Hlt e'.1 ltac:(by apply list_elem_of_fmap_2)).
    destruct upper; simpl in *; [done|key_order..].
Qed.

Lemma range_filter m lower upper : ksorted m →
  range m lower upper = filter (λ e, in_range lower upper e.1) m.
Proof.
  intros Hs. unfold range, in_range.
  assert (match lower with Included l => StdMap.lower_bound l m | Excluded l => StdMap.upper_bound l m
    | Unbounded => m end = filter (λ e, above lower e.1) m) as ->.
  { destruct lower as [|l|l]; simpl; [by rewrite filter_all by (by apply Forall_true)|..].
    - by apply StdMap.lower_bound_filter.
    - by apply StdMap.upper_bound_filter. }
  rewrite until_filter by (by apply ksorted_filter). rewrite list_filter_filter.
  apply list_filter_iff. intros e. tauto.
Qed.

Lemma scan_repr m lower upper : ksorted (MemTable.map_ m) →
  repr (scan m lower upper) (filter (λ e, in_range lower upper e.1) (MemTable.map_ m)).
Proof.
  intros Hs. split; [by apply ksorted_filter|]. simpl. by rewrite range_filter.
Qed.

Lemma of_table_repr m : ksorted (MemTable.map_ m) → repr (of_table (Some m)) (MemTable.map_ m).
Proof. by split. Qed.
End MemTableIteratorSpec.

(** ** Flushing *)
Section flush.
Context `{!Zlib} `{!Snappy} `{!SnappyLaws} `{!Farmhash} `{!Libm}.

(** [flush] feeds the builder every entry, in order. *)
Lemma flush_fed m b kvs : ksorted (kvs ++ MemTable.map_ m) → Forall kv_ok (MemTable.map_ m) →
  TableBuilderSpec.fed b kvs →
  MemTable.flush m b ⇓ λ b', TableBuilderSpec.fed b' (kvs ++ MemTable.map_ m).
Proof.
  unfold MemTable.flush. generalize (MemTable.map_ m); clear m. intros l.
  revert b kvs; induction l as [|[k v] l IH]; intros b kvs Hs Hok Hb; simpl.
  { apply returns_ret. by rewrite app_nil_r. }
  apply Forall_cons in Hok as [Hkv Hok].
  destruct (TableBuilderSpec.add_fed b kvs k v Hb Hkv) as (b' & Hadd & Hb').
  rewrite Hadd, cons_middle, (assoc_L (++)). apply IH; [by rewrite <-(assoc_L (++))|done..].
Qed.
End flush.

(** ** Properties *)
Section properties.
Context `{!Zlib} `{!Snappy} `{!SnappyLaws} `{!Farmhash} `{!Libm}.

(** C29: a flushed memtable is read back in full.  Flushing a non-empty
    memtable whose keys and values fit the format into a new builder and
    building it succeeds, for either compression and any block size up to 64
    KiB; the file it writes, if it is smaller than 4 GiB, can be opened again
    and gives the same table, whose filter admits every key, whose iterator
    yields exactly the entries of the memtable in order, tombstones included,
    and whose [seek_to_key] starts at the first entry not below the key.  The
    reads go through a shared block cache of any capacity. *)
Theorem flush_read_roundtrip (m : MemTable.t) block_size compression id path (fs : Fs.t) capacity :
  block_size ≤ Z.to_nat 65536 →
  ksorted (MemTable.map_ m) → MemTable.map_ m ≠ [] → Forall kv_ok (MemTable.map_ m) →
  TableBuilderSpec.sizable (length (MemTable.map_ m)) →
  ∃ b buf, MemTable.flush m (SsTableBuilder.create block_size compression) = Ok b ∧
    SsTableBuilder.file_bytes b = Ok buf ∧
    ((Z.of_nat (length buf) < 4294967296)%Z →
     ∃ t, let fs' := <[path := buf]> fs in let n := S (length (MemTable.map_ m)) in
       SsTableBuilder.build b id true path fs = Ok (fs', t) ∧
       (∃ f, FileObject.open path fs' = Ok (fs', f) ∧ SsTable.open id true f = Ok t) ∧
       (∃ bloom, SsTable.bloom t = Some bloom ∧
          ∀ e, e ∈ MemTable.map_ m → Bloom.may_contain bloom (farmhash_fingerprint32 e.1) = Ok true) ∧
       (∃ w, read_all n t (BlockCache.create capacity) = Ok (w, MemTable.map_ m)) ∧
       (∀ key, ∃ w, read_from n t key (BlockCache.create capacity) =
          Ok (w, filter (λ e, key_le key e.1) (MemTable.map_ m)))).
Proof.
  intros Hbs Hs Hne Hok Hsz.
  destruct (flush_fed m (SsTableBuilder.create block_size compression) [] Hs Hok) as (b & Hflush & Hfed).
  { by apply TableBuilderSpec.create_fed. }
  destruct (TableBuilderSpec.build_fed b _ id true path fs Hfed Hne Hs Hsz) as (buf & Hbuf & Hbuild).
  exists b, buf. split_and!; [done..|]. intros Hlen. specialize (Hbuild Hlen) as (t & kvss & Hbuild & Ht & Hopen & Hkvs & _).
  exists t. cbv zeta. rewrite app_nil_l in Hkvs. split_and!; [done| | | |].
  - exists (TableBuilderSpec.file_of buf). split; [|done].
    apply TableBuilderSpec.file_of_open; [done|apply lookup_insert_eq].
  - destruct (SsTable.bloom t) as [bloom|] eqn:E.
    + exists bloom. split; [done|]. intros e He. pose proof (holds_bloom _ _ Ht) as Hb. rewrite E in Hb.
      apply Hb, list_elem_of_fmap. exists e. by rewrite Hkvs.
    + assert (SsTable.bloom t ≠ None); [|done]. apply (TableBuilderSpec.open_bloom _ _ _ _ Hopen).
  - destruct (read_all_spec (content_of t kvss) t kvss (S (length (MemTable.map_ m))) Ht)
      with (w := BlockCache.create capacity) as (w & r & Hrun & _ & ->);
      [apply cached_content_of|rewrite Hkvs; lia|apply create_cache_ok|].
    rewrite Hkvs in Hrun. by exists w.
  - intros key. destruct (read_from_spec (content_of t kvss) t kvss key (S (length (MemTable.map_ m))) Ht)
      with (w := BlockCache.create capacity) as (w & r & Hrun & _ & ->);
      [apply cached_content_of|rewrite Hkvs; lia|apply create_cache_ok|].
    rewrite Hkvs in Hrun. by exists w.
Qed.
End properties.

Definition demo_memtable : MemTable.t :=
  MemTable.mk 3 [([x61], [x01; x02]); ([x61; x62], []); ([x62], [x03])] None 10.

Lemma flush_read_roundtrip_witness :
  ∃ b buf, @MemTable.flush demo_zlib demo_snappy demo_farmhash demo_memtable (SsTableBuilder.create 16 Snappy_) = Ok b ∧
    @SsTableBuilder.file_bytes demo_zlib demo_snappy demo_libm b = Ok buf ∧
    (Z.of_nat (length buf) < 4294967296)%Z.
Proof.
  destruct (@flush_read_roundtrip demo_zlib demo_snappy demo_snappy_laws demo_farmhash demo_libm
    demo_memtable 16 Snappy_ 3 "00003.sst" ∅ 8) as (b & buf & Hb & Hbuf & _).
  - apply Nat2Z.inj_le. vm_compute. discriminate.
  - apply (bool_decide_unpack _). vm_compute. exact I.
  - discriminate.
  - repeat constructor; vm_compute; discriminate || reflexivity.
  - exists 10%Z. split; [vm_compute; reflexivity|]. split; [simpl; lia|]. exists 6%Z. vm_compute. reflexivity.
  - exists b, buf. split; [exact Hb|]. split; [exact Hbuf|].
    vm_compute in Hb. injection Hb as <-. vm_compute in Hbuf. injection Hbuf as <-. vm_compute. reflexivity.
Defined.
