(* ===== verification/IteratorProps.v ===== *)
(** * What the iterator stack computes

    The combinators of [Iterators] over any iterators that satisfy the
    interface, drained by [collect]; the examples run them on memtables. *)
From S2P Require Import Prelude Endian Key Iterators Block BlockCache Double Bloom Table TableIterator Wal MemTable.

Section combinators.
Context {W : Type} {Inv : W → Prop}.

(** C30: [MergeIterator] is the merge of sorted sources, newest first.  If each
    source yields a sorted list, then creating the merge and draining it yields
    the sorted entries of the union of the sources, where for a key that occurs
    several times the value of the source with the smallest index wins and the
    others are skipped.  No assertion fires and the bound on the inner loop is
    not reached. *)
Theorem merge_iterator_correct {I} `{!StorageIterator W I} `{!IteratorSpec W I Inv}
    (iters : list I) (ls : list (list kv)) (n : nat) :
  Forall2 (denotes (Inv:=Inv)) iters ls → length (entries (merged ls)) < n →
  (m ← MergeIterator.create iters; collect n m) ⇓{Inv} λ r, r = entries (merged ls).
Proof.
  intros Hd Hn. eapply wp_bind; [by apply MergeIterator.merge_create_repr|]. intros m Hm.
  assert (denotes (Inv:=Inv) m (entries (merged ls))) as Hm' by exact Hm.
  by apply collect_denotes.
Qed.

(** [TwoMergeIterator] merges two sources of different types, the first
    one shadowing the second. *)
Lemma two_merge_iterator_correct {A B} `{!StorageIterator W A} `{!StorageIterator W B}
    `{!IteratorSpec W A Inv} `{!IteratorSpec W B Inv} (a : A) (b : B) (la lb : list kv) (n : nat) :
  denotes (Inv:=Inv) a la → denotes (Inv:=Inv) b lb →
  length (entries (kv_map la ∪ kv_map lb)) < n →
  (m ← TwoMergeIterator.create a b; collect n m) ⇓{Inv} λ r, r = entries (kv_map la ∪ kv_map lb).
Proof.
  intros Ha Hb Hn. eapply wp_bind; [by apply TwoMergeIterator.two_merge_create_repr|]. intros m Hm.
  assert (denotes (Inv:=Inv) m (entries (kv_map la ∪ kv_map lb))) as Hm' by exact Hm.
  by apply collect_denotes.
Qed.

(** C31: [LsmIterator], and the [FusedIterator] around it, show a source
    without its tombstones and without the keys past the upper bound: exactly
    the entries with a non-empty value within the bound, in order. *)
Theorem lsm_iterator_correct {I} `{!StorageIterator W I} `{!IteratorSpec W I Inv} `{!LoopFuel}
    (inner : I) (l : list kv) (upper : Bound) (n : nat) :
  denotes (Inv:=Inv) inner l → length l < loop_fuel → length l < n →
  (it ← LsmIterator.create (Some inner) upper; collect n (FusedIterator.create it)) ⇓{Inv}
    λ r, r = filter (λ e, e.2 ≠ [] ∧ below upper e.1) l.
Proof.
  intros Hd Hf Hn. eapply wp_bind; [by apply (LsmIterator.lsm_create_repr inner l upper)|]. intros it Hit.
  assert (denotes (Inv:=Inv) (FusedIterator.create it) (LsmIterator.live upper l)) as Hd' by (split; [done|exact Hit]).
  apply (collect_denotes _ _ n Hd').
  pose proof (length_filter (λ e : kv, e.2 ≠ [] ∧ below upper e.1) l). unfold LsmIterator.live. lia.
Qed.

(** A [FusedIterator] through which an exception has passed is exhausted
    for good: it reports itself invalid and a further [next] does nothing. *)
Lemma fused_iterator_stays_exhausted {I} `{!StorageIterator W I}
    (it it' : FusedIterator.t I) (w w' : W) (what : string) :
  FusedIterator.next_catch it w = (it', Err (Exn what)) →
  is_valid (W:=W) it' = false ∧ FusedIterator.next_catch it' w' = (it', Ok (w', tt)).
Proof. intros [Hv Hn]%FusedIterator.next_catch_errored. by split. Qed.
End combinators.

Definition newer : list kv := [([x61], [x01]); ([x62], []); ([x64], [x04])].
Definition older : list kv := [([x61], [x09]); ([x62], [x02]); ([x63], [x03])].
Definition demo_iter (l : list kv) : MemTableIterator.t := MemTableIterator.mk l 0.

Lemma demo_denotes l : bool_decide (ksorted l) = true → denotes (W:=unit) (Inv:=λ _, True) (demo_iter l) l.
Proof. intros Hs. by split; [apply (bool_decide_unpack _); rewrite Hs|]. Qed.

Lemma merge_iterator_correct_witness :
  (m ← MergeIterator.create [demo_iter newer; demo_iter older]; collect (W:=unit) 5 m) ⇓{λ _, True}
    λ r, r = entries (merged [newer; older]).
Proof.
  apply merge_iterator_correct.
  - repeat constructor; apply demo_denotes; vm_compute; reflexivity.
  - apply Nat.ltb_lt. vm_compute. reflexivity.
Defined.

Lemma two_merge_iterator_correct_witness :
  (m ← TwoMergeIterator.create (demo_iter newer) (demo_iter older); collect (W:=unit) 5 m) ⇓{λ _, True}
    λ r, r = entries (kv_map newer ∪ kv_map older).
Proof.
  apply two_merge_iterator_correct.
  - apply demo_denotes. vm_compute. reflexivity.
  - apply demo_denotes. vm_compute. reflexivity.
  - apply Nat.ltb_lt. vm_compute. reflexivity.
Defined.

Lemma lsm_iterator_correct_witness :
  let fuel : LoopFuel := 9 in
  (it ← LsmIterator.create (Some (demo_iter newer)) (Excluded [x64]); collect (W:=unit) 5 (FusedIterator.create it)) ⇓{λ _, True}
    λ r, r = filter (λ e, e.2 ≠ [] ∧ below (Excluded [x64]) e.1) newer.
Proof.
  intros fuel. apply lsm_iterator_correct.
  - apply demo_denotes. vm_compute. reflexivity.
  - unfold loop_fuel, fuel. simpl. lia.
  - simpl. lia.
Defined.

(** An iterator whose [next] throws. *)
Definition demo_thrower : StorageIterator unit unit := {|
  key _ := Ok []; value _ := Ok []; is_valid _ := true;
  next _ := lift (Err (Exn "block checksum mismatched")) |}.

Lemma fused_iterator_stays_exhausted_witness :
  let it' := FusedIterator.mk (Some tt) true in
  @FusedIterator.next_catch unit unit demo_thrower (FusedIterator.create tt) tt =
    (it', Err (Exn "block checksum mismatched")) ∧
  @is_valid unit _ (@FusedIterator.storage unit unit demo_thrower) it' = false.
Proof.
  split; [reflexivity|].
  exact (proj1 (@fused_iterator_stays_exhausted unit unit demo_thrower (FusedIterator.create tt) _ tt tt
    "block checksum mismatched" eq_refl)).
Defined.
