(* ===== verification/State.v ===== *)
(** * The state of the tree and its configuration: include/mini_lsm/lsm_storage.h,
      include/mini_lsm/compact.h

    [LsmStorageState] is the structure every operation replaces: the mutable
    memtable, the frozen ones (newest first), the level-0 tables (newest first),
    the levels or tiers (top first) and the open tables by id.  Options and
    compaction tasks are the structs of the headers; a [std::variant] with its
    [type] tag is one inductive type, whose constructors are the factory
    functions.  Counts, ids and level numbers are naturals; sizes in bytes and
    percentages, which the code converts and multiplies, are integers. *)
From S2P Require Import Prelude Endian Key Iterators Block BlockCache Double Bloom Table Wal MemTable.

(** ** Options *)
Module SimpleLeveledCompactionOptions.
Record t := mk {
  size_ratio_percent : Z;
  level0_file_num_compaction_trigger : nat;
  max_levels : nat }.
Definition default : t := mk 1 1 1.
End SimpleLeveledCompactionOptions.

Module LeveledCompactionOptions.
Record t := mk {
  level_size_multiplier : Z;
  level0_file_num_compaction_trigger : nat;
  max_levels : nat;
  base_level_size_mb : Z }.
Definition default : t := mk 10 1 4 10.
End LeveledCompactionOptions.

Module TieredCompactionOptions.
Record t := mk {
  num_tiers : nat;
  max_size_amplification_percent : Z;
  size_ratio : Z;
  min_merge_width : nat;
  max_merge_width : option nat }.
Definition default : t := mk 3 200 1 2 None.
End TieredCompactionOptions.

Module CompactionOptions.
Inductive t :=
| Leveled (o : LeveledCompactionOptions.t)
| Tiered (o : TieredCompactionOptions.t)
| Simple (o : SimpleLeveledCompactionOptions.t)
| NoCompaction.
End CompactionOptions.

Module LsmStorageOptions.
Record t := mk {
  block_size : nat;
  target_sst_size : nat;
  num_memtable_limit : nat;
  compaction_options : CompactionOptions.t;
  enable_wal : bool;
  serializable : bool;
  compression : CompressionType }.

Definition default_for_week1_test : t :=
  mk 4096 (Z.to_nat (Z.shiftl 2 20)) 50 CompactionOptions.NoCompaction false false None_.
Definition default_for_week1_day6_test : t :=
  mk 4096 (Z.to_nat (Z.shiftl 2 20)) 2 CompactionOptions.NoCompaction false false None_.
Definition default_for_week2_test (compaction_options : CompactionOptions.t) : t :=
  mk 4096 (Z.to_nat (Z.shiftl 1 20)) 2 compaction_options false false None_.
End LsmStorageOptions.

(** ** Compaction tasks *)
Module SimpleLeveledCompactionTask.
Record t := mk {
  upper_level : option nat;
  upper_level_sst_ids : list nat;
  lower_level : nat;
  lower_level_sst_ids : list nat;
  is_lower_level_bottom_level : bool }.
#[global] Instance eq_dec : EqDecision t.
Proof. solve_decision. Defined.
End SimpleLeveledCompactionTask.

Module LeveledCompactionTask.
Record t := mk {
  upper_level : option nat;
  upper_level_sst_ids : list nat;
  lower_level : nat;
  lower_level_sst_ids : list nat;
  is_lower_level_bottom_level : bool }.
#[global] Instance eq_dec : EqDecision t.
Proof. solve_decision. Defined.
End LeveledCompactionTask.

Module TieredCompactionTask.
Record t := mk { tiers : list (nat * list nat); bottom_tier_included : bool }.
#[global] Instance eq_dec : EqDecision t.
Proof. solve_decision. Defined.
End TieredCompactionTask.

Module ForceFullCompactionTask.
Record t := mk { l0_sstables : list nat; l1_sstables : list nat }.
#[global] Instance eq_dec : EqDecision t.
Proof. solve_decision. Defined.
End ForceFullCompactionTask.

Module CompactionTask.
Inductive t :=
| Leveled (task : LeveledCompactionTask.t)
| Tiered (task : TieredCompactionTask.t)
| Simple (task : SimpleLeveledCompactionTask.t)
| ForceFull (task : ForceFullCompactionTask.t).
#[global] Instance eq_dec : EqDecision t.
Proof. solve_decision. Defined.

Definition compact_to_bottom_level (task : t) : bool :=
  match task with
  | ForceFull _ => true
  | Leveled t => LeveledCompactionTask.is_lower_level_bottom_level t
  | Simple t => SimpleLeveledCompactionTask.is_lower_level_bottom_level t
  | Tiered t => TieredCompactionTask.bottom_tier_included t
  end.
End CompactionTask.

(** ** The state *)
Module LsmStorageState.
Record t := mk {
  memtable : MemTable.t;
  imm_memtables : list MemTable.t;
  l0_sstables : list nat;
  levels : list (nat * list nat);
  sstables : gmap nat SsTable.t }.

Definition create (options : LsmStorageOptions.t) : t :=
  mk (MemTable.create 0) [] []
     (match LsmStorageOptions.compaction_options options with
      | CompactionOptions.Leveled opts =>
          (λ l, (l, [])) <$> seq 1 (LeveledCompactionOptions.max_levels opts)
      | CompactionOptions.Simple opts =>
          (λ l, (l, [])) <$> seq 1 (SimpleLeveledCompactionOptions.max_levels opts)
      | CompactionOptions.Tiered _ => []
      | CompactionOptions.NoCompaction => [(1, [])]
      end)
     ∅.

(** Assignments to single fields of a copied state. *)
Definition set_memtable (s : t) (m : MemTable.t) : t :=
  mk m (imm_memtables s) (l0_sstables s) (levels s) (sstables s).
Definition set_imm_memtables (s : t) (ms : list MemTable.t) : t :=
  mk (memtable s) ms (l0_sstables s) (levels s) (sstables s).
Definition set_l0_sstables (s : t) (l0 : list nat) : t :=
  mk (memtable s) (imm_memtables s) l0 (levels s) (sstables s).
Definition set_levels (s : t) (ls : list (nat * list nat)) : t :=
  mk (memtable s) (imm_memtables s) (l0_sstables s) ls (sstables s).
Definition set_sstables (s : t) (ts : gmap nat SsTable.t) : t :=
  mk (memtable s) (imm_memtables s) (l0_sstables s) (levels s) ts.

(** [levels\[i - 1\].second], as a [size_t] index: out of bounds is undefined. *)
Definition level_files (s : t) (i : nat) : res (list nat) :=
  match i with
  | O => Err (UB "levels[size_t(-1)]")
  | S i => snd <$> deref (levels s !! i) "levels[i]"
  end.
(** [levels\[i - 1\].second = files]. *)
Definition set_level_files (s : t) (i : nat) (files : list nat) : res t :=
  match i with
  | O => Err (UB "levels[size_t(-1)]")
  | S i =>
      lv ← deref (levels s !! i) "levels[i]";
      mret (set_levels s (<[i := (lv.1, files)]> (levels s)))
  end.
End LsmStorageState.
