(* ===== verification/Layers.v ===== *)
(** * What the structure of the tree means

    Given what each table holds, the ids of a state in the order in which reads
    consult them denote one finite map: the first table that has a key decides,
    and an empty value hides it.  Compaction controllers only move ids around;
    the lemmas here say which moves leave the denoted map alone. *)
From S2P Require Import Prelude Endian Key Iterators Block BlockCache Double Bloom Table Wal MemTable State.

(** The keys with a non-empty value: an empty value is a tombstone. *)
Definition visible (m : gmap bytes bytes) : gmap bytes bytes := filter (λ e, e.2 ≠ []) m.

Lemma lookup_visible m k v : visible m !! k = Some v ↔ m !! k = Some v ∧ v ≠ [].
Proof. unfold visible. by rewrite map_lookup_filter_Some. Qed.

Lemma lookup_visible_default m k : default [] (visible m !! k) = default [] (m !! k).
Proof.
  destruct (visible m !! k) as [v|] eqn:E; simpl.
  - apply lookup_visible in E as [-> _]. done.
  - destruct (m !! k) as [[|b v]|] eqn:E'; [done| |done].
    assert (visible m !! k = Some (b :: v)) by (by apply lookup_visible). congruence.
Qed.

(** What is shown of a key depends on its entry only. *)
Lemma visible_at m1 m2 k : m1 !! k = m2 !! k → visible m1 !! k = visible m2 !! k.
Proof. intros E. apply option_eq. intros v. by rewrite !lookup_visible, E. Qed.

(** Two maps show the same keys if no lookup distinguishes them, a tombstone
    counting as an absent key. *)
Lemma visible_ext m1 m2 :
  (∀ k, default [] (m1 !! k) = default [] (m2 !! k)) → visible m1 = visible m2.
Proof.
  intros Hk. apply map_eq. intros k. apply option_eq. intros v. rewrite !lookup_visible.
  specialize (Hk k). destruct (m1 !! k), (m2 !! k); simpl in *; naive_solver.
Qed.

Lemma visible_union_r a m1 m2 : visible m1 = visible m2 → visible (a ∪ m1) = visible (a ∪ m2).
Proof.
  intros E. apply visible_ext. intros k. rewrite !lookup_union.
  pose proof (lookup_visible_default m1 k) as E1. rewrite E, lookup_visible_default in E1.
  destruct (a !! k), (m1 !! k), (m2 !! k); simpl in *; done.
Qed.

Lemma visible_union_ext a1 a2 m1 m2 : a1 = a2 → visible m1 = visible m2 → visible (a1 ∪ m1) = visible (a2 ∪ m2).
Proof. intros ->. apply visible_union_r. Qed.

Lemma visible_visible m : visible (visible m) = visible m.
Proof. apply visible_ext. intros k. apply lookup_visible_default. Qed.

Lemma size_visible m : size (visible m) ≤ size m.
Proof. rewrite <-!size_dom. apply subseteq_size, subseteq_dom, map_filter_subseteq. Qed.

Section union_list.
Implicit Types (ms : list (gmap bytes bytes)).

Lemma union_maps_app ms1 ms2 : ⋃ (ms1 ++ ms2) = (⋃ ms1 ∪ ⋃ ms2 : gmap bytes bytes).
Proof.
  induction ms1 as [|m ms1 IH]; simpl; [by rewrite (left_id_L ∅ (∪))|]. by rewrite IH, (assoc_L (∪)).
Qed.

Lemma union_maps_None ms k : (∀ m, m ∈ ms → m !! k = None) → (⋃ ms : gmap bytes bytes) !! k = None.
Proof.
  induction ms as [|m ms IH]; intros Hn; [done|]. simpl. apply lookup_union_None.
  split; [apply Hn; set_solver|]. apply IH. set_solver.
Qed.

Lemma union_maps_is_Some ms k : is_Some ((⋃ ms : gmap bytes bytes) !! k) ↔ ∃ m, m ∈ ms ∧ is_Some (m !! k).
Proof.
  induction ms as [|m ms IH]; simpl.
  - rewrite lookup_empty. split; [by intros []|]. intros (m & ?%not_elem_of_nil & _). done.
  - rewrite lookup_union_is_Some, IH. setoid_rewrite elem_of_cons. naive_solver.
Qed.

(** Moving a map past others that share no key with it. *)
Lemma union_maps_move m ms1 : Forall (λ m', m ##ₘ m') ms1 → ⋃ ms1 ∪ m = m ∪ ⋃ ms1.
Proof.
  induction 1 as [|m' ms1 Hd _ IH]; simpl; [by rewrite (left_id_L ∅ (∪)), (right_id_L ∅ (∪))|].
  rewrite <-(assoc_L (∪)), IH, !(assoc_L (∪)). f_equal. by apply map_union_comm.
Qed.

Lemma union_maps_Permutation ms1 ms2 : ms1 ≡ₚ ms2 →
  (∀ i j m m', i ≠ j → ms1 !! i = Some m → ms1 !! j = Some m' → m ##ₘ m') → ⋃ ms1 = ⋃ ms2.
Proof.
  induction 1 as [|m ms1 ms2 _ IH|m m' ms|ms1 ms2 ms3 H12 IH1 _ IH2]; intros Hd; simpl; [done|..].
  - f_equal. apply IH. intros i j m1 m2 Hij. apply (Hd (S i) (S j)). congruence.
  - rewrite !(assoc_L (∪)). f_equal. apply map_union_comm. by apply (Hd 0 1).
  - rewrite IH1 by done. apply IH2. intros i j m1 m2 Hij Hi Hj.
    symmetry in H12. apply Permutation_inj in H12 as [_ (f & Hf & Hl)].
    apply (Hd (f i) (f j)); [naive_solver|by rewrite <-Hl..].
Qed.
End union_list.

(** ** The ids of a state *)
Section stored.
Context (content : nat → gmap bytes bytes).

Definition stored (ids : list nat) : gmap bytes bytes := ⋃ (content <$> ids).

Lemma stored_app ids1 ids2 : stored (ids1 ++ ids2) = stored ids1 ∪ stored ids2.
Proof. unfold stored. by rewrite fmap_app, union_maps_app. Qed.
Lemma stored_nil : stored [] = ∅.
Proof. done. Qed.
End stored.

(** The ids in the order of reads: level 0, then the levels from the top. *)
Definition level_ids (levels : list (nat * list nat)) : list nat := mjoin levels.*2.
Definition ids_of (s : LsmStorageState.t) : list nat :=
  LsmStorageState.l0_sstables s ++ level_ids (LsmStorageState.levels s).

Lemma level_ids_app ls1 ls2 : level_ids (ls1 ++ ls2) = level_ids ls1 ++ level_ids ls2.
Proof. unfold level_ids. by rewrite fmap_app, join_app. Qed.
Lemma level_ids_cons l ls : level_ids (l :: ls) = l.2 ++ level_ids ls.
Proof. done. Qed.

(** [output] is a correct result of merging the tables [inputs]: it denotes the
    same map; without its tombstones if the task goes to the bottom. *)
Definition merges (content : nat → gmap bytes bytes) (bottom : bool) (inputs output : list nat) : Prop :=
  stored content output =
    (if bottom then visible (stored content inputs) else stored content inputs).

#[export] Instance merges_dec content bottom inputs output : Decision (merges content bottom inputs output).
Proof. unfold merges. apply _. Defined.

(** Replacing adjacent inputs by their merge, at the bottom or above it. *)
Lemma replace_adjacent content bottom before inputs output after :
  merges content bottom inputs output → (bottom = true → stored content after = ∅) →
  visible (stored content (before ++ output ++ after)) =
  visible (stored content (before ++ inputs ++ after)).
Proof.
  intros Hm Hb. rewrite !stored_app. apply visible_union_r. destruct bottom; rewrite Hm; [|done].
  by rewrite Hb, !(right_id_L ∅ (∪)), visible_visible by done.
Qed.

(** ** Removing a set of ids from a list *)

(** The loop shared by the controllers: an id that is found in the set leaves
    both the list and the set. *)
Fixpoint remove_ids (l : list nat) (ids : gset nat) : list nat * gset nat :=
  match l with
  | [] => ([], ids)
  | x :: l =>
      if decide (x ∈ ids) then remove_ids l (ids ∖ {[x]})
      else let '(kept, rest) := remove_ids l ids in (x :: kept, rest)
  end.

Lemma filter_ext_elem {A} (P Q : A → Prop) `{∀ x, Decision (P x)} `{∀ x, Decision (Q x)} (l : list A) :
  (∀ x, x ∈ l → P x ↔ Q x) → filter P l = filter Q l.
Proof.
  induction l as [|x l IH]; intros Hl; [done|]. rewrite !filter_cons.
  rewrite IH by (intros; apply Hl; set_solver).
  destruct (decide (P x)), (decide (Q x)); try done; exfalso; pose proof (Hl x); set_solver.
Qed.

Lemma remove_ids_spec l ids : NoDup l →
  remove_ids l ids = (filter (λ x, x ∉ ids) l, ids ∖ list_to_set l).
Proof.
  revert ids; induction l as [|x l IH]; intros ids Hnd.
  { simpl. f_equal. set_solver. }
  apply NoDup_cons in Hnd as [Hx Hnd]. simpl. rewrite filter_cons.
  destruct (decide (x ∈ ids)) as [Hin|Hout].
  - rewrite IH by done. destruct (decide (x ∉ ids)) as [|_]; [done|]. f_equal; [|set_solver].
    apply filter_ext_elem. intros y Hy. assert (y ≠ x) by (by intros ->). set_solver.
  - rewrite IH by done. destruct (decide (x ∉ ids)) as [_|[]]; [|done]. f_equal. set_solver.
Qed.

(** Removing a list of ids that occur in it. *)
Lemma remove_ids_list l ids : NoDup l → ids ⊆ l →
  remove_ids l (list_to_set ids) = (filter (λ x, x ∉ ids) l, ∅).
Proof.
  intros Hnd Hsub. rewrite remove_ids_spec by done. f_equal.
  - apply list_filter_iff. intros x. set_solver.
  - set_solver.
Qed.

Lemma filter_not_suffix (l1 l2 : list nat) : NoDup (l1 ++ l2) → filter (λ x, x ∉ l2) (l1 ++ l2) = l1.
Proof.
  intros (_ & Hd & _)%NoDup_app. rewrite filter_app.
  rewrite (filter_all _ l1), (filter_none _ l2); [by rewrite (right_id_L [] (++))|..];
    apply Forall_forall; naive_solver.
Qed.

(** ** What applying a compaction promises

    The ids that leave and enter the state balance, the denoted map shows the
    same keys, and nothing but level 0 and the levels changes. *)
Record applied (content : nat → gmap bytes bytes) (s : LsmStorageState.t) (output : list nat)
    (r : LsmStorageState.t * list nat) : Prop := {
  applied_visible : visible (stored content (ids_of r.1)) = visible (stored content (ids_of s));
  applied_ids : ids_of r.1 ++ r.2 ≡ₚ ids_of s ++ output;
  applied_memtable : LsmStorageState.memtable r.1 = LsmStorageState.memtable s;
  applied_imm : LsmStorageState.imm_memtables r.1 = LsmStorageState.imm_memtables s;
  applied_sstables : LsmStorageState.sstables r.1 = LsmStorageState.sstables s }.

(** The common case: adjacent inputs are replaced by the output. *)
Lemma applied_adjacent content bottom s s' before inputs output after files :
  ids_of s = before ++ inputs ++ after → ids_of s' = before ++ output ++ after →
  merges content bottom inputs output → (bottom = true → stored content after = ∅) → files ≡ₚ inputs →
  LsmStorageState.memtable s' = LsmStorageState.memtable s →
  LsmStorageState.imm_memtables s' = LsmStorageState.imm_memtables s →
  LsmStorageState.sstables s' = LsmStorageState.sstables s →
  applied content s output (s', files).
Proof.
  intros Hs Hs' Hm Hb Hf. split; simpl; [| |done..]; rewrite Hs, Hs'.
  - by eapply replace_adjacent.
  - rewrite Hf. solve_Permutation.
Qed.

(** The ids of one level among all. *)
Lemma level_ids_at levels i lv l' : levels !! i = Some lv →
  level_ids levels = level_ids (take i levels) ++ lv.2 ++ level_ids (drop (S i) levels) ∧
  level_ids (<[i := l']> levels) = level_ids (take i levels) ++ l'.2 ++ level_ids (drop (S i) levels).
Proof.
  intros Hi. assert (i < length levels) by (by eapply lookup_lt_Some). split.
  - rewrite <-(take_drop_middle levels i lv Hi) at 1. by rewrite level_ids_app, level_ids_cons.
  - rewrite insert_take_drop by done. by rewrite level_ids_app, level_ids_cons.
Qed.

(** Where the ids of a level are, and what replacing two neighbours does. *)
Lemma level_ids_pair levels i upper lower u' l' :
  levels !! i = Some upper → levels !! S i = Some lower →
  level_ids levels = level_ids (take i levels) ++ (upper.2 ++ lower.2) ++ level_ids (drop (S (S i)) levels) ∧
  level_ids (<[S i := l']> (<[i := u']> levels)) =
    level_ids (take i levels) ++ (u'.2 ++ l'.2) ++ level_ids (drop (S (S i)) levels).
Proof.
  intros Hi Hi'. assert (i < length levels) as Hlt by (by eapply lookup_lt_Some).
  assert (levels = take i levels ++ upper :: lower :: drop (S (S i)) levels) as E.
  { rewrite <-(take_drop i levels) at 1. f_equal. by rewrite (drop_S _ _ _ Hi), (drop_S _ _ _ Hi'). }
  split.
  - rewrite E at 1. by rewrite level_ids_app, !level_ids_cons, !(assoc_L (++)).
  - rewrite E at 1. rewrite insert_app_r_alt by (rewrite length_take; lia).
    rewrite length_take_le, Nat.sub_diag by lia. simpl.
    rewrite insert_app_r_alt by (rewrite length_take; lia).
    rewrite length_take_le by lia. replace (S i - i) with 1 by lia. simpl.
    by rewrite level_ids_app, !level_ids_cons, !(assoc_L (++)).
Qed.
