(* ===== verification/SimpleLeveled.v ===== *)
(** * The simple leveled controller: src/compact/simple_leveled.cpp

    Level 0 is merged whole into level 1 when it has enough tables, a level is
    merged whole into the next when the next is too small in comparison. *)
From S2P Require Import Prelude Endian Key Iterators Block BlockCache Double Bloom Table Wal MemTable State Layers.

(** ** Definitions *)
Module SimpleLeveledCompactionController.
Import SimpleLeveledCompactionTask.
Abbreviation options := SimpleLeveledCompactionOptions.t (only parsing).

Definition level_sizes (snapshot : LsmStorageState.t) : list nat :=
  length (LsmStorageState.l0_sstables snapshot) ::
  ((λ lv, length lv.2) <$> LsmStorageState.levels snapshot).

(** [size_ratio < size_ratio_percent / 100.0] for the sizes of two levels. *)
Definition too_small (o : options) (lower upper : nat) : bool :=
  let size_ratio := Double.div (Double.of_Z (Z.of_nat lower)) (Double.of_Z (Z.of_nat upper)) in
  Double.ltb size_ratio
    (Double.div (Double.of_Z (SimpleLeveledCompactionOptions.size_ratio_percent o)) Double.c100).

(** The loop over the levels, from [i] on for [n] rounds. *)
Fixpoint ratio_loop (o : options) (snapshot : LsmStorageState.t) (i n : nat) : option t :=
  match n with
  | O => None
  | S n =>
      let lower_level := i + 1 in
      match level_sizes snapshot !! i, level_sizes snapshot !! lower_level with
      | Some size, Some lower_size =>
          if decide (size = 0) then ratio_loop o snapshot (S i) n
          else if too_small o lower_size size then
            Some (mk (Some i)
                     (default [] (snd <$> LsmStorageState.levels snapshot !! (i - 1)))
                     lower_level
                     (default [] (snd <$> LsmStorageState.levels snapshot !! (lower_level - 1)))
                     (bool_decide (lower_level = SimpleLeveledCompactionOptions.max_levels o)))
          else ratio_loop o snapshot (S i) n
      | _, _ => ratio_loop o snapshot (S i) n
      end
  end.

Definition generate_compaction_task (o : options) (snapshot : LsmStorageState.t) : option t :=
  let max_levels := SimpleLeveledCompactionOptions.max_levels o in
  if decide (max_levels = 0) then None
  else if decide (SimpleLeveledCompactionOptions.level0_file_num_compaction_trigger o ≤
                  length (LsmStorageState.l0_sstables snapshot)) then
    Some (mk None (LsmStorageState.l0_sstables snapshot) 1
             (default [] (snd <$> head (LsmStorageState.levels snapshot)))
             (bool_decide (1 = max_levels)))
  else ratio_loop o snapshot 1 (max_levels - 1).

Definition apply_compaction_result (snapshot : LsmStorageState.t) (task : t) (output : list nat) :
    res (LsmStorageState.t * list nat) :=
  '(new_state, files_to_remove) ←
    match upper_level task with
    | Some upper_level =>
        files ← LsmStorageState.level_files snapshot upper_level;
        cassert (bool_decide (upper_level_sst_ids task = files)) "task.upper_level_sst_ids == levels[upper_level - 1]";;
        new_state ← LsmStorageState.set_level_files snapshot upper_level [];
        mret (new_state, files)
    | None =>
        let '(new_l0, l0_ssts_compacted) :=
          remove_ids (LsmStorageState.l0_sstables snapshot) (list_to_set (upper_level_sst_ids task)) in
        cassert (bool_decide (l0_ssts_compacted = ∅)) "l0_ssts_compacted.empty()";;
        mret (LsmStorageState.set_l0_sstables snapshot new_l0, upper_level_sst_ids task)
    end;
  files ← LsmStorageState.level_files new_state (lower_level task);
  cassert (bool_decide (lower_level_sst_ids task = files)) "task.lower_level_sst_ids == levels[lower_level - 1]";;
  new_state ← LsmStorageState.set_level_files new_state (lower_level task) output;
  mret (new_state, files_to_remove ++ files).
End SimpleLeveledCompactionController.

(** ** What a task is and what applying it does *)
Module SimpleLeveledSpec.
Import SimpleLeveledCompactionController.
Implicit Types (s : LsmStorageState.t) (task : SimpleLeveledCompactionTask.t).

(** The tasks [generate] makes for the levels of [s]: level 0 with the first
    level, or a level with the next. *)
Inductive task_of (max_levels : nat) s : SimpleLeveledCompactionTask.t → Prop :=
| task_l0 lower :
    0 < max_levels →
    default [] (snd <$> head (LsmStorageState.levels s)) = lower →
    task_of max_levels s (SimpleLeveledCompactionTask.mk None (LsmStorageState.l0_sstables s) 1 lower
                            (bool_decide (1 = max_levels)))
| task_level i upper lower :
    S i < max_levels →
    LsmStorageState.levels s !! i = Some upper → LsmStorageState.levels s !! S i = Some lower →
    task_of max_levels s (SimpleLeveledCompactionTask.mk (Some (S i)) upper.2 (S (S i)) lower.2
                            (bool_decide (S (S i) = max_levels))).

Lemma simple_ratio_loop_task o s i n task : ratio_loop o s (S i) n = Some task →
  S i + n ≤ SimpleLeveledCompactionOptions.max_levels o →
  task_of (SimpleLeveledCompactionOptions.max_levels o) s task.
Proof.
  revert i; induction n as [|n IH]; intros i; [done|]. intros Hloop Hn. simpl in Hloop.
  rewrite Nat.add_1_r in Hloop. simpl in Hloop. rewrite !list_lookup_fmap in Hloop.
  assert (S (S i) + n ≤ SimpleLeveledCompactionOptions.max_levels o) as Hn' by lia.
  destruct (LsmStorageState.levels s !! i) as [upper|] eqn:Hi; simpl in Hloop; [|by eapply IH].
  destruct (LsmStorageState.levels s !! S i) as [lower|] eqn:Hi'; simpl in Hloop; [|by eapply IH].
  case_decide; [by eapply IH|]. case_match; [|by eapply IH].
  rewrite Nat.sub_0_r, Hi in Hloop. injection Hloop as <-. by apply task_level; [lia|..].
Qed.

Lemma simple_generate_task o s task : generate_compaction_task o s = Some task →
  task_of (SimpleLeveledCompactionOptions.max_levels o) s task.
Proof.
  unfold generate_compaction_task. case_decide; [done|]. case_decide.
  - intros [= <-]. by apply task_l0; [lia|].
  - intros Hloop. eapply simple_ratio_loop_task; [exact Hloop|lia].
Qed.

(** [s'] is [s] after any number of flushes: more tables in front of level 0. *)
Definition flushed_since s s' (new : list nat) : Prop :=
  LsmStorageState.l0_sstables s' = new ++ LsmStorageState.l0_sstables s ∧
  LsmStorageState.levels s' = LsmStorageState.levels s.

Lemma apply_l0 s s' new lower_ids bottom output : flushed_since s s' new →
  NoDup (LsmStorageState.l0_sstables s') →
  (∃ x rest, LsmStorageState.levels s = (x, lower_ids) :: rest) →
  apply_compaction_result s'
    (SimpleLeveledCompactionTask.mk None (LsmStorageState.l0_sstables s) 1 lower_ids bottom) output =
  Ok (LsmStorageState.set_levels (LsmStorageState.set_l0_sstables s' new)
        (<[0 := (default 0 (fst <$> head (LsmStorageState.levels s)), output)]> (LsmStorageState.levels s)),
      LsmStorageState.l0_sstables s ++ lower_ids).
Proof.
  intros [Hl0 Hlv] Hnd (x & rest & E). unfold apply_compaction_result. simpl.
  rewrite remove_ids_list by (done || rewrite Hl0; set_solver). simpl. rewrite Hl0 in Hnd |- *.
  rewrite filter_not_suffix by done. simpl. rewrite (bool_decide_true (∅ = ∅)) by done. simpl.
  rewrite Hlv, E. simpl. rewrite bool_decide_true by done. simpl. done.
Qed.

Lemma apply_level s s' new i upper lower bottom output : flushed_since s s' new →
  LsmStorageState.levels s !! i = Some upper → LsmStorageState.levels s !! S i = Some lower →
  apply_compaction_result s'
    (SimpleLeveledCompactionTask.mk (Some (S i)) upper.2 (S (S i)) lower.2 bottom) output =
  Ok (LsmStorageState.set_levels s'
        (<[S i := (lower.1, output)]> (<[i := (upper.1, [])]> (LsmStorageState.levels s))),
      upper.2 ++ lower.2).
Proof.
  intros [_ Hlv] Hi Hi'. unfold apply_compaction_result. simpl. rewrite Hlv, Hi. simpl.
  rewrite bool_decide_true by done. simpl. rewrite ?Hlv, ?Hi. simpl. rewrite ?list_lookup_insert_ne, Hi' by lia. simpl.
  by rewrite bool_decide_true.
Qed.

End SimpleLeveledSpec.

Lemma simple_compaction_spec o (s s' : LsmStorageState.t) new task output content :
  length (LsmStorageState.levels s) = SimpleLeveledCompactionOptions.max_levels o →
  SimpleLeveledSpec.flushed_since s s' new → NoDup (LsmStorageState.l0_sstables s') →
  SimpleLeveledCompactionController.generate_compaction_task o s = Some task →
  let inputs := SimpleLeveledCompactionTask.upper_level_sst_ids task ++
                SimpleLeveledCompactionTask.lower_level_sst_ids task in
  merges content (SimpleLeveledCompactionTask.is_lower_level_bottom_level task) inputs output →
  ∃ s'', SimpleLeveledCompactionController.apply_compaction_result s' task output = Ok (s'', inputs) ∧
    length (LsmStorageState.levels s'') = SimpleLeveledCompactionOptions.max_levels o ∧
    applied content s' output (s'', inputs).
Proof.
  intros Hlen Hfl Hnd Hgen. apply SimpleLeveledSpec.simple_generate_task in Hgen. pose proof Hfl as [Hl0 Hlv].
  destruct Hgen as [lower Hmax Hlower|i upper lower Hmax Hi Hi']; simpl; intros Hm.
  - destruct (LsmStorageState.levels s) as [|[x files] rest] eqn:E; [simpl in Hlen; lia|].
    simpl in Hlower. subst lower. eexists. split; [|split].
    + eapply SimpleLeveledSpec.apply_l0; [done..|]. by eauto.
    + simpl. by rewrite length_insert, E.
    + rewrite E. apply (applied_adjacent content (bool_decide (1 = SimpleLeveledCompactionOptions.max_levels o)) _ _
        new (LsmStorageState.l0_sstables s ++ files) output (level_ids rest)); try done.
      * unfold ids_of. rewrite Hl0, Hlv. simpl. by rewrite level_ids_cons, !(assoc_L (++)).
      * intros Hb%bool_decide_eq_true. assert (rest = []) as -> by (apply length_zero_iff_nil; simpl in Hlen; lia). done.
  - eexists. split; [|split].
    + by eapply SimpleLeveledSpec.apply_level.
    + simpl. by rewrite !length_insert.
    + destruct (level_ids_pair _ _ _ _ (upper.1, []) (lower.1, output) Hi Hi') as [E E'].
      apply (applied_adjacent content (bool_decide (S (S i) = SimpleLeveledCompactionOptions.max_levels o)) _ _
        (LsmStorageState.l0_sstables s' ++ level_ids (take i (LsmStorageState.levels s)))
        (upper.2 ++ lower.2) output (level_ids (drop (S (S i)) (LsmStorageState.levels s)))); try done.
      * unfold ids_of. by rewrite Hlv, E, !(assoc_L (++)).
      * unfold ids_of. simpl. rewrite E'. simpl. by rewrite !(assoc_L (++)).
      * intros Hb%bool_decide_eq_true. by rewrite drop_ge by lia.
Qed.

(** ** Properties *)

(** C21: a simple-leveled compaction does not change what the tree stores.
    Take any task the controller generates for a state with the configured
    number of levels, any number of flushes in the meantime, and an output that
    denotes the merge of the task's inputs, upper level first (without its
    tombstones exactly if the task says it goes to the bottom level).  Then
    applying the task succeeds: none of its assertions fires, it reports exactly
    the input tables for removal, puts the output in their place, leaves the
    number of levels and the memtables alone, and reads of the new structure
    show the same keys and values as reads of the old one. *)
Theorem simple_compaction_correct o (s s' : LsmStorageState.t) new task output content :
  length (LsmStorageState.levels s) = SimpleLeveledCompactionOptions.max_levels o →
  SimpleLeveledSpec.flushed_since s s' new → NoDup (LsmStorageState.l0_sstables s') →
  SimpleLeveledCompactionController.generate_compaction_task o s = Some task →
  let inputs := SimpleLeveledCompactionTask.upper_level_sst_ids task ++
                SimpleLeveledCompactionTask.lower_level_sst_ids task in
  merges content (SimpleLeveledCompactionTask.is_lower_level_bottom_level task) inputs output →
  ∃ s'', SimpleLeveledCompactionController.apply_compaction_result s' task output = Ok (s'', inputs) ∧
    length (LsmStorageState.levels s'') = SimpleLeveledCompactionOptions.max_levels o ∧
    applied content s' output (s'', inputs).
Proof. apply simple_compaction_spec. Qed.

(** Three levels of files; table 5 holds a tombstone, table 7 is the merge. *)
Definition demo_content (id : nat) : gmap bytes bytes :=
  match id with
  | 4 => {[ [x61] := [x01] ]}
  | 5 => {[ [x61] := []; [x62] := [x02] ]}
  | 3 => {[ [x62] := [x09]; [x63] := [x03] ]}
  | 1 => {[ [x61] := [x08] ]}
  | 7 => {[ [x61] := []; [x62] := [x02]; [x63] := [x03] ]}
  | _ => ∅
  end.
Definition demo_leveled_state (l0 : list nat) : LsmStorageState.t :=
  LsmStorageState.mk (MemTable.create 8) [] l0 [(1, [3]); (2, [1])] ∅.

Lemma simple_compaction_correct_witness :
  let o := SimpleLeveledCompactionOptions.mk 50 2 2 in
  let task := SimpleLeveledCompactionTask.mk None [5; 4] 1 [3] false in
  SimpleLeveledCompactionController.generate_compaction_task o (demo_leveled_state [5; 4]) = Some task ∧
  ∃ s'', SimpleLeveledCompactionController.apply_compaction_result (demo_leveled_state [6; 5; 4]) task [7] =
    Ok (s'', [5; 4; 3]) ∧ applied demo_content (demo_leveled_state [6; 5; 4]) [7] (s'', [5; 4; 3]).
Proof.
  intros o task. split; [vm_compute; reflexivity|].
  destruct (simple_compaction_correct o (demo_leveled_state [5; 4]) (demo_leveled_state [6; 5; 4]) [6] task [7] demo_content)
    as (s'' & Happ & _ & Hok).
  - reflexivity.
  - split; reflexivity.
  - apply (bool_decide_unpack _). vm_compute. exact I.
  - vm_compute. reflexivity.
  - apply (bool_decide_unpack _). vm_compute. exact I.
  - exists s''. split; [exact Happ|exact Hok].
Defined.
