(* ===== verification/Tiered.v ===== *)
(** * The tiered controller: src/compact/tiered.cpp

    There is no level 0: every flush puts a tier of one table in front.  A task
    merges a prefix of the tiers into one. *)
From S2P Require Import Prelude Endian Key Iterators Block BlockCache Double Bloom Table Wal MemTable State Layers.

(** ** Definitions *)
Module TieredCompactionController.
Import TieredCompactionTask.
Abbreviation options := TieredCompactionOptions.t (only parsing).
Implicit Types (snapshot : LsmStorageState.t) (levels : list (nat * list nat)).

(** The number of tables in some tiers. *)
Definition tables_in levels : nat := sum_list ((λ lv, length lv.2) <$> levels).

(** The loop over the tiers, from [id] on for [n] rounds, with [size] tables in
    the tiers before. *)
Fixpoint ratio_loop (o : options) levels (id n size : nat) : option t :=
  match n with
  | O => None
  | S n =>
      match levels !! id, levels !! (id + 1) with
      | Some tier, Some next_tier =>
          let size := size + length tier.2 in
          let size_ratio_trigger :=
            Double.div (Double.add Double.c100 (Double.of_Z (TieredCompactionOptions.size_ratio o))) Double.c100 in
          let current_size_ratio :=
            Double.div (Double.of_Z (Z.of_nat (length next_tier.2))) (Double.of_Z (Z.of_nat size)) in
          if Double.ltb size_ratio_trigger current_size_ratio &&
             bool_decide (TieredCompactionOptions.min_merge_width o ≤ id + 1)
          then Some (mk (take (id + 1) levels) false)
          else ratio_loop o levels (S id) n size
      | _, _ => None
      end
  end.

Definition generate_compaction_task (o : options) snapshot : res (option t) :=
  cassert (bool_decide (LsmStorageState.l0_sstables snapshot = [])) "should not add l0 ssts in tiered compaction";;
  let levels := LsmStorageState.levels snapshot in
  if decide (length levels < TieredCompactionOptions.num_tiers o) then mret None
  else
    back ← deref (last levels) "levels[0] of an empty vector";
    let size := tables_in (take (length levels - 1) levels) in
    let space_amp_ratio :=
      Double.mul (Double.div (Double.of_Z (Z.of_nat size)) (Double.of_Z (Z.of_nat (length back.2)))) Double.c100 in
    if Double.leb (Double.of_Z (TieredCompactionOptions.max_size_amplification_percent o)) space_amp_ratio
    then mret (Some (mk levels true))
    else
      match ratio_loop o levels 0 (length levels - 1) 0 with
      | Some task => mret (Some task)
      | None =>
          let num_tiers_to_take :=
            match TieredCompactionOptions.max_merge_width o with
            | Some width => length levels `min` width
            | None => length levels
            end in
          mret (Some (mk (take num_tiers_to_take levels) (bool_decide (num_tiers_to_take ≤ length levels))))
      end.

(** The accumulators of the loop of [apply_compaction_result]. *)
Record acc := Acc {
  kept : list (nat * list nat);
  new_tier_added : bool;
  files_to_remove : list nat;
  tier_to_remove : gmap nat (list nat) }.

Definition new_tier (output : list nat) : nat * list nat := (default 0 (head output), output).

Definition apply_step (output : list nat) (a : acc) (tier : nat * list nat) : res acc :=
  let '(tier_id, files) := tier in
  a ← match tier_to_remove a !! tier_id with
      | Some files' =>
          cassert (bool_decide (files' = files)) "file changed after issuing compaction task";;
          mret (Acc (kept a) (new_tier_added a) (files_to_remove a ++ files') (delete tier_id (tier_to_remove a)))
      | None => mret (Acc (kept a ++ [tier]) (new_tier_added a) (files_to_remove a) (tier_to_remove a))
      end;
  mret (if bool_decide (tier_to_remove a = ∅) && negb (new_tier_added a)
        then Acc (kept a ++ [new_tier output]) true (files_to_remove a) (tier_to_remove a)
        else a).

Definition apply_compaction_result snapshot (task : t) (output : list nat) :
    res (LsmStorageState.t * list nat) :=
  cassert (bool_decide (LsmStorageState.l0_sstables snapshot = [])) "should not add l0 ssts in tiered compaction";;
  let tier_to_remove := foldl (λ m tier, <[tier.1 := tier.2]> m) ∅ (tiers task) in
  a ← foldl (λ m tier, a ← m; apply_step output a tier)
        (mret (Acc [] false [] tier_to_remove)) (LsmStorageState.levels snapshot);
  cassert (bool_decide (TieredCompactionController.tier_to_remove a = ∅)) "some tiers not found";;
  mret (LsmStorageState.set_levels snapshot (kept a), files_to_remove a).
End TieredCompactionController.

(** ** What a task is and what applying it does *)
Module TieredSpec.
Import TieredCompactionController.
Implicit Types (s : LsmStorageState.t) (tiers levels : list (nat * list nat)).

Definition fold_step output (m : res acc) levels : res acc :=
  foldl (λ m tier, a ← m; apply_step output a tier) m levels.

Definition to_remove tiers : gmap nat (list nat) := list_to_map tiers.

Lemma fold_insert_to_map tiers (m : gmap nat (list nat)) : NoDup tiers.*1 →
  foldl (λ m tier, <[tier.1 := tier.2]> m) m tiers = to_remove tiers ∪ m.
Proof.
  revert m; induction tiers as [|[x files] tiers IH]; intros m; simpl.
  { intros _. unfold to_remove. simpl. by rewrite (left_id_L ∅ (∪)). }
  intros [Hx Hnd]%NoDup_cons. rewrite IH by done. unfold to_remove. simpl.
  assert ((list_to_map tiers : gmap nat (list nat)) !! x = None) by (by apply not_elem_of_list_to_map_1).
  by rewrite <-insert_union_r, insert_union_l by done.
Qed.

(** Tiers that are not to be removed are kept. *)
Lemma fold_kept output a levels : Forall (λ lv, tier_to_remove a !! lv.1 = None) levels →
  (tier_to_remove a ≠ ∅ ∨ new_tier_added a = true) →
  fold_step output (mret a) levels = mret (Acc (kept a ++ levels) (new_tier_added a) (files_to_remove a) (tier_to_remove a)).
Proof.
  revert a; induction levels as [|[x files] levels IH]; intros a Hn Ha.
  { unfold fold_step. simpl. rewrite (right_id_L [] (++)). by destruct a. }
  apply Forall_cons in Hn as [Hx Hn]. unfold fold_step in *. simpl in *. rewrite Hx. simpl.
  assert (bool_decide (tier_to_remove a = ∅) && negb (new_tier_added a) = false) as ->.
  { destruct Ha as [?| ->]; [by rewrite bool_decide_false|by rewrite andb_false_r]. }
  specialize (IH (Acc (kept a ++ [(x, files)]) (new_tier_added a) (files_to_remove a) (tier_to_remove a)) Hn Ha).
  unfold mret, res_ret in *. rewrite IH. simpl. by rewrite <-(assoc_L (++)).
Qed.

Lemma fold_step_cons output a lv levels :
  fold_step output (mret a) (lv :: levels) = fold_step output (apply_step output a lv) levels.
Proof. done. Qed.

(** One tier of the task. *)
Lemma step_removed output k f x files rest : rest !! x = None →
  apply_step output (Acc k false f (<[x := files]> rest)) (x, files) =
  mret (Acc (if decide (rest = ∅) then k ++ [new_tier output] else k) (bool_decide (rest = ∅)) (f ++ files) rest).
Proof.
  intros Hx. simpl. rewrite lookup_insert_eq. simpl. rewrite (bool_decide_true (files = files)) by done. simpl.
  rewrite delete_insert_id by done. rewrite andb_true_r. simpl.
  destruct (decide (rest = ∅)) as [E|E]; [rewrite !bool_decide_true by done|rewrite !bool_decide_false by done]; done.
Qed.

(** The tiers of the task leave one after the other; after the last one comes
    the new tier. *)
Lemma fold_removed output k f tier tiers : NoDup (tier :: tiers).*1 →
  fold_step output (mret (Acc k false f (to_remove (tier :: tiers)))) (tier :: tiers) =
  mret (Acc (k ++ [new_tier output]) true (f ++ level_ids (tier :: tiers)) ∅).
Proof.
  revert tier f; induction tiers as [|tier2 tiers IH]; intros [x files] f Hnd; rewrite fold_step_cons;
    rewrite fmap_cons in Hnd; apply NoDup_cons in Hnd as [Hx Hnd].
  - change (to_remove [(x, files)]) with (<[x := files]> ∅ : gmap nat (list nat)). 
    rewrite step_removed by done. unfold level_ids. simpl. by rewrite (right_id_L [] (++)).
  - change (to_remove ((x, files) :: tier2 :: tiers)) with (<[x := files]> (to_remove (tier2 :: tiers))).
    rewrite step_removed by (by apply not_elem_of_list_to_map_1).
    assert (to_remove (tier2 :: tiers) ≠ ∅) by apply insert_non_empty.
    rewrite decide_False, bool_decide_false, IH by done. rewrite (level_ids_cons (x, files)). simpl. by rewrite (assoc_L (++)).
Qed.

Lemma apply_prefix s new tiers old output bottom :
  LsmStorageState.l0_sstables s = [] → LsmStorageState.levels s = new ++ tiers ++ old →
  NoDup (LsmStorageState.levels s).*1 → tiers ≠ [] →
  apply_compaction_result s (TieredCompactionTask.mk tiers bottom) output =
  Ok (LsmStorageState.set_levels s (new ++ [new_tier output] ++ old), level_ids tiers).
Proof.
  intros Hl0 Hlv Hnd Hne. unfold apply_compaction_result. rewrite Hl0, bool_decide_true by done. simpl.
  rewrite Hlv, !fmap_app in Hnd. apply NoDup_app in Hnd as (_ & Hd & (Hndt & Hdo & _)%NoDup_app).
  rewrite fold_insert_to_map, (right_id_L ∅ (∪)), Hlv by done.
  change (foldl _ _ (new ++ tiers ++ old)) with
    (fold_step output (mret (Acc [] false [] (to_remove tiers))) (new ++ tiers ++ old)).
  unfold fold_step. rewrite !foldl_app. fold (fold_step output (mret (Acc [] false [] (to_remove tiers))) new).
  rewrite fold_kept; simpl; cycle 1.
  { apply Forall_forall. intros lv Hin. apply not_elem_of_list_to_map_1. intros Ht.
    apply (Hd lv.1); [by apply list_elem_of_fmap_2|]. set_solver. }
  { left. destruct tiers as [|[x files] tiers]; [done|]. apply insert_non_empty. }
  destruct tiers as [|tier tiers]; [done|].
  fold (fold_step output (mret (Acc new false [] (to_remove (tier :: tiers)))) (tier :: tiers)).
  rewrite fold_removed by done.
  fold (fold_step output (mret (Acc (new ++ [new_tier output]) true ([] ++ level_ids (tier :: tiers)) ∅)) old).
  rewrite fold_kept; simpl; [|apply Forall_true; intros; apply lookup_empty|by right].
  by rewrite bool_decide_true, <-(assoc_L (++)) by done.
Qed.

(** The tasks [generate] makes. *)
Definition task_of (o : options) s (task : TieredCompactionTask.t) : Prop :=
  ∃ n, TieredCompactionTask.tiers task = take n (LsmStorageState.levels s) ∧
    LsmStorageState.levels s ≠ [] ∧
    (n = 0 → TieredCompactionOptions.max_merge_width o = Some 0) ∧
    (TieredCompactionTask.bottom_tier_included task = true →
      length (LsmStorageState.levels s) ≤ n ∨
      TieredCompactionOptions.max_merge_width o = Some n ∧ n < length (LsmStorageState.levels s)).

Lemma tiered_generate_l0 o s r : generate_compaction_task o s = Ok r → LsmStorageState.l0_sstables s = [].
Proof. unfold generate_compaction_task. destruct (bool_decide (LsmStorageState.l0_sstables s = [])) eqn:E; [|done]. by apply bool_decide_eq_true in E. Qed.

Lemma tiered_ratio_loop_task o levels id n size task : ratio_loop o levels id n size = Some task →
  ∃ m, 0 < m ∧ task = TieredCompactionTask.mk (take m levels) false.
Proof.
  revert id size; induction n as [|n IH]; intros id size; simpl; [done|].
  destruct (levels !! id), (levels !! (id + 1)); try done.
  destruct (Double.ltb _ _ && _); [|by apply IH]. intros [= <-]. exists (id + 1). split; [lia|done].
Qed.

Lemma tiered_generate_task o s task : generate_compaction_task o s = Ok (Some task) → task_of o s task.
Proof.
  unfold generate_compaction_task, task_of.
  destruct (bool_decide (LsmStorageState.l0_sstables s = [])); [|by intros [=]]. simpl.
  destruct (decide (_ < _)) as [|Hn]; [by intros [=]|].
  destruct (last (LsmStorageState.levels s)) as [back|] eqn:Hlast; simpl; [|done].
  assert (LsmStorageState.levels s ≠ []) as Hne by (intros E; by rewrite E in Hlast).
  assert (0 < length (LsmStorageState.levels s)) by (destruct (LsmStorageState.levels s); [done|simpl; lia]).
  destruct (Double.leb _ _); [|destruct (ratio_loop _ _ _ _ _) as [task'|] eqn:Hloop]; intros [= <-]; simpl.
  - exists (length (LsmStorageState.levels s)). rewrite take_ge by lia. split_and!; [done..|lia|by left; lia].
  - apply tiered_ratio_loop_task in Hloop as (m & Hm & ->). exists m. split_and!; [done..|lia|done].
  - eexists. split_and!; [done..| |].
    + destruct (TieredCompactionOptions.max_merge_width o); [|lia]. intros. f_equal. lia.
    + intros _. destruct (TieredCompactionOptions.max_merge_width o) as [width|]; [|left; lia].
      destruct (decide (width < length (LsmStorageState.levels s))); [right|left; lia].
      split; [f_equal; lia|lia].
Qed.

(** A state with at least one tier and no level 0 gets an answer. *)
Lemma tiered_generate_total o s : LsmStorageState.l0_sstables s = [] →
  (TieredCompactionOptions.num_tiers o = 0 → LsmStorageState.levels s ≠ []) →
  ∃ r, generate_compaction_task o s = Ok r.
Proof.
  intros Hl0 Hne. unfold generate_compaction_task. rewrite Hl0, (bool_decide_true ([] = [])) by done. simpl.
  destruct (decide (_ < _)) as [|Hn]; [by eexists|].
  destruct (last (LsmStorageState.levels s)) as [back|] eqn:Hlast; simpl.
  - destruct (Double.leb _ _); [by eexists|]. destruct (ratio_loop _ _ _ _ _); by eexists.
  - apply last_None in Hlast. rewrite Hlast in Hne, Hn. simpl in Hn. destruct Hne; [lia|done].
Qed.
End TieredSpec.

Lemma tiered_compaction_spec o (s s' : LsmStorageState.t) new task output content :
  TieredCompactionOptions.max_merge_width o = None →
  LsmStorageState.l0_sstables s' = [] → LsmStorageState.levels s' = new ++ LsmStorageState.levels s →
  NoDup (LsmStorageState.levels s').*1 →
  TieredCompactionController.generate_compaction_task o s = Ok (Some task) →
  let inputs := level_ids (TieredCompactionTask.tiers task) in
  merges content (TieredCompactionTask.bottom_tier_included task) inputs output →
  ∃ s'' old, LsmStorageState.levels s = TieredCompactionTask.tiers task ++ old ∧
    TieredCompactionController.apply_compaction_result s' task output = Ok (s'', inputs) ∧
    LsmStorageState.levels s'' = new ++ [(default 0 (head output), output)] ++ old ∧
    applied content s' output (s'', inputs).
Proof.
  intros Hw Hl0 Hlv Hnd (n & Htiers & Hne & Hn & Hb)%TieredSpec.tiered_generate_task.
  rewrite Hw in Hn, Hb. intros inputs Hm.
  assert (LsmStorageState.levels s = TieredCompactionTask.tiers task ++ drop n (LsmStorageState.levels s)) as E.
  { by rewrite Htiers, take_drop. }
  assert (TieredCompactionTask.tiers task ≠ []) as Hne'.
  { rewrite Htiers. destruct n as [|n]; [by discriminate Hn|]. by destruct (LsmStorageState.levels s). }
  rewrite E in Hlv. destruct task as [tiers bottom]. simpl in *.
  exists (LsmStorageState.set_levels s' (new ++ [TieredCompactionController.new_tier output] ++ drop n (LsmStorageState.levels s))),
    (drop n (LsmStorageState.levels s)).
  split_and!; [done| |done|].
  - by eapply TieredSpec.apply_prefix.
  - apply (applied_adjacent content bottom _ _ (level_ids new) inputs output
      (level_ids (drop n (LsmStorageState.levels s)))); try done.
    + unfold ids_of. by rewrite Hl0, Hlv, !level_ids_app.
    + unfold ids_of. simpl. rewrite Hl0, level_ids_app, level_ids_cons. done.
    + intros Hbot. destruct (Hb Hbot) as [?|[? _]]; [|done]. by rewrite drop_ge by done.
Qed.

(** ** Properties *)

(** C22: a tiered compaction does not change what the tree stores.  Let tier ids
    be distinct and [max_merge_width] unset (its default).  Take any task the
    controller generates, any tiers flushed in front of the tree in the meantime,
    and an output that denotes the merge of the task's tiers in order, without
    tombstones exactly if the task says that the bottom tier is included.  Then
    applying the task succeeds: no assertion fires, the task's tiers are replaced
    by one tier with the output, all their tables are reported for removal, and
    reads show the same keys and values as before. *)
Theorem tiered_compaction_correct o (s s' : LsmStorageState.t) new task output content :
  TieredCompactionOptions.max_merge_width o = None →
  LsmStorageState.l0_sstables s' = [] → LsmStorageState.levels s' = new ++ LsmStorageState.levels s →
  NoDup (LsmStorageState.levels s').*1 →
  TieredCompactionController.generate_compaction_task o s = Ok (Some task) →
  let inputs := level_ids (TieredCompactionTask.tiers task) in
  merges content (TieredCompactionTask.bottom_tier_included task) inputs output →
  ∃ s'' old, LsmStorageState.levels s = TieredCompactionTask.tiers task ++ old ∧
    TieredCompactionController.apply_compaction_result s' task output = Ok (s'', inputs) ∧
    LsmStorageState.levels s'' = new ++ [(default 0 (head output), output)] ++ old ∧
    applied content s' output (s'', inputs).
Proof. apply tiered_compaction_spec. Qed.

(** Three tiers of one table: the newest deletes the key the oldest has. *)
Definition demo_tier_content (id : nat) : gmap bytes bytes :=
  match id with
  | 12 => {[ [x61] := [] ]}
  | 11 => {[ [x62] := [x02] ]}
  | 10 => {[ [x61] := [x01] ]}
  | 13 => {[ [x62] := [x02] ]}
  | _ => ∅
  end.
Definition demo_tiered_state (new : list (nat * list nat)) : LsmStorageState.t :=
  LsmStorageState.mk (MemTable.create 9) [] [] (new ++ [(12, [12]); (11, [11]); (10, [10])]) ∅.

Lemma tiered_compaction_correct_witness :
  let o := TieredCompactionOptions.mk 3 300 1 2 None in
  let task := TieredCompactionTask.mk [(12, [12]); (11, [11]); (10, [10])] true in
  TieredCompactionController.generate_compaction_task o (demo_tiered_state []) = Ok (Some task) ∧
  ∃ s'', TieredCompactionController.apply_compaction_result (demo_tiered_state [(14, [14])]) task [13] =
      Ok (s'', [12; 11; 10]) ∧
    LsmStorageState.levels s'' = [(14, [14]); (13, [13])] ∧
    applied demo_tier_content (demo_tiered_state [(14, [14])]) [13] (s'', [12; 11; 10]).
Proof.
  intros o task. split; [vm_compute; reflexivity|].
  destruct (tiered_compaction_correct o (demo_tiered_state []) (demo_tiered_state [(14, [14])]) [(14, [14])] task [13]
    demo_tier_content) as (s'' & old & Hold & Happ & Hlv & Hok).
  - reflexivity.
  - reflexivity.
  - reflexivity.
  - apply (bool_decide_unpack _). vm_compute. exact I.
  - vm_compute. reflexivity.
  - apply (bool_decide_unpack _). vm_compute. exact I.
  - exists s''. split; [exact Happ|]. split; [|exact Hok].
    rewrite Hlv. simpl in Hold. injection Hold as <-. reflexivity.
Defined.

(** C24: with [max_merge_width] set, a tiered compaction brings deleted keys back.
    Take any task that the controller marks as including the bottom tier though it
    leaves tiers out.  Then [max_merge_width] is set and smaller than the number of
    tiers: the code tests [levels.size() >= num_tiers_to_take], which always holds.
    No assertion fires when a correct output, which has no tombstones, is
    installed, and exactly the keys whose newest entry in the merged tiers is a
    tombstone change: where reads found nothing they find what an older tier
    has. *)
Theorem tiered_merge_width_loses_deletion o (s : LsmStorageState.t) task output content :
  NoDup (LsmStorageState.levels s).*1 →
  TieredCompactionController.generate_compaction_task o s = Ok (Some task) →
  TieredCompactionTask.bottom_tier_included task = true →
  TieredCompactionTask.tiers task ≠ [] → TieredCompactionTask.tiers task ≠ LsmStorageState.levels s →
  let inputs := level_ids (TieredCompactionTask.tiers task) in
  merges content true inputs output →
  ∃ s' old, LsmStorageState.levels s = TieredCompactionTask.tiers task ++ old ∧
    TieredCompactionOptions.max_merge_width o = Some (length (TieredCompactionTask.tiers task)) ∧
    TieredCompactionController.apply_compaction_result s task output = Ok (s', inputs) ∧
    let before := visible (stored content (ids_of s)) in
    let after := visible (stored content (ids_of s')) in
    (∀ k, stored content inputs !! k = Some [] →
      before !! k = None ∧ after !! k = visible (stored content (level_ids old)) !! k) ∧
    (∀ k, stored content inputs !! k ≠ Some [] → after !! k = before !! k).
Proof.
  intros Hnd Hgen Hbot Hne Hpart inputs Hm.
  assert (LsmStorageState.l0_sstables s = []) as Hl0 by (by eapply TieredSpec.tiered_generate_l0).
  apply TieredSpec.tiered_generate_task in Hgen as (n & Htiers & _ & _ & Hb). destruct task as [tiers bottom]. simpl in *. subst bottom.
  set (old := drop n (LsmStorageState.levels s)).
  assert (LsmStorageState.levels s = tiers ++ old) as E by (by unfold old; rewrite Htiers, take_drop).
  destruct (Hb eq_refl) as [Hge|(Hw & Hlt)]; [by rewrite take_ge in Htiers|].
  assert (length tiers = n) as Hlen by (rewrite Htiers, length_take; lia).
  exists (LsmStorageState.set_levels s ([TieredCompactionController.new_tier output] ++ old)), old.
  split; [done|]. split; [by rewrite Hlen|]. split; [by apply (TieredSpec.apply_prefix s [])|]. cbv zeta.
  unfold merges in Hm. unfold ids_of. cbn [LsmStorageState.l0_sstables LsmStorageState.levels LsmStorageState.set_levels app].
  rewrite Hl0, E, level_ids_app, level_ids_cons, !app_nil_l, !stored_app. cbn [TieredCompactionController.new_tier snd]. fold inputs. rewrite Hm.
  split.
  - intros k Hk. split.
    + apply eq_None_not_Some. intros [v [Hv ?]%lookup_visible]. rewrite lookup_union, Hk, union_Some_l in Hv. congruence.
    + apply visible_at. rewrite lookup_union. replace (visible (stored content inputs) !! k) with (None : option bytes); [by rewrite (left_id_L None _)|].
      symmetry. apply eq_None_not_Some. intros [v [Hv ?]%lookup_visible]. congruence.
  - intros k Hk. apply visible_at. rewrite !lookup_union. f_equal. apply option_eq. intros v. rewrite lookup_visible. naive_solver.
Qed.

(** The key is deleted in the newest tier, and the oldest has a value. *)
Lemma tiered_merge_width_loses_deletion_witness :
  let o := TieredCompactionOptions.mk 3 300 1 2 (Some 2) in
  let s := demo_tiered_state [] in
  let task := TieredCompactionTask.mk [(12, [12]); (11, [11])] true in
  TieredCompactionController.generate_compaction_task o s = Ok (Some task) ∧
  ∃ s', TieredCompactionController.apply_compaction_result s task [13] = Ok (s', [12; 11]) ∧
    visible (stored demo_tier_content (ids_of s)) !! [x61] = None ∧
    visible (stored demo_tier_content (ids_of s')) !! [x61] = Some [x01].
Proof.
  intros o s task. split; [vm_compute; reflexivity|].
  destruct (tiered_merge_width_loses_deletion o s task [13] demo_tier_content) as (s' & old & Hold & _ & Happ & Hback & _).
  - apply (bool_decide_unpack _). vm_compute. exact I.
  - vm_compute. reflexivity.
  - reflexivity.
  - discriminate.
  - discriminate.
  - apply (bool_decide_unpack _). vm_compute. exact I.
  - exists s'. split; [exact Happ|]. destruct (Hback [x61]) as [E1 E2]; [vm_compute; reflexivity|]. split; [exact E1|].
    rewrite E2. simpl in Hold. injection Hold as <-. vm_compute. reflexivity.
Defined.
