(* ===== verification/Leveled.v ===== *)
(** * The leveled controller: src/compact/leveled.cpp

    Level 0 is merged into the base level, the topmost level that has a target
    size; a level that outgrew its target gives its oldest table to the next
    level.  Only the tables of the lower level whose key ranges overlap take
    part, so levels stay sorted runs of disjoint tables. *)
From S2P Require Import Prelude Endian Key Iterators Block BlockCache Double Rounding Bloom Table TableIterator Wal MemTable State Layers.

(** [std::sort], as insertion sort: an element goes before the first one it is
    less than. *)
Section sort.
Context {A : Type} (lt : A → A → bool).

Fixpoint insert_sorted (x : A) (l : list A) : list A :=
  match l with
  | [] => [x]
  | y :: l' => if lt x y then x :: l else y :: insert_sorted x l'
  end.
Definition std_sort (l : list A) : list A := foldr insert_sorted [] l.

Lemma insert_sorted_perm x l : insert_sorted x l ≡ₚ x :: l.
Proof.
  induction l as [|y l IH]; simpl; [done|]. destruct (lt x y); [done|]. rewrite IH. apply Permutation_swap.
Qed.
Lemma std_sort_perm l : std_sort l ≡ₚ l.
Proof. induction l as [|x l IH]; simpl; [done|]. by rewrite insert_sorted_perm, IH. Qed.

(** If [lt] decides which of two elements comes first in the order [R], the
    result is in that order. *)
Context (R : A → A → Prop) `{!Transitive R}.
Definition decided (x y : A) : Prop := R x y ∧ lt x y = true ∨ R y x ∧ lt x y = false.

Lemma insert_sorted_sorted x l : StronglySorted R l → Forall (decided x) l → StronglySorted R (insert_sorted x l).
Proof.
  induction l as [|y l IH]; intros Hs Hd; simpl; [by repeat constructor|].
  apply StronglySorted_cons in Hs as [Hy Hs]. apply Forall_cons in Hd as [[[Hxy ->]|[Hyx ->]] Hd].
  - apply StronglySorted_cons. split; [|by apply StronglySorted_cons].
    constructor; [done|]. eapply Forall_impl; [exact Hy|]. intros z Hz. by transitivity y.
  - apply StronglySorted_cons. split; [|by apply IH]. rewrite insert_sorted_perm. by constructor.
Qed.

Lemma std_sort_sorted l : (∀ i j x y, l !! i = Some x → l !! j = Some y → i < j → decided x y) →
  StronglySorted R (std_sort l).
Proof.
  induction l as [|x l IH]; intros Hd; simpl; [constructor|]. apply insert_sorted_sorted.
  - apply IH. intros i j y z Hi Hj Hij. apply (Hd (S i) (S j)); [done..|lia].
  - rewrite std_sort_perm. apply Forall_forall. intros y (j & Hj)%list_elem_of_lookup.
    apply (Hd 0 (S j)); [done..|lia].
Qed.
End sort.

(** ** Definitions *)
Module LeveledCompactionController.
Import LeveledCompactionTask.
Abbreviation options := LeveledCompactionOptions.t (only parsing).
Implicit Types (snapshot : LsmStorageState.t) (o : options).

(** The loop that finds the key range of some tables: [first], [begin_key], [end_key]. *)
Definition range_step snapshot (a : bool * bytes * bytes) (id : nat) : bool * bytes * bytes :=
  let '(first, begin_key, end_key) := a in
  match LsmStorageState.sstables snapshot !! id with
  | Some sst =>
      (false,
       if first || KeySlice.ltb (SsTable.first_key sst) begin_key then SsTable.first_key sst else begin_key,
       if first || KeySlice.gtb (SsTable.last_key sst) end_key then SsTable.last_key sst else end_key)
  | None => a
  end.

Definition overlaps snapshot (begin_key end_key : bytes) (sst_id : nat) : bool :=
  match LsmStorageState.sstables snapshot !! sst_id with
  | Some sst => negb (KeySlice.ltb (SsTable.last_key sst) begin_key || KeySlice.gtb (SsTable.first_key sst) end_key)
  | None => false
  end.

Definition find_overlapping_ssts snapshot (sst_ids : list nat) (in_level : nat) : list nat :=
  let '(first, begin_key, end_key) := foldl (range_step snapshot) (true, [], []) sst_ids in
  if first : bool then []
  else if decide (in_level = 0 ∨ length (LsmStorageState.levels snapshot) < in_level) then []
  else filter (λ id, overlaps snapshot begin_key end_key id = true)
         (default [] (snd <$> LsmStorageState.levels snapshot !! (in_level - 1))).

(** The bytes in the tables of a level. *)
Definition level_bytes snapshot (files : list nat) : Z :=
  foldl (λ sum id, match LsmStorageState.sstables snapshot !! id with
                   | Some sst => u64 (sum + SsTable.table_size sst)
                   | None => sum
                   end) 0%Z files.

Definition real_level_size o snapshot : list Z :=
  (λ i, match LsmStorageState.levels snapshot !! i with
        | Some lv => level_bytes snapshot lv.2
        | None => 0%Z
        end) <$> seq 0 (LeveledCompactionOptions.max_levels o).

(** The loop that computes the targets, from the last level but one upwards. *)
Fixpoint target_loop o (base_level_size_bytes : Z) (i : nat) (target : list Z) (base_level : nat) :
    res (list Z * nat) :=
  match i with
  | O => mret (target, base_level)
  | S i =>
      next_level_size ← deref (target !! (i + 1)) "target_level_size[i + 1]";
      this_level_size ← (if decide (LeveledCompactionOptions.level_size_multiplier o = 0)%Z
                         then Err (UB "division by zero")
                         else mret (next_level_size / LeveledCompactionOptions.level_size_multiplier o)%Z);
      let target := if decide (base_level_size_bytes < next_level_size)%Z
                    then <[i := this_level_size]> target else target in
      let base_level := if decide (0 < default 0 (target !! i))%Z then i + 1 else base_level in
      target_loop o base_level_size_bytes i target base_level
  end.

(** [target_level_size] and [base_level]. *)
Definition target_level_size o (real : list Z) : res (list Z * nat) :=
  let max_levels := LeveledCompactionOptions.max_levels o in
  let base_level_size_bytes := u64 (u64 (LeveledCompactionOptions.base_level_size_mb o * 1024) * 1024) in
  let target := replicate max_levels 0%Z in
  match max_levels with
  | O => mret (target, max_levels)
  | S last =>
      let target := <[last := Z.max (default 0%Z (real !! last)) base_level_size_bytes]> target in
      target_loop o base_level_size_bytes last target max_levels
  end.

(** The levels over their target with their priorities, from [level] on. *)
Fixpoint priorities (real target : list Z) (level : nat) : list (double * nat) :=
  match real, target with
  | r :: real, t :: target =>
      let rest := priorities real target (S level) in
      if decide (0 < t)%Z then
        let prio := Double.div (Double.of_Z r) (Double.of_Z t) in
        if Double.ltb Double.c1 prio then (prio, level + 1) :: rest else rest
      else rest
  | _, _ => []
  end.

Definition priority_lt (a b : double * nat) : bool :=
  if Double.eqb a.1 b.1 then bool_decide (a.2 < b.2) else Double.ltb b.1 a.1.

Definition generate_compaction_task o snapshot : res (option t) :=
  let max_levels := LeveledCompactionOptions.max_levels o in
  let real := real_level_size o snapshot in
  '(target, base_level) ← target_level_size o real;
  if decide (LeveledCompactionOptions.level0_file_num_compaction_trigger o ≤
             length (LsmStorageState.l0_sstables snapshot)) then
    mret (Some (mk None (LsmStorageState.l0_sstables snapshot) base_level
                   (find_overlapping_ssts snapshot (LsmStorageState.l0_sstables snapshot) base_level)
                   (bool_decide (base_level = max_levels))))
  else
    match std_sort priority_lt (priorities real target 0) with
    | [] => mret None
    | (_, level) :: _ =>
        if decide (level = 0) then mret None
        else
          match LsmStorageState.levels snapshot !! (level - 1) with
          | Some (_, f :: files) =>
              let selected_sst := foldl Nat.min f files in
              mret (Some (mk (Some level) [selected_sst] (level + 1)
                             (find_overlapping_ssts snapshot [selected_sst] (level + 1))
                             (bool_decide (level + 1 = max_levels))))
          | _ => mret None
          end
    end.

(** The comparison of the final [std::sort]. *)
Definition first_key_lt snapshot (x y : nat) : bool :=
  match LsmStorageState.sstables snapshot !! x, LsmStorageState.sstables snapshot !! y with
  | Some sst_x, Some sst_y => KeySlice.ltb (SsTable.first_key sst_x) (SsTable.first_key sst_y)
  | _, _ => bool_decide (x < y)
  end.

Definition apply_compaction_result snapshot (task : t) (output : list nat) (in_recovery : bool) :
    res (LsmStorageState.t * list nat) :=
  let upper_set : gset nat := list_to_set (upper_level_sst_ids task) in
  let lower_set : gset nat := list_to_set (lower_level_sst_ids task) in
  new_state ←
    match upper_level task with
    | Some upper_level =>
        files ← LsmStorageState.level_files snapshot upper_level;
        let '(new_upper, upper_set) := remove_ids files upper_set in
        cassert (bool_decide (upper_set = ∅)) "upper_set.empty()";;
        LsmStorageState.set_level_files snapshot upper_level new_upper
    | None =>
        let '(new_l0, upper_set) := remove_ids (LsmStorageState.l0_sstables snapshot) upper_set in
        cassert (bool_decide (upper_set = ∅)) "upper_set.empty()";;
        mret (LsmStorageState.set_l0_sstables snapshot new_l0)
    end;
  let files_to_remove := upper_level_sst_ids task ++ lower_level_sst_ids task in
  files ← LsmStorageState.level_files new_state (lower_level task);
  let '(new_lower, lower_set) := remove_ids files lower_set in
  cassert (bool_decide (lower_set = ∅)) "lower_set.empty()";;
  let new_lower := new_lower ++ output in
  let new_lower := if in_recovery then new_lower else std_sort (first_key_lt snapshot) new_lower in
  new_state ← LsmStorageState.set_level_files new_state (lower_level task) new_lower;
  mret (new_state, files_to_remove).
End LeveledCompactionController.

(** ** Levels as runs of key ranges *)
Module LeveledSpec.
Import LeveledCompactionController.
Implicit Types (s : LsmStorageState.t) (task : LeveledCompactionTask.t) (ids : list nat).

(** [lo] and [hi] are the first and last key of the table [id]. *)
Definition range (ts : gmap nat SsTable.t) (id : nat) (lo hi : bytes) : Prop :=
  ∃ t, ts !! id = Some t ∧ SsTable.first_key t = lo ∧ SsTable.last_key t = hi ∧ key_le lo hi.

(** One table ends before the other starts. *)
Definition before ts (x y : nat) : Prop := ∃ lx hx ly hy,
  range ts x lx hx ∧ range ts y ly hy ∧ key_lt hx ly.

(** The tables exist, and their keys are within their ranges. *)
Definition bounded (content : nat → gmap bytes bytes) ts (id : nat) : Prop := ∃ lo hi,
  range ts id lo hi ∧ ∀ k, is_Some (content id !! k) → key_le lo k ∧ key_le k hi.

Definition run ts ids : Prop := StronglySorted (before ts) ids.

Lemma range_fun ts id lo hi lo' hi' : range ts id lo hi → range ts id lo' hi' → lo = lo' ∧ hi = hi'.
Proof. intros (t & Ht & <- & <- & _) (t' & Ht' & <- & <- & _). by simplify_eq. Qed.

#[global] Instance before_trans ts : Transitive (before ts).
Proof.
  intros x y z (lx & hx & ly & hy & Hx & Hy & Hxy) (ly' & hy' & lz & hz & Hy' & Hz & Hyz).
  destruct (range_fun _ _ _ _ _ _ Hy Hy') as [<- <-]. exists lx, hx, lz, hz. split_and!; [done..|].
  destruct Hy as (_ & _ & _ & _ & ?). key_order.
Qed.

Lemma before_decided s x y : before (LsmStorageState.sstables s) x y ∨ before (LsmStorageState.sstables s) y x →
  decided (first_key_lt s) (before (LsmStorageState.sstables s)) x y.
Proof.
  intros [Hb|Hb]; [left|right]; (split; [done|]);
    destruct Hb as (? & ? & ? & ? & (t & Ht & <- & <- & ?) & (t' & Ht' & <- & <- & ?) & ?);
    unfold first_key_lt; rewrite Ht, Ht', ltb_spec; [apply bool_decide_true|apply bool_decide_false; intros ?]; key_order.
Qed.

Lemma before_disjoint content ts x y : bounded content ts x → bounded content ts y → before ts x y →
  content x ##ₘ content y.
Proof.
  intros (lx & hx & Hx & Hkx) (ly & hy & Hy & Hky) (? & ? & ? & ? & Hx' & Hy' & Hlt).
  destruct (range_fun _ _ _ _ _ _ Hx Hx') as [<- <-]. destruct (range_fun _ _ _ _ _ _ Hy Hy') as [<- <-].
  apply map_disjoint_spec. intros k v1 v2 H1 H2.
  destruct (Hkx k) as [_ ?]; [by eexists|]. destruct (Hky k) as [? _]; [by eexists|]. key_order.
Qed.

Lemma run_lookup_before ts ids i j x y : run ts ids → ids !! i = Some x → ids !! j = Some y → i < j → before ts x y.
Proof. intros Hr. by apply strongly_sorted_lookup. Qed.

Lemma run_filter ts (P : nat → Prop) `{∀ x, Decision (P x)} ids : run ts ids → run ts (filter P ids).
Proof.
  induction 1 as [|x ids _ IH Hx]; [constructor|]. rewrite filter_cons. case_decide; [|done].
  apply StronglySorted_cons. split; [|done]. apply Forall_forall. intros y [_ Hy]%list_elem_of_filter.
  by eapply (proj1 (Forall_forall _ _) Hx).
Qed.

(** The tables of a run in any order denote the same map. *)
Lemma run_stored_perm content ts ids ids' : run ts ids → Forall (bounded content ts) ids → ids ≡ₚ ids' →
  stored content ids = stored content ids'.
Proof.
  intros Hr Hb Hp. apply union_maps_Permutation; [by rewrite Hp|].
  intros i j m m' Hij Hi Hj. rewrite list_lookup_fmap in Hi, Hj.
  destruct (ids !! i) as [x|] eqn:Ex, (ids !! j) as [y|] eqn:Ey; try done. simplify_eq/=.
  pose proof (Forall_lookup_1 _ _ _ _ Hb Ex). pose proof (Forall_lookup_1 _ _ _ _ Hb Ey).
  destruct (decide (i < j)).
  - eapply before_disjoint; [done..|]. by eapply run_lookup_before.
  - symmetry. eapply before_disjoint; [done..|]. eapply run_lookup_before; [done..|lia].
Qed.

(** *** The key range of some tables *)
Lemma fold_range s ids lo hi : Forall (λ id, ∃ l h, range (LsmStorageState.sstables s) id l h) ids →
  let '(first, b, e) := foldl (range_step s) (false, lo, hi) ids in
  first = false ∧ key_le b lo ∧ key_le hi e ∧
  ∀ id l h, id ∈ ids → range (LsmStorageState.sstables s) id l h → key_le b l ∧ key_le h e.
Proof.
  revert lo hi; induction ids as [|id ids IH]; intros lo hi Hids; simpl.
  { split_and!; [done|key_order|key_order|]. by intros ???  ?%not_elem_of_nil. }
  apply Forall_cons in Hids as [(l & h & (t & Ht & Hl & Hh & Hlh)) Hids]. rewrite Ht. simpl. rewrite Hl, Hh.
  set (lo' := if KeySlice.ltb l lo then l else lo). set (hi' := if KeySlice.gtb h hi then h else hi).
  specialize (IH lo' hi' Hids).
  assert (key_le lo' lo ∧ key_le lo' l) as [? ?].
  { subst lo'. rewrite ltb_spec. case_bool_decide; split; key_order. }
  assert (key_le hi hi' ∧ key_le h hi') as [? ?].
  { subst hi'. rewrite gtb_spec. case_bool_decide; split; key_order. }
  destruct (foldl _ _ _) as [[first b] e]. destruct IH as (-> & ? & ? & IH). split_and!; [done|key_order..|].
  intros id' l' h' [->|Hin]%elem_of_cons Hr; [|by eapply IH].
  destruct Hr as (t' & Ht' & <- & <- & _). simplify_eq. split; key_order.
Qed.

Lemma fold_range_first s id ids : (∃ l h, range (LsmStorageState.sstables s) id l h) →
  Forall (λ id, ∃ l h, range (LsmStorageState.sstables s) id l h) ids →
  ∃ b e, foldl (range_step s) (true, [], []) (id :: ids) = (false, b, e) ∧ key_le b e ∧
  ∀ id' l h, id' ∈ id :: ids → range (LsmStorageState.sstables s) id' l h → key_le b l ∧ key_le h e.
Proof.
  intros (l & h & Hr) Hids. pose proof Hr as (t & Ht & Hl & Hh & Hlh). simpl. rewrite Ht, Hl, Hh. simpl.
  pose proof (fold_range s ids l h Hids) as Hf. destruct (foldl _ _ _) as [[first b] e].
  destruct Hf as (-> & ? & ? & Hf). exists b, e. split_and!; [done|key_order|].
  intros id' l' h' [->|Hin]%elem_of_cons Hr'; [|by eapply Hf].
  destruct (range_fun _ _ _ _ _ _ Hr Hr') as [<- <-]. split; key_order.
Qed.

(** *** The tables that take part and those that stay *)

(** Every table of [files] outside [lower] lies on one side of all [inputs]. *)
Definition apart ts (files lower inputs : list nat) : Prop := ∀ x, x ∈ files → x ∉ lower →
  (∀ y, y ∈ inputs → before ts x y) ∨ (∀ y, y ∈ inputs → before ts y x).

Definition ranged ts (id : nat) : Prop := ∃ lo hi, range ts id lo hi.
Lemma bounded_ranged content ts id : bounded content ts id → ranged ts id.
Proof. intros (lo & hi & ? & _). by exists lo, hi. Qed.

Lemma overlaps_spec s b e x lo hi : range (LsmStorageState.sstables s) x lo hi →
  overlaps s b e x = bool_decide (key_le b hi ∧ key_le lo e).
Proof.
  intros (t & Ht & <- & <- & _). unfold overlaps. rewrite Ht, ltb_spec, gtb_spec.
  rewrite <-bool_decide_or, <-bool_decide_not. apply bool_decide_ext. split.
  - intros Hn. split; apply dec_stable; intros ?%key_nle; apply Hn; auto.
  - intros [??] [?|?]; key_order.
Qed.

Lemma find_nil s lv : find_overlapping_ssts s [] lv = [].
Proof. done. Qed.

Lemma find_apart s upper lv x files : LsmStorageState.levels s !! lv = Some (x, files) →
  run (LsmStorageState.sstables s) files → Forall (ranged (LsmStorageState.sstables s)) files →
  Forall (ranged (LsmStorageState.sstables s)) upper →
  let lower := find_overlapping_ssts s upper (S lv) in
  lower ⊆ files ∧ apart (LsmStorageState.sstables s) files lower (upper ++ lower).
Proof.
  intros Hlv Hrun Hfiles Hupper. destruct upper as [|u upper].
  { rewrite find_nil. simpl. split; [set_solver|]. intros z _ _. left. by intros y ?%not_elem_of_nil. }
  apply Forall_cons in Hupper as [Hu Hupper].
  destruct (fold_range_first s u upper Hu Hupper) as (b & e & Hfold & Hbe & Hin).
  assert (find_overlapping_ssts s (u :: upper) (S lv) = filter (λ id, overlaps s b e id = true) files) as E.
  { unfold find_overlapping_ssts. rewrite Hfold. rewrite decide_False.
    - replace (S lv - 1) with lv by lia. by rewrite Hlv.
    - apply lookup_lt_Some in Hlv. lia. }
  rewrite E. cbv zeta. split; [apply list_subseteq_filter|].
  intros z Hz Hnz. pose proof (proj1 (Forall_forall _ _) Hfiles z Hz) as (zl & zh & Hr).
  assert (¬ (key_le b zh ∧ key_le zl e)) as Hno.
  { intros Ho. apply Hnz, list_elem_of_filter. split; [|done]. rewrite (overlaps_spec _ _ _ _ _ _ Hr). by apply bool_decide_true. }
  pose proof Hr as (_ & _ & _ & _ & Hzlh).
  assert (∀ y, y ∈ filter (λ id, overlaps s b e id = true) files → y ∈ files ∧ y ≠ z ∧
    ∃ yl yh, range (LsmStorageState.sstables s) y yl yh ∧ key_le b yh ∧ key_le yl e) as Hlow.
  { intros y [Hov Hy]%list_elem_of_filter. split; [done|].
    split; [intros ->; apply Hnz, list_elem_of_filter; done|].
    pose proof (proj1 (Forall_forall _ _) Hfiles y Hy) as (yl & yh & Hry). exists yl, yh.
    rewrite (overlaps_spec _ _ _ _ _ _ Hry) in Hov. apply bool_decide_eq_true in Hov. done. }
  assert (∀ y, y ∈ files → y ≠ z → before (LsmStorageState.sstables s) z y ∨ before (LsmStorageState.sstables s) y z) as Hcmp.
  { intros y (i & Hi)%list_elem_of_lookup Hne. apply list_elem_of_lookup in Hz as (j & Hj).
    destruct (decide (i < j)); [right; by eapply run_lookup_before|].
    left. eapply run_lookup_before; [done..|]. assert (i ≠ j) by congruence. lia. }
  destruct (decide (key_lt zh b)) as [Hb|Hb].
  - left. intros y [Hy|Hy]%elem_of_app.
    + assert (ranged (LsmStorageState.sstables s) y) as (yl & yh & Hry).
      { apply elem_of_cons in Hy as [->|Hy]; [done|]. by eapply (proj1 (Forall_forall _ _) Hupper). }
      exists zl, zh, yl, yh. split_and!; [done..|]. destruct (Hin y yl yh Hy Hry). key_order.
    + apply Hlow in Hy as (Hy & Hne & yl & yh & Hry & ? & ?). destruct (Hcmp y Hy Hne) as [|Hb']; [done|].
      destruct Hb' as (? & ? & ? & ? & Hry' & Hr' & ?).
      destruct (range_fun _ _ _ _ _ _ Hry Hry') as [<- <-]. destruct (range_fun _ _ _ _ _ _ Hr Hr') as [<- <-]. key_order.
  - right. assert (key_lt e zl) as He.
    { destruct (decide (key_lt e zl)); [done|]. exfalso. apply Hno. split; key_order. }
    intros y [Hy|Hy]%elem_of_app.
    + assert (ranged (LsmStorageState.sstables s) y) as (yl & yh & Hry).
      { apply elem_of_cons in Hy as [->|Hy]; [done|]. by eapply (proj1 (Forall_forall _ _) Hupper). }
      exists yl, yh, zl, zh. split_and!; [done..|]. destruct (Hin y yl yh Hy Hry). key_order.
    + apply Hlow in Hy as (Hy & Hne & yl & yh & Hry & ? & ?). destruct (Hcmp y Hy Hne) as [Hb'|]; [|done].
      destruct Hb' as (? & ? & ? & ? & Hr' & Hry' & ?).
      destruct (range_fun _ _ _ _ _ _ Hry Hry') as [<- <-]. destruct (range_fun _ _ _ _ _ _ Hr Hr') as [<- <-]. key_order.
Qed.

(** *** The level after the compaction *)

(** The first and the last key of the output table are keys of the inputs. *)
Definition spans content ts inputs (o : nat) : Prop := ∃ lo hi, range ts o lo hi ∧
  is_Some (stored content inputs !! lo) ∧ is_Some (stored content inputs !! hi).

Lemma stored_is_Some content ids k :
  is_Some (stored content ids !! k) ↔ ∃ id, id ∈ ids ∧ is_Some (content id !! k).
Proof.
  unfold stored. rewrite union_maps_is_Some. split.
  - intros (m & (id & -> & Hid)%list_elem_of_fmap & Hk). by exists id.
  - intros (id & Hid & Hk). exists (content id). split; [by apply list_elem_of_fmap_2|done].
Qed.

Lemma stored_disjoint content ids ids' :
  (∀ x y, x ∈ ids → y ∈ ids' → content x ##ₘ content y) → stored content ids ##ₘ stored content ids'.
Proof.
  intros Hd. apply map_disjoint_spec. intros k v1 v2 H1 H2.
  destruct (proj1 (stored_is_Some content ids k)) as (x & Hx & v & Hv); [by eexists|].
  destruct (proj1 (stored_is_Some content ids' k)) as (y & Hy & v' & Hv'); [by eexists|].
  eapply (proj1 (map_disjoint_spec _ _) (Hd x y Hx Hy)); done.
Qed.

Section replace.
Context (content : nat → gmap bytes bytes) (s : LsmStorageState.t) (files lower inputs output : list nat).
#[local] Abbreviation ts := (LsmStorageState.sstables s).
Context (Hrun : run ts files) (Hfiles : Forall (bounded content ts) files).
Context (Hinputs : Forall (bounded content ts) inputs).
Context (Hlower : lower ⊆ files) (Hapart : apart ts files lower inputs).
Context (Hout : run ts output) (Hspans : Forall (spans content ts inputs) output).

Definition kept : list nat := filter (λ x, x ∉ lower) files.

Lemma kept_side z o : z ∈ kept → o ∈ output → before ts z o ∨ before ts o z.
Proof.
  intros [Hnz Hz]%list_elem_of_filter Ho.
  pose proof (proj1 (Forall_forall _ _) Hspans o Ho) as (lo & hi & Hr & Hlo & Hhi).
  apply stored_is_Some in Hlo as (t1 & Ht1 & Hk1). apply stored_is_Some in Hhi as (t2 & Ht2 & Hk2).
  pose proof (proj1 (Forall_forall _ _) Hinputs t1 Ht1) as (l1 & h1 & Hr1 & Hb1).
  pose proof (proj1 (Forall_forall _ _) Hinputs t2 Ht2) as (l2 & h2 & Hr2 & Hb2).
  destruct (Hb1 lo Hk1) as [? _]. destruct (Hb2 hi Hk2) as [_ ?].
  destruct (Hapart z Hz Hnz) as [Hb|Hb].
  - left. destruct (Hb t1 Ht1) as (zl & zh & l & h & Hzr & Hr' & ?).
    destruct (range_fun _ _ _ _ _ _ Hr1 Hr') as [<- <-]. exists zl, zh, lo, hi. split_and!; [done..|key_order].
  - right. destruct (Hb t2 Ht2) as (l & h & zl & zh & Hr' & Hzr & ?).
    destruct (range_fun _ _ _ _ _ _ Hr2 Hr') as [<- <-]. exists lo, hi, zl, zh. split_and!; [done..|key_order].
Qed.

Lemma run_kept : run ts kept.
Proof. by apply run_filter. Qed.

(** The new level is a sorted run again. *)
Lemma new_level_run : run ts (std_sort (first_key_lt s) (kept ++ output)).
Proof.
  apply std_sort_sorted; [apply _|]. intros i j x y Hi Hj Hij. apply before_decided.
  apply lookup_app_Some in Hi as [Hi|[Hli Hi]]; apply lookup_app_Some in Hj as [Hj|[Hlj Hj]].
  - left. eapply run_lookup_before; [apply run_kept|done..].
  - apply kept_side; by eapply list_elem_of_lookup_2.
  - apply lookup_lt_Some in Hj. lia.
  - left. eapply run_lookup_before; [exact Hout|done..|lia].
Qed.

Lemma new_level_perm : std_sort (first_key_lt s) (kept ++ output) ≡ₚ output ++ kept.
Proof. rewrite std_sort_perm. apply Permutation_app_comm. Qed.

Hypothesis Hnd : NoDup files.
Hypothesis Hlower_nd : NoDup lower.

Lemma files_perm : files ≡ₚ lower ++ kept.
Proof.
  unfold kept. rewrite <-(filter_app_complement (λ x, x ∈ lower) files) at 1. f_equiv.
  apply NoDup_Permutation; [by apply NoDup_filter|done|].
  intros x. rewrite list_elem_of_filter. split; [tauto|]. intros Hx. split; [done|]. by apply Hlower.
Qed.

Lemma kept_disjoint : stored content inputs ##ₘ stored content kept.
Proof.
  apply stored_disjoint. intros x z Hx [Hnz Hz]%list_elem_of_filter.
  pose proof (proj1 (Forall_forall _ _) Hinputs x Hx). pose proof (proj1 (Forall_forall _ _) Hfiles z Hz).
  destruct (Hapart z Hz Hnz) as [Hb|Hb]; specialize (Hb x Hx).
  - symmetry. by eapply before_disjoint.
  - by eapply before_disjoint.
Qed.

Hypothesis Hout_bounded : Forall (bounded content ts) output.

(** What a state shows before and after: [upper] comes before the level, what
    remains of it before [upper]. *)
Lemma level_replaced bottom above upper after : inputs = upper ++ lower →
  merges content bottom inputs output → (bottom = true → stored content after = ∅) →
  visible (stored content (above ++ std_sort (first_key_lt s) (kept ++ output) ++ after)) =
  visible (stored content (above ++ upper ++ files ++ after)).
Proof.
  intros Hin Hm Hafter.
  assert (stored content (std_sort (first_key_lt s) (kept ++ output)) = stored content (output ++ kept)) as E1.
  { eapply run_stored_perm; [apply new_level_run| |apply new_level_perm].
    rewrite new_level_perm. apply Forall_app. split; [done|]. apply Forall_forall.
    intros x [_ Hx]%list_elem_of_filter. by eapply (proj1 (Forall_forall _ _) Hfiles). }
  assert (stored content files = stored content (lower ++ kept)) as E2.
  { eapply run_stored_perm; [done..|apply files_perm]. }
  rewrite !stored_app, E1, E2, !stored_app. apply visible_union_r.
  rewrite <-!(assoc_L (∪)), (assoc_L (∪) (stored content upper)), <-(stored_app content upper lower), <-Hin.
  destruct bottom; unfold merges in Hm; rewrite Hm; [|done]. rewrite Hafter, (right_id_L ∅ (∪)) by done.
  apply visible_ext. intros k. rewrite !lookup_union.
  pose proof kept_disjoint as Hd. rewrite map_disjoint_spec in Hd. specialize (Hd k).
  destruct (stored content inputs !! k) as [v|] eqn:E.
  - assert (stored content kept !! k = None) as ->.
    { destruct (stored content kept !! k) eqn:E'; [|done]. exfalso. by eapply Hd. }
    rewrite !(right_id_L None _). by rewrite lookup_visible_default, E.
  - assert (visible (stored content inputs) !! k = None) as ->; [|done].
    destruct (visible _ !! k) eqn:E'; [|done]. apply lookup_visible in E' as [? _]. congruence.
Qed.
End replace.

(** *** The tasks *)
Inductive task_of (max_levels : nat) s : LeveledCompactionTask.t → Prop :=
| task_l0 base :
    1 ≤ base ≤ max_levels →
    task_of max_levels s (LeveledCompactionTask.mk None (LsmStorageState.l0_sstables s) base
      (find_overlapping_ssts s (LsmStorageState.l0_sstables s) base) (bool_decide (base = max_levels)))
| task_level lv x files sst :
    LsmStorageState.levels s !! lv = Some (x, files) → sst ∈ files → S lv < max_levels →
    task_of max_levels s (LeveledCompactionTask.mk (Some (S lv)) [sst] (S (S lv))
      (find_overlapping_ssts s [sst] (S (S lv))) (bool_decide (S (S lv) = max_levels))).

Lemma target_loop_spec o bytes i target base : LeveledCompactionOptions.level_size_multiplier o ≠ 0%Z →
  i < length target → 1 ≤ base ≤ length target →
  ∃ target' base', target_loop o bytes i target base = Ok (target', base') ∧
    length target' = length target ∧ 1 ≤ base' ≤ length target ∧ (∀ j, i ≤ j → target' !! j = target !! j).
Proof.
  intros Ho. revert target base; induction i as [|i IH]; intros target base Hi Hbase; simpl.
  { by exists target, base. }
  destruct (lookup_lt_is_Some_2 target (i + 1)) as [next Hnext]; [lia|]. rewrite Hnext. simpl.
  rewrite decide_False by done. simpl. set (target' := if decide _ then _ else target).
  assert (length target' = length target) as Hlen by (subst target'; case_decide; [apply length_insert|done]).
  assert (∀ j, S i ≤ j → target' !! j = target !! j) as Hsame.
  { intros j Hj. subst target'. case_decide; [|done]. apply list_lookup_insert_ne. lia. }
  set (base' := if decide _ then _ else base).
  assert (1 ≤ base' ≤ length target') by (subst base'; case_decide; lia).
  destruct (IH target' base') as (t' & b' & -> & ? & ? & Ht'); [lia|done|]. exists t', b'. split_and!; [done|lia..|].
  intros j Hj. rewrite Ht' by lia. by apply Hsame.
Qed.

(** The last level is never over its target. *)
Lemma target_level_size_spec o real : LeveledCompactionOptions.level_size_multiplier o ≠ 0%Z →
  0 < LeveledCompactionOptions.max_levels o →
  ∃ target base, target_level_size o real = Ok (target, base) ∧ 1 ≤ base ≤ LeveledCompactionOptions.max_levels o ∧
    target !! (LeveledCompactionOptions.max_levels o - 1) = Some (Z.max (default 0%Z (real !! (LeveledCompactionOptions.max_levels o - 1)))
      (u64 (u64 (LeveledCompactionOptions.base_level_size_mb o * 1024) * 1024))).
Proof.
  intros Ho Hmax. unfold target_level_size. destruct (LeveledCompactionOptions.max_levels o) as [|last] eqn:E; [lia|].
  replace (S last - 1) with last by lia.
  set (target := <[last := _]> _). assert (length target = S last) as Hl by (subst target; by rewrite length_insert, length_replicate).
  destruct (target_loop_spec o (u64 (u64 (LeveledCompactionOptions.base_level_size_mb o * 1024) * 1024)) last target (S last) Ho)
    as (t & b & Ht & _ & Hb & Hlast); [lia|lia|]. exists t, b. split_and!; [exact Ht|lia|lia|].
  rewrite Hlast by done. subst target. apply list_lookup_insert_eq. rewrite length_replicate. lia.
Qed.

Lemma level_bytes_bound s files : (0 ≤ level_bytes s files < 2 ^ 64)%Z.
Proof.
  unfold level_bytes. set (f := λ sum id, _). assert (∀ a, 0 ≤ a < 2 ^ 64 → 0 ≤ foldl f a files < 2 ^ 64)%Z as Hf; [|by apply Hf].
  induction files as [|id files IH]; intros a Ha; simpl; [done|]. apply IH. unfold f.
  destruct (LsmStorageState.sstables s !! id); [|done]. by apply Z.mod_pos_bound.
Qed.

Lemma real_level_size_lookup o s i r : real_level_size o s !! i = Some r →
  i < LeveledCompactionOptions.max_levels o ∧ (0 ≤ r < 2 ^ 64)%Z.
Proof.
  unfold real_level_size. intros (j & -> & [-> Hj]%lookup_seq)%list_lookup_fmap_Some. split; [done|].
  destruct (LsmStorageState.levels s !! _); [apply level_bytes_bound|done].
Qed.

Lemma priorities_elem real target start p level : (p, level) ∈ priorities real target start →
  ∃ i r t, level = S (start + i) ∧ real !! i = Some r ∧ target !! i = Some t ∧ (0 < t)%Z ∧
    Double.ltb Double.c1 (Double.div (Double.of_Z r) (Double.of_Z t)) = true.
Proof.
  revert target start; induction real as [|r real IH]; intros [|t target] start; simpl; try by intros ?%not_elem_of_nil.
  assert ((p, level) ∈ priorities real target (S start) → ∃ i r0 t0, level = S (start + i) ∧ (r :: real) !! i = Some r0 ∧
    (t :: target) !! i = Some t0 ∧ (0 < t0)%Z ∧ Double.ltb Double.c1 (Double.div (Double.of_Z r0) (Double.of_Z t0)) = true) as Hrest.
  { intros (i & r0 & t0 & -> & ?)%IH. exists (S i), r0, t0. split; [lia|done]. }
  case_decide; [|done]. destruct (Double.ltb _ _) eqn:E; [|done].
  intros [[= -> ->]|Hin]%elem_of_cons; [|auto]. exists 0, r, t. split; [lia|done].
Qed.

(** A level that gives a table away is not the last one. *)
Lemma priorities_not_last o s target p level :
  target !! (LeveledCompactionOptions.max_levels o - 1) = Some (Z.max (default 0%Z (real_level_size o s !! (LeveledCompactionOptions.max_levels o - 1)))
    (u64 (u64 (LeveledCompactionOptions.base_level_size_mb o * 1024) * 1024))) →
  (p, level) ∈ priorities (real_level_size o s) target 0 → level < LeveledCompactionOptions.max_levels o.
Proof.
  intros Hlast (i & r & t & -> & Hr & Ht & Hpos & Hover)%priorities_elem. destruct (real_level_size_lookup _ _ _ _ Hr) as [Hi Hb].
  destruct (decide (i = LeveledCompactionOptions.max_levels o - 1)) as [->|]; [exfalso|lia].
  rewrite Hr, Ht in Hlast. injection Hlast as ->. simpl in Hover.
  pose proof (Z.mod_pos_bound (u64 (LeveledCompactionOptions.base_level_size_mb o * 1024) * 1024) (2 ^ 64) ltac:(done)) as Hu.
  unfold u64 at 1 in Hpos. unfold u64 at 1 in Hover. by rewrite ratio_le_one in Hover by lia.
Qed.

Lemma min_elem f files : foldl Nat.min f files ∈ f :: files.
Proof.
  revert f; induction files as [|x files IH]; intros f; simpl; [set_solver|].
  specialize (IH (f `min` x)). rewrite elem_of_cons in IH. destruct IH as [->|IH]; [|by rewrite !elem_of_cons; auto].
  destruct (Nat.min_spec f x) as [[_ ->]|[_ ->]]; rewrite !elem_of_cons; auto.
Qed.

Lemma leveled_generate_task o s task : generate_compaction_task o s = Ok (Some task) →
  LeveledCompactionOptions.level_size_multiplier o ≠ 0%Z → 0 < LeveledCompactionOptions.max_levels o →
  task_of (LeveledCompactionOptions.max_levels o) s task.
Proof.
  intros Hgen Ho Hmax. unfold generate_compaction_task in Hgen.
  destruct (target_level_size_spec o (real_level_size o s) Ho Hmax) as (target & base & Ht & Hbase & Hlast).
  rewrite Ht in Hgen. simpl in Hgen. case_decide; [injection Hgen as <-; by apply task_l0|].
  destruct (std_sort _ _) as [|[p level] rest] eqn:Hsort; [done|]. case_decide; [done|].
  assert (level < LeveledCompactionOptions.max_levels o) as Hlevel.
  { eapply priorities_not_last; [exact Hlast|]. rewrite <-(std_sort_perm priority_lt), Hsort. by left. }
  destruct (LsmStorageState.levels s !! (level - 1)) as [[x [|f files]]|] eqn:Hlv; [done| |done].
  destruct level as [|lv]; [done|]. replace (S lv - 1) with lv in Hlv by lia.
  rewrite Nat.add_1_r in Hgen. injection Hgen as <-. eapply task_level; [exact Hlv|apply min_elem|exact Hlevel].
Qed.

Lemma leveled_generate_total o s : LeveledCompactionOptions.level_size_multiplier o ≠ 0%Z →
  0 < LeveledCompactionOptions.max_levels o → ∃ r, generate_compaction_task o s = Ok r.
Proof.
  intros Ho Hmax. unfold generate_compaction_task.
  destruct (target_level_size_spec o (real_level_size o s) Ho Hmax) as (target & base & -> & _). simpl.
  case_decide; [by eexists|]. destruct (std_sort _ _) as [|[p level] rest]; [by eexists|].
  case_decide; [by eexists|]. destruct (LsmStorageState.levels s !! (level - 1)) as [[x [|f files]]|]; by eexists.
Qed.

(** *** Applying a task *)
Lemma apply_l0_task s new l0 base lower x files bottom output :
  LsmStorageState.l0_sstables s = new ++ l0 → NoDup (new ++ l0) →
  LsmStorageState.levels s !! base = Some (x, files) → NoDup files → lower ⊆ files →
  apply_compaction_result s (LeveledCompactionTask.mk None l0 (S base) lower bottom) output false =
  Ok (LsmStorageState.set_levels (LsmStorageState.set_l0_sstables s new)
        (<[base := (x, std_sort (first_key_lt s) (kept files lower ++ output))]> (LsmStorageState.levels s)),
      l0 ++ lower).
Proof.
  intros Hl0 Hnd Hb Hndf Hlower. unfold apply_compaction_result. simpl. rewrite Hl0.
  rewrite remove_ids_list, filter_not_suffix by (done || set_solver). simpl.
  rewrite (bool_decide_true (∅ = ∅)) by done. simpl. rewrite Hb. simpl. rewrite remove_ids_list by done. simpl.
  rewrite (bool_decide_true (∅ = ∅)) by done. simpl. by rewrite ?Hb.
Qed.

Lemma apply_level_task s lv x y upper files sst lower bottom output :
  LsmStorageState.levels s !! lv = Some (x, upper) → LsmStorageState.levels s !! S lv = Some (y, files) →
  NoDup upper → sst ∈ upper → NoDup files → lower ⊆ files →
  apply_compaction_result s (LeveledCompactionTask.mk (Some (S lv)) [sst] (S (S lv)) lower bottom) output false =
  Ok (LsmStorageState.set_levels s
        (<[S lv := (y, std_sort (first_key_lt s) (kept files lower ++ output))]>
           (<[lv := (x, filter (λ z, z ∉ [sst]) upper)]> (LsmStorageState.levels s))),
      [sst] ++ lower).
Proof.
  intros Hu Hf Hndu Hin Hndf Hlower. unfold apply_compaction_result. simpl. rewrite Hu. simpl.
  replace ({[sst]} ∪ ∅ : gset nat) with (list_to_set [sst] : gset nat) by done.
  rewrite remove_ids_list by (done || set_solver). simpl.
  rewrite (bool_decide_true (∅ = ∅)) by done. simpl. rewrite ?Hu. simpl.
  rewrite list_lookup_insert_ne, Hf by lia. simpl. rewrite remove_ids_list by done. simpl.
  rewrite (bool_decide_true (∅ = ∅)) by done. simpl. rewrite ?list_lookup_insert_ne, ?Hf by lia. simpl. done.
Qed.
End LeveledSpec.

(** ** The invariant and the correctness of a compaction *)

(** The tables of the state exist and stay within their key ranges; every level
    is a sorted run of disjoint tables. *)
Record leveled_ok (content : nat → gmap bytes bytes) (o : LeveledCompactionOptions.t) (s : LsmStorageState.t) : Prop := {
  lo_multiplier : LeveledCompactionOptions.level_size_multiplier o ≠ 0%Z;
  lo_levels : length (LsmStorageState.levels s) = LeveledCompactionOptions.max_levels o;
  lo_max : 0 < LeveledCompactionOptions.max_levels o;
  lo_nodup : NoDup (ids_of s);
  lo_bounded : Forall (LeveledSpec.bounded content (LsmStorageState.sstables s)) (ids_of s);
  lo_runs : Forall (λ lv, LeveledSpec.run (LsmStorageState.sstables s) lv.2) (LsmStorageState.levels s) }.

(** A state to which only tables were added: flushed ones in front of level 0,
    open ones to the map. *)
Record grown (s s' : LsmStorageState.t) (new : list nat) : Prop := {
  grown_l0 : LsmStorageState.l0_sstables s' = new ++ LsmStorageState.l0_sstables s;
  grown_levels : LsmStorageState.levels s' = LsmStorageState.levels s;
  grown_tables id : id ∈ ids_of s → LsmStorageState.sstables s' !! id = LsmStorageState.sstables s !! id }.

(** A result of merging [inputs]: fresh tables in key order that denote the
    merge and whose ranges end in keys of the inputs. *)
Record merged_run (content : nat → gmap bytes bytes) (s : LsmStorageState.t) (bottom : bool) (inputs output : list nat) : Prop := {
  mr_merges : merges content bottom inputs output;
  mr_run : LeveledSpec.run (LsmStorageState.sstables s) output;
  mr_bounded : Forall (LeveledSpec.bounded content (LsmStorageState.sstables s)) output;
  mr_spans : Forall (LeveledSpec.spans content (LsmStorageState.sstables s) inputs) output;
  mr_fresh : NoDup (ids_of s ++ output) }.

Module LeveledCompactionSpec.
Import LeveledCompactionController LeveledSpec.

Section spec.
Context (content : nat → gmap bytes bytes) (o : LeveledCompactionOptions.t).
Implicit Types (s : LsmStorageState.t) (new output : list nat).

Lemma before_same (ts ts' : gmap nat SsTable.t) x y : ts' !! x = ts !! x → ts' !! y = ts !! y → before ts x y → before ts' x y.
Proof.
  intros Hx Hy (lx & hx & ly & hy & (t & Ht & ?) & (t' & Ht' & ?) & ?). exists lx, hx, ly, hy.
  split_and!; [exists t|exists t'|done]; split; try done; congruence.
Qed.

Lemma leveled_ok_level s i x files : leveled_ok content o s → LsmStorageState.levels s !! i = Some (x, files) →
  NoDup files ∧ Forall (bounded content (LsmStorageState.sstables s)) files ∧ run (LsmStorageState.sstables s) files ∧
  files ⊆ ids_of s.
Proof.
  intros [_ _ _ Hnd Hb Hr] Hi. unfold ids_of in *. pose proof (level_ids_at _ _ _ (x, files) Hi) as [E _].
  rewrite E in Hnd, Hb |- *. apply NoDup_app in Hnd as (_ & _ & (_ & _ & (Hnd & _ & _)%NoDup_app)%NoDup_app).
  rewrite !Forall_app in Hb. split_and!; [done|tauto| |set_solver].
  by apply (Forall_lookup_1 _ _ _ _ Hr Hi).
Qed.

Lemma ok_ranged s (ids : list nat) : leveled_ok content o s → ids ⊆ ids_of s → Forall (ranged (LsmStorageState.sstables s)) ids.
Proof.
  intros Hok Hsub. apply Forall_forall. intros id Hid. eapply bounded_ranged.
  by apply (proj1 (Forall_forall _ _) (lo_bounded _ _ _ Hok)), Hsub.
Qed.

(** What [find_overlapping_ssts] found is a part of the level, and the rest of
    the level is apart from the inputs. *)
Lemma find_lower s s' new upper i x files : leveled_ok content o s → grown s s' new →
  upper ⊆ ids_of s → LsmStorageState.levels s !! i = Some (x, files) →
  let lower := find_overlapping_ssts s upper (S i) in
  lower ⊆ files ∧ NoDup lower ∧ apart (LsmStorageState.sstables s') files lower (upper ++ lower).
Proof.
  intros Hok Hg Hupper Hi. destruct (leveled_ok_level _ _ _ _ Hok Hi) as (Hnd & Hb & Hr & Hin).
  destruct (find_apart s upper i x files Hi Hr) as [Hsub Hap]; [by apply ok_ranged..|].
  cbv zeta. split_and!; [done| |].
  - unfold find_overlapping_ssts. destruct (foldl _ _ _) as [[[] b] e]; [constructor|].
    case_decide; [constructor|]. replace (S i - 1) with i by lia. rewrite Hi. by apply NoDup_filter.
  - assert (∀ y, y ∈ upper ++ find_overlapping_ssts s upper (S i) → y ∈ ids_of s) as Hall by set_solver.
    intros z Hz Hnz. destruct (Hap z Hz Hnz) as [Hb'|Hb']; [left|right];
      intros y Hy; (eapply before_same; [..|by apply Hb']); apply Hg; auto.
Qed.

(** The invariant after the ids of some levels were replaced. *)
Lemma leveled_ok_applied s' s'' output inputs : leveled_ok content o s' → applied content s' output (s'', inputs) →
  NoDup (ids_of s' ++ output) → Forall (bounded content (LsmStorageState.sstables s')) output →
  length (LsmStorageState.levels s'') = length (LsmStorageState.levels s') →
  Forall (λ lv, run (LsmStorageState.sstables s') lv.2) (LsmStorageState.levels s'') →
  leveled_ok content o s''.
Proof.
  intros [Hmul Hlen Hmax Hnd Hb Hr] [_ Hids _ _ Ht] Hfresh Hout Hlen' Hr'. simpl in *. split; rewrite ?Ht; try done.
  - by rewrite Hlen'.
  - rewrite <-Hids in Hfresh. by apply NoDup_app in Hfresh as (? & _ & _).
  - assert (Forall (bounded content (LsmStorageState.sstables s')) (ids_of s'' ++ inputs)) as Hall; [|by apply Forall_app in Hall as [? _]].
    rewrite Hids. by apply Forall_app.
Qed.

Lemma level_ids_empty (levels : list (nat * list nat)) : Forall (λ lv, lv.2 = []) levels → level_ids levels = [].
Proof. induction 1 as [|lv levels Hlv _ IH]; [done|]. by rewrite level_ids_cons, Hlv, IH. Qed.

Lemma perm_level (new l0 sorted files out keep rest lower : list nat) :
  sorted ≡ₚ out ++ keep → files ≡ₚ lower ++ keep →
  (new ++ sorted ++ rest) ++ l0 ++ lower ≡ₚ ((new ++ l0) ++ files ++ rest) ++ out.
Proof. intros -> ->. solve_Permutation. Qed.

Lemma perm_level2 (above upper others sorted files out keep rest lower : list nat) sst :
  upper ≡ₚ others ++ [sst] → sorted ≡ₚ out ++ keep → files ≡ₚ lower ++ keep →
  above ++ others ++ sorted ++ rest ++ [sst] ++ lower ≡ₚ above ++ upper ++ files ++ rest ++ out.
Proof. intros -> -> ->. solve_Permutation. Qed.

(** A compaction of level 0, whatever is between it and the target: afterwards
    reads see the tables of level 0 as if they lay in front of the target. *)
Lemma compaction_l0_shown s s' new base x files output bottom : leveled_ok content o s → leveled_ok content o s' →
  grown s s' new → LsmStorageState.levels s !! base = Some (x, files) →
  (bottom = true → S base = LeveledCompactionOptions.max_levels o) →
  let l0 := LsmStorageState.l0_sstables s in
  let lower := find_overlapping_ssts s l0 (S base) in
  let inputs := l0 ++ lower in
  let s'' := LsmStorageState.set_levels (LsmStorageState.set_l0_sstables s' new)
    (<[base := (x, std_sort (first_key_lt s') (kept files lower ++ output))]> (LsmStorageState.levels s')) in
  merged_run content s' bottom inputs output →
  apply_compaction_result s' (LeveledCompactionTask.mk None l0 (S base) lower bottom) output false = Ok (s'', inputs) ∧
  visible (stored content (ids_of s'')) =
    visible (stored content ((new ++ level_ids (take base (LsmStorageState.levels s))) ++ l0 ++ level_ids (drop base (LsmStorageState.levels s)))) ∧
  ids_of s'' ++ inputs ≡ₚ ids_of s' ++ output ∧
  Forall (λ lv, run (LsmStorageState.sstables s') lv.2) (LsmStorageState.levels s'').
Proof.
  intros Hok Hok' Hg Hi Hbottom l0 lower inputs s'' [Hm Hrun Hob Hsp Hfr]. pose proof Hg as [Hl0 Hlv _].
  assert (l0 ⊆ ids_of s) as Hsub by (unfold ids_of; set_solver).
  destruct (find_lower _ _ _ _ _ _ _ Hok Hg Hsub Hi) as (Hlow & Hlnd & Hap). pose proof (drop_S _ _ _ Hi) as Edrop. rewrite <-Hlv in Hi, Edrop.
  destruct (leveled_ok_level _ _ _ _ Hok' Hi) as (Hnd & Hfb & Hfr' & Hin).
  assert (Forall (bounded content (LsmStorageState.sstables s')) inputs) as Hinb.
  { apply Forall_forall. intros z Hz. apply (proj1 (Forall_forall _ _) (lo_bounded _ _ _ Hok')).
    apply elem_of_app in Hz as [Hz|Hz]; [|by apply Hin, Hlow].
    unfold ids_of. rewrite Hl0, !elem_of_app. auto. }
  destruct (level_ids_at _ _ _ (x, std_sort (first_key_lt s') (kept files lower ++ output)) Hi) as [E E']. simpl in E, E'.
  assert (NoDup (LsmStorageState.l0_sstables s')) as Hnd0.
  { pose proof (lo_nodup _ _ _ Hok') as H'. by apply NoDup_app in H' as (? & _ & _). }
  split_and!.
  - apply apply_l0_task; try done. unfold l0. by rewrite <-Hl0.
  - unfold ids_of, s''. cbn [LsmStorageState.l0_sstables LsmStorageState.levels LsmStorageState.set_levels LsmStorageState.set_l0_sstables].
    rewrite E', <-Hlv, Edrop, level_ids_cons, (assoc_L (++) new). cbn [snd]. eapply level_replaced; try done.
    intros Hb. specialize (Hbottom Hb). rewrite drop_ge; [done|]. rewrite (lo_levels _ _ _ Hok'). lia.
  - unfold ids_of, s''. simpl. rewrite E', E, Hl0. rewrite (assoc_L (++) new), <-(assoc_L (++) (new ++ l0)).
    etrans; [eapply (perm_level (new ++ level_ids (take base (LsmStorageState.levels s')))); [apply new_level_perm|by apply files_perm]|].
    unfold l0. solve_Permutation.
  - simpl. apply Forall_insert; [apply Hok'|]. by eapply new_level_run.
Qed.

Lemma compaction_l0 s s' new base x files output bottom : leveled_ok content o s → leveled_ok content o s' →
  grown s s' new → LsmStorageState.levels s !! base = Some (x, files) →
  level_ids (take base (LsmStorageState.levels s)) = [] →
  (bottom = true → S base = LeveledCompactionOptions.max_levels o) →
  let lower := find_overlapping_ssts s (LsmStorageState.l0_sstables s) (S base) in
  let inputs := LsmStorageState.l0_sstables s ++ lower in
  merged_run content s' bottom inputs output →
  ∃ s'', apply_compaction_result s' (LeveledCompactionTask.mk None (LsmStorageState.l0_sstables s) (S base) lower bottom)
    output false = Ok (s'', inputs) ∧ applied content s' output (s'', inputs) ∧ leveled_ok content o s''.
Proof.
  intros Hok Hok' Hg Hi Hempty Hbottom lower inputs Hmr. pose proof Hg as [Hl0 Hlv _]. pose proof Hmr as [_ _ Hob _ Hfr].
  destruct (compaction_l0_shown s s' new base x files output bottom) as (Happ & Hshown & Hperm & Hruns); [done..|].
  assert (level_ids (LsmStorageState.levels s) = level_ids (drop base (LsmStorageState.levels s))) as Edrop.
  { rewrite <-(take_drop base (LsmStorageState.levels s)) at 1. by rewrite level_ids_app, Hempty. }
  eexists. split; [exact Happ|]. match goal with |- ?A ∧ ?B => assert A as Ha; [|split; [exact Ha|]] end.
  - split; [|exact Hperm|done..]. cbn [fst]. rewrite Hshown, Hempty, (right_id_L [] (++)), <-Edrop.
    unfold ids_of at 1. by rewrite Hl0, Hlv, <-(assoc_L (++)).
  - eapply leveled_ok_applied; [exact Hok'|exact Ha|done..| |exact Hruns]. simpl. by rewrite length_insert.
Qed.

Lemma filter_out_perm (upper : list nat) sst : NoDup upper → sst ∈ upper →
  upper ≡ₚ filter (λ z, z ∉ [sst]) upper ++ [sst].
Proof.
  intros Hnd Hin. rewrite <-(filter_app_complement (λ z, z ∉ [sst]) upper) at 1. f_equiv.
  apply NoDup_Permutation; [by apply NoDup_filter|apply NoDup_singleton|].
  intros z. rewrite list_elem_of_filter, list_elem_of_singleton. split; [|intros ->; split; [set_solver|done]].
  intros [Hz _]. apply dec_stable. intros ?. apply Hz. set_solver.
Qed.

Lemma compaction_level s s' new lv x upper y files sst output bottom : leveled_ok content o s → leveled_ok content o s' →
  grown s s' new → LsmStorageState.levels s !! lv = Some (x, upper) →
  LsmStorageState.levels s !! S lv = Some (y, files) → sst ∈ upper →
  (bottom = true → S (S lv) = LeveledCompactionOptions.max_levels o) →
  let lower := find_overlapping_ssts s [sst] (S (S lv)) in
  let inputs := [sst] ++ lower in
  merged_run content s' bottom inputs output →
  ∃ s'', apply_compaction_result s' (LeveledCompactionTask.mk (Some (S lv)) [sst] (S (S lv)) lower bottom)
    output false = Ok (s'', inputs) ∧ applied content s' output (s'', inputs) ∧ leveled_ok content o s''.
Proof.
  intros Hok Hok' Hg Hu Hi Hsst Hbottom lower inputs [Hm Hrun Hob Hsp Hfr]. pose proof Hg as [Hl0 Hlv _].
  assert ([sst] ⊆ ids_of s) as Hsub.
  { destruct (leveled_ok_level _ _ _ _ Hok Hu) as (_ & _ & _ & Hin). by intros ? ->%list_elem_of_singleton; apply Hin. }
  destruct (find_lower _ _ _ _ _ _ _ Hok Hg Hsub Hi) as (Hlow & Hlnd & Hap). rewrite <-Hlv in Hu, Hi.
  destruct (leveled_ok_level _ _ _ _ Hok' Hi) as (Hnd & Hfb & Hfr' & Hin).
  destruct (leveled_ok_level _ _ _ _ Hok' Hu) as (Hndu & Hub & Hur & Hinu).
  assert (Forall (bounded content (LsmStorageState.sstables s')) inputs) as Hinb.
  { apply Forall_forall. intros z Hz. apply (proj1 (Forall_forall _ _) (lo_bounded _ _ _ Hok')).
    apply elem_of_app in Hz as [->%list_elem_of_singleton|Hz]; [by apply Hinu|by apply Hin, Hlow]. }
  destruct (level_ids_pair _ _ _ _ (x, filter (λ z, z ∉ [sst]) upper)
    (y, std_sort (first_key_lt s') (kept files lower ++ output)) Hu Hi) as [E E'].
  eexists. split; [by eapply apply_level_task|].
  match goal with |- ?A ∧ ?B => assert A as Ha; [|split; [exact Ha|]] end.
  - split; simpl; [| |done..]; unfold ids_of; simpl; rewrite ?E', ?E; simpl; rewrite <-?(assoc_L (++)), !(assoc_L (++) (LsmStorageState.l0_sstables s')).
    + rewrite (assoc_L (++) _ (filter _ _)). erewrite level_replaced; try done.
      * rewrite !stored_app, (run_stored_perm content _ _ _ Hur Hub (filter_out_perm _ _ Hndu Hsst)), stored_app.
        by rewrite <-!(assoc_L (∪)).
      * intros Hb. specialize (Hbottom Hb). rewrite drop_ge; [done|]. rewrite (lo_levels _ _ _ Hok'). lia.
    + eapply perm_level2; [by apply filter_out_perm|apply new_level_perm|by apply files_perm].
  - eapply leveled_ok_applied; [exact Hok'|exact Ha|done..| |].
    + simpl. by rewrite !length_insert.
    + simpl. apply Forall_insert; [apply Forall_insert; [apply Hok'|by apply run_filter]|]. by eapply new_level_run.
Qed.
End spec.
End LeveledCompactionSpec.

Lemma leveled_compaction_spec content o (s s' : LsmStorageState.t) new task output :
  leveled_ok content o s → leveled_ok content o s' → grown s s' new →
  LeveledCompactionController.generate_compaction_task o s = Ok (Some task) →
  (LeveledCompactionTask.upper_level task = None →
   Forall (λ lv, lv.2 = []) (take (LeveledCompactionTask.lower_level task - 1) (LsmStorageState.levels s))) →
  let inputs := LeveledCompactionTask.upper_level_sst_ids task ++ LeveledCompactionTask.lower_level_sst_ids task in
  merged_run content s' (LeveledCompactionTask.is_lower_level_bottom_level task) inputs output →
  LeveledCompactionTask.lower_level task ≤ LeveledCompactionOptions.max_levels o ∧
  ∃ s'', LeveledCompactionController.apply_compaction_result s' task output false = Ok (s'', inputs) ∧
    applied content s' output (s'', inputs) ∧ leveled_ok content o s''.
Proof.
  intros Hok Hok' Hg Hgen Hempty. pose proof Hok as [Hmul Hlen Hmax _ _ _].
  apply LeveledSpec.leveled_generate_task in Hgen; [|done..].
  destruct Hgen as [base Hbase|lv x upper sst Hu Hsst Hlv]; simpl in *; (intros Hmerged; split; [lia|]; revert Hmerged).
  - destruct base as [|base]; [lia|]. replace (S base - 1) with base in Hempty by lia.
    destruct (lookup_lt_is_Some_2 (LsmStorageState.levels s) base) as [[x files] Hi]; [lia|].
    eapply LeveledCompactionSpec.compaction_l0; [done..| |].
    + apply LeveledCompactionSpec.level_ids_empty, Hempty. done.
    + intros Hb. by apply bool_decide_eq_true in Hb.
  - destruct (lookup_lt_is_Some_2 (LsmStorageState.levels s) (S lv)) as [[y files] Hi]; [lia|].
    eapply LeveledCompactionSpec.compaction_level; [done..|].
    intros Hb. by apply bool_decide_eq_true in Hb.
Qed.

(** ** Properties *)

(** C23: a leveled compaction does not change what the tree stores and keeps
    its levels sorted.  Let the tables of a state stay within their key ranges
    and its levels be sorted runs.  Take a task the controller generates, more
    flushes in the meantime, and an output of fresh tables in key order that
    denotes the merge of the inputs (without tombstones exactly if the task goes
    to the bottom).  If the levels between level 0 and the target are empty, then
    the target is a level, since rounding never puts the last level over its
    target size, and applying the task succeeds: no assertion fires, exactly the
    inputs are reported for removal, reads show the same keys and values as
    before, and the levels, after the final sort, are sorted runs of disjoint
    tables again. *)
Theorem leveled_compaction_correct content o (s s' : LsmStorageState.t) new task output :
  leveled_ok content o s → leveled_ok content o s' → grown s s' new →
  LeveledCompactionController.generate_compaction_task o s = Ok (Some task) →
  (LeveledCompactionTask.upper_level task = None →
   Forall (λ lv, lv.2 = []) (take (LeveledCompactionTask.lower_level task - 1) (LsmStorageState.levels s))) →
  let inputs := LeveledCompactionTask.upper_level_sst_ids task ++ LeveledCompactionTask.lower_level_sst_ids task in
  merged_run content s' (LeveledCompactionTask.is_lower_level_bottom_level task) inputs output →
  LeveledCompactionTask.lower_level task ≤ LeveledCompactionOptions.max_levels o ∧
  ∃ s'', LeveledCompactionController.apply_compaction_result s' task output false = Ok (s'', inputs) ∧
    applied content s' output (s'', inputs) ∧ leveled_ok content o s''.
Proof. apply leveled_compaction_spec. Qed.

(** Tables that are only a key range and a size. *)
Definition demo_sst (id : nat) (lo hi : bytes) (size : Z) : nat * SsTable.t :=
  (id, SsTable.mk id (FileObject.mk None size) lo hi [] 0 true None 0).
Definition demo_tables : gmap nat SsTable.t :=
  list_to_map [demo_sst 5 [x61] [x61] 100; demo_sst 4 [x61] [x61] 100; demo_sst 3 [x61] [x62] 100;
    demo_sst 2 [x63] [x64] 100; demo_sst 6 [x61] [x62] 100].
Definition demo_run_content (id : nat) : gmap bytes bytes :=
  match id with
  | 5 => {[ [x61] := [x02] ]}
  | 4 => {[ [x61] := [x01] ]}
  | 3 => {[ [x61] := [x00]; [x62] := [x03] ]}
  | 2 => {[ [x63] := [x04]; [x64] := [x05] ]}
  | 6 => {[ [x61] := [x02]; [x62] := [x03] ]}
  | _ => ∅
  end.
Definition demo_run_state (l0 l1 l2 : list nat) : LsmStorageState.t :=
  LsmStorageState.mk (MemTable.create 9) [] l0 [(1, l1); (2, l2)] demo_tables.
Definition demo_leveled_options : LeveledCompactionOptions.t := LeveledCompactionOptions.mk 10 1 2 1.

Lemma demo_range id lo hi t : demo_tables !! id = Some t → SsTable.first_key t = lo → SsTable.last_key t = hi →
  bool_decide (key_le lo hi) = true → LeveledSpec.range demo_tables id lo hi.
Proof. intros ??? Hle%bool_decide_eq_true. by exists t. Qed.

(** C25: a base level that moves down puts newer data below older data.  The
    controller merges level 0 into the base level, which it computes from the size
    of the last level only; when that level shrinks, levels above the base may
    still hold tables.  Take any such task of well-formed states, more flushes
    [new] in the meantime, and a correct output.  No assertion fires, but every
    key that is both in level 0 and in a level above the target has the value of
    level 0 before the compaction (unless it was flushed again) and the older
    value of that level after it.  The other keys keep their values. *)
Theorem leveled_base_level_reorders content o (s s' : LsmStorageState.t) new task output :
  leveled_ok content o s → leveled_ok content o s' → grown s s' new →
  LeveledCompactionController.generate_compaction_task o s = Ok (Some task) →
  LeveledCompactionTask.upper_level task = None →
  let l0 := LsmStorageState.l0_sstables s in
  let above := level_ids (take (LeveledCompactionTask.lower_level task - 1) (LsmStorageState.levels s)) in
  let inputs := l0 ++ LeveledCompactionTask.lower_level_sst_ids task in
  merged_run content s' (LeveledCompactionTask.is_lower_level_bottom_level task) inputs output →
  ∃ s'', LeveledCompactionController.apply_compaction_result s' task output false = Ok (s'', inputs) ∧
    let before := visible (stored content (ids_of s')) in
    let after := visible (stored content (ids_of s'')) in
    (∀ k newer older, stored content new !! k = None → stored content l0 !! k = Some newer → stored content above !! k = Some older →
      default [] (before !! k) = newer ∧ default [] (after !! k) = older) ∧
    (∀ k, stored content above !! k = None → after !! k = before !! k).
Proof.
  intros Hok Hok' Hg Hgen Hup l0 above inputs Hmr. pose proof Hok as [Hmul Hlen Hmax _ _ _].
  apply LeveledSpec.leveled_generate_task in Hgen; [|done..].
  destruct Hgen as [base Hbase|]; [|done]. destruct base as [|base]; [lia|].
  destruct (lookup_lt_is_Some_2 (LsmStorageState.levels s) base) as [[x files] Hi]; [lia|].
  destruct (LeveledCompactionSpec.compaction_l0_shown content o s s' new base x files output (bool_decide (S base = LeveledCompactionOptions.max_levels o)))
    as (Happ & Hshown & _ & _); [done..|by intros Hb%bool_decide_eq_true|exact Hmr|].
  eexists. split; [exact Happ|]. intros before after. unfold before, after. rewrite Hshown.
  assert (above = level_ids (take base (LsmStorageState.levels s))) as Ea.
  { unfold above. cbn [LeveledCompactionTask.lower_level]. by replace (S base - 1) with base by lia. }
  assert (ids_of s' = new ++ l0 ++ above ++ level_ids (drop base (LsmStorageState.levels s))) as Es.
  { destruct Hg as [Hl0 Hlv _]. unfold ids_of. rewrite Hl0, Hlv, <-(assoc_L (++)), Ea, <-level_ids_app. by rewrite take_drop. }
  rewrite Es, <-Ea. fold l0. rewrite <-(assoc_L (++) new). split.
  - intros k newer older Hn Hl Ha. rewrite !lookup_visible_default, !stored_app, !lookup_union, Hn, Hl, Ha.
    rewrite !(left_id_L None _). by rewrite !union_Some_l.
  - intros k Ha. apply visible_at. by rewrite !stored_app, !lookup_union, Ha, !(left_id_L None _).
Qed.

(** The open tables of a list of ids. *)
Definition tables_of (s : LsmStorageState.t) (ids : list nat) : list SsTable.t :=
  omap (λ id, LsmStorageState.sstables s !! id) ids.

(** Replaying a leveled compaction during recovery does not restore the
    order of the level.  [apply_compaction_result] skips the sort when
    [in_recovery] is set and nothing sorts later: the tables come out of order,
    and the check of every iterator over that level fails, where the same
    compaction outside of recovery left a sorted run. *)
Lemma leveled_recovery_breaks_run :
  let s := demo_run_state [] [5] [3; 2] in
  let task := LeveledCompactionTask.mk (Some 1) [5] 2 [3] true in
  ∃ live recovered,
    LeveledCompactionController.apply_compaction_result s task [6] false = Ok (live, [5; 3]) ∧
    LeveledCompactionController.apply_compaction_result s task [6] true = Ok (recovered, [5; 3]) ∧
    LsmStorageState.levels live = [(1, []); (2, [6; 2])] ∧
    LsmStorageState.levels recovered = [(1, []); (2, [2; 6])] ∧
    SstConcatIterator.check_sst_valid (tables_of live [6; 2]) = Ok tt ∧
    ∃ e, SstConcatIterator.check_sst_valid (tables_of recovered [2; 6]) = Err (AssertFail e).
Proof.
  intros s task. do 2 eexists. split; [vm_compute; reflexivity|]. split; [vm_compute; reflexivity|].
  split; [vm_compute; reflexivity|]. split; [vm_compute; reflexivity|].
  split; [vm_compute; reflexivity|]. eexists. vm_compute. reflexivity.
Qed.

Lemma demo_before x y lx hx ly hy : LeveledSpec.range demo_tables x lx hx → LeveledSpec.range demo_tables y ly hy →
  bool_decide (key_lt hx ly) = true → LeveledSpec.before demo_tables x y.
Proof. intros ?? Hlt%bool_decide_eq_true. by exists lx, hx, ly, hy. Qed.

Lemma demo_bounded id lo hi : LeveledSpec.range demo_tables id lo hi →
  bool_decide (map_Forall (λ k _, key_le lo k ∧ key_le k hi) (demo_run_content id)) = true →
  LeveledSpec.bounded demo_run_content demo_tables id.
Proof. intros Hr Hall%bool_decide_eq_true. exists lo, hi. split; [done|]. intros k [v Hv]. by apply (Hall k v). Qed.

Ltac demo_range := eapply demo_range; [vm_compute; reflexivity|reflexivity|reflexivity|vm_compute; reflexivity].
Ltac demo_bounded := eapply demo_bounded; [demo_range|vm_compute; reflexivity].

Lemma demo_ok : leveled_ok demo_run_content demo_leveled_options (demo_run_state [5] [] [3; 2]).
Proof.
  split; simpl; [done|done|lia| | |].
  - apply (bool_decide_unpack _). vm_compute. exact I.
  - repeat constructor; demo_bounded.
  - repeat constructor. simpl. eapply demo_before; [demo_range|demo_range|vm_compute; reflexivity].
Qed.

Lemma leveled_compaction_correct_witness :
  let s := demo_run_state [5] [] [3; 2] in
  let task := LeveledCompactionTask.mk None [5] 2 [3] true in
  LeveledCompactionController.generate_compaction_task demo_leveled_options s = Ok (Some task) ∧
  ∃ s'', LeveledCompactionController.apply_compaction_result s task [6] false = Ok (s'', [5; 3]) ∧
    applied demo_run_content s [6] (s'', [5; 3]).
Proof.
  intros s task. split; [vm_compute; reflexivity|].
  destruct (leveled_compaction_correct demo_run_content demo_leveled_options s s [] task [6]) as (_ & s'' & Happ & Hok & _).
  - exact demo_ok.
  - exact demo_ok.
  - split; reflexivity.
  - vm_compute. reflexivity.
  - intros _. repeat constructor.
  - split.
    + apply (bool_decide_unpack _). vm_compute. exact I.
    + repeat constructor.
    + repeat constructor. demo_bounded.
    + repeat constructor. exists [x61], [x62]. split; [demo_range|]. split; eexists; vm_compute; reflexivity.
    + apply (bool_decide_unpack _). vm_compute. exact I.
  - exists s''. split; [exact Happ|exact Hok].
Defined.

Lemma demo_moved_ok : leveled_ok demo_run_content demo_leveled_options (demo_run_state [5] [4] [3]).
Proof.
  split; simpl; [done|done|lia| | |].
  - apply (bool_decide_unpack _). vm_compute. exact I.
  - repeat constructor; demo_bounded.
  - repeat constructor.
Qed.

(** Level 1 has a table and level 2 is small: key [a] gets its old value back. *)
Lemma leveled_base_level_reorders_witness :
  let s := demo_run_state [5] [4] [3] in
  let task := LeveledCompactionTask.mk None [5] 2 [3] true in
  LeveledCompactionController.generate_compaction_task demo_leveled_options s = Ok (Some task) ∧
  ∃ s'', LeveledCompactionController.apply_compaction_result s task [6] false = Ok (s'', [5; 3]) ∧
    default [] (visible (stored demo_run_content (ids_of s)) !! [x61]) = [x02] ∧
    default [] (visible (stored demo_run_content (ids_of s'')) !! [x61]) = [x01].
Proof.
  intros s task. split; [vm_compute; reflexivity|].
  destruct (leveled_base_level_reorders demo_run_content demo_leveled_options s s [] task [6]) as (s'' & Happ & Hmoved & _).
  - exact demo_moved_ok.
  - exact demo_moved_ok.
  - split; reflexivity.
  - vm_compute. reflexivity.
  - reflexivity.
  - split.
    + apply (bool_decide_unpack _). vm_compute. exact I.
    + repeat constructor.
    + repeat constructor. demo_bounded.
    + repeat constructor. exists [x61], [x62]. split; [demo_range|]. split; eexists; vm_compute; reflexivity.
    + apply (bool_decide_unpack _). vm_compute. exact I.
  - exists s''. split; [exact Happ|]. apply (Hmoved [x61] [x02] [x01]); vm_compute; reflexivity.
Defined.
