(* ===== verification/Compact.v ===== *)
(** * The compaction controller: include/mini_lsm/compact.h, src/compact.cpp

    [CompactionController] dispatches to the strategy the options name.  A full
    compaction has no strategy: its result is applied here. *)
From S2P Require Import Prelude Endian Key Iterators Block BlockCache Double Bloom Table TableIterator Wal MemTable State Layers SimpleLeveled Tiered Leveled.

(** ** Definitions *)
Module CompactionController.
Inductive t :=
| Leveled (c : LeveledCompactionOptions.t)
| Tiered (c : TieredCompactionOptions.t)
| Simple (c : SimpleLeveledCompactionOptions.t)
| NoCompaction.

Definition create (options : CompactionOptions.t) : t :=
  match options with
  | CompactionOptions.Leveled o => Leveled o
  | CompactionOptions.Tiered o => Tiered o
  | CompactionOptions.Simple o => Simple o
  | CompactionOptions.NoCompaction => NoCompaction
  end.

Definition generate_compaction_task (c : t) (snapshot : LsmStorageState.t) : res (option CompactionTask.t) :=
  match c with
  | Leveled o =>
      t ← LeveledCompactionController.generate_compaction_task o snapshot;
      mret (option_map CompactionTask.Leveled t)
  | Tiered o =>
      t ← TieredCompactionController.generate_compaction_task o snapshot;
      mret (option_map CompactionTask.Tiered t)
  | Simple o =>
      mret (option_map CompactionTask.Simple (SimpleLeveledCompactionController.generate_compaction_task o snapshot))
  | NoCompaction => mret None
  end.

(** The branch for a full compaction. *)
Definition apply_force_full (snapshot : LsmStorageState.t) (fft : ForceFullCompactionTask.t) (output : list nat) :
    LsmStorageState.t * list nat :=
  let l0 := ForceFullCompactionTask.l0_sstables fft in
  let l1 := ForceFullCompactionTask.l1_sstables fft in
  let sstables := foldl (λ m id, delete id m) (LsmStorageState.sstables snapshot) (l0 ++ l1) in
  let levels :=
    match LsmStorageState.levels snapshot with
    | lv :: rest => (lv.1, output) :: rest
    | [] => [(1, output)]
    end in
  let new_l0 := filter (λ x, x ∉ l0) (LsmStorageState.l0_sstables snapshot) in
  (LsmStorageState.set_l0_sstables
     (LsmStorageState.set_levels (LsmStorageState.set_sstables snapshot sstables) levels) new_l0, l0 ++ l1).

Definition apply_compaction_result (c : t) (snapshot : LsmStorageState.t) (task : CompactionTask.t)
    (output : list nat) (in_recovery : bool) : res (LsmStorageState.t * list nat) :=
  match task with
  | CompactionTask.ForceFull fft => mret (apply_force_full snapshot fft output)
  | _ =>
      match c with
      | Leveled _ =>
          match task with
          | CompactionTask.Leveled t => LeveledCompactionController.apply_compaction_result snapshot t output in_recovery
          | _ => Err (Exn "bad_variant_access")
          end
      | Tiered _ =>
          match task with
          | CompactionTask.Tiered t => TieredCompactionController.apply_compaction_result snapshot t output
          | _ => Err (Exn "bad_variant_access")
          end
      | Simple _ =>
          match task with
          | CompactionTask.Simple t => SimpleLeveledCompactionController.apply_compaction_result snapshot t output
          | _ => Err (Exn "bad_variant_access")
          end
      | NoCompaction => Err (Exn "NoCompaction controller cannot apply result")
      end
  end.

Definition flush_to_l0 (c : t) : bool :=
  match c with Leveled _ | Simple _ | NoCompaction => true | Tiered _ => false end.
End CompactionController.
