(* ===== verification/Manifest.v ===== *)
(** * The manifest: include/mini_lsm/manifest.h, src/manifest.cpp and the JSON
      serialisations of src/compact.cpp

    The manifest is a file of frames: the length of a JSON text as 64 bits, the
    text and its checksum.  Each text is one [ManifestRecord]: a flush, a new
    memtable, or a compaction with its output.

    The JSON library is a parameter: constructors and accessors of its value
    type, [dump] and [parse], with their documented laws.  The file descriptor
    has a position: [create] and [recover] open the file at position 0 and
    [write] moves on from there, while [recover] reads with [pread], which does
    not.  POSIX calls succeed. *)
From S2P Require Import Prelude Endian Key Iterators Block BlockCache Double Bloom Table TableIterator Wal MemTable State.

(** ** nlohmann::json *)
Class Json := {
  json : Type;
  j_null : json;
  j_size : nat → json;
  j_bool : bool → json;
  j_array : list json → json;
  j_object : list (string * json) → json;
  j_is_null : json → bool;
  j_contains : json → string → bool;
  j_at : json → string → res json;
  j_at_index : json → nat → res json;
  j_get_size : json → res nat;
  j_get_bool : json → res bool;
  j_get_array : json → res (list json);
  dump : json → res bytes;
  parse : bytes → res json }.

(** The values this program makes: sizes of 64 bits, objects with distinct keys. *)
Inductive plain `{!Json} : json → Prop :=
| plain_null : plain j_null
| plain_size n : (Z.of_nat n < 2 ^ 64)%Z → plain (j_size n)
| plain_bool b : plain (j_bool b)
| plain_array l : (∀ j, j ∈ l → plain j) → plain (j_array l)
| plain_object l : NoDup l.*1 → (∀ j, j ∈ l.*2 → plain j) → plain (j_object l).

(** The library's contract for them. *)
Class JsonLaws `{!Json} : Prop := {
  j_is_null_null : j_is_null j_null = true;
  j_is_null_size n : j_is_null (j_size n) = false;
  j_contains_object l k : j_contains (j_object l) k = bool_decide (k ∈ l.*1);
  j_at_object l k v : NoDup l.*1 → (k, v) ∈ l → j_at (j_object l) k = Ok v;
  j_at_index_array l i v : l !! i = Some v → j_at_index (j_array l) i = Ok v;
  j_get_size_size n : (Z.of_nat n < 2 ^ 64)%Z → j_get_size (j_size n) = Ok n;
  j_get_bool_bool b : j_get_bool (j_bool b) = Ok b;
  j_get_array_array l : j_get_array (j_array l) = Ok l;
  parse_dump j : plain j → ∃ text, dump j = Ok text ∧ parse text = Ok j }.

(** ** Definitions *)
Section json.
Context `{!Json}.

(** The library's conversions of vectors and pairs. *)
Definition json_of_ids (ids : list nat) : json := j_array (j_size <$> ids).
Definition get_ids (j : json) : res (list nat) := l ← j_get_array j; mapM j_get_size l.
Definition json_of_tiers (tiers : list (nat * list nat)) : json :=
  j_array ((λ t, j_array [j_size t.1; json_of_ids t.2]) <$> tiers).
Definition get_tier (j : json) : res (nat * list nat) :=
  j0 ← j_at_index j 0; id ← j_get_size j0;
  j1 ← j_at_index j 1; ids ← get_ids j1;
  mret (id, ids).
Definition get_tiers (j : json) : res (list (nat * list nat)) := l ← j_get_array j; mapM get_tier l.

Definition simple_to_json (t : SimpleLeveledCompactionTask.t) : json :=
  j_object [
    ("upper_level", match SimpleLeveledCompactionTask.upper_level t with Some l => j_size l | None => j_null end);
    ("upper_level_sst_ids", json_of_ids (SimpleLeveledCompactionTask.upper_level_sst_ids t));
    ("lower_level", j_size (SimpleLeveledCompactionTask.lower_level t));
    ("lower_level_sst_ids", json_of_ids (SimpleLeveledCompactionTask.lower_level_sst_ids t));
    ("is_lower_level_bottom_level", j_bool (SimpleLeveledCompactionTask.is_lower_level_bottom_level t))]%string.

Definition simple_from_json (j : json) : res SimpleLeveledCompactionTask.t :=
  u ← j_at j "upper_level";
  upper_level ← (if j_is_null u then mret None else Some <$> j_get_size u);
  us ← j_at j "upper_level_sst_ids"; upper_level_sst_ids ← get_ids us;
  l ← j_at j "lower_level"; lower_level ← j_get_size l;
  ls ← j_at j "lower_level_sst_ids"; lower_level_sst_ids ← get_ids ls;
  b ← j_at j "is_lower_level_bottom_level"; is_lower_level_bottom_level ← j_get_bool b;
  mret (SimpleLeveledCompactionTask.mk upper_level upper_level_sst_ids lower_level lower_level_sst_ids
          is_lower_level_bottom_level).

Definition leveled_to_json (t : LeveledCompactionTask.t) : json :=
  j_object [
    ("upper_level", match LeveledCompactionTask.upper_level t with Some l => j_size l | None => j_null end);
    ("upper_level_sst_ids", json_of_ids (LeveledCompactionTask.upper_level_sst_ids t));
    ("lower_level", j_size (LeveledCompactionTask.lower_level t));
    ("lower_level_sst_ids", json_of_ids (LeveledCompactionTask.lower_level_sst_ids t));
    ("is_lower_level_bottom_level", j_bool (LeveledCompactionTask.is_lower_level_bottom_level t))]%string.

Definition leveled_from_json (j : json) : res LeveledCompactionTask.t :=
  u ← j_at j "upper_level";
  upper_level ← (if j_is_null u then mret None else Some <$> j_get_size u);
  us ← j_at j "upper_level_sst_ids"; upper_level_sst_ids ← get_ids us;
  l ← j_at j "lower_level"; lower_level ← j_get_size l;
  ls ← j_at j "lower_level_sst_ids"; lower_level_sst_ids ← get_ids ls;
  b ← j_at j "is_lower_level_bottom_level"; is_lower_level_bottom_level ← j_get_bool b;
  mret (LeveledCompactionTask.mk upper_level upper_level_sst_ids lower_level lower_level_sst_ids
          is_lower_level_bottom_level).

Definition tiered_to_json (t : TieredCompactionTask.t) : json :=
  j_object [("tiers", json_of_tiers (TieredCompactionTask.tiers t));
            ("bottom_tier_included", j_bool (TieredCompactionTask.bottom_tier_included t))]%string.

Definition tiered_from_json (j : json) : res TieredCompactionTask.t :=
  ts ← j_at j "tiers"; tiers ← get_tiers ts;
  b ← j_at j "bottom_tier_included"; bottom_tier_included ← j_get_bool b;
  mret (TieredCompactionTask.mk tiers bottom_tier_included).

Definition force_full_to_json (t : ForceFullCompactionTask.t) : json :=
  j_object [("l0_sstables", json_of_ids (ForceFullCompactionTask.l0_sstables t));
            ("l1_sstables", json_of_ids (ForceFullCompactionTask.l1_sstables t))]%string.

Definition force_full_from_json (j : json) : res ForceFullCompactionTask.t :=
  l0 ← j_at j "l0_sstables"; l0_sstables ← get_ids l0;
  l1 ← j_at j "l1_sstables"; l1_sstables ← get_ids l1;
  mret (ForceFullCompactionTask.mk l0_sstables l1_sstables).

Definition task_to_json (t : CompactionTask.t) : json :=
  match t with
  | CompactionTask.Simple t => j_object [("Simple", simple_to_json t)]%string
  | CompactionTask.Leveled t => j_object [("Leveled", leveled_to_json t)]%string
  | CompactionTask.Tiered t => j_object [("Tiered", tiered_to_json t)]%string
  | CompactionTask.ForceFull t => j_object [("ForceFullCompaction", force_full_to_json t)]%string
  end.

Definition task_from_json (j : json) : res CompactionTask.t :=
  if j_contains j "Simple" then
    t ← j_at j "Simple"; CompactionTask.Simple <$> simple_from_json t
  else if j_contains j "Leveled" then
    t ← j_at j "Leveled"; CompactionTask.Leveled <$> leveled_from_json t
  else if j_contains j "Tiered" then
    t ← j_at j "Tiered"; CompactionTask.Tiered <$> tiered_from_json t
  else if j_contains j "ForceFullCompaction" then
    t ← j_at j "ForceFullCompaction"; CompactionTask.ForceFull <$> force_full_from_json t
  else Err (Exn "Unknown CompactionTask type in JSON").
End json.

Module ManifestRecord.
Inductive t :=
| Flush (flush_sst_id : nat)
| NewMemtable (new_memtable_id : nat)
| Compaction (compaction_task : CompactionTask.t) (compaction_output_sst_ids : list nat).
#[global] Instance eq_dec : EqDecision t.
Proof. solve_decision. Defined.

Section code.
Context `{!Json}.

Definition to_json (r : t) : json :=
  match r with
  | Flush id => j_object [("Flush", j_size id)]%string
  | NewMemtable id => j_object [("NewMemtable", j_size id)]%string
  | Compaction task output =>
      j_object [("Compaction", j_array [task_to_json task; json_of_ids output])]%string
  end.

Definition from_json (j : json) : res t :=
  if j_contains j "Flush" then
    v ← j_at j "Flush"; Flush <$> j_get_size v
  else if j_contains j "NewMemtable" then
    v ← j_at j "NewMemtable"; NewMemtable <$> j_get_size v
  else if j_contains j "Compaction" then
    arr ← j_at j "Compaction";
    t ← j_at_index arr 0; task ← task_from_json t;
    o ← j_at_index arr 1; output ← get_ids o;
    mret (Compaction task output)
  else Err (Exn "Unknown ManifestRecord type in JSON").
End code.
End ManifestRecord.

Module Manifest.
(** [fd_]: the position of the descriptor, if it is open. *)
Record t := mk { path_ : string; fd_ : option nat }.

(** [write] at a position of a file, which it may extend. *)
Definition write_at (pos : nat) (buf data : bytes) : bytes :=
  take pos data ++ replicate (pos - length data) x00 ++ buf ++ drop (pos + length buf) data.

(** [O_CREAT | O_TRUNC] *)
Definition create (path : string) : eff Fs.t (fallible t) := λ fs,
  Ok (<[path := []]> fs, inl (mk path (Some 0))).

(** The destructor. *)
Definition close (m : t) : t := mk (path_ m) None.

Section code.
Context `{!Zlib} `{!Json}.

Definition frame (json_str : bytes) : bytes :=
  let buf := put_u64_be [] (u64 (Z.of_nat (length json_str))) in
  let buf := buf ++ json_str in
  put_u32_be buf (crc32_hash json_str).

Definition add_record_when_init (m : t) (record : ManifestRecord.t) : eff Fs.t (t * fallible unit) := λ fs,
  match fd_ m with
  | None => Ok (fs, (m, inr "Manifest file descriptor is closed"%string))
  | Some pos =>
      match dump (ManifestRecord.to_json record) with
      | Ok json_str =>
          let buf := frame json_str in
          let data := default [] (fs !! path_ m) in
          Ok (<[path_ m := write_at pos buf data]> fs, (mk (path_ m) (Some (pos + length buf)), inl tt))
      | Err (Exn e) => Ok (fs, (m, inr ("Failed to serialize ManifestRecord: " ++ e)%string))
      | Err e => Err e
      end
  end.

Definition add_record (m : t) (record : ManifestRecord.t) : eff Fs.t (t * fallible unit) :=
  add_record_when_init m record.

(** One round of the loop of [recover]: the offset and the records so far.  The
    sum [len + 4] wraps around, and what follows then reads out of the buffer. *)
Definition recover_step (content : bytes) (s : nat * list ManifestRecord.t) :
    res ((nat * list ManifestRecord.t) + fallible (list ManifestRecord.t)) :=
  let '(offset, records) := s in
  if decide (offset < length content) then
    if decide (length content - offset < 8)
    then mret (inr (inr "Corrupted manifest: incomplete length header at EOF"%string)) else
    len ← read_u64_be content offset;
    let offset := offset + 8 in
    if decide (Z.of_nat (length content - offset) < u64 (len + 4))%Z
    then mret (inr (inr "Corrupted manifest: incomplete record payload/checksum at EOF"%string)) else
    if decide (Z.of_nat (length content) < Z.of_nat offset + len + 4)%Z
    then Err (UB "read beyond the end of the manifest") else
    let len := Z.to_nat len in
    expected_checksum ← read_u32_be content (offset + len);
    let actual_checksum := crc32_hash (slice offset len content) in
    if decide (expected_checksum ≠ actual_checksum)
    then mret (inr (inr "Manifest record checksum mismatch"%string)) else
    match (j ← parse (slice offset len content); ManifestRecord.from_json j) with
    | Ok r => mret (inl (offset + (len + 4), records ++ [r]))
    | Err (Exn e) => mret (inr (inr ("Failed to parse ManifestRecord JSON: " ++ e)%string))
    | Err e => Err e
    end
  else mret (inr (inl records)).

(** A round advances by at least twelve bytes. *)
Definition recover_loop (content : bytes) : res (fallible (list ManifestRecord.t)) :=
  loopR (S (length content)) (recover_step content) (0, []).

Definition recover (path : string) : eff Fs.t (fallible (t * list ManifestRecord.t)) := λ fs,
  let fs := match fs !! path with None => <[path := []]> fs | Some _ => fs end in
  r ← recover_loop (default [] (fs !! path));
  Ok (fs, match r with
          | inl records => inl (mk path (Some 0), records)
          | inr e => inr e
          end).
End code.
End Manifest.

(** ** JSON round trips *)
Module ManifestRecordSpec.
Import ManifestRecord.

(** Ids that fit a [size_t]. *)
Definition id_ok (n : nat) : Prop := (Z.of_nat n < 2 ^ 64)%Z.
Definition ids_ok (l : list nat) : Prop := Forall id_ok l.
Definition level_ok (o : option nat) : Prop := match o with Some n => id_ok n | None => True end.

Definition task_ok (t : CompactionTask.t) : Prop :=
  match t with
  | CompactionTask.Simple t =>
      level_ok (SimpleLeveledCompactionTask.upper_level t) ∧ ids_ok (SimpleLeveledCompactionTask.upper_level_sst_ids t) ∧
      id_ok (SimpleLeveledCompactionTask.lower_level t) ∧ ids_ok (SimpleLeveledCompactionTask.lower_level_sst_ids t)
  | CompactionTask.Leveled t =>
      level_ok (LeveledCompactionTask.upper_level t) ∧ ids_ok (LeveledCompactionTask.upper_level_sst_ids t) ∧
      id_ok (LeveledCompactionTask.lower_level t) ∧ ids_ok (LeveledCompactionTask.lower_level_sst_ids t)
  | CompactionTask.Tiered t => Forall (λ tier, id_ok tier.1 ∧ ids_ok tier.2) (TieredCompactionTask.tiers t)
  | CompactionTask.ForceFull t =>
      ids_ok (ForceFullCompactionTask.l0_sstables t) ∧ ids_ok (ForceFullCompactionTask.l1_sstables t)
  end.

Definition record_ok (r : t) : Prop :=
  match r with
  | Flush id | NewMemtable id => id_ok id
  | Compaction task output => task_ok task ∧ ids_ok output
  end.

Section json.
Context `{!Json} `{!JsonLaws}.

Lemma mapM_map {A} (f : A → json) (g : json → res A) (l : list A) :
  (∀ x, x ∈ l → g (f x) = Ok x) → mapM g (f <$> l) = Ok l.
Proof.
  induction l as [|x l IH]; intros Hg; [done|].
  change (mapM g (f <$> x :: l)) with (y ← g (f x); k ← mapM g (f <$> l); mret (y :: k)).
  rewrite Hg, IH; [done|intros; apply Hg; set_solver|set_solver].
Qed.

Lemma get_ids_json ids : ids_ok ids → get_ids (json_of_ids ids) = Ok ids.
Proof.
  intros Hok. unfold get_ids, json_of_ids. rewrite j_get_array_array. simpl. apply mapM_map.
  intros x Hx. apply j_get_size_size. by apply (proj1 (Forall_forall _ _) Hok).
Qed.
Lemma plain_ids ids : ids_ok ids → plain (json_of_ids ids).
Proof. intros Hok. apply plain_array. intros j (x & -> & Hx)%list_elem_of_fmap. apply plain_size. by apply (proj1 (Forall_forall _ _) Hok). Qed.

Lemma get_tiers_json tiers : Forall (λ tier, id_ok tier.1 ∧ ids_ok tier.2) tiers →
  get_tiers (json_of_tiers tiers) = Ok tiers.
Proof.
  intros Hok. unfold get_tiers, json_of_tiers. rewrite j_get_array_array. simpl. apply mapM_map.
  intros [id ids] Hx. apply (proj1 (Forall_forall _ _) Hok) in Hx as [Hid Hids]. simpl in *. unfold get_tier.
  rewrite (j_at_index_array _ 0 (j_size id)) by done. simpl. rewrite j_get_size_size by done. simpl.
  rewrite (j_at_index_array _ 1 (json_of_ids ids)) by done. simpl. by rewrite get_ids_json.
Qed.
Lemma plain_tiers tiers : Forall (λ tier, id_ok tier.1 ∧ ids_ok tier.2) tiers → plain (json_of_tiers tiers).
Proof.
  intros Hok. apply plain_array. intros j ([id ids] & -> & Hx)%list_elem_of_fmap.
  apply (proj1 (Forall_forall _ _) Hok) in Hx as [Hid Hids]. apply plain_array. simpl.
  intros j [->|[->|[]%not_elem_of_nil]%elem_of_cons]%elem_of_cons; [by apply plain_size|by apply plain_ids].
Qed.

(** The fields of an object with known, distinct keys. *)
Lemma at_field l k v : NoDup l.*1 → (k, v) ∈ l → (j_at (j_object l) k) = Ok v.
Proof. apply j_at_object. Qed.

Ltac fields := first
  [ by (apply (bool_decide_unpack _); vm_compute; exact I)
  | repeat first [apply list_elem_of_here | apply list_elem_of_further] ].
Definition level_json (o : option nat) : json := match o with Some l => j_size l | None => j_null end.
Lemma level_roundtrip o : level_ok o →
  (if j_is_null (level_json o) then mret None else Some <$> j_get_size (level_json o)) = Ok o.
Proof.
  destruct o as [n|]; simpl; intros Hn.
  - by rewrite j_is_null_size, j_get_size_size.
  - by rewrite j_is_null_null.
Qed.
Lemma plain_level o : level_ok o → plain (level_json o).
Proof. destruct o; simpl; constructor. done. Qed.

Ltac plain_obj := try (apply plain_object; [apply (bool_decide_unpack _); vm_compute; exact I|]);
  simpl; intros ? ?; repeat match goal with
  | Hin : _ ∈ _ :: _ |- _ => apply elem_of_cons in Hin as [->|Hin]
  | Hin : _ ∈ [] |- _ => by apply not_elem_of_nil in Hin
  end; auto using plain_ids, plain_size, plain_tiers, plain_bool, plain_level.

Lemma simple_roundtrip t : task_ok (CompactionTask.Simple t) →
  simple_from_json (simple_to_json t) = Ok t ∧ plain (simple_to_json t).
Proof.
  destruct t as [u us l ls b]. intros (Hu & Hus & Hl & Hls). unfold simple_from_json, simple_to_json.
  simpl in *. fold (level_json u). split; [|plain_obj]. repeat (erewrite at_field by fields; simpl).
  rewrite level_roundtrip by done. simpl. by rewrite !get_ids_json, j_get_size_size, j_get_bool_bool.
Qed.
Lemma leveled_roundtrip t : task_ok (CompactionTask.Leveled t) →
  leveled_from_json (leveled_to_json t) = Ok t ∧ plain (leveled_to_json t).
Proof.
  destruct t as [u us l ls b]. intros (Hu & Hus & Hl & Hls). unfold leveled_from_json, leveled_to_json.
  simpl in *. fold (level_json u). split; [|plain_obj]. repeat (erewrite at_field by fields; simpl).
  rewrite level_roundtrip by done. simpl. by rewrite !get_ids_json, j_get_size_size, j_get_bool_bool.
Qed.
Lemma tiered_roundtrip t : task_ok (CompactionTask.Tiered t) →
  tiered_from_json (tiered_to_json t) = Ok t ∧ plain (tiered_to_json t).
Proof.
  destruct t as [ts b]. intros Hts. unfold tiered_from_json, tiered_to_json.
  simpl in *. split; [|plain_obj]. repeat (erewrite at_field by fields; simpl).
  rewrite get_tiers_json by done. simpl. repeat (erewrite at_field by fields; simpl). by rewrite j_get_bool_bool.
Qed.
Lemma force_full_roundtrip t : task_ok (CompactionTask.ForceFull t) →
  force_full_from_json (force_full_to_json t) = Ok t ∧ plain (force_full_to_json t).
Proof.
  destruct t as [l0 l1]. intros (Hl0 & Hl1). unfold force_full_from_json, force_full_to_json.
  simpl in *. split; [|plain_obj]. repeat (erewrite at_field by fields; simpl).
  rewrite get_ids_json by done. simpl. repeat (erewrite at_field by fields; simpl). by rewrite get_ids_json.
Qed.

Lemma contains_single k k' j : j_contains (j_object [(k, j)]) k' = bool_decide (k' = k).
Proof. rewrite j_contains_object. apply bool_decide_ext. simpl. by rewrite list_elem_of_singleton. Qed.
Lemma at_single k j : j_at (j_object [(k, j)]) k = Ok j.
Proof. apply j_at_object; [apply NoDup_singleton|by apply list_elem_of_singleton]. Qed.

Lemma task_roundtrip t : task_ok t → task_from_json (task_to_json t) = Ok t ∧ plain (task_to_json t).
Proof.
  intros Hok. unfold task_from_json, task_to_json.
  destruct t as [t|t|t|t]; rewrite !contains_single; simpl; rewrite at_single; simpl.
  - destruct (leveled_roundtrip t Hok) as [-> ?]. split; [done|plain_obj].
  - destruct (tiered_roundtrip t Hok) as [-> ?]. split; [done|plain_obj].
  - destruct (simple_roundtrip t Hok) as [-> ?]. split; [done|plain_obj].
  - destruct (force_full_roundtrip t Hok) as [-> ?]. split; [done|plain_obj].
Qed.

Lemma record_roundtrip r : record_ok r → from_json (to_json r) = Ok r ∧ plain (to_json r).
Proof.
  intros Hok. unfold from_json, to_json.
  destruct r as [id|id|task output]; simpl in Hok; rewrite !contains_single; simpl; rewrite at_single; simpl.
  - rewrite j_get_size_size by done. split; [done|plain_obj].
  - rewrite j_get_size_size by done. split; [done|plain_obj].
  - destruct Hok as [Htask Hout]. destruct (task_roundtrip task Htask) as [Ht ?].
    rewrite (j_at_index_array _ 0 (task_to_json task)) by done. simpl. rewrite Ht. simpl.
    rewrite (j_at_index_array _ 1 (json_of_ids output)) by done. simpl. rewrite get_ids_json by done.
    split; [done|]. plain_obj. apply plain_array. plain_obj.
Qed.
End json.
End ManifestRecordSpec.

(** ** The file *)
Module ManifestSpec.
Import Manifest.
#[local] Abbreviation record_ok := ManifestRecordSpec.record_ok.

Section spec.
Context `{!Zlib} `{!Json} `{!JsonLaws}.
Implicit Types (r : ManifestRecord.t) (rs : list ManifestRecord.t) (text content : bytes).

(** The text of a record, and the file that holds some records. *)
Definition text_of r : bytes := match dump (ManifestRecord.to_json r) with Ok text => text | Err _ => [] end.
Definition frames rs : bytes := concat ((λ r, frame (text_of r)) <$> rs).

Lemma text_spec r : record_ok r →
  dump (ManifestRecord.to_json r) = Ok (text_of r) ∧
  (j ← parse (text_of r); ManifestRecord.from_json j) = Ok r.
Proof.
  intros Hok. destruct (ManifestRecordSpec.record_roundtrip r Hok) as [Hr Hp].
  destruct (parse_dump _ Hp) as (text & Hd & Hparse). unfold text_of. rewrite Hd. split; [done|].
  by rewrite Hparse.
Qed.

Lemma manifest_frame_eq text :
  frame text = be_bytes 8 (u64 (Z.of_nat (length text))) ++ text ++ be_bytes 4 (crc32_hash text).
Proof. unfold frame. cbv zeta. autorewrite with lsm. by rewrite app_nil_l, <-!(assoc_L (++)). Qed.
Lemma manifest_length_frame text : length (frame text) = 8 + length text + 4.
Proof. rewrite manifest_frame_eq, !length_app, !length_be_bytes. lia. Qed.

Lemma manifest_frames_snoc rs r : frames (rs ++ [r]) = frames rs ++ frame (text_of r).
Proof. unfold frames. rewrite fmap_app, concat_app. simpl. by rewrite app_nil_r. Qed.
Lemma manifest_frames_cons r rs : frames (r :: rs) = frame (text_of r) ++ frames rs.
Proof. done. Qed.

Lemma u64_len (n : nat) : (Z.of_nat n < 2 ^ 63)%Z → u64 (u64 (Z.of_nat n)) = Z.of_nat n.
Proof. intros. by rewrite !u64_small by (rewrite ?u64_small by lia; lia). Qed.

Lemma manifest_step_frame content pre r post rs :
  content = pre ++ frame (text_of r) ++ post → record_ok r → (Z.of_nat (length content) < 2 ^ 63)%Z →
  recover_step content (length pre, rs) = Ok (inl (length (pre ++ frame (text_of r)), rs ++ [r])).
Proof.
  intros Hc Hok Hlen. destruct (text_spec r Hok) as [_ Hparse]. set (text := text_of r) in *.
  assert (length content = length pre + (8 + length text + 4) + length post) as Hl.
  { by rewrite Hc, !length_app, manifest_length_frame, Nat.add_assoc. }
  assert (content = pre ++ be_bytes 8 (u64 (Z.of_nat (length text))) ++ text ++ be_bytes 4 (crc32_hash text) ++ post) as Hb.
  { by rewrite Hc, manifest_frame_eq, <-!(assoc_L (++)). }
  unfold recover_step. rewrite decide_True, decide_False by lia.
  rewrite (bind_ok _ (Z.of_nat (length text))); cycle 1.
  { rewrite (read_u64_be_at _ pre _ _ _ Hb) by done. f_equal. apply u64_len. lia. }
  cbv zeta. rewrite (u64_small (Z.of_nat (length text) + 4)) by lia. rewrite !decide_False by lia.
  rewrite Nat2Z.id. rewrite (bind_ok _ (crc32_hash text)); cycle 1.
  { rewrite (read_u32_be_at _ (pre ++ be_bytes 8 (u64 (Z.of_nat (length text))) ++ text) (crc32_hash text) post);
      [by rewrite crc32_hash_u32| |by rewrite !length_app, length_be_bytes; lia].
    by rewrite Hb, <-!(assoc_L (++)). }
  erewrite (slice_at content (pre ++ be_bytes 8 (u64 (Z.of_nat (length text)))) text); cycle 1.
  { rewrite Hb. by rewrite <-!(assoc_L (++)). } { by rewrite length_app, length_be_bytes. } { done. }
  rewrite decide_False by (by intros []). rewrite Hparse. do 2 f_equal. f_equal.
  rewrite length_app, manifest_length_frame. fold text. lia.
Qed.

Lemma manifest_recover_frames rs : Forall record_ok rs → (Z.of_nat (length (frames rs)) < 2 ^ 63)%Z →
  recover_loop (frames rs) = Ok (inl rs).
Proof.
  intros Hok Hlen.
  destruct (returns_loopR (recover_step (frames rs))
    (λ s : nat * list ManifestRecord.t, s.1 = length (frames s.2) ∧ s.2 `prefix_of` rs)
    (λ s, length (frames rs) - s.1) (λ answer, answer = inl rs)) with (fuel := S (length (frames rs))) (s := (0, @nil ManifestRecord.t))
    as (r & Hr & ->); [| |simpl; lia|exact Hr].
  2: { split; [done|apply prefix_nil]. }
  intros [pos rs'] [Hpos [rest Hrest]]. simpl in Hpos, Hrest. subst pos.
  destruct rest as [|r rest].
  - rewrite app_nil_r in Hrest. subst rs'. exists (inr (inl rs)). split; [|done].
    unfold recover_step. by rewrite decide_False by lia.
  - assert (record_ok r) as Hr by (rewrite Hrest in Hok; by apply Forall_app in Hok as [_ [? _]%Forall_cons]).
    assert (frames rs = frames rs' ++ frame (text_of r) ++ frames rest) as Hfs.
    { rewrite Hrest. unfold frames. rewrite fmap_app, concat_app. done. }
    eexists (inl _). split; [by eapply manifest_step_frame|]. simpl. rewrite manifest_frames_snoc. split_and!; [done| |].
    + exists rest. by rewrite Hrest, <-(assoc_L (++)).
    + rewrite Hfs, !length_app, manifest_length_frame. lia.
Qed.

(** A file whose last frame is incomplete. *)
Lemma step_torn_manifest content pre text n rs :
  content = pre ++ take n (frame text) → 0 < n < length (frame text) → (Z.of_nat (length content) < 2 ^ 63)%Z →
  (Z.of_nat (length text) < 2 ^ 63)%Z →
  ∃ e, recover_step content (length pre, rs) = Ok (inr (inr e)).
Proof.
  intros Hc Hn Hlen Ht. rewrite manifest_length_frame in Hn.
  assert (length content = length pre + n) as Hl by (rewrite Hc, length_app, length_take, manifest_length_frame; lia).
  unfold recover_step. rewrite decide_True by lia. destruct (decide (length content - length pre < 8)); [by eexists|].
  rewrite (bind_ok _ (Z.of_nat (length text))); cycle 1.
  { rewrite (read_u64_be_at _ pre (u64 (Z.of_nat (length text))) (take (n - 8) (text ++ be_bytes 4 (crc32_hash text)))).
    - f_equal. by apply u64_len.
    - rewrite Hc, manifest_frame_eq. f_equal. rewrite take_app_ge by (rewrite length_be_bytes; lia).
      by rewrite length_be_bytes.
    - done. }
  cbv zeta. rewrite (u64_small (Z.of_nat (length text) + 4)) by lia. rewrite decide_True by lia. by eexists.
Qed.

Lemma manifest_recover_torn rs r n : Forall record_ok rs → 0 < n < length (frame (text_of r)) →
  (Z.of_nat (length (frames (rs ++ [r]))) < 2 ^ 63)%Z →
  ∃ e, recover_loop (frames rs ++ take n (frame (text_of r))) = Ok (inr e).
Proof.
  intros Hok Hn Hlen. rewrite manifest_frames_snoc, length_app in Hlen. pose proof (manifest_length_frame (text_of r)) as Hf.
  set (content := frames rs ++ take n (frame (text_of r))).
  assert (length content = length (frames rs) + n) as Hc by (unfold content; rewrite length_app, length_take; lia).
  destruct (returns_loopR (recover_step content)
    (λ s : nat * list ManifestRecord.t, s.1 = length (frames s.2) ∧ s.2 `prefix_of` rs)
    (λ s, length content - s.1) (λ answer, ∃ e, answer = inr e)) with (fuel := S (length content)) (s := (0, @nil ManifestRecord.t))
    as (answer & Hr & e & ->); [| |simpl; lia|by exists e].
  2: { split; [done|apply prefix_nil]. }
  intros [pos rs'] [Hpos [rest Hrest]]. simpl in Hpos, Hrest. subst pos. destruct rest as [|r' rest].
  - rewrite app_nil_r in Hrest. subst rs'.
    destruct (step_torn_manifest content (frames rs) (text_of r) n rs) as [e He]; [done|done|lia|lia|].
    exists (inr (inr e)). split; [done|by exists e].
  - assert (record_ok r') as Hr by (rewrite Hrest in Hok; by apply Forall_app in Hok as [_ [? _]%Forall_cons]).
    assert (frames rs = frames rs' ++ frame (text_of r') ++ frames rest) as Hfs.
    { rewrite Hrest. unfold frames. rewrite fmap_app, concat_app. done. }
    eexists (inl _). split; [eapply (manifest_step_frame content (frames rs') r' (frames rest ++ take n (frame (text_of r)))); [|done|lia]|].
    { unfold content. by rewrite Hfs, <-!(assoc_L (++)). }
    simpl. rewrite manifest_frames_snoc. split_and!; [done| |].
    + exists rest. by rewrite Hrest, <-(assoc_L (++)).
    + rewrite Hc, Hfs, !length_app, manifest_length_frame. lia.
Qed.

(** *** Adding records *)
Lemma write_at_end buf data : write_at (length data) buf data = data ++ buf.
Proof.
  unfold write_at. rewrite firstn_all, Nat.sub_diag, drop_ge by lia. simpl. by rewrite app_nil_r.
Qed.
Lemma write_at_start buf data : write_at 0 buf data = buf ++ drop (length buf) data.
Proof. done. Qed.

(** The manifest object after the records [rs] were written. *)
Definition written (m : t) (fs : Fs.t) rs : Prop :=
  fd_ m = Some (length (frames rs)) ∧ fs !! path_ m = Some (frames rs).

Lemma add_record_ok m fs pos data r : fd_ m = Some pos → fs !! path_ m = Some data → record_ok r →
  add_record m r fs = Ok (<[path_ m := write_at pos (frame (text_of r)) data]> fs,
    (mk (path_ m) (Some (pos + length (frame (text_of r)))), inl tt)).
Proof.
  intros Hfd Hfs Hok. destruct (text_spec r Hok) as [Hd _]. unfold add_record, add_record_when_init.
  rewrite Hfd, Hd, Hfs. reflexivity.
Qed.

Lemma add_record_written m fs rs r : written m fs rs → record_ok r → ∃ m',
  add_record m r fs = Ok (<[path_ m := frames (rs ++ [r])]> fs, (m', inl tt)) ∧
  written m' (<[path_ m := frames (rs ++ [r])]> fs) (rs ++ [r]) ∧ path_ m' = path_ m.
Proof.
  intros [Hfd Hfs] Hok. rewrite (add_record_ok _ _ _ _ _ Hfd Hfs Hok), write_at_end, <-manifest_frames_snoc.
  eexists. split; [done|]. split; [|done]. split; cbn [fd_ path_]; [|by rewrite lookup_insert_eq].
  by rewrite manifest_frames_snoc, length_app.
Qed.

(** Adding several records in a row. *)
Definition add_all (m : t) rs : eff Fs.t t :=
  foldl (λ (acc : eff Fs.t t) r, m ← acc; '(m, _) ← add_record m r; mret m) (mret m) rs.

Lemma add_all_written rs m fs rs0 : written m fs rs0 → Forall record_ok rs → ∃ m' fs',
  add_all m rs fs = Ok (fs', m') ∧ written m' fs' (rs0 ++ rs) ∧ path_ m' = path_ m ∧
  (∀ p, p ≠ path_ m → fs' !! p = fs !! p).
Proof.
  intros Hw. induction rs as [|r rs IH] using rev_ind; intros Hok.
  - exists m, fs. rewrite app_nil_r. by split_and!.
  - apply Forall_app in Hok as [Hok [Hr _]%Forall_cons]. destruct (IH Hok) as (m' & fs' & Hrun & Hw' & Hp & Hother).
    destruct (add_record_written m' fs' _ r Hw' Hr) as (m'' & Hadd & Hw'' & Hp').
    exists m'', (<[path_ m' := frames ((rs0 ++ rs) ++ [r])]> fs'). rewrite (assoc_L (++)).
    split_and!; [|done|congruence|].
    + unfold add_all in *. rewrite foldl_app. simpl. unfold mbind at 1, eff_bind at 1. rewrite Hrun.
      unfold mbind, eff_bind. by rewrite Hadd.
    + intros p Hne. rewrite lookup_insert_ne by congruence. by apply Hother.
Qed.

Lemma recover_file path fs data records : fs !! path = Some data → recover_loop data = Ok (inl records) →
  recover path fs = Ok (fs, inl (mk path (Some 0), records)).
Proof. intros Hfs Hr. unfold recover. rewrite !Hfs. cbn [default from_option id]. by rewrite Hr. Qed.
End spec.
End ManifestSpec.

(** ** Properties *)
Section properties.
Context `{!Zlib} `{!Json} `{!JsonLaws}.

(** C26: what was added to a fresh manifest is what recovery returns.  After
    creating a manifest and adding records of any kind in a row (their ids fit
    64 bits, the file stays below 2^63 bytes), no call fails, the file is the
    concatenation of their frames, and [recover] returns exactly these records
    in order, reading inside the file only. *)
Theorem manifest_roundtrip path fs rs :
  Forall ManifestRecordSpec.record_ok rs → (Z.of_nat (length (ManifestSpec.frames rs)) < 2 ^ 63)%Z →
  ∃ m0 fs0 m fs', Manifest.create path fs = Ok (fs0, inl m0) ∧
    ManifestSpec.add_all m0 rs fs0 = Ok (fs', m) ∧
    fs' !! path = Some (ManifestSpec.frames rs) ∧
    Manifest.recover path fs' = Ok (fs', inl (Manifest.mk path (Some 0), rs)).
Proof.
  intros Hok Hlen. exists (Manifest.mk path (Some 0)), (<[path := []]> fs).
  destruct (ManifestSpec.add_all_written rs (Manifest.mk path (Some 0)) (<[path := []]> fs) [])
    as (m & fs' & Hadd & [_ Hfs] & Hp & _); [split; [done|apply lookup_insert_eq]|done|].
  rewrite Hp in Hfs. exists m, fs'. split_and!; [done..|].
  eapply ManifestSpec.recover_file; [done|]. by apply ManifestSpec.manifest_recover_frames.
Qed.

(** C27: a manifest whose last record is incomplete is refused.  If a crash cut
    the file anywhere inside its last frame, [recover] answers with an error
    and leaves the file alone; it does not return the complete records before
    the cut, and it never reads outside the file. *)
Theorem manifest_torn_refused path fs rs r n :
  Forall ManifestRecordSpec.record_ok rs → 0 < n < length (Manifest.frame (ManifestSpec.text_of r)) →
  (Z.of_nat (length (ManifestSpec.frames (rs ++ [r]))) < 2 ^ 63)%Z →
  fs !! path = Some (ManifestSpec.frames rs ++ take n (Manifest.frame (ManifestSpec.text_of r))) →
  ∃ e, Manifest.recover path fs = Ok (fs, inr e).
Proof.
  intros Hok Hn Hlen Hfs. destruct (ManifestSpec.manifest_recover_torn rs r n Hok Hn Hlen) as [e He].
  exists e. unfold Manifest.recover. rewrite !Hfs. cbn [default from_option id]. by rewrite He.
Qed.

(** C28: the first record added after a recovery destroys the first record of
    the file.  [recover] opens the file without [O_APPEND] and reads it with
    [pread], so the position of the descriptor is still 0; the next [add_record]
    writes there.  When the new text is as long as the old first one, the next
    recovery succeeds and silently returns the new record first instead of the
    old one, and nothing was appended. *)
Theorem manifest_reopen_overwrites path fs r0 rs r :
  Forall ManifestRecordSpec.record_ok (r0 :: rs) → ManifestRecordSpec.record_ok r →
  (Z.of_nat (length (ManifestSpec.frames (r0 :: rs))) < 2 ^ 63)%Z →
  fs !! path = Some (ManifestSpec.frames (r0 :: rs)) →
  length (ManifestSpec.text_of r) = length (ManifestSpec.text_of r0) →
  ∃ m m' fs', Manifest.recover path fs = Ok (fs, inl (m, r0 :: rs)) ∧
    Manifest.add_record m r fs = Ok (fs', (m', inl tt)) ∧
    Manifest.recover path fs' = Ok (fs', inl (Manifest.mk path (Some 0), r :: rs)).
Proof.
  intros Hok Hr Hlen Hfs Htext. exists (Manifest.mk path (Some 0)).
  rewrite (ManifestSpec.add_record_ok (Manifest.mk path (Some 0)) fs 0 _ r eq_refl Hfs Hr).
  eexists _, _. split; [|split; [done|]].
  - eapply ManifestSpec.recover_file; [done|]. by apply ManifestSpec.manifest_recover_frames.
  - eapply ManifestSpec.recover_file; [apply lookup_insert_eq|].
    rewrite ManifestSpec.write_at_start, ManifestSpec.manifest_frames_cons, drop_app_length'
      by (by rewrite !ManifestSpec.manifest_length_frame, Htext).
    rewrite <-ManifestSpec.manifest_frames_cons. apply ManifestSpec.manifest_recover_frames.
    + apply Forall_cons in Hok as [_ Hok]. by constructor.
    + rewrite ManifestSpec.manifest_frames_cons, length_app, ManifestSpec.manifest_length_frame in Hlen |- *. by rewrite Htext.
Qed.

(** A length field close to 2^64 defeats the bounds check of [recover].
    The sum of the length and 4 wraps around to at most 3, so the check passes
    on any file with that much behind the header, and the checksum is then read
    far outside the buffer. *)
Lemma manifest_length_overflow path fs len rest :
  (2 ^ 64 - 4 ≤ len < 2 ^ 64)%Z → 3 ≤ length rest → (Z.of_nat (length rest) < 2 ^ 62)%Z →
  fs !! path = Some (be_bytes 8 len ++ rest) →
  ∃ e, Manifest.recover path fs = Err (UB e).
Proof.
  intros Hlen Hrest Hsmall Hfs. exists "read beyond the end of the manifest"%string.
  unfold Manifest.recover. rewrite !Hfs. cbn [default from_option id]. unfold Manifest.recover_loop.
  assert (length (be_bytes 8 len ++ rest) = 8 + length rest) as Hl by (by rewrite length_app, length_be_bytes).
  assert (Manifest.recover_step (be_bytes 8 len ++ rest) (0, []) = Err (UB "read beyond the end of the manifest")) as E;
    [|cbn [loopR]; by rewrite E].
  unfold Manifest.recover_step. rewrite Hl, decide_True, decide_False by lia.
  rewrite (bind_ok _ len) by (rewrite (read_u64_be_at _ [] len rest) by done; by rewrite u64_small by lia).
  cbv zeta. assert (u64 (len + 4) = len + 4 - 2 ^ 64)%Z as ->.
  { unfold u64. symmetry. apply (Zmod_unique _ _ 1); lia. }
  rewrite decide_False by lia. by rewrite decide_True by lia.
Qed.
End properties.

(** ** A concrete JSON library, used in examples only: values are trees, the
    text of a value is its binary code. *)
From stdpp Require Import countable.

Fixpoint bits (p : positive) : bytes :=
  match p with xH => [] | xO p => x00 :: bits p | xI p => x01 :: bits p end.
Fixpoint unbits (l : bytes) : positive :=
  match l with [] => xH | x00 :: l => xO (unbits l) | _ :: l => xI (unbits l) end.
Lemma unbits_bits p : unbits (bits p) = p.
Proof. induction p; simpl; by f_equal. Qed.

Definition tree : Type := gen_tree (nat + bool + string).
Definition demo_field (kv : string * tree) : tree := GenNode 3 [GenLeaf (inr kv.1); kv.2].
Fixpoint demo_find (l : list tree) (k : string) : option tree :=
  match l with
  | GenNode 3 [GenLeaf (inr k'); v] :: l => if decide (k' = k) then Some v else demo_find l k
  | _ => None
  end.
Definition demo_fields (j : tree) : list tree := match j with GenNode 2 l => l | _ => [] end.

Definition demo_json : Json := {|
  json := tree;
  j_null := GenNode 0 [];
  j_size n := GenLeaf (inl (inl n));
  j_bool b := GenLeaf (inl (inr b));
  j_array l := GenNode 1 l;
  j_object l := GenNode 2 (demo_field <$> l);
  j_is_null j := match j with GenNode 0 [] => true | _ => false end;
  j_contains j k := bool_decide (is_Some (demo_find (demo_fields j) k));
  j_at j k := match demo_find (demo_fields j) k with Some v => Ok v | None => Err (Exn "out_of_range") end;
  j_at_index j i := match j with
    | GenNode 1 l => match l !! i with Some v => Ok v | None => Err (Exn "out_of_range") end
    | _ => Err (Exn "type_error") end;
  j_get_size j := match j with GenLeaf (inl (inl n)) => Ok n | _ => Err (Exn "type_error") end;
  j_get_bool j := match j with GenLeaf (inl (inr b)) => Ok b | _ => Err (Exn "type_error") end;
  j_get_array j := match j with GenNode 1 l => Ok l | _ => Err (Exn "type_error") end;
  dump j := Ok (bits (encode j));
  parse text := match decode (unbits text) with Some j => Ok j | None => Err (Exn "parse_error") end |}.

Lemma demo_find_fields l k : demo_find (demo_field <$> l) k = list_to_map (M:=gmap string tree) l !! k.
Proof.
  induction l as [|[k' v] l IH]; simpl; [done|]. case_decide as Hk.
  - subst. by rewrite lookup_insert_eq.
  - by rewrite lookup_insert_ne.
Qed.

Lemma demo_json_laws : @JsonLaws demo_json.
Proof.
  split; simpl; try done.
  - intros l k. apply bool_decide_ext. rewrite demo_find_fields. split.
    + intros [v Hv]. apply elem_of_list_to_map_2 in Hv. by apply (list_elem_of_fmap_2 fst) in Hv.
    + intros Hk. destruct (list_to_map l !! k) eqn:E; [done|].
      by apply not_elem_of_list_to_map_2 in E.
  - intros l k v Hnd Hin. rewrite demo_find_fields. by erewrite elem_of_list_to_map_1.
  - intros l i v Hi. by match goal with |- match ?x with _ => _ end = _ => replace x with (Some v) by (symmetry; exact Hi) end.
  - intros j _. eexists. split; [done|]. by rewrite unbits_bits, decode_encode.
Qed.

Definition demo_records : list ManifestRecord.t :=
  [ManifestRecord.NewMemtable 1; ManifestRecord.Flush 1;
   ManifestRecord.Compaction (CompactionTask.Leveled (LeveledCompactionTask.mk None [2; 1] 1 [] false)) [3]].
Definition demo_file (rs : list ManifestRecord.t) : bytes := @ManifestSpec.frames demo_zlib demo_json rs.

Lemma demo_records_ok : Forall ManifestRecordSpec.record_ok demo_records.
Proof. repeat constructor. Qed.

Lemma manifest_roundtrip_witness :
  ∃ m0 fs0 m fs', Manifest.create "MANIFEST" ∅ = Ok (fs0, inl m0) ∧
    @ManifestSpec.add_all demo_zlib demo_json m0 demo_records fs0 = Ok (fs', m) ∧
    @Manifest.recover demo_zlib demo_json "MANIFEST" fs' = Ok (fs', inl (Manifest.mk "MANIFEST" (Some 0), demo_records)).
Proof.
  destruct (@manifest_roundtrip demo_zlib demo_json demo_json_laws "MANIFEST" ∅ demo_records)
    as (m0 & fs0 & m & fs' & Hc & Ha & _ & Hr).
  - exact demo_records_ok.
  - vm_compute. reflexivity.
  - exists m0, fs0, m, fs'. split; [exact Hc|]. split; [exact Ha|exact Hr].
Defined.

Lemma manifest_torn_refused_witness :
  ∃ e, @Manifest.recover demo_zlib demo_json "MANIFEST"
    {["MANIFEST"%string := demo_file [ManifestRecord.NewMemtable 1] ++
        take 9 (@Manifest.frame demo_zlib (@ManifestSpec.text_of demo_json (ManifestRecord.Flush 1)))]} =
    Ok ({["MANIFEST"%string := demo_file [ManifestRecord.NewMemtable 1] ++
        take 9 (@Manifest.frame demo_zlib (@ManifestSpec.text_of demo_json (ManifestRecord.Flush 1)))]}, inr e).
Proof.
  apply (@manifest_torn_refused demo_zlib demo_json demo_json_laws "MANIFEST" _ [ManifestRecord.NewMemtable 1] (ManifestRecord.Flush 1) 9).
  - repeat constructor.
  - split; apply Nat.ltb_lt; vm_compute; reflexivity.
  - vm_compute. reflexivity.
  - reflexivity.
Defined.

Lemma manifest_reopen_overwrites_witness :
  let fs := {["MANIFEST"%string := demo_file [ManifestRecord.NewMemtable 1; ManifestRecord.Flush 1]]} in
  ∃ m m' fs', @Manifest.recover demo_zlib demo_json "MANIFEST" fs =
      Ok (fs, inl (m, [ManifestRecord.NewMemtable 1; ManifestRecord.Flush 1])) ∧
    @Manifest.add_record demo_zlib demo_json m (ManifestRecord.NewMemtable 2) fs = Ok (fs', (m', inl tt)) ∧
    @Manifest.recover demo_zlib demo_json "MANIFEST" fs' =
      Ok (fs', inl (Manifest.mk "MANIFEST" (Some 0), [ManifestRecord.NewMemtable 2; ManifestRecord.Flush 1])).
Proof.
  intros fs. apply (@manifest_reopen_overwrites demo_zlib demo_json demo_json_laws).
  - repeat constructor.
  - reflexivity.
  - vm_compute. reflexivity.
  - reflexivity.
  - vm_compute. reflexivity.
Defined.

Lemma manifest_length_overflow_witness :
  ∃ e, @Manifest.recover demo_zlib demo_json "MANIFEST"
    {["MANIFEST"%string := be_bytes 8 18446744073709551613 ++ [x00; x01; x02]]} = Err (UB e).
Proof.
  apply (@manifest_length_overflow demo_zlib demo_json "MANIFEST" _ 18446744073709551613 [x00; x01; x02]).
  - lia.
  - simpl. lia.
  - reflexivity.
  - reflexivity.
Defined.
