(* ===== verification/LsmStorage.v ===== *)
(** * The storage engine: include/mini_lsm/lsm_storage.h, src/lsm_storage.cpp and
      the storage part of src/compact.cpp

    [LsmStorageInner.t] is the object; its operations run over a world of files
    and the shared block cache.  [state] is replaced as a whole by each
    operation, as in the code; the mutable memtable inside it is a value here,
    since only the current state refers to it while it is written.

    Each operation is the code between taking and releasing its locks, so it is
    one atomic step; [trigger_compaction] and [force_full_compaction] release
    the locks between reading the state and installing the result, and are
    written as the two parts.  [sync_dir] does nothing. *)
From stdpp Require Import pretty.
From S2P Require Import Prelude Endian Key Iterators Block BlockCache Double Bloom Table TableIterator Wal MemTable State Layers SimpleLeveled Tiered Leveled Compact Manifest.

(** ** The world *)
Record World := MkWorld { files : Fs.t; cache : BlockCache.t }.

Definition on_fs {A} (m : eff Fs.t A) : eff World A := λ w,
  match m (files w) with Ok (fs, a) => Ok (MkWorld fs (cache w), a) | Err e => Err e end.
Definition on_cache {A} (m : eff BlockCache.t A) : eff World A := λ w,
  match m (cache w) with Ok (c, a) => Ok (MkWorld (files w) c, a) | Err e => Err e end.
Definition remove_file (path : string) : eff World unit :=
  on_fs (λ fs, Ok (delete path fs, tt)).

(** ** Definitions *)
Module LsmStorageInner.
Record t := mk {
  state : LsmStorageState.t;
  path : string;
  next_sst_id : nat;
  options : LsmStorageOptions.t;
  compaction_controller : CompactionController.t;
  manifest : option Manifest.t }.

Definition set_state (s : t) (st : LsmStorageState.t) : t :=
  mk st (path s) (next_sst_id s) (options s) (compaction_controller s) (manifest s).
Definition set_next_sst_id (s : t) (id : nat) : t :=
  mk (state s) (path s) id (options s) (compaction_controller s) (manifest s).
Definition set_manifest (s : t) (m : option Manifest.t) : t :=
  mk (state s) (path s) (next_sst_id s) (options s) (compaction_controller s) m.

(** The constructor. *)
Definition create (opts : LsmStorageOptions.t) (p : string) : t :=
  mk (LsmStorageState.create opts) p 1 opts
     (CompactionController.create (LsmStorageOptions.compaction_options opts)) None.

(** [std::filesystem::path::operator/] with a file name. *)
Definition join_path (p name : string) : string :=
  if decide (p = ""%string) then name
  else if decide (String.get (String.length p - 1) p = Some (Ascii.ascii_of_nat 47)) then p +:+ name
  else p +:+ "/" +:+ name.
(** ["%05zu"] *)
Definition pad5 (s : string) : string := String.concat "" (replicate (5 - String.length s) "0"%string) +:+ s.
Definition path_of_sst_val (s : t) (id : nat) : string := join_path (path s) (pad5 (pretty id) +:+ ".sst").
Definition path_of_wal_val (s : t) (id : nat) : string := join_path (path s) (pad5 (pretty id) +:+ ".wal").

Section code.
Context `{!Zlib} `{!Snappy} `{!Farmhash} `{!Libm} `{!Json} `{!LoopFuel}.

Definition add_manifest_record (s : t) (r : ManifestRecord.t) : eff World t :=
  match manifest s with
  | Some m => '(m, _) ← on_fs (Manifest.add_record m r); mret (set_manifest s (Some m))
  | None => mret s
  end.

(** A new memtable, with a log if logging is on and the log can be created. *)
Definition new_memtable (s : t) (id : nat) : eff World MemTable.t :=
  if LsmStorageOptions.enable_wal (options s) then
    r ← on_fs (MemTable.create_with_wal id (path_of_wal_val s id));
    mret (match r with inl m => m | inr _ => MemTable.create id end)
  else mret (MemTable.create id).

Definition force_freeze_memtable (s : t) : eff World t :=
  let memtable_id := next_sst_id s in
  let s := set_next_sst_id s (S memtable_id) in
  memtable ← new_memtable s memtable_id;
  let st := state s in
  let st' := LsmStorageState.set_imm_memtables (LsmStorageState.set_memtable st memtable)
               (LsmStorageState.memtable st :: LsmStorageState.imm_memtables st) in
  add_manifest_record (set_state s st') (ManifestRecord.NewMemtable memtable_id).

(** The destructor of a memtable closes its log. *)
Definition destroy_memtable (m : MemTable.t) : eff World unit :=
  match MemTable.wal_ m with
  | Some wal => on_fs (λ fs, Ok (Wal.close wal fs, tt))
  | None => mret tt
  end.

Definition force_flush_next_imm_memtable (s : t) : eff World t :=
  match last (LsmStorageState.imm_memtables (state s)) with
  | None => mret s
  | Some flush_memtable =>
      builder ← lift (MemTable.flush flush_memtable
        (SsTableBuilder.create (LsmStorageOptions.block_size (options s)) (LsmStorageOptions.compression (options s))));
      let sst_id := MemTable.id_ flush_memtable in
      sst ← on_fs (SsTableBuilder.build builder sst_id true (path_of_sst_val s sst_id));
      let st := state s in
      let st := LsmStorageState.set_imm_memtables st
                  (take (length (LsmStorageState.imm_memtables st) - 1) (LsmStorageState.imm_memtables st)) in
      let st :=
        if CompactionController.flush_to_l0 (compaction_controller s)
        then LsmStorageState.set_l0_sstables st (sst_id :: LsmStorageState.l0_sstables st)
        else LsmStorageState.set_levels st ((sst_id, [sst_id]) :: LsmStorageState.levels st) in
      let st := LsmStorageState.set_sstables st (<[sst_id := sst]> (LsmStorageState.sstables st)) in
      s ← add_manifest_record (set_state s st) (ManifestRecord.Flush sst_id);
      destroy_memtable flush_memtable;;
      mret s
  end.

Definition put (s : t) (key value : bytes) : eff World t :=
  let memtable := (MemTable.put (LsmStorageState.memtable (state s)) key value).1 in
  let s := set_state s (LsmStorageState.set_memtable (state s) memtable) in
  if decide (LsmStorageOptions.target_sst_size (options s) ≤ MemTable.approximate_size_ memtable)
  then force_freeze_memtable s
  else mret s.

Definition del (s : t) (key : bytes) : eff World t := put s key [].

Definition sync (s : t) : eff World t :=
  '(m, _) ← on_fs (MemTable.sync_wal (LsmStorageState.memtable (state s)));
  mret (set_state s (LsmStorageState.set_memtable (state s) m)).

(** *** Point reads *)

(** The lookups in the memtables: the value of the first one that has the key. *)
Fixpoint get_memtables (memtables : list MemTable.t) (key : bytes) : option bytes :=
  match memtables with
  | [] => None
  | m :: memtables =>
      match MemTable.get m key with Some v => Some v | None => get_memtables memtables key end
  end.

Definition keep_table (key : bytes) (table : SsTable.t) : res bool :=
  if KeySlice.geb key (SsTable.first_key table) && KeySlice.leb key (SsTable.last_key table) then
    match SsTable.bloom table with
    | Some bloom => Bloom.may_contain bloom (farmhash_fingerprint32 key)
    | None => mret true
    end
  else mret false.

Fixpoint get_l0_iters (st : LsmStorageState.t) (key : bytes) (ids : list nat) : eff BlockCache.t (list SsTableIterator.t) :=
  match ids with
  | [] => mret []
  | id :: ids =>
      match LsmStorageState.sstables st !! id with
      | Some table =>
          keep ← lift (keep_table key table);
          if keep : bool then
            it ← SsTableIterator.create_and_seek_to_key (Some table) key;
            its ← get_l0_iters st key ids;
            mret (it :: its)
          else get_l0_iters st key ids
      | None => get_l0_iters st key ids
      end
  end.

Fixpoint get_level_ssts (st : LsmStorageState.t) (key : bytes) (ids : list nat) : res (list SsTable.t) :=
  match ids with
  | [] => mret []
  | id :: ids =>
      match LsmStorageState.sstables st !! id with
      | Some table =>
          keep ← keep_table key table;
          ssts ← get_level_ssts st key ids;
          mret (if keep : bool then table :: ssts else ssts)
      | None => get_level_ssts st key ids
      end
  end.

Fixpoint get_level_iters (st : LsmStorageState.t) (key : bytes) (levels : list (nat * list nat)) :
    eff BlockCache.t (list SstConcatIterator.t) :=
  match levels with
  | [] => mret []
  | (_, level_sst_ids) :: levels =>
      level_ssts ← lift (get_level_ssts st key level_sst_ids);
      it ← SstConcatIterator.create_and_seek_to_key level_ssts key;
      its ← get_level_iters st key levels;
      mret (it :: its)
  end.

(** The part of [get] after the memtables. *)
Definition get_tables (st : LsmStorageState.t) (key : bytes) : eff BlockCache.t bytes :=
  l0_iters ← get_l0_iters st key (LsmStorageState.l0_sstables st);
  l0_merge ← MergeIterator.create l0_iters;
  level_iters ← get_level_iters st key (LsmStorageState.levels st);
  level_merge ← MergeIterator.create level_iters;
  iter ← TwoMergeIterator.create l0_merge level_merge;
  if is_valid (W:=BlockCache.t) iter then
    k ← lift (Iterators.key (W:=BlockCache.t) iter);
    if KeySlice.eqb k key then
      v ← lift (value (W:=BlockCache.t) iter);
      mret (if KeySlice.is_empty v then [] else v)
    else mret []
  else mret [].

Definition get (s : t) (key : bytes) : eff World bytes :=
  match get_memtables (LsmStorageState.memtable (state s) :: LsmStorageState.imm_memtables (state s)) key with
  | Some v => mret v
  | None => on_cache (get_tables (state s) key)
  end.

(** *** Range reads *)
Definition range_overlap (l u : Bound) (first last : bytes) : bool :=
  match l with
  | Included k => negb (KeySlice.gtb k last)
  | Excluded k => negb (KeySlice.geb k last)
  | Unbounded => true
  end &&
  match u with
  | Included k => negb (KeySlice.ltb k first)
  | Excluded k => negb (KeySlice.leb k first)
  | Unbounded => true
  end.

(** [if (iter.is_valid() && iter.key() == lower.key) iter.next();] *)
Definition skip_key {I} `{!StorageIterator BlockCache.t I} (iter : I) (key : bytes) : eff BlockCache.t I :=
  if is_valid iter then
    k ← lift (Iterators.key iter);
    if KeySlice.eqb k key then next iter else mret iter
  else mret iter.

Definition scan_table (lower : Bound) (table : SsTable.t) : eff BlockCache.t SsTableIterator.t :=
  match lower with
  | Included key => SsTableIterator.create_and_seek_to_key (Some table) key
  | Excluded key => iter ← SsTableIterator.create_and_seek_to_key (Some table) key; skip_key iter key
  | Unbounded => SsTableIterator.create_and_seek_to_first (Some table)
  end.

Fixpoint scan_l0_iters (st : LsmStorageState.t) (lower upper : Bound) (ids : list nat) :
    eff BlockCache.t (list SsTableIterator.t) :=
  match ids with
  | [] => mret []
  | id :: ids =>
      match LsmStorageState.sstables st !! id with
      | Some table =>
          if range_overlap lower upper (SsTable.first_key table) (SsTable.last_key table) then
            iter ← scan_table lower table;
            iters ← scan_l0_iters st lower upper ids;
            mret (iter :: iters)
          else scan_l0_iters st lower upper ids
      | None => scan_l0_iters st lower upper ids
      end
  end.

Definition scan_level_ssts (st : LsmStorageState.t) (lower upper : Bound) (ids : list nat) : list SsTable.t :=
  omap (λ id, match LsmStorageState.sstables st !! id with
              | Some table =>
                  if range_overlap lower upper (SsTable.first_key table) (SsTable.last_key table)
                  then Some table else None
              | None => None
              end) ids.

Definition scan_level (lower : Bound) (ssts : list SsTable.t) : eff BlockCache.t SstConcatIterator.t :=
  match ssts with
  | [] => mret SstConcatIterator.empty
  | _ =>
      match lower with
      | Included key => SstConcatIterator.create_and_seek_to_key ssts key
      | Excluded key => iter ← SstConcatIterator.create_and_seek_to_key ssts key; skip_key iter key
      | Unbounded => SstConcatIterator.create_and_seek_to_first ssts
      end
  end.

Fixpoint scan_level_iters (st : LsmStorageState.t) (lower upper : Bound) (levels : list (nat * list nat)) :
    eff BlockCache.t (list SstConcatIterator.t) :=
  match levels with
  | [] => mret []
  | (_, level_sst_ids) :: levels =>
      iter ← scan_level lower (scan_level_ssts st lower upper level_sst_ids);
      iters ← scan_level_iters st lower upper levels;
      mret (iter :: iters)
  end.

(** The iterator [scan] returns. *)
Definition ScanIterator : Type :=
  FusedIterator.t (LsmIterator.t
    (TwoMergeIterator.t
       (TwoMergeIterator.t (MergeIterator.t MemTableIterator.t) (MergeIterator.t SsTableIterator.t))
       (MergeIterator.t SstConcatIterator.t))).

Definition scan (s : t) (lower upper : Bound) : eff BlockCache.t ScanIterator :=
  let snapshot := state s in
  let memtable_iters :=
    (λ m, MemTable.scan m lower upper) <$>
      (LsmStorageState.memtable snapshot :: LsmStorageState.imm_memtables snapshot) in
  memtable_iter ← MergeIterator.create memtable_iters;
  table_iters ← scan_l0_iters snapshot lower upper (LsmStorageState.l0_sstables snapshot);
  l0_iter ← MergeIterator.create table_iters;
  level_iters ← scan_level_iters snapshot lower upper (LsmStorageState.levels snapshot);
  level_iter ← MergeIterator.create level_iters;
  two_merge_1 ← TwoMergeIterator.create memtable_iter l0_iter;
  two_merge_2 ← TwoMergeIterator.create two_merge_1 level_iter;
  lsm_iter ← LsmIterator.create (Some two_merge_2) upper;
  mret (FusedIterator.create lsm_iter).

(** *** Compaction *)

(** The variables of the loop of [compact_generate_sst_from_iter]. *)
Record gen (I : Type) := Gen {
  g_next_sst_id : nat;
  g_builder : option SsTableBuilder.t;
  g_new_sst : list SsTable.t;
  g_iter : I }.
#[global] Arguments Gen {_} _ _ _ _.
#[global] Arguments g_next_sst_id {_} _.
#[global] Arguments g_builder {_} _.
#[global] Arguments g_new_sst {_} _.
#[global] Arguments g_iter {_} _.

(** Building the table of a finished builder. *)
Definition gen_build {I} (s : t) (g : gen I) (builder : SsTableBuilder.t) : eff World (gen I) :=
  let sst_id := g_next_sst_id g in
  sst ← on_fs (SsTableBuilder.build builder sst_id true (path_of_sst_val s sst_id));
  mret (Gen (S sst_id) None (g_new_sst g ++ [sst]) (g_iter g)).

Definition gen_step {I} `{!StorageIterator BlockCache.t I} (s : t) (bottom : bool) (g : gen I) :
    eff World (gen I + gen I) :=
  if is_valid (g_iter g) then
    let builder :=
      match g_builder g with
      | Some b => b
      | None => SsTableBuilder.create (LsmStorageOptions.block_size (options s)) (LsmStorageOptions.compression (options s))
      end in
    v ← lift (value (g_iter g));
    builder ←
      (if bottom && KeySlice.is_empty v then mret builder
       else k ← lift (Iterators.key (g_iter g)); lift (SsTableBuilder.add builder k v));
    iter ← on_cache (next (g_iter g));
    let g := Gen (g_next_sst_id g) (Some builder) (g_new_sst g) iter in
    if negb (SsTableBuilder.is_empty builder) &&
       bool_decide (LsmStorageOptions.target_sst_size (options s) ≤ SsTableBuilder.estimated_size builder)
    then g ← gen_build s g builder; mret (inl g)
    else mret (inl g)
  else mret (inr g).

(** After the loop: the last table. *)
Definition gen_finish {I} (s : t) (g : gen I) : eff World (gen I) :=
  match g_builder g with
  | Some builder => if negb (SsTableBuilder.is_empty builder) then gen_build s g builder else mret g
  | None => mret g
  end.

(** The new tables, and the object with its id counter advanced. *)
Definition compact_generate_sst_from_iter {I} `{!StorageIterator BlockCache.t I} (s : t) (iter : I)
    (compact_to_bottom_level : bool) : eff World (t * list SsTable.t) :=
  g ← loop loop_fuel (gen_step s compact_to_bottom_level) (Gen (next_sst_id s) None [] iter);
  g ← gen_finish s g;
  mret (set_next_sst_id s (g_next_sst_id g), g_new_sst g).

(** The open tables of a list of ids; an id without a table is skipped. *)
Definition open_tables (snapshot : LsmStorageState.t) (ids : list nat) : list SsTable.t :=
  omap (λ id, LsmStorageState.sstables snapshot !! id) ids.

Fixpoint seek_all_first (tables : list SsTable.t) : eff BlockCache.t (list SsTableIterator.t) :=
  match tables with
  | [] => mret []
  | table :: tables =>
      it ← SsTableIterator.create_and_seek_to_first (Some table);
      its ← seek_all_first tables;
      mret (it :: its)
  end.

Fixpoint seek_all_tiers (snapshot : LsmStorageState.t) (tiers : list (nat * list nat)) :
    eff BlockCache.t (list SstConcatIterator.t) :=
  match tiers with
  | [] => mret []
  | (_, tier_ids) :: tiers =>
      it ← SstConcatIterator.create_and_seek_to_first (open_tables snapshot tier_ids);
      its ← seek_all_tiers snapshot tiers;
      mret (it :: its)
  end.

(** Level 0 with a lower level: the force-full branch and the branch of a
    leveled task without an upper level. *)
Definition compact_l0 (s : t) (upper lower : list nat) (bottom : bool) : eff World (t * list SsTable.t) :=
  let snapshot := state s in
  l0_iters ← on_cache (seek_all_first (open_tables snapshot upper));
  merge_upper ← on_cache (MergeIterator.create l0_iters);
  concat_lower ← on_cache (SstConcatIterator.create_and_seek_to_first (open_tables snapshot lower));
  two_merge ← on_cache (TwoMergeIterator.create merge_upper concat_lower);
  compact_generate_sst_from_iter s two_merge bottom.

(** A level with the next one; the lower iterator is made first. *)
Definition compact_levels (s : t) (upper_level : option nat) (upper lower : list nat) (bottom : bool) :
    eff World (t * list SsTable.t) :=
  let snapshot := state s in
  concat_lower ← on_cache (SstConcatIterator.create_and_seek_to_first (open_tables snapshot lower));
  match upper_level with
  | Some _ =>
      concat_upper ← on_cache (SstConcatIterator.create_and_seek_to_first (open_tables snapshot upper));
      two_merge ← on_cache (TwoMergeIterator.create concat_upper concat_lower);
      compact_generate_sst_from_iter s two_merge bottom
  | None =>
      l0_iters ← on_cache (seek_all_first (open_tables snapshot upper));
      merge_upper ← on_cache (MergeIterator.create l0_iters);
      two_merge ← on_cache (TwoMergeIterator.create merge_upper concat_lower);
      compact_generate_sst_from_iter s two_merge bottom
  end.

Definition compact (s : t) (task : CompactionTask.t) : eff World (t * list SsTable.t) :=
  let bottom := CompactionTask.compact_to_bottom_level task in
  match task with
  | CompactionTask.ForceFull t =>
      compact_l0 s (ForceFullCompactionTask.l0_sstables t) (ForceFullCompactionTask.l1_sstables t) bottom
  | CompactionTask.Simple t =>
      compact_levels s (SimpleLeveledCompactionTask.upper_level t) (SimpleLeveledCompactionTask.upper_level_sst_ids t)
        (SimpleLeveledCompactionTask.lower_level_sst_ids t) bottom
  | CompactionTask.Leveled t =>
      compact_levels s (LeveledCompactionTask.upper_level t) (LeveledCompactionTask.upper_level_sst_ids t)
        (LeveledCompactionTask.lower_level_sst_ids t) bottom
  | CompactionTask.Tiered t =>
      tier_iters ← on_cache (seek_all_tiers (state s) (TieredCompactionTask.tiers t));
      merge_iter ← on_cache (MergeIterator.create tier_iters);
      compact_generate_sst_from_iter s merge_iter bottom
  end.

Fixpoint remove_files (paths : list string) : eff World unit :=
  match paths with [] => mret tt | p :: paths => remove_file p;; remove_files paths end.

(** Installing the new tables in the map. *)
Definition add_tables (sstables : gmap nat SsTable.t) (new : list SsTable.t) : gmap nat SsTable.t :=
  foldl (λ m sst, <[SsTable.id sst := sst]> m) sstables new.
Definition erase_tables (sstables : gmap nat SsTable.t) (ids : list nat) : gmap nat SsTable.t :=
  foldl (λ m id, delete id m) sstables ids.

(** Erasing the removed tables, and the tables erased. *)
Fixpoint take_tables (sstables : gmap nat SsTable.t) (files_to_remove : list nat) : gmap nat SsTable.t * list SsTable.t :=
  match files_to_remove with
  | [] => (sstables, [])
  | file_id :: files_to_remove =>
      match sstables !! file_id with
      | Some sst =>
          let '(sstables, ssts) := take_tables (delete file_id sstables) files_to_remove in
          (sstables, sst :: ssts)
      | None => take_tables sstables files_to_remove
      end
  end.

(** The second part of [force_full_compaction], under [state_lock]. *)
Definition install_full (s : t) (l0_sstables l1_sstables : list nat) (sstables : list SsTable.t) : eff World t :=
  let next_state := state s in
  let ids := SsTable.id <$> sstables in
  let tables := erase_tables (LsmStorageState.sstables next_state) (l0_sstables ++ l1_sstables) in
  let tables := add_tables tables sstables in
  let levels :=
    match LsmStorageState.levels next_state with
    | lv :: rest => (lv.1, ids) :: rest
    | [] => [(1, ids)]
    end in
  let new_l0 := filter (λ x, x ∉ l0_sstables) (LsmStorageState.l0_sstables next_state) in
  let next_state := LsmStorageState.set_l0_sstables
    (LsmStorageState.set_levels (LsmStorageState.set_sstables next_state tables) levels) new_l0 in
  s ← add_manifest_record (set_state s next_state)
        (ManifestRecord.Compaction (CompactionTask.ForceFull (ForceFullCompactionTask.mk l0_sstables l1_sstables)) ids);
  remove_files (path_of_sst_val s <$> (l0_sstables ++ l1_sstables));;
  mret s.

Definition force_full_compaction (s : t) : eff World t :=
  match LsmStorageOptions.compaction_options (options s) with
  | CompactionOptions.NoCompaction =>
      let l0_sstables := LsmStorageState.l0_sstables (state s) in
      let l1_sstables := default [] (snd <$> head (LsmStorageState.levels (state s))) in
      let task := CompactionTask.ForceFull (ForceFullCompactionTask.mk l0_sstables l1_sstables) in
      '(s, sstables) ← compact s task;
      install_full s l0_sstables l1_sstables sstables
  | _ => lift (Err (Exn "full compaction can only be called when compaction is not enabled"))
  end.

(** The second part of [trigger_compaction], under [state_lock]. *)
Definition install_compaction (s : t) (task : CompactionTask.t) (sstables : list SsTable.t) : eff World t :=
  let output := SsTable.id <$> sstables in
  let next_state := LsmStorageState.set_sstables (state s)
    (add_tables (LsmStorageState.sstables (state s)) sstables) in
  '(next_state, files_to_remove) ←
    lift (CompactionController.apply_compaction_result (compaction_controller s) next_state task output false);
  let '(tables, ssts_to_remove) := take_tables (LsmStorageState.sstables next_state) files_to_remove in
  let next_state := LsmStorageState.set_sstables next_state tables in
  s ← add_manifest_record (set_state s next_state) (ManifestRecord.Compaction task output);
  remove_files ((λ sst, path_of_sst_val s (SsTable.id sst)) <$> ssts_to_remove);;
  mret s.

Definition trigger_compaction (s : t) : eff World (t * bool) :=
  task_opt ← lift (CompactionController.generate_compaction_task (compaction_controller s) (state s));
  match task_opt with
  | None => mret (s, false)
  | Some task =>
      '(s, sstables) ← compact s task;
      s ← install_compaction s task sstables;
      mret (s, true)
  end.

Definition trigger_flush (s : t) : eff World (t * bool) :=
  if decide (LsmStorageOptions.num_memtable_limit (options s) ≤ length (LsmStorageState.imm_memtables (state s)))
  then s ← force_flush_next_imm_memtable s; mret (s, true)
  else mret (s, false).

(** *** Opening a directory *)

(** [std::set<size_t>], in iteration order. *)
Fixpoint set_insert (id : nat) (l : list nat) : list nat :=
  match l with
  | [] => [id]
  | x :: l' => if decide (id < x) then id :: l else if decide (id = x) then l else x :: set_insert id l'
  end.
Definition set_erase (id : nat) (l : list nat) : list nat := filter (λ x, x ≠ id) l.

(** What the replay of the manifest carries: the state, [next_id] and [memtables]. *)
Definition replay : Type := LsmStorageState.t * nat * list nat.

Definition replay_record (c : CompactionController.t) (r : replay) (rec : ManifestRecord.t) : res replay :=
  let '(st, next_id, memtables) := r in
  match rec with
  | ManifestRecord.Flush id =>
      let st := if CompactionController.flush_to_l0 c
                then LsmStorageState.set_l0_sstables st (id :: LsmStorageState.l0_sstables st)
                else LsmStorageState.set_levels st ((id, [id]) :: LsmStorageState.levels st) in
      mret (st, next_id `max` id, set_erase id memtables)
  | ManifestRecord.NewMemtable id => mret (st, next_id `max` id, set_insert id memtables)
  | ManifestRecord.Compaction task output =>
      '(st, _) ← CompactionController.apply_compaction_result c st task output true;
      mret (st, foldl Nat.max next_id output, memtables)
  end.

Fixpoint replay_records (c : CompactionController.t) (r : replay) (records : list ManifestRecord.t) : res replay :=
  match records with
  | [] => mret r
  | rec :: records => r ← replay_record c r rec; replay_records c r records
  end.

Fixpoint open_ssts (s : t) (ids : list nat) : eff World t :=
  match ids with
  | [] => mret s
  | sst_id :: ids =>
      file ← on_fs (FileObject.open (path_of_sst_val s sst_id));
      sst ← lift (SsTable.open sst_id true file);
      open_ssts (set_state s (LsmStorageState.set_sstables (state s)
        (<[sst_id := sst]> (LsmStorageState.sstables (state s))))) ids
  end.

(** The logs of the memtables that were not flushed. *)
Fixpoint recover_wals (s : t) (memtables : list nat) : eff World t :=
  match memtables with
  | [] => mret s
  | id :: memtables =>
      mem_res ← on_fs (MemTable.recover_from_wal id (path_of_wal_val s id));
      match mem_res with
      | inl mem =>
          if MemTable.is_empty mem then destroy_memtable mem;; recover_wals s memtables
          else recover_wals (set_state s (LsmStorageState.set_imm_memtables (state s)
                 (mem :: LsmStorageState.imm_memtables (state s)))) memtables
      | inr _ => recover_wals s memtables
      end
  end.

Definition manifest_path (p : string) : string := join_path p "MANIFEST".

(** [manifest->add_record_when_init(...)], its answer discarded. *)
Definition add_init_record (s : t) (r : ManifestRecord.t) : eff World t :=
  match manifest s with
  | Some m => '(m, _) ← on_fs (Manifest.add_record_when_init m r); mret (set_manifest s (Some m))
  | None => mret s
  end.

(** A directory without a manifest. *)
Definition open_fresh (s : t) : eff World t :=
  let memtable_id := MemTable.id_ (LsmStorageState.memtable (state s)) in
  s ← (if LsmStorageOptions.enable_wal (options s) then
         mem_res ← on_fs (MemTable.create_with_wal memtable_id (path_of_wal_val s memtable_id));
         mret (match mem_res with
               | inl mem => set_state s (LsmStorageState.set_memtable (state s) mem)
               | inr _ => s
               end)
       else mret s);
  m_res ← on_fs (Manifest.create (manifest_path (path s)));
  match m_res with
  | inl m =>
      add_init_record (set_manifest s (Some m))
        (ManifestRecord.NewMemtable (MemTable.id_ (LsmStorageState.memtable (state s))))
  | inr _ => mret s
  end.

(** A directory with a manifest that was read. *)
Definition open_recovered (s : t) (m : Manifest.t) (records : list ManifestRecord.t) : eff World t :=
  let s := set_manifest s (Some m) in
  '(st, next_id, memtables) ← lift (replay_records (compaction_controller s) (state s, 1, []) records);
  s ← open_ssts (set_state s st) (LsmStorageState.l0_sstables st ++ concat (snd <$> LsmStorageState.levels st));
  let next_id := S next_id in
  s ← (if LsmStorageOptions.enable_wal (options s) then
         s ← recover_wals s memtables;
         mem_res ← on_fs (MemTable.create_with_wal next_id (path_of_wal_val s next_id));
         mret (set_state s (LsmStorageState.set_memtable (state s)
                 (match mem_res with inl mem => mem | inr _ => MemTable.create next_id end)))
       else mret (set_state s (LsmStorageState.set_memtable (state s) (MemTable.create next_id))));
  add_init_record (set_next_sst_id s (S next_id))
    (ManifestRecord.NewMemtable (MemTable.id_ (LsmStorageState.memtable (state s)))).

Definition exists_ (p : string) : eff World bool := on_fs (λ fs, Ok (fs, bool_decide (is_Some (fs !! p)))).

Definition open (p : string) (opts : LsmStorageOptions.t) : eff World t :=
  let inner := create opts p in
  found ← exists_ (manifest_path p);
  if negb found then open_fresh inner
  else
    rec_res ← on_fs (Manifest.recover (manifest_path p));
    match rec_res with
    | inl (m, records) => open_recovered inner m records
    | inr _ => mret inner
    end.
End code.
End LsmStorageInner.

(** The public object, with the threads stopped. *)
Module MiniLsm.
Import LsmStorageInner.

Section code.
Context `{!Zlib} `{!Snappy} `{!Farmhash} `{!Libm} `{!Json} `{!LoopFuel}.

(** The calls that go to [inner]. *)
Definition open (path : string) (options : LsmStorageOptions.t) : eff World t := LsmStorageInner.open path options.
Definition sync (s : t) : eff World t := LsmStorageInner.sync s.
Definition put (s : t) (key value : bytes) : eff World t := LsmStorageInner.put s key value.
Definition del (s : t) (key : bytes) : eff World t := LsmStorageInner.del s key.
Definition get (s : t) (key : bytes) : eff World bytes := LsmStorageInner.get s key.
Definition scan (s : t) (lower upper : Bound) : eff World ScanIterator := on_cache (LsmStorageInner.scan s lower upper).
Definition force_flush (s : t) : eff World t := force_flush_next_imm_memtable s.
Definition force_full_compaction (s : t) : eff World t := LsmStorageInner.force_full_compaction s.

(** One round of the last loop of [close]. *)
Definition close_step (s : t) : eff World (t + t) :=
  match LsmStorageState.imm_memtables (state s) with
  | [] => mret (inr s)
  | _ => s ← force_flush_next_imm_memtable s; mret (inl s)
  end.

(** [close], after the two joins. *)
Definition close (s : t) : eff World t :=
  if LsmStorageOptions.enable_wal (options s) then LsmStorageInner.sync s
  else
    s ← (if negb (MemTable.is_empty (LsmStorageState.memtable (state s))) then force_freeze_memtable s else mret s);
    loop (S (length (LsmStorageState.imm_memtables (state s)))) close_step s.

(** The destructor closes the engine and then releases the state: the destructors
    of the memtables flush and close their logs. *)
Fixpoint destroy_memtables (memtables : list MemTable.t) : eff World unit :=
  match memtables with
  | [] => mret tt
  | m :: memtables => destroy_memtable m;; destroy_memtables memtables
  end.
Definition destroy (s : t) : eff World unit :=
  s ← close s;
  destroy_memtables (LsmStorageState.memtable (state s) :: LsmStorageState.imm_memtables (state s)).
End code.
End MiniLsm.
