(* ===== verification/LsmSpec.v ===== *)
(** * What the storage engine stores

    The abstraction of the engine and its invariant.  A state stands for one
    finite map: the memtables shadow the immutable ones, which shadow level 0,
    which shadows the levels.  What each table holds is recorded on the side, in
    a map [g] from table ids to the entries of their blocks; it only grows, as
    ids are never used twice. *)
From stdpp Require Import pretty.
From S2P Require Import Prelude Endian Key Iterators Block BlockCache Double Bloom Table TableIterator Wal MemTable State Layers SimpleLeveled Tiered Leveled Compact Manifest LsmStorage.

(** ** Running an operation from a world *)
Definition runs {A} (m : eff World A) (w : World) (Q : World → A → Prop) : Prop :=
  ∃ w' a, m w = Ok (w', a) ∧ Q w' a.

Lemma runs_ret {A} (a : A) w (Q : World → A → Prop) : Q w a → runs (mret a) w Q.
Proof. by exists w, a. Qed.

Lemma runs_bind {A B} (m : eff World A) (f : A → eff World B) w (P : World → A → Prop) (Q : World → B → Prop) :
  runs m w P → (∀ w' a, P w' a → runs (f a) w' Q) → runs (m ≫= f) w Q.
Proof.
  intros (w' & a & Hm & Ha) Hf. destruct (Hf w' a Ha) as (w'' & b & Hb & ?).
  exists w'', b. split; [|done]. unfold mbind, eff_bind. by rewrite Hm.
Qed.

Lemma runs_mono {A} (m : eff World A) w (P Q : World → A → Prop) :
  runs m w P → (∀ w' a, P w' a → Q w' a) → runs m w Q.
Proof. intros (w' & a & ? & ?) ?. exists w', a. auto. Qed.

Lemma runs_lift {A} (m : res A) w (P : A → Prop) : returns m P → runs (lift m) w (λ w' a, w' = w ∧ P a).
Proof. intros (a & -> & ?). by exists w, a. Qed.

(** A read through the cache changes nothing but the cache. *)
Definition same_files (c : gmap (nat * nat) Block.t) (w w' : World) : Prop :=
  files w' = files w ∧ BlockCacheSpec.cache_ok c (cache w').

Lemma runs_on_cache {A} c (m : eff BlockCache.t A) w (Q : A → Prop) :
  wp (BlockCacheSpec.cache_ok c) m Q → BlockCacheSpec.cache_ok c (cache w) →
  runs (on_cache m) w (λ w' a, same_files c w w' ∧ Q a).
Proof.
  intros Hm Hc. destruct (Hm _ Hc) as (c' & a & E & ? & ?).
  exists (MkWorld (files w) c'), a. unfold on_cache. rewrite E. done.
Qed.

(** The same call with another way to return. *)
Lemma runs_bind_inv {A B C} (m : eff World A) (f : A → eff World B) (f' : A → eff World C) w (Q : World → B → Prop) (Q' : World → C → Prop) :
  (∀ a w, runs (f a) w Q → runs (f' a) w Q') → runs (m ≫= f) w Q → runs (m ≫= f') w Q'.
Proof.
  intros Hf (w' & b & (w1 & a & E1 & E2)%eff_bind_Ok & Hb). destruct (Hf a w1) as (w2 & c & E3 & Hc); [by exists w', b|].
  exists w2, c. split; [|done]. by rewrite (eff_bind_run _ _ _ _ _ E1).
Qed.

Lemma runs_ret_inv {A} (a : A) w (Q : World → A → Prop) : runs (mret a) w Q → Q w a.
Proof. by intros (w' & b & [= <- <-] & ?). Qed.

Lemma runs_eta {A B} (m : eff World A) (f : A → eff World B) w (Q : World → B → Prop) :
  runs (m ≫= λ a, f a ≫= mret) w Q → runs (m ≫= f) w Q.
Proof.
  intros (w' & b & E & Hb). exists w', b. split; [|done]. unfold mbind, eff_bind in *. destruct (m w) as [[w1 a]|]; [|done].
  by destruct (f a w1) as [[]|].
Qed.
Lemma runs_return {A} (f : World → A) w : runs (λ w, Ok (w, f w)) w (λ w' a, w' = w ∧ a = f w).
Proof. by eexists _, _. Qed.
Lemma on_cache_Ok {A} (m : eff BlockCache.t A) w w' a : on_cache m w = Ok (w', a) → ∃ c, m (cache w) = Ok (c, a) ∧ w' = MkWorld (files w) c.
Proof. unfold on_cache. destruct (m (cache w)) as [[c x]|]; [|done]. intros [= <- <-]. by exists c. Qed.

(** A file operation leaves the cache alone. *)
Lemma runs_on_fs {A} (m : eff Fs.t A) w fs a :
  m (files w) = Ok (fs, a) → runs (on_fs m) w (λ w' a', w' = MkWorld fs (cache w) ∧ a' = a).
Proof. intros E. exists (MkWorld fs (cache w)), a. unfold on_fs. by rewrite E. Qed.

(** ** File names *)
Module Names.
Import LsmStorageInner.

(** The number at the start of a name, and what follows it. *)
Definition digit (c : Ascii.ascii) : option nat :=
  let n := Ascii.nat_of_ascii c in if decide (48 ≤ n < 58) then Some (n - 48) else None.
Fixpoint scan_name (acc : nat) (s : string) : nat * string :=
  match s with
  | EmptyString => (acc, s)
  | String c s' => match digit c with Some d => scan_name (10 * acc + d) s' | None => (acc, s) end
  end.

Lemma digit_pretty (x : N) : (x < 10)%N → digit (pretty_N_char x) = Some (N.to_nat x).
Proof.
  intros Hx. assert (x = 0 ∨ x = 1 ∨ x = 2 ∨ x = 3 ∨ x = 4 ∨ x = 5 ∨ x = 6 ∨ x = 7 ∨ x = 8 ∨ x = 9)%N as Hc by lia.
  by repeat destruct Hc as [->|Hc]; [..|subst].
Qed.

Lemma scan_pretty_go (x : N) s : scan_name 0 (pretty_N_go x s) = scan_name (N.to_nat x) s.
Proof.
  revert s. induction (N.lt_wf_0 x) as [x _ IH]; intros s. destruct (decide (0 < x)%N) as [Hx|Hx].
  - pose proof (N.div_lt x 10 Hx ltac:(lia)) as Hlt.
    rewrite pretty_N_go_step by done. rewrite IH by done. cbn [scan_name].
    rewrite digit_pretty by (apply N.mod_lt; lia). f_equal.
    pose proof (N.div_mod x 10 ltac:(lia)). lia.
  - replace x with 0%N by lia. done.
Qed.

Lemma scan_pretty (n : nat) s : scan_name 0 (pretty n +:+ s) = scan_name n s.
Proof.
  assert (∀ x s' s, pretty_N_go x s' +:+ s = pretty_N_go x (s' +:+ s)) as Happ.
  { intros x. induction (N.lt_wf_0 x) as [x _ IH]; intros s' s0. destruct (decide (0 < x)%N) as [Hx|Hx].
    - rewrite !(pretty_N_go_step x) by done. by rewrite IH by (apply N.div_lt; lia).
    - by replace x with 0%N by lia. }
  unfold pretty, pretty_nat, pretty, pretty_N. case_decide as E; [by replace n with 0 by lia|].
  rewrite Happ, scan_pretty_go, Nat2N.id. done.
Qed.

Lemma scan_zeros k s : scan_name 0 (String.concat "" (replicate k "0"%string) +:+ s) = scan_name 0 s.
Proof.
  induction k as [|k IH]; [done|]. simpl. destruct (replicate k "0"%string) eqn:E; simpl in *; [by destruct k|].
  exact IH.
Qed.

Lemma append_assoc (s1 s2 s3 : string) : (s1 +:+ s2) +:+ s3 = s1 +:+ (s2 +:+ s3).
Proof. induction s1 as [|c s1 IH]; [done|]. exact (f_equal (String c) IH). Qed.

(** The name of a file determines the id and the suffix. *)
Lemma scan_file id s : scan_name 0 (pad5 (pretty id) +:+ s) = scan_name id s.
Proof. unfold pad5. by rewrite append_assoc, scan_zeros, scan_pretty. Qed.

Lemma join_path_inj p name1 name2 : join_path p name1 = join_path p name2 → name1 = name2.
Proof. unfold join_path. repeat case_decide; [done|by intros ?%(inj _)|by intros ?%(inj _)%(inj _)]. Qed.

Lemma path_of_sst_inj s id1 id2 : path_of_sst_val s id1 = path_of_sst_val s id2 → id1 = id2.
Proof.
  intros E%join_path_inj%(f_equal (scan_name 0)). rewrite !scan_file in E. by injection E.
Qed.

Lemma path_sst_wal s id1 id2 : path_of_sst_val s id1 ≠ path_of_wal_val s id2.
Proof.
  intros E%join_path_inj%(f_equal (scan_name 0)). rewrite !scan_file in E. by injection E.
Qed.
Lemma path_wal_inj s id1 id2 : path_of_wal_val s id1 = path_of_wal_val s id2 → id1 = id2.
Proof.
  intros E%join_path_inj%(f_equal (scan_name 0)). rewrite !scan_file in E. by injection E.
Qed.
Lemma path_sst_manifest s id : path_of_sst_val s id ≠ manifest_path (path s).
Proof.
  intros E%join_path_inj%(f_equal (scan_name 0)). rewrite scan_file in E. by injection E.
Qed.
Lemma path_wal_manifest s id : path_of_wal_val s id ≠ manifest_path (path s).
Proof.
  intros E%join_path_inj%(f_equal (scan_name 0)). rewrite scan_file in E. by injection E.
Qed.
End Names.

(** ** What the tables hold *)
Abbreviation ghost := (gmap nat (list (list kv))).

Definition entries_of (g : ghost) (id : nat) : list kv := mjoin (default [] (g !! id)).
Definition content (g : ghost) (id : nat) : gmap bytes bytes := kv_map (entries_of g id).
(** The entries of a level, in key order when the level is a run. *)
Definition level_entries (g : ghost) (ids : list nat) : list kv := mjoin (entries_of g <$> ids).
(** The blocks the cache may hold. *)
Definition blocks (g : ghost) : gmap (nat * nat) Block.t :=
  map_uncurry ((λ kvss, map_seq 0 (block_of <$> kvss) : gmap nat Block.t) <$> g).

Lemma lookup_blocks g id i kvss kvs : g !! id = Some kvss → kvss !! i = Some kvs →
  blocks g !! (id, i) = Some (block_of kvs).
Proof.
  intros Hg Hi. unfold blocks. rewrite lookup_map_uncurry, lookup_fmap, Hg. simpl.
  rewrite lookup_map_seq_0, list_lookup_fmap, Hi. done.
Qed.

Lemma blocks_insert g id kvss : g !! id = None → blocks g ⊆ blocks (<[id := kvss]> g).
Proof.
  intros Hg. apply map_subseteq_spec. intros [id' i] b. unfold blocks. rewrite !lookup_map_uncurry, !lookup_fmap.
  destruct (decide (id' = id)) as [->|Hne]; [by rewrite Hg|]. by rewrite lookup_insert_ne.
Qed.

Lemma entries_of_insert_ne g id id' kvss : id ≠ id' → entries_of (<[id := kvss]> g) id' = entries_of g id'.
Proof. intros Hne. unfold entries_of. by rewrite lookup_insert_ne. Qed.
Lemma entries_of_insert g id kvss : entries_of (<[id := kvss]> g) id = mjoin kvss.
Proof. unfold entries_of. by rewrite lookup_insert_eq. Qed.

(** Growing [g] does not change what the known tables hold. *)
Lemma entries_of_mono g g' id : g ⊆ g' → is_Some (g !! id) → entries_of g' id = entries_of g id.
Proof. intros Hsub [kvss Hg]. unfold entries_of. by rewrite (lookup_weaken _ _ _ _ Hg Hsub), Hg. Qed.

Lemma stored_ext c1 c2 ids : (∀ id, id ∈ ids → c1 id = c2 id) → stored c1 ids = stored c2 ids.
Proof.
  induction ids as [|id ids IH]; intros He; [done|].
  change (c1 id ∪ stored c1 ids = c2 id ∪ stored c2 ids). rewrite He, IH; set_solver.
Qed.

Lemma stored_mono g g' ids : g ⊆ g' → (∀ id, id ∈ ids → is_Some (g !! id)) →
  stored (content g') ids = stored (content g) ids.
Proof. intros Hsub Hids. apply stored_ext. intros id Hid. unfold content. rewrite (entries_of_mono g g'); auto. Qed.

Lemma level_entries_cons g id ids : level_entries g (id :: ids) = entries_of g id ++ level_entries g ids.
Proof. done. Qed.
Lemma level_entries_mono g g' ids : g ⊆ g' → (∀ id, id ∈ ids → is_Some (g !! id)) →
  level_entries g' ids = level_entries g ids.
Proof.
  intros Hsub. induction ids as [|id ids IH]; intros Hids; [done|].
  rewrite !level_entries_cons, IH, (entries_of_mono g g'); set_solver.
Qed.

Lemma stored_level g ids : stored (content g) ids = kv_map (level_entries g ids).
Proof.
  induction ids as [|id ids IH]; [done|]. rewrite level_entries_cons, kv_map_app, <-IH. done.
Qed.

(** ** The map a state stands for *)
Definition memtables (st : LsmStorageState.t) : list MemTable.t :=
  LsmStorageState.memtable st :: LsmStorageState.imm_memtables st.
Definition mem_ids (st : LsmStorageState.t) : list nat := MemTable.id_ <$> memtables st.

(** With its tombstones, and without. *)
Definition contents (g : ghost) (st : LsmStorageState.t) : gmap bytes bytes :=
  merged (MemTable.map_ <$> memtables st) ∪ stored (content g) (ids_of st).
Definition shown (g : ghost) (st : LsmStorageState.t) : gmap bytes bytes := visible (contents g st).

Lemma ids_of_level st lv id : lv ∈ LsmStorageState.levels st → id ∈ lv.2 → id ∈ ids_of st.
Proof.
  intros Hlv Hid. apply elem_of_app. right. apply list_elem_of_join. exists lv.2. split; [done|].
  by apply list_elem_of_fmap_2.
Qed.

(** ** The invariant *)
Section engine.
Context `{!Zlib} `{!Snappy} `{!Farmhash}.

(** A memtable: it has a log if logging is on, its entries fit the formats, and
    the log is the file of its id and replays to its entries. *)
Record mem_at (w : World) (enable_wal : bool) (path_of_wal : nat → string) (m : MemTable.t) : Prop := {
  mem_log : enable_wal = true → MemTable.wal_ m ≠ None;
  mem_sorted : ksorted (MemTable.map_ m);
  mem_entries : Forall kv_ok (MemTable.map_ m);
  mem_wal l : MemTable.wal_ m = Some l →
    Wal.path_ l = path_of_wal (MemTable.id_ m) ∧
    ∃ rs, WalSpec.logged l (files w) rs ∧ MemTableSpec.replay rs = kv_map (MemTable.map_ m) }.
Definition mem_ok w (s : LsmStorageInner.t) : MemTable.t → Prop := mem_at w (LsmStorageOptions.enable_wal (LsmStorageInner.options s)) (LsmStorageInner.path_of_wal_val s).

(** An id of the tree: its table is open, holds what [g] says, and is what
    opening its file gives. *)
Record table_at (g : ghost) (w : World) (path_of_sst : nat → string) (tables : gmap nat SsTable.t) (id : nat)
    (t : SsTable.t) (kvss : list (list kv)) (data : bytes) : Prop := {
  ta_open : tables !! id = Some t;
  ta_ghost : g !! id = Some kvss;
  ta_holds : holds t kvss;
  ta_id : SsTable.id t = id;
  ta_cache : SsTable.block_cache t = true;
  ta_file : files w !! path_of_sst id = Some data;
  ta_size : (Z.of_nat (length data) < 4294967296)%Z;
  ta_reopen : SsTable.open id true (TableBuilderSpec.file_of data) = Ok t }.
Definition table_ok g w (s : LsmStorageInner.t) id : Prop := ∃ t kvss data,
  table_at g w (LsmStorageInner.path_of_sst_val s) (LsmStorageState.sstables (LsmStorageInner.state s)) id t kvss data.

Record engine_ok (g : ghost) (w : World) (s : LsmStorageInner.t) : Prop := {
  eo_block_size : LsmStorageOptions.block_size (LsmStorageInner.options s) ≤ Z.to_nat 65536;
  eo_cache : BlockCacheSpec.cache_ok (blocks g) (cache w);
  eo_manifest m : LsmStorageInner.manifest s = Some m → Manifest.path_ m = LsmStorageInner.manifest_path (LsmStorageInner.path s);
  eo_mems : Forall (mem_ok w s) (memtables (LsmStorageInner.state s));
  eo_imms : Forall (λ m, MemTable.map_ m ≠ []) (LsmStorageState.imm_memtables (LsmStorageInner.state s));
  eo_tables id : id ∈ ids_of (LsmStorageInner.state s) → table_ok g w s id;
  eo_levels : Forall (λ lv, ksorted (level_entries g lv.2)) (LsmStorageState.levels (LsmStorageInner.state s));
  eo_tiers : CompactionController.flush_to_l0 (LsmStorageInner.compaction_controller s) = false →
    LsmStorageState.l0_sstables (LsmStorageInner.state s) = [];
  eo_nodup : NoDup (mem_ids (LsmStorageInner.state s) ++ ids_of (LsmStorageInner.state s));
  eo_fresh id : id ∈ mem_ids (LsmStorageInner.state s) ∨ is_Some (g !! id) → id < LsmStorageInner.next_sst_id s;
  eo_unused id : id ∈ mem_ids (LsmStorageInner.state s) → g !! id = None }.
End engine.

(** ** What reads rely on *)
Section readable.
Context `{!Zlib} `{!Snappy} `{!Farmhash}.
Implicit Types (g : ghost) (st : LsmStorageState.t) (id : nat).

(** The table of [id] is open, and the cache may hold its blocks. *)
Definition readable g st id (t : SsTable.t) : Prop :=
  LsmStorageState.sstables st !! id = Some t ∧ ∃ kvss, holds t kvss ∧ cached (blocks g) t kvss ∧ entries_of g id = mjoin kvss.

Lemma table_readable g w p st id t kvss data : table_at g w p (LsmStorageState.sstables st) id t kvss data → readable g st id t.
Proof.
  intros [Ht Hg Hh Hid _ _ _ _]. split; [done|]. exists kvss. split_and!; [done| |unfold entries_of; by rewrite Hg].
  intros _ i kvs Hi. rewrite Hid. by eapply lookup_blocks.
Qed.

Lemma readable_sorted g st id t : readable g st id t → ksorted (entries_of g id).
Proof. intros (_ & kvss & Hh & _ & ->). by eapply holds_sorted. Qed.

(** What [engine_ok] says to a reader. *)
Record read_ok g st : Prop := {
  ro_mems : Forall (λ m, ksorted (MemTable.map_ m)) (memtables st);
  ro_tables id : id ∈ ids_of st → ∃ t, readable g st id t;
  ro_levels : Forall (λ lv, ksorted (level_entries g lv.2)) (LsmStorageState.levels st) }.

Lemma engine_read_ok g w s : engine_ok g w s → read_ok g (LsmStorageInner.state s).
Proof.
  intros []. split; [|intros id (t & kvss & data & Hta)%eo_tables0; exists t; by eapply table_readable|done].
  eapply Forall_impl; [done|]. by intros m [].
Qed.
End readable.

(** ** The invariant and the files *)
Section frame.
Context `{!Zlib} `{!Snappy} `{!Farmhash}.
Implicit Types (g : ghost) (w : World) (s : LsmStorageInner.t).

(** The invariant looks at the table files of its ids and the logs of its
    memtables. *)
Definition agree s w w' : Prop :=
  (∀ id, id ∈ ids_of (LsmStorageInner.state s) → files w' !! LsmStorageInner.path_of_sst_val s id = files w !! LsmStorageInner.path_of_sst_val s id) ∧
  (∀ id, id ∈ mem_ids (LsmStorageInner.state s) → files w' !! LsmStorageInner.path_of_wal_val s id = files w !! LsmStorageInner.path_of_wal_val s id).

Lemma mem_at_agree w w' b p m : mem_at w b p m → files w' !! p (MemTable.id_ m) = files w !! p (MemTable.id_ m) → mem_at w' b p m.
Proof.
  intros [Hon Hs He Hw] Hf. split; [done..|]. intros l Hl. destruct (Hw l Hl) as (Hp & rs & (buf & file & ?) & Hrs).
  split; [done|]. exists rs. split; [|done]. exists buf, file. by rewrite Hp, Hf, <-Hp.
Qed.
Lemma mem_ok_agree w w' s m : mem_ok w s m →
  files w' !! LsmStorageInner.path_of_wal_val s (MemTable.id_ m) = files w !! LsmStorageInner.path_of_wal_val s (MemTable.id_ m) →
  mem_ok w' s m.
Proof. apply mem_at_agree. Qed.

Lemma table_ok_agree g w w' s id : table_ok g w s id →
  files w' !! LsmStorageInner.path_of_sst_val s id = files w !! LsmStorageInner.path_of_sst_val s id →
  table_ok g w' s id.
Proof. intros (t & kvss & data & []) Hf. exists t, kvss, data. split; [done..| |done|done]. by rewrite Hf. Qed.

Lemma engine_agree g w w' s : engine_ok g w s → agree s w w' → BlockCacheSpec.cache_ok (blocks g) (cache w') →
  engine_ok g w' s.
Proof.
  intros [] [Ht Hm] Hc. split; try done.
  - apply Forall_forall. intros m Hin. eapply mem_ok_agree; [by eapply Forall_forall in eo_mems0|].
    apply Hm. by apply list_elem_of_fmap_2.
  - intros id Hid. eapply table_ok_agree; auto.
Qed.

Lemma engine_same_files g w w' s : engine_ok g w s → same_files (blocks g) w w' → engine_ok g w' s.
Proof. intros Hok [Hf Hc]. apply (engine_agree _ w); [done| |done]. by split; intros; rewrite Hf. Qed.
End frame.

(** ** Writes and tombstones *)
Lemma visible_insert m k v : visible (<[k := v]> m) = if decide (v = []) then delete k (visible m) else <[k := v]> (visible m).
Proof.
  apply map_eq. intros k'. apply option_eq. intros v'. rewrite lookup_visible. case_decide as Hv.
  - rewrite lookup_delete_Some, lookup_visible, lookup_insert_Some. naive_solver.
  - rewrite !lookup_insert_Some, lookup_visible. naive_solver.
Qed.
