(* ===== verification/LsmRead.v ===== *)
(** * Reads: LsmStorageInner::get and LsmStorageInner::scan

    Both walk the same structure: the memtables, the tables of level 0 newest
    first, and one concatenation per level.  The lemmas say what the iterators
    they build denote; the theorems, that the answer is that of the one map the
    state stands for. *)
From S2P Require Import Prelude Endian Key Iterators Block BlockCache Double Bloom Table TableIterator Wal MemTable State Layers SimpleLeveled Tiered Leveled Compact Manifest LsmStorage LsmSpec.

(** ** Lookups in filtered lists *)
Section lists.
Implicit Types (l : list kv) (k key : bytes) (ls : list (list kv)).

Lemma lookup_kv_filter (P : bytes → Prop) `{∀ k, Decision (P k)} l k :
  kv_map (filter (λ e, P e.1) l) !! k = if decide (P k) then kv_map l !! k else None.
Proof.
  induction l as [|[k' v] l IH]; [by case_decide|]. rewrite filter_cons. simpl.
  destruct (decide (P k')) as [Hk'|Hk'].
  - rewrite !kv_map_cons. destruct (decide (k' = k)) as [->|Hne].
    + by rewrite !lookup_insert_eq, decide_True.
    + by rewrite !lookup_insert_ne, IH by done.
  - rewrite IH, kv_map_cons. case_decide; [|done]. by rewrite lookup_insert_ne by congruence.
Qed.

(** The entries are all at or behind [key]. *)
Definition from (key : bytes) l : Prop := Forall (λ e : kv, key_le key e.1) l.

Lemma from_filter key l : from key (filter (λ e, key_le key e.1) l).
Proof. apply Forall_forall. by intros e [? _]%list_elem_of_filter. Qed.

Lemma from_elem key l k : from key l → k ∈ l.*1 → key_le key k.
Proof. intros Hl (e & -> & He)%list_elem_of_fmap_1. exact (proj1 (Forall_forall _ _) Hl e He). Qed.

Lemma from_entries key (m : gmap bytes bytes) : (∀ k, is_Some (m !! k) → key_le key k) → from key (entries m).
Proof.
  intros Hm. apply Forall_forall. intros e He. apply Hm. rewrite <-(kv_map_entries m), kv_map_is_Some.
  by apply list_elem_of_fmap_2.
Qed.

Lemma from_merged key ls k : Forall (from key) ls → is_Some (merged ls !! k) → key_le key k.
Proof.
  intros Hls (l & Hl & Hk)%merged_is_Some. eapply from_elem; [|exact Hk].
  by apply (proj1 (Forall_forall _ _) Hls).
Qed.

(** The first entry decides whether [key] is there. *)
Lemma lookup_from key l : ksorted l → from key l →
  kv_map l !! key = match l with (k, v) :: _ => if decide (k = key) then Some v else None | [] => None end.
Proof.
  intros Hs Hl. destruct l as [|[k v] l]; [done|]. rewrite kv_map_cons. case_decide as E.
  - subst. by rewrite lookup_insert_eq.
  - rewrite lookup_insert_ne by done. apply kv_map_None. intros Hin%(ksorted_head_lt _ _ _ _ Hs).
    apply Forall_cons in Hl as [Hk _]. simpl in Hk. key_order.
Qed.

(** The keys of a sorted list are between its first and its last one. *)
Lemma key_first_last l k : ksorted l → k ∈ l.*1 → key_le (first_of l) k ∧ key_le k (last_of l).
Proof.
  intros Hs Hk. split.
  - destruct l as [|[k' v] l]; [by apply not_elem_of_nil in Hk|]. simpl in *.
    apply elem_of_cons in Hk as [->|Hk]; [key_order|]. pose proof (ksorted_head_lt _ _ _ _ Hs Hk). key_order.
  - unfold last_of. destruct (last l) as [[k' v]|] eqn:E.
    + apply last_Some in E as [l' ->]. apply ksorted_snoc in Hs as [_ Hs].
      rewrite fmap_app, elem_of_app in Hk. destruct Hk as [Hk%Hs|Hk]; simpl; [key_order|].
      apply list_elem_of_singleton in Hk as ->. simpl. key_order.
    + apply last_None in E as ->. by apply not_elem_of_nil in Hk.
Qed.
End lists.

(** ** Point reads *)
Section get.
Context `{!Zlib} `{!Snappy} `{!Farmhash} (g : ghost) (st : LsmStorageState.t) (key : bytes).
#[local] Abbreviation Inv := (BlockCacheSpec.cache_ok (blocks g)).
#[local] Abbreviation denotes := (denotes (Inv:=Inv)).
Import LsmStorageInner.
Implicit Types (ids : list nat) (t : SsTable.t) (l : list kv).

Lemma get_memtables_spec (ms : list MemTable.t) : get_memtables ms key = merged (MemTable.map_ <$> ms) !! key.
Proof.
  induction ms as [|m ms IH]; [done|]. rewrite fmap_cons, merged_cons, lookup_union. simpl.
  unfold MemTable.get. rewrite StdMap.find_lookup, IH. by destruct (kv_map _ !! key), (merged _ !! key).
Qed.

(** A table that is skipped does not have the key. *)
Lemma keep_table_spec id t : readable g st id t →
  returns (keep_table key t) (λ keep : bool, keep = false → content g id !! key = None).
Proof.
  intros (_ & kvss & Hh & _ & He). unfold content. rewrite He. unfold keep_table.
  rewrite (holds_first _ _ Hh), (holds_last _ _ Hh), geb_spec, leb_spec.
  pose proof (holds_sorted _ _ Hh) as Hs. pose proof (SstConcatIteratorSpec.holds_mjoin_nonempty _ _ Hh) as Hne.
  destruct (bool_decide (key_le (first_of (mjoin kvss)) key)) eqn:E1; cycle 1.
  { apply bool_decide_eq_false in E1. apply returns_ret. intros _.
    destruct (mjoin kvss) as [|[k v] l]; [done|]. apply kv_map_below; [done|]. simpl in E1. key_order. }
  destruct (bool_decide (key_le key (last_of (mjoin kvss)))) eqn:E2; simpl; cycle 1.
  { apply bool_decide_eq_false in E2. apply returns_ret. intros _. apply kv_map_None. intros Hin. apply E2.
    by apply (key_first_last _ _ Hs). }
  pose proof (holds_bloom _ _ Hh) as Hb. destruct (SsTable.bloom t) as [b|]; simpl in Hb; [|by apply returns_ret].
  destruct (BloomSpec.may_contain_total b (farmhash_fingerprint32 key)) as [r Hr]. exists r. split; [done|].
  intros ->. apply kv_map_None. intros (e & -> & He')%list_elem_of_fmap_1.
  assert (Bloom.may_contain b (farmhash_fingerprint32 e.1) = Ok true); [|congruence].
  apply Hb. by apply (list_elem_of_fmap_2 (λ e : kv, farmhash_fingerprint32 e.1)).
Qed.

(** What a list of iterators has to say about [key]: what [m] has at it. *)
Definition shows {I} `{!StorageIterator BlockCache.t I} `{!IteratorSpec BlockCache.t I Inv} (its : list I)
    (m : gmap bytes bytes) : Prop := ∃ ls,
  Forall2 denotes its ls ∧ Forall (from key) ls ∧ merged ls !! key = m !! key.

Lemma shows_cons {I} `{!StorageIterator BlockCache.t I} `{!IteratorSpec BlockCache.t I Inv} (it : I) its (l l' : list kv) m :
  denotes it l → from key l → kv_map l !! key = kv_map l' !! key → shows its m → shows (it :: its) (kv_map l' ∪ m).
Proof.
  intros Hit Hl E (ls & Hf & Hls & Em). exists (l :: ls). split_and!; [by constructor..|].
  by rewrite merged_cons, !lookup_union, E, Em.
Qed.

Lemma shows_skip {I} `{!StorageIterator BlockCache.t I} `{!IteratorSpec BlockCache.t I Inv} (its : list I) m' m :
  m' !! key = None → shows its m → shows its (m' ∪ m).
Proof.
  intros E (ls & Hf & Hls & Em). exists ls. split_and!; [done..|]. by rewrite lookup_union, E, Em, (left_id_L None _).
Qed.

Lemma lookup_behind (l : list kv) : kv_map (filter (λ e, key_le key e.1) l) !! key = kv_map l !! key.
Proof. rewrite (lookup_kv_filter (key_le key)), decide_True; [done|key_order]. Qed.

Lemma get_l0_iters_spec ids : (∀ id, id ∈ ids → ∃ t, readable g st id t) →
  wp Inv (get_l0_iters st key ids) (λ its, shows its (stored (content g) ids)).
Proof.
  induction ids as [|id ids IH]; intros Hids; simpl.
  { apply wp_ret. by exists []. }
  destruct (Hids id) as [t Ht]; [set_solver|]. specialize (IH ltac:(set_solver)).
  pose proof Ht as (-> & kvss & Hh & Hc & He).
  eapply wp_bind; [by apply wp_lift, (keep_table_spec id)|]. intros [] Hkeep.
  - eapply wp_bind; [by eapply SsTableIteratorSpec.sst_iterator_seek_to_key_spec|]. intros it Hit.
    eapply wp_bind; [exact IH|]. intros its Hits. apply wp_ret.
    change (stored (content g) (id :: ids)) with (kv_map (entries_of g id) ∪ stored (content g) ids). rewrite He.
    eapply shows_cons; [exact Hit|apply from_filter|apply lookup_behind|done].
  - eapply wp_mono; [exact IH|]. intros its Hits.
    by apply (shows_skip its (content g id)); [apply Hkeep|].
Qed.

(** The tables of a level that are kept are a run with the same entry at [key]. *)
Lemma get_level_ssts_spec ids : (∀ id, id ∈ ids → ∃ t, readable g st id t) → ksorted (level_entries g ids) →
  returns (get_level_ssts st key ids) (λ ssts, ∃ ls, SstConcatIteratorSpec.run (blocks g) ssts ls ∧
    (∀ e, e ∈ mjoin ls → e ∈ level_entries g ids) ∧ kv_map (mjoin ls) !! key = kv_map (level_entries g ids) !! key).
Proof.
  induction ids as [|id ids IH]; intros Hids Hs; simpl.
  { apply returns_ret. exists []. split_and!; [split; [done|apply ksorted_nil]|done..]. }
  destruct (Hids id) as [t Ht]; [set_solver|]. rewrite level_entries_cons in Hs |- *.
  pose proof Hs as (Hsid & Hsids & Hlt)%ksorted_app.
  specialize (IH ltac:(set_solver) Hsids). pose proof Ht as (-> & kvss & Hh & Hc & He).
  eapply returns_bind; [by apply (keep_table_spec id)|]. intros keep Hkeep.
  eapply returns_bind; [exact IH|]. intros ssts (ls & [Hrun Hls] & Hsub & El). apply returns_ret. destruct keep.
  - exists (entries_of g id :: ls). split_and!.
    + split; [constructor; [by exists kvss|done]|]. simpl. apply ksorted_app. split_and!; [done..|].
      intros k1 k2 Hk1 (e & -> & He2%Hsub)%list_elem_of_fmap_1. apply Hlt; [done|by apply list_elem_of_fmap_2].
    + simpl. intros e. rewrite !elem_of_app. intros [|?%Hsub]; tauto.
    + simpl. by rewrite !kv_map_app, !lookup_union, El.
  - exists ls. split_and!; [done| |].
    + intros e ?%Hsub. apply elem_of_app. by right.
    + unfold content in Hkeep. by rewrite kv_map_app, lookup_union, Hkeep, (left_id_L None _), El.
Qed.

Lemma get_level_iters_spec levels : (∀ id, id ∈ level_ids levels → ∃ t, readable g st id t) →
  Forall (λ lv, ksorted (level_entries g lv.2)) levels →
  wp Inv (get_level_iters st key levels) (λ its, shows its (stored (content g) (level_ids levels))).
Proof.
  induction levels as [|[x ids] levels IH]; intros Hids Hs; simpl.
  { apply wp_ret. by exists []. }
  apply Forall_cons in Hs as [Hs0 Hs]. simpl in Hs0. rewrite level_ids_cons in Hids |- *. simpl in Hids |- *.
  specialize (IH ltac:(set_solver) Hs).
  eapply wp_bind; [apply wp_lift, get_level_ssts_spec; [set_solver|done]|]. intros ssts (ls & Hrun & _ & El).
  eapply wp_bind; [by eapply SstConcatIteratorSpec.concat_iterator_seek_to_key_spec|]. intros it Hit.
  eapply wp_bind; [exact IH|]. intros its Hits. apply wp_ret.
  rewrite stored_app, stored_level. eapply shows_cons; [exact Hit|apply from_filter| |done].
  by rewrite lookup_behind, El.
Qed.

Lemma merge_shows {I} `{!StorageIterator BlockCache.t I} `{!IteratorSpec BlockCache.t I Inv} (its : list I) m :
  shows its m → wp Inv (MergeIterator.create its) (λ it, ∃ l, denotes it l ∧ from key l ∧ kv_map l !! key = m !! key).
Proof.
  intros (ls & Hf & Hls & E). eapply wp_mono; [by apply MergeIterator.merge_create_repr|].
  intros it Hit. exists (entries (merged ls)). split_and!; [exact Hit| |by rewrite kv_map_entries].
  apply from_entries. intros k. by apply from_merged.
Qed.

Lemma get_tables_spec : (∀ id, id ∈ ids_of st → ∃ t, readable g st id t) →
  Forall (λ lv, ksorted (level_entries g lv.2)) (LsmStorageState.levels st) →
  wp Inv (get_tables st key) (λ v, v = default [] (stored (content g) (ids_of st) !! key)).
Proof.
  intros Hids Hs. unfold ids_of in *. unfold get_tables. rewrite stored_app, lookup_union.
  eapply wp_bind; [apply get_l0_iters_spec; intros; apply Hids; set_solver|]. intros l0 Hl0.
  eapply wp_bind; [exact (merge_shows _ _ Hl0)|]. intros ml0 (la & Hla & Hfa & <-).
  eapply wp_bind; [apply get_level_iters_spec; [intros; apply Hids; set_solver|done]|]. intros lvs Hlvs.
  eapply wp_bind; [exact (merge_shows _ _ Hlvs)|]. intros mlv (lb & Hlb & Hfb & <-).
  eapply wp_bind; [by apply (TwoMergeIterator.two_merge_create_repr _ _ la lb)|]. intros it Hit.
  rewrite <-lookup_union. set (l := entries (kv_map la ∪ kv_map lb)) in *.
  assert (denotes it l) as Hd by exact Hit. assert (from key l) as Hl.
  { apply from_entries. intros k. rewrite lookup_union_is_Some, !kv_map_is_Some.
    intros [Hk|Hk]; [exact (from_elem _ _ _ Hfa Hk)|exact (from_elem _ _ _ Hfb Hk)]. }
  rewrite <-(kv_map_entries (kv_map la ∪ kv_map lb)). fold l.
  rewrite (lookup_from key l (denotes_sorted _ _ Hd) Hl).
  destruct l as [|[k v] l'].
  - rewrite (denotes_valid_nil _ Hd). by apply wp_ret.
  - rewrite (denotes_valid_cons _ _ _ Hd). eapply wp_bind_ok; [by eapply denotes_key|].
    rewrite eqb_spec. case_bool_decide as E; case_decide; try done; [|by apply wp_ret].
    eapply wp_bind_ok; [by eapply denotes_value|]. apply wp_ret. by destruct v.
Qed.
End get.

Lemma get_read_spec `{!Zlib} `{!Snappy} `{!Farmhash} g w s key : read_ok g (LsmStorageInner.state s) →
  BlockCacheSpec.cache_ok (blocks g) (cache w) →
  runs (LsmStorageInner.get s key) w (λ w' v, same_files (blocks g) w w' ∧
    v = default [] (shown g (LsmStorageInner.state s) !! key)).
Proof.
  intros [_ Ht Hl] Hc. unfold LsmStorageInner.get, shown. rewrite lookup_visible_default. unfold contents, memtables.
  rewrite get_memtables_spec, lookup_union.
  destruct (merged _ !! key) as [v|].
  - apply runs_ret. split; [by split|]. by destruct (stored _ _ !! key).
  - rewrite (left_id_L None _). eapply runs_on_cache; [by apply get_tables_spec|done].
Qed.

Lemma get_spec `{!Zlib} `{!Snappy} `{!Farmhash} g w s key : engine_ok g w s →
  runs (LsmStorageInner.get s key) w (λ w' v, same_files (blocks g) w w' ∧
    v = default [] (shown g (LsmStorageInner.state s) !! key)).
Proof. intros Hok. apply get_read_spec; [by eapply engine_read_ok|apply Hok]. Qed.

(** ** Range reads *)
Section scan.
Context `{!Zlib} `{!Snappy} `{!Farmhash} (g : ghost) (st : LsmStorageState.t) (lower upper : Bound).
#[local] Abbreviation Inv := (BlockCacheSpec.cache_ok (blocks g)).
#[local] Abbreviation denotes := (denotes (Inv:=Inv)).
Import LsmStorageInner.
Implicit Types (ids : list nat) (t : SsTable.t) (l : list kv).

(** A part of [m] from the lower bound on that has all of the range. *)
Definition covers (x m : gmap bytes bytes) : Prop :=
  (∀ k, is_Some (x !! k) → above lower k ∧ is_Some (m !! k)) ∧ (∀ k, in_range lower upper k → x !! k = m !! k).

Lemma covers_union x1 x2 m1 m2 : covers x1 m1 → covers x2 m2 → covers (x1 ∪ x2) (m1 ∪ m2).
Proof.
  intros [Hs1 He1] [Hs2 He2]. split; intros k Hk; [|by rewrite !lookup_union, He1, He2].
  rewrite lookup_union_is_Some in Hk |- *. naive_solver.
Qed.

Lemma covers_empty m : (∀ k, in_range lower upper k → m !! k = None) → covers ∅ m.
Proof. intros Hm. split; intros k; rewrite lookup_empty; [by intros []|]. intros ?. by rewrite Hm. Qed.

Lemma covers_above l : covers (kv_map (filter (λ e, above lower e.1) l)) (kv_map l).
Proof.
  split; intros k; rewrite (lookup_kv_filter (above lower)).
  - case_decide; [done|by intros []].
  - intros [Ha _]. by rewrite decide_True.
Qed.

Lemma range_overlap_spec l : ksorted l → l ≠ [] →
  range_overlap lower upper (first_of l) (last_of l) = false → ∀ k, in_range lower upper k → kv_map l !! k = None.
Proof.
  intros Hs Hne Hr k [Ha Hb]. apply kv_map_None. intros Hk. destruct (key_first_last _ _ Hs Hk) as [Hf Hl].
  unfold range_overlap in Hr. apply not_true_iff_false in Hr. apply Hr, andb_true_iff. split.
  - destruct lower as [|b|b]; simpl in *; [done|..]; rewrite ?gtb_spec, ?geb_spec; apply negb_true_iff, bool_decide_eq_false; intros ?; key_order.
  - destruct upper as [|b|b]; simpl in *; [done|..]; rewrite ?ltb_spec, ?leb_spec; apply negb_true_iff, bool_decide_eq_false; intros ?; key_order.
Qed.

(** Seeking to the lower bound, and past it if it is excluded. *)
Lemma skip_key_spec {I} `{!StorageIterator BlockCache.t I} `{!IteratorSpec BlockCache.t I Inv} (it : I) key l :
  ksorted l → denotes it (filter (λ e, key_le key e.1) l) →
  wp Inv (skip_key it key) (λ it', denotes it' (filter (λ e, key_lt key e.1) l)).
Proof.
  intros Hs Hd. unfold skip_key.
  assert (filter (λ e, key_lt key e.1) l = filter (λ e, key_lt key e.1) (filter (λ e, key_le key e.1) l)) as ->.
  { rewrite list_filter_filter. apply list_filter_iff. intros e. split; [|by intros []]. intros ?. split; [done|key_order]. }
  pose proof (denotes_sorted _ _ Hd) as Hs'. pose proof (from_filter key l) as Hf.
  destruct (filter (λ e, key_le key e.1) l) as [|[k v] l'].
  - rewrite (denotes_valid_nil _ Hd). by apply wp_ret.
  - rewrite (denotes_valid_cons _ _ _ Hd). eapply wp_bind_ok; [by eapply denotes_key|].
    rewrite eqb_spec. apply Forall_cons in Hf as [Hk _]. simpl in Hk.
    assert (filter (λ e, key_lt key e.1) l' = l') as El.
    { apply filter_all, Forall_forall. intros e He. pose proof (ksorted_head_lt _ _ _ e.1 Hs' ltac:(by apply list_elem_of_fmap_2)). key_order. }
    case_bool_decide as E.
    + rewrite filter_cons_False, El by (simpl; subst; key_order). by eapply denotes_next.
    + rewrite filter_cons_True, El by (simpl; key_order). by apply wp_ret.
Qed.

Lemma above_spec l : filter (λ e, above lower e.1) l =
  match lower with
  | Unbounded => l
  | Included k => filter (λ e, key_le k e.1) l
  | Excluded k => filter (λ e, key_lt k e.1) l
  end.
Proof. destruct lower; simpl; try by apply list_filter_iff. by apply filter_all, Forall_forall. Qed.

Lemma scan_table_spec t kvss : holds t kvss → cached (blocks g) t kvss →
  wp Inv (scan_table lower t) (λ it, denotes it (filter (λ e, above lower e.1) (mjoin kvss))).
Proof.
  intros Hh Hc. rewrite above_spec. unfold scan_table. destruct lower as [|key|key].
  - by apply SsTableIteratorSpec.sst_iterator_seek_to_first_spec.
  - by apply SsTableIteratorSpec.sst_iterator_seek_to_key_spec.
  - eapply wp_bind; [by eapply SsTableIteratorSpec.sst_iterator_seek_to_key_spec|]. intros it Hit.
    apply skip_key_spec; [by eapply holds_sorted|exact Hit].
Qed.

Lemma scan_level_spec ssts ls : SstConcatIteratorSpec.run (blocks g) ssts ls →
  wp Inv (scan_level lower ssts) (λ it, denotes it (filter (λ e, above lower e.1) (mjoin ls))).
Proof.
  intros Hrun. rewrite above_spec. unfold scan_level. destruct ssts as [|t ssts]; cycle 1.
  - destruct lower as [|key|key].
    + by apply SstConcatIteratorSpec.concat_iterator_seek_to_first_spec.
    + by apply SstConcatIteratorSpec.concat_iterator_seek_to_key_spec.
    + eapply wp_bind; [by eapply SstConcatIteratorSpec.concat_iterator_seek_to_key_spec|]. intros it Hit.
      apply skip_key_spec; [apply Hrun|exact Hit].
  - destruct ls; [|by apply SstConcatIteratorSpec.run_length in Hrun]. apply wp_ret. simpl.
    assert (SstConcatIteratorSpec.repr (blocks g) SstConcatIterator.empty []) as He.
    { split; [apply ksorted_nil|]. by exists []. }
    destruct lower; simpl; exact He.
Qed.

Definition spans {I} `{!StorageIterator BlockCache.t I} `{!IteratorSpec BlockCache.t I Inv} (its : list I)
    (m : gmap bytes bytes) : Prop := ∃ ls, Forall2 denotes its ls ∧ covers (merged ls) m.

Lemma spans_nil {I} `{!StorageIterator BlockCache.t I} `{!IteratorSpec BlockCache.t I Inv} : spans (I:=I) [] ∅.
Proof. exists []. split; [done|by apply covers_empty]. Qed.

Lemma spans_cons {I} `{!StorageIterator BlockCache.t I} `{!IteratorSpec BlockCache.t I Inv} (it : I) its l m' m :
  denotes it l → covers (kv_map l) m' → spans its m → spans (it :: its) (m' ∪ m).
Proof. intros Hit Hl (ls & Hf & Hls). exists (l :: ls). split; [by constructor|]. by apply covers_union. Qed.

Lemma spans_skip {I} `{!StorageIterator BlockCache.t I} `{!IteratorSpec BlockCache.t I Inv} (its : list I) m' m :
  covers ∅ m' → spans its m → spans its (m' ∪ m).
Proof. intros Hm' (ls & Hf & Hls). exists ls. split; [done|]. rewrite <-(left_id_L ∅ (∪) (merged ls)). by apply covers_union. Qed.

Lemma memtable_iters_spec (ms : list MemTable.t) : Forall (λ m, ksorted (MemTable.map_ m)) ms →
  spans ((λ m, MemTable.scan m lower upper) <$> ms) (merged (MemTable.map_ <$> ms)).
Proof.
  induction 1 as [|m ms Hs _ IH]; [apply spans_nil|]. rewrite !fmap_cons, merged_cons.
  eapply spans_cons; [by apply MemTableIteratorSpec.scan_repr| |done].
  split; intros k; rewrite (lookup_kv_filter (in_range lower upper)).
  - case_decide as Hk; [by split; [apply Hk|]|by intros []].
  - intros ?. by rewrite decide_True.
Qed.

Lemma scan_l0_iters_spec ids : (∀ id, id ∈ ids → ∃ t, readable g st id t) →
  wp Inv (scan_l0_iters st lower upper ids) (λ its, spans its (stored (content g) ids)).
Proof.
  induction ids as [|id ids IH]; intros Hids; simpl.
  { apply wp_ret, spans_nil. }
  destruct (Hids id) as [t Ht]; [set_solver|]. specialize (IH ltac:(set_solver)).
  pose proof (readable_sorted _ _ _ _ Ht) as Hs. destruct Ht as (-> & kvss & Hh & Hc & He).
  change (stored (content g) (id :: ids)) with (kv_map (entries_of g id) ∪ stored (content g) ids). rewrite He in Hs |- *.
  rewrite (holds_first _ _ Hh), (holds_last _ _ Hh). destruct (range_overlap _ _ _ _) eqn:Hr.
  - eapply wp_bind; [by apply scan_table_spec|]. intros it Hit. eapply wp_bind; [exact IH|]. intros its Hits.
    apply wp_ret. eapply spans_cons; [exact Hit|apply covers_above|done].
  - eapply wp_mono; [exact IH|]. intros its Hits. apply spans_skip; [|done]. apply covers_empty.
    apply range_overlap_spec; [done|by eapply SstConcatIteratorSpec.holds_mjoin_nonempty|done].
Qed.

(** The tables of a level in the range are a run that covers the level. *)
Lemma scan_level_ssts_spec ids : (∀ id, id ∈ ids → ∃ t, readable g st id t) → ksorted (level_entries g ids) →
  ∃ ls, SstConcatIteratorSpec.run (blocks g) (scan_level_ssts st lower upper ids) ls ∧
    (∀ e, e ∈ mjoin ls → e ∈ level_entries g ids) ∧
    covers (kv_map (filter (λ e, above lower e.1) (mjoin ls))) (kv_map (level_entries g ids)).
Proof.
  induction ids as [|id ids IH]; intros Hids Hs.
  { exists []. split_and!; [split; [done|apply ksorted_nil]|done|by apply covers_empty]. }
  destruct (Hids id) as [t Ht]; [set_solver|]. rewrite level_entries_cons in Hs |- *.
  pose proof Hs as (Hsid & Hsids & Hlt)%ksorted_app. destruct Ht as (Et & kvss & Hh & Hc & He).
  destruct IH as (ls & [Hrun Hls] & Hsub & Hcov); [set_solver|done|].
  unfold scan_level_ssts in *. simpl. rewrite Et, (holds_first _ _ Hh), (holds_last _ _ Hh), <-He.
  destruct (range_overlap _ _ _ _) eqn:Hr.
  - exists (entries_of g id :: ls). split_and!.
    + split; [constructor; [by exists kvss|done]|]. simpl. apply ksorted_app. split_and!; [done..|].
      intros k1 k2 Hk1 (e & -> & He2%Hsub)%list_elem_of_fmap_1. apply Hlt; [done|by apply list_elem_of_fmap_2].
    + simpl. intros e. rewrite !elem_of_app. intros [|?%Hsub]; tauto.
    + simpl. rewrite filter_app, !kv_map_app. apply covers_union; [apply covers_above|done].
  - exists ls. split_and!; [done| |].
    + intros e ?%Hsub. apply elem_of_app. by right.
    + rewrite kv_map_app, <-(left_id_L ∅ (∪) (kv_map (filter _ _))). apply covers_union; [|done]. apply covers_empty.
      rewrite He in *. apply range_overlap_spec; [done|by eapply SstConcatIteratorSpec.holds_mjoin_nonempty|done].
Qed.

Lemma scan_level_iters_spec levels : (∀ id, id ∈ level_ids levels → ∃ t, readable g st id t) →
  Forall (λ lv, ksorted (level_entries g lv.2)) levels →
  wp Inv (scan_level_iters st lower upper levels) (λ its, spans its (stored (content g) (level_ids levels))).
Proof.
  induction levels as [|[x ids] levels IH]; intros Hids Hs; simpl.
  { apply wp_ret, spans_nil. }
  apply Forall_cons in Hs as [Hs0 Hs]. simpl in Hs0. rewrite level_ids_cons in Hids |- *. simpl in Hids |- *.
  specialize (IH ltac:(set_solver) Hs).
  destruct (scan_level_ssts_spec ids) as (ls & Hrun & _ & Hcov); [set_solver|done|].
  eapply wp_bind; [by apply scan_level_spec|]. intros it Hit.
  eapply wp_bind; [exact IH|]. intros its Hits. apply wp_ret. rewrite stored_app, stored_level.
  eapply spans_cons; [exact Hit|exact Hcov|exact Hits].
Qed.

Lemma merge_spans {I} `{!StorageIterator BlockCache.t I} `{!IteratorSpec BlockCache.t I Inv} (its : list I) m :
  spans its m → wp Inv (MergeIterator.create its) (λ it, ∃ l, denotes it l ∧ covers (kv_map l) m).
Proof.
  intros (ls & Hf & Hc). eapply wp_mono; [by apply MergeIterator.merge_create_repr|].
  intros it Hit. exists (entries (merged ls)). split; [exact Hit|by rewrite kv_map_entries].
Qed.

Lemma two_merge_spans {A B} `{!StorageIterator BlockCache.t A} `{!IteratorSpec BlockCache.t A Inv}
    `{!StorageIterator BlockCache.t B} `{!IteratorSpec BlockCache.t B Inv} (a : A) (b : B) la lb ma mb :
  denotes a la → denotes b lb → covers (kv_map la) ma → covers (kv_map lb) mb →
  wp Inv (TwoMergeIterator.create a b) (λ it, ∃ l, denotes it l ∧ covers (kv_map l) (ma ∪ mb)).
Proof.
  intros Ha Hb Hca Hcb. eapply wp_mono; [by apply TwoMergeIterator.two_merge_create_repr|].
  intros it Hit. exists (entries (kv_map la ∪ kv_map lb)). split; [exact Hit|].
  rewrite kv_map_entries. by apply covers_union.
Qed.

(** What [LsmIterator] shows of a source that covers [m]. *)
Lemma live_covers l m : ksorted l → covers (kv_map l) m →
  LsmIterator.live upper l = filter (λ e, in_range lower upper e.1) (entries (visible m)).
Proof.
  intros Hs [Ha He]. apply ksorted_ext; [by apply ksorted_filter|apply ksorted_filter, entries_sorted|].
  apply map_eq. intros k. apply option_eq. intros v. unfold LsmIterator.live.
  rewrite (lookup_kv_filter (in_range lower upper)), kv_map_entries, kv_map_lookup by (by apply ksorted_filter).
  rewrite list_elem_of_filter, <-kv_map_lookup by done. simpl. case_decide as Hr; rewrite ?lookup_visible.
  - rewrite He by done. destruct Hr. tauto.
  - split; [|done]. intros [[_ Hb] Hl]. destruct Hr. split; [|done]. by apply (Ha k).
Qed.

Lemma covers_length l m : ksorted l → covers (kv_map l) m → length l ≤ size m.
Proof.
  intros Hs [Ha _]. rewrite <-(length_fmap fst). rewrite <-(size_list_to_set (C:=gset bytes)) by (by apply ksorted_NoDup).
  rewrite <-size_dom. apply subseteq_size. intros k. rewrite elem_of_list_to_set, elem_of_dom, <-kv_map_is_Some. apply Ha.
Qed.
End scan.

Lemma scan_spec `{!Zlib} `{!Snappy} `{!Farmhash} `{!LoopFuel} g s lower upper :
  read_ok g (LsmStorageInner.state s) → size (contents g (LsmStorageInner.state s)) < loop_fuel →
  wp (BlockCacheSpec.cache_ok (blocks g)) (LsmStorageInner.scan s lower upper) (λ it,
    denotes (Inv:=BlockCacheSpec.cache_ok (blocks g)) it
      (filter (λ e, in_range lower upper e.1) (entries (shown g (LsmStorageInner.state s))))).
Proof.
  intros [Hm Ht Hl] Hsz. set (st := LsmStorageInner.state s) in *. unfold LsmStorageInner.scan, ids_of in *. fold st.
  eapply wp_bind; [apply (merge_spans g lower upper), memtable_iters_spec, Hm|]. intros i0 (l0 & D0 & C0).
  eapply wp_bind; [apply (scan_l0_iters_spec g); intros; apply Ht; set_solver|]. intros its1 Hits1.
  eapply wp_bind; [exact (merge_spans _ _ _ _ _ Hits1)|]. intros i1 (l1 & D1 & C1).
  eapply wp_bind; [apply (scan_level_iters_spec g); [intros; apply Ht; set_solver|done]|]. intros its2 Hits2.
  eapply wp_bind; [exact (merge_spans _ _ _ _ _ Hits2)|]. intros i2 (l2 & D2 & C2).
  eapply wp_bind; [exact (two_merge_spans _ _ _ _ _ _ _ _ _ D0 D1 C0 C1)|]. intros i3 (l3 & D3 & C3).
  eapply wp_bind; [exact (two_merge_spans _ _ _ _ _ _ _ _ _ D3 D2 C3 C2)|]. intros i4 (l4 & D4 & C4).
  rewrite <-(assoc_L (∪)), <-stored_app in C4. fold (ids_of st) in C4.
  change (merged _ ∪ stored _ _) with (contents g st) in C4. pose proof (denotes_sorted _ _ D4) as Hs4.
  eapply wp_bind; [apply (LsmIterator.lsm_create_repr i4 l4 upper D4)|].
  { pose proof (covers_length _ _ _ _ Hs4 C4). lia. }
  intros it Hit. apply wp_ret. rewrite (live_covers _ _ _ _ Hs4 C4) in Hit. by split.
Qed.

(** Draining the iterator. *)
Lemma scan_collect_spec `{!Zlib} `{!Snappy} `{!Farmhash} `{!LoopFuel} g w s lower upper n : engine_ok g w s →
  size (contents g (LsmStorageInner.state s)) < loop_fuel → size (contents g (LsmStorageInner.state s)) < n →
  runs (on_cache (it ← LsmStorageInner.scan s lower upper; collect n it)) w (λ w' l, same_files (blocks g) w w' ∧
    l = filter (λ e, in_range lower upper e.1) (entries (shown g (LsmStorageInner.state s)))).
Proof.
  intros Hok Hfuel Hn. pose proof (engine_read_ok _ _ _ Hok) as Hr. eapply runs_on_cache; [|apply Hok].
  eapply wp_bind; [by apply scan_spec|]. intros it Hit. eapply collect_denotes; [exact Hit|].
  pose proof (length_filter (λ e : kv, in_range lower upper e.1) (entries (shown g (LsmStorageInner.state s)))) as Hl.
  rewrite length_entries in Hl. pose proof (size_visible (contents g (LsmStorageInner.state s))). unfold shown in *. lia.
Qed.
