(* ===== verification/LsmWrite.v ===== *)
(** * Writes: put, del, force_freeze_memtable, force_flush_next_imm_memtable, sync

    What each operation does to the map the engine stands for, to the structure
    and to the manifest; every one keeps the invariant of [LsmSpec]. *)
From S2P Require Import Prelude Endian Key Iterators Block BlockCache Double Bloom Table Sizes TableIterator Wal MemTable State Layers SimpleLeveled Tiered Leveled Compact Manifest LsmStorage LsmSpec.

Section write.
Context `{!Zlib} `{!Snappy} `{!SnappyLaws} `{!SnappyBound} `{!Farmhash} `{!Libm} `{!Json} `{!JsonLaws}.
Import LsmStorageInner.
Implicit Types (g : ghost) (w : World) (s : LsmStorageInner.t).

(** ** The manifest *)

(** The manifest is open and its file is the frames of [rs]. *)
Definition logged (rs : list ManifestRecord.t) w s : Prop := ∃ m, manifest s = Some m ∧
  Manifest.path_ m = manifest_path (path s) ∧ ManifestSpec.written m (files w) rs.

(** [s'] is [s] but for the descriptor of the manifest; [w'] is [w] but for its
    file, to which [r] was appended. *)
Definition recorded (r : ManifestRecord.t) w s w' s' : Prop :=
  (∃ m, s' = set_manifest s m ∧ ∀ m', m = Some m' → Manifest.path_ m' = manifest_path (path s)) ∧
  cache w' = cache w ∧ (∀ p, p ≠ manifest_path (path s) → files w' !! p = files w !! p) ∧
  ∀ rs, logged rs w s → logged (rs ++ [r]) w' s'.

Lemma record_added s r w : (∀ m, manifest s = Some m → Manifest.path_ m = manifest_path (path s)) →
  ManifestRecordSpec.record_ok r → runs (add_manifest_record s r) w (λ w' s', recorded r w s w' s').
Proof.
  intros Hm Hr. unfold add_manifest_record. destruct (manifest s) as [m|] eqn:E; cycle 1.
  { apply runs_ret. split; [exists None; split; [|done]; destruct s; simpl in *; by subst|].
    split_and!; [done..|]. intros rs (m & Hs & _). by rewrite E in Hs. }
  specialize (Hm m eq_refl). destruct (ManifestSpec.text_spec r Hr) as [Hd _].
  destruct (Manifest.fd_ m) as [pos|] eqn:Hfd; cycle 1.
  { unfold on_fs, Manifest.add_record, Manifest.add_record_when_init, runs, mbind, eff_bind. rewrite Hfd.
    eexists w, _. split; [by destruct w|]. split; [eexists; split; [done|by intros ? [= <-]]|]. split_and!; [done..|].
    intros rs (m' & Hs & _ & Hfd' & _). rewrite E in Hs. injection Hs as <-. congruence. }
  assert (Manifest.add_record m r (files w) =
    Ok (<[Manifest.path_ m := Manifest.write_at pos (Manifest.frame (ManifestSpec.text_of r)) (default [] (files w !! Manifest.path_ m))]> (files w),
      (Manifest.mk (Manifest.path_ m) (Some (pos + length (Manifest.frame (ManifestSpec.text_of r)))), inl tt))) as Hadd.
  { unfold Manifest.add_record, Manifest.add_record_when_init. by rewrite Hfd, Hd. }
  unfold runs, on_fs, mbind, eff_bind. rewrite Hadd. eexists _, _. split; [done|]. simpl. split_and!.
  - eexists. split; [done|]. by intros ? [= <-].
  - done.
  - intros p Hp. simpl. rewrite lookup_insert_ne by (by rewrite Hm). done.
  - intros rs (m' & Hs & _ & Hw). rewrite E in Hs. injection Hs as <-.
    destruct (ManifestSpec.add_record_written m (files w) rs r Hw Hr) as (m' & Hadd' & Hw' & Hp').
    rewrite Hadd in Hadd'. injection Hadd' as Efs <-. eexists. split_and!; [done|done|]. cbn [files]. by rewrite Efs.
Qed.

Lemma engine_recorded g r w s w' s' : engine_ok g w s → recorded r w s w' s' → engine_ok g w' s'.
Proof.
  intros Hok ((m & -> & Hm) & Hc & Hf & _). apply (engine_agree _ w).
  - destruct Hok. by split.
  - split; intros id _; apply Hf; [apply (Names.path_sst_manifest s)|apply (Names.path_wal_manifest s)].
  - rewrite Hc. apply Hok.
Qed.

(** ** The mutable memtable *)
Definition with_memtable s (m : MemTable.t) : LsmStorageInner.t := set_state s (LsmStorageState.set_memtable (state s) m).

(** A write that reaches the memtable and its log. *)
Lemma put_mem w s m k v : mem_ok w s m → kv_ok (k, v) → ∃ m', MemTable.put m k v = (m', inl tt) ∧
  mem_ok w s m' ∧ MemTable.id_ m' = MemTable.id_ m ∧ kv_map (MemTable.map_ m') = <[k := v]> (kv_map (MemTable.map_ m)) ∧
  MemTable.map_ m' ≠ [] ∧ MemTable.map_ m' ⊆+ (k, v) :: MemTable.map_ m.
Proof.
  intros [Hon Hs He Hw] Hkv.
  assert (∀ m' gm rs, MemTableSpec.repr (files w) m' (<[k := v]> gm) rs → gm = kv_map (MemTable.map_ m) →
    ksorted (MemTable.map_ m') ∧ Forall kv_ok (MemTable.map_ m') ∧
    kv_map (MemTable.map_ m') = <[k := v]> (kv_map (MemTable.map_ m)) ∧ MemTable.map_ m' ≠ [] ∧
    MemTable.map_ m' ⊆+ (k, v) :: MemTable.map_ m) as Hm.
  { intros m' gm rs [Hs' Hm' _] ->. split_and!; [done| |done| |]; cycle 2.
    { rewrite <-(entries_kv_map (MemTable.map_ m')), Hm', <-kv_map_cons by done. apply entries_submseteq. }
    - apply Forall_forall. intros [k' v'] Hin. apply kv_map_lookup in Hin; [|done]. rewrite Hm' in Hin.
      apply lookup_insert_Some in Hin as [[<- <-]|[_ Hin]]; [done|]. apply kv_map_lookup in Hin; [|done].
      by eapply Forall_forall in He.
    - intros E. rewrite E in Hm'. by apply (insert_non_empty (kv_map (MemTable.map_ m)) k v). }
  destruct (MemTable.wal_ m) as [l|] eqn:Hl.
  - destruct (Hw l eq_refl) as (Hp & rs & Hlog & Hrs).
    destruct (MemTableSpec.put_wal (files w) m (kv_map (MemTable.map_ m)) rs k v l) as (m' & l' & Hput & Hr & Hl' & Hp' & Hid & _);
      [split; [done|done|]; intros ? E; rewrite Hl in E; by injection E as <-|done|apply Hkv|].
    destruct (Hm _ _ _ Hr eq_refl) as (? & ? & ? & ? & ?). exists m'. split_and!; [done| |done..]. split; [by rewrite Hl'|done|done|].
    intros ? E. rewrite Hl' in E. injection E as <-. rewrite Hp', Hid. split; [done|].
    exists (rs ++ [(k, v)]). split; [by apply Hr|]. rewrite MemTableSpec.replay_snoc, Hrs. done.
  - destruct (MemTableSpec.put_nowal (files w) m (kv_map (MemTable.map_ m)) [] k v) as (m' & Hput & Hr & Hl' & Hid & _);
      [split; [done|done|]; congruence|done|].
    destruct (Hm _ _ _ Hr eq_refl) as (? & ? & ? & ? & ?). exists m'. split_and!; [done| |done..]. split; [by intros Hw'; destruct (Hon Hw')|done|done|].
    intros ? E. congruence.
Qed.

Lemma engine_memtable g w s m : engine_ok g w s → mem_ok w s m →
  MemTable.id_ m = MemTable.id_ (LsmStorageState.memtable (state s)) → engine_ok g w (with_memtable s m).
Proof.
  intros [] Hm Hid. assert (mem_ids (state (with_memtable s m)) = mem_ids (state s)) as Hids.
  { unfold mem_ids, memtables. simpl. by rewrite Hid. }
  split; rewrite ?Hids; try done. apply Forall_cons in eo_mems as [_ Hi]. by constructor.
Qed.

Lemma contents_memtable g s m k v :
  kv_map (MemTable.map_ m) = <[k := v]> (kv_map (MemTable.map_ (LsmStorageState.memtable (state s)))) →
  contents g (state (with_memtable s m)) = <[k := v]> (contents g (state s)).
Proof.
  intros Hm. unfold contents, memtables. cbn [state with_memtable set_state LsmStorageState.memtable LsmStorageState.set_memtable LsmStorageState.imm_memtables fmap list_fmap].
  rewrite !merged_cons, Hm, <-!insert_union_l. done.
Qed.

(** ** Freezing *)

(** The state with a new empty memtable [m] in front. *)
Definition frozen s (m : MemTable.t) : LsmStorageInner.t :=
  set_state (set_next_sst_id s (S (next_sst_id s)))
    (LsmStorageState.set_imm_memtables (LsmStorageState.set_memtable (state s) m)
       (LsmStorageState.memtable (state s) :: LsmStorageState.imm_memtables (state s))).

Lemma new_memtable_spec s w id : runs (new_memtable s id) w (λ w' m,
  MemTable.id_ m = id ∧ MemTable.map_ m = [] ∧ mem_ok w' s m ∧ cache w' = cache w ∧
  ∀ p, p ≠ path_of_wal_val s id → files w' !! p = files w !! p).
Proof.
  unfold new_memtable, mem_ok. destruct (LsmStorageOptions.enable_wal (options s)).
  - unfold MemTable.create_with_wal, Wal.create, on_fs, runs, mbind, eff_bind. cbn.
    eexists _, _. split; [done|]. split_and!; [done|done| |done|].
    + split; [done|apply ksorted_nil|done|]. intros l [= <-]. split; [done|]. exists []. split; [|done].
      exists [], []. cbn. by rewrite lookup_insert_eq.
    + intros p Hp. simpl. by rewrite lookup_insert_ne.
  - apply runs_ret. split_and!; [done|done| |done|done]. split; [done|apply ksorted_nil|done|done].
Qed.

Lemma engine_frozen g w w' s m : engine_ok g w s → MemTable.map_ (LsmStorageState.memtable (state s)) ≠ [] →
  MemTable.id_ m = next_sst_id s → mem_ok w' s m → cache w' = cache w →
  (∀ p, p ≠ path_of_wal_val s (next_sst_id s) → files w' !! p = files w !! p) →
  engine_ok g w' (frozen s m).
Proof.
  intros Hok Hne Hid Hm Hc Hf.
  assert (agree s w w') as Hag.
  { split; intros id Hin; apply Hf; [apply Names.path_sst_wal|]. intros E%Names.path_wal_inj. subst.
    pose proof (eo_fresh _ _ _ Hok _ (or_introl Hin)). lia. }
  destruct (engine_agree _ _ w' _ Hok Hag) as []; [rewrite Hc; apply Hok|].
  assert (mem_ids (state (frozen s m)) = next_sst_id s :: mem_ids (state s)) as Hids.
  { unfold mem_ids, memtables. simpl. by rewrite Hid. }
  split; rewrite ?Hids; try done.
  - by constructor.
  - by constructor.
  - change (NoDup (next_sst_id s :: (mem_ids (state s) ++ ids_of (state s)))).
    constructor; [|done]. rewrite elem_of_app. intros [Hin|Hin].
    + pose proof (eo_fresh _ (or_introl Hin)). lia.
    + destruct (eo_tables _ Hin) as (t & kvss & data & []). pose proof (eo_fresh _ (or_intror (ex_intro _ _ ta_ghost))). lia.
  - intros id. rewrite elem_of_cons. intros [[->|Hin]|Hin]; simpl; [lia|..].
    + pose proof (eo_fresh _ (or_introl Hin)). lia.
    + pose proof (eo_fresh _ (or_intror Hin)). lia.
  - intros id. rewrite elem_of_cons. intros [->|Hin]; [|by apply eo_unused].
    apply eq_None_not_Some. intros Hin. pose proof (eo_fresh _ (or_intror Hin)). lia.
Qed.

(** ** What an operation leaves alone, and what it appends to the manifest *)
Record evolves (new : list ManifestRecord.t) w s w' s' : Prop := {
  ev_path : path s' = path s;
  ev_options : options s' = options s;
  ev_controller : compaction_controller s' = compaction_controller s;
  ev_log rs : logged rs w s → logged (rs ++ new) w' s' }.

Lemma evolves_refl w s : evolves [] w s w s.
Proof. split; [done..|]. intros rs. by rewrite app_nil_r. Qed.
Lemma evolves_trans new1 new2 w s w1 s1 w2 s2 :
  evolves new1 w s w1 s1 → evolves new2 w1 s1 w2 s2 → evolves (new1 ++ new2) w s w2 s2.
Proof. intros [] []. split; [congruence..|]. intros rs Hl. rewrite (assoc_L (++)). auto. Qed.

(** An object whose manifest, and a world whose manifest file, are the same. *)
Lemma evolves_same w s w' s' : path s' = path s → options s' = options s →
  compaction_controller s' = compaction_controller s → manifest s' = manifest s →
  files w' !! manifest_path (path s) = files w !! manifest_path (path s) → evolves [] w s w' s'.
Proof.
  intros Hp ? ? Hm Hf. split; [done..|]. intros rs (m & Em & Epath & Hfd & Hfile). rewrite app_nil_r.
  exists m. rewrite Hm, Hp. split_and!; [done..|]. split; [done|]. by rewrite Epath, Hf, <-Epath.
Qed.

Lemma evolves_recorded r w s w' s' : recorded r w s w' s' → evolves [r] w s w' s'.
Proof. intros ((m & -> & _) & _ & _ & Hl). by split. Qed.

Lemma recorded_state r w s w' s' : recorded r w s w' s' → state s' = state s ∧ next_sst_id s' = next_sst_id s.
Proof. by intros ((m & -> & _) & _). Qed.

(** The files of the tables are what they were, but for those of [ids]. *)
Definition tables_kept (ids : list nat) w s w' : Prop :=
  ∀ id, id ∉ ids → files w' !! path_of_sst_val s id = files w !! path_of_sst_val s id.

Lemma recorded_tables r w s w' s' : recorded r w s w' s' → tables_kept [] w s w'.
Proof. intros (_ & _ & Hf & _) id _. apply Hf, Names.path_sst_manifest. Qed.

(** ** The operations *)
Definition room s : Prop := (Z.of_nat (next_sst_id s) < 2 ^ 64)%Z.

Lemma freeze_spec g w s : engine_ok g w s → MemTable.map_ (LsmStorageState.memtable (state s)) ≠ [] → room s →
  runs (force_freeze_memtable s) w (λ w' s', engine_ok g w' s' ∧
    evolves [ManifestRecord.NewMemtable (next_sst_id s)] w s w' s' ∧ tables_kept [] w s w' ∧ next_sst_id s' = S (next_sst_id s) ∧
    ∃ m, MemTable.id_ m = next_sst_id s ∧ MemTable.map_ m = [] ∧ state s' = state (frozen s m)).
Proof.
  intros Hok Hne Hroom. unfold force_freeze_memtable.
  eapply runs_bind; [apply new_memtable_spec|]. intros w1 m (Hid & Hmap & Hm & Hc & Hf). cbn beta zeta.
  assert (engine_ok g w1 (frozen s m)) as Hok1 by (by eapply engine_frozen).
  eapply runs_mono; [apply (record_added (frozen s m)); [apply Hok1|exact Hroom]|]. intros w' s' Hrec.
  destruct (recorded_state _ _ _ _ _ Hrec) as [Hst Hnext].
  split_and!; [by eapply engine_recorded| | |by rewrite Hnext|exists m; by rewrite Hst]; cycle 1.
  { intros id Hid'. etrans; [exact (recorded_tables _ _ _ _ _ Hrec id Hid')|]. apply Hf, (Names.path_sst_wal s). }
  apply (evolves_trans [] _ _ _ w1 (frozen s m)); [|by apply evolves_recorded].
  apply evolves_same; [done..|]. apply Hf. intros E. by apply (Names.path_wal_manifest s (next_sst_id s)).
Qed.

Lemma contents_frozen g s m : MemTable.map_ m = [] → contents g (state (frozen s m)) = contents g (state s).
Proof.
  intros Hm. unfold contents, memtables. simpl. rewrite merged_cons, Hm. by rewrite kv_map_nil, (left_id_L ∅ (∪)).
Qed.

(** What a write does to the memtables and to the manifest: it may freeze. *)
Definition put_effect k v w s w' s' : Prop := ∃ m', MemTable.id_ m' = MemTable.id_ (LsmStorageState.memtable (state s)) ∧
  MemTable.map_ m' ⊆+ (k, v) :: MemTable.map_ (LsmStorageState.memtable (state s)) ∧
  ((evolves [] w s w' s' ∧ next_sst_id s' = next_sst_id s ∧
    memtables (state s') = m' :: LsmStorageState.imm_memtables (state s)) ∨
   (evolves [ManifestRecord.NewMemtable (next_sst_id s)] w s w' s' ∧ next_sst_id s' = S (next_sst_id s) ∧
    ∃ m, MemTable.id_ m = next_sst_id s ∧ MemTable.map_ m = [] ∧
      memtables (state s') = m :: m' :: LsmStorageState.imm_memtables (state s))).

Lemma put_spec g w s k v : engine_ok g w s → kv_ok (k, v) → room s →
  runs (put s k v) w (λ w' s', engine_ok g w' s' ∧ contents g (state s') = <[k := v]> (contents g (state s)) ∧
    LsmStorageState.l0_sstables (state s') = LsmStorageState.l0_sstables (state s) ∧
    LsmStorageState.levels (state s') = LsmStorageState.levels (state s) ∧ tables_kept [] w s w' ∧ put_effect k v w s w' s').
Proof.
  intros Hok Hkv Hroom. unfold put.
  destruct (put_mem w s (LsmStorageState.memtable (state s)) k v) as (m' & Hput & Hm' & Hid & Hmap & Hne & Hsub);
    [by apply (Forall_inv (eo_mems _ _ _ Hok))|done|]. rewrite Hput. cbn [fst]. cbv zeta.
  assert (engine_ok g w (with_memtable s m')) as Hok1 by (by apply engine_memtable).
  pose proof (contents_memtable g s m' k v Hmap) as Hcont. case_decide.
  - eapply runs_mono; [by apply (freeze_spec g w (with_memtable s m'))|].
    intros w' s' (Hok' & Hev & Hkept & Hnext & m & Hmid & Hmmap & Hst). split; [done|]. unfold put_effect. rewrite Hst.
    split_and!; [by rewrite contents_frozen|done|done|exact Hkept|]. exists m'. split_and!; [done..|]. right.
    split_and!; [|by rewrite Hnext|by exists m].
    apply (evolves_trans [] _ _ _ w (with_memtable s m')); [by apply evolves_same|exact Hev].
  - apply runs_ret. split_and!; [done..|]. exists m'. split_and!; [done..|]. left. split_and!; [by apply evolves_same|done|done].
Qed.

(** ** Flushing *)

(** The tree with the table [id] in front. *)
Definition pushed (to_l0 : bool) (st : LsmStorageState.t) (id : nat) : LsmStorageState.t :=
  if to_l0 then LsmStorageState.set_l0_sstables st (id :: LsmStorageState.l0_sstables st)
  else LsmStorageState.set_levels st ((id, [id]) :: LsmStorageState.levels st).

(** The state after the oldest immutable memtable became the table [t]. *)
Definition flushed s (id : nat) (t : SsTable.t) : LsmStorageInner.t :=
  let st := LsmStorageState.set_imm_memtables (state s)
    (take (length (LsmStorageState.imm_memtables (state s)) - 1) (LsmStorageState.imm_memtables (state s))) in
  let st := pushed (CompactionController.flush_to_l0 (compaction_controller s)) st id in
  set_state s (LsmStorageState.set_sstables st (<[id := t]> (LsmStorageState.sstables st))).

Lemma ids_pushed b st id : (b = false → LsmStorageState.l0_sstables st = []) → ids_of (pushed b st id) = id :: ids_of st.
Proof. intros Hb. unfold ids_of. destruct b; simpl; [done|]. by rewrite Hb. Qed.

Lemma flushed_ids s id t : (CompactionController.flush_to_l0 (compaction_controller s) = false → LsmStorageState.l0_sstables (state s) = []) →
  ids_of (state (flushed s id t)) = id :: ids_of (state s).
Proof. intros Hb. exact (ids_pushed _ (LsmStorageState.set_imm_memtables (state s) _) id Hb). Qed.

Lemma flushed_memtables s id t imms m : LsmStorageState.imm_memtables (state s) = imms ++ [m] →
  memtables (state (flushed s id t)) = LsmStorageState.memtable (state s) :: imms ∧
  memtables (state s) = LsmStorageState.memtable (state s) :: imms ++ [m].
Proof.
  intros E. unfold memtables, flushed. cbv zeta. cbn [state set_state].
  set (b := CompactionController.flush_to_l0 _). rewrite E. split; [|done].
  rewrite length_app, Nat.add_sub. by destruct b; simpl; rewrite take_app_length.
Qed.

Lemma flushed_sstables s id t : LsmStorageState.sstables (state (flushed s id t)) = <[id := t]> (LsmStorageState.sstables (state s)).
Proof. unfold flushed, pushed. by destruct (CompactionController.flush_to_l0 _). Qed.
Lemma flushed_levels s id t : LsmStorageState.levels (state (flushed s id t)) =
  if CompactionController.flush_to_l0 (compaction_controller s) then LsmStorageState.levels (state s)
  else (id, [id]) :: LsmStorageState.levels (state s).
Proof. unfold flushed, pushed. by destruct (CompactionController.flush_to_l0 _). Qed.
Lemma flushed_l0 s id t : LsmStorageState.l0_sstables (state (flushed s id t)) =
  if CompactionController.flush_to_l0 (compaction_controller s) then id :: LsmStorageState.l0_sstables (state s)
  else LsmStorageState.l0_sstables (state s).
Proof. unfold flushed, pushed. by destruct (CompactionController.flush_to_l0 _). Qed.

Lemma contents_flushed g s id t imms m kvss : LsmStorageState.imm_memtables (state s) = imms ++ [m] →
  (CompactionController.flush_to_l0 (compaction_controller s) = false → LsmStorageState.l0_sstables (state s) = []) →
  mjoin kvss = MemTable.map_ m → g !! id = None → (∀ id', id' ∈ ids_of (state s) → is_Some (g !! id')) →
  contents (<[id := kvss]> g) (state (flushed s id t)) = contents g (state s).
Proof.
  intros E Hb Hkv Hg Hids. unfold contents. destruct (flushed_memtables s id t imms m E) as [-> ->].
  rewrite flushed_ids by done. change (stored ?c (?x :: ?l)) with (c x ∪ stored c l).
  rewrite stored_mono with (g := g) by (done || by apply insert_subseteq).
  unfold content at 1. rewrite entries_of_insert, Hkv, app_comm_cons, fmap_app. unfold merged. rewrite !fmap_app, union_maps_app. simpl.
  by rewrite (right_id_L ∅ (∪)), (assoc_L (∪)).
Qed.

Lemma engine_flushed g w w' s t kvss data imms m : engine_ok g w s → LsmStorageState.imm_memtables (state s) = imms ++ [m] →
  let id := MemTable.id_ m in
  holds t kvss → mjoin kvss = MemTable.map_ m → SsTable.id t = id → SsTable.block_cache t = true →
  (Z.of_nat (length data) < 4294967296)%Z → SsTable.open id true (TableBuilderSpec.file_of data) = Ok t →
  files w' = <[path_of_sst_val s id := data]> (files w) → cache w' = cache w →
  engine_ok (<[id := kvss]> g) w' (flushed s id t).
Proof.
  intros Hok E id Hh Hkv Hid Hc Hlen Hopen Hf Hcache.
  destruct (flushed_memtables s id t imms m E) as [Em' Em]. pose proof (flushed_ids s id t (eo_tiers _ _ _ Hok)) as Eids.
  assert (mem_ids (state s) = mem_ids (state (flushed s id t)) ++ [id]) as Emi.
  { unfold mem_ids. rewrite Em, Em'. by rewrite app_comm_cons, fmap_app. }
  destruct Hok. assert (g !! id = None) as Hg by (apply eo_unused; rewrite Emi; set_solver).
  assert (∀ id', id' ∈ ids_of (state s) → id' ≠ id) as Hne.
  { intros id' Hin ->. rewrite Emi, <-(assoc_L (++)) in eo_nodup. apply NoDup_app in eo_nodup as (_ & _ & Hnd).
    by apply NoDup_cons in Hnd as [[] _]. }
  assert (∀ id', id' ∈ mem_ids (state (flushed s id t)) → id' ≠ id) as Hne'.
  { intros id' Hin ->. rewrite Emi, <-(assoc_L (++)) in eo_nodup. apply NoDup_app in eo_nodup as (_ & Hnd & _).
    apply (Hnd _ Hin). set_solver. }
  split; try done.
  - rewrite Hcache. eapply BlockCacheSpec.cache_ok_mono; [by apply blocks_insert|done].
  - rewrite Em'. rewrite Em, app_comm_cons in eo_mems. apply Forall_app in eo_mems as [Hm _].
    eapply Forall_impl; [exact Hm|]. intros m' Hm'. apply (mem_ok_agree w w' s m' Hm').
    rewrite Hf, lookup_insert_ne; [done|]. apply Names.path_sst_wal.
  - rewrite E in eo_imms. apply Forall_app in eo_imms as [Hi _].
    assert (LsmStorageState.imm_memtables (state (flushed s id t)) = imms) as ->; [|done].
    unfold memtables in Em'. by injection Em'.
  - intros id'. rewrite Eids, elem_of_cons. intros Hin. unfold table_ok. rewrite flushed_sstables.
    destruct (decide (id' = id)) as [->|Hid'].
    + exists t, kvss, data. split; try done; [by rewrite lookup_insert_eq..|]. by rewrite Hf, lookup_insert_eq.
    + destruct Hin as [Hin|Hin]; [done|]. destruct (eo_tables _ Hin) as (t' & kvss' & data' & []).
      exists t', kvss', data'. split; try done; [by rewrite lookup_insert_ne..|].
      rewrite Hf, lookup_insert_ne; [done|]. intros Ep. apply Hid'. symmetry. exact (Names.path_of_sst_inj s _ _ Ep).
  - assert (Forall (λ lv, ksorted (level_entries (<[id := kvss]> g) lv.2)) (LsmStorageState.levels (state s))) as Hl.
    { apply Forall_forall. intros lv Hlv. rewrite (level_entries_mono g).
      - by eapply Forall_forall in eo_levels.
      - by apply insert_subseteq.
      - intros id' Hid'. destruct (eo_tables id') as (? & ? & ? & []); [|by eexists].
        by eapply ids_of_level. }
    rewrite flushed_levels. destruct (CompactionController.flush_to_l0 _); [done|]. constructor; [|done].
    simpl. rewrite level_entries_cons, entries_of_insert. change (level_entries _ []) with (@nil kv).
    rewrite app_nil_r, Hkv. apply (mem_sorted w (LsmStorageOptions.enable_wal (options s)) (path_of_wal_val s)). rewrite Em, app_comm_cons in eo_mems.
    apply Forall_app in eo_mems as [_ Hm]. by apply Forall_inv in Hm.
  - change (compaction_controller (flushed s id t)) with (compaction_controller s).
    intros Hb. rewrite flushed_l0, Hb. by apply eo_tiers.
  - rewrite Eids. rewrite Emi, <-(assoc_L (++)) in eo_nodup. exact eo_nodup.
  - intros id' Hin. apply eo_fresh. rewrite Emi. destruct Hin as [Hin|Hin]; [left; set_solver|].
    destruct (decide (id' = id)) as [->|Hid']; [left; set_solver|]. right. by rewrite lookup_insert_ne in Hin.
  - intros id' Hin. rewrite lookup_insert_ne by (intros E'; by apply (Hne' _ Hin)). apply eo_unused. rewrite Emi. set_solver.
Qed.

Lemma destroy_spec w s m : mem_ok w s m → runs (destroy_memtable m) w (λ w' _, cache w' = cache w ∧
  ∀ p, p ≠ path_of_wal_val s (MemTable.id_ m) → files w' !! p = files w !! p).
Proof.
  intros [_ _ _ Hw]. unfold destroy_memtable. destruct (MemTable.wal_ m) as [l|]; [|by apply runs_ret].
  destruct (Hw l eq_refl) as (Hp & rs & (buf & file & Hfp & _) & _).
  eexists _, _. split; [done|]. split; [done|]. intros p Hne. unfold Wal.close. rewrite Hfp. unfold Wal.fflush. simpl.
  by rewrite Hp, lookup_insert_ne.
Qed.

(** What [force_flush_next_imm_memtable] does: nothing, or the oldest immutable
    memtable becomes a table. *)
Definition flush_result g w s w' s' : Prop :=
  (LsmStorageState.imm_memtables (state s) = [] ∧ s' = s ∧ w' = w) ∨
  ∃ imms m t kvss, LsmStorageState.imm_memtables (state s) = imms ++ [m] ∧
    state s' = state (flushed s (MemTable.id_ m) t) ∧ mjoin kvss = MemTable.map_ m ∧
    engine_ok (<[MemTable.id_ m := kvss]> g) w' s' ∧ g !! MemTable.id_ m = None ∧
    evolves [ManifestRecord.Flush (MemTable.id_ m)] w s w' s' ∧ tables_kept [MemTable.id_ m] w s w' ∧ next_sst_id s' = next_sst_id s.

Lemma flush_spec g w s : engine_ok g w s → room s →
  (∀ m, last (LsmStorageState.imm_memtables (state s)) = Some m → fits (MemTable.map_ m)) →
  runs (force_flush_next_imm_memtable s) w (λ w' s', flush_result g w s w' s').
Proof.
  intros Hok Hroom Hfits. unfold force_flush_next_imm_memtable. destruct (last _) as [m|] eqn:Hlast; cycle 1.
  { apply last_None in Hlast. apply runs_ret. by left. }
  specialize (Hfits m eq_refl). apply last_Some in Hlast as [imms E].
  assert (mem_ok w s m ∧ MemTable.map_ m ≠ [] ∧ MemTable.id_ m ∈ mem_ids (state s)) as (Hm & Hne & Hin).
  { pose proof (eo_mems _ _ _ Hok) as Hms. pose proof (eo_imms _ _ _ Hok) as His. unfold mem_ids, memtables in *.
    rewrite E in *. rewrite app_comm_cons in *. apply Forall_app in Hms as [_ Hms%Forall_inv].
    apply Forall_app in His as [_ His%Forall_inv]. split_and!; [done..|]. rewrite fmap_app. set_solver. }
  destruct (flush_fed m (SsTableBuilder.create (LsmStorageOptions.block_size (options s)) (LsmStorageOptions.compression (options s))) [])
    as (b & Hflush & Hfed); [exact (mem_sorted _ _ _ _ Hm)|exact (mem_entries _ _ _ _ Hm)|by apply TableBuilderSpec.create_fed, Hok|].
  eapply runs_bind; [apply (runs_lift _ _ (eq b)); by exists b|]. intros w0 b0 [-> <-].
  destruct (build_fits b _ (MemTable.id_ m) true (path_of_sst_val s (MemTable.id_ m)) (files w) Hfed)
    as (data & t & kvss & Hbuild & Hh & Hkv & Hid & Hc & Hlen & Hopen); [by rewrite app_nil_l|rewrite app_nil_l; exact (mem_sorted _ _ _ _ Hm)|by rewrite app_nil_l|].
  rewrite app_nil_l in Hkv.
  eapply runs_bind; [by eapply runs_on_fs|]. intros w1 t0 [-> ->]. cbv zeta.
  set (w1 := MkWorld _ _). change (set_state s _) with (flushed s (MemTable.id_ m) t).
  assert (engine_ok (<[MemTable.id_ m := kvss]> g) w1 (flushed s (MemTable.id_ m) t)) as Hok1 by (by eapply engine_flushed).
  eapply runs_bind.
  { apply (record_added (flushed s (MemTable.id_ m) t)); [apply Hok1|]. simpl.
    pose proof (eo_fresh _ _ _ Hok _ (or_introl Hin)). unfold ManifestRecordSpec.id_ok, room in *. lia. }
  intros w2 s2 Hrec. destruct (recorded_state _ _ _ _ _ Hrec) as [Hst Hnext].
  pose proof (engine_recorded _ _ _ _ _ _ Hok1 Hrec) as Hok2. apply evolves_recorded in Hrec as Hev. pose proof Hev as [Hpath _ _ _].
  assert (∀ p, p ≠ path_of_sst_val s (MemTable.id_ m) → p ≠ manifest_path (path s) → files w2 !! p = files w !! p) as Hf.
  { intros p Hp1 Hp2. destruct Hrec as (_ & _ & Hf & _). rewrite Hf by done. simpl. by rewrite lookup_insert_ne. }
  eapply runs_bind.
  { apply (destroy_spec w2 s m), (mem_ok_agree w), Hf; [done|by intros E'; apply (Names.path_sst_wal s (MemTable.id_ m) (MemTable.id_ m))|].
    apply Names.path_wal_manifest. }
  intros w3 [] [Hc3 Hf3]. apply runs_ret. right. exists imms, m, t, kvss. split_and!; [done|done|done| | | | |done]; cycle 3.
  { intros id Hid'. rewrite Hf3 by apply Names.path_sst_wal. apply Hf; [|apply Names.path_sst_manifest].
    intros E'%Names.path_of_sst_inj. subst. set_solver. }
  - apply (engine_agree _ w2); [done| |rewrite Hc3; apply Hok2].
    assert (path_of_sst_val s2 = path_of_sst_val s ∧ path_of_wal_val s2 = path_of_wal_val s) as [Ep Ep'].
    { unfold path_of_sst_val, path_of_wal_val. by rewrite Hpath. }
    unfold agree. rewrite Hst, Ep, Ep'. split; intros id' Hin'; apply Hf3; [apply Names.path_sst_wal|].
    intros E'%Names.path_wal_inj. subst id'.
    pose proof (eo_unused _ _ _ Hok2 _ ltac:(by rewrite Hst)) as Hn. by rewrite lookup_insert_eq in Hn.
  - by apply (eo_unused _ _ _ Hok).
  - destruct Hev as [_ Hev2 Hev3 Hlog]. split; [done..|]. intros rs (mf & Em & Epath & Hfd & Hfile).
    destruct (Hlog rs) as (mf' & Em' & Epath' & Hfd' & Hfile').
    { exists mf. split_and!; [done..|]. split; [done|]. simpl. rewrite lookup_insert_ne; [done|].
      rewrite Epath. apply Names.path_sst_manifest. }
    exists mf'. split_and!; [done..|]. split; [done|]. rewrite Hf3; [done|]. rewrite Epath', Hpath.
    intros E'. by apply (Names.path_wal_manifest s (MemTable.id_ m)).
Qed.

(** Flushing does not change the map. *)
Lemma flush_contents g w s w' s' : engine_ok g w s → flush_result g w s w' s' → ∃ g',
  g ⊆ g' ∧ engine_ok g' w' s' ∧ contents g' (state s') = contents g (state s).
Proof.
  intros Hok [(_ & -> & ->)|(imms & m & t & kvss & E & Hst & Hkv & Hok' & Hg & _)]; [by exists g|].
  exists (<[MemTable.id_ m := kvss]> g). split_and!; [by apply insert_subseteq|done|]. rewrite Hst.
  eapply contents_flushed; [done|by apply (eo_tiers _ _ _ Hok)|done|done|].
  intros id (? & ? & ? & [])%(eo_tables _ _ _ Hok). by eexists.
Qed.

(** ** Syncing the log *)
Lemma sync_spec g w s : engine_ok g w s → runs (sync s) w (λ w' s', engine_ok g w' s' ∧
  contents g (state s') = contents g (state s) ∧ evolves [] w s w' s' ∧ tables_kept [] w s w' ∧ next_sst_id s' = next_sst_id s ∧
  LsmStorageState.l0_sstables (state s') = LsmStorageState.l0_sstables (state s) ∧
  LsmStorageState.levels (state s') = LsmStorageState.levels (state s) ∧
  LsmStorageState.imm_memtables (state s') = LsmStorageState.imm_memtables (state s) ∧
  MemTable.map_ (LsmStorageState.memtable (state s')) = MemTable.map_ (LsmStorageState.memtable (state s)) ∧
  MemTable.id_ (LsmStorageState.memtable (state s')) = MemTable.id_ (LsmStorageState.memtable (state s))).
Proof.
  intros Hok. unfold sync. set (m := LsmStorageState.memtable (state s)).
  assert (mem_ok w s m) as Hm by (apply (Forall_inv (eo_mems _ _ _ Hok))).
  assert (∃ fs m', MemTable.sync_wal m (files w) = Ok (fs, (m', inl tt)) ∧ MemTable.id_ m' = MemTable.id_ m ∧
    MemTable.map_ m' = MemTable.map_ m ∧ (∀ p, p ≠ path_of_wal_val s (MemTable.id_ m) → fs !! p = files w !! p) ∧
    mem_ok (MkWorld fs (cache w)) s m') as (fs & m' & Hrun & Hid & Hmap & Hf & Hm').
  { destruct Hm as [Hon Hs He Hw]. unfold MemTable.sync_wal. destruct (MemTable.wal_ m) as [l|] eqn:El; cycle 1.
    - exists (files w), m. split_and!; [done..|]. split; [by rewrite El|done..|]. intros l. by rewrite El.
    - destruct (Hw l eq_refl) as (Hp & rs & Hlog & Hrs).
      destruct (WalSpec.sync_logged l (files w) rs Hlog) as (l' & Hsync & Hlog' & Hp').
      unfold mbind, eff_bind. rewrite Hsync. eexists _, _. split; [done|]. split_and!; [done|done| |].
      + intros p Hne. by rewrite lookup_insert_ne by (by rewrite Hp).
      + split; [done..|]. intros ? [= <-]. rewrite Hp'. split; [done|]. by exists rs. }
  eapply runs_bind; [by eapply runs_on_fs|]. intros w1 r [-> ->]. apply runs_ret. set (w1 := MkWorld fs (cache w)) in *.
  fold (with_memtable s m'). pose proof (eo_nodup _ _ _ Hok) as Hnd.
  assert (∀ m0, m0 ∈ LsmStorageState.imm_memtables (state s) → MemTable.id_ m0 ≠ MemTable.id_ m) as Hne.
  { intros m0 Hin E. unfold mem_ids, memtables in Hnd. apply NoDup_app in Hnd as [Hnd _].
    apply NoDup_cons in Hnd as [[] _]. fold m. rewrite <-E. by apply list_elem_of_fmap_2. }
  assert (engine_ok g w1 (with_memtable s m')) as Hok'.
  { destruct Hok. assert (mem_ids (state (with_memtable s m')) = mem_ids (state s)) as Hids.
    { unfold mem_ids, memtables. simpl. by rewrite Hid. }
    split; rewrite ?Hids; try done.
    - constructor; [done|]. apply Forall_cons in eo_mems as [_ Hi]. apply Forall_forall. intros m0 Hin.
      apply (mem_ok_agree w); [by eapply Forall_forall in Hi|]. apply Hf. intros E. apply (Hne m0 Hin). exact (Names.path_wal_inj s _ _ E).
    - intros id Hin. apply (table_ok_agree g w); [by apply eo_tables|]. apply Hf, (Names.path_sst_wal s). }
  split_and!; [done| | | |done..].
  - unfold contents, memtables. simpl. by rewrite Hmap.
  - apply evolves_same; [done..|]. apply Hf. intros E. by apply (Names.path_wal_manifest s (MemTable.id_ m)).
  - intros id _. apply Hf, (Names.path_sst_wal s).
Qed.

(** ** The flush at the end *)

(** Everything is in tables. *)
Definition drained (st : LsmStorageState.t) : Prop := MemTable.map_ (LsmStorageState.memtable st) = [] ∧ LsmStorageState.imm_memtables st = [].
End write.
