(* ===== verification/LsmGen.v ===== *)
(** * The output of a compaction: LsmStorageInner::compact_generate_sst_from_iter

    Whatever the iterator denotes ends up in new tables: cut where the builder
    reached its target size, in order, nothing lost and nothing repeated; going
    to the bottom, without the tombstones. *)
From S2P Require Import Prelude Endian Key Iterators Block BlockCache Double Bloom Table Sizes TableIterator Wal MemTable State Layers SimpleLeveled Tiered Leveled Compact Manifest LsmStorage LsmSpec.

(** A loop with a measure that its own data bounds. *)
Lemma runs_loop {S R} (step : S → eff World (S + R)) (J : nat → World → S → Prop) (Q : World → R → Prop) :
  (∀ n w s, J n w s → runs (step s) w (λ w' r,
     match r with inl s' => ∃ n', n' < n ∧ J n' w' s' | inr r => Q w' r end)) →
  ∀ fuel n w s, J n w s → n < fuel → runs (loop fuel step s) w Q.
Proof.
  intros Hstep fuel; induction fuel as [|fuel IH]; intros n w s HJ Hn; [lia|]. cbn [loop].
  eapply runs_bind; [by apply Hstep|]. intros w' [s'|r] Hr; [|by apply runs_ret].
  destruct Hr as (n' & Hlt & HJ'). eapply IH; [done|lia].
Qed.

Section gen.
Context `{!Zlib} `{!Snappy} `{!SnappyLaws} `{!SnappyBound} `{!Farmhash} `{!Libm} `{!LoopFuel}.
Import LsmStorageInner.
Implicit Types (g : ghost) (w : World) (s : LsmStorageInner.t) (l rest cur : list kv).

(** A new table and the entries of its blocks. *)
Abbreviation out_table := (SsTable.t * list (list kv))%type.

Definition built w s (x : out_table) : Prop := ∃ data, holds x.1 x.2 ∧ SsTable.block_cache x.1 = true ∧
  files w !! path_of_sst_val s (SsTable.id x.1) = Some data ∧ (Z.of_nat (length data) < 4294967296)%Z ∧
  SsTable.open (SsTable.id x.1) true (TableBuilderSpec.file_of data) = Ok x.1.

Definition out_entries (outs : list out_table) : list kv := mjoin ((λ x, mjoin x.2) <$> outs).

(** The entries that are written. *)
Definition kept (bottom : bool) l : list kv := if bottom then filter (λ e, e.2 ≠ []) l else l.

Lemma kept_cons bottom k v l :
  kept bottom ((k, v) :: l) = if bottom && KeySlice.is_empty v then kept bottom l else (k, v) :: kept bottom l.
Proof.
  unfold kept. destruct bottom; [|done]. destruct v.
  - rewrite filter_cons_False by (by intros []). done.
  - rewrite filter_cons_True by done. done.
Qed.

Lemma kept_sorted bottom l : ksorted l → ksorted (kept bottom l).
Proof. destruct bottom; [apply ksorted_filter|done]. Qed.

(** The tables so far, from the id [n0] on, in the files of [w]; the rest of the
    files is that of [w0]. *)
Record progress g w0 s n0 (outs : list out_table) w : Prop := {
  pg_ids : SsTable.id <$> outs.*1 = seq n0 (length outs);
  pg_built : Forall (built w s) outs;
  pg_cache : BlockCacheSpec.cache_ok (blocks g) (cache w);
  pg_files p : (∀ id, n0 ≤ id < n0 + length outs → p ≠ path_of_sst_val s id) → files w !! p = files w0 !! p }.

Lemma progress_none g w0 s n0 : BlockCacheSpec.cache_ok (blocks g) (cache w0) → progress g w0 s n0 [] w0.
Proof. by split. Qed.

(** Finishing a builder: one more table. *)
Lemma progress_snoc g w0 s n0 outs w b cur : progress g w0 s n0 outs w → TableBuilderSpec.fed b cur →
  cur ≠ [] → ksorted cur → fits cur → ∃ t kvss w', 
  SsTableBuilder.build b (n0 + length outs) true (path_of_sst_val s (n0 + length outs)) (files w) = Ok (files w', t) ∧
  cache w' = cache w ∧ mjoin kvss = cur ∧ progress g w0 s n0 (outs ++ [(t, kvss)]) w'.
Proof.
  intros [Hids Hb Hc Hf] Hfed Hne Hs Hfits.
  destruct (build_fits b cur (n0 + length outs) true (path_of_sst_val s (n0 + length outs)) (files w) Hfed Hne Hs Hfits)
    as (data & t & kvss & Hbuild & Hh & Hkv & Hid & Hbc & Hlen & Hopen).
  exists t, kvss, (MkWorld (<[path_of_sst_val s (n0 + length outs) := data]> (files w)) (cache w)).
  split_and!; [done..|]. split; simpl.
  - rewrite !fmap_app, Hids, length_app. simpl. by rewrite Hid, Nat.add_1_r, seq_S.
  - apply Forall_app. split.
    + apply Forall_forall. intros x Hx. destruct (proj1 (Forall_forall _ _) Hb x Hx) as (d & H').
      exists d. simpl. rewrite lookup_insert_ne; [done|]. intros E%Names.path_of_sst_inj.
      assert (SsTable.id x.1 ∈ SsTable.id <$> outs.*1) as Hin by (by apply list_elem_of_fmap_2, list_elem_of_fmap_2).
      rewrite Hids, elem_of_seq in Hin. lia.
    + constructor; [|done]. exists data. simpl. rewrite Hid, lookup_insert_eq. done.
  - done.
  - intros p Hp. rewrite length_app in Hp. simpl in Hp. rewrite lookup_insert_ne.
    + apply Hf. intros id Hid'. apply Hp. lia.
    + intros E. apply (Hp (n0 + length outs)); [lia|done].
Qed.

Section loop.
Context {I : Type} (g : ghost) `{!StorageIterator BlockCache.t I}.
#[local] Abbreviation Inv := (BlockCacheSpec.cache_ok (blocks g)).
Context `{!IteratorSpec BlockCache.t I Inv} (w0 : World) (s : LsmStorageInner.t) (bottom : bool) (out : list kv).
#[local] Abbreviation denotes := (denotes (Inv:=Inv)).
Context (Hbs : LsmStorageOptions.block_size (options s) ≤ Z.to_nat 65536) (Hout : ksorted out) (Hfits : fits out).
#[local] Abbreviation n0 := (next_sst_id s).
Implicit Types (v : gen I).

(** The variables of the loop when [rest] is left of what becomes [out]. *)
Definition gen_ok w v rest : Prop := ∃ outs cur,
  g_new_sst v = outs.*1 ∧ g_next_sst_id v = n0 + length outs ∧ progress g w0 s n0 outs w ∧
  denotes (g_iter v) rest ∧ Forall kv_ok rest ∧
  match g_builder v with Some b => TableBuilderSpec.fed b cur | None => cur = [] end ∧
  out = out_entries outs ++ cur ++ kept bottom rest.

(** A part of the output fits a table. *)
Lemma part_fits l1 cur l2 : out = l1 ++ cur ++ l2 → ksorted cur ∧ fits cur.
Proof.
  intros E. pose proof Hout as Hs. rewrite E in Hs.
  apply ksorted_app in Hs as (_ & (Hs & _ & _)%ksorted_app & _). split; [done|].
  apply (fits_sub cur out); [|rewrite E; set_solver|done].
  apply ksorted_NoDup, NoDup_fmap_1 in Hs. done.
Qed.

Lemma out_entries_snoc outs t kvss : out_entries (outs ++ [(t, kvss)]) = out_entries outs ++ mjoin kvss.
Proof. unfold out_entries. rewrite fmap_app, join_app. simpl. by rewrite app_nil_r. Qed.

Lemma gen_build_spec w v b cur outs rest : g_new_sst v = outs.*1 → g_next_sst_id v = n0 + length outs →
  progress g w0 s n0 outs w → TableBuilderSpec.fed b cur → cur ≠ [] →
  out = out_entries outs ++ cur ++ rest →
  runs (gen_build s v b) w (λ w' v', ∃ outs', g_new_sst v' = outs'.*1 ∧ g_next_sst_id v' = n0 + length outs' ∧
    progress g w0 s n0 outs' w' ∧ g_iter v' = g_iter v ∧ g_builder v' = None ∧ out = out_entries outs' ++ rest).
Proof.
  intros Hnew Hid Hp Hfed Hne E. destruct (part_fits _ _ _ E) as [Hs Hf]. unfold gen_build. cbv zeta. rewrite Hid, Hnew.
  destruct (progress_snoc _ _ _ _ _ _ _ _ Hp Hfed Hne Hs Hf) as (t & kvss & w' & Hbuild & Hc & Hkv & Hp').
  eapply runs_bind; [by eapply runs_on_fs|]. intros w1 r [-> ->]. rewrite <-Hc.
  replace (MkWorld (files w') (cache w')) with w' by (by destruct w').
  apply runs_ret. exists (outs ++ [(t, kvss)]). simpl.
  split_and!; [by rewrite fmap_app|rewrite length_app; simpl; lia|done..|].
  by rewrite out_entries_snoc, Hkv, <-(assoc_L (++)).
Qed.

Lemma gen_step_spec w v rest : gen_ok w v rest → runs (gen_step s bottom v) w (λ w' r, match r with
  | inl v' => ∃ rest', length rest' < length rest ∧ gen_ok w' v' rest'
  | inr v' => gen_ok w' v' [] end).
Proof.
  intros (outs & cur & Hnew & Hid & Hp & Hd & Hok & Hb & E). unfold gen_step. destruct rest as [|[k v0] rest].
  { rewrite (denotes_valid_nil _ Hd). apply runs_ret. exists outs, cur. done. }
  rewrite (denotes_valid_cons _ _ _ Hd). cbv zeta. apply Forall_cons in Hok as [Hkv Hok].
  set (b0 := match g_builder v with Some b => b | None => _ end).
  assert (TableBuilderSpec.fed b0 cur) as Hb0.
  { unfold b0. destruct (g_builder v); [done|]. subst cur. by apply TableBuilderSpec.create_fed. }
  eapply runs_bind; [apply (runs_lift _ _ (eq v0)); exists v0; split; [by eapply denotes_value|done]|].
  intros w1 ? [-> <-]. rewrite kept_cons in E.
  eapply (runs_bind _ _ _ (λ w' b, w' = w ∧ ∃ cur', TableBuilderSpec.fed b cur' ∧
    out = out_entries outs ++ cur' ++ kept bottom rest)).
  { destruct (bottom && KeySlice.is_empty v0).
    - apply runs_ret. split; [done|]. by exists cur.
    - eapply runs_bind; [apply (runs_lift _ _ (eq k)); exists k; split; [by eapply denotes_key|done]|].
      intros w1 ? [-> <-]. eapply runs_mono; [apply runs_lift, (TableBuilderSpec.add_fed b0 cur k v0 Hb0 Hkv)|].
      intros w1 b [-> Hfed]. split; [done|]. exists (cur ++ [(k, v0)]). split; [done|]. by rewrite E, <-(assoc_L (++)). }
  intros w1 b [-> (cur' & Hfed & E')].
  eapply runs_bind; [eapply runs_on_cache; [by eapply denotes_next|apply Hp]|]. intros w1 it [[Hf Hc] Hd'].
  assert (progress g w0 s n0 outs w1) as Hp1.
  { destruct Hp as [Hids Hbt _ Hfs]. split; [done| |done|by intros; rewrite Hf; apply Hfs].
    eapply Forall_impl; [exact Hbt|]. intros x (data & ?). exists data. by rewrite Hf. }
  rewrite (TableBuilderSpec.fed_is_empty _ _ Hfed). case_bool_decide as Ecur; simpl.
  { apply runs_ret. exists rest. split; [lia|]. exists outs, cur'. done. }
  case_bool_decide; [|apply runs_ret; exists rest; split; [lia|]; by exists outs, cur'].
  eapply runs_bind; [by eapply (gen_build_spec w1 (Gen _ _ _ _))|].
  intros w2 v' (outs' & Hnew' & Hid' & Hp' & Hit & Hbn & E''). apply runs_ret. exists rest. split; [simpl; lia|].
  exists outs', []. rewrite Hit, Hbn. done.
Qed.

(** The last table. *)
Lemma gen_finish_spec w1 v : gen_ok w1 v [] → runs (gen_finish s v) w1 (λ w' v', ∃ outs', g_new_sst v' = outs'.*1 ∧
  g_next_sst_id v' = n0 + length outs' ∧ progress g w0 s n0 outs' w' ∧ out_entries outs' = out).
Proof.
  intros (outs & cur & Hnew & Hid & Hp & _ & _ & Hb & E). unfold gen_finish.
  assert (kept bottom [] = []) as Ek by (by destruct bottom). rewrite Ek in E.
  assert (cur = [] → ∃ outs', g_new_sst v = outs'.*1 ∧ g_next_sst_id v = n0 + length outs' ∧
    progress g w0 s n0 outs' w1 ∧ out_entries outs' = out) as Hdone.
  { intros ->. exists outs. split_and!; [done..|]. by rewrite E, app_nil_r. }
  destruct (g_builder v) as [b|]; [|apply runs_ret; by auto].
  rewrite (TableBuilderSpec.fed_is_empty _ _ Hb). case_bool_decide as Ecur; simpl; [apply runs_ret; by auto|].
  eapply runs_mono; [by eapply gen_build_spec|].
  intros w' v' (outs' & ? & ? & ? & _ & _ & E'). exists outs'. split_and!; [done..|]. by rewrite app_nil_r in E'.
Qed.

(** The tables hold exactly the entries that are kept, under the ids from the
    counter on. *)
Lemma generate_spec (it : I) l : out = kept bottom l → denotes it l → Forall kv_ok l → Inv (cache w0) → S (length l) < loop_fuel →
  runs (compact_generate_sst_from_iter s it bottom) w0 (λ w' r, ∃ outs,
    r = (set_next_sst_id s (n0 + length outs), outs.*1) ∧ progress g w0 s n0 outs w' ∧ out_entries outs = out).
Proof.
  intros Eout Hd Hok Hc Hfuel. unfold compact_generate_sst_from_iter.
  eapply runs_bind.
  { apply (runs_loop _ (λ n w v, ∃ rest, length rest ≤ n ∧ gen_ok w v rest) (λ w v, gen_ok w v []) ) with (n := length l).
    - intros n w v (rest & Hn & Hgen). eapply runs_mono; [by apply (gen_step_spec w v rest)|].
      intros w' [v'|v']; [|done]. intros (rest' & Hlt & Hgen'). exists (length rest'). split; [lia|]. by exists rest'.
    - exists l. split; [done|]. exists [], []. simpl. rewrite Nat.add_0_r. split_and!; [done|done|by apply progress_none|done..].
    - lia. }
  intros w1 v Hgen. eapply runs_bind; [by apply gen_finish_spec|].
  intros w2 v2 (outs' & Hnew' & Hid' & Hp' & E'). apply runs_ret. exists outs'. by rewrite Hnew', Hid'.
Qed.
End loop.
End gen.
