(* ===== verification/LsmCompact.v ===== *)
(** * Compaction of the engine: LsmStorageInner::compact, trigger_compaction and
      force_full_compaction

    [compact] merges the input tables of a task into new ones; the second part
    installs them.  The strategies' theorems say that the ids end up in the right
    places; here the tables, the files and the map of the state come in. *)
From S2P Require Import Prelude Endian Key Iterators Block BlockCache Double Bloom Table Sizes TableIterator Wal MemTable State Layers SimpleLeveled Tiered Leveled Compact Manifest LsmStorage LsmSpec LsmRead LsmWrite LsmGen.

(** ** Merging *)
Section compact.
Context `{!Zlib} `{!Snappy} `{!SnappyLaws} `{!SnappyBound} `{!Farmhash} `{!Libm} `{!LoopFuel}.
Import LsmStorageInner.
Implicit Types (g : ghost) (w : World) (s : LsmStorageInner.t) (ids : list nat).

Definition task_inputs (task : CompactionTask.t) : list nat :=
  match task with
  | CompactionTask.ForceFull t => ForceFullCompactionTask.l0_sstables t ++ ForceFullCompactionTask.l1_sstables t
  | CompactionTask.Simple t => SimpleLeveledCompactionTask.upper_level_sst_ids t ++ SimpleLeveledCompactionTask.lower_level_sst_ids t
  | CompactionTask.Leveled t => LeveledCompactionTask.upper_level_sst_ids t ++ LeveledCompactionTask.lower_level_sst_ids t
  | CompactionTask.Tiered t => level_ids (TieredCompactionTask.tiers t)
  end.

(** The inputs that are read by concatenation are runs. *)
Definition task_runs g (task : CompactionTask.t) : Prop :=
  let levels (upper_level : option nat) upper lower :=
    ksorted (level_entries g lower) ∧ (upper_level ≠ None → ksorted (level_entries g upper)) in
  match task with
  | CompactionTask.ForceFull t => ksorted (level_entries g (ForceFullCompactionTask.l1_sstables t))
  | CompactionTask.Simple t => levels (SimpleLeveledCompactionTask.upper_level t)
      (SimpleLeveledCompactionTask.upper_level_sst_ids t) (SimpleLeveledCompactionTask.lower_level_sst_ids t)
  | CompactionTask.Leveled t => levels (LeveledCompactionTask.upper_level t)
      (LeveledCompactionTask.upper_level_sst_ids t) (LeveledCompactionTask.lower_level_sst_ids t)
  | CompactionTask.Tiered t => Forall (λ tier, ksorted (level_entries g tier.2)) (TieredCompactionTask.tiers t)
  end.

Section sources.
Context (g : ghost) (st : LsmStorageState.t).
#[local] Abbreviation Inv := (BlockCacheSpec.cache_ok (blocks g)).
#[local] Abbreviation denotes := (denotes (Inv:=Inv)).
#[local] Abbreviation open ids := (∀ id, id ∈ ids → ∃ t, readable g st id t).

Lemma merged_stored ids : merged (entries_of g <$> ids) = stored (content g) ids.
Proof. unfold merged, stored. by rewrite <-list_fmap_compose. Qed.

Lemma open_tables_run ids : open ids → ksorted (level_entries g ids) →
  SstConcatIteratorSpec.run (blocks g) (open_tables st ids) (entries_of g <$> ids).
Proof.
  intros Ho Hs. split; [|done]. clear Hs. induction ids as [|id ids IH]; [constructor|].
  destruct (Ho id) as (t & Et & kvss & Hh & Hc & He); [set_solver|].
  unfold open_tables in *. simpl. rewrite Et. constructor; [by exists kvss|]. apply IH. intros; apply Ho; set_solver.
Qed.

Lemma seek_all_first_spec ids : open ids →
  wp Inv (seek_all_first (open_tables st ids)) (λ its, Forall2 denotes its (entries_of g <$> ids)).
Proof.
  induction ids as [|id ids IH]; intros Ho; [by apply wp_ret|].
  destruct (Ho id) as (t & Et & kvss & Hh & Hc & He); [set_solver|].
  unfold open_tables in *. simpl. rewrite Et. simpl.
  eapply wp_bind; [by eapply SsTableIteratorSpec.sst_iterator_seek_to_first_spec|]. intros it Hit.
  eapply wp_bind; [apply IH; intros; apply Ho; set_solver|]. intros its Hits. apply wp_ret.
  constructor; [|done]. rewrite He. exact Hit.
Qed.

Lemma concat_first_spec ids : open ids → ksorted (level_entries g ids) →
  wp Inv (SstConcatIterator.create_and_seek_to_first (open_tables st ids)) (λ it, denotes it (level_entries g ids)).
Proof. intros Ho Hs. by apply SstConcatIteratorSpec.concat_iterator_seek_to_first_spec, open_tables_run. Qed.

Lemma seek_all_tiers_spec (tiers : list (nat * list nat)) : open (level_ids tiers) →
  Forall (λ tier, ksorted (level_entries g tier.2)) tiers →
  wp Inv (seek_all_tiers st tiers) (λ its, Forall2 denotes its ((λ tier, level_entries g tier.2) <$> tiers)).
Proof.
  induction tiers as [|[x ids] tiers IH]; intros Ho Hs; simpl; [by apply wp_ret|].
  rewrite level_ids_cons in Ho. apply Forall_cons in Hs as [Hs0 Hs].
  eapply wp_bind; [apply concat_first_spec; [intros; apply Ho; set_solver|done]|]. intros it Hit.
  eapply wp_bind; [apply IH; [intros; apply Ho; set_solver|done]|]. intros its Hits. apply wp_ret. by constructor.
Qed.

Lemma merged_tiers (tiers : list (nat * list nat)) :
  merged ((λ tier, level_entries g tier.2) <$> tiers) = stored (content g) (level_ids tiers).
Proof.
  induction tiers as [|[x ids] tiers IH]; [done|].
  rewrite fmap_cons, merged_cons, IH, level_ids_cons, stored_app. cbn [snd]. by rewrite (stored_level g ids).
Qed.

(** The entries of open tables fit the format. *)
Lemma stored_entries_ok ids : open ids → Forall kv_ok (entries (stored (content g) ids)).
Proof.
  intros Ho. apply Forall_forall. intros [k v] Hin. apply kv_map_lookup in Hin; [|apply entries_sorted].
  rewrite kv_map_entries in Hin. induction ids as [|id ids IH]; [by rewrite stored_nil, lookup_empty in Hin|].
  change (stored _ _) with (content g id ∪ stored (content g) ids) in Hin.
  apply lookup_union_Some_raw in Hin as [Hin|[_ Hin]]; [|apply IH; [intros; apply Ho; set_solver|done]].
  destruct (Ho id) as (t & _ & kvss & Hh & _ & He); [set_solver|]. unfold content in Hin. rewrite He in Hin.
  apply kv_map_lookup in Hin; [|by eapply holds_sorted]. apply list_elem_of_join in Hin as (kvs & Hin & Hkvs).
  pose proof (proj1 (Forall_forall _ _) (holds_wf _ _ Hh) _ Hkvs) as Hwf.
  by eapply (proj1 (Forall_forall _ _) (block_wf_ok _ Hwf)).
Qed.
End sources.

(** The result of [compact] on the tables [inputs]. *)
Definition compacted g w s inputs bottom w' (r : LsmStorageInner.t * list SsTable.t) : Prop := ∃ outs,
  r = (set_next_sst_id s (next_sst_id s + length outs), outs.*1) ∧ progress g w s (next_sst_id s) outs w' ∧
  out_entries outs = kept bottom (entries (stored (content g) inputs)).

Lemma generate_stored {I} `{!StorageIterator BlockCache.t I} g
    `{!IteratorSpec BlockCache.t I (BlockCacheSpec.cache_ok (blocks g))} w s (it : I) inputs bottom :
  LsmStorageOptions.block_size (options s) ≤ Z.to_nat 65536 → BlockCacheSpec.cache_ok (blocks g) (cache w) →
  (∀ id, id ∈ inputs → ∃ t, readable g (state s) id t) →
  fits (entries (stored (content g) inputs)) → S (size (stored (content g) inputs)) < loop_fuel →
  denotes (Inv:=BlockCacheSpec.cache_ok (blocks g)) it (entries (stored (content g) inputs)) →
  runs (compact_generate_sst_from_iter s it bottom) w (λ w' r, compacted g w s inputs bottom w' r).
Proof.
  intros Hbs Hc Ho Hfits Hfuel Hit. pose proof (entries_sorted (stored (content g) inputs)) as Hs.
  apply (generate_spec g w s bottom (kept bottom (entries (stored (content g) inputs)))) with (entries (stored (content g) inputs)); try done.
  - by apply kept_sorted.
  - apply (fits_sub _ (entries (stored (content g) inputs))); [|by destruct bottom; [intros ? [? ?]%list_elem_of_filter|]|done].
    eapply NoDup_fmap_1, ksorted_NoDup, kept_sorted, Hs.
  - by apply (stored_entries_ok g (state s)).
  - by rewrite length_entries.
Qed.

Lemma compacted_same g w w1 s inputs bottom w' r : same_files (blocks g) w w1 →
  compacted g w1 s inputs bottom w' r → compacted g w s inputs bottom w' r.
Proof.
  intros [Hf _] (outs & -> & [] & Ho). exists outs. split_and!; [done| |done]. split; [done..|].
  intros p Hp. rewrite <-Hf. auto.
Qed.

(** Reading through the cache before generating. *)
Lemma compacted_bind {A} g w s inputs bottom (m : eff BlockCache.t A) f (P : A → Prop) :
  BlockCacheSpec.cache_ok (blocks g) (cache w) → wp (BlockCacheSpec.cache_ok (blocks g)) m P →
  (∀ w1 a, BlockCacheSpec.cache_ok (blocks g) (cache w1) → P a → runs (f a) w1 (λ w' r, compacted g w1 s inputs bottom w' r)) →
  runs (on_cache m ≫= f) w (λ w' r, compacted g w s inputs bottom w' r).
Proof.
  intros Hc Hm Hf. eapply runs_bind; [by eapply runs_on_cache|]. intros w1 a [Hsame Ha].
  eapply runs_mono; [apply Hf; [apply Hsame|done]|]. intros w' r. by apply compacted_same.
Qed.

Section task.
Context (g : ghost) (s : LsmStorageInner.t) (inputs : list nat) (bottom : bool).
#[local] Abbreviation Inv := (BlockCacheSpec.cache_ok (blocks g)).
#[local] Abbreviation denotes := (denotes (Inv:=Inv)).
Context (Hbs : LsmStorageOptions.block_size (options s) ≤ Z.to_nat 65536)
  (Ho : ∀ id, id ∈ inputs → ∃ t, readable g (state s) id t)
  (Hfits : fits (entries (stored (content g) inputs))) (Hfuel : S (size (stored (content g) inputs)) < loop_fuel).

(** The upper source, then the lower one. *)
Lemma two_sources_spec {A B} `{!StorageIterator BlockCache.t A} `{!IteratorSpec BlockCache.t A Inv}
    `{!StorageIterator BlockCache.t B} `{!IteratorSpec BlockCache.t B Inv} w (a : A) (b : B) la lb upper lower :
  inputs = upper ++ lower → Inv (cache w) → denotes a la → denotes b lb →
  kv_map la = stored (content g) upper → kv_map lb = stored (content g) lower →
  runs (two_merge ← on_cache (TwoMergeIterator.create a b); compact_generate_sst_from_iter s two_merge bottom) w
    (λ w' r, compacted g w s inputs bottom w' r).
Proof.
  intros Ei Hc Ha Hb Ela Elb. eapply compacted_bind; [done|by apply TwoMergeIterator.two_merge_create_repr|].
  intros w1 it Hc1 Hit. apply (generate_stored g w1 s it inputs bottom); try done. rewrite Ei, stored_app, <-Ela, <-Elb. exact Hit.
Qed.

Lemma merge_first_spec ids (its : list SsTableIterator.t) : Forall2 denotes its (entries_of g <$> ids) →
  wp Inv (MergeIterator.create its) (λ it, denotes it (entries (stored (content g) ids))).
Proof.
  intros Hits. rewrite <-merged_stored. eapply wp_mono; [by apply MergeIterator.merge_create_repr|].
  intros it Hit. exact Hit.
Qed.

Lemma compact_l0_spec w upper lower : inputs = upper ++ lower → Inv (cache w) → ksorted (level_entries g lower) →
  runs (compact_l0 s upper lower bottom) w (λ w' r, compacted g w s inputs bottom w' r).
Proof.
  intros Ei Hc Hs. unfold compact_l0. cbv zeta.
  eapply compacted_bind; [done|apply (seek_all_first_spec g); intros; apply Ho; set_solver|]. intros w1 its Hc1 Hits.
  eapply compacted_bind; [done|by apply (merge_first_spec upper)|]. intros w2 it Hc2 Hit.
  eapply compacted_bind; [done|apply (concat_first_spec g); [intros; apply Ho; set_solver|done]|]. intros w3 it' Hc3 Hit'.
  eapply two_sources_spec; [done|done|exact Hit|exact Hit'|by rewrite kv_map_entries|by rewrite stored_level].
Qed.

Lemma compact_levels_spec w upper_level upper lower : inputs = upper ++ lower → Inv (cache w) →
  ksorted (level_entries g lower) → (upper_level ≠ None → ksorted (level_entries g upper)) →
  runs (compact_levels s upper_level upper lower bottom) w (λ w' r, compacted g w s inputs bottom w' r).
Proof.
  intros Ei Hc Hs Hu. unfold compact_levels. cbv zeta.
  eapply compacted_bind; [done|apply (concat_first_spec g); [intros; apply Ho; set_solver|done]|]. intros w1 it' Hc1 Hit'.
  destruct upper_level as [x|].
  - eapply compacted_bind; [done|apply (concat_first_spec g); [intros; apply Ho; set_solver|by apply Hu]|]. intros w2 it Hc2 Hit.
    eapply two_sources_spec; [done|done|exact Hit|exact Hit'|by rewrite stored_level..].
  - eapply compacted_bind; [done|apply (seek_all_first_spec g); intros; apply Ho; set_solver|]. intros w2 its Hc2 Hits.
    eapply compacted_bind; [done|by apply (merge_first_spec upper)|]. intros w3 it Hc3 Hit.
    eapply two_sources_spec; [done|done|exact Hit|exact Hit'|by rewrite kv_map_entries|by rewrite stored_level].
Qed.

Lemma compact_tiers_spec w tiers : inputs = level_ids tiers → Inv (cache w) →
  Forall (λ tier, ksorted (level_entries g tier.2)) tiers →
  runs (tier_iters ← on_cache (seek_all_tiers (state s) tiers); merge_iter ← on_cache (MergeIterator.create tier_iters);
        compact_generate_sst_from_iter s merge_iter bottom) w (λ w' r, compacted g w s inputs bottom w' r).
Proof.
  intros Ei Hc Hs.
  eapply compacted_bind; [done|apply (seek_all_tiers_spec g); [intros; apply Ho; by rewrite Ei|done]|]. intros w1 its Hc1 Hits.
  eapply compacted_bind; [done|exact (MergeIterator.merge_create_repr _ _ Hits)|]. intros w2 it Hc2 Hit.
  apply (generate_stored g w2 s it inputs bottom); try done. rewrite Ei, <-merged_tiers. exact Hit.
Qed.
End task.

(** [compact] merges the inputs of any task, newest first. *)
Lemma compact_spec g w s task : LsmStorageOptions.block_size (options s) ≤ Z.to_nat 65536 →
  BlockCacheSpec.cache_ok (blocks g) (cache w) → (∀ id, id ∈ task_inputs task → ∃ t, readable g (state s) id t) →
  task_runs g task → fits (entries (stored (content g) (task_inputs task))) →
  S (size (stored (content g) (task_inputs task))) < loop_fuel →
  runs (compact s task) w (λ w' r, compacted g w s (task_inputs task) (CompactionTask.compact_to_bottom_level task) w' r).
Proof.
  intros Hbs Hc Ho Hr Hfits Hfuel. unfold compact. cbv zeta. destruct task as [t|t|t|t]; cbn [task_inputs task_runs] in *.
  - destruct Hr. by apply compact_levels_spec.
  - by apply compact_tiers_spec.
  - destruct Hr. by apply compact_levels_spec.
  - by eapply compact_l0_spec.
Qed.
End compact.
