(* ===== verification/LsmInstall.v ===== *)
(** * Installing a compaction: the second parts of LsmStorageInner::trigger_compaction
      and LsmStorageInner::force_full_compaction

    The new tables are added, the strategy rearranges the ids, the tables that
    left are closed and their files removed.  The invariant and the map of the
    state survive; no file that is still needed is removed. *)
From S2P Require Import Prelude Endian Key Iterators Block BlockCache Double Bloom Table Sizes TableIterator Wal MemTable State Layers SimpleLeveled Tiered Leveled Compact Manifest LsmStorage LsmSpec LsmRead LsmWrite LsmGen LsmCompact.

(** ** Growing the record of what tables hold *)
Lemma blocks_mono (g G : ghost) : g ⊆ G → blocks g ⊆ blocks G.
Proof.
  intros Hsub. apply map_subseteq_spec. intros [id i] b. unfold blocks. rewrite !lookup_map_uncurry, !lookup_fmap.
  destruct (g !! id) as [kvss|] eqn:E; simpl; [|done]. by rewrite (lookup_weaken _ _ _ _ E Hsub).
Qed.

Section install.
Context `{!Zlib} `{!Snappy} `{!SnappyLaws} `{!SnappyBound} `{!Farmhash} `{!Libm} `{!Json} `{!JsonLaws}.
Import LsmStorageInner.
Implicit Types (g G : ghost) (w : World) (s : LsmStorageInner.t) (outs : list (SsTable.t * list (list kv))).

Lemma engine_some g w s id : engine_ok g w s → id ∈ ids_of (state s) → is_Some (g !! id).
Proof. intros Hok (? & ? & ? & [])%(eo_tables _ _ _ Hok). by eexists. Qed.

Lemma contents_mono g G w s : engine_ok g w s → g ⊆ G → contents G (state s) = contents g (state s).
Proof. intros Hok Hsub. unfold contents. rewrite (stored_mono g G); [done|done|]. intros id Hid. by eapply engine_some. Qed.

Lemma engine_grow g G w s : engine_ok g w s → g ⊆ G →
  (∀ id, is_Some (G !! id) → g !! id = None → (id ∉ mem_ids (state s)) ∧ id < next_sst_id s) → engine_ok G w s.
Proof.
  intros Hok Hsub Hnew. assert (∀ id, id ∈ ids_of (state s) → is_Some (g !! id)) as Hsome by (intros id; by apply (engine_some g w)). destruct Hok. split; try done.
  - eapply BlockCacheSpec.cache_ok_mono; [by apply blocks_mono|done].
  - intros id (t & kvss & data & [])%eo_tables. exists t, kvss, data. split; try done. by eapply lookup_weaken.
  - apply Forall_forall. intros lv Hlv. rewrite (level_entries_mono g G); [by eapply Forall_forall in eo_levels|done|].
    intros id Hid. apply Hsome. by eapply ids_of_level.
  - intros id [Hin|Hin]; [by apply eo_fresh; left|]. destruct (g !! id) eqn:E; [apply eo_fresh; right; by eexists|by apply Hnew].
  - intros id Hin. apply eq_None_not_Some. intros HG. destruct (Hnew id HG); [by apply eo_unused|done].
Qed.

(** ** The tables of an output *)
Definition out_ids outs : list nat := SsTable.id <$> outs.*1.
Definition out_ghost outs : ghost := list_to_map ((λ x, (SsTable.id x.1, x.2)) <$> outs).

Lemma out_ghost_lookup outs x : NoDup (out_ids outs) → x ∈ outs → out_ghost outs !! SsTable.id x.1 = Some x.2.
Proof.
  intros Hnd Hx. apply elem_of_list_to_map_1; [|by apply (list_elem_of_fmap_2 (λ x, (SsTable.id x.1, x.2)))].
  rewrite <-list_fmap_compose. unfold out_ids in Hnd. by rewrite <-list_fmap_compose in Hnd.
Qed.

Lemma out_ghost_ids outs id : is_Some (out_ghost outs !! id) → id ∈ out_ids outs.
Proof.
  intros [kvss H']. apply elem_of_list_to_map_2, list_elem_of_fmap_1 in H' as (x & [= -> ->] & Hx).
  unfold out_ids. by apply list_elem_of_fmap_2, list_elem_of_fmap_2.
Qed.

(** The outputs' entries, once they are on record. *)
Lemma out_level G outs : (∀ x, x ∈ outs → G !! SsTable.id x.1 = Some x.2) → level_entries G (out_ids outs) = out_entries outs.
Proof.
  induction outs as [|x outs IH]; intros HG; [done|].
  change (out_ids (x :: outs)) with (SsTable.id x.1 :: out_ids outs).
  rewrite level_entries_cons, IH by set_solver. unfold entries_of. by rewrite HG by set_solver.
Qed.

(** The state after [compact]: the counter has moved, nothing else. *)
Definition advanced s (n : nat) : LsmStorageInner.t := set_next_sst_id s (next_sst_id s + n).

Lemma engine_compacted g w s outs w' : engine_ok g w s → progress g w s (next_sst_id s) outs w' →
  let G := out_ghost outs ∪ g in
  engine_ok G w' (advanced s (length outs)) ∧ g ⊆ G ∧ (∀ x, x ∈ outs → G !! SsTable.id x.1 = Some x.2) ∧
  Forall (built w' s) outs ∧ NoDup (mem_ids (state s) ++ ids_of (state s) ++ out_ids outs) ∧
  (∀ id, id ∈ out_ids outs → next_sst_id s ≤ id < next_sst_id s + length outs).
Proof.
  intros Hok [Hids Hb Hc Hf] G. change (SsTable.id <$> outs.*1) with (out_ids outs) in Hids.
  assert (NoDup (out_ids outs)) as Hnd by (rewrite Hids; apply NoDup_seq).
  assert (∀ id, id ∈ out_ids outs → next_sst_id s ≤ id < next_sst_id s + length outs) as Hrange.
  { intros id. rewrite Hids, elem_of_seq. done. }
  assert (∀ id, is_Some (g !! id) ∨ id ∈ mem_ids (state s) ∨ id ∈ ids_of (state s) → id ∉ out_ids outs) as Hfresh.
  { intros id Hid Hin%Hrange. assert (id < next_sst_id s); [|lia]. apply (eo_fresh _ _ _ Hok).
    destruct Hid as [?|[?|?]]; [by right|by left|right; by eapply engine_some]. }
  assert (g ⊆ G) as Hsub.
  { apply map_union_subseteq_r. apply map_disjoint_spec. intros id x y Hx Hy.
    apply (Hfresh id); [left; by eexists|apply out_ghost_ids; by eexists]. }
  split_and!; [|done| |done| |done].
  - apply (engine_grow g); [|done|].
    + apply (engine_agree g w); [|split|done].
      * destruct Hok. split; try done. intros id Hid. simpl. pose proof (eo_fresh id Hid). lia.
      * intros id Hin. apply Hf. intros id' Hid' E. apply (Names.path_of_sst_inj s) in E.
        assert (id < next_sst_id s); [|lia]. apply (eo_fresh _ _ _ Hok). right. by eapply engine_some.
      * intros id Hin. apply Hf. intros id' _ E. by apply (Names.path_sst_wal s id' id).
    + intros id HG Hg. unfold G in HG. rewrite lookup_union_l in HG by done. apply out_ghost_ids in HG.
      split; [|by apply Hrange]. intros Hin. by apply (Hfresh id); [right; left|].
  - intros x Hx. unfold G. apply lookup_union_Some_l. by apply out_ghost_lookup.
  - rewrite (assoc_L (++)). apply NoDup_app. split; [apply Hok|split; [|done]]. intros id Hin. apply Hfresh.
    apply elem_of_app in Hin. tauto.
Qed.

(** ** The map of open tables and the files *)
Lemma add_tables_app m ts1 ts2 : add_tables m (ts1 ++ ts2) = add_tables (add_tables m ts1) ts2.
Proof. apply foldl_app. Qed.

Lemma add_tables_lookup m ts : NoDup (SsTable.id <$> ts) →
  (∀ t, t ∈ ts → add_tables m ts !! SsTable.id t = Some t) ∧
  (∀ id, id ∉ SsTable.id <$> ts → add_tables m ts !! id = m !! id).
Proof.
  induction ts as [|t ts IH] using rev_ind; intros Hnd; [by split; [intros ? ?%not_elem_of_nil|]|].
  rewrite fmap_app in Hnd |- *. apply NoDup_app in Hnd as (Hnd & Hdisj & _). destruct (IH Hnd) as [IH1 IH2].
  rewrite add_tables_app. simpl. split.
  - intros t'. rewrite elem_of_app, list_elem_of_singleton. intros [Hin| ->]; [|by rewrite lookup_insert_eq].
    rewrite lookup_insert_ne; [by apply IH1|]. intros E. apply (Hdisj (SsTable.id t')); [by apply list_elem_of_fmap_2|].
    rewrite <-E. apply list_elem_of_here.
  - intros id. rewrite elem_of_app, list_elem_of_singleton. intros Hn. rewrite lookup_insert_ne by naive_solver. apply IH2. tauto.
Qed.

Lemma take_tables_spec m ids m' ts : take_tables m ids = (m', ts) →
  (∀ id, id ∉ ids → m' !! id = m !! id) ∧ (∀ t, t ∈ ts → ∃ id, id ∈ ids ∧ m !! id = Some t).
Proof.
  revert m m' ts; induction ids as [|id ids IH]; intros m m' ts; simpl.
  { intros [= <- <-]. split; [done|]. by intros ? ?%not_elem_of_nil. }
  destruct (m !! id) as [t|] eqn:E; cycle 1.
  { intros [IH1 IH2]%IH. split; [intros; apply IH1; set_solver|]. intros t (id' & ? & ?)%IH2. exists id'. set_solver. }
  destruct (take_tables (delete id m) ids) as [m1 ts1] eqn:Et. intros [= <- <-]. apply IH in Et as [IH1 IH2]. split.
  - intros id' Hn. rewrite IH1 by set_solver. rewrite lookup_delete_ne; [done|]. set_solver.
  - intros t'. rewrite elem_of_cons. intros [-> |(id' & Hin & Hl)%IH2]; [exists id; set_solver|].
    apply lookup_delete_Some in Hl as [_ Hl]. exists id'. set_solver.
Qed.

Lemma erase_tables_spec m ids id : id ∉ ids → erase_tables m ids !! id = m !! id.
Proof.
  unfold erase_tables. revert m; induction ids as [|x ids IH]; intros m Hn; [done|]. simpl.
  rewrite IH by set_solver. rewrite lookup_delete_ne; [done|]. set_solver.
Qed.

Lemma remove_files_spec w paths : runs (remove_files paths) w (λ w' _, cache w' = cache w ∧
  ∀ p, p ∉ paths → files w' !! p = files w !! p).
Proof.
  revert w; induction paths as [|q paths IH]; intros w; [by apply runs_ret|]. cbn [remove_files].
  eapply runs_bind; [by eapply runs_on_fs|]. intros w1 [] [-> _]. eapply runs_mono; [apply IH|].
  intros w' _ [Hc Hf]. split; [done|]. intros p Hp. rewrite Hf by set_solver. simpl. rewrite lookup_delete_ne; [done|set_solver].
Qed.

(** ** Rearranging the ids

    [s'] is [s] with the ids [removed] gone and the tables of [outs] in. *)
Lemma engine_rearranged G w s s' outs removed : engine_ok G w s → Forall (built w s) outs →
  (∀ x, x ∈ outs → G !! SsTable.id x.1 = Some x.2) → NoDup (mem_ids (state s) ++ ids_of (state s) ++ out_ids outs) →
  path s' = path s → options s' = options s → compaction_controller s' = compaction_controller s →
  manifest s' = manifest s → next_sst_id s' = next_sst_id s → memtables (state s') = memtables (state s) →
  ids_of (state s') ++ removed ≡ₚ ids_of (state s) ++ out_ids outs →
  (∀ id, id ∉ removed → LsmStorageState.sstables (state s') !! id = add_tables (LsmStorageState.sstables (state s)) outs.*1 !! id) →
  Forall (λ lv, ksorted (level_entries G lv.2)) (LsmStorageState.levels (state s')) →
  (CompactionController.flush_to_l0 (compaction_controller s) = false → LsmStorageState.l0_sstables (state s') = []) →
  engine_ok G w s' ∧ NoDup (ids_of (state s') ++ removed).
Proof.
  intros Hok Hb HG Hnd Hp Ho Hc Hm Hn Hmem Hperm Ht Hl Htiers.
  assert (path_of_sst_val s' = path_of_sst_val s ∧ path_of_wal_val s' = path_of_wal_val s) as [Esst Ewal].
  { unfold path_of_sst_val, path_of_wal_val. by rewrite Hp. }
  assert (mem_ids (state s') = mem_ids (state s)) as Emem by (unfold mem_ids; by rewrite Hmem).
  rewrite <-Hperm in Hnd. assert (NoDup (ids_of (state s') ++ removed)) as Hnd' by (by apply NoDup_app in Hnd as (_ & _ & ?)).
  split; [|done]. rewrite Hperm in Hnd. pose proof Hok as [].
  split; rewrite ?Ho, ?Hc, ?Hm, ?Hn, ?Emem, ?Hmem, ?Hp; try done.
  - unfold mem_ok. by rewrite Ewal, Ho.
  - assert (LsmStorageState.imm_memtables (state s') = LsmStorageState.imm_memtables (state s)) as ->; [|done].
    unfold memtables in Hmem. by injection Hmem.
  - intros id Hin. assert (id ∉ removed) as Hnr.
    { intros Hr. apply NoDup_app in Hnd' as (_ & Hd & _). by apply (Hd id). }
    unfold table_ok. rewrite Esst. assert (NoDup (out_ids outs)) as Hndo by (by apply NoDup_app in Hnd as (_ & _ & (_ & _ & ?)%NoDup_app)).
    destruct (add_tables_lookup (LsmStorageState.sstables (state s)) outs.*1 Hndo) as [Hadd1 Hadd2].
    assert (id ∈ ids_of (state s) ++ out_ids outs) as Hid by (rewrite <-Hperm; set_solver).
    destruct (decide (id ∈ out_ids outs)) as [Ho'|Ho'].
    + unfold out_ids in Ho'. apply list_elem_of_fmap_1 in Ho' as (t & -> & Hin'). pose proof Hin' as Hint.
      apply list_elem_of_fmap_1 in Hin' as (x & -> & Hx).
      destruct (proj1 (Forall_forall _ _) Hb x Hx) as (data & ? & ? & ? & ? & ?).
      exists x.1, x.2, data. split; try done; [|by apply HG]. rewrite Ht by done. by apply Hadd1.
    + apply elem_of_app in Hid as [Hid|Hid]; [|done]. destruct (eo_tables id Hid) as (t & kvss & data & []).
      exists t, kvss, data. split; try done. rewrite Ht by done. by rewrite Hadd2.
  - rewrite <-Hperm, (assoc_L (++)) in Hnd. by apply NoDup_app in Hnd as (? & _ & _).
Qed.

(** The end of both operations: the record, and the removal of files that no id
    of the tree names. *)
Lemma finish_spec G w s r (paths : LsmStorageInner.t → list string) : engine_ok G w s → ManifestRecordSpec.record_ok r →
  (∀ s2 p, path s2 = path s → p ∈ paths s2 → ∃ id, p = path_of_sst_val s id ∧ id ∉ ids_of (state s)) →
  runs (s2 ← add_manifest_record s r; remove_files (paths s2);; mret s2) w (λ w' s', engine_ok G w' s' ∧
    evolves [r] w s w' s' ∧ state s' = state s ∧ next_sst_id s' = next_sst_id s).
Proof.
  intros Hok Hr Hpaths. eapply runs_bind; [by apply record_added; [apply Hok|]|]. intros w2 s2 Hrec.
  pose proof (engine_recorded _ _ _ _ _ _ Hok Hrec) as Hok2. destruct (recorded_state _ _ _ _ _ Hrec) as [Hst Hn].
  pose proof (evolves_recorded _ _ _ _ _ Hrec) as [Hp Ho Hc Hlog].
  eapply runs_bind; [apply remove_files_spec|]. intros w3 _ [Hcache Hf]. apply runs_ret. split_and!; [| |done..].
  - apply (engine_agree G w2); [done| |rewrite Hcache; apply Hok2].
    assert (path_of_sst_val s2 = path_of_sst_val s ∧ path_of_wal_val s2 = path_of_wal_val s) as [Ep Ep'].
    { unfold path_of_sst_val, path_of_wal_val. by rewrite Hp. }
    unfold agree. rewrite Hst, Ep, Ep'. split; intros id Hid; apply Hf; intros (id' & E & Hn')%(Hpaths _ _ Hp).
    + apply Names.path_of_sst_inj in E. by subst.
    + symmetry in E. by apply Names.path_sst_wal in E.
  - split; [done..|]. intros rs Hrs. destruct (Hlog rs Hrs) as (m & Em & Epath & Hfd & Hfile).
    exists m. split_and!; [done..|]. split; [done|]. rewrite Hf; [done|]. rewrite Epath, Hp.
    intros (id & E & _)%(Hpaths _ _ Hp). symmetry in E. by apply Names.path_sst_manifest in E.
Qed.

(** [install_compaction] with the result of the strategy. *)
Lemma install_spec G w s task outs st' removed : engine_ok G w s → Forall (built w s) outs →
  (∀ x, x ∈ outs → G !! SsTable.id x.1 = Some x.2) → NoDup (mem_ids (state s) ++ ids_of (state s) ++ out_ids outs) →
  let st := LsmStorageState.set_sstables (state s) (add_tables (LsmStorageState.sstables (state s)) outs.*1) in
  CompactionController.apply_compaction_result (compaction_controller s) st task (out_ids outs) false = Ok (st', removed) →
  applied (content G) st (out_ids outs) (st', removed) →
  Forall (λ lv, ksorted (level_entries G lv.2)) (LsmStorageState.levels st') →
  (CompactionController.flush_to_l0 (compaction_controller s) = false → LsmStorageState.l0_sstables st' = []) →
  ManifestRecordSpec.record_ok (ManifestRecord.Compaction task (out_ids outs)) →
  runs (install_compaction s task outs.*1) w (λ w' s', engine_ok G w' s' ∧ shown G (state s') = shown G (state s) ∧
    evolves [ManifestRecord.Compaction task (out_ids outs)] w s w' s' ∧ next_sst_id s' = next_sst_id s ∧
    LsmStorageState.l0_sstables (state s') = LsmStorageState.l0_sstables st' ∧
    LsmStorageState.levels (state s') = LsmStorageState.levels st' ∧ memtables (state s') = memtables (state s)).
Proof.
  intros Hok Hb HG Hnd st Happ [Hvis Hids Hmem Himm Hsst] Hl Ht Hr. unfold install_compaction. fold (out_ids outs).
  fold st. simpl in Hvis, Hids, Hmem, Himm, Hsst.
  eapply runs_bind; [apply (runs_lift _ _ (eq (st', removed))); by exists (st', removed)|]. intros w0 ? [-> <-].
  destruct (take_tables (LsmStorageState.sstables st') removed) as [tables ts] eqn:Etake.
  apply take_tables_spec in Etake as [Htab Hts]. rewrite Hsst in Htab, Hts.
  set (s1 := set_state s (LsmStorageState.set_sstables st' tables)).
  destruct (engine_rearranged G w s s1 outs removed) as [Hok1 Hnd1]; try done.
  { unfold memtables. simpl. by rewrite Hmem, Himm. }
  eapply runs_mono; [apply (finish_spec G w s1 _ (λ s2, (λ sst, path_of_sst_val s2 (SsTable.id sst)) <$> ts)); [done..|]|].
  - intros s2 p Hp (t & -> & (id & Hid & Hlk)%Hts)%list_elem_of_fmap_1.
    assert (SsTable.id t = id) as ->.
    { destruct (add_tables_lookup (LsmStorageState.sstables (state s)) outs.*1) as [Ha1 Ha2];
        [by apply NoDup_app in Hnd as (_ & _ & (_ & _ & ?)%NoDup_app)|].
      assert (id ∈ ids_of (state s) ++ out_ids outs) as Hin by (change (ids_of (state s)) with (ids_of st); rewrite <-Hids; set_solver).
      destruct (decide (id ∈ out_ids outs)) as [Ho|Ho].
      - unfold out_ids in Ho. apply list_elem_of_fmap_1 in Ho as (t' & -> & Ht'). simpl in Hlk. rewrite Ha1 in Hlk by done. by injection Hlk as ->.
      - simpl in Hlk. rewrite Ha2 in Hlk by done. apply elem_of_app in Hin as [Hin|]; [|done].
        destruct (eo_tables _ _ _ Hok id Hin) as (t' & ? & ? & []). rewrite ta_open in Hlk. by injection Hlk as ->. }
    exists id. split; [unfold path_of_sst_val; by rewrite Hp|]. intros Hin.
    apply NoDup_app in Hnd1 as (_ & Hd & _). by apply (Hd id).
  - intros w' s' (Hok' & [Hp Ho Hc Hlog] & Hst & Hn). rewrite Hst. split_and!; [done| | |done|done|done|by unfold memtables; simpl; rewrite Hmem, Himm].
    + unfold shown, contents. apply visible_union_ext; [|exact Hvis]. unfold memtables. simpl. by rewrite Hmem, Himm.
    + split; [done..|]. exact Hlog.
Qed.

(** ** What [compact] leaves to the second part *)

(** The output of a compaction of [inputs], complete and still outside of the
    tree. *)
Record finished G w s outs bottom inputs : Prop := {
  fn_engine : engine_ok G w s;
  fn_inputs : inputs ⊆ ids_of (state s);
  fn_ghost x : x ∈ outs → G !! SsTable.id x.1 = Some x.2;
  fn_built : Forall (built w s) outs;
  fn_nodup : NoDup (mem_ids (state s) ++ ids_of (state s) ++ out_ids outs);
  fn_pos : 0 ∉ out_ids outs;
  fn_output : out_entries outs = LsmGen.kept bottom (entries (stored (content G) inputs)) }.

Lemma kv_map_kept bottom m : kv_map (kept bottom (entries m)) = if bottom then visible m else m.
Proof.
  destruct bottom; [|apply kv_map_entries]. apply map_eq. intros k. apply option_eq. intros v.
  rewrite lookup_visible, kv_map_lookup by (apply ksorted_filter, entries_sorted). unfold kept.
  rewrite list_elem_of_filter, <-kv_map_lookup, kv_map_entries by apply entries_sorted. simpl. tauto.
Qed.

#[export] Instance level_entries_proper g : Proper ((≡ₚ) ==> (≡ₚ)) (level_entries g).
Proof. intros ids1 ids2 E. unfold level_entries. by rewrite E. Qed.
Lemma level_entries_app g ids1 ids2 : level_entries g (ids1 ++ ids2) = level_entries g ids1 ++ level_entries g ids2.
Proof. unfold level_entries. by rewrite fmap_app, join_app. Qed.
Lemma level_entries_submseteq g ids1 ids2 : ids1 ⊆+ ids2 → level_entries g ids1 ⊆+ level_entries g ids2.
Proof. intros [k ->]%submseteq_Permutation. rewrite level_entries_app. by apply submseteq_inserts_r. Qed.
Lemma stored_submseteq g ids1 ids2 : ids1 ⊆ ids2 → entries (stored (content g) ids1) ⊆+ level_entries g ids2.
Proof.
  intros Hsub. apply NoDup_submseteq; [eapply NoDup_fmap_1, ksorted_NoDup, entries_sorted|]. intros e He.
  rewrite stored_level in He. pose proof (elem_of_submseteq _ _ _ He (entries_submseteq _)) as He'.
  apply list_elem_of_join in He' as (l & Hl & (id & -> & Hid)%list_elem_of_fmap_1).
  apply list_elem_of_join. exists (entries_of g id). split; [done|]. apply list_elem_of_fmap_2. by apply Hsub.
Qed.

Section finished.
Context G w s outs bottom inputs (Hfin : finished G w s outs bottom inputs).

Lemma finished_entries : level_entries G (out_ids outs) = LsmGen.kept bottom (entries (stored (content G) inputs)).
Proof. rewrite out_level by apply Hfin. apply Hfin. Qed.

Lemma finished_merges : merges (content G) bottom inputs (out_ids outs).
Proof. unfold merges. by rewrite stored_level, finished_entries, kv_map_kept. Qed.

Lemma finished_sorted : ksorted (level_entries G (out_ids outs)).
Proof. rewrite finished_entries. apply kept_sorted, entries_sorted. Qed.

Lemma finished_known id : id ∈ out_ids outs → id < next_sst_id s.
Proof.
  intros (t & -> & (x & -> & Hx)%list_elem_of_fmap_1)%list_elem_of_fmap_1. apply (eo_fresh _ _ _ (fn_engine _ _ _ _ _ _ Hfin)).
  right. eexists. by apply Hfin.
Qed.

Lemma finished_disjoint : NoDup (out_ids outs) ∧ ∀ id, id ∈ mem_ids (state s) ∨ id ∈ ids_of (state s) → id ∉ out_ids outs.
Proof.
  pose proof (fn_nodup _ _ _ _ _ _ Hfin) as Hnd. rewrite (assoc_L (++)) in Hnd. apply NoDup_app in Hnd as (_ & Hd & Hnd).
  split; [done|]. intros id Hid. apply Hd. set_solver.
Qed.

(** The output has an entry for each of its tables, and no entry that the inputs
    do not have. *)
Lemma finished_count : length outs ≤ length (level_entries G (out_ids outs)) ∧ level_entries G (out_ids outs) ⊆+ level_entries G inputs.
Proof.
  split.
  - rewrite out_level by apply Hfin. pose proof (fn_built _ _ _ _ _ _ Hfin) as Hb. unfold out_entries.
    clear -Hb. induction Hb as [|x outs (data & Hh & _) _ IH]; [done|].
    rewrite fmap_cons. change (mjoin (?a :: ?l)) with (a ++ mjoin l). rewrite length_app. simpl.
    pose proof (SstConcatIteratorSpec.holds_mjoin_nonempty _ _ Hh). destruct (mjoin x.2); [done|]. simpl. lia.
  - rewrite finished_entries, stored_level. etrans; [|apply entries_submseteq]. unfold LsmGen.kept.
    destruct bottom; [apply sublist_submseteq, sublist_filter|done].
Qed.

Lemma finished_bound : length outs ≤ length (level_entries G (ids_of (state s))).
Proof.
  etrans; [apply finished_count|]. rewrite finished_entries.
  etrans; [|apply submseteq_length, stored_submseteq, (fn_inputs _ _ _ _ _ _ Hfin)].
  unfold LsmGen.kept. destruct bottom; [apply length_filter|done].
Qed.

(** The entries of the tree after the inputs made room for the output. *)
Lemma finished_moved st' : ids_of st' ++ inputs ≡ₚ ids_of (state s) ++ out_ids outs →
  level_entries G (ids_of st') ⊆+ level_entries G (ids_of (state s)).
Proof.
  intros Hperm. destruct finished_count as [_ [k Hs]%submseteq_Permutation].
  assert (inputs ⊆+ ids_of (state s)) as Hsub.
  { apply NoDup_submseteq; [|apply Hfin]. pose proof (fn_nodup _ _ _ _ _ _ Hfin) as (_ & _ & Hnd)%NoDup_app.
    rewrite <-Hperm in Hnd. by apply NoDup_app in Hnd as (_ & _ & ?). }
  apply (level_entries_proper G) in Hperm. rewrite !level_entries_app, Hs in Hperm.
  rewrite (Permutation_app_comm (level_entries G (out_ids outs)) k), (assoc_L (++)) in Hperm.
  apply Permutation_app_inv_r in Hperm. rewrite <-Hperm. by apply submseteq_inserts_r.
Qed.
End finished.

(** ** What a compaction does to the state as a whole *)
Record moved g w s G w' s' (new : list ManifestRecord.t) : Prop := {
  mv_ghost : g ⊆ G;
  mv_engine : engine_ok G w' s';
  mv_shown : shown G (state s') = shown g (state s);
  mv_memtables : memtables (state s') = memtables (state s);
  mv_entries : level_entries G (ids_of (state s')) ⊆+ level_entries g (ids_of (state s));
  mv_next : next_sst_id s ≤ next_sst_id s' ≤ next_sst_id s + length (level_entries g (ids_of (state s)));
  mv_evolves : evolves new w s w' s' }.

Lemma moved_refl g w s : engine_ok g w s → moved g w s g w s [].
Proof. intros Hok. split; [done|done|done|done|done|lia|apply evolves_refl]. Qed.

(** The second part uses no ids. *)
Lemma moved_then g w s G1 w1 s1 G2 w2 s2 new : moved g w s G1 w1 s1 [] → moved G1 w1 s1 G2 w2 s2 new →
  next_sst_id s2 = next_sst_id s1 → moved g w s G2 w2 s2 new.
Proof.
  intros [] [] Hn. split; [by etrans|done|congruence|congruence|by etrans|lia|]. by apply (evolves_trans [] _ _ _ w1 s1).
Qed.

(** The tables are written, the counter has moved, and nothing else. *)
Lemma compact_outcome `{!LoopFuel} g w s task : engine_ok g w s → task_inputs task ⊆ ids_of (state s) → task_runs g task →
  fits (entries (stored (content g) (task_inputs task))) → S (size (stored (content g) (task_inputs task))) < loop_fuel →
  runs (compact s task) w (λ w' r, ∃ G outs, r = (advanced s (length outs), outs.*1) ∧
    finished G w' (advanced s (length outs)) outs (CompactionTask.compact_to_bottom_level task) (task_inputs task) ∧
    moved g w s G w' (advanced s (length outs)) []).
Proof.
  intros Hok Hin Hruns Hfits Hfuel. destruct (engine_read_ok _ _ _ Hok) as [_ Hread _].
  eapply runs_mono; [apply (compact_spec g); [apply Hok|apply Hok|intros; by apply Hread, Hin|done..]|].
  intros w' r (outs & -> & Hp & Ho). exists (out_ghost outs ∪ g), outs. split; [done|].
  destruct (engine_compacted g w s outs w' Hok Hp) as (He & Hsub & HG & Hb & Hnd & Hr).
  assert (finished (out_ghost outs ∪ g) w' (advanced s (length outs)) outs (CompactionTask.compact_to_bottom_level task) (task_inputs task)) as Hfin.
  { split; try done.
    - intros Hz%Hr. assert (MemTable.id_ (LsmStorageState.memtable (state s)) < next_sst_id s); [|lia].
      apply (eo_fresh _ _ _ Hok). left. unfold mem_ids, memtables. set_solver.
    - rewrite Ho. do 2 f_equal. symmetry. apply stored_mono; [done|]. intros id Hid. by eapply engine_some, Hin. }
  split; [done|]. assert (level_entries (out_ghost outs ∪ g) (ids_of (state s)) = level_entries g (ids_of (state s))) as El.
  { apply level_entries_mono; [done|]. intros id Hid. by eapply engine_some. }
  split; [done|done| |done|by simpl; rewrite El| |].
  - unfold shown. change (state (advanced s (length outs))) with (state s). by rewrite (contents_mono g _ w s).
  - pose proof (finished_bound _ _ _ _ _ _ Hfin) as Hb'. change (state (advanced s (length outs))) with (state s) in Hb'.
    rewrite El in Hb'. simpl. lia.
  - apply evolves_same; [done..|]. apply Hp. intros id _ E. symmetry in E. by apply Names.path_sst_manifest in E.
Qed.
End install.
