(* ===== verification/LsmStrategies.v ===== *)
(** * Compaction of the engine, strategy by strategy

    Installing a finished output asks the strategy for the result of
    [apply_compaction_result]; here the correctness theorems of the three
    controllers answer, also when tables were flushed since the task was chosen;
    the full compaction, which has no controller, is treated directly.  Every
    compaction keeps the invariant and the map. *)
From S2P Require Import Prelude Endian Key Iterators Block BlockCache Double Bloom Table Sizes TableIterator Wal MemTable State Layers SimpleLeveled Tiered Leveled Compact Manifest LsmStorage LsmSpec LsmRead LsmWrite LsmGen LsmCompact LsmInstall.

Section strategies.
Context `{!Zlib} `{!Snappy} `{!SnappyLaws} `{!SnappyBound} `{!Farmhash} `{!Libm} `{!Json} `{!JsonLaws} `{!LoopFuel}.
Import LsmStorageInner.
Implicit Types (g G : ghost) (w : World) (s : LsmStorageInner.t) (outs : list (SsTable.t * list (list kv))).

(** What a compaction needs: the data fits the formats and the fuel of its loop,
    and there are ids left for the output. *)
Record affordable g s : Prop := {
  af_fits : fits (level_entries g (ids_of (state s)));
  af_fuel : S (length (level_entries g (ids_of (state s)))) < loop_fuel;
  af_ids : (Z.of_nat (next_sst_id s + length (level_entries g (ids_of (state s)))) < 2 ^ 64)%Z }.

(** ** The ids in a record *)
Lemma ids_known g w s ids : engine_ok g w s → room s → ids ⊆ ids_of (state s) → ManifestRecordSpec.ids_ok ids.
Proof.
  intros Hok Hroom Hids. apply Forall_forall. intros id Hid.
  assert (id < next_sst_id s) by (apply (eo_fresh _ _ _ Hok); right; by eapply engine_some, Hids).
  unfold ManifestRecordSpec.id_ok, room in *. lia.
Qed.

Lemma affordable_room g s : affordable g s → room s.
Proof. intros []. unfold room. lia. Qed.

Lemma outs_known G w s outs bottom inputs : finished G w s outs bottom inputs → room s → ManifestRecordSpec.ids_ok (out_ids outs).
Proof.
  intros Hfin Hroom. apply Forall_forall. intros id Hid. pose proof (finished_known _ _ _ _ _ _ Hfin id Hid).
  unfold ManifestRecordSpec.id_ok, room in *. lia.
Qed.

(** The state between the two parts of a compaction. *)
Lemma advanced_room g G w w' s n : affordable g s → moved g w s G w' (advanced s n) [] → room (advanced s n).
Proof. intros [] []. unfold room. lia. Qed.

(** What the manifest says about the structure: nothing was recorded and nothing
    changed, or applying the recorded task to the structure gives the new one. *)
Definition rearranged s (new : list ManifestRecord.t) s' : Prop :=
  (new = [] ∧ LsmStorageState.l0_sstables (state s') = LsmStorageState.l0_sstables (state s) ∧
   LsmStorageState.levels (state s') = LsmStorageState.levels (state s)) ∨
  ∃ task out st st' files, new = [ManifestRecord.Compaction task out] ∧
    LsmStorageState.l0_sstables st = LsmStorageState.l0_sstables (state s) ∧
    LsmStorageState.levels st = LsmStorageState.levels (state s) ∧
    CompactionController.apply_compaction_result (compaction_controller s) st task out false = Ok (st', files) ∧
    LsmStorageState.l0_sstables (state s') = LsmStorageState.l0_sstables st' ∧
    LsmStorageState.levels (state s') = LsmStorageState.levels st' ∧
    ManifestRecordSpec.record_ok (ManifestRecord.Compaction task out) ∧ Forall (λ id, id < next_sst_id s') out ∧
    ids_of (state s') ⊆ ids_of (state s) ++ out.

Lemma rearranged_advanced s n new s' : rearranged (advanced s n) new s' → rearranged s new s'.
Proof. done. Qed.

(** ** The full compaction *)
Lemma erase_add_tables m ids ts id : NoDup (SsTable.id <$> ts) → id ∉ ids →
  add_tables (erase_tables m ids) ts !! id = add_tables m ts !! id.
Proof.
  intros Hnd Hn. destruct (add_tables_lookup m ts Hnd) as [Ha1 Ha2].
  destruct (add_tables_lookup (erase_tables m ids) ts Hnd) as [Hb1 Hb2].
  destruct (decide (id ∈ SsTable.id <$> ts)) as [Hin|Hout].
  - apply list_elem_of_fmap_1 in Hin as (t & -> & Ht). by rewrite Ha1, Hb1.
  - rewrite Ha2, Hb2 by done. by apply erase_tables_spec.
Qed.

Lemma filter_not_self (l : list nat) : filter (λ x, x ∉ l) l = [].
Proof. apply filter_none, Forall_forall. naive_solver. Qed.

Definition full_task (l0 l1 : list nat) : CompactionTask.t := CompactionTask.ForceFull (ForceFullCompactionTask.mk l0 l1).

(** The second part, on any output of the whole tree. *)
Lemma install_full_spec G w s x l0 l1 outs : finished G w s outs true (l0 ++ l1) →
  LsmStorageState.l0_sstables (state s) = l0 → LsmStorageState.levels (state s) = [(x, l1)] → room s →
  runs (install_full s l0 l1 outs.*1) w (λ w' s',
    moved G w s G w' s' [ManifestRecord.Compaction (full_task l0 l1) (out_ids outs)] ∧
    rearranged s [ManifestRecord.Compaction (full_task l0 l1) (out_ids outs)] s' ∧
    LsmStorageState.l0_sstables (state s') = [] ∧ LsmStorageState.levels (state s') = [(x, out_ids outs)] ∧
    stored (content G) (ids_of (state s')) = visible (stored (content G) (ids_of (state s))) ∧ next_sst_id s' = next_sst_id s).
Proof.
  intros Hfin Hl0 Hlv Hroom. pose proof (finished_sorted _ _ _ _ _ _ Hfin) as Hsorted.
  pose proof (outs_known _ _ _ _ _ _ Hfin Hroom) as Houts. pose proof (finished_merges _ _ _ _ _ _ Hfin) as Hmerge.
  pose proof (finished_known _ _ _ _ _ _ Hfin) as Hknown. destruct (finished_disjoint _ _ _ _ _ _ Hfin) as [Hndo _].
  pose proof Hfin as [Hok Hin HG Hb Hnd _ _]. unfold install_full. cbv zeta. fold (out_ids outs).
  rewrite Hlv, Hl0. cbn [fst]. rewrite (filter_not_self l0). fold (full_task l0 l1).
  match goal with |- runs (s ← add_manifest_record ?a _; _) _ _ => set (s1 := a) end.
  assert (ids_of (state s) = l0 ++ l1) as Eall by (unfold ids_of; rewrite Hl0, Hlv, level_ids_cons; cbn; by rewrite app_nil_r).
  assert (ids_of (state s1) = out_ids outs) as Es1 by (unfold ids_of; simpl; rewrite level_ids_cons; apply app_nil_r).
  destruct (engine_rearranged G w s s1 outs (l0 ++ l1)) as [Hok1 Hnd1]; try done.
  { rewrite Es1, Eall. apply Permutation_app_comm. }
  { intros id Hid. by apply erase_add_tables. }
  { by repeat constructor. }
  assert (ManifestRecordSpec.record_ok (ManifestRecord.Compaction (full_task l0 l1) (out_ids outs))) as Hrec.
  { split; [|done]. split; apply (ids_known G w s); try done; rewrite Eall; set_solver. }
  eapply runs_mono; [apply (finish_spec G w s1 _ (λ s2, path_of_sst_val s2 <$> (l0 ++ l1))); [done|done|]|].
  { intros s2 p Hp (id & -> & Hid)%list_elem_of_fmap_1. exists id. split; [unfold path_of_sst_val; by rewrite Hp|].
    intros Hin'. apply NoDup_app in Hnd1 as (_ & Hd & _). by apply (Hd id). }
  intros w' s' (Hok' & Hev & Hst & Hn).
  assert (ids_of (state s') = out_ids outs) as Eids by (by rewrite Hst).
  assert (stored (content G) (ids_of (state s')) = visible (stored (content G) (ids_of (state s)))) as Hst'.
  { rewrite Eids. etrans; [exact Hmerge|]. by rewrite Eall. }
  split_and!; [| |by rewrite Hst..|done|done].
  - split; [done|done| |by rewrite Hst| |rewrite Hn; simpl; lia|].
    + unfold shown, contents. apply visible_union_ext; [by rewrite Hst|]. rewrite Hst'. apply visible_visible.
    + apply (finished_moved _ _ _ _ _ _ Hfin (state s')). rewrite Eids, Eall. apply Permutation_app_comm.
    + apply (evolves_trans [] _ _ _ w s1); [|done]. by apply evolves_same.
  - right. exists (full_task l0 l1), (out_ids outs), (state s), (CompactionController.apply_force_full (state s) (ForceFullCompactionTask.mk l0 l1) (out_ids outs)).1, (l0 ++ l1).
    split_and!; [done|done|done|done| | |exact Hrec| |rewrite Eids; set_solver].
    + rewrite Hst. simpl. by rewrite Hl0, filter_not_self.
    + rewrite Hst. simpl. by rewrite Hlv.
    + apply Forall_forall. intros id Hid. rewrite Hn. by apply Hknown.
Qed.

Lemma full_spec g w s x l1 : engine_ok g w s → affordable g s →
  LsmStorageOptions.compaction_options (options s) = CompactionOptions.NoCompaction →
  LsmStorageState.levels (state s) = [(x, l1)] →
  runs (force_full_compaction s) w (λ w' s', ∃ G outs,
    moved g w s G w' s' [ManifestRecord.Compaction (full_task (LsmStorageState.l0_sstables (state s)) l1) (out_ids outs)] ∧
    rearranged s [ManifestRecord.Compaction (full_task (LsmStorageState.l0_sstables (state s)) l1) (out_ids outs)] s' ∧
    LsmStorageState.l0_sstables (state s') = [] ∧ LsmStorageState.levels (state s') = [(x, out_ids outs)] ∧
    stored (content G) (ids_of (state s')) = visible (stored (content g) (ids_of (state s)))).
Proof.
  intros Hok Haf Hopt Hlv. unfold force_full_compaction. rewrite Hopt. cbv zeta. rewrite Hlv. cbn [head snd default option_fmap option_map fmap from_option id].
  fold (full_task (LsmStorageState.l0_sstables (state s)) l1). set (l0 := LsmStorageState.l0_sstables (state s)).
  assert (task_inputs (full_task l0 l1) = ids_of (state s)) as Ein.
  { unfold ids_of. rewrite Hlv, level_ids_cons. cbn. by rewrite app_nil_r. }
  assert (task_inputs (full_task l0 l1) ⊆ ids_of (state s)) as Hin by (by rewrite Ein).
  pose proof (stored_submseteq g _ _ Hin) as Hsub. pose proof (submseteq_length _ _ Hsub) as Hlen. rewrite length_entries in Hlen.
  pose proof Haf as [Hfits Hfuel Hids].
  eapply runs_bind; [apply (compact_outcome g w s (full_task l0 l1)); [done|done| |by eapply fits_submseteq|lia]|].
  { pose proof (eo_levels _ _ _ Hok) as Hl. rewrite Hlv in Hl. by apply Forall_inv in Hl. }
  intros w1 r (G & outs & -> & Hfin & Hm1). set (s1 := advanced s (length outs)) in *.
  eapply runs_mono; [apply (install_full_spec G w1 s1 x l0 l1 outs); [exact Hfin|done|done|by eapply advanced_room]|].
  intros w' s' (Hm2 & Hre & Hl0 & Hlv' & Hst & Hn). exists G, outs. split_and!; [by eapply moved_then|done|done|done|].
  rewrite Hst. f_equal. apply stored_mono; [apply Hm1|]. intros; by eapply engine_some.
Qed.

(** ** Levels before and after *)
Lemma set_level_files_levels (st st' : LsmStorageState.t) i files : LsmStorageState.set_level_files st i files = Ok st' →
  ∀ lv, lv ∈ LsmStorageState.levels st' → lv.2 = files ∨ lv ∈ LsmStorageState.levels st.
Proof.
  destruct i as [|i]; [done|]. unfold LsmStorageState.set_level_files.
  intros (l & _ & [= <-])%bind_Ok lv [j Hj]%list_elem_of_lookup. simpl in Hj.
  apply list_lookup_insert_Some in Hj as [(_ & <- & _)|(_ & Hj)]; [by left|right; by eapply list_elem_of_lookup_2].
Qed.

Lemma simple_apply_levels (st st' : LsmStorageState.t) task output files :
  SimpleLeveledCompactionController.apply_compaction_result st task output = Ok (st', files) →
  ∀ lv, lv ∈ LsmStorageState.levels st' → lv.2 = [] ∨ lv.2 = output ∨ lv ∈ LsmStorageState.levels st.
Proof.
  unfold SimpleLeveledCompactionController.apply_compaction_result. intros ([st1 f1] & Hup & Hlow)%bind_Ok lv Hlv.
  apply bind_Ok in Hlow as (f & _ & Hlow). apply bind_Ok in Hlow as (_ & _ & Hlow).
  apply bind_Ok in Hlow as (st2 & Hset & [= -> _]).
  destruct (set_level_files_levels _ _ _ _ Hset lv Hlv) as [?|Hin]; [by right; left|]. clear Hlv Hset.
  destruct (SimpleLeveledCompactionTask.upper_level task) as [u|].
  - apply bind_Ok in Hup as (? & _ & Hup). apply bind_Ok in Hup as (_ & _ & Hup).
    apply bind_Ok in Hup as (st3 & Hset & [= -> _]). destruct (set_level_files_levels _ _ _ _ Hset lv Hin); auto.
  - destruct (remove_ids _ _) as [new_l0 rest]. apply bind_Ok in Hup as (_ & _ & [= <- _]). auto.
Qed.

(** What every strategy says about one call of [trigger_compaction]. *)
Definition compacts g w s (keeps : LsmStorageState.t → Prop) : Prop :=
  runs (trigger_compaction s) w (λ w' r, ∃ G new,
    moved g w s G w' r.1 new ∧ rearranged s new r.1 ∧ keeps (state r.1)).

Lemma compacts_none g w s (keeps : LsmStorageState.t → Prop) : engine_ok g w s → keeps (state s) →
  CompactionController.generate_compaction_task (compaction_controller s) (state s) = Ok None → compacts g w s keeps.
Proof.
  intros Hok Hk Hgen. unfold compacts, trigger_compaction.
  eapply runs_bind; [apply (runs_lift _ _ (eq None)); by exists None|]. intros w0 ? [-> <-].
  apply runs_ret. exists g, []. split_and!; [by apply moved_refl|by left|done].
Qed.

(** The strategy places the output [outs] of [task] in the state of [s]. *)
Definition installs (keeps : LsmStorageState.t → Prop) G s task outs : Prop :=
  let st := LsmStorageState.set_sstables (state s) (add_tables (LsmStorageState.sstables (state s)) outs.*1) in
  ∃ st',
    CompactionController.apply_compaction_result (compaction_controller s) st task (out_ids outs) false = Ok (st', task_inputs task) ∧
    applied (content G) st (out_ids outs) (st', task_inputs task) ∧
    Forall (λ lv, ksorted (level_entries G lv.2)) (LsmStorageState.levels st') ∧
    (CompactionController.flush_to_l0 (compaction_controller s) = false → LsmStorageState.l0_sstables st' = []) ∧ keeps st'.

Definition structural (keeps : LsmStorageState.t → Prop) : Prop := ∀ st1 st2,
  LsmStorageState.l0_sstables st1 = LsmStorageState.l0_sstables st2 → LsmStorageState.levels st1 = LsmStorageState.levels st2 →
  keeps st1 → keeps st2.

(** Then installing it succeeds, and changes nothing that reads can see. *)
Lemma install_moved G w s task outs keeps : finished G w s outs (CompactionTask.compact_to_bottom_level task) (task_inputs task) →
  room s → ManifestRecordSpec.task_ok task → structural keeps → installs keeps G s task outs →
  runs (install_compaction s task outs.*1) w (λ w' s', moved G w s G w' s' [ManifestRecord.Compaction task (out_ids outs)] ∧
    rearranged s [ManifestRecord.Compaction task (out_ids outs)] s' ∧ keeps (state s') ∧ next_sst_id s' = next_sst_id s).
Proof.
  intros Hfin Hroom Htask Hext (st' & Happ & Happl & Hl & Ht & Hk). pose proof (outs_known _ _ _ _ _ _ Hfin Hroom) as Houts.
  pose proof Hfin as [Hok Hin HG Hb Hnd _ _].
  eapply runs_mono; [by apply (install_spec G w s task outs st' (task_inputs task))|].
  intros w' s' (Hok' & Hshown & Hev & Hn & Hl0 & Hlv & Hmem).
  assert (ids_of (state s') = ids_of st') as Eids by (unfold ids_of; by rewrite Hl0, Hlv).
  pose proof (applied_ids _ _ _ _ Happl) as Hids. cbn [fst snd] in Hids. rewrite <-Eids in Hids.
  change (ids_of (LsmStorageState.set_sstables (state s) _)) with (ids_of (state s)) in Hids.
  split_and!; [|right|by apply (Hext st')|done].
  - split; [done..| |rewrite Hn; lia|done]. by apply (finished_moved _ _ _ _ _ _ Hfin (state s')).
  - exists task, (out_ids outs), (LsmStorageState.set_sstables (state s) (add_tables (LsmStorageState.sstables (state s)) outs.*1)), st', (task_inputs task).
    split_and!; try done; [|rewrite <-Hids; set_solver].
    apply Forall_forall. intros id Hid. rewrite Hn. by eapply finished_known.
Qed.

Lemma compacts_some g w s task (keeps : LsmStorageState.t → Prop) : engine_ok g w s → affordable g s →
  CompactionController.generate_compaction_task (compaction_controller s) (state s) = Ok (Some task) →
  task_inputs task ⊆ ids_of (state s) → task_runs g task → ManifestRecordSpec.task_ok task → structural keeps →
  (∀ G w1 n outs, finished G w1 (advanced s n) outs (CompactionTask.compact_to_bottom_level task) (task_inputs task) →
    installs keeps G (advanced s n) task outs) →
  compacts g w s keeps.
Proof.
  intros Hok Haf Hgen Hin Hruns Htask Hext Hstrat. pose proof Haf as [Hfits Hfuel Hids]. unfold compacts, trigger_compaction.
  eapply runs_bind; [apply (runs_lift _ _ (eq (Some task))); by exists (Some task)|]. intros w0 ? [-> <-].
  pose proof (stored_submseteq g _ _ Hin) as Hsub. pose proof (submseteq_length _ _ Hsub) as Hlen. rewrite length_entries in Hlen.
  eapply runs_bind; [apply (compact_outcome g); [done|done|done|by eapply fits_submseteq|lia]|].
  intros w1 r (G & outs & -> & Hfin & Hm1).
  eapply runs_bind; [apply (install_moved G w1 (advanced s (length outs)) task outs keeps); [done|by eapply advanced_room|done|done|by eapply Hstrat]|].
  intros w' s' (Hm2 & Hre & Hk & Hn). apply runs_ret. exists G. eexists. split_and!; [by eapply moved_then|exact Hre|done].
Qed.

(** The tiers of flushed tables. *)
Definition singles (new : list nat) : list (nat * list nat) := (λ id, (id, [id])) <$> new.

(** [st'] is [st] with the tables [new] flushed in front. *)
Definition since (to_l0 : bool) (new : list nat) (st st' : LsmStorageState.t) : Prop :=
  if to_l0 then LsmStorageState.l0_sstables st' = new ++ LsmStorageState.l0_sstables st ∧ LsmStorageState.levels st' = LsmStorageState.levels st
  else LsmStorageState.l0_sstables st' = LsmStorageState.l0_sstables st ∧
    LsmStorageState.levels st' = singles new ++ LsmStorageState.levels st.

Lemma since_refl b (st st' : LsmStorageState.t) : LsmStorageState.l0_sstables st' = LsmStorageState.l0_sstables st →
  LsmStorageState.levels st' = LsmStorageState.levels st → since b [] st st'.
Proof. intros E1 E2. by destruct b. Qed.

Lemma since_trans b new1 new2 (st st1 st2 : LsmStorageState.t) : since b new1 st st1 → since b new2 st1 st2 → since b (new2 ++ new1) st st2.
Proof.
  destruct b; intros [E1 E2] [E1' E2']; split; rewrite ?E1', ?E2', ?E1, ?E2; [by rewrite (assoc_L (++))|done..|].
  unfold singles. by rewrite fmap_app, (assoc_L (++)).
Qed.

Lemma since_ids b new (st st' : LsmStorageState.t) : since b new st st' → ids_of st ⊆ ids_of st'.
Proof.
  unfold ids_of. destruct b; intros [-> ->]; [set_solver|]. rewrite level_ids_app. set_solver.
Qed.

(** ** Simple leveled compaction *)
Lemma simple_inputs o (st : LsmStorageState.t) task :
  SimpleLeveledCompactionController.generate_compaction_task o st = Some task →
  (Z.of_nat (SimpleLeveledCompactionOptions.max_levels o) < 2 ^ 64)%Z →
  length (LsmStorageState.levels st) = SimpleLeveledCompactionOptions.max_levels o →
  (∃ lv, lv ∈ LsmStorageState.levels st ∧ SimpleLeveledCompactionTask.lower_level_sst_ids task = lv.2) ∧
  (SimpleLeveledCompactionTask.upper_level task = None ∧ SimpleLeveledCompactionTask.upper_level_sst_ids task = LsmStorageState.l0_sstables st ∨
   ∃ lv, lv ∈ LsmStorageState.levels st ∧ SimpleLeveledCompactionTask.upper_level_sst_ids task = lv.2) ∧
  ManifestRecordSpec.level_ok (SimpleLeveledCompactionTask.upper_level task) ∧
  ManifestRecordSpec.id_ok (SimpleLeveledCompactionTask.lower_level task).
Proof.
  intros Hgen%SimpleLeveledSpec.simple_generate_task Hmax Hlen. unfold ManifestRecordSpec.level_ok, ManifestRecordSpec.id_ok.
  destruct Hgen as [lower Hpos Hlower|i upper lower Hlt Hi Hi']; simpl.
  - split_and!; [|by left|done|lia]. destruct (LsmStorageState.levels st) as [|lv rest]; [simpl in Hlen; lia|].
    exists lv. split; [set_solver|by subst].
  - split_and!; [exists lower|right; exists upper|lia..]; (split; [by eapply list_elem_of_lookup_2|done]).
Qed.

Lemma level_files_sub (st : LsmStorageState.t) lv : lv ∈ LsmStorageState.levels st → lv.2 ⊆ ids_of st.
Proof. intros Hlv id. by eapply ids_of_level. Qed.
Lemma l0_sub (st : LsmStorageState.t) : LsmStorageState.l0_sstables st ⊆ ids_of st.
Proof. unfold ids_of. set_solver. Qed.

Lemma nodup_l0 g w s : engine_ok g w s → NoDup (LsmStorageState.l0_sstables (state s)).
Proof. intros Hok. pose proof (eo_nodup _ _ _ Hok) as (_ & _ & Hnd)%NoDup_app. by apply NoDup_app in Hnd as (? & _ & _). Qed.

Lemma simple_installs G w s outs o (st : LsmStorageState.t) new task :
  finished G w s outs (CompactionTask.compact_to_bottom_level (CompactionTask.Simple task)) (task_inputs (CompactionTask.Simple task)) →
  compaction_controller s = CompactionController.Simple o → since true new st (state s) →
  length (LsmStorageState.levels st) = SimpleLeveledCompactionOptions.max_levels o →
  SimpleLeveledCompactionController.generate_compaction_task o st = Some task →
  installs (λ st, length (LsmStorageState.levels st) = SimpleLeveledCompactionOptions.max_levels o) G s (CompactionTask.Simple task) outs.
Proof.
  intros Hfin Hc Hsince Hlen Hgen. unfold installs. rewrite Hc. set (st1 := LsmStorageState.set_sstables _ _).
  destruct (simple_compaction_spec o st st1 new task (out_ids outs) (content G)) as (st' & Happ & Hlen' & Happl);
    [done|exact Hsince|eapply (nodup_l0 G w s), Hfin|done|by eapply finished_merges|].
  exists st'. split_and!; [done|done| |done|done].
  apply Forall_forall. intros lv Hlv. destruct (simple_apply_levels _ _ _ _ _ Happ lv Hlv) as [->|[->|Hlv']];
    [apply ksorted_nil|by eapply finished_sorted|].
  by apply (proj1 (Forall_forall _ _) (eo_levels _ _ _ (fn_engine _ _ _ _ _ _ Hfin))).
Qed.

(** What a task of the state says: its inputs are in the tree and can be read. *)
Definition task_ok g s task : Prop := task_inputs task ⊆ ids_of (state s) ∧ task_runs g task ∧ ManifestRecordSpec.task_ok task.

Lemma simple_task_ok g w s o task : engine_ok g w s → room s →
  length (LsmStorageState.levels (state s)) = SimpleLeveledCompactionOptions.max_levels o →
  (Z.of_nat (SimpleLeveledCompactionOptions.max_levels o) < 2 ^ 64)%Z →
  SimpleLeveledCompactionController.generate_compaction_task o (state s) = Some task → task_ok g s (CompactionTask.Simple task).
Proof.
  intros Hok Hroom Hlen Hmax Hgen.
  destruct (simple_inputs _ _ _ Hgen Hmax Hlen) as ((low & Hlow & Elow) & Hupper & Hul & Hll).
  assert (SimpleLeveledCompactionTask.upper_level_sst_ids task ⊆ ids_of (state s)) as Hup.
  { destruct Hupper as [[_ ->]|(lv & Hlv & ->)]; [apply l0_sub|by apply level_files_sub]. }
  pose proof (level_files_sub _ _ Hlow) as Hlow'. rewrite <-Elow in Hlow'.
  pose proof (proj1 (Forall_forall _ _) (eo_levels _ _ _ Hok)) as Hruns. split_and!.
  - cbn. set_solver.
  - cbn. split; [rewrite Elow; by apply Hruns|]. intros Hne. destruct Hupper as [[? _]|(lv & Hlv & ->)]; [done|by apply Hruns].
  - split_and!; [done| |done|]; by apply (ids_known g w s).
Qed.

Lemma simple_spec g w s o : engine_ok g w s → affordable g s →
  compaction_controller s = CompactionController.Simple o →
  length (LsmStorageState.levels (state s)) = SimpleLeveledCompactionOptions.max_levels o →
  (Z.of_nat (SimpleLeveledCompactionOptions.max_levels o) < 2 ^ 64)%Z →
  compacts g w s (λ st, length (LsmStorageState.levels st) = SimpleLeveledCompactionOptions.max_levels o).
Proof.
  intros Hok Haf Hc Hlen Hmax.
  destruct (SimpleLeveledCompactionController.generate_compaction_task o (state s)) as [task|] eqn:Hgen; cycle 1.
  { apply compacts_none; [done..|]. rewrite Hc. simpl. by rewrite Hgen. }
  destruct (simple_task_ok g w s o task) as (? & ? & ?); [done|by eapply affordable_room|done..|].
  apply (compacts_some g w s (CompactionTask.Simple task)); try done.
  - rewrite Hc. simpl. by rewrite Hgen.
  - by intros st1 st2 _ <-.
  - intros G w1 n outs Hfin. by apply (simple_installs G w1 _ outs o (state s) []).
Qed.

(** ** Tiered compaction *)

(** Every tier has the id of its first table, or 0 if it is empty, which only the
    last one can be; ids are not repeated. *)
Record tiers_ok (levels : list (nat * list nat)) : Prop := {
  to_nodup : NoDup levels.*1;
  to_head : Forall (λ lv, lv.1 = default 0 (head lv.2)) levels;
  to_nonempty i lv : levels !! i = Some lv → lv.2 = [] → S i = length levels }.

Lemma tiered_apply_l0 (st st' : LsmStorageState.t) task output files :
  TieredCompactionController.apply_compaction_result st task output = Ok (st', files) →
  LsmStorageState.l0_sstables st' = LsmStorageState.l0_sstables st.
Proof.
  unfold TieredCompactionController.apply_compaction_result. intros (_ & _ & (a & _ & (_ & _ & [= <- _])%bind_Ok)%bind_Ok)%bind_Ok. done.
Qed.

(** An open table is not empty. *)
Lemma entries_nonempty g w s id : engine_ok g w s → id ∈ ids_of (state s) → entries_of g id ≠ [].
Proof.
  intros Hok (t & kvss & data & [])%(eo_tables _ _ _ Hok). unfold entries_of. rewrite ta_ghost.
  by eapply SstConcatIteratorSpec.holds_mjoin_nonempty.
Qed.

Lemma singles_names new : (singles new).*1 = new.
Proof. unfold singles. rewrite <-list_fmap_compose. by apply list_fmap_id. Qed.

Lemma length_singles new : length (singles new) = length new.
Proof. apply length_fmap. Qed.

Section replaced.
Context G w s outs task (new : list nat) (old : list (nat * list nat)) (Hfin : finished G w s outs (TieredCompactionTask.bottom_tier_included task) (level_ids (TieredCompactionTask.tiers task))).
Context (Ht : tiers_ok (LsmStorageState.levels (state s)))
  (E : LsmStorageState.levels (state s) = singles new ++ TieredCompactionTask.tiers task ++ old)
  (Hne : TieredCompactionTask.tiers task ≠ []) (Hbot : TieredCompactionTask.bottom_tier_included task = true → old = []).

(** An output without tables comes from empty tiers or goes to the bottom. *)
Lemma empty_output : out_ids outs = [] → old = [].
Proof.
  intros Ho. destruct (TieredCompactionTask.bottom_tier_included task) eqn:Eb; [by apply Hbot|].
  destruct (TieredCompactionTask.tiers task) as [|[x files] tiers] eqn:Et; [done|].
  assert (files = []) as ->.
  { destruct files as [|id files]; [done|]. exfalso.
    assert (id ∈ ids_of (state s)) as Hid by (unfold ids_of; rewrite E, !level_ids_app, level_ids_cons; set_solver).
    pose proof (finished_entries _ _ _ _ _ _ Hfin) as He. rewrite Ho in He. cbn [LsmGen.kept] in He. symmetry in He.
    apply (f_equal length) in He. change (length (level_entries G [])) with 0 in He. rewrite length_entries in He. apply map_size_empty_inv in He.
    pose proof (entries_nonempty G w s id (fn_engine _ _ _ _ _ _ Hfin) Hid) as Hn. rewrite stored_level in He.
    change (level_ids ((x, id :: files) :: tiers)) with (id :: files ++ level_ids tiers) in He. rewrite level_entries_cons in He.
    destruct (entries_of G id) as [|[k v] l]; [done|]. by apply (insert_non_empty (kv_map (l ++ level_entries G (files ++ level_ids tiers))) k v). }
  pose proof (to_nonempty _ Ht (length new) (x, [])) as Hempty. rewrite E, lookup_app_r, length_singles, Nat.sub_diag in Hempty by (rewrite length_singles; lia).
  specialize (Hempty eq_refl eq_refl). apply length_zero_iff_nil. rewrite !length_app, length_singles in Hempty. simpl in Hempty. lia.
Qed.

(** The name of the new tier is not the name of another one. *)
Lemma output_name lv : lv ∈ LsmStorageState.levels (state s) → out_ids outs ≠ [] → lv.1 ≠ default 0 (head (out_ids outs)).
Proof.
  intros Hlv Ho. destruct (out_ids outs) as [|id ids] eqn:Eo; [done|]. simpl.
  rewrite (proj1 (Forall_forall _ _) (to_head _ Ht) _ Hlv). destruct lv as [x files]. simpl.
  destruct files as [|id' files]; simpl; intros <-.
  - apply (fn_pos _ _ _ _ _ _ Hfin). rewrite Eo. set_solver.
  - apply (proj2 (finished_disjoint _ _ _ _ _ _ Hfin) id'); [|rewrite Eo; set_solver]. right.
    eapply ids_of_level; [exact Hlv|simpl; set_solver].
Qed.

Lemma tiers_ok_replaced : 0 ∉ new → tiers_ok (singles new ++ (default 0 (head (out_ids outs)), out_ids outs) :: old).
Proof.
  intros Hzero. pose proof Ht as [Hnd Hhead Hempty]. pose proof (output_name) as Hname. rewrite E in Hnd, Hhead, Hname.
  rewrite !fmap_app, singles_names in Hnd. apply Forall_app in Hhead as [Hh1 [_ Hh2]%Forall_app].
  apply NoDup_app in Hnd as (Hn1 & Hd1 & (_ & _ & Hn2)%NoDup_app). split.
  - rewrite fmap_app, singles_names, fmap_cons. cbn [fst]. apply NoDup_app. split; [done|]. split.
    + intros id Hid [Hi|Hin]%elem_of_cons; [|apply (Hd1 id Hid); set_solver].
      destruct (decide (out_ids outs = [])) as [Ho|Ho]; [by rewrite Ho in Hi; subst|].
      apply (Hname (id, [id])); [|done|exact Hi]. apply elem_of_app. left. by apply (list_elem_of_fmap_2 (λ id, (id, [id]))).
    + apply NoDup_cons. split; [|done]. intros (lv & Hlv & Hin)%list_elem_of_fmap_1.
      destruct (decide (out_ids outs = [])) as [Ho|Ho]; [rewrite empty_output in Hin by done; by apply not_elem_of_nil in Hin|].
      apply (Hname lv); [set_solver|done|by symmetry].
  - apply Forall_app. split; [done|]. by constructor.
  - intros i lv Hi Hlv. rewrite length_app, length_singles. simpl.
    apply lookup_app_Some in Hi as [Hi|[Hge Hi]].
    { unfold singles in Hi. apply list_lookup_fmap_Some in Hi as (id & -> & _). done. }
    rewrite length_singles in Hge, Hi. destruct (i - length new) as [|k] eqn:Ek; simpl in Hi.
    + injection Hi as <-. simpl in Hlv. rewrite empty_output by done. simpl. lia.
    + specialize (Hempty (length new + (length (TieredCompactionTask.tiers task) + k)) lv).
      rewrite E, !length_app, length_singles in Hempty. rewrite lookup_app_r, length_singles, lookup_app_r in Hempty by (rewrite ?length_singles; lia).
      replace (length new + (length (TieredCompactionTask.tiers task) + k) - length new - length (TieredCompactionTask.tiers task)) with k in Hempty by lia.
      specialize (Hempty Hi Hlv). lia.
Qed.
End replaced.

Lemma tiered_installs G w s outs o (st : LsmStorageState.t) new task :
  finished G w s outs (CompactionTask.compact_to_bottom_level (CompactionTask.Tiered task)) (task_inputs (CompactionTask.Tiered task)) →
  compaction_controller s = CompactionController.Tiered o → TieredCompactionOptions.max_merge_width o = None →
  since false new st (state s) → 0 ∉ new → tiers_ok (LsmStorageState.levels (state s)) →
  TieredCompactionController.generate_compaction_task o st = Ok (Some task) →
  installs (λ st, tiers_ok (LsmStorageState.levels st)) G s (CompactionTask.Tiered task) outs.
Proof.
  intros Hfin Hc Hw [_ Hlv] Hzero Ht Hgen. unfold installs. rewrite Hc. set (st1 := LsmStorageState.set_sstables _ _).
  pose proof (fn_engine _ _ _ _ _ _ Hfin) as []. rewrite Hc in eo_tiers. specialize (eo_tiers eq_refl).
  destruct (TieredSpec.tiered_generate_task _ _ _ Hgen) as (n & Htiers & Hne & Hn & Hb). rewrite Hw in Hn, Hb.
  destruct (tiered_compaction_spec o st st1 (singles new) task (out_ids outs) (content G)) as (st' & old & Hold & Happ & Hlv' & Happl);
    [done|exact eo_tiers|exact Hlv|apply Ht|done|by apply (finished_merges _ _ _ _ _ _ Hfin)|].
  rewrite Hold in Hlv. exists st'. split_and!; [done|done| | |].
  - rewrite Hlv'. rewrite Hlv in eo_levels. apply Forall_app in eo_levels as [Hl1 [_ Hl2]%Forall_app].
    apply Forall_app. split; [done|]. constructor; [by eapply finished_sorted|done].
  - intros _. by rewrite (tiered_apply_l0 _ _ _ _ _ Happ).
  - rewrite Hlv'. eapply (tiers_ok_replaced G w s outs task new old); try done.
    + rewrite Htiers. destruct n as [|n]; [by discriminate Hn|]. by destruct (LsmStorageState.levels st).
    + intros Hbot. destruct (Hb Hbot) as [Hge|[? _]]; [|done]. apply (app_inv_head (TieredCompactionTask.tiers task)).
      by rewrite <-Hold, Htiers, take_ge, app_nil_r.
Qed.

Lemma tiered_task_ok g w s o task : engine_ok g w s → room s → TieredCompactionOptions.max_merge_width o = None →
  tiers_ok (LsmStorageState.levels (state s)) →
  TieredCompactionController.generate_compaction_task o (state s) = Ok (Some task) →
  task_ok g s (CompactionTask.Tiered task) ∧ LsmStorageState.levels (state s) ≠ [].
Proof.
  intros Hok Hroom Hw Ht Hgen. destruct (TieredSpec.tiered_generate_task _ _ _ Hgen) as (n & Htiers & Hne & Hn & _).
  assert (LsmStorageState.levels (state s) = TieredCompactionTask.tiers task ++ drop n (LsmStorageState.levels (state s))) as E by (by rewrite Htiers, take_drop).
  assert (∀ tier, tier ∈ TieredCompactionTask.tiers task → tier ∈ LsmStorageState.levels (state s)) as Hsub.
  { intros tier Htier. rewrite E. set_solver. }
  pose proof (proj1 (Forall_forall _ _) (eo_levels _ _ _ Hok)) as Hruns. split; [|intros Ez; rewrite Ez in Hne; by destruct n]. split_and!.
  - cbn. unfold ids_of. rewrite E, level_ids_app. set_solver.
  - cbn. apply Forall_forall. intros tier Htier. by apply Hruns, Hsub.
  - apply Forall_forall. intros tier Htier. pose proof (level_files_sub _ _ (Hsub _ Htier)) as Hs.
    pose proof (ids_known g w s tier.2 Hok Hroom Hs) as Hids. split; [|done].
    rewrite (proj1 (Forall_forall _ _) (to_head _ Ht) tier (Hsub _ Htier)). destruct tier.2; simpl; [done|by apply Forall_inv in Hids].
Qed.

Lemma tiered_spec g w s o : engine_ok g w s → affordable g s →
  compaction_controller s = CompactionController.Tiered o →
  TieredCompactionOptions.max_merge_width o = None →
  (TieredCompactionOptions.num_tiers o ≠ 0 ∨ LsmStorageState.levels (state s) ≠ []) →
  tiers_ok (LsmStorageState.levels (state s)) →
  compacts g w s (λ st, tiers_ok (LsmStorageState.levels st) ∧
    (LsmStorageState.levels (state s) = [] → LsmStorageState.levels st = [])).
Proof.
  intros Hok Haf Hc Hw Hnum Ht. pose proof (eo_tiers _ _ _ Hok) as Hl0. rewrite Hc in Hl0. specialize (Hl0 eq_refl).
  destruct (TieredSpec.tiered_generate_total o (state s)) as [[task|] Hgen]; [done|tauto| |]; cycle 1.
  { apply compacts_none; [done..|]. rewrite Hc. simpl. by rewrite Hgen. }
  destruct (tiered_task_ok g w s o task) as [(? & ? & ?) Hne]; [done|by eapply affordable_room|done..|].
  apply (compacts_some g w s (CompactionTask.Tiered task)); try done.
  - rewrite Hc. simpl. by rewrite Hgen.
  - by intros st1 st2 _ <-.
  - intros G w1 k outs Hfin. destruct (tiered_installs G w1 (advanced s k) outs o (state s) [] task) as (st' & Happ & Happl & Hl & Hl0' & Ht');
      [done|done|done|by apply since_refl|by apply not_elem_of_nil|done|done|].
    by exists st'.
Qed.
End strategies.
