(* ===== verification/LsmLeveled.v ===== *)
(** * Leveled compaction of the engine

    The controller of src/compact/leveled.cpp orders tables by their key ranges;
    the engine knows what the tables hold.  The two views of a level, a run of
    disjoint ranges and a sorted list of entries, are the same, so the
    correctness of the controller carries over to [trigger_compaction]. *)
From S2P Require Import Prelude Endian Key Iterators Block BlockCache Double Bloom Table Sizes TableIterator Wal MemTable State Layers SimpleLeveled Tiered Leveled Compact Manifest LsmStorage LsmSpec LsmRead LsmWrite LsmGen LsmCompact LsmInstall LsmStrategies.

(** ** The ends of a sorted list *)
Lemma sorted_ends l : ksorted l → l ≠ [] →
  first_of l ∈ l.*1 ∧ last_of l ∈ l.*1 ∧ ∀ k, k ∈ l.*1 → key_le (first_of l) k ∧ key_le k (last_of l).
Proof.
  intros Hs Hne. assert (first_of l ∈ l.*1) as Hf by (destruct l as [|[k v] l]; [done|]; simpl; set_solver).
  assert (last_of l ∈ l.*1) as Hl.
  { unfold last_of. destruct (last l) as [e|] eqn:E; [|by apply last_None in E].
    apply last_Some in E as [l' ->]. rewrite fmap_app. set_solver. }
  split_and!; [done..|]. intros k Hk. split.
  - destruct l as [|[k0 v0] l]; [done|]. simpl in *. apply elem_of_cons in Hk as [->|Hk]; [key_order|].
    pose proof (ksorted_head_lt _ _ _ _ Hs Hk). key_order.
  - unfold last_of in *. destruct (last l) as [e|] eqn:E; [|by apply last_None in E].
    apply last_Some in E as [l' ->]. rewrite fmap_app, elem_of_app in Hk. apply ksorted_app in Hs as (_ & _ & Hlt).
    destruct Hk as [Hk|Hk%list_elem_of_singleton]; [|by subst; key_order]. pose proof (Hlt k e.1 Hk ltac:(set_solver)). key_order.
Qed.

Section ranges.
Context `{!Zlib} `{!Snappy} `{!Farmhash}.
Implicit Types (G : ghost) (ts : gmap nat SsTable.t) (ids : list nat).

(** The table of [id] is in the map and holds what [G] says. *)
Definition tabled G ts id : Prop := ∃ t kvss, ts !! id = Some t ∧ holds t kvss ∧ entries_of G id = mjoin kvss.

Lemma tabled_entries G ts id : tabled G ts id → ksorted (entries_of G id) ∧ entries_of G id ≠ [].
Proof.
  intros (t & kvss & _ & Hh & ->). split; [by eapply holds_sorted|by eapply SstConcatIteratorSpec.holds_mjoin_nonempty].
Qed.

Lemma tabled_range G ts id : tabled G ts id → LeveledSpec.range ts id (first_of (entries_of G id)) (last_of (entries_of G id)).
Proof.
  intros Ht. destruct (tabled_entries _ _ _ Ht) as [Hs Hne]. destruct Ht as (t & kvss & Hts & Hh & E).
  exists t. rewrite (holds_first _ _ Hh), (holds_last _ _ Hh), <-E. split_and!; [done..|].
  destruct (sorted_ends _ Hs Hne) as (Hf & _ & Hall). by apply Hall in Hf as [_ ?].
Qed.

Lemma tabled_bounded G ts id : tabled G ts id → LeveledSpec.bounded (content G) ts id.
Proof.
  intros Ht. eexists _, _. split; [by apply tabled_range|]. intros k Hk. destruct (tabled_entries _ _ _ Ht) as [Hs Hne].
  apply (sorted_ends _ Hs Hne). by apply kv_map_is_Some in Hk.
Qed.

Lemma before_iff G ts x y : tabled G ts x → tabled G ts y →
  LeveledSpec.before ts x y ↔ ∀ k k', k ∈ (entries_of G x).*1 → k' ∈ (entries_of G y).*1 → key_lt k k'.
Proof.
  intros Hx Hy. pose proof (tabled_range _ _ _ Hx) as Rx. pose proof (tabled_range _ _ _ Hy) as Ry.
  destruct (tabled_entries _ _ _ Hx) as [Sx Nx]. destruct (tabled_entries _ _ _ Hy) as [Sy Ny].
  destruct (sorted_ends _ Sx Nx) as (_ & Lx & Ax). destruct (sorted_ends _ Sy Ny) as (Fy & _ & Ay). split.
  - intros (lx & hx & ly & hy & Rx' & Ry' & Hlt) k k' Hk Hk'.
    destruct (LeveledSpec.range_fun _ _ _ _ _ _ Rx Rx') as [<- <-]. destruct (LeveledSpec.range_fun _ _ _ _ _ _ Ry Ry') as [<- <-].
    destruct (Ax k Hk) as [_ ?]. destruct (Ay k' Hk') as [? _]. key_order.
  - intros Hlt. do 4 eexists. split_and!; [done..|]. by apply Hlt.
Qed.

(** A level is a run of ranges exactly if its entries are sorted. *)
Lemma run_iff G ts ids : (∀ id, id ∈ ids → tabled G ts id) → LeveledSpec.run ts ids ↔ ksorted (level_entries G ids).
Proof.
  induction ids as [|id ids IH]; intros Ht; [split; [intros _; apply ksorted_nil|constructor]|].
  unfold LeveledSpec.run in *. rewrite StronglySorted_cons, level_entries_cons, ksorted_app, IH by (intros; apply Ht; set_solver).
  destruct (tabled_entries G ts id) as [Hs _]; [apply Ht; set_solver|]. rewrite Forall_forall.
  assert ((∀ x, x ∈ ids → LeveledSpec.before ts id x) ↔
    ∀ k k', k ∈ (entries_of G id).*1 → k' ∈ (level_entries G ids).*1 → key_lt k k') as ->; [|tauto].
  split.
  - intros Hb k k' Hk [[k1 v'] [-> Hin]]%list_elem_of_fmap_1. apply list_elem_of_join in Hin as (l & Hl & (x & -> & Hx)%list_elem_of_fmap_1).
    apply (before_iff G ts id x); [apply Ht; set_solver..|by apply Hb|done|]. by apply (list_elem_of_fmap_2 fst) in Hl.
  - intros Hlt x Hx. apply (before_iff G); [apply Ht; set_solver..|]. intros k k' Hk Hk'. apply Hlt; [done|].
    apply list_elem_of_fmap_1 in Hk' as (e & -> & He). apply list_elem_of_fmap_2, list_elem_of_join. exists (entries_of G x).
    split; [done|by apply list_elem_of_fmap_2].
Qed.

(** The ends of an output table are keys of the inputs. *)
Lemma tabled_spans G ts bottom inputs output id : merges (content G) bottom inputs output → id ∈ output → tabled G ts id →
  LeveledSpec.spans (content G) ts inputs id.
Proof.
  intros Hm Hid Ht. eexists _, _. split; [by apply tabled_range|]. destruct (tabled_entries _ _ _ Ht) as [Hs Hne].
  destruct (sorted_ends _ Hs Hne) as (Hf & Hl & _).
  assert (∀ k, k ∈ (entries_of G id).*1 → is_Some (stored (content G) inputs !! k)) as Hk; [|split; by apply Hk].
  intros k Hk. assert (is_Some (stored (content G) output !! k)) as [v Hv].
  { apply LeveledSpec.stored_is_Some. exists id. split; [done|]. by apply kv_map_is_Some. }
  rewrite Hm in Hv. destruct bottom; [apply lookup_visible in Hv as [Hv _]|]; by eexists.
Qed.
End ranges.

(** ** The controller on the engine's state *)
Section leveled.
Context `{!Zlib} `{!Snappy} `{!SnappyLaws} `{!SnappyBound} `{!Farmhash} `{!Libm} `{!Json} `{!JsonLaws} `{!LoopFuel}.
Import LsmStorageInner.
Implicit Types (g G : ghost) (w : World) (s : LsmStorageInner.t) (outs : list (SsTable.t * list (list kv))).

Lemma engine_tabled g w s id : engine_ok g w s → id ∈ ids_of (state s) → tabled g (LsmStorageState.sstables (state s)) id.
Proof.
  intros Hok (t & kvss & data & [])%(eo_tables _ _ _ Hok). exists t, kvss. unfold entries_of. by rewrite ta_ghost.
Qed.

(** The map with the output added knows the tables of the state and those of the
    output. *)
Lemma finished_tabled G w s outs bottom inputs id : finished G w s outs bottom inputs →
  id ∈ ids_of (state s) ++ out_ids outs → tabled G (add_tables (LsmStorageState.sstables (state s)) outs.*1) id.
Proof.
  intros Hfin Hid. destruct (finished_disjoint _ _ _ _ _ _ Hfin) as [Hndo Hd]. pose proof Hfin as [He _ HG Hb _ _ _].
  destruct (add_tables_lookup (LsmStorageState.sstables (state s)) outs.*1 Hndo) as [Ha1 Ha2].
  apply elem_of_app in Hid as [Hid|Hid].
  - destruct (engine_tabled _ _ _ _ He Hid) as (t & kvss & Ht & ?). exists t, kvss. split; [|done]. rewrite Ha2; [done|]. apply Hd. by right.
  - unfold out_ids in Hid. apply list_elem_of_fmap_1 in Hid as (t & -> & Ht). pose proof Ht as Ht'.
    apply list_elem_of_fmap_1 in Ht' as (x & -> & Hx). destruct (proj1 (Forall_forall _ _) Hb x Hx) as (data & Hh & _).
    exists x.1, x.2. split_and!; [by apply Ha1|done|]. unfold entries_of. by rewrite HG.
Qed.

(** The configuration that the controller relies on. *)
Record leveled_config o (st : LsmStorageState.t) : Prop := {
  lc_multiplier : LeveledCompactionOptions.level_size_multiplier o ≠ 0%Z;
  lc_levels : length (LsmStorageState.levels st) = LeveledCompactionOptions.max_levels o;
  lc_max : 0 < LeveledCompactionOptions.max_levels o ∧ (Z.of_nat (LeveledCompactionOptions.max_levels o) < 2 ^ 64)%Z }.

Lemma leveled_ok_of content o (st : LsmStorageState.t) G : leveled_config o st → content = LsmSpec.content G → NoDup (ids_of st) →
  (∀ id, id ∈ ids_of st → tabled G (LsmStorageState.sstables st) id) →
  Forall (λ lv, ksorted (level_entries G lv.2)) (LsmStorageState.levels st) → leveled_ok content o st.
Proof.
  intros [Hm Hl [Hmax _]] -> Hnd Ht Hr. split; [done..| |].
  - apply Forall_forall. intros id Hid. by apply tabled_bounded, Ht.
  - apply Forall_forall. intros lv Hlv. apply (run_iff G); [|by eapply Forall_forall in Hr].
    intros id Hid. apply Ht. by eapply ids_of_level.
Qed.

(** A task of level 0 skips only empty levels. *)
Definition leveled_safe o (st : LsmStorageState.t) : Prop := ∀ task,
  LeveledCompactionController.generate_compaction_task o st = Ok (Some task) →
  LeveledCompactionTask.upper_level task = None →
  Forall (λ lv, lv.2 = []) (take (LeveledCompactionTask.lower_level task - 1) (LsmStorageState.levels st)).

(** The levels of a task exist. *)
Lemma leveled_levels o (st : LsmStorageState.t) task :
  LeveledCompactionController.generate_compaction_task o st = Ok (Some task) → leveled_config o st →
  ManifestRecordSpec.level_ok (LeveledCompactionTask.upper_level task) ∧
  LeveledCompactionTask.lower_level task ≤ LeveledCompactionOptions.max_levels o.
Proof.
  intros Hgen [Hmul Hlen [Hmax Hb]]. apply LeveledSpec.leveled_generate_task in Hgen; [|done..].
  destruct Hgen as [base Hbase|lv x upper sst Hu Hsst Hlv]; simpl; [by split; [|lia]|].
  unfold ManifestRecordSpec.id_ok. lia.
Qed.

(** With one level nothing can be skipped. *)
Lemma leveled_one_level o (st : LsmStorageState.t) : leveled_config o st → LeveledCompactionOptions.max_levels o = 1 → leveled_safe o st.
Proof.
  intros Hcfg E task Hgen _. destruct (leveled_levels o st task Hgen Hcfg) as [_ Hle].
  replace (LeveledCompactionTask.lower_level task - 1) with 0 by lia. constructor.
Qed.

(** The inputs of a task are in the tree; those that are read by concatenation
    are parts of a level. *)
Lemma leveled_inputs o (st : LsmStorageState.t) content task : leveled_ok content o st →
  LeveledCompactionController.generate_compaction_task o st = Ok (Some task) →
  LeveledCompactionTask.upper_level_sst_ids task ++ LeveledCompactionTask.lower_level_sst_ids task ⊆ ids_of st ∧
  LeveledSpec.run (LsmStorageState.sstables st) (LeveledCompactionTask.lower_level_sst_ids task) ∧
  (LeveledCompactionTask.upper_level task ≠ None → ∃ id, LeveledCompactionTask.upper_level_sst_ids task = [id]).
Proof.
  intros Hok Hgen. pose proof Hok as [Hmul Hlen Hmax _ _ _].
  apply LeveledSpec.leveled_generate_task in Hgen; [|done..].
  assert (∀ upper i, upper ⊆ ids_of st → i < LeveledCompactionOptions.max_levels o →
    upper ++ LeveledCompactionController.find_overlapping_ssts st upper (S i) ⊆ ids_of st ∧
    LeveledSpec.run (LsmStorageState.sstables st) (LeveledCompactionController.find_overlapping_ssts st upper (S i))) as Hfind.
  { intros upper i Hup Hi. destruct (lookup_lt_is_Some_2 (LsmStorageState.levels st) i) as [[x files] Hx]; [lia|].
    destruct (LeveledCompactionSpec.leveled_ok_level _ _ _ _ _ _ Hok Hx) as (_ & _ & Hr & Hin).
    destruct (LeveledCompactionSpec.find_lower content o st st [] upper i x files Hok) as (Hsub & _ & _); [done|done|done|].
    split; [set_solver|]. unfold LeveledCompactionController.find_overlapping_ssts. destruct (foldl _ _ _) as [[[] b] e]; [constructor|].
    case_decide; [constructor|]. replace (S i - 1) with i by lia. rewrite Hx. by apply LeveledSpec.run_filter. }
  destruct Hgen as [base Hbase|lv x upper sst Hu Hsst Hlv]; simpl in *.
  - destruct base as [|base]; [lia|]. destruct (Hfind (LsmStorageState.l0_sstables st) base) as [? ?]; [apply l0_sub|lia|done].
  - destruct (LeveledCompactionSpec.leveled_ok_level _ _ _ _ _ _ Hok Hu) as (_ & _ & _ & Hin).
    destruct (Hfind [sst] (S lv)) as [? ?]; [by intros ? ->%list_elem_of_singleton; apply Hin|lia|].
    split_and!; [done..|]. by exists sst.
Qed.

Lemma leveled_installs G w s outs o task :
  finished G w s outs (CompactionTask.compact_to_bottom_level (CompactionTask.Leveled task)) (task_inputs (CompactionTask.Leveled task)) →
  compaction_controller s = CompactionController.Leveled o → leveled_config o (state s) →
  LeveledCompactionController.generate_compaction_task o (state s) = Ok (Some task) →
  (LeveledCompactionTask.upper_level task = None →
   Forall (λ lv, lv.2 = []) (take (LeveledCompactionTask.lower_level task - 1) (LsmStorageState.levels (state s)))) →
  installs (leveled_config o) G s (CompactionTask.Leveled task) outs.
Proof.
  intros Hfin Hc Hcfg Hgen Hempty. pose proof Hcfg as [Hmul Hlen [Hmax Hmax64]]. unfold installs. rewrite Hc.
  set (st := LsmStorageState.set_sstables _ _). cbn [CompactionController.apply_compaction_result].
  assert (∀ id, id ∈ ids_of (state s) ++ out_ids outs → tabled G (LsmStorageState.sstables st) id) as Htab
    by (intros id; exact (finished_tabled _ _ _ _ _ _ id Hfin)).
  destruct (finished_disjoint _ _ _ _ _ _ Hfin) as [Hndo Hdisj]. pose proof Hfin as [He _ HG Hb Hnd _ _].
  destruct (add_tables_lookup (LsmStorageState.sstables (state s)) outs.*1) as [Ha1 Ha2]; [done|].
  assert (NoDup (ids_of (state s) ++ out_ids outs)) as Hnd2 by (by apply NoDup_app in Hnd as (_ & _ & ?)).
  assert (NoDup (ids_of (state s))) as Hnd1 by (by apply NoDup_app in Hnd2 as (? & _ & _)).
  assert (leveled_ok (content G) o (state s)) as Hlok1.
  { apply (leveled_ok_of _ _ _ G); [done|done|done| |apply He]. intros id Hid. by apply (engine_tabled G w s). }
  assert (leveled_ok (content G) o st) as Hlok2.
  { apply (leveled_ok_of _ _ _ G); [by destruct Hcfg|done|done| |apply He]. intros id Hid. apply Htab. unfold ids_of in *. set_solver. }
  destruct (leveled_compaction_spec (content G) o (state s) st [] task (out_ids outs)) as (_ & st' & Happ & Happl & Hlok'); try done.
  - split; [done..|]. intros id Hid. apply Ha2, Hdisj. by right.
  - split; [by eapply finished_merges| | | |done].
    + apply (run_iff G); [|by eapply finished_sorted]. intros id Hid. apply Htab; set_solver.
    + apply Forall_forall. intros id Hid. apply tabled_bounded. apply Htab; set_solver.
    + apply Forall_forall. intros id Hid. eapply (tabled_spans G); [by apply (finished_merges _ _ _ _ _ _ Hfin)|done|]. apply Htab; set_solver.
  - exists st'. split_and!; [done|done| |done|].
    + apply Forall_forall. intros lv Hlv. apply (run_iff G (LsmStorageState.sstables st')).
      { intros id Hid. pose proof (applied_sstables _ _ _ _ Happl) as E. cbn [fst] in E. rewrite E. apply Htab.
        assert (id ∈ ids_of st' ++ task_inputs (CompactionTask.Leveled task)) as Hid' by (apply elem_of_app; left; by eapply ids_of_level).
        pose proof (applied_ids _ _ _ _ Happl) as Hperm. cbn [fst snd] in Hperm. cbn [task_inputs] in Hid'. rewrite Hperm in Hid'. exact Hid'. }
      by apply (proj1 (Forall_forall _ _) (lo_runs _ _ _ Hlok')).
    + split; [done|apply Hlok'|done].
Qed.

Lemma leveled_spec g w s o : engine_ok g w s → affordable g s →
  compaction_controller s = CompactionController.Leveled o →
  leveled_config o (state s) → leveled_safe o (state s) →
  compacts g w s (leveled_config o).
Proof.
  intros Hok Haf Hc Hcfg Hsafe. pose proof Hcfg as [Hmul Hlen [Hmax Hmax64]]. pose proof (affordable_room _ _ Haf) as Hroom.
  assert (NoDup (ids_of (state s))) as Hnd by (by pose proof (eo_nodup _ _ _ Hok) as (_ & _ & ?)%NoDup_app).
  assert (leveled_ok (content g) o (state s)) as Hlok.
  { apply (leveled_ok_of _ _ _ g); [done|done|done| |apply Hok]. intros id. by apply (engine_tabled g w s). }
  destruct (LeveledSpec.leveled_generate_total o (state s)) as [[task|] Hgen]; [done..| |]; cycle 1.
  { apply compacts_none; [done..|]. rewrite Hc. simpl. by rewrite Hgen. }
  pose proof (Hsafe task Hgen) as Hempty. destruct (leveled_inputs o (state s) _ task Hlok Hgen) as (Hin & Hrun & Hone).
  assert (LeveledCompactionTask.upper_level_sst_ids task ⊆ ids_of (state s) ∧ LeveledCompactionTask.lower_level_sst_ids task ⊆ ids_of (state s)) as [Hin1 Hin2] by set_solver.
  apply (compacts_some g w s (CompactionTask.Leveled task)); try done.
  - rewrite Hc. simpl. by rewrite Hgen.
  - cbn. split.
    + apply (run_iff g (LsmStorageState.sstables (state s))); [|done]. intros id Hid. apply (engine_tabled g w s); [done|by apply Hin2].
    + intros [id E]%Hone. rewrite E in Hin1 |- *. assert (id ∈ ids_of (state s)) as Hid by set_solver.
      rewrite level_entries_cons. change (level_entries g []) with (@nil kv). rewrite app_nil_r.
      by apply (tabled_entries g (LsmStorageState.sstables (state s))), (engine_tabled g w s).
  - cbn. destruct (leveled_levels o _ task Hgen Hcfg) as [Hul Hlow].
    split_and!; [done| | |]; [by apply (ids_known g w s)|unfold ManifestRecordSpec.id_ok; lia|by apply (ids_known g w s)].
  - intros st1 st2 _ E [? ? ?]. split; [done|by rewrite <-E|done].
  - intros G w1 n outs Hfin. by apply (leveled_installs G w1 (advanced s n)).
Qed.
End leveled.
