(* ===== verification/LsmJournal.v ===== *)
(** * The manifest describes the structure

    Replaying the records of the manifest, as [LsmStorageInner::open] does,
    rebuilds the level-0 list and the levels of the running engine and the set of
    memtables that were not flushed.  Each operation keeps this; the exception is
    the leveled strategy, whose replay does not sort (see
    [leveled_recovery_breaks_run]). *)
From S2P Require Import Prelude Endian Key Iterators Block BlockCache Double Bloom Table Sizes TableIterator Wal MemTable State Layers SimpleLeveled Tiered Leveled Compact Manifest LsmStorage LsmSpec LsmRead LsmWrite LsmGen LsmCompact LsmInstall LsmStrategies.

(** ** Replaying a compaction on another state with the same structure *)
Definition same_structure (st1 st2 : LsmStorageState.t) : Prop :=
  LsmStorageState.l0_sstables st1 = LsmStorageState.l0_sstables st2 ∧ LsmStorageState.levels st1 = LsmStorageState.levels st2.

(** [st] with the memtables and tables of [b]. *)
Definition transplant (b st : LsmStorageState.t) : LsmStorageState.t :=
  LsmStorageState.mk (LsmStorageState.memtable b) (LsmStorageState.imm_memtables b) (LsmStorageState.l0_sstables st)
    (LsmStorageState.levels st) (LsmStorageState.sstables b).

Lemma transplant_same b st : same_structure b st → transplant b st = b.
Proof. destruct b. by intros [E1 E2]; unfold transplant; simpl in *; subst. Qed.

Section transplant.
Context (b : LsmStorageState.t).

Lemma transplant_set_level_files st i files st' : LsmStorageState.set_level_files st i files = Ok st' →
  LsmStorageState.set_level_files (transplant b st) i files = Ok (transplant b st').
Proof.
  destruct i as [|i]; [done|]. unfold LsmStorageState.set_level_files. intros (lv & Hlv & [= <-])%bind_Ok. simpl. by rewrite Hlv.
Qed.

Lemma transplant_simple st task output st' files :
  SimpleLeveledCompactionController.apply_compaction_result st task output = Ok (st', files) →
  SimpleLeveledCompactionController.apply_compaction_result (transplant b st) task output = Ok (transplant b st', files).
Proof.
  unfold SimpleLeveledCompactionController.apply_compaction_result. intros ([st1 f1] & Hup & Hlow)%bind_Ok.
  apply bind_Ok in Hlow as (f & Hf & Hlow). apply bind_Ok in Hlow as (u & Hu & Hlow). apply bind_Ok in Hlow as (st2 & Hset & [= -> <-]).
  rewrite (bind_ok _ (transplant b st1, f1)).
  - change (LsmStorageState.level_files (transplant b st1)) with (LsmStorageState.level_files st1). rewrite Hf. cbn [mbind res_bind]. rewrite Hu. cbn [mbind res_bind].
    by rewrite (transplant_set_level_files _ _ _ _ Hset).
  - destruct (SimpleLeveledCompactionTask.upper_level task) as [u'|].
    + apply bind_Ok in Hup as (f' & Hf' & Hup). apply bind_Ok in Hup as (v & Hv & Hup). apply bind_Ok in Hup as (st3 & Hset' & [= <- <-]).
      change (LsmStorageState.level_files (transplant b st)) with (LsmStorageState.level_files st). rewrite Hf'. cbn [mbind res_bind]. rewrite Hv. cbn [mbind res_bind].
      by rewrite (transplant_set_level_files _ _ _ _ Hset').
    + change (LsmStorageState.l0_sstables (transplant b st)) with (LsmStorageState.l0_sstables st).
      destruct (remove_ids _ _) as [new_l0 rest]. apply bind_Ok in Hup as (v & Hv & [= <- <-]). by rewrite Hv.
Qed.

Lemma transplant_tiered st task output st' files :
  TieredCompactionController.apply_compaction_result st task output = Ok (st', files) →
  TieredCompactionController.apply_compaction_result (transplant b st) task output = Ok (transplant b st', files).
Proof.
  unfold TieredCompactionController.apply_compaction_result. intros (u & Hu & (a & Ha & (v & Hv & [= <- <-])%bind_Ok)%bind_Ok)%bind_Ok.
  change (LsmStorageState.l0_sstables (transplant b st)) with (LsmStorageState.l0_sstables st).
  change (LsmStorageState.levels (transplant b st)) with (LsmStorageState.levels st).
  rewrite Hu. cbn [mbind res_bind]. rewrite Ha. cbn [mbind res_bind]. by rewrite Hv.
Qed.

End transplant.

(** Every strategy but the leveled one looks at the structure only, as a full
    compaction does. *)
Lemma apply_same c st1 st2 task output r st1' files : (∀ o, c ≠ CompactionController.Leveled o) →
  CompactionController.apply_compaction_result c st1 task output false = Ok (st1', files) → same_structure st1 st2 →
  ∃ st2', CompactionController.apply_compaction_result c st2 task output r = Ok (st2', files) ∧ same_structure st1' st2' ∧
    LsmStorageState.imm_memtables st2' = LsmStorageState.imm_memtables st2.
Proof.
  intros Hc Happ Hs. pose proof (transplant_same _ _ (conj (eq_sym (proj1 Hs)) (eq_sym (proj2 Hs)))) as Et.
  destruct task as [t|t|t|t]; simpl in Happ |- *; cycle 3.
  { injection Happ as <- <-. eexists. split; [by unfold CompactionController.apply_force_full|]. destruct Hs as [E1 E2].
    split; [|done]. split; simpl; by rewrite ?E1, ?E2. }
  all: destruct c as [o|o|o|]; try done; try (by destruct (Hc o)).
  - exists (transplant st2 st1'). split; [|done]. apply (transplant_tiered st2) in Happ. by rewrite Et in Happ.
  - exists (transplant st2 st1'). split; [|done]. apply (transplant_simple st2) in Happ. by rewrite Et in Happ.
Qed.

(** ** The set of ids *)
Lemma set_insert_snoc id l : Forall (λ x, x < id) l → LsmStorageInner.set_insert id l = l ++ [id].
Proof.
  induction 1 as [|x l Hx _ IH]; [done|]. simpl. rewrite decide_False, decide_False by lia. by rewrite IH.
Qed.
Lemma set_erase_head id l : id ∉ l → LsmStorageInner.set_erase id (id :: l) = l.
Proof.
  intros Hn. unfold LsmStorageInner.set_erase. rewrite filter_cons_False by (intros []; done).
  apply filter_all, Forall_forall. by intros x Hx ->.
Qed.

Lemma foldl_max n out : n ≤ foldl Nat.max n out ∧ (∀ id, id ∈ out → id ≤ foldl Nat.max n out) ∧
  ∀ k, n ≤ k → Forall (λ id, id < k) out → foldl Nat.max n out ≤ k.
Proof.
  revert n; induction out as [|x out IH]; intros n; simpl; [split_and!; [done|by intros ? ?%not_elem_of_nil|done]|].
  destruct (IH (n `max` x)) as (H1' & H2' & H3'). split_and!; [lia| |].
  - intros id [->|Hin]%elem_of_cons; [lia|auto].
  - intros k Hn [Hx Hout]%Forall_cons. apply H3'; [lia|done].
Qed.

(** ** The journal *)
Section journal.
Context `{!Zlib} `{!Snappy} `{!SnappyLaws} `{!SnappyBound} `{!Farmhash} `{!Libm} `{!Json} `{!JsonLaws} `{!LoopFuel}.
Import LsmStorageInner.
Implicit Types (g G : ghost) (w : World) (s : LsmStorageInner.t) (rs : list ManifestRecord.t).

(** What replaying the records leaves. *)
Record replayed rs s (st : LsmStorageState.t) (n : nat) : Prop := {
  rp_run : replay_records (compaction_controller s) (LsmStorageState.create (options s), 1, []) rs = Ok (st, n, rev (mem_ids (state s)));
  rp_same : same_structure (state s) st;
  rp_imm : LsmStorageState.imm_memtables st = [];
  rp_next : n ≤ next_sst_id s;
  rp_ids id : id ∈ mem_ids (state s) ∨ id ∈ ids_of (state s) → id ≤ n }.

Definition journaled w s : Prop := ∃ rs st n, logged rs w s ∧ Forall ManifestRecordSpec.record_ok rs ∧ replayed rs s st n.

Lemma replay_records_snoc c r rs rec r1 : replay_records c r rs = Ok r1 →
  replay_records c r (rs ++ [rec]) = replay_record c r1 rec.
Proof.
  revert r; induction rs as [|x rs IH]; intros r; simpl.
  - intros [= ->]. by destruct (replay_record c r1 rec).
  - destruct (replay_record c r x) as [r2|]; [|done]. simpl. apply IH.
Qed.

(** One more record. *)
Lemma journaled_step new w s w' s' : journaled w s → evolves new w s w' s' →
  (new = [] ∨ ∃ r, new = [r] ∧ ManifestRecordSpec.record_ok r) →
  (∀ rs st n, replayed rs s st n → ∃ st' n', replayed (rs ++ new) s' st' n') → journaled w' s'.
Proof.
  intros (rs & st & n & Hlog & Hok & Hrep) [_ _ _ Hev] Hnew Hstep. destruct (Hstep rs st n Hrep) as (st' & n' & Hrep').
  exists (rs ++ new), st', n'. split_and!; [by apply Hev| |done]. apply Forall_app. split; [done|].
  destruct Hnew as [->|(r & -> & ?)]; by repeat constructor.
Qed.

(** The structure, the memtable ids and the counter are what they were. *)
Lemma replayed_same w s w' s' rs st n : evolves [] w s w' s' → same_structure (state s') (state s) →
  mem_ids (state s') = mem_ids (state s) → next_sst_id s ≤ next_sst_id s' → replayed rs s st n → replayed rs s' st n.
Proof.
  intros [_ Eo Ec _] Hs Hm Hn [Hrun Hsame Himm Hnext Hids].
  assert (ids_of (state s') = ids_of (state s)) as Eids by (destruct Hs as [E1 E2]; unfold ids_of; by rewrite E1, E2).
  split; rewrite ?Eo, ?Ec, ?Hm, ?Eids; try done; [|lia].
  destruct Hs as [E1 E2], Hsame as [E1' E2']. split; congruence.
Qed.

(** A new memtable in front. *)
Lemma replayed_freeze rs w s w' s' st n : evolves [ManifestRecord.NewMemtable (next_sst_id s)] w s w' s' →
  same_structure (state s') (state s) → mem_ids (state s') = next_sst_id s :: mem_ids (state s) →
  next_sst_id s' = S (next_sst_id s) → Forall (λ id, id < next_sst_id s) (mem_ids (state s)) → replayed rs s st n →
  ∃ st' n', replayed (rs ++ [ManifestRecord.NewMemtable (next_sst_id s)]) s' st' n'.
Proof.
  intros [_ Eo Ec _] Hs Hm Hn Hlt [Hrun Hsame Himm Hnext Hids]. exists st, (n `max` next_sst_id s).
  assert (ids_of (state s') = ids_of (state s)) as Eids by (destruct Hs as [E1 E2]; unfold ids_of; by rewrite E1, E2).
  split; rewrite ?Eo, ?Ec, ?Hm, ?Eids.
  - rewrite (replay_records_snoc _ _ _ _ _ Hrun). unfold replay_record. rewrite set_insert_snoc; [done|]. by apply Forall_rev.
  - destruct Hs as [E1 E2], Hsame as [E1' E2']. split; congruence.
  - done.
  - lia.
  - intros id. rewrite elem_of_cons. intros [[->|Hin]|Hin]; [lia|..]; assert (id ≤ n); [by apply Hids; left|lia|by apply Hids; right|lia].
Qed.

(** The oldest memtable became a table. *)
Lemma replayed_flush rs w s w' s' st n id : evolves [ManifestRecord.Flush id] w s w' s' →
  mem_ids (state s) = mem_ids (state s') ++ [id] → NoDup (mem_ids (state s)) → next_sst_id s' = next_sst_id s →
  same_structure (state s') (pushed (CompactionController.flush_to_l0 (compaction_controller s)) (state s) id) →
  (CompactionController.flush_to_l0 (compaction_controller s) = false → LsmStorageState.l0_sstables (state s) = []) →
  replayed rs s st n → ∃ st' n', replayed (rs ++ [ManifestRecord.Flush id]) s' st' n'.
Proof.
  intros [_ Eo Ec _] Hm Hnd Hn Hs Htier [Hrun Hsame Himm Hnext Hids].
  exists (pushed (CompactionController.flush_to_l0 (compaction_controller s)) st id), (n `max` id).
  assert (ids_of (state s') = id :: ids_of (state s)) as Eids.
  { rewrite <-(ids_pushed _ (state s) id Htier). destruct Hs as [E1 E2]. unfold ids_of. by rewrite E1, E2. }
  assert (id ≤ n) as Hid by (apply Hids; left; rewrite Hm; set_solver).
  split; rewrite ?Eo, ?Ec, ?Eids.
  - rewrite (replay_records_snoc _ _ _ _ _ Hrun). unfold replay_record. rewrite Hm, rev_app_distr. cbn [rev app]. rewrite set_erase_head; [done|].
    rewrite Hm in Hnd. apply NoDup_app in Hnd as (_ & Hd & _). rewrite <-Permutation_rev. intros Hin. apply (Hd _ Hin). set_solver.
  - destruct Hs as [E1 E2], Hsame as [E1' E2']. unfold same_structure. rewrite E1, E2. unfold pushed.
    destruct (CompactionController.flush_to_l0 _); simpl; by rewrite E1', E2'.
  - unfold pushed. by destruct (CompactionController.flush_to_l0 _).
  - lia.
  - intros id'. rewrite elem_of_cons. intros [Hin|[->|Hin]]; [|lia|]; assert (id' ≤ n); [|lia|by apply Hids; right|lia].
    apply Hids. left. rewrite Hm. set_solver.
Qed.

(** A compaction. *)
Lemma replayed_compaction rs new w s w' s' st n : (∀ o, compaction_controller s ≠ CompactionController.Leveled o) →
  evolves new w s w' s' → rearranged s new s' → mem_ids (state s') = mem_ids (state s) → next_sst_id s ≤ next_sst_id s' →
  replayed rs s st n → ∃ st' n', replayed (rs ++ new) s' st' n'.
Proof.
  intros Hc Hev [(-> & E1 & E2)|(task & out & st1 & st1' & files & -> & E1 & E2 & Happ & E1' & E2' & _ & Hout & Hsub)] Hm Hn Hrep.
  { exists st, n. rewrite app_nil_r. by eapply replayed_same. }
  destruct Hev as [_ Eo Ec _], Hrep as [Hrun Hsame Himm Hnext Hids].
  destruct (apply_same _ _ st _ _ true _ _ Hc Happ) as (st2 & Happ2 & Hsame2 & Himm2).
  { destruct Hsame as [Es1 Es2]. split; congruence. }
  destruct (foldl_max n out) as (Hmax1 & Hmax2 & Hmax3).
  exists st2, (foldl Nat.max n out). split; rewrite ?Eo, ?Ec, ?Hm.
  - rewrite (replay_records_snoc _ _ _ _ _ Hrun). unfold replay_record. by rewrite Happ2.
  - destruct Hsame2 as [Es1 Es2]. split; congruence.
  - congruence.
  - apply Hmax3; [lia|done].
  - intros id [Hin|Hin]; [assert (id ≤ n); [by apply Hids; left|lia]|].
    apply Hsub, elem_of_app in Hin as [Hin|Hin]; [assert (id ≤ n); [by apply Hids; right|lia]|by apply Hmax2].
Qed.
End journal.
