(* ===== verification/LsmTrace.v ===== *)
(** * Sequences of operations refine a map

    A client's calls, the flush thread's and the compaction thread's, in any
    order, one after the other as the state lock arranges them.  The engine
    behaves as one finite map: writes set keys, everything else leaves it alone,
    and reads answer from it.  What the engine holds is bounded by what was
    written, so bounds on the input are enough. *)
From S2P Require Import Prelude Endian Key Iterators Block BlockCache Double Bloom Table Sizes TableIterator Wal MemTable State Layers SimpleLeveled Tiered Leveled Compact Manifest LsmStorage LsmSpec LsmRead LsmWrite LsmGen LsmCompact LsmInstall LsmStrategies LsmLeveled LsmJournal.

(** ** Operations and their meaning *)
Module Op.
Inductive t :=
| Put (key value : bytes)
| Delete (key : bytes)
| Get (key : bytes)
| Scan (lower upper : Bound)
| Sync
| ForceFlush
| TriggerFlush
| TriggerCompaction
| ForceFullCompaction.

#[global] Instance Bound_eq_dec : EqDecision Bound.
Proof. solve_decision. Defined.
#[global] Instance eq_dec : EqDecision t.
Proof. solve_decision. Defined.

Inductive answer :=
| Done
| Found (value : bytes)
| Range (l : list kv).

(** What a call writes. *)
Definition writes (op : t) : list kv :=
  match op with Put k v => [(k, v)] | Delete k => [(k, [])] | _ => [] end.

(** The specification: a map and an answer. *)
Definition meaning (m : gmap bytes bytes) (op : t) : gmap bytes bytes * answer :=
  match op with
  | Put k v => (if decide (v = []) then delete k m else <[k := v]> m, Done)
  | Delete k => (delete k m, Done)
  | Get k => (m, Found (default [] (m !! k)))
  | Scan lower upper => (m, Range (filter (λ e, in_range lower upper e.1) (entries m)))
  | Sync | ForceFlush | TriggerFlush | TriggerCompaction | ForceFullCompaction => (m, Done)
  end.

Fixpoint meanings (m : gmap bytes bytes) (ops : list t) : gmap bytes bytes * list answer :=
  match ops with
  | [] => (m, [])
  | op :: ops => let r := meaning m op in let rs := meanings r.1 ops in (rs.1, r.2 :: rs.2)
  end.

Section run.
Context `{!Zlib} `{!Snappy} `{!Farmhash} `{!Libm} `{!Json} `{!LoopFuel}.

(** The calls of the code. *)
Definition run (s : LsmStorageInner.t) (op : t) : eff World (LsmStorageInner.t * answer) :=
  match op with
  | Put k v => s ← LsmStorageInner.put s k v; mret (s, Done)
  | Delete k => s ← LsmStorageInner.del s k; mret (s, Done)
  | Get k => v ← LsmStorageInner.get s k; mret (s, Found v)
  | Scan lower upper => l ← on_cache (it ← LsmStorageInner.scan s lower upper; collect loop_fuel it); mret (s, Range l)
  | Sync => s ← LsmStorageInner.sync s; mret (s, Done)
  | ForceFlush => s ← LsmStorageInner.force_flush_next_imm_memtable s; mret (s, Done)
  | TriggerFlush => '(s, _) ← LsmStorageInner.trigger_flush s; mret (s, Done)
  | TriggerCompaction => '(s, _) ← LsmStorageInner.trigger_compaction s; mret (s, Done)
  | ForceFullCompaction => s ← LsmStorageInner.force_full_compaction s; mret (s, Done)
  end.

Fixpoint runs_all (s : LsmStorageInner.t) (ops : list t) : eff World (LsmStorageInner.t * list answer) :=
  match ops with
  | [] => mret (s, [])
  | op :: ops => '(s, a) ← run s op; '(s, rest) ← runs_all s ops; mret (s, a :: rest)
  end.
End run.

(** Calls with arguments that fit the formats, under a strategy that allows them:
    a full compaction without a strategy, a triggered one with any but the
    leveled one, whose tasks are not always safe (see [leveled_safe]). *)
Definition admissible (c : CompactionController.t) (op : t) : Prop :=
  match op with
  | Put k v => kv_ok (k, v)
  | Delete k => kv_ok (k, [])
  | TriggerCompaction => match c with CompactionController.Leveled _ => False | _ => True end
  | ForceFullCompaction => c = CompactionController.NoCompaction
  | _ => True
  end.
End Op.

(** ** The invariant of a running engine *)
Section trace.
Context `{!Zlib} `{!Snappy} `{!SnappyLaws} `{!SnappyBound} `{!Farmhash} `{!Libm} `{!Json} `{!JsonLaws} `{!LoopFuel}.
Import LsmStorageInner.
Implicit Types (g G : ghost) (w : World) (s : LsmStorageInner.t) (h : list kv).

(** The shape of the levels under a strategy. *)
Definition shape (c : CompactionController.t) (st : LsmStorageState.t) : Prop :=
  match c with
  | CompactionController.Simple o =>
      length (LsmStorageState.levels st) = SimpleLeveledCompactionOptions.max_levels o ∧
      (Z.of_nat (SimpleLeveledCompactionOptions.max_levels o) < 2 ^ 64)%Z
  | CompactionController.Tiered o =>
      TieredCompactionOptions.max_merge_width o = None ∧ TieredCompactionOptions.num_tiers o ≠ 0 ∧
      tiers_ok (LsmStorageState.levels st)
  | CompactionController.Leveled o => leveled_config o st
  | CompactionController.NoCompaction => ∃ x l1, LsmStorageState.levels st = [(x, l1)]
  end.

(** All entries in the memtables and in the tables of the tree. *)
Definition mem_stock (ms : list MemTable.t) : list kv := mjoin (MemTable.map_ <$> ms).
Definition stock g (st : LsmStorageState.t) : list kv := mem_stock (memtables st) ++ level_entries g (ids_of st).

(** [h] is what was ever written. *)
Record alive h g w s : Prop := {
  al_engine : engine_ok g w s;
  al_controller : compaction_controller s = CompactionController.create (LsmStorageOptions.compaction_options (options s));
  al_shape : shape (compaction_controller s) (state s);
  al_order : StronglySorted (λ x y, y < x) (mem_ids (state s));
  al_zero : CompactionController.flush_to_l0 (compaction_controller s) = false → 0 ∈ mem_ids (state s) →
    LsmStorageState.levels (state s) = [];
  al_stock : stock g (state s) ⊆+ h }.

(** One call: the invariant, the map, the ids used, and the journal. *)
Definition stepped h (k : nat) g w s (m : gmap bytes bytes) g' w' s' : Prop := g ⊆ g' ∧ alive h g' w' s' ∧ shown g' (state s') = m ∧
  next_sst_id s ≤ next_sst_id s' ≤ next_sst_id s + k ∧ compaction_controller s' = compaction_controller s ∧
  options s' = options s ∧ path s' = path s ∧ (journaled w s → journaled w' s').
Definition steps h (k : nat) g w s (m : gmap bytes bytes) w' s' : Prop := ∃ g', stepped h k g w s m g' w' s'.

(** What a call other than a compaction leaves alone: the files of tables that
    are not of its memtables, and the tree behind the tables it adds. *)
Record beside w s w' s' : Prop := {
  bs_files id : id < next_sst_id s → id ∉ mem_ids (state s) → files w' !! path_of_sst_val s id = files w !! path_of_sst_val s id;
  bs_mems id : id ∈ mem_ids (state s') → id ∈ mem_ids (state s) ∨ next_sst_id s ≤ id;
  bs_tree : ∃ new, new ⊆ mem_ids (state s) ∧ since (CompactionController.flush_to_l0 (compaction_controller s)) new (state s) (state s') }.

Lemma alive_mono h h' g w s : h ⊆+ h' → alive h g w s → alive h' g w s.
Proof. intros Hsub []. split; try done. by etrans. Qed.

Lemma alive_below g w s : engine_ok g w s → Forall (λ id, id < next_sst_id s) (mem_ids (state s)).
Proof. intros Hok. apply Forall_forall. intros id Hid. apply (eo_fresh _ _ _ Hok). by left. Qed.

(** What the structure says of shape and stock. *)
Lemma shape_same c (st1 st2 : LsmStorageState.t) : LsmStorageState.levels st1 = LsmStorageState.levels st2 → shape c st2 → shape c st1.
Proof. intros E. destruct c; simpl; rewrite ?E; try done. intros []. split; [done|by rewrite E|done]. Qed.

Lemma same_ids (st1 st2 : LsmStorageState.t) : same_structure st1 st2 → ids_of st1 = ids_of st2.
Proof. intros [E1 E2]. unfold ids_of. by rewrite E1, E2. Qed.

Lemma mem_stock_cons m ms : mem_stock (m :: ms) = MemTable.map_ m ++ mem_stock ms.
Proof. done. Qed.
Lemma mem_stock_app ms1 ms2 : mem_stock (ms1 ++ ms2) = mem_stock ms1 ++ mem_stock ms2.
Proof. unfold mem_stock. by rewrite fmap_app, join_app. Qed.

(** *** Calls that only read *)
Lemma journaled_files w w' s : files w' = files w → journaled w s → journaled w' s.
Proof.
  intros E (rs & st & n & (m & Em & Ep & Hfd & Hf) & Hok & Hrep). exists rs, st, n. split_and!; [|done..].
  exists m. split_and!; [done..|]. split; [done|]. by rewrite E.
Qed.

Lemma beside_same w s w' s' : tables_kept [] w s w' → same_structure (state s') (state s) →
  (∀ id, id ∈ mem_ids (state s') → id ∈ mem_ids (state s) ∨ next_sst_id s ≤ id) → beside w s w' s'.
Proof.
  intros Hk [E1 E2] Hm. split; [intros id _ _; apply Hk, not_elem_of_nil|done|].
  exists []. split; [by intros ? ?%not_elem_of_nil|by apply since_refl].
Qed.

Lemma steps_read h g w s w' : alive h g w s → same_files (blocks g) w w' → stepped h 0 g w s (shown g (state s)) g w' s ∧ beside w s w' s.
Proof.
  intros [] Hsame. split; [|by apply beside_same; [intros id _; by rewrite (proj1 Hsame)| |left]].
  split_and!; [done| |done|lia|lia|done|done|done|by apply journaled_files, Hsame].
  split; try done. by eapply engine_same_files.
Qed.

Lemma stepped_refl h k g w s : alive h g w s → stepped h k g w s (shown g (state s)) g w s.
Proof. intros Hal. split_and!; [done|done|done|lia|lia|done..]. Qed.
Lemma stepped_trans h h' (k k' : nat) g w s m g1 w1 s1 m' g2 w2 s2 :
  stepped h k g w s m g1 w1 s1 → stepped h' k' g1 w1 s1 m' g2 w2 s2 → stepped h' (k + k') g w s m' g2 w2 s2.
Proof.
  intros (? & _ & _ & ? & Ec & Eo & Ep & ?) (? & Hal & ? & ? & Ec' & Eo' & Ep' & ?).
  split_and!; [by etrans|done|done|lia|lia|congruence|congruence|congruence|auto].
Qed.
Lemma steps_refl h k g w s : alive h g w s → steps h k g w s (shown g (state s)) w s.
Proof. intros Hal. exists g. by apply stepped_refl. Qed.
Lemma beside_refl w s : beside w s w s.
Proof. by apply beside_same; [| |left]. Qed.

(** The map is that of the stock. *)
Lemma contents_stock g (st : LsmStorageState.t) : contents g st = kv_map (stock g st).
Proof.
  unfold contents, stock. rewrite kv_map_app, <-stored_level. f_equal. unfold mem_stock.
  induction (memtables st) as [|m ms IH]; [done|]. rewrite !fmap_cons, merged_cons, IH. by rewrite <-kv_map_app.
Qed.

Lemma stock_size h g w s : alive h g w s → size (contents g (state s)) ≤ length h.
Proof.
  intros []. apply submseteq_length in al_stock0. etrans; [|exact al_stock0]. rewrite contents_stock.
  pose proof (submseteq_length _ _ (entries_submseteq (stock g (state s)))) as Hl. by rewrite length_entries in Hl.
Qed.

(** *** Writes *)
Lemma stock_write g s s' k v m' ms : same_structure (state s') (state s) →
  MemTable.map_ m' ⊆+ (k, v) :: MemTable.map_ (LsmStorageState.memtable (state s)) →
  mem_stock (memtables (state s')) = mem_stock (m' :: ms) → ms = LsmStorageState.imm_memtables (state s) →
  stock g (state s') ⊆+ stock g (state s) ++ [(k, v)].
Proof.
  intros Hsame Hsub E ->. unfold stock. rewrite (same_ids _ _ Hsame), E. unfold memtables. rewrite !mem_stock_cons.
  rewrite <-(Permutation_cons_append _ (k, v)), !app_comm_cons. apply submseteq_app; [|done]. by apply submseteq_app.
Qed.

Lemma journaled_same w s w' s' : evolves [] w s w' s' → same_structure (state s') (state s) →
  mem_ids (state s') = mem_ids (state s) → next_sst_id s ≤ next_sst_id s' → journaled w s → journaled w' s'.
Proof.
  intros Hev Hs Hm Hn Hj. eapply journaled_step; [done|done|by left|]. intros rs st n Hrep. exists st, n.
  rewrite app_nil_r. by eapply replayed_same.
Qed.


Lemma put_step h g w s k v : alive h g w s → kv_ok (k, v) → room s →
  runs (put s k v) w (λ w' s', stepped (h ++ [(k, v)]) 1 g w s (visible (<[k := v]> (contents g (state s)))) g w' s' ∧ beside w s w' s').
Proof.
  intros [] Hkv Hroom. eapply runs_mono; [by apply (put_spec g)|].
  intros w' s' (Hok' & Hc & Hl0 & Hlv & Hkept & m' & Hid & Hsub & Hcase).
  assert (same_structure (state s') (state s)) as Hsame by done.
  split; cycle 1.
  { apply beside_same; [done|done|].
    intros id. unfold mem_ids. destruct Hcase as [(_ & _ & ->)|(_ & _ & m & Hmid & _ & ->)]; unfold memtables; rewrite !fmap_cons, ?Hmid, Hid; [by left|].
    intros [->|?]%elem_of_cons; [by right|by left]. }
  pose proof (alive_below _ _ _ al_engine0) as Hbelow.
  destruct Hcase as [(Hev & Hn & Hm)|(Hev & Hn & m & Hmid & Hmm & Hm)]; pose proof Hev as [Ep Eo Ec _].
  - assert (mem_ids (state s') = mem_ids (state s)) as Eids by (unfold mem_ids; rewrite Hm; unfold memtables; rewrite !fmap_cons; by rewrite Hid).
    split_and!; [done| |by unfold shown; rewrite Hc|lia|lia|done..|apply journaled_same; rewrite ?Hn; done].
    split; rewrite ?Ec, ?Eo, ?Eids, ?Hlv; try done; [by apply (shape_same _ _ (state s))|].
    etrans; [eapply (stock_write g s s' k v m'); [done..|by rewrite Hm|done]|by apply submseteq_app].
  - assert (mem_ids (state s') = next_sst_id s :: mem_ids (state s)) as Eids by (unfold mem_ids; rewrite Hm; unfold memtables; rewrite !fmap_cons; by rewrite Hid, Hmid).
    split_and!; [done| |by unfold shown; rewrite Hc|lia|lia|done..|].
    + split; rewrite ?Ec, ?Eo, ?Eids, ?Hlv; try done; [by apply (shape_same _ _ (state s))| | |].
      * apply StronglySorted_cons. split; [|done]. exact Hbelow.
      * intros Hb [E0|Hin]%elem_of_cons; [|by apply al_zero0]. pose proof (Forall_inv Hbelow). simpl in *. lia.
      * etrans; [eapply (stock_write g s s' k v m'); [done..| |done]|by apply submseteq_app].
        rewrite Hm, (mem_stock_cons m), Hmm. done.
    + intros Hj. eapply journaled_step; [exact Hj|exact Hev|right; eexists; split; [done|exact Hroom]|].
      intros rs st n Hrep. by eapply replayed_freeze.
Qed.

(** *** Syncing *)
Lemma sync_step h g w s : alive h g w s → runs (sync s) w (λ w' s', stepped h 0 g w s (shown g (state s)) g w' s' ∧ beside w s w' s').
Proof.
  intros []. eapply runs_mono; [by apply (sync_spec g)|].
  intros w' s' (Hok' & Hc & Hev & Hkept & Hn & Hl0 & Hlv & Himm & Hmap & Hid). pose proof Hev as [Ep Eo Ec _].
  assert (same_structure (state s') (state s)) as Hsame by done.
  assert (mem_ids (state s') = mem_ids (state s)) as Eids by (unfold mem_ids, memtables; rewrite !fmap_cons; by rewrite Himm, Hid).
  split; cycle 1.
  { apply beside_same; [done|done|]. rewrite Eids. by left. }
  split_and!; [done| |by unfold shown; rewrite Hc|lia|lia|done..|by apply journaled_same; rewrite ?Hn].
  split; rewrite ?Ec, ?Eo, ?Eids, ?Hlv; try done; [by apply (shape_same _ _ (state s))|].
  unfold stock. rewrite (same_ids _ _ Hsame). unfold memtables. by rewrite mem_stock_cons, Hmap, Himm.
Qed.

(** *** Flushing *)
Lemma tiers_ok_push st id : tiers_ok (LsmStorageState.levels st) → NoDup (mem_ids st ++ ids_of st) → id ∈ mem_ids st →
  (0 ∈ mem_ids st → LsmStorageState.levels st = []) → tiers_ok ((id, [id]) :: LsmStorageState.levels st).
Proof.
  intros [Hnd Hhead Hne] Hall Hid Hzero. apply NoDup_app in Hall as (_ & Hd & _). split.
  - rewrite fmap_cons. apply NoDup_cons. split; [|done]. cbn [fst]. intros ([x files] & -> & Hx)%list_elem_of_fmap_1.
    pose proof (proj1 (Forall_forall _ _) Hhead _ Hx) as Ex. simpl in Ex, Hid. subst x. destruct files as [|x files]; simpl in *.
    + rewrite Hzero in Hx by done. by apply not_elem_of_nil in Hx.
    + apply (Hd x Hid). eapply ids_of_level; [exact Hx|simpl; set_solver].
  - by constructor.
  - intros [|i] lv Hi Hlv; simpl in Hi |- *; [by injection Hi as <-|]. f_equal. by eapply Hne.
Qed.

(** What is left to flush fits a table file. *)
Lemma fits_imms h g w s : alive h g w s → fits h → Forall (λ m, fits (MemTable.map_ m)) (LsmStorageState.imm_memtables (state s)).
Proof.
  intros [] Hfits. apply Forall_forall. intros m [l1 [l2 E]]%list_elem_of_split. eapply fits_submseteq; [|exact Hfits].
  etrans; [|exact al_stock0]. unfold stock, memtables. rewrite E, mem_stock_cons, mem_stock_app, mem_stock_cons. solve_submseteq.
Qed.

Lemma flush_step h g w s : alive h g w s → fits h → room s →
  runs (force_flush_next_imm_memtable s) w (λ w' s', ∃ g', stepped h 0 g w s (shown g (state s)) g' w' s' ∧ beside w s w' s').
Proof.
  intros Hal Hfits Hroom. pose proof Hal as []. eapply runs_mono; [apply (flush_spec g); [done|done|]|].
  { intros m [ms E]%last_Some. pose proof (fits_imms h g w s Hal Hfits) as Hf. rewrite E in Hf. apply Forall_app in Hf as [_ Hf].
    by apply Forall_inv in Hf. }
  intros w' s' [(_ & -> & ->)|(ms & m & t & kvss & E & Hst & Hkv & Hok' & Hg & Hev & Hkept & Hn)].
  { exists g. split; [by apply stepped_refl|apply beside_refl]. }
  pose proof Hev as [Ep Eo Ec _]. set (id := MemTable.id_ m) in *.
  destruct (flushed_memtables s id t ms m E) as [Em' Em]. rewrite <-Hst in Em'.
  pose proof (flushed_ids s id t (eo_tiers _ _ _ al_engine0)) as Eids. rewrite <-Hst in Eids.
  assert (mem_ids (state s) = mem_ids (state s') ++ [id]) as Emi by (unfold mem_ids; rewrite Em, Em', app_comm_cons; by rewrite fmap_app).
  pose proof (flushed_levels s id t) as Elv. rewrite <-Hst in Elv. pose proof (flushed_l0 s id t) as El0. rewrite <-Hst in El0.
  pose proof (eo_nodup _ _ _ al_engine0) as Hnd.
  assert (∀ id', id' ∈ ids_of (state s) → is_Some (g !! id')) as Hsome by (intros; by eapply engine_some).
  exists (<[id := kvss]> g). split; cycle 1.
  { split.
    - intros id' _ Hn'. apply Hkept. intros ->%list_elem_of_singleton. apply Hn'. rewrite Emi. set_solver.
    - intros id' Hin. left. rewrite Emi. set_solver.
    - exists [id]. split; [intros ? ->%list_elem_of_singleton; rewrite Emi; set_solver|]. unfold since. rewrite Elv, El0.
      by destruct (CompactionController.flush_to_l0 _). }
  split_and!; [by apply insert_subseteq| | |lia|lia|done..|].
  - split; rewrite ?Ec, ?Eo; try done.
    + destruct (compaction_controller s) as [o|o|o|] eqn:Ecc; simpl in Elv; try (by apply (shape_same _ _ (state s))).
      unfold shape. rewrite Elv. destruct al_shape0 as (? & ? & ?). split_and!; [done..|]. apply tiers_ok_push; [done|done|rewrite Emi; set_solver|auto].
    + rewrite Emi in al_order0. by apply StronglySorted_app_1_l in al_order0.
    + intros Hb H0'. rewrite Emi in al_order0. pose proof (StronglySorted_app_1_elem_of _ _ _ _ _ al_order0 H0' (list_elem_of_here id [])). simpl in *. lia.
    + etrans; [|exact al_stock0]. unfold stock. rewrite Em', Em, Eids, !mem_stock_cons, mem_stock_app, mem_stock_cons, level_entries_cons, entries_of_insert, Hkv.
      rewrite (level_entries_mono g) by (done || by apply insert_subseteq). unfold mem_stock at 3. cbn [fmap list_fmap mjoin list_join].
      rewrite app_nil_r. solve_submseteq.
  - unfold shown. rewrite Hst. f_equal. by apply (contents_flushed _ _ _ _ ms m kvss); [|apply al_engine0|..].
  - intros Hj. eapply journaled_step; [exact Hj|exact Hev|right; eexists; split; [done|]|].
    + assert (id < next_sst_id s); [|unfold room in *; simpl; unfold ManifestRecordSpec.id_ok; lia].
      apply (eo_fresh _ _ _ al_engine0). left. rewrite Emi. set_solver.
    + intros rs st n Hrep. eapply replayed_flush; [exact Hev|exact Emi|by apply NoDup_app in Hnd as (? & _ & _)|exact Hn| |apply al_engine0|exact Hrep].
      rewrite Hst. unfold flushed, pushed, same_structure. by destruct (CompactionController.flush_to_l0 _).
Qed.

(** *** Compacting *)
Lemma moved_stock g G w s w' s' new : moved g w s G w' s' new → stock G (state s') ⊆+ stock g (state s).
Proof. intros []. unfold stock. rewrite mv_memtables. by apply submseteq_app. Qed.

Lemma moved_stepped h g G w s w' s' new : alive h g w s → moved g w s G w' s' new → rearranged s new s' →
  shape (compaction_controller s) (state s') → (LsmStorageState.levels (state s) = [] →
    CompactionController.flush_to_l0 (compaction_controller s) = false → LsmStorageState.levels (state s') = []) →
  (∀ o, compaction_controller s ≠ CompactionController.Leveled o) → stepped h (length h) g w s (shown g (state s)) G w' s'.
Proof.
  intros Hal Hm Hre Hsh Hz Hc. pose proof Hal as []. pose proof Hm as []. pose proof mv_evolves as [Ep Eo Ec _].
  assert (mem_ids (state s') = mem_ids (state s)) as Eids by (unfold mem_ids; by rewrite mv_memtables).
  pose proof (submseteq_length _ _ al_stock0) as Hlen. unfold stock in Hlen. rewrite length_app in Hlen.
  split_and!; [done| |done|lia|lia|done..|].
  - split; rewrite ?Ec, ?Eo, ?Eids; try done; [by intros Hb H0'; apply Hz; [apply al_zero0|]|].
    etrans; [by eapply moved_stock|done].
  - intros Hj. eapply journaled_step; [exact Hj|done| |].
    + destruct Hre as [(-> & _)|(task & out & ? & ? & ? & -> & _ & _ & _ & _ & _ & Hr & _)]; [by left|right; eauto].
    + intros rs st n Hrep. eapply replayed_compaction; try done. lia.
Qed.

Lemma alive_affordable h g w s : alive h g w s → fits h → S (length h) < loop_fuel →
  (Z.of_nat (next_sst_id s + length h) < 2 ^ 64)%Z → affordable g s.
Proof.
  intros [] Hfits Hfuel Hids. assert (level_entries g (ids_of (state s)) ⊆+ h) as Hsub.
  { etrans; [|exact al_stock0]. unfold stock. by apply submseteq_inserts_l. }
  pose proof (submseteq_length _ _ Hsub). split; [by eapply fits_submseteq|lia|lia].
Qed.

(** A triggered compaction keeps the shape; under the tiered strategy it does
    nothing to an empty tree. *)
Lemma trigger_shape g w s : engine_ok g w s → affordable g s → shape (compaction_controller s) (state s) →
  (∀ o, compaction_controller s = CompactionController.Leveled o → leveled_safe o (state s)) →
  compacts g w s (λ st, shape (compaction_controller s) st ∧ (LsmStorageState.levels (state s) = [] →
    CompactionController.flush_to_l0 (compaction_controller s) = false → LsmStorageState.levels st = [])).
Proof.
  intros Hok Haf Hsh Hsafe. destruct (compaction_controller s) as [o|o|o|] eqn:Ecc; cbn [CompactionController.flush_to_l0].
  - eapply runs_mono; [by apply (leveled_spec g w s o); [..|by apply Hsafe]|]. intros w' r (G & new & Hm & Hre & Hc).
    by exists G, new.
  - destruct Hsh as (Hw & Hnum & Ht). eapply runs_mono; [apply (tiered_spec g w s o); auto|].
    intros w' r (G & new & Hm & Hre & Ht' & Hz). exists G, new. split_and!; [done..|auto].
  - destruct Hsh as (Hlen & Hmax). eapply runs_mono; [by apply (simple_spec g w s o)|].
    intros w' r (G & new & Hm & Hre & Hlen'). by exists G, new.
  - eapply runs_mono; [apply (compacts_none g w s (λ st, ∃ x l1, LsmStorageState.levels st = [(x, l1)])); [done..|by rewrite Ecc]|].
    intros w' r (G & new & Hm & Hre & Hlen'). by exists G, new.
Qed.

Lemma trigger_step h g w s : alive h g w s → affordable g s → (∀ o, compaction_controller s ≠ CompactionController.Leveled o) →
  runs (trigger_compaction s) w (λ w' r, steps h (length h) g w s (shown g (state s)) w' r.1).
Proof.
  intros Hal Haf Hc. pose proof Hal as []. eapply runs_mono; [apply (trigger_shape g w s); [done..|]|].
  { intros o E. by destruct (Hc o). }
  intros w' r (G & new & Hm & Hre & Hsh' & Hz). exists G. by eapply moved_stepped.
Qed.

Lemma full_step h g w s : alive h g w s → affordable g s → compaction_controller s = CompactionController.NoCompaction →
  runs (force_full_compaction s) w (λ w' s', steps h (length h) g w s (shown g (state s)) w' s').
Proof.
  intros Hal Haf Hc. pose proof Hal as []. rewrite Hc in al_shape0. destruct al_shape0 as (x & l1 & Hlv).
  rewrite Hc in al_controller0. destruct (LsmStorageOptions.compaction_options (options s)) eqn:Eo; try done.
  eapply runs_mono; [by apply (full_spec g w s x l1)|]. intros w' s' (G & outs & Hm & Hre & _ & Hlv' & _).
  exists G. eapply moved_stepped; [done..| | |]; rewrite ?Hc; [simpl; rewrite Hlv'; eauto|done|done].
Qed.

(** ** Any operation, and any sequence *)
Lemma stepped_mono h h' (k k' : nat) g w s m g' w' s' : h ⊆+ h' → k ≤ k' → stepped h k g w s m g' w' s' → stepped h' k' g w s m g' w' s'.
Proof.
  intros Hsub Hk (? & Hal & ? & ? & ? & ? & ? & ?). split_and!; [done|by eapply alive_mono|done|lia|lia|done..].
Qed.
Lemma steps_mono h h' (k k' : nat) g w s m w' s' : h ⊆+ h' → k ≤ k' → steps h k g w s m w' s' → steps h' k' g w s m w' s'.
Proof. intros Hsub Hk (g' & Hs). exists g'. by eapply stepped_mono. Qed.

Lemma run_done {A} (m : eff World A) (f : A → LsmStorageInner.t) w (P : World → LsmStorageInner.t → Prop) :
  runs m w (λ w' a, P w' (f a)) → runs (a ← m; mret (f a, Op.Done)) w (λ w' r, P w' r.1 ∧ r.2 = Op.Done).
Proof. intros Hm. eapply runs_bind; [exact Hm|]. intros w' a Ha. by apply runs_ret. Qed.

(** Calls that do not compact. *)
Definition plain_call (op : Op.t) : Prop := op ≠ Op.TriggerCompaction ∧ op ≠ Op.ForceFullCompaction.

Lemma call_step h g w s op : alive h g w s → Op.admissible (compaction_controller s) op → plain_call op →
  let h' := h ++ Op.writes op in
  fits h' → S (length h') < loop_fuel → room s →
  runs (Op.run s op) w (λ w' r, (∃ g', stepped h' 1 g w s (Op.meaning (shown g (state s)) op).1 g' w' r.1 ∧ beside w s w' r.1) ∧
    r.2 = (Op.meaning (shown g (state s)) op).2).
Proof.
  intros Hal Hadm [Hp1 Hp2] h' Hfits Hfuel Hroom. pose proof Hal as [].
  assert (h ⊆+ h') as Hsub by (unfold h'; by apply submseteq_inserts_r). pose proof (submseteq_length _ _ Hsub) as Hlen.
  assert (fits h) as Hfits' by (by eapply fits_submseteq).
  pose proof (stock_size _ _ _ _ Hal) as Hsize.
  assert (∀ k m w' s', k ≤ 1 → (∃ g', stepped h k g w s m g' w' s' ∧ beside w s w' s') →
    ∃ g', stepped h' 1 g w s m g' w' s' ∧ beside w s w' s') as Hmono.
  { intros k m w' s' Hk (g' & Hs & Hb). exists g'. split; [by eapply stepped_mono|done]. }
  set (good m w' s' := ∃ g', stepped h' 1 g w s m g' w' s' ∧ beside w s w' s') in *.
  change (runs (Op.run s op) w (λ w' r, good (Op.meaning (shown g (state s)) op).1 w' r.1 ∧ r.2 = (Op.meaning (shown g (state s)) op).2)).
  destruct op as [k v|k|k|lower upper| | | | |]; cbn [Op.run Op.meaning Op.writes fst snd] in *; try done.
  - apply (run_done _ id _ (good _)). eapply runs_mono; [by apply (put_step h g w s k v)|]. intros w' s' Hs. rewrite visible_insert in Hs. by exists g.
  - apply (run_done _ id _ (good _)). eapply runs_mono; [by apply (put_step h g w s k [])|]. intros w' s' Hs.
    rewrite visible_insert, decide_True in Hs by done. by exists g.
  - eapply runs_bind; [by apply get_spec|]. intros w' v [Hsame ->]. apply runs_ret. split; [|done].
    apply (Hmono 0); [lia|]. exists g. by apply steps_read.
  - eapply runs_bind; [apply (scan_collect_spec g); [done|lia|lia]|]. intros w' l [Hsame ->]. apply runs_ret. split; [|done].
    apply (Hmono 0); [lia|]. exists g. by apply steps_read.
  - apply (run_done _ id _ (good _)). eapply runs_mono; [by apply (sync_step h g)|]. intros w' s' Hs. apply (Hmono 0); [lia|]. by exists g.
  - apply (run_done _ id _ (good _)). eapply runs_mono; [by apply (flush_step h g)|]. intros w' s' Hs. by apply (Hmono 0); [lia|].
  - unfold trigger_flush. case_decide; cycle 1.
    { apply runs_ret. split; [|done]. apply (Hmono 0); [lia|]. exists g. split; [by apply stepped_refl|apply beside_refl]. }
    eapply runs_bind; [eapply runs_bind; [by apply (flush_step h g)|]; intros w' s' Hs;
      by apply (runs_ret _ _ (λ w' r, ∃ g', stepped h 0 g w s (shown g (state s)) g' w' r.1 ∧ beside w s w' r.1))|].
    intros w' [s' b] Hs. apply runs_ret. split; [|done]. by apply (Hmono 0); [lia|].
Qed.

Lemma run_step h g w s op : alive h g w s → Op.admissible (compaction_controller s) op →
  let h' := h ++ Op.writes op in
  fits h' → S (length h') < loop_fuel → (Z.of_nat (next_sst_id s + S (length h')) < 2 ^ 64)%Z →
  runs (Op.run s op) w (λ w' r, steps h' (S (length h')) g w s (Op.meaning (shown g (state s)) op).1 w' r.1 ∧
    r.2 = (Op.meaning (shown g (state s)) op).2).
Proof.
  intros Hal Hadm h' Hfits Hfuel Hids. pose proof Hal as [].
  assert (h ⊆+ h') as Hsub by (unfold h'; by apply submseteq_inserts_r). pose proof (submseteq_length _ _ Hsub) as Hlen.
  assert (affordable g s) as Haf by (eapply alive_affordable; [done|by eapply fits_submseteq|lia|lia]).
  destruct (decide (op = Op.TriggerCompaction)) as [->|Hn1]; [|destruct (decide (op = Op.ForceFullCompaction)) as [->|Hn2]].
  - cbn [Op.run Op.meaning fst snd]. eapply runs_bind; [apply (trigger_step h g); [done|done|]|].
    { intros o Eo. by rewrite Eo in Hadm. }
    intros w' [s' b] Hs. apply runs_ret. split; [|done]. eapply steps_mono; [| |exact Hs]; [done|lia].
  - cbn [Op.run Op.meaning fst snd]. apply (run_done _ id). eapply runs_mono; [by apply (full_step h g)|]. intros w' s' Hs.
    eapply steps_mono; [| |exact Hs]; [done|lia].
  - eapply runs_mono; [apply (call_step h g w s op); [done..|unfold room; lia]|]. intros w' r [(g' & Hs & _) Ha]. split; [|done].
    exists g'. eapply stepped_mono; [| |exact Hs]; [done|lia].
Qed.

Definition written (ops : list Op.t) : list kv := mjoin (Op.writes <$> ops).

Lemma runs_all_step h g w s ops (N : nat) : alive h g w s → Forall (Op.admissible (compaction_controller s)) ops →
  let h' := h ++ written ops in
  fits h' → S (length h') ≤ N → N < loop_fuel → (Z.of_nat (next_sst_id s + length ops * N) < 2 ^ 64)%Z →
  runs (Op.runs_all s ops) w (λ w' r, steps h' (length ops * N) g w s (Op.meanings (shown g (state s)) ops).1 w' r.1 ∧
    r.2 = (Op.meanings (shown g (state s)) ops).2).
Proof.
  revert h g w s; induction ops as [|op ops IH]; intros h g w s Hal Hadm h' Hfits HN Hfuel Hids.
  { apply runs_ret. split; [|done]. exists g. unfold h'. cbn. rewrite app_nil_r. by apply stepped_refl. }
  apply Forall_cons in Hadm as [Hop Hops]. cbn [Op.runs_all Op.meanings fst snd length] in *.
  assert (h' = (h ++ Op.writes op) ++ written ops) as Eh by (unfold h', written; rewrite fmap_cons, <-(assoc_L (++)); done).
  assert (h ++ Op.writes op ⊆+ h') as Hsub by (rewrite Eh; by apply submseteq_inserts_r).
  pose proof (submseteq_length _ _ Hsub) as Hlen.
  eapply runs_bind; [apply (run_step h g w s op); [done|done|by eapply fits_submseteq|lia|nia]|].
  intros w1 [s1 a] [Hs Ha]. cbn [fst snd] in Hs, Ha |- *. subst a. destruct Hs as (g1 & Hs1). pose proof Hs1 as (_ & Hal1 & Hsh1 & Hn1 & Ec1 & _).
  eapply runs_bind; [apply (IH (h ++ Op.writes op) g1 w1 s1); [done|by rewrite Ec1|by rewrite <-Eh|by rewrite <-Eh|done|nia]|].
  intros w2 [s2 rest] [Hs Ha]. cbn [fst snd] in Hs, Ha |- *. subst rest. rewrite Hsh1 in Hs |- *. apply runs_ret. split; [|done].
  destruct Hs as (g2 & Hs2). exists g2. rewrite Eh.
  refine (stepped_mono _ _ _ _ _ _ _ _ _ _ _ _ _ (stepped_trans _ _ _ _ _ _ _ _ _ _ _ _ _ _ _ Hs1 Hs2)); [done|lia].
Qed.
End trace.
