(* ===== verification/LsmOpen.v ===== *)
(** * Opening and closing a directory

    [LsmStorageInner::open] on a directory without a manifest gives an empty
    engine that satisfies the invariant; on the directory of an engine that was
    shut down it gives that engine's map back, from the tables the manifest
    names and, if logging is on, from the logs. *)
From S2P Require Import Prelude Endian Key Iterators Block BlockCache Double Bloom Table Sizes TableIterator Wal MemTable State Layers SimpleLeveled Tiered Leveled Compact Manifest LsmStorage LsmSpec LsmRead LsmWrite LsmGen LsmCompact LsmInstall LsmStrategies LsmLeveled LsmJournal LsmTrace.

Section open.
Context `{!Zlib} `{!Snappy} `{!SnappyLaws} `{!SnappyBound} `{!Farmhash} `{!Libm} `{!Json} `{!JsonLaws} `{!LoopFuel}.
Import LsmStorageInner.
Implicit Types (g G : ghost) (w : World) (s : LsmStorageInner.t) (h : list kv).

(** ** A new directory *)

(** Options the strategies can work with. *)
Definition options_ok (opts : LsmStorageOptions.t) : Prop :=
  LsmStorageOptions.block_size opts ≤ Z.to_nat 65536 ∧
  match LsmStorageOptions.compaction_options opts with
  | CompactionOptions.Simple o => (Z.of_nat (SimpleLeveledCompactionOptions.max_levels o) < 2 ^ 64)%Z
  | CompactionOptions.Tiered o => TieredCompactionOptions.max_merge_width o = None ∧ TieredCompactionOptions.num_tiers o ≠ 0
  | CompactionOptions.Leveled o => LeveledCompactionOptions.level_size_multiplier o ≠ 0%Z ∧
      0 < LeveledCompactionOptions.max_levels o ∧ (Z.of_nat (LeveledCompactionOptions.max_levels o) < 2 ^ 64)%Z
  | CompactionOptions.NoCompaction => True
  end.

Lemma create_levels opts : Forall (λ lv, lv.2 = []) (LsmStorageState.levels (LsmStorageState.create opts)).
Proof.
  unfold LsmStorageState.create. destruct (LsmStorageOptions.compaction_options opts); simpl; [|done| |by repeat constructor];
    apply Forall_forall; by intros lv (i & -> & _)%list_elem_of_fmap_1.
Qed.

Lemma create_ids opts : ids_of (LsmStorageState.create opts) = [].
Proof. unfold ids_of. rewrite LeveledCompactionSpec.level_ids_empty by apply create_levels. done. Qed.

Lemma create_shape opts : options_ok opts →
  shape (CompactionController.create (LsmStorageOptions.compaction_options opts)) (LsmStorageState.create opts).
Proof.
  intros [_ Ho]. unfold LsmStorageState.create. destruct (LsmStorageOptions.compaction_options opts) as [o|o|o|]; simpl in *.
  - destruct Ho as (? & ? & ?). split; [done| |done]. simpl. by rewrite length_fmap, length_seq.
  - destruct Ho. split_and!; [done..|]. split; [constructor|constructor|done].
  - by rewrite length_fmap, length_seq.
  - by exists 1, [].
Qed.

(** A state without tables that satisfies the invariant. *)
Lemma alive_created opts p w m : options_ok opts → mem_ok w (create opts p) m → MemTable.id_ m = 0 → MemTable.map_ m = [] →
  BlockCacheSpec.cache_ok ∅ (cache w) →
  ∀ mf, (∀ m', mf = Some m' → Manifest.path_ m' = manifest_path p) →
  alive [] ∅ w (set_manifest (with_memtable (create opts p) m) mf).
Proof.
  intros Ho Hm Hid Hmap Hc mf Hmf. pose proof (create_levels opts) as Hlv. pose proof (create_ids opts) as Hids.
  set (s := set_manifest _ mf). assert (mem_ids (state s) = [0]) as Emi by (unfold mem_ids; simpl; by rewrite Hid).
  assert (ids_of (state s) = []) as Eids by exact Hids.
  split; try done.
  - split; rewrite ?Emi, ?Eids; try done; [by apply Ho|by constructor|by intros id ?%not_elem_of_nil|..].
    + apply Forall_forall. intros lv Hlv'. rewrite (proj1 (Forall_forall _ _) Hlv lv Hlv'). apply ksorted_nil.
    + simpl. apply NoDup_singleton.
    + intros id [->%list_elem_of_singleton|[? Hg]]; [simpl; lia|done].
  - by apply (shape_same _ _ (LsmStorageState.create opts)), create_shape.
  - rewrite Emi. repeat constructor.
  - simpl. unfold LsmStorageState.create. by destruct (LsmStorageOptions.compaction_options opts).
  - unfold stock. rewrite Eids. simpl. unfold mem_stock, memtables. simpl. by rewrite Hmap.
Qed.

(** The memtable of a new directory. *)
Lemma initial_memtable opts p w : let s := create opts p in
  runs (if LsmStorageOptions.enable_wal opts then
          mem_res ← on_fs (MemTable.create_with_wal 0 (path_of_wal_val s 0));
          mret (match mem_res with
                | inl mem => set_state s (LsmStorageState.set_memtable (state s) mem)
                | inr _ => s
                end)
        else mret s) w (λ w' s', ∃ m, s' = with_memtable s m ∧ MemTable.id_ m = 0 ∧ MemTable.map_ m = [] ∧
    mem_ok w' s m ∧ cache w' = cache w).
Proof.
  intros s. unfold mem_ok. change (LsmStorageOptions.enable_wal (options s)) with (LsmStorageOptions.enable_wal opts).
  destruct (LsmStorageOptions.enable_wal opts).
  - eexists _, _. split; [done|]. eexists. split_and!; [done|done|done| |done].
    split; [done|apply ksorted_nil|done|]. intros l [= <-]. split; [done|]. exists []. split; [|done].
    exists [], []. split_and!; [done| |done|done]. apply lookup_insert_eq.
  - apply runs_ret. exists (MemTable.create 0). split_and!; [done|done|done| |done]. split; [done|apply ksorted_nil|done|done].
Qed.

Lemma logged_created rs0 p w s : path s = p → rs0 = [] → files w !! manifest_path p = Some [] →
  manifest s = Some (Manifest.mk (manifest_path p) (Some 0)) → logged rs0 w s.
Proof. intros <- -> Hf Hm. eexists. split_and!; [done|done|]. by split. Qed.

(** Opening a directory without a manifest. *)
Lemma open_fresh_spec p opts w : options_ok opts → files w !! manifest_path p = None →
  BlockCacheSpec.cache_ok ∅ (cache w) →
  runs (open p opts) w (λ w' s, alive [] ∅ w' s ∧ journaled w' s ∧ shown ∅ (state s) = ∅ ∧
    options s = opts ∧ path s = p ∧ next_sst_id s = 1).
Proof.
  intros Ho Hnone Hc. unfold open.
  eapply runs_bind; [apply (runs_on_fs _ _ (files w) false); by rewrite Hnone|]. intros w0 b [-> ->]. cbn [negb].
  unfold open_fresh. cbv zeta. eapply runs_bind; [apply initial_memtable|].
  intros w1 s1 (m & -> & Hid & Hmap & Hm & Hcache). simpl in Hcache.
  eapply runs_bind; [by apply runs_on_fs|]. intros w2 r [-> ->]. set (w2 := MkWorld _ _).
  set (mf := Manifest.mk (manifest_path p) (Some 0)).
  change (path (with_memtable (create opts p) m)) with p. fold mf.
  assert (mem_ok w2 (create opts p) m) as Hm2.
  { apply (mem_ok_agree w1); [done|]. simpl. rewrite lookup_insert_ne; [done|]. intros E.
    by apply (Names.path_wal_manifest (create opts p) (MemTable.id_ m)). }
  assert (alive [] ∅ w2 (set_manifest (with_memtable (create opts p) m) (Some mf))) as Hal.
  { apply alive_created; try done; [by simpl; rewrite Hcache|by intros ? [= <-]]. }
  set (s := set_manifest (with_memtable (create opts p) m) (Some mf)) in *.
  replace (MemTable.id_ (LsmStorageState.memtable (state (with_memtable (create opts p) m)))) with 0 by done.
  pose proof Hal as []. eapply runs_mono; [apply (record_added s); [apply al_engine|done]|].
  intros w3 s3 Hrec. destruct (recorded_state _ _ _ _ _ Hrec) as [Hst Hn].
  pose proof (evolves_recorded _ _ _ _ _ Hrec) as [Ep Eo Ec Hlog]. split_and!.
  - split; rewrite ?Ec, ?Eo, ?Hst; try done. by eapply engine_recorded.
  - exists [ManifestRecord.NewMemtable 0], (LsmStorageState.create opts), 1. split_and!.
    + apply (Hlog []). by apply (logged_created _ p); [| |apply lookup_insert_eq|].
    + by repeat constructor.
    + assert (mem_ids (state s3) = [0]) as Emi by (rewrite Hst; unfold mem_ids; simpl; by rewrite Hid).
      assert (ids_of (state s3) = []) as Eids by (rewrite Hst; exact (create_ids opts)).
      split; rewrite ?Ec, ?Eo, ?Emi, ?Eids, ?Hn; [done|by rewrite Hst|done|simpl; lia|].
      intros id [->%list_elem_of_singleton|?%not_elem_of_nil]; [lia|done].
  - rewrite Hst. unfold shown, contents. assert (ids_of (state s) = []) as -> by exact (create_ids opts).
    simpl. by rewrite Hmap.
  - by rewrite Eo.
  - by rewrite Ep.
  - by rewrite Hn.
Qed.

(** ** The tables of a recovered structure *)

(** The file of [id] gives the table that [tables] has. *)
Definition on_file (tables : gmap nat SsTable.t) (fs : Fs.t) s id : Prop := ∃ t data, tables !! id = Some t ∧
  fs !! path_of_sst_val s id = Some data ∧ (Z.of_nat (length data) < 4294967296)%Z ∧
  SsTable.open id true (TableBuilderSpec.file_of data) = Ok t.

Lemma open_ssts_spec (tables : gmap nat SsTable.t) w s ids : (∀ id, id ∈ ids → on_file tables (files w) s id) →
  runs (open_ssts s ids) w (λ w' s', w' = w ∧ ∃ ts, s' = set_state s (LsmStorageState.set_sstables (state s) ts) ∧
    ∀ id, ts !! id = if decide (id ∈ ids) then tables !! id else LsmStorageState.sstables (state s) !! id).
Proof.
  revert s; induction ids as [|id ids IH]; intros s Hids; cbn [open_ssts].
  { apply runs_ret. split; [done|]. exists (LsmStorageState.sstables (state s)). split; [by destruct s as [[]]|].
    intros id. rewrite decide_False; [done|]. apply not_elem_of_nil. }
  destruct (Hids id) as (t & data & Ht & Hf & Hlen & Hopen); [set_solver|].
  eapply runs_bind; [eapply runs_on_fs; by apply TableBuilderSpec.file_of_open|]. intros w1 file [-> ->].
  replace (MkWorld (files w) (cache w)) with w by (by destruct w).
  eapply runs_bind; [apply (runs_lift _ _ (eq t)); by exists t|]. intros w1 ? [-> <-].
  set (s1 := set_state s _). eapply runs_mono; [apply (IH s1); intros id' Hid'; apply Hids; set_solver|].
  intros w' s' (-> & ts & -> & Hts). split; [done|]. exists ts. split; [done|]. intros id'. rewrite Hts. simpl.
  destruct (decide (id' ∈ ids)), (decide (id' ∈ id :: ids)); try done; [set_solver| |].
  - assert (id' = id) as -> by set_solver. by rewrite lookup_insert_eq.
  - rewrite lookup_insert_ne; [done|]. intros ->. set_solver.
Qed.

(** ** The logs of the memtables *)

(** The file of a memtable's log yields the memtable; there may be more behind
    the last record that is whole. *)
Definition mem_on_file (fs : Fs.t) s (m : MemTable.t) : Prop := ∃ buf pos rs,
  fs !! path_of_wal_val s (MemTable.id_ m) = Some buf ∧ Wal.recover_loop buf = Ok (pos, rs) ∧
  MemTableSpec.replay rs = kv_map (MemTable.map_ m) ∧ ksorted (MemTable.map_ m) ∧ Forall kv_ok (MemTable.map_ m).

(** [m'] is what recovery makes of [m]: the same entries, with an open log. *)
Definition recovered w s (m m' : MemTable.t) : Prop :=
  MemTable.id_ m' = MemTable.id_ m ∧ MemTable.map_ m' = MemTable.map_ m ∧
  MemTable.wal_ m' = Some (Wal.mk (path_of_wal_val s (MemTable.id_ m)) (Some [])) ∧ mem_at w true (path_of_wal_val s) m'.

(** Nothing but the logs of [ids] is different. *)
Definition logs_only s (ids : list nat) w w' : Prop := cache w' = cache w ∧
  ∀ p, (∀ id, id ∈ ids → p ≠ path_of_wal_val s id) → files w' !! p = files w !! p.

Lemma logs_only_trans s ids1 ids2 w w1 w2 : logs_only s ids1 w w1 → logs_only s ids2 w1 w2 → logs_only s (ids1 ++ ids2) w w2.
Proof.
  intros [Hc1 Hf1] [Hc2 Hf2]. split; [congruence|]. intros p Hp. rewrite Hf2, Hf1; [done|..]; intros id Hid; apply Hp; set_solver.
Qed.

Lemma mem_on_file_agree fs fs' s m : mem_on_file fs s m →
  fs' !! path_of_wal_val s (MemTable.id_ m) = fs !! path_of_wal_val s (MemTable.id_ m) → mem_on_file fs' s m.
Proof. intros (buf & pos & rs & Hf & ?) E. exists buf, pos, rs. by rewrite E. Qed.

Lemma recovered_agree w w' s m m' : recovered w s m m' →
  files w' !! path_of_wal_val s (MemTable.id_ m) = files w !! path_of_wal_val s (MemTable.id_ m) → recovered w' s m m'.
Proof.
  intros (Hid & Hmap & Hw & Hat) E. split_and!; [done..|]. by apply (mem_at_agree w); [|rewrite Hid].
Qed.

Lemma recover_mem w s m : mem_on_file (files w) s m →
  runs (on_fs (MemTable.recover_from_wal (MemTable.id_ m) (path_of_wal_val s (MemTable.id_ m)))) w
    (λ w' r, logs_only s [MemTable.id_ m] w w' ∧ ∃ m', r = inl m' ∧ recovered w' s m m').
Proof.
  intros (buf & pos & rs & Hf & Hloop & Hrs & Hs & He). set (p := path_of_wal_val s (MemTable.id_ m)) in *.
  destruct (MemTableSpec.recover_spec (MemTable.id_ m) p (files w) buf Hf) as (rs' & m' & pos' & Hrun & [Hs' Hm' Hlog] & Hid' & Hw' & Hloop').
  rewrite Hloop in Hloop'. injection Hloop' as <- <-.
  assert (MemTable.map_ m' = MemTable.map_ m) as Emap by (apply ksorted_ext; [done|done|congruence]).
  exists (MkWorld (<[p := WalSpec.frames rs]> (files w)) (cache w)), (inl m'). split; [unfold on_fs; by rewrite Hrun|]. split.
  - split; [done|]. intros q Hq. apply lookup_insert_ne. intros <-. apply (Hq (MemTable.id_ m)); [set_solver|done].
  - exists m'. split; [done|]. split_and!; [done|done|done|]. split; [by rewrite Hw'|by rewrite Emap|by rewrite Emap|].
    intros l Hl. rewrite Hid'. split; [rewrite Hw' in Hl; by injection Hl as <-|]. exists rs. split; [by apply Hlog|by rewrite Emap].
Qed.

(** Closing a log with nothing buffered. *)
Lemma destroy_recovered w s m m' : recovered w s m m' → runs (destroy_memtable m') w (λ w' _, w' = w).
Proof.
  intros (_ & _ & Hw & [_ _ _ Hl]). destruct (Hl _ Hw) as (_ & rs & (buf & file & _ & Hf & _) & _).
  unfold destroy_memtable. rewrite Hw. eexists w, tt. split; [|done].
  unfold on_fs, Wal.close, Wal.fflush. cbn [Wal.fp_ Wal.path_] in *. rewrite Hf. cbn. rewrite app_nil_r, insert_id by done. by destruct w.
Qed.

(** Every log that is not empty becomes an immutable memtable; the last one is the
    newest. *)
Lemma recover_wals_spec w s ms : Forall (mem_on_file (files w) s) ms → NoDup (MemTable.id_ <$> ms) →
  runs (recover_wals s (MemTable.id_ <$> ms)) w (λ w' s', logs_only s (MemTable.id_ <$> ms) w w' ∧ ∃ ms',
    Forall2 (recovered w' s) (filter (λ m, MemTable.map_ m ≠ []) ms) ms' ∧
    s' = set_state s (LsmStorageState.set_imm_memtables (state s) (rev ms' ++ LsmStorageState.imm_memtables (state s)))).
Proof.
  revert w s; induction ms as [|m ms IH]; intros w s Hms Hnd.
  { apply runs_ret. split; [done|]. exists []. split; [constructor|]. by destruct s as [[]]. }
  apply Forall_cons in Hms as [Hm Hms]. rewrite fmap_cons in *. apply NoDup_cons in Hnd as [Hnew Hnd]. cbn [recover_wals].
  eapply runs_bind; [by apply recover_mem|]. intros w1 r (Hw1 & m' & -> & Hrec). pose proof Hrec as (Hid & Hmap & _).
  assert (Forall (mem_on_file (files w1) s) ms) as Hms1.
  { apply Forall_forall. intros m2 Hm2. apply (mem_on_file_agree (files w)); [by eapply Forall_forall in Hms|]. apply Hw1.
    intros id ->%list_elem_of_singleton E%Names.path_wal_inj. apply Hnew. rewrite <-E. by apply list_elem_of_fmap_2. }
  change (MemTable.id_ m :: ?l) with ([MemTable.id_ m] ++ l).
  unfold MemTable.is_empty. rewrite Hmap, filter_cons. case_bool_decide as E.
  - rewrite decide_False by naive_solver. eapply runs_bind; [by eapply destroy_recovered|]. intros w2 _ ->.
    eapply runs_mono; [by apply IH|]. intros w' s' [Hw' H']. split; [by eapply logs_only_trans|done].
  - rewrite decide_True by done. set (s1 := set_state s _). eapply runs_mono; [by apply (IH w1 s1)|].
    intros w' s' (Hw' & ms' & Hms' & ->). split; [by eapply logs_only_trans|]. exists (m' :: ms'). split; [|simpl; by rewrite <-(assoc_L (++))].
    constructor; [|done]. eapply recovered_agree; [done|]. apply Hw'. intros id Hin Ew. change (path_of_wal_val s1) with (path_of_wal_val s) in Ew. apply Names.path_wal_inj in Ew. congruence.
Qed.

(** ** An old directory *)

(** What opening relies on: the manifest replays to the structure of [s], its
    tables are on file, and the logs of its memtables yield the memtables [ms] if
    logging is on; without logs they are empty. *)
Record directory (fs : Fs.t) s (ms : list MemTable.t) : Prop := {
  di_manifest : ∃ rs st n, fs !! manifest_path (path s) = Some (ManifestSpec.frames rs) ∧
    Forall ManifestRecordSpec.record_ok rs ∧ (Z.of_nat (length (ManifestSpec.frames rs)) < 2 ^ 63)%Z ∧ replayed rs s st n;
  di_tables id : id ∈ ids_of (state s) → on_file (LsmStorageState.sstables (state s)) fs s id;
  di_ids : MemTable.id_ <$> ms = mem_ids (state s);
  di_mems : if LsmStorageOptions.enable_wal (options s) then Forall (mem_on_file fs s) ms else mem_stock ms = [] }.

(** What is on record of the tables of the tree only. *)
Definition restricted g (ids : list nat) : ghost := filter (λ x, x.1 ∈ ids) g.

Lemma restricted_lookup g ids id : id ∈ ids → restricted g ids !! id = g !! id.
Proof.
  intros Hin. apply option_eq. intros kvss. unfold restricted. rewrite map_lookup_filter_Some. naive_solver.
Qed.
Lemma restricted_ids g ids id : is_Some (restricted g ids !! id) → id ∈ ids.
Proof. intros [kvss [_ Hin]%map_lookup_filter_Some]. exact Hin. Qed.

Lemma sublist_sorted {A} (R : A → A → Prop) (l1 l2 : list A) : StronglySorted R l2 → sublist l1 l2 → StronglySorted R l1.
Proof.
  intros Hs Hsub. revert Hs; induction Hsub as [|x l1 l2 Hsub IH|x l1 l2 Hsub IH]; intros Hs; [done|..];
    apply StronglySorted_cons in Hs as [Hx Hs]; [|by apply IH].
  apply StronglySorted_cons. split; [|by apply IH]. apply Forall_forall. intros y Hy. eapply Forall_forall; [exact Hx|].
  by eapply sublist_subseteq.
Qed.

(** The opened state: the structure of [s], its tables, the memtables [imms] and a
    new one. *)
Lemma engine_reopened h h' g w0 w s s' m imms ms n : alive h g w0 s → mem_stock ms ++ level_entries g (ids_of (state s)) ⊆+ h' →
  path s' = path s → options s' = options s → compaction_controller s' = compaction_controller s →
  (∀ mf, manifest s' = Some mf → Manifest.path_ mf = manifest_path (path s)) →
  same_structure (state s') (state s) → memtables (state s') = m :: imms → MemTable.id_ m = S n → next_sst_id s' = S (S n) →
  (∀ id, id ∈ mem_ids (state s) ∨ id ∈ ids_of (state s) → id ≤ n) →
  (∀ id, id ∈ ids_of (state s) → LsmStorageState.sstables (state s') !! id = LsmStorageState.sstables (state s) !! id ∧
    on_file (LsmStorageState.sstables (state s)) (files w) s id) →
  Forall (mem_ok w s) (m :: imms) → Forall (λ m, MemTable.map_ m ≠ []) imms →
  sublist (MemTable.id_ <$> imms) (mem_ids (state s)) → MemTable.map_ m = [] →
  mem_stock imms = mem_stock ms →
  (∃ capacity, cache w = BlockCache.create capacity) →
  ∃ g', alive h' g' w s' ∧ shown g' (state s') = visible (kv_map (mem_stock ms ++ level_entries g (ids_of (state s)))).
Proof.
  intros Hal Hh' Ep Eo Ec Hman Hsame Hmem Hid Hn Hle Htab Hmems Hne Hsubl Hmap Hstock [cap Hcache]. pose proof Hal as [].
  pose proof (same_ids _ _ Hsame) as Eids. destruct Hsame as [El0 Elv].
  set (g' := restricted g (ids_of (state s))).
  assert (g' ⊆ g) as Hg' by apply map_filter_subseteq.
  assert (∀ id, id ∈ ids_of (state s) → g' !! id = g !! id) as Hg by (intros; by apply restricted_lookup).
  assert (∀ id, id ∈ ids_of (state s) → is_Some (g' !! id)) as Hsome by (intros id Hin; rewrite Hg by done; by eapply engine_some).
  assert (path_of_sst_val s' = path_of_sst_val s ∧ path_of_wal_val s' = path_of_wal_val s) as [Esst Ewal].
  { unfold path_of_sst_val, path_of_wal_val. by rewrite Ep. }
  assert (mem_ids (state s') = S n :: (MemTable.id_ <$> imms)) as Emi by (unfold mem_ids; rewrite Hmem, fmap_cons; by rewrite Hid).
  assert (∀ id, id ∈ MemTable.id_ <$> imms → id ∈ mem_ids (state s)) as Hin by (by apply sublist_subseteq).
  pose proof (eo_nodup _ _ _ al_engine) as Hnd. exists g'.
  assert (level_entries g' (ids_of (state s)) = level_entries g (ids_of (state s))) as Elev by (symmetry; by apply level_entries_mono).
  split; [split; try done|].
  - split; rewrite ?Eo, ?Ec, ?Ep, ?Eids, ?Emi, ?Hn, ?El0, ?Elv; try done.
    + apply al_engine.
    + rewrite Hcache. apply create_cache_ok.
    + rewrite Hmem. unfold mem_ok in *. by rewrite Eo, Ewal.
    + assert (LsmStorageState.imm_memtables (state s') = imms) as ->; [|done]. unfold memtables in Hmem. by injection Hmem.
    + intros id Hid'. destruct (Htab id Hid') as (Ht & t & data & Ht' & Hf & Hlen & Hopen).
      destruct (eo_tables _ _ _ al_engine id Hid') as (t0 & kvss & data0 & []). rewrite ta_open in Ht'. injection Ht' as ->.
      exists t, kvss, data. split; rewrite ?Esst; try done; [by rewrite Ht|by rewrite Hg].
    + apply Forall_forall. intros lv Hlv. rewrite <-(level_entries_mono g' g); [|done|].
      * pose proof (eo_levels _ _ _ al_engine) as Hl. by eapply Forall_forall in Hl.
      * intros id Hid'. apply Hsome. by eapply ids_of_level.
    + by apply al_engine.
    + cbn [app]. apply NoDup_cons. split.
      * rewrite elem_of_app. intros Hor. assert (S n ≤ n); [|lia]. apply Hle. destruct Hor as [?|?]; [left; by apply Hin|by right].
      * apply NoDup_app in Hnd as (Hnd1 & Hd & Hnd2). apply NoDup_app. split_and!; [by apply (sublist_NoDup _ (mem_ids (state s)))| |done].
        intros id Hid'. by apply Hd, Hin.
    + intros id [[->|Hid']%elem_of_cons|Hid'%restricted_ids]; [lia|..]; assert (id ≤ n); [by apply Hle; left; apply Hin|lia|by apply Hle; right|lia].
    + intros id Hid'. apply eq_None_not_Some. intros Hg''%restricted_ids.
      apply elem_of_cons in Hid' as [->|Hid']; [assert (S n ≤ n); [by apply Hle; right|lia]|].
      apply NoDup_app in Hnd as (_ & Hd & _). by apply (Hd id); [apply Hin|].
  - by rewrite Ec, Eo.
  - rewrite Ec. by apply (shape_same _ _ (state s)).
  - rewrite Emi. apply StronglySorted_cons. split; [|by eapply sublist_sorted].
    apply Forall_forall. intros id Hid'. assert (id ≤ n); [apply Hle; left; by apply Hin|lia].
  - rewrite Ec, Emi, Elv. intros Hb [E0|H0']%elem_of_cons; [done|]. by apply al_zero; [|apply Hin].
  - unfold stock. rewrite Hmem, mem_stock_cons, Hmap, Hstock, Eids, Elev. done.
  - unfold shown. rewrite contents_stock. unfold stock. by rewrite Hmem, mem_stock_cons, Hmap, Hstock, Eids, Elev.
Qed.

(** The memtables that are not empty, newest first again. *)
Lemma filter_rev {A} (P : A → Prop) `{∀ x, Decision (P x)} (l : list A) : filter P (rev l) = rev (filter P l).
Proof.
  induction l as [|x l IH]; [done|]. simpl. rewrite filter_app, IH, !filter_cons.
  destruct (decide (P x)); simpl; [done|]. apply app_nil_r.
Qed.

Lemma fmap_rev {A B} (f : A → B) (l : list A) : f <$> rev l = rev (f <$> l).
Proof. induction l as [|x l IH]; [done|]. simpl. by rewrite fmap_app, IH. Qed.

Lemma mem_stock_nonempty (ms : list MemTable.t) :
  mjoin (MemTable.map_ <$> filter (λ m, MemTable.map_ m ≠ []) ms) = mem_stock ms.
Proof.
  induction ms as [|m ms IH]; [done|]. rewrite mem_stock_cons. destruct (decide (MemTable.map_ m = [])) as [E|E].
  - rewrite filter_cons_False, E by naive_solver. exact IH.
  - rewrite filter_cons_True, fmap_cons by done. change (mjoin (?a :: ?l)) with (a ++ mjoin l). by rewrite IH.
Qed.

Lemma recovered_all w s ms ms' : Forall2 (recovered w s) ms ms' →
  MemTable.map_ <$> ms' = MemTable.map_ <$> ms ∧ MemTable.id_ <$> ms' = MemTable.id_ <$> ms ∧
  Forall (mem_at w true (path_of_wal_val s)) ms'.
Proof.
  induction 1 as [|m m' ms ms' (Hid & Hmap & _ & Hm) _ (E1 & E2 & Hms)]; [done|].
  rewrite !fmap_cons, Hid, Hmap, E1, E2. split_and!; [done..|]. by constructor.
Qed.

Lemma concat_mjoin {A} (l : list (list A)) : concat l = mjoin l.
Proof. induction l as [|x l IH]; [done|]. simpl. by rewrite IH. Qed.

(** The memtables after opening, before the first record. *)
Lemma reopen_memtables w s s1 ms n : directory (files w) s ms → NoDup (mem_ids (state s)) → path s1 = path s → options s1 = options s →
  Forall (λ id, id ≤ n) (mem_ids (state s)) → LsmStorageState.imm_memtables (state s1) = [] →
  runs (if LsmStorageOptions.enable_wal (options s) then
          s ← recover_wals s1 (rev (mem_ids (state s)));
          mem_res ← on_fs (MemTable.create_with_wal (S n) (path_of_wal_val s (S n)));
          mret (set_state s (LsmStorageState.set_memtable (state s)
                  (match mem_res with inl mem => mem | inr _ => MemTable.create (S n) end)))
        else mret (set_state s1 (LsmStorageState.set_memtable (state s1) (MemTable.create (S n))))) w (λ w' s2, ∃ m imms,
    s2 = set_state s1 (LsmStorageState.set_memtable (LsmStorageState.set_imm_memtables (state s1) imms) m) ∧
    MemTable.id_ m = S n ∧ MemTable.map_ m = [] ∧ Forall (mem_ok w' s) (m :: imms) ∧ Forall (λ m, MemTable.map_ m ≠ []) imms ∧
    sublist (MemTable.id_ <$> imms) (mem_ids (state s)) ∧
    mem_stock imms = mem_stock ms ∧
    cache w' = cache w ∧ ∀ p, (∀ id, p ≠ path_of_wal_val s id) → files w' !! p = files w !! p).
Proof.
  intros Hdir Hnd Ep Eo Hle Himm. pose proof (di_mems _ _ _ Hdir) as Hmems. pose proof (di_ids _ _ _ Hdir) as Hids. unfold mem_ok.
  destruct (LsmStorageOptions.enable_wal (options s)) eqn:Ewal.
  - assert (rev (mem_ids (state s)) = MemTable.id_ <$> rev ms) as -> by (by rewrite fmap_rev, Hids).
    assert (∀ id, path_of_wal_val s1 id = path_of_wal_val s id) as Epath by (intros id; unfold path_of_wal_val; by rewrite Ep).
    eapply runs_bind; [apply (recover_wals_spec w s1)|].
    { apply Forall_rev. eapply Forall_impl; [exact Hmems|]. intros m (buf & pos & rs & Hf & ?). exists buf, pos, rs. by rewrite Epath. }
    { by rewrite fmap_rev, Hids, <-Permutation_rev. }
    intros w1 s2 ([Hc1 Hf1] & ms' & Hms' & ->). rewrite Himm, app_nil_r. destruct (recovered_all _ _ _ _ Hms') as (Emap & Eid & Hat).
    rewrite filter_rev in Emap, Eid.
    assert (sublist (MemTable.id_ <$> rev ms') (mem_ids (state s))) as Hsub.
    { rewrite fmap_rev, Eid, fmap_rev, rev_involutive, <-Hids. apply fmap_sublist, sublist_filter. }
    eapply runs_bind; [by apply runs_on_fs|]. intros w2 r [-> ->]. apply runs_ret.
    match goal with |- context [MkWorld ?fs ?c] => set (w2 := MkWorld fs c) end.
    exists (MemTable.create_wal (S n) (Wal.mk (path_of_wal_val s1 (S n)) (Some []))), (rev ms'). split_and!; [done|done|done| | | | |exact Hc1|].
    + constructor; [split; [done|apply ksorted_nil|done|]|].
      * intros l [= <-]. cbn [Wal.path_ MemTable.id_ MemTable.create_wal]. rewrite Epath. split; [done|]. exists []. split; [|done].
        exists [], []. split_and!; [done| |done|done]. cbn [Wal.path_]. unfold w2. cbn [files].
        change (path_of_wal_val (set_state s1 _) (S n)) with (path_of_wal_val s1 (S n)). rewrite Epath. apply lookup_insert_eq.
      * apply Forall_forall. intros m Hm. pose proof Hm as Hid. rewrite <-Permutation_rev in Hm.
        assert (MemTable.id_ m ∈ mem_ids (state s)) as Hin.
        { apply (sublist_subseteq _ _ Hsub). apply (list_elem_of_fmap_2 MemTable.id_). exact Hid. }
        pose proof (proj1 (Forall_forall _ _) Hat m Hm) as Hm'.
        destruct Hm' as [Hon Hs He Hw]. split; [done..|]. intros l Hl. destruct (Hw l Hl) as (Hp & rs & (buf & file & ? & ? & ? & ?) & Hrs).
        rewrite Epath in Hp. split; [done|]. exists rs. split; [|done]. exists buf, file. split_and!; try done.
        unfold w2. cbn [files]. change (path_of_wal_val (set_state s1 _) (S n)) with (path_of_wal_val s1 (S n)). rewrite Epath.
        rewrite lookup_insert_ne; [done|]. rewrite Hp. intros E%Names.path_wal_inj.
        pose proof (proj1 (Forall_forall _ _) Hle _ Hin). simpl in *. lia.
    + apply Forall_forall. intros m Hm. rewrite <-Permutation_rev in Hm.
      assert (MemTable.map_ m ∈ MemTable.map_ <$> ms') as Hmm by (by apply list_elem_of_fmap_2). rewrite Emap, fmap_rev, <-Permutation_rev in Hmm.
      apply list_elem_of_fmap_1 in Hmm as (m0 & -> & Hm0). by apply list_elem_of_filter in Hm0 as [? _].
    + exact Hsub.
    + unfold mem_stock at 1. rewrite fmap_rev, Emap, fmap_rev, rev_involutive. apply mem_stock_nonempty.
    + intros p Hp. unfold w2. cbn [files]. change (path_of_wal_val (set_state s1 _) (S n)) with (path_of_wal_val s1 (S n)).
      rewrite Epath, lookup_insert_ne by (symmetry; apply Hp). apply Hf1. intros id _. by rewrite Epath.
  - apply runs_ret. exists (MemTable.create (S n)), []. split_and!; try done.
    + by destruct s1 as [[]]; simpl in *; subst.
    + constructor; [|constructor]. split; [done|apply ksorted_nil|done|done].
    + apply sublist_nil_l.
Qed.

Lemma alive_recorded h g r w s w' s' : alive h g w s → recorded r w s w' s' → alive h g w' s'.
Proof.
  intros [] Hrec. destruct (recorded_state _ _ _ _ _ Hrec) as [Hst _].
  pose proof (evolves_recorded _ _ _ _ _ Hrec) as [_ Eo Ec _]. split; rewrite ?Ec, ?Eo, ?Hst; try done. by eapply engine_recorded.
Qed.

(** Opening the directory of [s]. *)
Lemma reopen_spec h h' g w0 fs s ms cap : alive h g w0 s → directory fs s ms → mem_stock ms ++ level_entries g (ids_of (state s)) ⊆+ h' →
  (Z.of_nat (next_sst_id s) < 2 ^ 64 - 1)%Z →
  runs (open (path s) (options s)) (MkWorld fs (BlockCache.create cap)) (λ w' s', ∃ g', alive h' g' w' s' ∧
    shown g' (state s') = visible (kv_map (mem_stock ms ++ level_entries g (ids_of (state s)))) ∧ options s' = options s ∧ path s' = path s ∧ next_sst_id s' ≤ S (S (next_sst_id s))).
Proof.
  intros Hal Hdir Hh' Hroom. pose proof Hal as []. set (w := MkWorld fs _).
  destruct (di_manifest _ _ _ Hdir) as (rs & st & n & Hf & Hok & Hlen & [Hrun Hsame Himm Hnext Hids]).
  unfold open. eapply runs_bind; [apply (runs_on_fs _ _ fs true); simpl; by rewrite Hf|]. intros w1 b [-> ->]. cbn [negb].
  eapply runs_bind; [eapply (runs_on_fs _ w)|]; [eapply ManifestSpec.recover_file; [exact Hf|by apply ManifestSpec.manifest_recover_frames]|].
  intros w1 r [-> ->]. change (MkWorld (files w) (cache w)) with w. unfold open_recovered. cbv zeta.
  set (m := Manifest.mk (manifest_path (path s)) (Some 0)).
  change (compaction_controller (set_manifest (create (options s) (path s)) (Some m)))
    with (CompactionController.create (LsmStorageOptions.compaction_options (options s))). rewrite <-al_controller.
  eapply runs_bind; [apply (runs_lift _ _ (eq (st, n, rev (mem_ids (state s))))); by exists (st, n, rev (mem_ids (state s)))|].
  intros w1 ? [-> <-]. destruct Hsame as [El0 Elv].
  set (s0 := set_state _ st). rewrite concat_mjoin. change (snd <$> LsmStorageState.levels st) with (LsmStorageState.levels st).*2.
  fold (level_ids (LsmStorageState.levels st)). rewrite <-El0, <-Elv. fold (ids_of (state s)).
  eapply runs_bind; [apply (open_ssts_spec (LsmStorageState.sstables (state s)) w s0)|].
  { intros id Hid. by apply (di_tables _ _ _ Hdir). }
  intros w1 s1 (-> & ts & -> & Hts). set (s1 := set_state s0 _).
  eapply runs_bind; [apply (reopen_memtables w s s1 ms n); try done|].
  { pose proof (eo_nodup _ _ _ al_engine) as Hnd. by apply NoDup_app in Hnd as (? & _ & _). }
  { apply Forall_forall. intros id Hid. apply Hids. by left. }
  intros w2 s2 (m0 & imms & -> & Hm0 & Hmap0 & Hmems & Hne & Hsubl & Hmerged & Hcache & Hfiles). set (s2 := set_state s1 _).
  set (s3 := set_next_sst_id s2 (S (S n))).
  destruct (engine_reopened h h' g w0 w2 s s3 m0 imms ms n) as (g' & Hal' & Hshown); try done.
  - by intros mf [= <-].
  - intros id Hid. split.
    + simpl. rewrite Hts. by rewrite decide_True.
    + destruct (di_tables _ _ _ Hdir id Hid) as (t & data & ? & Hfd & ? & ?). exists t, data. split_and!; try done.
      rewrite Hfiles; [exact Hfd|]. intros id'. apply Names.path_sst_wal.
  - by exists cap.
  - pose proof Hal' as [Hok' _ _ _ _ _]. eapply runs_mono; [apply (record_added s3); [apply Hok'|]|].
    + cbn. rewrite Hm0. unfold ManifestRecordSpec.id_ok. lia.
    + intros w3 s4 Hrec. exists g'. destruct (recorded_state _ _ _ _ _ Hrec) as [Hst Hn].
      pose proof (evolves_recorded _ _ _ _ _ Hrec) as [Ep Eo Ec _]. rewrite Hst, Hn, Eo, Ep.
      split_and!; [by eapply alive_recorded|done|done|done|simpl; lia].
Qed.

(** ** Shutting down *)
Lemma runs_and {A} (m : eff World A) w (P Q : World → A → Prop) :
  runs m w P → runs m w Q → runs m w (λ w' a, P w' a ∧ Q w' a).
Proof. intros (w' & a & E & HP) (w'' & b & E' & HQ). rewrite E in E'. injection E' as <- <-. by exists w', a. Qed.

Lemma freeze_step h g w s : alive h g w s → MemTable.map_ (LsmStorageState.memtable (state s)) ≠ [] → room s →
  runs (force_freeze_memtable s) w (λ w' s', steps h 1 g w s (shown g (state s)) w' s' ∧
    MemTable.map_ (LsmStorageState.memtable (state s')) = []).
Proof.
  intros [] Hne Hroom. eapply runs_mono; [by apply (freeze_spec g)|].
  intros w' s' (Hok' & Hev & _ & Hn & m & Hid & Hmap & Hst). split; [|by rewrite Hst].
  pose proof Hev as [Ep Eo Ec _]. exists g.
  assert (mem_ids (state s') = next_sst_id s :: mem_ids (state s)) as Eids by (rewrite Hst; unfold mem_ids, memtables; simpl; by rewrite Hid).
  assert (same_structure (state s') (state s)) as Hsame by (by rewrite Hst).
  split_and!; [done| |unfold shown; by rewrite Hst, contents_frozen|lia|lia|done..|].
  - split; rewrite ?Ec, ?Eo, ?Eids; try done.
    + apply (shape_same _ _ (state s)); [apply Hsame|done].
    + apply StronglySorted_cons. split; [|done]. by apply (alive_below g w).
    + intros Hb [E0|Hin]%elem_of_cons; [|rewrite (proj2 Hsame); auto]. pose proof (Forall_inv (alive_below _ _ _ al_engine)). simpl in *. lia.
    + unfold stock. rewrite (same_ids _ _ Hsame), Hst. unfold memtables. simpl. by rewrite mem_stock_cons, Hmap.
  - intros Hj. eapply journaled_step; [exact Hj|exact Hev|right; eexists; split; [done|exact Hroom]|].
    intros rs st n Hrep. eapply replayed_freeze; try done. by apply (alive_below g w).
Qed.

(** The loop at the end of [close]. *)
Lemma drain_step h g w s n : alive h g w s → fits h → room s → MemTable.map_ (LsmStorageState.memtable (state s)) = [] →
  length (LsmStorageState.imm_memtables (state s)) = n →
  runs (loop (S n) MiniLsm.close_step s) w (λ w' s', steps h 0 g w s (shown g (state s)) w' s' ∧ drained (state s')).
Proof.
  intros Hal Hfits Hroom Hmap. revert g w s Hal Hroom Hmap. induction n as [|n IH]; intros g w s Hal Hroom Hmap Hn; cbn [loop].
  - apply length_zero_iff_nil in Hn. assert (MiniLsm.close_step s = mret (inr s)) as -> by (unfold MiniLsm.close_step; by rewrite Hn).
    eapply runs_bind; [by apply (runs_ret _ _ (λ w' r, w' = w ∧ r = inr s))|]. intros w1 r [-> ->].
    apply runs_ret. split; [by apply steps_refl|done].
  - pose proof Hal as []. destruct (LsmStorageState.imm_memtables (state s)) as [|m0 ms0] eqn:E; [done|].
    assert (MiniLsm.close_step s = (s ← force_flush_next_imm_memtable s; mret (inl s))) as ->
      by (unfold MiniLsm.close_step; by rewrite E).
    eapply runs_bind; [eapply runs_bind; [apply runs_and; [eapply runs_mono; [by apply (flush_step h g)|]; intros w' s' (g' & Hs & _); by apply (ex_intro (λ g', stepped h 0 g w s (shown g (state s)) g' w' s') g')|apply (flush_spec g); [done|done|]]|]|].
    + intros m [ms E']%last_Some. pose proof (fits_imms h g w s Hal Hfits) as Hf. rewrite E' in Hf.
      apply Forall_app in Hf as [_ Hf]. by apply Forall_inv in Hf.
    + intros w1 s1 Hres. apply (runs_ret _ _ (λ w' r, ∃ s1, r = inl s1 ∧ steps h 0 g w s (shown g (state s)) w' s1 ∧ flush_result g w s w' s1)). eauto.
    + intros w1 r (s1 & -> & Hstep & [(E' & _)|(ms & m & t & kvss & E' & Hst & _)]); [by rewrite E in E'|].
      destruct (flushed_memtables s (MemTable.id_ m) t ms m E') as [Em _]. rewrite <-Hst in Em. injection Em as Em1 Em2.
      rewrite E in E'. rewrite E' in Hn. rewrite length_app in Hn. simpl in Hn.
      destruct Hstep as (g1 & Hs1). pose proof Hs1 as (_ & Hal1 & Hsh1 & Hn1 & _).
      eapply runs_mono; [apply (IH g1 w1 s1); [done|unfold room in *; lia|by rewrite Em1|rewrite Em2; lia]|].
      intros w2 s2 [Hs2 Hd]. split; [|done]. rewrite Hsh1 in Hs2. destruct Hs2 as (g2 & Hs2).
      exists g2. exact (stepped_trans _ _ 0 0 _ _ _ _ _ _ _ _ _ _ _ Hs1 Hs2).
Qed.

(** [close], with or without logs. *)
Lemma close_step_spec h g w s : alive h g w s → fits h → (Z.of_nat (next_sst_id s) < 2 ^ 64 - 1)%Z →
  runs (MiniLsm.close s) w (λ w' s', steps h 1 g w s (shown g (state s)) w' s' ∧
    (LsmStorageOptions.enable_wal (options s) = false → drained (state s'))).
Proof.
  intros Hal Hfits Hroom. pose proof Hal as []. assert (room s) as Hr by (unfold room; lia). unfold MiniLsm.close.
  destruct (LsmStorageOptions.enable_wal (options s)) eqn:Ewal.
  { eapply runs_mono; [by apply (sync_step h g)|]. intros w' s' [Hs _]. split; [|done]. exists g. eapply stepped_mono; [| |exact Hs]; [done|lia]. }
  eapply (runs_bind _ _ _ (λ w1 s1, steps h 1 g w s (shown g (state s)) w1 s1 ∧ MemTable.map_ (LsmStorageState.memtable (state s1)) = [])).
  { unfold MemTable.is_empty. case_bool_decide as E; simpl; [apply runs_ret; split; [by apply steps_refl|done]|by apply freeze_step]. }
  intros w1 s1 [Hs1 Hmap]. destruct Hs1 as (g1 & Hs1). pose proof Hs1 as (_ & Hal1 & Hsh1 & Hn1 & _).
  eapply runs_mono; [apply (drain_step h g1 w1 s1); [done|done|unfold room in *; lia|done|done]|].
  intros w2 s2 [(g2 & Hs2) Hd]. split; [|done]. exists g2. rewrite <-Hsh1.
  exact (stepped_trans _ _ 1 0 _ _ _ _ _ _ _ _ _ _ _ Hs1 Hs2).
Qed.

(** The destructors of the memtables write out their logs. *)
Lemma destroy_mem w s m : mem_ok w s m → runs (destroy_memtable m) w (λ w' _,
  (∀ p, p ≠ path_of_wal_val s (MemTable.id_ m) → files w' !! p = files w !! p) ∧
  (LsmStorageOptions.enable_wal (options s) = true → mem_on_file (files w') s m)).
Proof.
  intros [Hon Hs He Hw]. unfold destroy_memtable. destruct (MemTable.wal_ m) as [l|] eqn:El; cycle 1.
  { apply runs_ret. split; [done|]. intros E. by destruct (Hon E). }
  destruct (Hw l eq_refl) as (Hp & rs & (buf & file & Hfp & Hf & Hlog & Hok) & Hrs).
  eexists _, tt. split; [done|]. unfold Wal.close. rewrite Hfp. unfold Wal.fflush. rewrite Hf. simpl. rewrite Hlog, Hp. split.
  - intros p Hne. by rewrite lookup_insert_ne.
  - intros _. exists (WalSpec.frames rs), (length (WalSpec.frames rs)), rs.
    split_and!; [by rewrite lookup_insert_eq|by apply recover_loop_frames|done..].
Qed.

Lemma destroy_memtables_spec w s ms : Forall (mem_ok w s) ms → NoDup (MemTable.id_ <$> ms) →
  runs (MiniLsm.destroy_memtables ms) w (λ w' _,
    (∀ p, (∀ id, p ≠ path_of_wal_val s id) → files w' !! p = files w !! p) ∧
    (∀ id, id ∉ MemTable.id_ <$> ms → files w' !! path_of_wal_val s id = files w !! path_of_wal_val s id) ∧
    (LsmStorageOptions.enable_wal (options s) = true → Forall (mem_on_file (files w') s) ms)).
Proof.
  revert w; induction ms as [|m ms IH]; intros w Hms Hnd; [by apply runs_ret|]. cbn [MiniLsm.destroy_memtables].
  apply Forall_cons in Hms as [Hm Hms]. rewrite fmap_cons in Hnd. apply NoDup_cons in Hnd as [Hid Hnd].
  eapply runs_bind; [by apply destroy_mem|]. intros w1 _ [Hf1 Hm1].
  eapply runs_mono; [apply IH; [|done]|].
  - apply Forall_forall. intros m' Hm'. apply (mem_ok_agree w); [by eapply Forall_forall in Hms|]. apply Hf1.
    intros E%Names.path_wal_inj. apply Hid. rewrite <-E. by apply list_elem_of_fmap_2.
  - intros w2 _ (Hf2 & Hw2 & Hm2). split_and!.
    + intros p Hp. rewrite Hf2 by done. by apply Hf1.
    + intros id Hn. rewrite fmap_cons, elem_of_cons in Hn. rewrite Hw2 by tauto. apply Hf1. intros E%Names.path_wal_inj. tauto.
    + intros Hon. constructor; [|by apply Hm2]. by apply (mem_on_file_agree (files w1)); [by apply Hm1|apply Hw2].
Qed.

(** The directory that the destructor leaves. *)
Lemma shutdown_spec h g w s : alive h g w s → journaled w s → fits h → (Z.of_nat (next_sst_id s) < 2 ^ 64 - 1)%Z →
  runs (MiniLsm.destroy s) w (λ w' _, ∃ g1 w1 s1, alive h g1 w1 s1 ∧ shown g1 (state s1) = shown g (state s) ∧
    path s1 = path s ∧ options s1 = options s ∧ next_sst_id s1 ≤ next_sst_id s + 1 ∧
    ∃ data, files w' !! manifest_path (path s) = Some data ∧ ((Z.of_nat (length data) < 2 ^ 63)%Z → directory (files w') s1 (memtables (state s1)))).
Proof.
  intros Hal Hj Hfits Hroom. unfold MiniLsm.destroy.
  eapply runs_bind; [by apply (close_step_spec h g)|]. intros w1 s1 [(g1 & _ & Hal1 & Hsh1 & Hn1 & _ & Eo1 & Ep1 & Hj1) Hd].
  pose proof Hal1 as []. specialize (Hj1 Hj). destruct Hj1 as (rs & st & n & (m & Em & Epm & Hfd & Hfm) & Hok & Hrep).
  eapply runs_mono; [apply (destroy_memtables_spec w1 s1 (memtables (state s1))); [apply al_engine|]|].
  { pose proof (eo_nodup _ _ _ al_engine) as Hnd. by apply NoDup_app in Hnd as (? & _ & _). }
  intros w2 _ (Hf & _ & Hm). exists g1, w1, s1. split_and!; [done..|lia|].
  assert (files w2 !! manifest_path (path s1) = Some (ManifestSpec.frames rs)) as Hman.
  { rewrite Hf; [by rewrite <-Epm|]. intros id E. by apply (Names.path_wal_manifest s1 id). }
  exists (ManifestSpec.frames rs). split; [by rewrite <-Ep1|]. intros Hlen. split.
  - exists rs, st, n. by split_and!.
  - intros id Hid. destruct (eo_tables _ _ _ al_engine id Hid) as (t & kvss & d & []). exists t, d. split_and!; try done.
    rewrite Hf; [done|]. apply Names.path_sst_wal.
  - done.
  - destruct (LsmStorageOptions.enable_wal (options s1)) eqn:Ewal; [by apply Hm|]. destruct Hd as [Hd1 Hd2]; [by rewrite <-Eo1|].
    unfold memtables. by rewrite Hd2, mem_stock_cons, Hd1.
Qed.

(** Without a word on the directory. *)
Lemma destroy_runs h g w s : alive h g w s → fits h → (Z.of_nat (next_sst_id s) < 2 ^ 64 - 1)%Z →
  runs (MiniLsm.destroy s) w (λ _ _, True).
Proof.
  intros Hal Hfits Hroom. eapply runs_bind; [by apply (close_step_spec h g)|]. intros w1 s1 [(g1 & _ & [] & _) _].
  eapply runs_mono; [apply (destroy_memtables_spec w1 s1 (memtables (state s1))); [apply al_engine|]|done].
  pose proof (eo_nodup _ _ _ al_engine) as Hnd. by apply NoDup_app in Hnd as (? & _ & _).
Qed.

(** ** Sessions *)

(** A run of operations on a new directory. *)
Lemma open_run p opts fs cap ops (N : nat) : options_ok opts → fs !! manifest_path p = None →
  Forall (Op.admissible (CompactionController.create (LsmStorageOptions.compaction_options opts))) ops →
  fits (written ops) → S (length (written ops)) ≤ N → N < loop_fuel → (Z.of_nat (1 + length ops * N) < 2 ^ 64)%Z →
  runs (s ← open p opts; Op.runs_all s ops) (MkWorld fs (BlockCache.create cap)) (λ w' r, ∃ g,
    alive (written ops) g w' r.1 ∧ journaled w' r.1 ∧ shown g (state r.1) = (Op.meanings ∅ ops).1 ∧
    options r.1 = opts ∧ path r.1 = p ∧ next_sst_id r.1 ≤ 1 + length ops * N ∧ r.2 = (Op.meanings ∅ ops).2).
Proof.
  intros Ho Hf Hadm Hfits HN Hfuel Hids.
  eapply runs_bind; [apply open_fresh_spec; [done|done|apply create_cache_ok]|].
  intros w1 s1 (Hal & Hj & Hsh & Eo & Ep & En). pose proof Hal as [_ Hc _ _ _ _]. rewrite Eo in Hc.
  eapply runs_mono; [apply (runs_all_step [] ∅ w1 s1 ops N); [done|by rewrite Hc|done|done|done|by rewrite En]|].
  intros w2 r [(g & _ & Hal2 & Hsh2 & Hn2 & Ec2 & Eo2 & Ep2 & Hj2) Ha]. rewrite Hsh in Hsh2, Ha. exists g.
  split_and!; [done|auto|done|congruence|congruence|lia|done].
Qed.

(** Shutting down, and opening the directory in a new process. *)
Lemma restart_run h g w s : alive h g w s → journaled w s → fits h → (Z.of_nat (next_sst_id s) < 2 ^ 64 - 2)%Z →
  runs (MiniLsm.destroy s) w (λ w' _, ∃ data, files w' !! manifest_path (path s) = Some data ∧
    ∀ cap, (Z.of_nat (length data) < 2 ^ 63)%Z →
    runs (open (path s) (options s)) (MkWorld (files w') (BlockCache.create cap)) (λ w'' s', ∃ g', alive h g' w'' s' ∧
      shown g' (state s') = shown g (state s) ∧ options s' = options s ∧ path s' = path s ∧ next_sst_id s' ≤ next_sst_id s + 3)).
Proof.
  intros Hal Hj Hfits Hroom. eapply runs_mono; [apply (shutdown_spec h g); [done|done|done|lia]|].
  intros w' _ (g1 & w1 & s1 & Hal1 & Hsh1 & Ep1 & Eo1 & En1 & data & Hdata & Hdir). exists data. split; [done|].
  intros cap Hlen. rewrite <-Ep1, <-Eo1. eapply runs_mono; [apply (reopen_spec h h g1 w1); [done|by apply Hdir|apply Hal1|lia]|].
  intros w'' s' (g' & Hal' & Hsh' & Eo' & Ep' & En'). exists g'. split_and!; [done| |done|done|lia].
  rewrite Hsh', <-Hsh1. unfold shown. by rewrite contents_stock.
Qed.
End open.
