(* ===== verification/LsmThreads.v ===== *)
(** * The threads: LsmStorageInner::spawn_compaction_thread and spawn_flush_thread

    The compaction thread runs beside the client and the flush thread.  It chooses
    a task from one snapshot of the state, reads the tables of another, writes
    the output entry by entry with ids from the shared counter, and takes
    [state_lock] only to install it.  [compactor] says where the thread stands,
    [compactor_step] is what it does up to its next access to shared state, and
    [perform_all] runs a schedule of its steps and of the other threads' calls.

    A pass of the loop that throws is caught and logged by the code and the thread
    starts over; the theorems say that no pass throws. *)
From S2P Require Import Prelude Endian Key Iterators Block BlockCache Double Bloom Table Sizes TableIterator Wal MemTable State Layers SimpleLeveled Tiered Leveled Compact Manifest LsmStorage LsmSpec LsmRead LsmWrite LsmGen LsmCompact LsmInstall LsmStrategies LsmLeveled LsmJournal LsmTrace.

(** ** The merged iterators

    The three types that [compact] instantiates
    [compact_generate_sst_from_iter] with. *)
Inductive source :=
| L0Source (it : TwoMergeIterator.t (MergeIterator.t SsTableIterator.t) SstConcatIterator.t)
| LevelSource (it : TwoMergeIterator.t SstConcatIterator.t SstConcatIterator.t)
| TierSource (it : MergeIterator.t SstConcatIterator.t).

Section source.
Context `{!Zlib} `{!Snappy}.

#[global] Instance source_storage : StorageIterator BlockCache.t source := {
  key src := match src with
             | L0Source it => Iterators.key (W:=BlockCache.t) it
             | LevelSource it => Iterators.key (W:=BlockCache.t) it
             | TierSource it => Iterators.key (W:=BlockCache.t) it
             end;
  value src := match src with
               | L0Source it => value (W:=BlockCache.t) it
               | LevelSource it => value (W:=BlockCache.t) it
               | TierSource it => value (W:=BlockCache.t) it
               end;
  is_valid src := match src with
                  | L0Source it => is_valid (W:=BlockCache.t) it
                  | LevelSource it => is_valid (W:=BlockCache.t) it
                  | TierSource it => is_valid (W:=BlockCache.t) it
                  end;
  next src := match src with
              | L0Source it => it ← next it; mret (L0Source it)
              | LevelSource it => it ← next it; mret (LevelSource it)
              | TierSource it => it ← next it; mret (TierSource it)
              end }.
End source.

(** ** Definitions *)
Module Threads.
Import LsmStorageInner.

(** Where the compaction thread stands in its pass. *)
Inductive compactor :=
| Idle
| Chosen (task : CompactionTask.t)
| Merging (task : CompactionTask.t) (v : gen source)
| Built (task : CompactionTask.t) (sstables : list SsTable.t).

Section code.
Context `{!Zlib} `{!Snappy} `{!Farmhash} `{!Libm} `{!Json} `{!LoopFuel}.

(** The iterators of [compact], over its snapshot. *)
Definition l0_source (snapshot : LsmStorageState.t) (upper lower : list nat) : eff World source :=
  l0_iters ← on_cache (seek_all_first (open_tables snapshot upper));
  merge_upper ← on_cache (MergeIterator.create l0_iters);
  concat_lower ← on_cache (SstConcatIterator.create_and_seek_to_first (open_tables snapshot lower));
  two_merge ← on_cache (TwoMergeIterator.create merge_upper concat_lower);
  mret (L0Source two_merge).

Definition level_source (snapshot : LsmStorageState.t) (upper_level : option nat) (upper lower : list nat) : eff World source :=
  concat_lower ← on_cache (SstConcatIterator.create_and_seek_to_first (open_tables snapshot lower));
  match upper_level with
  | Some _ =>
      concat_upper ← on_cache (SstConcatIterator.create_and_seek_to_first (open_tables snapshot upper));
      two_merge ← on_cache (TwoMergeIterator.create concat_upper concat_lower);
      mret (LevelSource two_merge)
  | None =>
      l0_iters ← on_cache (seek_all_first (open_tables snapshot upper));
      merge_upper ← on_cache (MergeIterator.create l0_iters);
      two_merge ← on_cache (TwoMergeIterator.create merge_upper concat_lower);
      mret (L0Source two_merge)
  end.

Definition compact_source (snapshot : LsmStorageState.t) (task : CompactionTask.t) : eff World source :=
  match task with
  | CompactionTask.ForceFull t =>
      l0_source snapshot (ForceFullCompactionTask.l0_sstables t) (ForceFullCompactionTask.l1_sstables t)
  | CompactionTask.Simple t =>
      level_source snapshot (SimpleLeveledCompactionTask.upper_level t) (SimpleLeveledCompactionTask.upper_level_sst_ids t)
        (SimpleLeveledCompactionTask.lower_level_sst_ids t)
  | CompactionTask.Leveled t =>
      level_source snapshot (LeveledCompactionTask.upper_level t) (LeveledCompactionTask.upper_level_sst_ids t)
        (LeveledCompactionTask.lower_level_sst_ids t)
  | CompactionTask.Tiered t =>
      tier_iters ← on_cache (seek_all_tiers snapshot (TieredCompactionTask.tiers t));
      merge_iter ← on_cache (MergeIterator.create tier_iters);
      mret (TierSource merge_iter)
  end.

(** The counter is shared: it is read when an id is taken. *)
Definition with_counter {I} (n : nat) (v : gen I) : gen I := Gen n (g_builder v) (g_new_sst v) (g_iter v).

(** One step of the thread. *)
Definition compactor_step (s : t) (c : compactor) : eff World (t * compactor) :=
  match c with
  | Idle =>
      task_opt ← lift (CompactionController.generate_compaction_task (compaction_controller s) (state s));
      mret (s, match task_opt with Some task => Chosen task | None => Idle end)
  | Chosen task =>
      iter ← compact_source (state s) task;
      mret (s, Merging task (Gen (next_sst_id s) None [] iter))
  | Merging task v =>
      r ← gen_step s (CompactionTask.compact_to_bottom_level task) (with_counter (next_sst_id s) v);
      match r with
      | inl v => mret (set_next_sst_id s (g_next_sst_id v), Merging task v)
      | inr v => v ← gen_finish s v; mret (set_next_sst_id s (g_next_sst_id v), Built task (g_new_sst v))
      end
  | Built task sstables => s ← install_compaction s task sstables; mret (s, Idle)
  end.

(** The engine with its compaction thread, and what can happen next: a call by
    the client or the flush thread, or a step of the compaction thread. *)
Record config := Config { engine : t; thread : compactor }.

Inductive event :=
| Call (op : Op.t)
| Compaction.

Definition perform (c : config) (e : event) : eff World (config * list Op.answer) :=
  match e with
  | Call op => '(s, a) ← Op.run (engine c) op; mret (Config s (thread c), [a])
  | Compaction => '(s, k) ← compactor_step (engine c) (thread c); mret (Config s k, [])
  end.

Fixpoint perform_all (c : config) (es : list event) : eff World (config * list Op.answer) :=
  match es with
  | [] => mret (c, [])
  | e :: es => '(c, a) ← perform c e; '(c, rest) ← perform_all c es; mret (c, a ++ rest)
  end.

(** The calls of a schedule. *)
Fixpoint calls (es : list event) : list Op.t :=
  match es with [] => [] | Call op :: es => op :: calls es | Compaction :: es => calls es end.

(** Compactions are the thread's; without a strategy there is no thread, and a
    full compaction is a call of [Op]. *)
Definition admissible (c : CompactionController.t) (e : event) : Prop :=
  match e with Call op => Op.admissible c op ∧ plain_call op | Compaction => True end.
End code.
End Threads.

(** ** The thread on its own

    Without interference the steps of a pass are [trigger_compaction]. *)
Section alone.
Context `{!Zlib} `{!Snappy} `{!Farmhash} `{!Libm} `{!Json} `{!LoopFuel}.
Import LsmStorageInner Threads.
Implicit Types (s : LsmStorageInner.t) (w : World).

(** Wrapping the iterator, and tables made earlier, change nothing. *)
Section wrap.
Context {I J : Type} `{!StorageIterator BlockCache.t I} `{!StorageIterator BlockCache.t J} (wrap : I → J) (pre : list SsTable.t).
Context (Hvalid : ∀ it, is_valid (wrap it) = is_valid it) (Hkey : ∀ it, Iterators.key (wrap it) = Iterators.key it)
  (Hvalue : ∀ it, value (wrap it) = value it) (Hnext : ∀ it (c : BlockCache.t), next (wrap it) c = (it ← next it; mret (wrap it)) c).

Definition wrapped (v : gen I) : gen J := Gen (g_next_sst_id v) (g_builder v) (pre ++ g_new_sst v) (wrap (g_iter v)).

Lemma gen_build_wrapped s v b w w' v' : gen_build s v b w = Ok (w', v') → gen_build s (wrapped v) b w = Ok (w', wrapped v').
Proof.
  unfold gen_build. intros (w1 & sst & E & [= <- <-])%eff_bind_Ok. cbv zeta. rewrite (eff_bind_run _ _ _ _ _ E).
  unfold wrapped. cbn [g_new_sst g_next_sst_id g_builder g_iter]. by rewrite (assoc_L (++)).
Qed.

Lemma gen_step_wrapped s bottom v w w' r : gen_step s bottom v w = Ok (w', r) →
  gen_step s bottom (wrapped v) w = Ok (w', match r with inl v' => inl (wrapped v') | inr v' => inr (wrapped v') end).
Proof.
  unfold gen_step. cbn [g_iter wrapped]. rewrite Hvalid. destruct (is_valid (g_iter v)); [|by intros [= <- <-]].
  cbv zeta. cbn [g_builder wrapped]. rewrite Hvalue, Hkey. intros (w1 & v0 & E1 & E)%eff_bind_Ok.
  rewrite (eff_bind_run _ _ _ _ _ E1). apply eff_bind_Ok in E as (w2 & b & E2 & E). rewrite (eff_bind_run _ _ _ _ _ E2).
  apply eff_bind_Ok in E as (w3 & it & E3 & E).
  rewrite (eff_bind_run _ _ _ w3 (wrap it)); cycle 1.
  { unfold on_cache in E3 |- *. destruct (next (g_iter v) (cache w2)) as [[c a]|] eqn:En; [|done]. injection E3 as <- <-.
    by rewrite Hnext, (eff_bind_run _ _ _ _ _ En). }
  destruct (negb _ && _); [|by injection E as <- <-].
  apply eff_bind_Ok in E as (w4 & v' & E4 & [= <- <-]).
  apply gen_build_wrapped in E4. by rewrite (eff_bind_run _ _ _ _ _ E4).
Qed.

Lemma gen_finish_wrapped s v w w' v' : gen_finish s v w = Ok (w', v') → gen_finish s (wrapped v) w = Ok (w', wrapped v').
Proof.
  unfold gen_finish. cbn [g_builder wrapped]. destruct (g_builder v) as [b|]; [|by intros [= <- <-]].
  destruct (negb _); [apply gen_build_wrapped|by intros [= <- <-]].
Qed.

End wrap.

(** One step takes at most one id. *)
Lemma gen_build_ids {I} s (v : gen I) b w w' v' : gen_build s v b w = Ok (w', v') → g_next_sst_id v' = S (g_next_sst_id v).
Proof. unfold gen_build. by intros (w1 & sst & _ & [= _ <-])%eff_bind_Ok. Qed.

Lemma gen_step_ids {I} `{!StorageIterator BlockCache.t I} s bottom (v : gen I) w w' r : gen_step s bottom v w = Ok (w', r) →
  match r with inl v' => g_next_sst_id v' ≤ S (g_next_sst_id v) | inr v' => v' = v end.
Proof.
  unfold gen_step. destruct (is_valid (g_iter v)); [|by intros [= _ <-]]. cbv zeta.
  intros (w1 & v0 & _ & (w2 & b & _ & (w3 & it & _ & E)%eff_bind_Ok)%eff_bind_Ok)%eff_bind_Ok.
  destruct (negb _ && _); [|injection E as _ <-; simpl; lia].
  apply eff_bind_Ok in E as (w4 & v' & E4 & [= _ <-]). apply gen_build_ids in E4. simpl in E4. lia.
Qed.

Lemma gen_finish_ids {I} s (v : gen I) w w' v' : gen_finish s v w = Ok (w', v') → g_next_sst_id v' ≤ S (g_next_sst_id v).
Proof.
  unfold gen_finish. destruct (g_builder v) as [b|]; [|intros [= _ <-]; lia].
  destruct (negb _); [intros E%gen_build_ids; lia|intros [= _ <-]; lia].
Qed.

(** A [source] that wraps an iterator. *)
Section steps.
Context {I : Type} `{!StorageIterator BlockCache.t I} (wrap : I → source).
Context (Hvalid : ∀ it, is_valid (wrap it) = is_valid it) (Hkey : ∀ it, Iterators.key (wrap it) = Iterators.key it)
  (Hvalue : ∀ it, value (wrap it) = value it) (Hnext : ∀ it (c : BlockCache.t), next (wrap it) c = (it ← next it; mret (wrap it)) c).
#[local] Abbreviation wrapped := (wrapped wrap []).

(** The loop and what follows it, one step at a time. *)
Lemma gen_loop_steps s task n v w w' v' : loop n (gen_step s (CompactionTask.compact_to_bottom_level task)) v w = Ok (w', v') →
  ∀ w'' v'', gen_finish s v' w' = Ok (w'', v'') →
  ∃ k, perform_all (Config (set_next_sst_id s (g_next_sst_id v)) (Merging task (wrapped v))) (repeat Compaction k) w =
    Ok (w'', (Config (set_next_sst_id s (g_next_sst_id v'')) (Built task (g_new_sst v'')), [])).
Proof.
  intros Hloop w'' v'' Hfin. revert v w Hloop; induction n as [|n IH]; intros v w Hloop; [done|]. cbn [loop] in Hloop.
  apply eff_bind_Ok in Hloop as (w1 & r & Hstep & Hloop). pose proof (gen_step_wrapped wrap [] Hvalid Hkey Hvalue Hnext _ _ _ _ _ _ Hstep) as Hw.
  assert (gen_step (set_next_sst_id s (g_next_sst_id v)) (CompactionTask.compact_to_bottom_level task)
    (with_counter (next_sst_id (set_next_sst_id s (g_next_sst_id v))) (wrapped v)) w = Ok (w1, match r with inl v' => inl (wrapped v') | inr v' => inr (wrapped v') end)) as Hw' by exact Hw.
  destruct r as [v1|v1].
  - destruct (IH v1 w1 Hloop) as (k & Hk). exists (S k). cbn [repeat perform_all].
    assert (compactor_step (set_next_sst_id s (g_next_sst_id v)) (Merging task (wrapped v)) w =
      Ok (w1, (set_next_sst_id s (g_next_sst_id v1), Merging task (wrapped v1)))) as Hc.
    { unfold compactor_step. by rewrite (eff_bind_run _ _ _ _ _ Hw'). }
    unfold perform. cbn [engine thread]. rewrite (eff_bind_run _ _ _ w1 (Config (set_next_sst_id s (g_next_sst_id v1)) (Merging task (wrapped v1)), [])).
    + by rewrite (eff_bind_run _ _ _ _ _ Hk).
    + by rewrite (eff_bind_run _ _ _ _ _ Hc).
  - injection Hloop as -> ->. exists 1. cbn [repeat perform_all].
    assert (compactor_step (set_next_sst_id s (g_next_sst_id v)) (Merging task (wrapped v)) w =
      Ok (w'', (set_next_sst_id s (g_next_sst_id v''), Built task (g_new_sst v'')))) as Hc.
    { unfold compactor_step. rewrite (eff_bind_run _ _ _ _ _ Hw').
      rewrite (eff_bind_run _ _ _ w'' (wrapped v'')); [done|]. by apply (gen_finish_wrapped wrap []) in Hfin. }
    unfold perform. cbn [engine thread]. rewrite (eff_bind_run _ _ _ w'' (Config (set_next_sst_id s (g_next_sst_id v'')) (Built task (g_new_sst v'')), [])).
    + done.
    + by rewrite (eff_bind_run _ _ _ _ _ Hc).
Qed.

Lemma generate_steps s task it w w' s' ssts :
  compact_generate_sst_from_iter s it (CompactionTask.compact_to_bottom_level task) w = Ok (w', (s', ssts)) →
  ∃ k, perform_all (Config s (Merging task (Gen (next_sst_id s) None [] (wrap it)))) (repeat Compaction k) w =
    Ok (w', (Config s' (Built task ssts), [])).
Proof.
  unfold compact_generate_sst_from_iter. intros (w1 & v1 & Hloop & (w2 & v2 & Hfin & [= <- <- <-])%eff_bind_Ok)%eff_bind_Ok.
  destruct (gen_loop_steps _ _ _ _ _ _ _ Hloop _ _ Hfin) as (k & Hk). exists k. rewrite <-Hk. f_equal. by destruct s.
Qed.
End steps.

Lemma perform_all_app c es1 es2 w : perform_all c (es1 ++ es2) w =
  ('(c, a) ← perform_all c es1; '(c, b) ← perform_all c es2; mret (c, a ++ b)) w.
Proof.
  revert c w; induction es1 as [|e es1 IH]; intros c w; cbn [app perform_all].
  - unfold mbind, eff_bind, mret, eff_ret. by destruct (perform_all c es2 w) as [[? [? ?]]|].
  - unfold mbind, eff_bind in *. destruct (perform c e w) as [[w1 [c1 a]]|]; [|done]. rewrite IH.
    destruct (perform_all c1 es1 w1) as [[w2 [c2 b]]|]; [|done]. unfold mret, eff_ret.
    destruct (perform_all c2 es2 w2) as [[w3 [c3 d]]|]; [|done]. by rewrite (assoc_L (++)).
Qed.

(** The steps after the first one. *)
Lemma compaction_steps s k w w1 s1 c1 w' c : compactor_step s k w = Ok (w1, (s1, c1)) →
  (∃ n, perform_all (Config s1 c1) (repeat Compaction n) w1 = Ok (w', (c, []))) →
  ∃ n, perform_all (Config s k) (repeat Compaction n) w = Ok (w', (c, [])).
Proof.
  intros Hstep (n & Hn). exists (S n). cbn [repeat perform_all]. unfold perform. cbn [engine thread].
  unfold mbind, eff_bind. rewrite Hstep. cbn. by rewrite Hn.
Qed.

Lemma merge_steps s task src w w1 w' s' ssts c : compact_source (state s) task w = Ok (w1, src) →
  (∃ k, perform_all (Config s (Merging task (Gen (next_sst_id s) None [] src))) (repeat Compaction k) w1 =
    Ok (w', (Config s' (Built task ssts), []))) → c = Config s' (Built task ssts) →
  ∃ k, perform_all (Config s (Chosen task)) (repeat Compaction k) w = Ok (w', (c, [])).
Proof.
  intros Hsrc Hk ->. eapply compaction_steps; [|exact Hk]. unfold compactor_step. by rewrite (eff_bind_run _ _ _ _ _ Hsrc).
Qed.

Lemma l0_steps s task upper lower w w' s' ssts :
  compact_l0 s upper lower (CompactionTask.compact_to_bottom_level task) w = Ok (w', (s', ssts)) →
  compact_source (state s) task = l0_source (state s) upper lower →
  ∃ k, perform_all (Config s (Chosen task)) (repeat Compaction k) w = Ok (w', (Config s' (Built task ssts), [])).
Proof.
  unfold compact_l0. cbv zeta. intros E Esrc.
  apply eff_bind_Ok in E as (w1 & a1 & E1 & E). apply eff_bind_Ok in E as (w2 & a2 & E2 & E).
  apply eff_bind_Ok in E as (w3 & a3 & E3 & E). apply eff_bind_Ok in E as (w4 & a4 & E4 & E).
  eapply (merge_steps s task (L0Source a4)); [|by apply (generate_steps L0Source)|done].
  rewrite Esrc. unfold l0_source. rewrite (eff_bind_run _ _ _ _ _ E1), (eff_bind_run _ _ _ _ _ E2), (eff_bind_run _ _ _ _ _ E3).
  by rewrite (eff_bind_run _ _ _ _ _ E4).
Qed.

Lemma levels_steps s task upper_level upper lower w w' s' ssts :
  compact_levels s upper_level upper lower (CompactionTask.compact_to_bottom_level task) w = Ok (w', (s', ssts)) →
  compact_source (state s) task = level_source (state s) upper_level upper lower →
  ∃ k, perform_all (Config s (Chosen task)) (repeat Compaction k) w = Ok (w', (Config s' (Built task ssts), [])).
Proof.
  unfold compact_levels. cbv zeta. intros E Esrc. apply eff_bind_Ok in E as (w1 & a1 & E1 & E). destruct upper_level as [x|].
  - apply eff_bind_Ok in E as (w2 & a2 & E2 & E). apply eff_bind_Ok in E as (w3 & a3 & E3 & E).
    eapply (merge_steps s task (LevelSource a3)); [|by apply (generate_steps LevelSource)|done].
    rewrite Esrc. unfold level_source. rewrite (eff_bind_run _ _ _ _ _ E1), (eff_bind_run _ _ _ _ _ E2).
    by rewrite (eff_bind_run _ _ _ _ _ E3).
  - apply eff_bind_Ok in E as (w2 & a2 & E2 & E). apply eff_bind_Ok in E as (w3 & a3 & E3 & E). apply eff_bind_Ok in E as (w4 & a4 & E4 & E).
    eapply (merge_steps s task (L0Source a4)); [|by apply (generate_steps L0Source)|done].
    rewrite Esrc. unfold level_source. rewrite (eff_bind_run _ _ _ _ _ E1), (eff_bind_run _ _ _ _ _ E2), (eff_bind_run _ _ _ _ _ E3).
    by rewrite (eff_bind_run _ _ _ _ _ E4).
Qed.

Lemma compact_steps s task w w' s' ssts : compact s task w = Ok (w', (s', ssts)) →
  ∃ k, perform_all (Config s (Chosen task)) (repeat Compaction k) w = Ok (w', (Config s' (Built task ssts), [])).
Proof.
  unfold compact. cbv zeta. destruct task as [t|t|t|t]; intros E.
  - by eapply (levels_steps s (CompactionTask.Leveled t)).
  - apply eff_bind_Ok in E as (w1 & a1 & E1 & E). apply eff_bind_Ok in E as (w2 & a2 & E2 & E).
    eapply (merge_steps s (CompactionTask.Tiered t) (TierSource a2)); [|by apply (generate_steps TierSource)|done].
    unfold compact_source. rewrite (eff_bind_run _ _ _ _ _ E1). by rewrite (eff_bind_run _ _ _ _ _ E2).
  - by eapply (levels_steps s (CompactionTask.Simple t)).
  - by eapply (l0_steps s (CompactionTask.ForceFull t)).
Qed.

(** The steps of the compaction thread are [trigger_compaction].  If the
    operation, run as a whole, succeeds, then a thread that nothing interferes
    with reaches the same files, cache and engine after finitely many steps, and
    stands at the start of its loop again.  So the interleavings below split
    exactly the operation of the code, at its accesses to shared state. *)
Lemma thread_alone_is_trigger_compaction s w w' s' b : trigger_compaction s w = Ok (w', (s', b)) →
  ∃ n, perform_all (Config s Idle) (repeat Compaction n) w = Ok (w', (Config s' Idle, [])).
Proof.
  unfold trigger_compaction. intros (w1 & task_opt & Htask & E)%eff_bind_Ok.
  destruct task_opt as [task|]; cycle 1.
  { injection E as <- <- <-. eapply compaction_steps; [|by exists 0]. unfold compactor_step. by rewrite (eff_bind_run _ _ _ _ _ Htask). }
  apply eff_bind_Ok in E as (w2 & [s2 ssts] & Hcompact & E). apply eff_bind_Ok in E as (w3 & s3 & Hinstall & [= <- <- <-]).
  apply compact_steps in Hcompact as (k & Hk).
  eapply compaction_steps; [unfold compactor_step; by rewrite (eff_bind_run _ _ _ _ _ Htask)|].
  exists (k + 1). rewrite repeat_app, perform_all_app, (eff_bind_run _ _ _ _ _ Hk).
  change (repeat Compaction 1) with [Compaction]. cbn [perform_all].
  unfold mbind, eff_bind, perform. cbn [engine thread]. unfold compactor_step, mbind, eff_bind. by rewrite Hinstall.
Qed.
End alone.
