(* ===== verification/LsmConcurrent.v ===== *)
(** * Interleavings

    A compaction in progress is not disturbed by calls of the client and of the
    flush thread, and does not disturb them: its inputs stay where they are, its
    output has ids and files of its own, and what the strategy does with the
    result is right also for a state that has gained tables since the task was
    chosen.  The invariant of the whole says this of every point where the thread
    can stand, and every step keeps it. *)
From S2P Require Import Prelude Endian Key Iterators Block BlockCache Double Bloom Table Sizes TableIterator Wal MemTable State Layers SimpleLeveled Tiered Leveled Compact Manifest LsmStorage LsmSpec LsmRead LsmWrite LsmGen LsmCompact LsmInstall LsmStrategies LsmLeveled LsmJournal LsmTrace LsmThreads LsmOpen.

(** ** Iterators and a growing record of blocks *)
Section mono.
Context `{!Zlib} `{!Snappy} `{!Farmhash} (c c' : gmap (nat * nat) Block.t) (Hc : c ⊆ c').
#[local] Abbreviation Inv := (BlockCacheSpec.cache_ok c).
#[local] Abbreviation Inv' := (BlockCacheSpec.cache_ok c').

Lemma cached_mono t kvss : cached c t kvss → cached c' t kvss.
Proof. intros Ht Hb i kvs Hi. eapply lookup_weaken; [by apply Ht|done]. Qed.

Lemma table_denotes_mono (it : SsTableIterator.t) l : denotes (Inv:=Inv) it l → denotes (Inv:=Inv') it l.
Proof.
  intros [Hs [(tb & kvss & li & Ht & Hh & Hch & Hb)|Hn]]; (split; [done|]); [left|by right].
  exists tb, kvss, li. split_and!; [done|done|by apply cached_mono|apply Hb..].
Qed.

Lemma concat_denotes_mono (it : SstConcatIterator.t) l : denotes (Inv:=Inv) it l → denotes (Inv:=Inv') it l.
Proof.
  intros [Hs (ls & [Hrun Hsort] & Hcur)]. split; [done|]. exists ls. split.
  - split; [|done]. eapply Forall2_impl; [exact Hrun|]. intros sst l' (kvss & ? & ? & ?). exists kvss.
    split_and!; [done|by apply cached_mono|done].
  - destruct (SstConcatIterator.current_ it) as [cur|]; [|done]. destruct Hcur as (lc & Hr & ?). exists lc.
    split; [by apply (table_denotes_mono cur lc)|done].
Qed.

Section combined.
Context {A B : Type} `{!StorageIterator BlockCache.t A} `{!IteratorSpec BlockCache.t A Inv} `{HA : !IteratorSpec BlockCache.t A Inv'}.
Context `{!StorageIterator BlockCache.t B} `{!IteratorSpec BlockCache.t B Inv} `{HB : !IteratorSpec BlockCache.t B Inv'}.
Context (HmA : ∀ (it : A) l, denotes (Inv:=Inv) it l → denotes (Inv:=Inv') it l).
Context (HmB : ∀ (it : B) l, denotes (Inv:=Inv) it l → denotes (Inv:=Inv') it l).

Lemma two_merge_denotes_mono (it : TwoMergeIterator.t A B) l : denotes (Inv:=Inv) it l → denotes (Inv:=Inv') it l.
Proof. intros (la & lb & Ha & Hb & ?). exists la, lb. split; [by apply HmA|split; [by apply HmB|done]]. Qed.

Lemma merge_denotes_mono (it : MergeIterator.t A) l : denotes (Inv:=Inv) it l → denotes (Inv:=Inv') it l.
Proof.
  intros Hr. change (MergeIterator.repr (Inv:=Inv') it l). change (MergeIterator.repr (Inv:=Inv) it l) in Hr.
  unfold MergeIterator.repr in *. destruct (MergeIterator.current_ it) as [x|]; [|done].
  destruct Hr as (ls & [Hnd Hel Hix] & ?). exists ls. split; [|done]. split; [done| |done].
  intros y Hy. destruct (Hel y Hy) as (e & l' & ? & Hd). exists e, l'. split; [done|by apply HmA].
Qed.
End combined.
End mono.

Section source.
Context `{!Zlib} `{!Snappy} `{!Farmhash} (c : gmap (nat * nat) Block.t).
#[local] Abbreviation Inv := (BlockCacheSpec.cache_ok c).

Definition source_repr (src : source) (l : list kv) : Prop :=
  match src with
  | L0Source it => denotes (Inv:=Inv) it l
  | LevelSource it => denotes (Inv:=Inv) it l
  | TierSource it => denotes (Inv:=Inv) it l
  end.

#[global] Instance source_spec : IteratorSpec BlockCache.t source Inv.
Proof.
  exists source_repr.
  - intros [it|it|it] l; apply denotes_sorted.
  - intros [it|it|it] Hd; exact (denotes_valid_nil (Inv:=Inv) it Hd).
  - intros [it|it|it] e l Hd; exact (denotes_valid_cons (Inv:=Inv) it e l Hd).
  - intros [it|it|it] k v l Hd; exact (denotes_key (Inv:=Inv) it k v l Hd).
  - intros [it|it|it] k v l Hd; exact (denotes_value (Inv:=Inv) it k v l Hd).
  - intros [it|it|it] e l Hd; cbn [source_repr] in Hd; (eapply wp_bind; [by eapply denotes_next|]); intros it' Hd'; by apply wp_ret.
Defined.
End source.

Lemma source_mono `{!Zlib} `{!Snappy} `{!Farmhash} c c' (src : source) l : c ⊆ c' →
  denotes (Inv:=BlockCacheSpec.cache_ok c) src l → denotes (Inv:=BlockCacheSpec.cache_ok c') src l.
Proof.
  intros Hc. destruct src as [it|it|it].
  - apply two_merge_denotes_mono; [apply merge_denotes_mono, table_denotes_mono, Hc|apply concat_denotes_mono, Hc].
  - apply two_merge_denotes_mono; apply concat_denotes_mono, Hc.
  - apply merge_denotes_mono, concat_denotes_mono, Hc.
Qed.

(** ** The inputs of a task *)
Section concurrent.
Context `{!Zlib} `{!Snappy} `{!SnappyLaws} `{!SnappyBound} `{!Farmhash} `{!Libm} `{!Json} `{!JsonLaws} `{!LoopFuel}.
Import LsmStorageInner Threads.
Implicit Types (g G : ghost) (w : World) (s : LsmStorageInner.t) (h : list kv) (outs : list (SsTable.t * list (list kv))).

(** [src] yields what the tables [inputs] store. *)
Definition sourced g (src : source) (inputs : list nat) : Prop :=
  denotes (Inv:=BlockCacheSpec.cache_ok (blocks g)) src (entries (stored (content g) inputs)).

Lemma sourced_bind {A} g w (m : eff BlockCache.t A) (f : A → eff World source) inputs (P : A → Prop) :
  BlockCacheSpec.cache_ok (blocks g) (cache w) → wp (BlockCacheSpec.cache_ok (blocks g)) m P →
  (∀ w1 a, BlockCacheSpec.cache_ok (blocks g) (cache w1) → P a →
    runs (f a) w1 (λ w' src, same_files (blocks g) w1 w' ∧ sourced g src inputs)) →
  runs (on_cache m ≫= f) w (λ w' src, same_files (blocks g) w w' ∧ sourced g src inputs).
Proof.
  intros Hc Hm Hf. eapply runs_bind; [by eapply runs_on_cache|]. intros w1 a [[Hw1 Hc1] Ha].
  eapply runs_mono; [by apply Hf|]. intros w' src [[Hw' Hc'] Hs]. split; [|done]. split; [congruence|done].
Qed.

Section sources.
Context g (st : LsmStorageState.t).
#[local] Abbreviation Inv := (BlockCacheSpec.cache_ok (blocks g)).
#[local] Abbreviation open ids := (∀ id, id ∈ ids → ∃ t, readable g st id t).

Lemma two_sourced {A B} `{!StorageIterator BlockCache.t A} `{!IteratorSpec BlockCache.t A Inv}
    `{!StorageIterator BlockCache.t B} `{!IteratorSpec BlockCache.t B Inv} w (a : A) (b : B) la lb upper lower (wrap : TwoMergeIterator.t A B → source) :
  (∀ it l, denotes (Inv:=Inv) it l → denotes (Inv:=Inv) (wrap it) l) → Inv (cache w) →
  denotes (Inv:=Inv) a la → denotes (Inv:=Inv) b lb → kv_map la = stored (content g) upper → kv_map lb = stored (content g) lower →
  runs (it ← on_cache (TwoMergeIterator.create a b); mret (wrap it)) w
    (λ w' src, same_files (blocks g) w w' ∧ sourced g src (upper ++ lower)).
Proof.
  intros Hw Hc Ha Hb Ela Elb. eapply sourced_bind; [done|by apply TwoMergeIterator.two_merge_create_repr|].
  intros w1 it Hc1 Hit. apply runs_ret. split; [done|]. apply Hw. rewrite stored_app, <-Ela, <-Elb. exact Hit.
Qed.

Lemma l0_source_spec w upper lower : open (upper ++ lower) → Inv (cache w) → ksorted (level_entries g lower) →
  runs (l0_source st upper lower) w (λ w' src, same_files (blocks g) w w' ∧ sourced g src (upper ++ lower)).
Proof.
  intros Ho Hc Hs. unfold l0_source.
  eapply sourced_bind; [done|apply (seek_all_first_spec g); intros; apply Ho; set_solver|]. intros w1 its Hc1 Hits.
  eapply sourced_bind; [done|by apply (merge_first_spec g upper)|]. intros w2 it Hc2 Hit.
  eapply sourced_bind; [done|apply (concat_first_spec g); [intros; apply Ho; set_solver|done]|]. intros w3 it' Hc3 Hit'.
  eapply (two_sourced _ it it' _ _ upper lower L0Source); [done|done|exact Hit|exact Hit'|by rewrite kv_map_entries|by rewrite stored_level].
Qed.

Lemma level_source_spec w upper_level upper lower : open (upper ++ lower) → Inv (cache w) →
  ksorted (level_entries g lower) → (upper_level ≠ None → ksorted (level_entries g upper)) →
  runs (level_source st upper_level upper lower) w (λ w' src, same_files (blocks g) w w' ∧ sourced g src (upper ++ lower)).
Proof.
  intros Ho Hc Hs Hu. unfold level_source.
  eapply sourced_bind; [done|apply (concat_first_spec g); [intros; apply Ho; set_solver|done]|]. intros w1 it' Hc1 Hit'.
  destruct upper_level as [x|].
  - eapply sourced_bind; [done|apply (concat_first_spec g); [intros; apply Ho; set_solver|by apply Hu]|]. intros w2 it Hc2 Hit.
    eapply (two_sourced _ it it' _ _ upper lower LevelSource); [done|done|exact Hit|exact Hit'|by rewrite stored_level..].
  - eapply sourced_bind; [done|apply (seek_all_first_spec g); intros; apply Ho; set_solver|]. intros w2 its Hc2 Hits.
    eapply sourced_bind; [done|by apply (merge_first_spec g upper)|]. intros w3 it Hc3 Hit.
    eapply (two_sourced _ it it' _ _ upper lower L0Source); [done|done|exact Hit|exact Hit'|by rewrite kv_map_entries|by rewrite stored_level].
Qed.

Lemma compact_source_spec w task : open (task_inputs task) → Inv (cache w) → task_runs g task →
  runs (compact_source st task) w (λ w' src, same_files (blocks g) w w' ∧ sourced g src (task_inputs task)).
Proof.
  intros Ho Hc Hr. destruct task as [t|t|t|t]; cbn [compact_source task_inputs task_runs] in *.
  - destruct Hr. by apply level_source_spec.
  - eapply sourced_bind; [done|by apply (seek_all_tiers_spec g)|]. intros w1 its Hc1 Hits.
    eapply sourced_bind; [done|exact (MergeIterator.merge_create_repr _ _ Hits)|]. intros w2 it Hc2 Hit.
    apply runs_ret. split; [done|]. unfold sourced. rewrite <-merged_tiers. exact Hit.
  - destruct Hr. by apply level_source_spec.
  - by apply l0_source_spec.
Qed.
End sources.

(** ** The output so far *)

(** Finished tables outside of the tree. *)
Record owned g w s outs : Prop := {
  ow_ghost x : x ∈ outs → g !! SsTable.id x.1 = Some x.2;
  ow_built : Forall (built w s) outs;
  ow_nodup : NoDup (mem_ids (state s) ++ ids_of (state s) ++ out_ids outs);
  ow_pos : 0 ∉ out_ids outs }.

Lemma out_ids_app outs1 outs2 : out_ids (outs1 ++ outs2) = out_ids outs1 ++ out_ids outs2.
Proof. unfold out_ids. by rewrite !fmap_app. Qed.
Lemma out_entries_app outs1 outs2 : out_entries (outs1 ++ outs2) = out_entries outs1 ++ out_entries outs2.
Proof. unfold out_entries. by rewrite fmap_app, join_app. Qed.

Lemma out_id_elem outs id : id ∈ out_ids outs → ∃ x, x ∈ outs ∧ SsTable.id x.1 = id.
Proof. intros (t & -> & (x & -> & Hx)%list_elem_of_fmap_1)%list_elem_of_fmap_1. by exists x. Qed.

Lemma owned_nil g w s : engine_ok g w s → owned g w s [].
Proof. intros Hok. split; [by intros ? ?%not_elem_of_nil|done|rewrite app_nil_r; apply Hok|by apply not_elem_of_nil]. Qed.

Lemma owned_known g w s outs id : engine_ok g w s → owned g w s outs → id ∈ out_ids outs → id < next_sst_id s.
Proof. intros Hok How (x & Hx & <-)%out_id_elem. apply (eo_fresh _ _ _ Hok). right. eexists. by apply How. Qed.

Lemma owned_disjoint g w s outs id : owned g w s outs → id ∈ out_ids outs → (id ∉ mem_ids (state s)) ∧ (id ∉ ids_of (state s)).
Proof.
  intros How Hid. pose proof (ow_nodup _ _ _ _ How) as Hnd. rewrite (assoc_L (++)) in Hnd.
  apply NoDup_app in Hnd as (_ & Hd & _). split; intros Hin; apply (Hd id); set_solver.
Qed.

Lemma engine_next g w s : engine_ok g w s → 0 < next_sst_id s.
Proof.
  intros Hok. assert (MemTable.id_ (LsmStorageState.memtable (state s)) < next_sst_id s); [|lia].
  apply (eo_fresh _ _ _ Hok). left. unfold mem_ids, memtables. set_solver.
Qed.

Lemma since_sub b new (st st' : LsmStorageState.t) : since b new st st' → ids_of st' ⊆ new ++ ids_of st.
Proof.
  assert (level_ids (singles new) = new) as E.
  { induction new as [|id new IH]; [done|]. change (level_ids (singles (id :: new))) with (id :: level_ids (singles new)). by rewrite IH. }
  unfold ids_of. destruct b; intros [-> ->]; rewrite ?level_ids_app, ?E; set_solver.
Qed.

(** A call of another thread in between. *)
Lemma owned_kept g w s g' w' s' outs : engine_ok g w s → engine_ok g' w' s' → g ⊆ g' → path s' = path s → beside w s w' s' →
  owned g w s outs → owned g' w' s' outs.
Proof.
  intros Hok Hok' Hg Hp [Hfiles Hmems (new & Hnew & Hsince)] How. pose proof How as [HG Hb Hnd Hpos]. split.
  - intros x Hx. eapply lookup_weaken; [by apply HG|done].
  - apply Forall_forall. intros x Hx. destruct (proj1 (Forall_forall _ _) Hb x Hx) as (data & ? & ? & Hf & ? & ?).
    assert (SsTable.id x.1 ∈ out_ids outs) as Hid by (unfold out_ids; by do 2 apply list_elem_of_fmap_2).
    exists data. split_and!; [done..| |done|done].
    assert (path_of_sst_val s' = path_of_sst_val s) as -> by (unfold path_of_sst_val; by rewrite Hp).
    rewrite Hfiles; [done|by eapply owned_known|by apply (owned_disjoint _ _ _ _ _ How)].
  - rewrite (assoc_L (++)). apply NoDup_app. split; [apply Hok'|]. split; [|by apply NoDup_app in Hnd as (_ & _ & (_ & _ & ?)%NoDup_app)].
    intros id Hin Hid. pose proof (owned_known _ _ _ _ _ Hok How Hid) as Hlt. destruct (owned_disjoint _ _ _ _ _ How Hid) as [Hn1 Hn2].
    apply elem_of_app in Hin as [[?|?]%Hmems|Hin]; [done|lia|]. apply (since_sub _ _ _ _ Hsince), elem_of_app in Hin as [Hin|Hin]; [|done].
    by apply Hn1, Hnew.
  - done.
Qed.

(** More tables of the thread's own. *)
Lemma owned_app g w s outs outs' w' : engine_ok g w s → progress g w s (next_sst_id s) outs' w' → owned g w s outs →
  owned (out_ghost outs' ∪ g) w' (advanced s (length outs')) (outs ++ outs').
Proof.
  intros Hok Hp How. destruct (engine_compacted g w s outs' w' Hok Hp) as (_ & Hsub & HG & Hb & Hnd & Hr).
  pose proof Hp as [_ _ _ Hf]. pose proof How as [HG0 Hb0 Hnd0 Hpos].
  assert (∀ id, id ∈ out_ids outs → id ∉ out_ids outs') as Hdisj.
  { intros id Hid Hid'. pose proof (owned_known _ _ _ _ _ Hok How Hid). pose proof (Hr id Hid'). lia. }
  split.
  - intros x [Hx|Hx]%elem_of_app; [|by apply HG]. eapply lookup_weaken; [by apply HG0|done].
  - apply Forall_app. split; [|done]. apply Forall_forall. intros x Hx.
    destruct (proj1 (Forall_forall _ _) Hb0 x Hx) as (data & ? & ? & Hfx & ? & ?). exists data. split_and!; [done..| |done|done].
    change (path_of_sst_val (advanced s (length outs'))) with (path_of_sst_val s). rewrite Hf; [done|].
    intros id Hid E%Names.path_of_sst_inj. assert (SsTable.id x.1 ∈ out_ids outs) as Hx' by (unfold out_ids; by do 2 apply list_elem_of_fmap_2).
    pose proof (owned_known _ _ _ _ _ Hok How Hx'). lia.
  - change (state (advanced s (length outs'))) with (state s). rewrite out_ids_app, !(assoc_L (++)). apply NoDup_app.
    rewrite <-!(assoc_L (++)). split; [done|]. rewrite (assoc_L (++)) in Hnd. apply NoDup_app in Hnd as (_ & Hd & Hndo). split; [|done].
    intros id Hin. rewrite (assoc_L (++)) in Hin. apply elem_of_app in Hin as [Hin|Hin]; [by apply Hd|by apply Hdisj].
  - rewrite out_ids_app. intros [?|Hz]%elem_of_app; [done|]. pose proof (Hr 0 Hz). pose proof (engine_next _ _ _ Hok). lia.
Qed.

(** ** Where the thread stands *)

(** [task] was chosen in a state to which tables may have been added since. *)
Record chosen g s task : Prop := {
  ch_since : ∃ st new, since (CompactionController.flush_to_l0 (compaction_controller s)) new st (state s) ∧
    CompactionController.generate_compaction_task (compaction_controller s) st = Ok (Some task) ∧
    shape (compaction_controller s) st ∧ (CompactionController.flush_to_l0 (compaction_controller s) = false → 0 ∉ new);
  ch_task : task_ok g s task;
  ch_tiers : CompactionController.flush_to_l0 (compaction_controller s) = false →
    (0 ∉ mem_ids (state s)) ∧ LsmStorageState.levels (state s) ≠ [] }.

(** What the output of the task will be. *)
Definition result g task : list kv :=
  LsmGen.kept (CompactionTask.compact_to_bottom_level task) (entries (stored (content g) (task_inputs task))).

(** The variables of the merge: [outs] is written, [cur] is in the builder and
    [rest] is left. *)
Record producing g w s task (v : gen source) outs cur rest : Prop := {
  pd_new : g_new_sst v = outs.*1;
  pd_owned : owned g w s outs;
  pd_iter : denotes (Inv:=BlockCacheSpec.cache_ok (blocks g)) (g_iter v) rest;
  pd_rest : Forall kv_ok rest;
  pd_builder : match g_builder v with Some b => TableBuilderSpec.fed b cur | None => cur = [] end;
  pd_fits : fits (result g task);
  pd_result : result g task = out_entries outs ++ cur ++ LsmGen.kept (CompactionTask.compact_to_bottom_level task) rest }.

(** The thread stands at [c] and is at most [n] steps from the start of its loop. *)
Definition standing (n : nat) g w s (c : compactor) : Prop :=
  match c with
  | Idle => True
  | Chosen task => chosen g s task ∧ length (entries (stored (content g) (task_inputs task))) + 3 ≤ n
  | Merging task v => chosen g s task ∧ ∃ outs cur rest, producing g w s task v outs cur rest ∧ length rest + 2 ≤ n
  | Built task sstables => chosen g s task ∧ (∃ outs, sstables = outs.*1 ∧ owned g w s outs ∧ out_entries outs = result g task) ∧ 1 ≤ n
  end.

(** *** A growing record *)
Lemma task_runs_mono g g' s task : (∀ id, id ∈ ids_of (state s) → is_Some (g !! id)) → g ⊆ g' →
  task_inputs task ⊆ ids_of (state s) → task_runs g task → task_runs g' task.
Proof.
  intros Hsome Hg Hin. assert (∀ ids, ids ⊆ ids_of (state s) → ksorted (level_entries g ids) → ksorted (level_entries g' ids)) as Hm.
  { intros ids Hids. rewrite (level_entries_mono g g'); auto. }
  destruct task as [t|t|t|t]; cbn [task_runs task_inputs] in *.
  - intros [? Hu]. split; [apply Hm; [set_solver|done]|]. intros Hne. apply Hm; [set_solver|auto].
  - intros Hr. apply Forall_forall. intros tier Ht. apply Hm; [|by eapply Forall_forall in Hr].
    intros id Hid. apply Hin. apply list_elem_of_join. exists tier.2. split; [done|by apply list_elem_of_fmap_2].
  - intros [? Hu]. split; [apply Hm; [set_solver|done]|]. intros Hne. apply Hm; [set_solver|auto].
  - intros ?. apply Hm; [set_solver|done].
Qed.

Lemma result_mono g g' s task : (∀ id, id ∈ ids_of (state s) → is_Some (g !! id)) → g ⊆ g' →
  task_inputs task ⊆ ids_of (state s) → result g' task = result g task.
Proof. intros Hsome Hg Hin. unfold result. rewrite (stored_mono g g'); auto. Qed.

(** What a step of any thread does to the choice. *)
Lemma chosen_mono g g' s s' task new : (∀ id, id ∈ ids_of (state s) → is_Some (g !! id)) → g ⊆ g' →
  compaction_controller s' = compaction_controller s →
  since (CompactionController.flush_to_l0 (compaction_controller s)) new (state s) (state s') →
  (CompactionController.flush_to_l0 (compaction_controller s) = false → 0 ∉ mem_ids (state s) → (0 ∉ new) ∧ (0 ∉ mem_ids (state s'))) →
  chosen g s task → chosen g' s' task.
Proof.
  intros Hsome Hg Hc Hs Hz [(st & new0 & Hs0 & Hgen & Hsh & Hz0) (Hin & Hruns & Htask) Ht]. split; rewrite ?Hc.
  - exists st, (new ++ new0). split_and!; [by eapply since_trans|done|done|]. intros Hb. destruct (Ht Hb) as [Hm _].
    destruct (Hz Hb Hm) as [? _]. rewrite elem_of_app. intros [?|?]; [done|by apply Hz0].
  - split_and!; [etrans; [exact Hin|by eapply since_ids]|by eapply task_runs_mono|done].
  - intros Hb. destruct (Ht Hb) as [Hm Hne]. split; [by apply Hz|]. rewrite Hb in Hs. destruct Hs as [_ ->].
    intros [_ E]%app_nil. by apply Hne.
Qed.

Lemma engine_known g w s : engine_ok g w s → ∀ id, id ∈ ids_of (state s) → is_Some (g !! id).
Proof. intros Hok id Hid. by eapply engine_some. Qed.

Lemma standing_mono n n' g w s c : n ≤ n' → standing n g w s c → standing n' g w s c.
Proof.
  intros Hn. destruct c as [|task|task v|task ssts]; cbn [standing]; [done|..].
  - intros [? ?]. split; [done|lia].
  - intros (? & outs & cur & rest & ? & ?). split; [done|]. exists outs, cur, rest. split; [done|lia].
  - intros (? & ? & ?). split_and!; [done..|lia].
Qed.

(** A call of another thread leaves the compaction where it is. *)
Lemma standing_kept n h (k : nat) g w s m g' w' s' c : engine_ok g w s → stepped h k g w s m g' w' s' → beside w s w' s' →
  standing n g w s c → standing n g' w' s' c.
Proof.
  intros Hok (Hg & [Hok' _ _ _ _ _] & _ & _ & Hc & _ & Hp & _) Hb. pose proof (engine_known _ _ _ Hok) as Hsome.
  assert (∀ task, chosen g s task → chosen g' s' task) as Hch.
  { intros task. pose proof Hb as [_ Hmems (new & Hnew & Hs)]. apply (chosen_mono g g' s s' task new); [done..|].
    intros _ Hz. split; [by intros ?%Hnew|]. intros [?|?]%Hmems; [done|]. pose proof (engine_next _ _ _ Hok). lia. }
  assert (∀ outs, owned g w s outs → owned g' w' s' outs) as How by (intros; by eapply (owned_kept g w s)).
  destruct c as [|task|task v|task ssts]; cbn [standing]; [done|..].
  - intros [Ht Hn]. split; [by apply Hch|]. rewrite (stored_mono g g'); [done|done|]. intros id Hid. by apply Hsome, Ht.
  - intros [Ht (outs & cur & rest & [] & Hn)]. split; [by apply Hch|]. exists outs, cur, rest.
    assert (result g' task = result g task) as E by (apply (result_mono g g' s); [done|done|apply Ht]).
    split; [|done]. split; rewrite ?E; auto. eapply source_mono; [by apply blocks_mono|done].
  - intros (Ht & (outs & ? & ? & ?) & Hn). split; [by apply Hch|]. split; [|done]. exists outs.
    assert (result g' task = result g task) as E by (apply (result_mono g g' s); [done|done|apply Ht]).
    rewrite E. auto.
Qed.

(** *** The steps of the thread *)

(** Choosing a task. *)
Lemma choose_spec g w s : engine_ok g w s → room s → shape (compaction_controller s) (state s) →
  (CompactionController.flush_to_l0 (compaction_controller s) = false → 0 ∈ mem_ids (state s) → LsmStorageState.levels (state s) = []) →
  (∀ o, compaction_controller s ≠ CompactionController.Leveled o) →
  ∃ r, CompactionController.generate_compaction_task (compaction_controller s) (state s) = Ok r ∧
    ∀ task, r = Some task → chosen g s task.
Proof.
  intros Hok Hroom Hsh Hz Hc.
  assert (∀ task, CompactionController.generate_compaction_task (compaction_controller s) (state s) = Ok (Some task) →
    task_ok g s task → (CompactionController.flush_to_l0 (compaction_controller s) = false → LsmStorageState.levels (state s) ≠ []) →
    chosen g s task) as Hch.
  { intros task Hgen Hok' Hne. split; [|done|].
    - exists (state s), []. split_and!; [by apply since_refl|done|done|intros _; by apply not_elem_of_nil].
    - intros Hb. split; [|by apply Hne]. intros Hin. by apply (Hne Hb), Hz. }
  destruct (compaction_controller s) as [o|o|o|] eqn:Ecc; [by destruct (Hc o)|..].
  - destruct Hsh as (Hw & Hnum & Ht). pose proof (eo_tiers _ _ _ Hok) as Hl0. rewrite Ecc in Hl0. specialize (Hl0 eq_refl).
    destruct (TieredSpec.tiered_generate_total o (state s)) as [[task|] Hgen]; [done|done|..].
    + exists (Some (CompactionTask.Tiered task)). simpl in Hch |- *. rewrite Hgen in Hch |- *. split; [done|].
      intros ? [= <-]. destruct (tiered_task_ok g w s o task) as [? ?]; [done..|]. by apply Hch.
    + exists None. simpl. by rewrite Hgen.
  - destruct Hsh as (Hlen & Hmax).
    destruct (SimpleLeveledCompactionController.generate_compaction_task o (state s)) as [task|] eqn:Hgen.
    + exists (Some (CompactionTask.Simple task)). simpl in Hch |- *. rewrite Hgen in Hch |- *. split; [done|].
      intros ? [= <-]. apply Hch; [done|by apply (simple_task_ok g w s o)|done].
    + exists None. simpl. by rewrite Hgen.
  - by exists None.
Qed.

(** The counter moves and tables appear outside of the tree. *)
Lemma advanced_step h g w s outs w' : alive h g w s → progress g w s (next_sst_id s) outs w' →
  stepped h (length outs) g w s (shown g (state s)) (out_ghost outs ∪ g) w' (advanced s (length outs)).
Proof.
  intros [] Hp. destruct (engine_compacted g w s outs w' al_engine Hp) as (Hok' & Hsub & _).
  assert (evolves [] w s w' (advanced s (length outs))) as Hev.
  { apply evolves_same; [done..|]. apply Hp. intros id _ E. symmetry in E. by apply Names.path_sst_manifest in E. }
  split_and!; [done| | |simpl; lia|simpl; lia|done..|].
  - split; try done. change (state (advanced s (length outs))) with (state s). unfold stock.
    rewrite (level_entries_mono g); [done|done|by eapply engine_known].
  - unfold shown. change (state (advanced s (length outs))) with (state s). by rewrite (contents_mono g _ w s).
  - intros Hj. apply (journaled_same w s); [done|done|done|simpl; lia|done].
Qed.

Lemma result_sorted g task : ksorted (result g task).
Proof. apply kept_sorted, entries_sorted. Qed.

Lemma result_fits h g w s task : alive h g w s → fits h → task_inputs task ⊆ ids_of (state s) → fits (result g task).
Proof.
  intros [] Hfits Hin. eapply fits_submseteq; [|exact Hfits]. etrans; [|exact al_stock].
  etrans; [|unfold stock; by apply submseteq_inserts_l]. etrans; [|by apply stored_submseteq].
  unfold result, LsmGen.kept. destruct (CompactionTask.compact_to_bottom_level task); [apply sublist_submseteq, sublist_filter|done].
Qed.

Lemma chosen_advanced g G w s n task : engine_ok g w s → g ⊆ G → chosen g s task → chosen G (advanced s n) task.
Proof.
  intros Hok Hg. apply (chosen_mono g G s (advanced s n) task []); [by eapply engine_known|done|done|by apply since_refl|].
  intros _ ?. split; [by apply not_elem_of_nil|done].
Qed.

(** Taking the snapshot and opening the inputs. *)
Lemma start_step h g w s task : alive h g w s → fits h → chosen g s task →
  runs (compactor_step s (Chosen task)) w (λ w' r, stepped h 0 g w s (shown g (state s)) g w' r.1 ∧
    standing (length (entries (stored (content g) (task_inputs task))) + 2) g w' r.1 r.2).
Proof.
  intros Hal Hfits Hch. pose proof (al_engine _ _ _ _ Hal) as Hok. pose proof (ch_task _ _ _ Hch) as (Hin & Hruns & _).
  destruct (engine_read_ok _ _ _ Hok) as [_ Hread _]. unfold compactor_step.
  eapply runs_bind; [apply (compact_source_spec g (state s)); [intros; by apply Hread, Hin|apply Hok|done]|].
  intros w' src [Hsame Hsrc]. apply runs_ret. pose proof (engine_same_files _ _ _ _ Hok Hsame) as Hok'.
  split; [by apply steps_read|]. split; [done|]. exists [], [], (entries (stored (content g) (task_inputs task))).
  split; [|done]. split; try done; [by apply owned_nil| |by eapply result_fits].
  apply (stored_entries_ok g (state s)). intros; by apply Hread, Hin.
Qed.

(** What is left to produce, as one output of its own. *)
Lemma producing_gen g w s task v outs cur rest : engine_ok g w s → producing g w s task v outs cur rest →
  let out := cur ++ LsmGen.kept (CompactionTask.compact_to_bottom_level task) rest in
  let v0 := Gen (next_sst_id s) (g_builder v) [] (g_iter v) in
  ksorted out ∧ fits out ∧ gen_ok g w s (CompactionTask.compact_to_bottom_level task) out w v0 rest ∧
  with_counter (next_sst_id s) v = wrapped (λ it, it) outs.*1 v0.
Proof.
  intros Hok [] out v0. pose proof (result_sorted g task) as Hs. rewrite pd_result0 in Hs, pd_fits0.
  apply ksorted_app in Hs as (_ & Hs & _). split_and!; [done| | |].
  - eapply fits_submseteq; [|exact pd_fits0]. by apply submseteq_inserts_l.
  - exists [], cur. simpl. rewrite Nat.add_0_r. split_and!; try done. by apply progress_none, Hok.
  - unfold with_counter, wrapped, v0. simpl. by rewrite pd_new0, app_nil_r.
Qed.

(** The thread continues with [outs'] written. *)
Lemma producing_app g w s task outs outs' cur rest w' rest' cur' v' : engine_ok g w s → chosen g s task →
  owned g w s outs → progress g w s (next_sst_id s) outs' w' →
  result g task = out_entries outs ++ cur ++ LsmGen.kept (CompactionTask.compact_to_bottom_level task) rest →
  cur ++ LsmGen.kept (CompactionTask.compact_to_bottom_level task) rest =
    out_entries outs' ++ cur' ++ LsmGen.kept (CompactionTask.compact_to_bottom_level task) rest' →
  fits (result g task) → g_new_sst v' = outs'.*1 → denotes (Inv:=BlockCacheSpec.cache_ok (blocks g)) (g_iter v') rest' → Forall kv_ok rest' →
  match g_builder v' with Some b => TableBuilderSpec.fed b cur' | None => cur' = [] end →
  producing (out_ghost outs' ∪ g) w' (advanced s (length outs')) task (wrapped (λ it, it) outs.*1 v') (outs ++ outs') cur' rest'.
Proof.
  intros Hok Hch How Hp Eres E Hfits Hnew Hd Hrest Hb. destruct (engine_compacted g w s outs' w' Hok Hp) as (_ & Hsub & _).
  assert (result (out_ghost outs' ∪ g) task = result g task) as Er.
  { apply (result_mono _ _ s); [by eapply engine_known|done|apply Hch]. }
  split; rewrite ?Er; try done.
  - simpl. by rewrite Hnew, fmap_app.
  - by apply (owned_app g w).
  - simpl. eapply source_mono; [by apply blocks_mono|done].
  - by rewrite Eres, E, out_entries_app, <-(assoc_L (++)).
Qed.

(** One more entry, or the end of the output. *)
Lemma merge_step h g w s task v outs cur rest : alive h g w s → chosen g s task → producing g w s task v outs cur rest →
  runs (compactor_step s (Merging task v)) w (λ w' r, ∃ g', stepped h 1 g w s (shown g (state s)) g' w' r.1 ∧ standing (length rest + 1) g' w' r.1 r.2).
Proof.
  intros Hal Hch Hpd. pose proof (al_engine _ _ _ _ Hal) as Hok.
  destruct (producing_gen g w s task v outs cur rest Hok Hpd) as (Hs & Hf & Hgen & Ev). pose proof Hpd as [].
  set (bottom := CompactionTask.compact_to_bottom_level task) in *. set (out := cur ++ LsmGen.kept bottom rest) in *.
  set (v0 := Gen (next_sst_id s) (g_builder v) [] (g_iter v)) in *.
  assert (∀ it (c : BlockCache.t), next (id (A:=source) it) c = (it ← next it; mret (id it)) c) as Hnext.
  { intros it c. unfold mbind, eff_bind, id. by destruct (next it c) as [[? ?]|]. }
  assert (∀ w' outs' (v' : gen source), progress g w s (next_sst_id s) outs' w' → g_next_sst_id v' = next_sst_id s + length outs' →
    g_next_sst_id v' ≤ S (next_sst_id s) →
    stepped h 1 g w s (shown g (state s)) (out_ghost outs' ∪ g) w' (set_next_sst_id s (g_next_sst_id v'))) as Hstep.
  { intros w' outs' v' Hp En Hle. rewrite En. eapply stepped_mono; [done| |by apply advanced_step]. lia. }
  destruct (gen_step_spec g w s bottom out (eo_block_size _ _ _ Hok) Hs Hf w v0 rest Hgen) as (w1 & r & Hrun & Hr).
  pose proof (gen_step_ids _ _ _ _ _ _ Hrun) as Hids.
  apply (gen_step_wrapped id outs.*1 (λ _, eq_refl) (λ _, eq_refl) (λ _, eq_refl) Hnext) in Hrun.
  change (wrapped id outs.*1 v0) with (wrapped (λ it, it) outs.*1 v0) in Hrun. rewrite <-Ev in Hrun.
  unfold compactor_step. fold bottom. destruct r as [v'|v'].
  - destruct Hr as (rest' & Hlt & outs' & cur' & Hnew & En & Hp & Hd & Hrest & Hb & E).
    exists w1, (set_next_sst_id s (g_next_sst_id v'), Merging task (wrapped id outs.*1 v')). split; [by rewrite (eff_bind_run _ _ _ _ _ Hrun)|].
    exists (out_ghost outs' ∪ g). split; [by apply Hstep|]. cbn [fst snd standing]. rewrite En.
    destruct (engine_compacted g w s outs' w1 Hok Hp) as (_ & Hsub & _).
    split; [by apply (chosen_advanced g _ w)|]. exists (outs ++ outs'), cur', rest'. split; [by apply (producing_app g w s task outs outs' cur rest)|lia].
  - subst v'. destruct (gen_finish_spec g w s bottom out (eo_block_size _ _ _ Hok) Hs Hf w1 v0 Hr) as (w2 & v2 & Hrun2 & outs' & Hnew & En & Hp & Eout).
    pose proof (gen_finish_ids _ _ _ _ _ Hrun2) as Hids2. apply (gen_finish_wrapped id outs.*1) in Hrun2.
    exists w2, (set_next_sst_id s (g_next_sst_id v2), Built task (outs.*1 ++ g_new_sst v2)).
    split; [rewrite (eff_bind_run _ _ _ _ _ Hrun); by rewrite (eff_bind_run _ _ _ _ _ Hrun2)|].
    exists (out_ghost outs' ∪ g). split; [by apply Hstep|]. cbn [fst snd standing]. rewrite En.
    destruct (engine_compacted g w s outs' w2 Hok Hp) as (_ & Hsub & _).
    split; [by apply (chosen_advanced g _ w)|]. split; [|lia]. exists (outs ++ outs'). split_and!; [by rewrite Hnew, fmap_app|by apply (owned_app g w)|].
    rewrite (result_mono g _ s); [|by eapply engine_known|done|apply Hch]. by rewrite pd_result0, out_entries_app, Eout.
Qed.

(** Installing the output. *)
Lemma installs_mono (keeps keeps' : LsmStorageState.t → Prop) G s task outs : (∀ st, keeps st → keeps' st) →
  installs keeps G s task outs → installs keeps' G s task outs.
Proof. intros Hk (st' & ? & ? & ? & ? & ?). exists st'. split_and!; auto. Qed.

Lemma install_step h g w s task outs : alive h g w s → room s → (∀ o, compaction_controller s ≠ CompactionController.Leveled o) →
  chosen g s task → owned g w s outs → out_entries outs = result g task →
  runs (compactor_step s (Built task outs.*1)) w (λ w' r, stepped h 0 g w s (shown g (state s)) g w' r.1 ∧ r.2 = Idle).
Proof.
  intros Hal Hroom Hc Hch How Hout. pose proof Hal as []. pose proof Hch as [(st & new & Hsince & Hgen & Hsh & Hz) (Hin & Hruns & Htask) Htiers].
  assert (finished g w s outs (CompactionTask.compact_to_bottom_level task) (task_inputs task)) as Hfin by (destruct How; by split).
  assert (installs (shape (compaction_controller s)) g s task outs) as Hinst.
  { destruct (compaction_controller s) as [o|o|o|] eqn:Ecc; [by destruct (Hc o)|..]; simpl in Hgen.
    - destruct (TieredCompactionController.generate_compaction_task o st) as [[t|]|] eqn:Hg; try done. injection Hgen as <-.
      destruct al_shape as (? & ? & ?). eapply installs_mono; [|eapply (tiered_installs g w s outs o st new t); try done; by apply Hz].
      intros st' ?. by split_and!.
    - destruct (SimpleLeveledCompactionController.generate_compaction_task o st) as [t|] eqn:Hg; try done. injection Hgen as <-.
      destruct al_shape as (? & ?). destruct Hsh as (? & ?).
      eapply installs_mono; [|by eapply (simple_installs g w s outs o st new t)]. intros st' ?. by split.
    - done. }
  unfold compactor_step. eapply runs_bind; [apply (install_moved g w s task outs (shape (compaction_controller s))); try done|].
  { intros st1 st2 _ E. by apply shape_same. }
  intros w' s' (Hm & Hre & Hsh' & Hn). apply runs_ret. split; [|done]. cbn [fst].
  assert (stepped h (length h) g w s (shown g (state s)) g w' s') as (? & ? & ? & ? & ? & ? & ? & ?).
  { eapply moved_stepped; try done. intros E Hb. by destruct (Htiers Hb) as [_ []]. }
  split_and!; try done; lia.
Qed.

(** ** Schedules *)
Lemma task_entries h g w s task : alive h g w s → task_inputs task ⊆ ids_of (state s) →
  length (entries (stored (content g) (task_inputs task))) ≤ length h.
Proof.
  intros [] Hin. apply submseteq_length. etrans; [|exact al_stock]. etrans; [|unfold stock; by apply submseteq_inserts_l].
  by apply stored_submseteq.
Qed.

Lemma compactor_spec n h g w s c : alive h g w s → standing n g w s c → fits h → room s →
  (∀ o, compaction_controller s ≠ CompactionController.Leveled o) →
  runs (compactor_step s c) w (λ w' r, ∃ g', stepped h 1 g w s (shown g (state s)) g' w' r.1 ∧
    standing (if c is Idle then length h + 3 else pred n) g' w' r.1 r.2).
Proof.
  intros Hal Hst Hfits Hroom Hc. pose proof Hal as []. destruct c as [|task|task v|task ssts]; cbn [standing] in Hst.
  - destruct (choose_spec g w s) as (r & Hgen & Hch); [done..|]. unfold compactor_step.
    eapply runs_bind; [apply (runs_lift _ _ (eq r)); by exists r|]. intros w1 ? [-> <-]. apply runs_ret.
    exists g. split; [by apply stepped_refl|]. destruct r as [task|]; [|done].
    pose proof (Hch task eq_refl) as Ht. split; [done|]. apply Nat.add_le_mono_r. apply (task_entries h g w s task Hal), Ht.
  - destruct Hst as [Hch Hn]. eapply runs_mono; [by apply (start_step h g)|]. intros w' r [Hs Hst']. exists g.
    split; [|by eapply standing_mono; [|exact Hst']; lia]. eapply stepped_mono; [| |exact Hs]; [done|lia].
  - destruct Hst as [Hch (outs & cur & rest & Hpd & Hn)]. eapply runs_mono; [by eapply merge_step|].
    intros w' r (g' & Hs & Hst'). exists g'. split; [done|]. eapply standing_mono; [|exact Hst']. lia.
  - destruct Hst as [Hch [(outs & -> & How & Hout) _]]. eapply runs_mono; [by apply (install_step h g)|].
    intros w' r [Hs ->]. exists g. split; [|done]. eapply stepped_mono; [| |exact Hs]; [done|lia].
Qed.

Lemma perform_step h g w s c e : alive h g w s → standing (length h + 3) g w s c →
  (∀ o, compaction_controller s ≠ CompactionController.Leveled o) → admissible (compaction_controller s) e →
  let h' := h ++ written (calls [e]) in
  fits h' → S (length h') < loop_fuel → room s →
  runs (perform (Config s c) e) w (λ w' r, ∃ g', stepped h' 1 g w s (Op.meanings (shown g (state s)) (calls [e])).1 g' w' (engine r.1) ∧
    standing (length h' + 3) g' w' (engine r.1) (thread r.1) ∧ r.2 = (Op.meanings (shown g (state s)) (calls [e])).2).
Proof.
  intros Hal Hst Hc Hadm h' Hfits Hfuel Hroom. pose proof Hal as []. unfold perform. cbn [engine thread].
  destruct e as [op|]; cbn [calls Op.meanings fst snd] in *.
  - assert (h' = h ++ Op.writes op) as Eh by (unfold h', written; simpl; by rewrite app_nil_r). clearbody h'. subst h'.
    destruct Hadm as [Hadm Hplain]. eapply runs_bind; [by apply (call_step h g)|].
    intros w1 [s1 a] [(g' & Hs & Hb) Ha]. simpl in Ha, Hs, Hb. subst a. apply runs_ret. exists g'. split_and!; [done| |done].
    eapply standing_mono; [|by eapply standing_kept]. rewrite length_app. lia.
  - unfold h', written in *. simpl in *. rewrite app_nil_r in *.
    eapply runs_bind; [by apply (compactor_spec (length h + 3) h g)|]. intros w1 [s1 k] (g' & Hs & Hst'). apply runs_ret. exists g'.
    split_and!; [done| |done]. eapply standing_mono; [|exact Hst']. destruct c; lia.
Qed.

Lemma calls_cons e es : calls (e :: es) = calls [e] ++ calls es.
Proof. by destruct e. Qed.
Lemma meanings_app m ops1 ops2 : Op.meanings m (ops1 ++ ops2) =
  ((Op.meanings (Op.meanings m ops1).1 ops2).1, (Op.meanings m ops1).2 ++ (Op.meanings (Op.meanings m ops1).1 ops2).2).
Proof.
  revert m; induction ops1 as [|op ops1 IH]; intros m; simpl; [by destruct (Op.meanings m ops2)|]. by rewrite IH.
Qed.

Lemma perform_all_step h g w s c es : alive h g w s → standing (length h + 3) g w s c →
  (∀ o, compaction_controller s ≠ CompactionController.Leveled o) → Forall (admissible (compaction_controller s)) es →
  let h' := h ++ written (calls es) in
  fits h' → S (length h') < loop_fuel → (Z.of_nat (next_sst_id s + length es) < 2 ^ 64)%Z →
  runs (perform_all (Config s c) es) w (λ w' r, ∃ g',
    stepped h' (length es) g w s (Op.meanings (shown g (state s)) (calls es)).1 g' w' (engine r.1) ∧
    standing (length h' + 3) g' w' (engine r.1) (thread r.1) ∧ r.2 = (Op.meanings (shown g (state s)) (calls es)).2).
Proof.
  revert h g w s c; induction es as [|e es IH]; intros h g w s c Hal Hst Hc Hadm h' Hfits Hfuel Hids.
  { apply runs_ret. exists g. unfold h'. cbn. rewrite app_nil_r. split_and!; [by apply stepped_refl|done|done]. }
  apply Forall_cons in Hadm as [He Hes]. rewrite calls_cons, meanings_app. cbn [length fst snd] in *.
  assert (h' = (h ++ written (calls [e])) ++ written (calls es)) as Eh.
  { unfold h', written. rewrite calls_cons, fmap_app, join_app. by rewrite (assoc_L (++)). }
  assert (h ++ written (calls [e]) ⊆+ h') as Hsub by (rewrite Eh; by apply submseteq_inserts_r).
  pose proof (submseteq_length _ _ Hsub) as Hlen. cbn [perform_all].
  eapply runs_bind; [apply (perform_step h g w s c e); [done..|by eapply fits_submseteq|lia|unfold room; lia]|].
  intros w1 [[s1 c1] a] (g1 & Hs1 & Hst1 & Ha). cbn [engine thread fst snd] in *.
  pose proof Hs1 as Hs1'. destruct Hs1 as (_ & Hal1 & Hsh1 & Hn1 & Ec1 & _).
  eapply runs_bind; [apply (IH (h ++ written (calls [e])) g1 w1 s1 c1); [done|done|by rewrite Ec1|by rewrite Ec1|by rewrite <-Eh|by rewrite <-Eh|lia]|].
  intros w2 [[s2 c2] b] (g2 & Hs2 & Hst2 & Hb). cbn [engine thread fst snd] in *. rewrite Hsh1 in Hs2, Hb.
  apply runs_ret. exists g2. rewrite Eh. cbn [engine thread fst snd]. split_and!; [|done|by rewrite Ha, Hb].
  exact (stepped_trans _ _ 1 (length es) _ _ _ _ _ _ _ _ _ _ _ Hs1' Hs2).
Qed.

(** A schedule on a new directory. *)
Lemma open_perform p opts fs cap es : options_ok opts → fs !! manifest_path p = None →
  (∀ o, LsmStorageOptions.compaction_options opts ≠ CompactionOptions.Leveled o) →
  Forall (admissible (CompactionController.create (LsmStorageOptions.compaction_options opts))) es →
  fits (written (calls es)) → S (length (written (calls es))) < loop_fuel → (Z.of_nat (1 + length es) < 2 ^ 64)%Z →
  runs (s ← open p opts; perform_all (Config s Idle) es) (MkWorld fs (BlockCache.create cap)) (λ w' r, ∃ g,
    alive (written (calls es)) g w' (engine r.1) ∧ standing (length (written (calls es)) + 3) g w' (engine r.1) (thread r.1) ∧ journaled w' (engine r.1) ∧
    shown g (state (engine r.1)) = (Op.meanings ∅ (calls es)).1 ∧ options (engine r.1) = opts ∧ path (engine r.1) = p ∧
    next_sst_id (engine r.1) ≤ 1 + length es ∧ r.2 = (Op.meanings ∅ (calls es)).2).
Proof.
  intros Ho Hf Hc Hadm Hfits Hfuel Hids.
  eapply runs_bind; [apply open_fresh_spec; [done|done|apply create_cache_ok]|].
  intros w1 s1 (Hal & Hj & Hsh & Eo & Ep & En). pose proof Hal as [_ Ec _ _ _ _]. rewrite Eo in Ec.
  eapply runs_mono; [apply (perform_all_step [] ∅ w1 s1 Idle es); [done|done| |by rewrite Ec|done|done|by rewrite En]|].
  { intros o E. rewrite Ec in E. destruct (LsmStorageOptions.compaction_options opts) as [x|x|x|] eqn:Eopt; try done. by destruct (Hc x). }
  intros w2 r (g & (_ & Hal2 & Hsh2 & Hn2 & _ & Eo2 & Ep2 & Hj2) & Hst & Ha). rewrite Hsh in Hsh2, Ha. exists g.
  split_and!; [done|done|auto|done|congruence|congruence|lia|done].
Qed.

(** The thread on its own, from anywhere. *)
Lemma compaction_finishes n : ∀ h g w s c, alive h g w s → standing n g w s c → fits h →
  (∀ o, compaction_controller s ≠ CompactionController.Leveled o) → (Z.of_nat (next_sst_id s + n) < 2 ^ 64)%Z →
  ∃ k w' s', k ≤ n ∧ perform_all (Config s c) (repeat Compaction k) w = Ok (w', (Config s' Idle, [])) ∧
    ∃ g', stepped h k g w s (shown g (state s)) g' w' s'.
Proof.
  induction n as [|n IH]; intros h g w s c Hal Hst Hfits Hc Hids.
  - assert (c = Idle) as -> by (destruct c; cbn [standing] in Hst; naive_solver lia).
    exists 0, w, s. split_and!; [done..|]. exists g. by apply stepped_refl.
  - destruct (compactor_spec (S n) h g w s c) as (w1 & [s1 c1] & Hrun & g1 & Hs1 & Hst1); [done..|unfold room; lia|done|].
    cbn [fst snd] in *. destruct c as [|task|task v|task ssts].
    { exists 0, w, s. split_and!; [lia|done..|]. exists g. by apply stepped_refl. }
    all: pose proof Hs1 as (Hg1 & Hal1 & Hsh1 & Hn1 & Ec1 & Eo1 & Ep1 & Hj1).
    all: destruct (IH h g1 w1 s1 c1) as (k & w2 & s2 & Hk & Hall & g2 & Hs2); [done..|by rewrite Ec1|lia|].
    all: exists (S k), w2, s2; split; [lia|]; split; [|exists g2; rewrite Hsh1 in Hs2; exact (stepped_trans _ _ 1 k _ _ _ _ _ _ _ _ _ _ _ Hs1 Hs2)].
    all: cbn [repeat perform_all]; unfold perform; cbn [engine thread].
    all: unfold mbind, eff_bind; rewrite Hrun; cbn; by rewrite Hall.
Qed.
End concurrent.
