(* ===== verification/LsmEngine.v ===== *)
(** * The engine: the theorems

    What [MiniLsm] and [LsmStorageInner] promise.  A state that satisfies the
    invariant stands for one finite map from keys to values ([shown]); reads
    answer from it, writes update it, moving data to tables and merging tables
    leave it alone, and closing and opening a directory brings it back. *)
From S2P Require Import Prelude Endian Key Iterators Block BlockCache Double Bloom Table Sizes TableIterator Wal MemTable State Layers SimpleLeveled Tiered Leveled Compact Manifest LsmStorage LsmSpec LsmRead LsmWrite LsmGen LsmCompact LsmInstall LsmStrategies LsmLeveled LsmJournal LsmTrace LsmOpen LsmThreads LsmConcurrent.

(** ** Well-formed states

    What the structure of a state and the files must satisfy, whatever is
    stored. *)
Section well_formed.
Context `{!Zlib} `{!Snappy} `{!Farmhash} `{!Libm} `{!Json}.
Import LsmStorageInner.

(** The log of a memtable: there is one if logging is on, under the name of the
    memtable's id; what is in its file and in its buffer are the frames of some
    records, and writing these one after the other gives the memtable's map. *)
Definition log_agrees (w : World) (s : LsmStorageInner.t) (m : MemTable.t) : Prop :=
  (LsmStorageOptions.enable_wal (options s) = true → MemTable.wal_ m ≠ None) ∧
  ∀ l, MemTable.wal_ m = Some l → Wal.path_ l = path_of_wal_val s (MemTable.id_ m) ∧
    ∃ file buf rs, files w !! path_of_wal_val s (MemTable.id_ m) = Some file ∧ Wal.fp_ l = Some buf ∧
      file ++ buf = concat ((λ e, Wal.frame e.1 e.2) <$> rs) ∧
      foldl (λ g e, <[e.1 := e.2]> g) ∅ rs = kv_map (MemTable.map_ m).

(** The file of the manifest: its records, replayed as [open] does, give level 0,
    the levels, the ids of the memtables from the oldest to the newest, and a
    counter between the ids in use and the next one. *)
Definition manifest_agrees (w : World) (s : LsmStorageInner.t) : Prop := ∃ rs st n,
  files w !! manifest_path (path s) = Some (ManifestSpec.frames rs) ∧
  replay_records (compaction_controller s) (LsmStorageState.create (options s), 1, []) rs = Ok (st, n, rev (mem_ids (state s))) ∧
  LsmStorageState.l0_sstables st = LsmStorageState.l0_sstables (state s) ∧
  LsmStorageState.levels st = LsmStorageState.levels (state s) ∧
  n ≤ next_sst_id s ∧ Forall (λ id, id ≤ n) (mem_ids (state s) ++ ids_of (state s)).

Record well_formed (w : World) (s : LsmStorageInner.t) : Prop := {
  (* no memtable and no table has the id of another, and the next id is free *)
  wf_ids : NoDup (mem_ids (state s) ++ ids_of (state s));
  wf_next : Forall (λ id, id < next_sst_id s) (mem_ids (state s) ++ ids_of (state s));
  (* memtables are in key order and can be written to a table; no frozen one is empty *)
  wf_memtables : Forall (λ m, ksorted (MemTable.map_ m) ∧ Forall kv_ok (MemTable.map_ m)) (memtables (state s));
  wf_frozen : Forall (λ m, MemTable.map_ m ≠ []) (LsmStorageState.imm_memtables (state s));
  (* every id of the tree is an open table with its file *)
  wf_tables : Forall (λ id, ∃ t data, LsmStorageState.sstables (state s) !! id = Some t ∧ SsTable.id t = id ∧
    key_le (SsTable.first_key t) (SsTable.last_key t) ∧ files w !! path_of_sst_val s id = Some data ∧
    SsTable.open id true (TableBuilderSpec.file_of data) = Ok t) (ids_of (state s));
  (* the key ranges of a level follow one another *)
  wf_levels : Forall (λ lv, LeveledSpec.run (LsmStorageState.sstables (state s)) lv.2) (LsmStorageState.levels (state s));
  (* under the tiered strategy there is no level 0 *)
  wf_tiers : CompactionController.flush_to_l0 (compaction_controller s) = false → LsmStorageState.l0_sstables (state s) = [];
  (* the logs hold what the memtables hold *)
  wf_logs : Forall (log_agrees w s) (memtables (state s));
  (* the manifest describes the structure *)
  wf_manifest : manifest_agrees w s }.

Lemma table_tabled g w s id : table_ok g w s id → tabled g (LsmStorageState.sstables (state s)) id.
Proof. intros (t & kvss & data & []). exists t, kvss. split_and!; [done..|]. unfold entries_of. by rewrite ta_ghost. Qed.

Lemma mem_ok_log w s m : mem_ok w s m → log_agrees w s m.
Proof.
  intros [Hlog _ _ Hwal]. split; [done|]. intros l Hl. destruct (Hwal l Hl) as (Ep & rs & (buf & file & Hfp & Hfile & Hrs & _) & Hrep).
  rewrite Ep in Hfile. split; [done|]. by exists file, buf, rs.
Qed.

Lemma journaled_manifest w s : journaled w s → manifest_agrees w s.
Proof.
  intros (rs & st & n & (m & _ & Ep & _ & Hfile) & _ & []). destruct rp_same as [E1 E2]. rewrite Ep in Hfile.
  exists rs, st, n. split_and!; [done..|]. apply Forall_forall. intros id Hin%elem_of_app. by apply rp_ids.
Qed.

Lemma engine_ok_well_formed g w s : engine_ok g w s → journaled w s → well_formed w s.
Proof.
  intros [] Hj. split; try done.
  - apply Forall_forall. intros id [Hin|Hin]%elem_of_app; apply eo_fresh; [by left|right].
    destruct (eo_tables id Hin) as (t & kvss & data & []). by exists kvss.
  - eapply Forall_impl; [exact eo_mems|]. by intros m [].
  - apply Forall_forall. intros id Hin. pose proof (table_tabled g w s id (eo_tables id Hin)) as Ht.
    destruct (tabled_range g _ id Ht) as (t' & Ht' & E1 & E2 & Hle). destruct (eo_tables id Hin) as (t & kvss & data & []).
    rewrite ta_open in Ht'. injection Ht' as <-. rewrite <-E1, <-E2 in Hle. by exists t, data.
  - apply Forall_forall. intros lv Hlv. rewrite Forall_forall in eo_levels. apply (run_iff g); [|by apply eo_levels].
    intros id Hid. apply (table_tabled g w s), eo_tables. by eapply ids_of_level.
  - eapply Forall_impl; [exact eo_mems|]. by intros m Hm%mem_ok_log.
  - by apply journaled_manifest.
Qed.
End well_formed.

(** ** Properties *)
Section properties.
Context `{!Zlib} `{!Snappy} `{!SnappyLaws} `{!SnappyBound} `{!Farmhash} `{!Libm} `{!Json} `{!JsonLaws} `{!LoopFuel}.
Import LsmStorageInner.
Implicit Types (g : ghost) (w : World) (s : LsmStorageInner.t) (ops : list Op.t) (es : list Threads.event).

(** C1: the engine behaves as one finite map.  Open a directory without a
    manifest and make any sequence of calls: puts and deletes with keys and
    values that fit the formats, gets, scans, syncs, flushes and compactions of
    any strategy (a triggered compaction under the leveled one is left to
    [trigger_compaction_correct]), as the client and the background threads
    issue them one after the other.  Every call returns, and the answers are
    those of a map that starts empty: a put sets its key, a delete or an empty
    value removes it, a get answers the value or the empty string, a scan the
    entries of the range in order, and nothing else changes the map.  The bounds
    are on what is written and on the number of calls only: [N] exceeds the
    number of writes. *)
Theorem engine_refines_map p opts fs capacity ops (N : nat) :
  options_ok opts → fs !! manifest_path p = None →
  Forall (Op.admissible (CompactionController.create (LsmStorageOptions.compaction_options opts))) ops →
  fits (written ops) → length (written ops) < N → N < loop_fuel → (Z.of_nat (1 + length ops * N) < 2 ^ 64)%Z →
  ∃ w' s' g, (s ← open p opts; Op.runs_all s ops) (MkWorld fs (BlockCache.create capacity)) =
      Ok (w', (s', (Op.meanings ∅ ops).2)) ∧
    engine_ok g w' s' ∧ shown g (state s') = (Op.meanings ∅ ops).1.
Proof.
  intros Ho Hf Hadm Hfits HN Hfuel Hids.
  destruct (open_run p opts fs capacity ops N) as (w' & [s' a] & Hrun & g & Hal & _ & Hsh & _ & _ & _ & Ha); [done..|].
  simpl in *. subst a. exists w', s', g. split_and!; [done|apply Hal|done].
Qed.

(** C3: what was written survives a restart.  Run any calls on a new directory,
    destroy the engine, and open the directory again in a new process, with
    nothing but the files left: opening succeeds, and any further calls are
    answered as if the engine had never stopped.  This holds with logs, where the
    destructor writes them out and opening replays them, and without, where it
    flushes every memtable; and for any strategy but the leveled one if it
    compacted.  [data] is the manifest's file. *)
Theorem restart_keeps_data p opts fs capacity capacity' ops1 ops2 (N : nat) :
  options_ok opts → fs !! manifest_path p = None →
  Forall (Op.admissible (CompactionController.create (LsmStorageOptions.compaction_options opts))) (ops1 ++ ops2) →
  fits (written ops1 ++ written ops2) → length (written ops1 ++ written ops2) < N → N < loop_fuel →
  (Z.of_nat (length (ops1 ++ ops2) * N + 4) < 2 ^ 64 - 2)%Z →
  ∃ w1 s1 w2 data, (s ← open p opts; Op.runs_all s ops1) (MkWorld fs (BlockCache.create capacity)) =
      Ok (w1, (s1, (Op.meanings ∅ ops1).2)) ∧
    MiniLsm.destroy s1 w1 = Ok (w2, tt) ∧ files w2 !! manifest_path p = Some data ∧
    ((Z.of_nat (length data) < 2 ^ 63)%Z →
     ∃ w3 s3, (s ← open p opts; Op.runs_all s ops2) (MkWorld (files w2) (BlockCache.create capacity')) =
       Ok (w3, (s3, (Op.meanings (Op.meanings ∅ ops1).1 ops2).2))).
Proof.
  intros Ho Hf [Hadm1 Hadm2]%Forall_app Hfits HN Hfuel Hids. rewrite length_app in HN, Hids.
  destruct (open_run p opts fs capacity ops1 N) as (w1 & [s1 a1] & Hrun1 & g & Hal & Hj & Hsh & Eo & Ep & En & Ha);
    [done|done|done|by eapply fits_submseteq, Hfits; apply submseteq_inserts_r|lia|done|nia|]. simpl in *. subst a1.
  assert (fits (written ops1)) as Hfits1 by (eapply fits_submseteq; [|exact Hfits]; by apply submseteq_inserts_r).
  destruct (restart_run (written ops1) g w1 s1) as (w2 & [] & Hrun2 & data & Hdata & Hopen); [done|done|done|nia|].
  rewrite Eo, Ep in *. exists w1, s1, w2, data. split_and!; [done..|]. intros Hlen.
  destruct (Hopen capacity' Hlen) as (w2' & s2 & Hrun3 & g2 & Hal2 & Hsh2 & Eo2 & Ep2 & En2). pose proof Hal2 as [_ Hc _ _ _ _].
  destruct (runs_all_step (written ops1) g2 w2' s2 ops2 N) as (w3 & [s3 a3] & Hrun4 & _ & Ha3);
    [done|by rewrite Hc, Eo2|done|rewrite length_app; lia|done|nia|].
  exists w3, s3. unfold mbind, eff_bind. rewrite Hrun3, Hrun4. simpl in Ha3. by rewrite Ha3, Hsh2, Hsh.
Qed.

(** C4: the compaction thread does not disturb the client.  Open a directory
    without a manifest, without a strategy or with the simple or the tiered one,
    and take any schedule: calls of the client and of the flush thread, and
    between any two of them any number of steps of the compaction thread, which
    chooses a task, opens its inputs, writes the output entry by entry and
    installs it.  Every step of every thread succeeds, so no pass of the thread
    throws, and all calls are answered as by one finite map that only the client
    changes; at every moment the invariant holds.  The bounds are on what is
    written and on the number of steps. *)
Theorem interleavings_refine_map p opts fs capacity es :
  options_ok opts → fs !! manifest_path p = None →
  (∀ o, LsmStorageOptions.compaction_options opts ≠ CompactionOptions.Leveled o) →
  Forall (Threads.admissible (CompactionController.create (LsmStorageOptions.compaction_options opts))) es →
  fits (written (Threads.calls es)) → S (length (written (Threads.calls es))) < loop_fuel → (Z.of_nat (1 + length es) < 2 ^ 64)%Z →
  ∃ w' c g, (s ← open p opts; Threads.perform_all (Threads.Config s Threads.Idle) es) (MkWorld fs (BlockCache.create capacity)) =
      Ok (w', (c, (Op.meanings ∅ (Threads.calls es)).2)) ∧
    engine_ok g w' (Threads.engine c) ∧ shown g (state (Threads.engine c)) = (Op.meanings ∅ (Threads.calls es)).1.
Proof.
  intros Ho Hf Hc Hadm Hfits Hfuel Hids.
  destruct (open_perform p opts fs capacity es) as (w' & [c a] & Hrun & g & Hal & _ & _ & Hsh & _ & _ & _ & Ha); [done..|].
  simpl in *. subst a. exists w', c, g. split_and!; [done|apply Hal|done].
Qed.

(** C6: a compaction always comes to an end, without a strategy or with the simple
    or the tiered one. Wherever the calls of the other threads and the steps so
    far have left the compaction thread, running it alone brings it back to the
    start of its loop, without an exception, after at most three steps more than
    entries were ever written, and what the engine stores is the same as before.
    So the wait for the thread in the destructor is over after finitely many
    steps. *)
Theorem compaction_pass_finishes p opts fs capacity es :
  options_ok opts → fs !! manifest_path p = None →
  (∀ o, LsmStorageOptions.compaction_options opts ≠ CompactionOptions.Leveled o) →
  Forall (Threads.admissible (CompactionController.create (LsmStorageOptions.compaction_options opts))) es →
  fits (written (Threads.calls es)) → S (length (written (Threads.calls es))) < loop_fuel →
  (Z.of_nat (length es + length (written (Threads.calls es)) + 4) < 2 ^ 64)%Z →
  ∃ w1 c k w2 s2 g, (s ← open p opts; Threads.perform_all (Threads.Config s Threads.Idle) es) (MkWorld fs (BlockCache.create capacity)) =
      Ok (w1, (c, (Op.meanings ∅ (Threads.calls es)).2)) ∧
    k ≤ length (written (Threads.calls es)) + 3 ∧
    Threads.perform_all c (repeat Threads.Compaction k) w1 = Ok (w2, (Threads.Config s2 Threads.Idle, [])) ∧
    engine_ok g w2 s2 ∧ shown g (state s2) = (Op.meanings ∅ (Threads.calls es)).1.
Proof.
  intros Ho Hf Hc Hadm Hfits Hfuel Hids.
  destruct (open_perform p opts fs capacity es) as (w1 & [[s1 c1] a] & Hrun & g & Hal & Hst & _ & Hsh & Eo & _ & En & Ha); [done..|lia|].
  cbn [Threads.engine Threads.thread fst snd] in *. subst a. pose proof Hal as [_ Ec _ _ _ _].
  destruct (compaction_finishes (length (written (Threads.calls es)) + 3) (written (Threads.calls es)) g w1 s1 c1)
    as (k & w2 & s2 & Hk & Hall & g2 & _ & Hal2 & Hsh2 & _); [done..| |lia|].
  { intros o E. rewrite Ec, Eo in E. destruct (LsmStorageOptions.compaction_options opts) as [x|x|x|] eqn:Eopt; try done. by destruct (Hc x). }
  exists w1, (Threads.Config s1 c1), k, w2, s2, g2. rewrite <-Hsh. split_and!; [done..|apply Hal2|done].
Qed.

(** C5: what was written survives a restart also if a compaction of the simple or
    the tiered strategy ran beside the client. When the passes of the thread are
    over, which is what the destructor waits for, destroying the engine and
    opening the directory again in a new process gives an engine that answers any
    further calls as if nothing had happened. *)
Theorem interleaved_restart_keeps_data p opts fs capacity capacity' es ops (N : nat) :
  options_ok opts → fs !! manifest_path p = None →
  (∀ o, LsmStorageOptions.compaction_options opts ≠ CompactionOptions.Leveled o) →
  Forall (Threads.admissible (CompactionController.create (LsmStorageOptions.compaction_options opts))) es →
  Forall (Op.admissible (CompactionController.create (LsmStorageOptions.compaction_options opts))) ops →
  fits (written (Threads.calls es) ++ written ops) → length (written (Threads.calls es) ++ written ops) < N → N < loop_fuel →
  (Z.of_nat (length es + length ops * N + 4) < 2 ^ 64 - 2)%Z →
  ∃ w1 c w2 data, (s ← open p opts; Threads.perform_all (Threads.Config s Threads.Idle) es) (MkWorld fs (BlockCache.create capacity)) =
      Ok (w1, (c, (Op.meanings ∅ (Threads.calls es)).2)) ∧
    MiniLsm.destroy (Threads.engine c) w1 = Ok (w2, tt) ∧ files w2 !! manifest_path p = Some data ∧
    ((Z.of_nat (length data) < 2 ^ 63)%Z →
     ∃ w3 s3, (s ← open p opts; Op.runs_all s ops) (MkWorld (files w2) (BlockCache.create capacity')) =
       Ok (w3, (s3, (Op.meanings (Op.meanings ∅ (Threads.calls es)).1 ops).2))).
Proof.
  intros Ho Hf Hc Hadm1 Hadm2 Hfits HN Hfuel Hids. rewrite length_app in HN.
  assert (fits (written (Threads.calls es))) as Hfits1 by (eapply fits_submseteq; [|exact Hfits]; by apply submseteq_inserts_r).
  destruct (open_perform p opts fs capacity es) as (w1 & [c a1] & Hrun1 & g & Hal & _ & Hj & Hsh & Eo & Ep & En & Ha);
    [done..|lia|lia|]. simpl in *. subst a1.
  destruct (restart_run (written (Threads.calls es)) g w1 (Threads.engine c)) as (w2 & [] & Hrun2 & data & Hdata & Hopen); [done|done|done|lia|].
  rewrite Eo, Ep in *. exists w1, c, w2, data. split_and!; [done..|]. intros Hlen.
  destruct (Hopen capacity' Hlen) as (w2' & s2 & Hrun3 & g2 & Hal2 & Hsh2 & Eo2 & Ep2 & En2). pose proof Hal2 as [_ Hc2 _ _ _ _].
  destruct (runs_all_step (written (Threads.calls es)) g2 w2' s2 ops N) as (w3 & [s3 a3] & Hrun4 & _ & Ha3);
    [done|by rewrite Hc2, Eo2|done|rewrite length_app; lia|done|lia|].
  exists w3, s3. unfold mbind, eff_bind. rewrite Hrun3, Hrun4. simpl in Ha3. by rewrite Ha3, Hsh2, Hsh.
Qed.

(** C2: every reachable state agrees with its files.  After any schedule of calls
    and of steps of the compaction thread on a new directory (without the leveled
    strategy), wherever the thread stands: ids are unique and below the next one;
    memtables are sorted and can be written to a table; every id of the tree is an
    open table that its file, which exists, opens to; the key ranges of a level are
    disjoint and in order; with logging on, the log of every memtable, mutable or
    frozen, is the file of its id and replays, with what is still buffered, to the
    memtable; and the manifest's records replay to exactly the level-0 list, the
    levels and the memtables, also in the middle of a compaction. *)
Theorem engine_well_formed p opts fs capacity es :
  options_ok opts → fs !! manifest_path p = None →
  (∀ o, LsmStorageOptions.compaction_options opts ≠ CompactionOptions.Leveled o) →
  Forall (Threads.admissible (CompactionController.create (LsmStorageOptions.compaction_options opts))) es →
  fits (written (Threads.calls es)) → S (length (written (Threads.calls es))) < loop_fuel → (Z.of_nat (1 + length es) < 2 ^ 64)%Z →
  ∃ w' c a, (s ← open p opts; Threads.perform_all (Threads.Config s Threads.Idle) es) (MkWorld fs (BlockCache.create capacity)) =
    Ok (w', (c, a)) ∧ well_formed w' (Threads.engine c).
Proof.
  intros Ho Hf Hc Hadm Hfits Hfuel Hids.
  destruct (open_perform p opts fs capacity es) as (w' & [c a] & Hrun & g & Hal & _ & Hj & _); [done..|].
  exists w', c, a. split; [done|]. by eapply engine_ok_well_formed; [apply Hal|].
Qed.

(** C14: a point read answers what the abstract map says.  In every state that
    satisfies the invariant, for any key, [get] returns normally, whatever the
    block cache holds; the answer is the value of the key in the map the state
    stands for, in which the memtables shadow the tables, newer tables older
    ones and tombstones hide what is below, and the empty string if the key is
    not there.  No assertion fires, nothing is read out of bounds, and the
    invariant still holds; the files are untouched. *)
Theorem get_correct g w s key : engine_ok g w s →
  ∃ w', get s key w = Ok (w', default [] (shown g (state s) !! key)) ∧
    engine_ok g w' s ∧ files w' = files w.
Proof.
  intros Hok. destruct (get_spec g w s key Hok) as (w' & v & Hrun & Hsame & ->).
  exists w'. split; [done|]. split; [by eapply engine_same_files|apply Hsame].
Qed.

(** C15: a range read yields the abstract map restricted to the range.  In every
    state that satisfies the invariant, for any bounds, [scan] returns an
    iterator, and draining it yields exactly the live entries between the bounds,
    in key order, each once, with their newest values.  The fuel of the loops
    suffices as soon as it exceeds the number of keys, tombstones included. *)
Theorem scan_correct g w s lower upper n : engine_ok g w s →
  size (contents g (state s)) < loop_fuel → size (contents g (state s)) < n →
  ∃ w', on_cache (it ← scan s lower upper; collect n it) w =
      Ok (w', filter (λ e, in_range lower upper e.1) (entries (shown g (state s)))) ∧
    engine_ok g w' s ∧ files w' = files w.
Proof.
  intros Hok Hfuel Hn. destruct (scan_collect_spec g w s lower upper n Hok Hfuel Hn) as (w' & r & Hrun & Hsame & ->).
  exists w'. split; [done|]. split; [by eapply engine_same_files|apply Hsame].
Qed.

(** C16: a write updates exactly its key.  In every state that satisfies the
    invariant, putting a key and value that fit the formats succeeds, also when
    it makes the memtable reach its target size and freezes it; the map of the
    new state is the old one with the key set.  Deleting a key removes exactly
    that key.  The invariant, and with it the log of the memtable, is kept. *)
Theorem write_correct g w s k v :
  engine_ok g w s → kv_ok (k, v) → v ≠ [] → (Z.of_nat (next_sst_id s) < 2 ^ 64)%Z →
  (∃ w' s', put s k v w = Ok (w', s') ∧ engine_ok g w' s' ∧ shown g (state s') = <[k := v]> (shown g (state s))) ∧
  (∃ w' s', del s k w = Ok (w', s') ∧ engine_ok g w' s' ∧ shown g (state s') = delete k (shown g (state s))).
Proof.
  intros Hok Hkv Hv Hroom. split.
  - destruct (put_spec g w s k v Hok Hkv Hroom) as (w' & s' & Hrun & Hok' & Hc & _). exists w', s'.
    split_and!; [done..|]. unfold shown. by rewrite Hc, visible_insert, decide_False.
  - destruct (put_spec g w s k [] Hok) as (w' & s' & Hrun & Hok' & Hc & _);
      [split_and!; [apply Hkv..|done]|done|]. exists w', s'.
    split_and!; [done..|]. unfold shown. by rewrite Hc, visible_insert, decide_True.
Qed.

(** C17: freezing and flushing move data without changing it.  In every state
    that satisfies the invariant, [force_freeze_memtable] on a memtable that is
    not empty and [force_flush_next_imm_memtable] on data that fits a table file
    succeed, keep the invariant and leave the map of the state as it is; flushing
    removes one immutable memtable if there is one, and the new table is the
    newest one of the tree. *)
Theorem freeze_flush_correct g w s :
  engine_ok g w s → (Z.of_nat (next_sst_id s) < 2 ^ 64)%Z →
  MemTable.map_ (LsmStorageState.memtable (state s)) ≠ [] →
  Forall (λ m, fits (MemTable.map_ m)) (LsmStorageState.imm_memtables (state s)) →
  (∃ w' s', force_freeze_memtable s w = Ok (w', s') ∧ engine_ok g w' s' ∧ shown g (state s') = shown g (state s) ∧
     MemTable.map_ (LsmStorageState.memtable (state s')) = [] ∧
     LsmStorageState.imm_memtables (state s') = LsmStorageState.memtable (state s) :: LsmStorageState.imm_memtables (state s)) ∧
  (∃ g' w' s', force_flush_next_imm_memtable s w = Ok (w', s') ∧ g ⊆ g' ∧ engine_ok g' w' s' ∧
     shown g' (state s') = shown g (state s) ∧
     length (LsmStorageState.imm_memtables (state s')) = length (LsmStorageState.imm_memtables (state s)) - 1 ∧
     (LsmStorageState.imm_memtables (state s) ≠ [] → ∃ id, ids_of (state s') = id :: ids_of (state s))).
Proof.
  intros Hok Hroom Hne Hfits. split.
  - destruct (freeze_spec g w s Hok Hne Hroom) as (w' & s' & Hrun & Hok' & _ & _ & _ & m & _ & Hm & Hst).
    exists w', s'. unfold shown. rewrite Hst. split_and!; [done|done| |done|done]. by rewrite contents_frozen.
  - destruct (flush_spec g w s Hok Hroom) as (w' & s' & Hrun & Hres).
    { intros m [l E]%last_Some. rewrite E in Hfits. apply Forall_app in Hfits as [_ Hf]. by apply Forall_inv in Hf. }
    destruct (flush_contents g w s w' s' Hok Hres) as (g' & Hg & Hok' & Hc).
    exists g', w', s'. unfold shown. rewrite Hc. split_and!; [done..| |].
    + destruct Hres as [(E & -> & _)|(imms & m & t & kvss & E & Hst & _)]; [by rewrite E|].
      destruct (flushed_memtables s (MemTable.id_ m) t imms m E) as [Em _]. rewrite <-Hst in Em.
      injection Em as _ ->. rewrite E, length_app. simpl. lia.
    + intros Hi. destruct Hres as [(E & _)|(imms & m & t & kvss & E & Hst & _)]; [done|].
      exists (MemTable.id_ m). rewrite Hst. apply flushed_ids, (eo_tiers _ _ _ Hok).
Qed.

(** C13: a triggered compaction changes nothing that reads can see.  In every
    state that satisfies the invariant, under any strategy and with levels of its
    shape, if the data fits the formats and there are ids left (and, under the
    leveled strategy, a task of level 0 skips empty levels only),
    [trigger_compaction] succeeds: the task is generated, its tables are read,
    merged and written, no assertion of the controller fires, the new structure
    is installed and recorded, and the old files are removed.  The map of the
    state, the memtables, the invariant and the shape are what they were, and the
    tree holds no entry it did not hold before. *)
Theorem trigger_compaction_correct g w s : engine_ok g w s → affordable g s →
  shape (compaction_controller s) (state s) →
  (∀ o, compaction_controller s = CompactionController.Leveled o → leveled_safe o (state s)) →
  ∃ g' w' s' b, trigger_compaction s w = Ok (w', (s', b)) ∧ g ⊆ g' ∧ engine_ok g' w' s' ∧
    shown g' (state s') = shown g (state s) ∧ shape (compaction_controller s') (state s') ∧
    memtables (state s') = memtables (state s) ∧
    level_entries g' (ids_of (state s')) ⊆+ level_entries g (ids_of (state s)).
Proof.
  intros Hok Haf Hsh Hsafe. destruct (trigger_shape g w s Hok Haf Hsh Hsafe) as (w' & [s' b] & Hrun & G & new & [] & _ & Hsh' & _).
  exists G, w', s', b. destruct mv_evolves. simpl in *. split_and!; try done. by rewrite ev_controller.
Qed.

(** C18: a full compaction merges everything into one level and drops every
    tombstone.  Without a strategy, in every state that satisfies the invariant,
    [force_full_compaction] succeeds and changes nothing that reads can see;
    afterwards level 0 is empty, the one level is a run of the new tables, and
    what they hold is exactly the live part of what the tables held before.
    Under a strategy the call throws and does nothing. *)
Theorem full_compaction_correct g w s x l1 : engine_ok g w s → affordable g s →
  LsmStorageState.levels (state s) = [(x, l1)] →
  (LsmStorageOptions.compaction_options (options s) = CompactionOptions.NoCompaction →
   ∃ g' w' s' l1', force_full_compaction s w = Ok (w', s') ∧ engine_ok g' w' s' ∧
     shown g' (state s') = shown g (state s) ∧
     LsmStorageState.l0_sstables (state s') = [] ∧ LsmStorageState.levels (state s') = [(x, l1')] ∧
     kv_map (level_entries g' l1') = visible (stored (content g) (ids_of (state s)))) ∧
  (LsmStorageOptions.compaction_options (options s) ≠ CompactionOptions.NoCompaction →
   ∃ e, force_full_compaction s w = Err (Exn e)).
Proof.
  intros Hok Haf Hlv. split.
  - intros Hopt. destruct (full_spec g w s x l1 Hok Haf Hopt Hlv) as (w' & s' & Hrun & G & outs & [] & _ & Hl0 & Hlv' & Hst).
    exists G, w', s', (out_ids outs). split_and!; try done. rewrite <-Hst, stored_level. f_equal.
    unfold ids_of. rewrite Hl0, Hlv', level_ids_cons. cbn. by rewrite app_nil_r.
  - intros Hopt. unfold force_full_compaction. destruct (LsmStorageOptions.compaction_options (options s)); [by eexists..|done].
Qed.

(** C19: closing writes everything out and terminates.  Without logs, [close]
    freezes the memtable if it is not empty and flushes until no immutable
    memtable is left; the loop ends within one round per memtable.  Afterwards
    every key is in a table file, no memtable holds anything, and the map of the
    state is the same. *)
Theorem close_correct h g w s : alive h g w s → fits h → (Z.of_nat (next_sst_id s) < 2 ^ 64 - 1)%Z →
  LsmStorageOptions.enable_wal (options s) = false →
  ∃ g' w' s', MiniLsm.close s w = Ok (w', s') ∧ engine_ok g' w' s' ∧
    shown g' (state s') = shown g (state s) ∧ drained (state s').
Proof.
  intros Hal Hfits Hroom Hwal. destruct (close_step_spec h g w s Hal Hfits Hroom) as (w' & s' & Hrun & (g' & _ & Hal' & Hsh & _) & Hd).
  exists g', w', s'. split_and!; [done|apply Hal'|done|by apply Hd].
Qed.

(** C20: the manifest describes the structure at every moment.  After any calls
    on a new directory the manifest file is the frames of some records, and
    replaying them as [open] does yields exactly the level-0 list and the levels
    of the engine and the ids of its memtables in ascending order, and a counter
    that no id in use exceeds. *)
Theorem manifest_describes_structure p opts fs capacity ops (N : nat) :
  options_ok opts → fs !! manifest_path p = None →
  Forall (Op.admissible (CompactionController.create (LsmStorageOptions.compaction_options opts))) ops →
  fits (written ops) → length (written ops) < N → N < loop_fuel → (Z.of_nat (1 + length ops * N) < 2 ^ 64)%Z →
  ∃ w' s' a rs st n, (s ← open p opts; Op.runs_all s ops) (MkWorld fs (BlockCache.create capacity)) = Ok (w', (s', a)) ∧
    files w' !! manifest_path p = Some (ManifestSpec.frames rs) ∧
    replay_records (compaction_controller s') (LsmStorageState.create opts, 1, []) rs = Ok (st, n, rev (mem_ids (state s'))) ∧
    LsmStorageState.l0_sstables st = LsmStorageState.l0_sstables (state s') ∧
    LsmStorageState.levels st = LsmStorageState.levels (state s') ∧
    (∀ id, id ∈ mem_ids (state s') ∨ id ∈ ids_of (state s') → id ≤ n).
Proof.
  intros Ho Hf Hadm Hfits HN Hfuel Hids.
  destruct (open_run p opts fs capacity ops N) as (w' & [s' a] & Hrun & g & _ & (rs & st & n & (m & _ & Ep' & _ & Hfile) & _ & []) & _ & Eo & Ep & _);
    [done..|]. simpl in *. exists w', s', a, rs, st, n. rewrite Ep', Ep in Hfile. destruct rp_same as [E1 E2].
  split_and!; [done|done|by rewrite <-Eo|done|done|done].
Qed.
End properties.

(** ** An engine to apply the theorems to *)
(** A closed decidable fact, by evaluation. *)
Ltac demo_decide := apply (bool_decide_unpack _); vm_compute; exact I.

Section demo.
#[local] Existing Instance demo_zlib.
#[local] Existing Instance demo_snappy.
#[local] Existing Instance demo_snappy_laws.
#[local] Existing Instance demo_snappy_bound.
#[local] Existing Instance demo_farmhash.
#[local] Existing Instance demo_libm.
#[local] Existing Instance demo_json.
#[local] Existing Instance demo_json_laws.
#[local] Instance demo_fuel : LoopFuel := 20.
Import LsmStorageInner.

(** Memtables of four bytes, two tables in level 0 before it is compacted. *)
Definition demo_options (c : CompactionOptions.t) (wal : bool) : LsmStorageOptions.t :=
  LsmStorageOptions.mk 4096 4 1 c wal false None_.
Definition demo_simple : CompactionOptions.t := CompactionOptions.Simple (SimpleLeveledCompactionOptions.mk 200 2 3).
Definition demo_leveled : CompactionOptions.t := CompactionOptions.Leveled (LeveledCompactionOptions.mk 2 2 3 1).
Definition demo_ops : list Op.t :=
  [Op.Put [x61] [x01]; Op.Put [x62] [x02]; Op.Delete [x61]; Op.TriggerFlush; Op.Put [x63] [x03; x03]; Op.TriggerFlush; Op.Put [x64] [x04]].
(** Two more writes leave an immutable memtable behind. *)
Definition demo_more : list Op.t := [Op.Put [x65] [x05; x05]; Op.Put [x66] [x06]].
(** The background thread compacts, then the client reads. *)
Definition demo_reads : list Op.t :=
  [Op.TriggerCompaction; Op.Get [x62]; Op.Get [x61]; Op.Scan (Included [x62]) Unbounded; Op.Sync; Op.ForceFlush].

Lemma demo_sized n : 0 < n ≤ 8 → sized n.
Proof.
  intros Hn. exists 10%Z. split; [|lia].
  assert (n = 1 ∨ n = 2 ∨ n = 3 ∨ n = 4 ∨ n = 5 ∨ n = 6 ∨ n = 7 ∨ n = 8) as Hc by lia.
  repeat destruct Hc as [->|Hc]; [..|subst n]; vm_compute; reflexivity.
Qed.
Lemma demo_fits h : length h ≤ 8 → (Z.of_nat (footprint h) < 10000)%Z → fits h.
Proof. intros Hl Hf. split; [intros n Hn; apply demo_sized; lia|lia]. Qed.

Lemma demo_options_ok c wal : c = CompactionOptions.NoCompaction ∨ c = demo_simple ∨ c = demo_leveled →
  options_ok (demo_options c wal).
Proof. intros [->|[->| ->]]; (split; [apply (bool_decide_unpack _); vm_compute; exact I|]); repeat split; simpl; lia. Qed.

Ltac demo_admissible := repeat constructor; try done; demo_decide.

(** The engine after [demo_ops]. *)
Definition demo_run c (wal : bool) (ops : list Op.t) : res (World * (LsmStorageInner.t * list Op.answer)) :=
  (s ← open "db" (demo_options c wal); Op.runs_all s ops) (MkWorld ∅ (BlockCache.create 4)).

Definition demo_good c (ops : list Op.t) : Prop :=
  (c = CompactionOptions.NoCompaction ∨ c = demo_simple ∨ c = demo_leveled) ∧
  Forall (Op.admissible (CompactionController.create c)) ops ∧
  length (written ops) ≤ 8 ∧ (Z.of_nat (footprint (written ops)) < 10000)%Z ∧ length ops ≤ 20.

Lemma demo_engine c wal ops : demo_good c ops → ∃ w s a g, demo_run c wal ops = Ok (w, (s, a)) ∧ alive (written ops) g w s ∧
  shown g (state s) = (Op.meanings ∅ ops).1 ∧ options s = demo_options c wal ∧ next_sst_id s ≤ 201 ∧
  fits (written ops) ∧ affordable g s.
Proof.
  intros (Hc & Hadm & Hlen & Hsize & Hcalls). pose proof (demo_fits (written ops) Hlen Hsize) as Hfits.
  destruct (open_run "db" (demo_options c wal) ∅ 4 ops 10) as (w & [s a] & Hrun & g & Hal & _ & Hsh & Eo & _ & En & _);
    [by apply demo_options_ok|done|done|done|lia|by apply (bool_decide_unpack _)|lia|].
  simpl in *. exists w, s, a, g. split_and!; [done..|lia|done|].
  apply (alive_affordable (written ops) g w s); [done|done|vm_compute loop_fuel; lia|lia].
Qed.

(** A fact about that engine, by computation. *)
Lemma demo_fact c wal ops w s a (P : LsmStorageInner.t → bool) : demo_run c wal ops = Ok (w, (s, a)) →
  match demo_run c wal ops with Ok (_, (s, _)) => P s | Err _ => false end = true → P s = true.
Proof. by intros ->. Qed.

Lemma demo_good_none : demo_good CompactionOptions.NoCompaction demo_ops.
Proof. split_and!; [by left|demo_admissible|demo_decide..]. Qed.
Lemma demo_good_leveled : demo_good demo_leveled demo_ops.
Proof. split_and!; [by right; right|demo_admissible|demo_decide..]. Qed.
Lemma demo_good_simple : demo_good demo_simple demo_ops.
Proof. split_and!; [by right; left|demo_admissible|demo_decide..]. Qed.
Lemma demo_good_more : demo_good CompactionOptions.NoCompaction (demo_ops ++ demo_more).
Proof. split_and!; [by left|demo_admissible|demo_decide..]. Qed.

Example demo_shape :
  match demo_run CompactionOptions.NoCompaction false (demo_ops ++ demo_more) with
  | Ok (_, (s, _)) => bool_decide (
      MemTable.map_ (LsmStorageState.memtable (state s)) = [([x66], [x06])] ∧
      (MemTable.map_ <$> LsmStorageState.imm_memtables (state s)) = [[([x64], [x04]); ([x65], [x05; x05])]] ∧
      LsmStorageState.l0_sstables (state s) = [1; 0])
  | Err _ => false
  end = true.
Proof. vm_compute. reflexivity. Qed.

Lemma engine_refines_map_witness : ∃ w' s' g,
  demo_run demo_simple true (demo_ops ++ demo_reads) =
    Ok (w', (s', [Op.Done; Op.Done; Op.Done; Op.Done; Op.Done; Op.Done; Op.Done; Op.Done; Op.Found [x02]; Op.Found [];
      Op.Range [([x62], [x02]); ([x63], [x03; x03]); ([x64], [x04])]; Op.Done; Op.Done])) ∧
  engine_ok g w' s' ∧ shown g (state s') = (Op.meanings ∅ demo_ops).1.
Proof.
  destruct (engine_refines_map "db" (demo_options demo_simple true) ∅ 4 (demo_ops ++ demo_reads) 10) as (w' & s' & g & Hrun & Hok & Hsh).
  - apply demo_options_ok. by right; left.
  - done.
  - demo_admissible.
  - apply demo_fits; demo_decide.
  - demo_decide.
  - demo_decide.
  - demo_decide.
  - exists w', s', g. split; [|split; [exact Hok|]].
    + unfold demo_run. rewrite Hrun. refine (f_equal (λ a, Ok (w', (s', a))) _). vm_compute. reflexivity.
    + rewrite Hsh. demo_decide.
Defined.

(** The manifest of the run is far below the largest readable size. *)
Definition demo_short (w : World) : bool :=
  match files w !! manifest_path "db" with Some data => (Z.of_nat (length data) <? 2 ^ 63)%Z | None => false end.

Lemma demo_short_spec w data : files w !! manifest_path "db" = Some data → demo_short w = true → (Z.of_nat (length data) < 2 ^ 63)%Z.
Proof. unfold demo_short. intros ->. apply Z.ltb_lt. Qed.

Lemma restart_keeps_data_witness : ∃ w1 s1 w2 w3 s3,
  demo_run CompactionOptions.NoCompaction true demo_ops = Ok (w1, (s1, repeat Op.Done 7)) ∧ MiniLsm.destroy s1 w1 = Ok (w2, tt) ∧
  (s ← open "db" (demo_options CompactionOptions.NoCompaction true); Op.runs_all s demo_reads) (MkWorld (files w2) (BlockCache.create 4)) =
    Ok (w3, (s3, [Op.Done; Op.Found [x02]; Op.Found []; Op.Range [([x62], [x02]); ([x63], [x03; x03]); ([x64], [x04])]; Op.Done; Op.Done])).
Proof.
  destruct (restart_keeps_data "db" (demo_options CompactionOptions.NoCompaction true) ∅ 4 4 demo_ops demo_reads 10)
    as (w1 & s1 & w2 & data & Hrun & Hclose & Hdata & Hopen).
  - apply demo_options_ok. by left.
  - done.
  - demo_admissible.
  - apply demo_fits; demo_decide.
  - demo_decide.
  - demo_decide.
  - demo_decide.
  - destruct Hopen as (w3 & s3 & Hreopen).
    { assert (match (p ← (s ← open "db" (demo_options CompactionOptions.NoCompaction true); Op.runs_all s demo_ops);
          MiniLsm.destroy p.1) (MkWorld ∅ (BlockCache.create 4)) with
        | Ok (w, _) => demo_short w
        | Err _ => false end = true) as Hlen by (vm_compute; reflexivity).
      unfold mbind, eff_bind in *. destruct (open _ _ _) as [[w0 s0]|]; [|done]. rewrite Hrun in Hlen. cbn [fst] in Hlen.
      rewrite Hclose in Hlen. by apply (demo_short_spec w2). }
    exists w1, s1, w2, w3, s3. split; [exact Hrun|split; [exact Hclose|]]. rewrite Hreopen. refine (f_equal (λ a, Ok (w3, (s3, a))) _). vm_compute. reflexivity.
Defined.

Lemma demo_key : kv_ok ([x7a], [x01; x02]).
Proof. demo_decide. Qed.

Lemma get_correct_witness : ∃ w s a w', demo_run CompactionOptions.NoCompaction false demo_ops = Ok (w, (s, a)) ∧
  get s [x62] w = Ok (w', [x02]).
Proof.
  destruct (demo_engine CompactionOptions.NoCompaction false demo_ops demo_good_none) as (w & s & a & g & Hrun & Hal & Hsh & _).
  destruct (get_correct g w s [x62]) as (w' & Hget & _); [apply Hal|]. exists w, s, a, w'. split; [exact Hrun|].
  rewrite Hget, Hsh. exact eq_refl.
Defined.

Lemma scan_correct_witness : ∃ w s a w', demo_run CompactionOptions.NoCompaction false demo_ops = Ok (w, (s, a)) ∧
  on_cache (it ← scan s (Excluded [x61]) (Included [x63]); collect 10 it) w = Ok (w', [([x62], [x02]); ([x63], [x03; x03])]).
Proof.
  destruct (demo_engine CompactionOptions.NoCompaction false demo_ops demo_good_none) as (w & s & a & g & Hrun & Hal & Hsh & _).
  pose proof (stock_size _ _ _ _ Hal) as Hsize. change (length (written demo_ops)) with 5 in Hsize.
  destruct (scan_correct g w s (Excluded [x61]) (Included [x63]) 10) as (w' & Hscan & _); [apply Hal|vm_compute loop_fuel; lia|lia|].
  exists w, s, a, w'. split; [exact Hrun|]. rewrite Hscan, Hsh. refine (f_equal (λ r, Ok (w', r)) _). demo_decide.
Defined.

Lemma write_correct_witness : ∃ g w s a, demo_run CompactionOptions.NoCompaction true demo_ops = Ok (w, (s, a)) ∧
  (∃ w' s', put s [x7a] [x01; x02] w = Ok (w', s') ∧ engine_ok g w' s' ∧
     shown g (state s') = <[[x7a] := [x01; x02]]> (shown g (state s))) ∧
  (∃ w' s', del s [x7a] w = Ok (w', s') ∧ engine_ok g w' s' ∧ shown g (state s') = delete [x7a] (shown g (state s))).
Proof.
  destruct (demo_engine CompactionOptions.NoCompaction true demo_ops demo_good_none) as (w & s & a & g & Hrun & Hal & _ & _ & Hn & _).
  exists g, w, s, a. split; [exact Hrun|]. apply write_correct; [apply Hal|apply demo_key|done|lia].
Defined.

(** The memtable holds [d], an immutable one [e]. *)
Lemma freeze_flush_correct_witness : ∃ g w s a, demo_run CompactionOptions.NoCompaction true (demo_ops ++ demo_more) = Ok (w, (s, a)) ∧
  LsmStorageState.imm_memtables (state s) ≠ [] ∧
  (∃ w' s', force_freeze_memtable s w = Ok (w', s') ∧ shown g (state s') = shown g (state s) ∧
     length (LsmStorageState.imm_memtables (state s')) = 2) ∧
  (∃ g' w' s', force_flush_next_imm_memtable s w = Ok (w', s') ∧ shown g' (state s') = shown g (state s) ∧
     LsmStorageState.imm_memtables (state s') = []).
Proof.
  destruct (demo_engine CompactionOptions.NoCompaction true (demo_ops ++ demo_more) demo_good_more)
    as (w & s & a & g & Hrun & Hal & _ & _ & Hn & Hfits & _).
  assert (MemTable.map_ (LsmStorageState.memtable (state s)) ≠ [] ∧ length (LsmStorageState.imm_memtables (state s)) = 1) as [Hne Hi].
  { apply (bool_decide_eq_true _), (demo_fact _ true (demo_ops ++ demo_more) w s a (λ s, bool_decide _) Hrun). vm_compute. exact eq_refl. }
  destruct (freeze_flush_correct g w s) as [(w1 & s1 & Hrun1 & _ & Hsh1 & _ & E1) (g2 & w2 & s2 & Hrun2 & _ & _ & Hsh2 & E2 & _)];
    [apply Hal|lia|exact Hne| |].
  - by eapply fits_imms.
  - exists g, w, s, a. split; [exact Hrun|]. split; [by intros E; rewrite E in Hi|]. split.
    + exists w1, s1. split; [exact Hrun1|]. split; [exact Hsh1|]. rewrite E1, length_cons, Hi. exact eq_refl.
    + exists g2, w2, s2. rewrite Hi in E2. split; [exact Hrun2|]. split; [exact Hsh2|]. by apply length_zero_iff_nil.
Defined.

Definition demo_leveled_options : LeveledCompactionOptions.t := LeveledCompactionOptions.mk 2 2 3 1.

(** Two tables of level 0 go to the bottom level. *)
Lemma trigger_compaction_correct_witness : ∃ g w s a, demo_run demo_leveled false demo_ops = Ok (w, (s, a)) ∧
  LeveledCompactionController.generate_compaction_task demo_leveled_options (state s) =
    Ok (Some (LeveledCompactionTask.mk None [1; 0] 3 [] true)) ∧
  ∃ g' w' s' b, trigger_compaction s w = Ok (w', (s', b)) ∧ engine_ok g' w' s' ∧ shown g' (state s') = shown g (state s).
Proof.
  destruct (demo_engine demo_leveled false demo_ops demo_good_leveled) as (w & s & a & g & Hrun & Hal & _ & Eo & _ & _ & Haf).
  pose proof Hal as [Hok Hc Hshape _ _ _].
  assert (LeveledCompactionController.generate_compaction_task demo_leveled_options (state s) =
    Ok (Some (LeveledCompactionTask.mk None [1; 0] 3 [] true)) ∧
    Forall (λ lv, lv.2 = []) (take 2 (LsmStorageState.levels (state s)))) as [Htask Hempty].
  { apply (bool_decide_eq_true _), (demo_fact _ false demo_ops w s a (λ s, bool_decide _) Hrun). vm_compute. exact eq_refl. }
  destruct (trigger_compaction_correct g w s Hok Haf Hshape) as (g' & w' & s' & b & Hrun' & _ & Hok' & Hsh & _).
  - intros o Ho. rewrite Hc, Eo in Ho. injection Ho as <-. intros task E _. unfold demo_leveled_options in Htask. rewrite Htask in E.
    injection E as <-. exact Hempty.
  - exists g, w, s, a. split; [exact Hrun|]. split; [exact Htask|]. exists g', w', s', b. split; [exact Hrun'|]. split; [exact Hok'|exact Hsh].
Defined.

Lemma full_compaction_correct_witness : ∃ g w s a, demo_run CompactionOptions.NoCompaction false demo_ops = Ok (w, (s, a)) ∧
  LsmStorageState.l0_sstables (state s) = [1; 0] ∧
  ∃ g' w' s', force_full_compaction s w = Ok (w', s') ∧ shown g' (state s') = shown g (state s) ∧
    LsmStorageState.l0_sstables (state s') = [].
Proof.
  destruct (demo_engine CompactionOptions.NoCompaction false demo_ops demo_good_none) as (w & s & a & g & Hrun & Hal & _ & Eo & _ & _ & Haf).
  assert (LsmStorageState.l0_sstables (state s) = [1; 0] ∧ LsmStorageState.levels (state s) = [(1, [])]) as [Hl0 Hlv].
  { apply (bool_decide_eq_true _), (demo_fact _ false demo_ops w s a (λ s, bool_decide _) Hrun). vm_compute. exact eq_refl. }
  destruct (full_compaction_correct g w s 1 []) as [Hnone _]; [apply Hal|exact Haf|exact Hlv|].
  destruct Hnone as (g' & w' & s' & l1' & Hrun' & _ & Hsh & Hl0' & _); [by rewrite Eo|].
  exists g, w, s, a. split; [exact Hrun|]. split; [exact Hl0|]. exists g', w', s'. split; [exact Hrun'|]. split; [exact Hsh|exact Hl0'].
Defined.

Lemma close_correct_witness : ∃ g w s a, demo_run CompactionOptions.NoCompaction false demo_ops = Ok (w, (s, a)) ∧
  ∃ g' w' s', MiniLsm.close s w = Ok (w', s') ∧ engine_ok g' w' s' ∧ shown g' (state s') = shown g (state s) ∧ drained (state s').
Proof.
  destruct (demo_engine CompactionOptions.NoCompaction false demo_ops demo_good_none)
    as (w & s & a & g & Hrun & Hal & _ & Eo & Hn & Hfits & _).
  exists g, w, s, a. split; [exact Hrun|]. apply (close_correct (written demo_ops)); [exact Hal|exact Hfits|lia|by rewrite Eo].
Defined.

Lemma manifest_describes_structure_witness : ∃ w s a rs st n, demo_run demo_simple true (demo_ops ++ demo_reads) = Ok (w, (s, a)) ∧
  files w !! manifest_path "db" = Some (ManifestSpec.frames rs) ∧
  replay_records (compaction_controller s) (LsmStorageState.create (demo_options demo_simple true), 1, []) rs = Ok (st, n, rev (mem_ids (state s))) ∧
  LsmStorageState.levels st = LsmStorageState.levels (state s).
Proof.
  destruct (manifest_describes_structure "db" (demo_options demo_simple true) ∅ 4 (demo_ops ++ demo_reads) 10)
    as (w & s & a & rs & st & n & Hrun & Hfile & Hreplay & _ & Hlv & _).
  - apply demo_options_ok. by right; left.
  - done.
  - demo_admissible.
  - apply demo_fits; demo_decide.
  - demo_decide.
  - demo_decide.
  - demo_decide.
  - exists w, s, a, rs, st, n. split; [exact Hrun|]. split; [exact Hfile|]. split; [exact Hreplay|exact Hlv].
Defined.

Import Threads.

(** A compaction beside puts, gets and a flush. *)
Definition demo_schedule : list event :=
  (Call <$> demo_ops) ++ [Compaction; Compaction; Call (Op.Put [x65] [x05; x05]); Compaction; Call Op.TriggerFlush; Compaction;
   Call (Op.Get [x62]); Compaction; Call (Op.Put [x66] [x06]); Compaction; Call (Op.Get [x61]); Compaction].

Lemma demo_schedule_admissible : Forall (admissible (CompactionController.create demo_simple)) demo_schedule.
Proof. repeat constructor; try done; demo_decide. Qed.

(** The thread has installed its output below a table that was flushed meanwhile. *)
Example demo_schedule_shape :
  match (s ← open "db" (demo_options demo_simple true); perform_all (Config s Idle) demo_schedule) (MkWorld ∅ (BlockCache.create 4)) with
  | Ok (_, (c, _)) => bool_decide (LsmStorageState.l0_sstables (state (engine c)) = [2] ∧
      LsmStorageState.levels (state (engine c)) = [(1, [4]); (2, []); (3, [])]) &&
      match thread c with Idle => true | _ => false end
  | Err _ => false
  end = true.
Proof. vm_compute. reflexivity. Qed.

Lemma interleavings_refine_map_witness : ∃ w' c g,
  (s ← open "db" (demo_options demo_simple true); perform_all (Config s Idle) demo_schedule) (MkWorld ∅ (BlockCache.create 4)) =
    Ok (w', (c, repeat Op.Done 9 ++ [Op.Found [x02]; Op.Done; Op.Found []])) ∧ engine_ok g w' (engine c).
Proof.
  destruct (interleavings_refine_map "db" (demo_options demo_simple true) ∅ 4 demo_schedule) as (w' & c & g & Hrun & Hok & _).
  - apply demo_options_ok. by right; left.
  - done.
  - done.
  - apply demo_schedule_admissible.
  - apply demo_fits; demo_decide.
  - demo_decide.
  - demo_decide.
  - exists w', c, g. split; [|exact Hok]. rewrite Hrun. refine (f_equal (λ a, Ok (w', (c, a))) _). vm_compute. reflexivity.
Defined.

Lemma engine_well_formed_witness : ∃ w' c a,
  (s ← open "db" (demo_options demo_simple true); perform_all (Config s Idle) demo_schedule) (MkWorld ∅ (BlockCache.create 4)) = Ok (w', (c, a)) ∧
  well_formed w' (engine c).
Proof.
  apply (engine_well_formed "db" (demo_options demo_simple true) ∅ 4 demo_schedule).
  - apply demo_options_ok. by right; left.
  - done.
  - done.
  - apply demo_schedule_admissible.
  - apply demo_fits; demo_decide.
  - demo_decide.
  - demo_decide.
Defined.

Lemma interleaved_restart_keeps_data_witness : ∃ w1 c w2 w3 s3,
  (s ← open "db" (demo_options demo_simple true); perform_all (Config s Idle) demo_schedule) (MkWorld ∅ (BlockCache.create 4)) =
    Ok (w1, (c, repeat Op.Done 9 ++ [Op.Found [x02]; Op.Done; Op.Found []])) ∧ MiniLsm.destroy (engine c) w1 = Ok (w2, tt) ∧
  (s ← open "db" (demo_options demo_simple true); Op.runs_all s [Op.Get [x65]; Op.Get [x61]]) (MkWorld (files w2) (BlockCache.create 4)) =
    Ok (w3, (s3, [Op.Found [x05; x05]; Op.Found []])).
Proof.
  destruct (interleaved_restart_keeps_data "db" (demo_options demo_simple true) ∅ 4 4 demo_schedule [Op.Get [x65]; Op.Get [x61]] 10)
    as (w1 & c & w2 & data & Hrun & Hclose & Hdata & Hopen).
  - apply demo_options_ok. by right; left.
  - done.
  - done.
  - apply demo_schedule_admissible.
  - by repeat constructor.
  - apply demo_fits; demo_decide.
  - demo_decide.
  - demo_decide.
  - demo_decide.
  - destruct Hopen as (w3 & s3 & Hreopen).
    { assert (match (p ← (s ← open "db" (demo_options demo_simple true); perform_all (Config s Idle) demo_schedule);
          MiniLsm.destroy (engine p.1)) (MkWorld ∅ (BlockCache.create 4)) with
        | Ok (w, _) => demo_short w
        | Err _ => false end = true) as Hlen by (vm_compute; reflexivity).
      unfold mbind, eff_bind in *. destruct (open _ _ _) as [[w0 s0]|]; [|done]. rewrite Hrun in Hlen. cbn [fst] in Hlen.
      rewrite Hclose in Hlen. by apply (demo_short_spec w2). }
    exists w1, c, w2, w3, s3. split; [|split; [exact Hclose|]].
    + rewrite Hrun. refine (f_equal (λ a, Ok (w1, (c, a))) _). vm_compute. reflexivity.
    + rewrite Hreopen. refine (f_equal (λ a, Ok (w3, (s3, a))) _). vm_compute. reflexivity.
Defined.

(** The schedule up to the middle of the merge. *)
Lemma compaction_pass_finishes_witness : ∃ w1 c k w2 s2,
  (s ← open "db" (demo_options demo_simple true); perform_all (Config s Idle) (take 10 demo_schedule)) (MkWorld ∅ (BlockCache.create 4)) =
    Ok (w1, (c, repeat Op.Done 8)) ∧ perform_all c (repeat Compaction k) w1 = Ok (w2, (Config s2 Idle, [])).
Proof.
  destruct (compaction_pass_finishes "db" (demo_options demo_simple true) ∅ 4 (take 10 demo_schedule))
    as (w1 & c & k & w2 & s2 & g & Hrun & Hk & Hall & _).
  - apply demo_options_ok. by right; left.
  - done.
  - done.
  - apply Forall_take, demo_schedule_admissible.
  - apply demo_fits; demo_decide.
  - demo_decide.
  - demo_decide.
  - exists w1, c, k, w2, s2. split; [|exact Hall]. rewrite Hrun. refine (f_equal (λ a, Ok (w1, (c, a))) _). vm_compute. reflexivity.
Defined.

Lemma thread_alone_is_trigger_compaction_witness : ∃ w s w' s' b n,
  CompactionController.generate_compaction_task (compaction_controller s) (state s) ≠ Ok None ∧
  trigger_compaction s w = Ok (w', (s', b)) ∧ perform_all (Config s Idle) (repeat Compaction n) w = Ok (w', (Config s' Idle, [])).
Proof.
  destruct (demo_engine demo_simple true demo_ops demo_good_simple) as (w & s & a & g & Hrun & Hal & _ & Eo & _ & _ & Haf).
  pose proof Hal as [Hok Hc Hshape _ _ _].
  assert (CompactionController.generate_compaction_task (compaction_controller s) (state s) ≠ Ok None) as Htask.
  { apply (bool_decide_eq_true _), (demo_fact _ true demo_ops w s a (λ s, bool_decide _) Hrun). vm_compute. exact eq_refl. }
  destruct (trigger_shape g w s) as (w' & [s' b] & Hrun' & _); [done..| |].
  { intros o Ho. by rewrite Hc, Eo in Ho. }
  destruct (thread_alone_is_trigger_compaction s w w' s' b Hrun') as [n Hn].
  exists w, s, w', s', b, n. split; [exact Htask|]. split; [exact Hrun'|exact Hn].
Defined.
End demo.
