(* ===== verification/LsmWriters.v ===== *)
(** * Concurrent writers: MemTable::put, LsmStorageInner::put

    Several threads put at once.  A put holds [state_mutex] shared, so writers and
    readers are in the engine together; it appends to the log under the log's
    lock, stores into the map under the map's, looks at the size, and a writer
    that saw a full memtable leaves and freezes it, for which [state_mutex] must
    be free of writers.  [write] is what a writer does up to its next lock, and
    [perform_all] runs any schedule of writers, readers and [sync].  A freeze is
    one step: what it does before the exclusive lock, taking an id and creating a
    log under [state_lock], concerns no other thread of the schedule.  Flushes
    are not part of a schedule. *)
From S2P Require Import Prelude Endian Key Iterators Block BlockCache Double Bloom Table Sizes TableIterator Wal MemTable State Layers SimpleLeveled Tiered Leveled Compact Manifest LsmStorage LsmSpec LsmRead LsmWrite LsmGen LsmCompact LsmInstall LsmStrategies LsmLeveled LsmJournal LsmTrace LsmOpen LsmThreads LsmConcurrent LsmEngine.

(** ** Definitions *)
Module Writers.
Import LsmStorageInner.

(** Where a writer stands: before a put, behind the log, behind the map, behind
    the test of the size.  [todo] begins with the put it is in, until that is
    stored. *)
Inductive stage := Ready | Logged | Stored | Freezing.
#[global] Instance stage_eq_dec : EqDecision stage.
Proof. solve_decision. Defined.
Record writer := Writer { at_ : stage; todo : list kv }.
Record config := Config { engine : t; writers : list writer }.

(** The writer holds [state_mutex] shared. *)
Definition shares (x : writer) : bool := match at_ x with Logged | Stored => true | _ => false end.

(** What happens next, and what can be seen of it: a store into the map by a
    writer, the answer of a [get]. *)
Inductive event := Write (i : nat) | Read (key : bytes) | Sync.
Inductive label := Store (i : nat) (e : kv) | Answer (key value : bytes).

Section code.
Context `{!Zlib} `{!Snappy} `{!Farmhash} `{!Libm} `{!Json}.

(** The first half of [MemTable::put], the log; the second is [MemTable.store]. *)
Definition log (m : MemTable.t) (key value : bytes) : MemTable.t * fallible unit :=
  match MemTable.wal_ m with
  | Some wal =>
      let '(wal, res) := Wal.put wal key value in
      (MemTable.mk (MemTable.id_ m) (MemTable.map_ m) (Some wal) (MemTable.approximate_size_ m), res)
  | None => (m, inl tt)
  end.

Definition memtable (s : t) : MemTable.t := LsmStorageState.memtable (state s).

(** One step of writer [i], which is [x]; it waits where it cannot go on. *)
Definition write (s : t) (xs : list writer) (i : nat) (x : writer) : eff World (t * writer * list label) :=
  match at_ x, todo x with
  | Ready, (k, v) :: rest =>
      let '(m, res) := log (memtable s) k v in
      mret (with_memtable s m, match res with inl _ => Writer Logged (todo x) | inr _ => Writer Stored rest end, [])
  | Logged, (k, v) :: rest =>
      mret (with_memtable s (MemTable.store (memtable s) (MemTable.wal_ (memtable s)) k v), Writer Stored rest, [Store i (k, v)])
  | Stored, rest =>
      mret (s, Writer (if decide (LsmStorageOptions.target_sst_size (options s) ≤ MemTable.approximate_size_ (memtable s)) then Freezing else Ready) rest, [])
  | Freezing, rest =>
      if existsb shares xs then mret (s, x, [])
      else s ← force_freeze_memtable s; mret (s, Writer Ready rest, [])
  | _, [] => mret (s, x, [])
  end.

Definition perform (c : config) (e : event) : eff World (config * list label) :=
  match e with
  | Write i =>
      match writers c !! i with
      | Some x => '(s, x, l) ← write (engine c) (writers c) i x; mret (Config s (<[i := x]> (writers c)), l)
      | None => mret (c, [])
      end
  | Read key => v ← get (engine c) key; mret (c, [Answer key v])
  | Sync => s ← sync (engine c); mret (Config s (writers c), [])
  end.

Fixpoint perform_all (c : config) (es : list event) : eff World (config * list label) :=
  match es with
  | [] => mret (c, [])
  | e :: es => '(c, l) ← perform c e; '(c, rest) ← perform_all c es; mret (c, l ++ rest)
  end.
End code.

(** The writers of some programs, before their first put. *)
Definition start (programs : list (list kv)) : list writer := Writer Ready <$> programs.
Definition finished (c : config) : Prop := Forall (λ x, at_ x = Ready ∧ todo x = []) (writers c).

(** What was stored, by all writers and by one, in order. *)
Definition stores (tr : list label) : list kv := omap (λ l, match l with Store _ e => Some e | Answer _ _ => None end) tr.
Definition stores_of (i : nat) (tr : list label) : list kv :=
  omap (λ l, match l with Store j e => if decide (j = i) then Some e else None | Answer _ _ => None end) tr.

(** A put, on a map without tombstones. *)
Definition put_all (m : gmap bytes bytes) (es : list kv) : gmap bytes bytes :=
  foldl (λ m e, (Op.meaning m (Op.Put e.1 e.2)).1) m es.
End Writers.

(** ** The replay of two orders *)
Section replay.
Implicit Types (rs ss fl : list kv).

(** The writes of one key. *)
Definition of_key (k : bytes) rs : list kv := filter (λ e, e.1 = k) rs.

Lemma of_key_app k rs ss : of_key k (rs ++ ss) = of_key k rs ++ of_key k ss.
Proof. apply filter_app. Qed.

Lemma of_key_none k rs : (∀ e, e ∈ rs → e.1 ≠ k) → of_key k rs = [].
Proof. intros H. apply filter_none, Forall_forall. auto. Qed.

Lemma replay_lookup rs k : MemTableSpec.replay rs !! k = snd <$> last (of_key k rs).
Proof.
  induction rs as [|[k' v] rs IH] using rev_ind; [done|]. rewrite MemTableSpec.replay_snoc, of_key_app. unfold of_key at 2.
  rewrite filter_cons, filter_nil. cbn [fst]. case_decide as Hk; [subst; by rewrite lookup_insert_eq, last_snoc|].
  by rewrite app_nil_r, lookup_insert_ne.
Qed.

(** Two orders that agree on each key. *)
Lemma replay_in_order rs ss : (∀ k, of_key k rs = of_key k ss) → MemTableSpec.replay rs = MemTableSpec.replay ss.
Proof. intros H. apply map_eq. intros k. by rewrite !replay_lookup, H. Qed.

Lemma replay_rev (l : list kv) : MemTableSpec.replay (rev l) = kv_map l.
Proof.
  unfold MemTableSpec.replay. induction l as [|[k v] l IH]; [done|]. simpl. by rewrite foldl_app, IH, kv_map_cons.
Qed.
End replay.

(** ** Between the log and the map *)
Section flight.
Import Writers.
Implicit Types (xs : list writer) (x y : writer) (e : kv).

Definition flight x : list kv := match at_ x with Logged => take 1 (todo x) | _ => [] end.
Definition in_flight xs : list kv := xs ≫= flight.

(** Different writers put different keys. *)
Definition separate (programs : list (list kv)) : Prop := ∀ i j p q e e',
  i ≠ j → programs !! i = Some p → programs !! j = Some q → e ∈ p → e' ∈ q → e.1 ≠ e'.1.

Lemma flight_todo x e : e ∈ flight x → e ∈ todo x.
Proof. unfold flight. destruct (at_ x); try by intros ?%not_elem_of_nil. apply (sublist_subseteq _ _ (sublist_take _ _)). Qed.

(** One writer among the others. *)
Lemma in_flight_split xs i x : xs !! i = Some x → ∃ a b, in_flight xs = a ++ flight x ++ b ∧
  (∀ y, in_flight (<[i := y]> xs) = a ++ flight y ++ b) ∧
  (∀ e, e ∈ a ++ b → ∃ j y, j ≠ i ∧ xs !! j = Some y ∧ e ∈ todo y).
Proof.
  intros Hi. pose proof (lookup_lt_Some _ _ _ Hi) as Hlt. exists (in_flight (take i xs)), (in_flight (drop (S i) xs)). unfold in_flight.
  split_and!.
  - rewrite <-(take_drop_middle _ _ _ Hi) at 1. by rewrite bind_app, bind_cons.
  - intros y. by rewrite (insert_take_drop _ _ _ Hlt), bind_app, bind_cons.
  - intros e [He|He]%elem_of_app; apply list_elem_of_bind in He as (y & Hy%flight_todo & (j & Hj)%list_elem_of_lookup).
    + exists j, y. apply lookup_take_Some in Hj as [? ?]. split_and!; [lia|done|done].
    + rewrite lookup_drop in Hj. exists (S i + j), y. split_and!; [lia|done|done].
Qed.

Lemma in_flight_none xs : existsb shares xs = false → in_flight xs = [].
Proof.
  induction xs as [|x xs IH]; [done|]. intros [Hx Hxs]%orb_false_elim. unfold in_flight in *. rewrite bind_cons, IH by done.
  unfold flight, shares in *. by destruct (at_ x).
Qed.

(** A log that holds [rs] against a map that was stored in the order [ss]; [fl] is
    logged and not stored. *)
Definition behind (rs ss fl : list kv) : Prop := rs ≡ₚ ss ++ fl.
Definition in_order (rs ss fl : list kv) : Prop := ∀ k, of_key k rs = of_key k ss ++ of_key k fl.

Lemma behind_logged rs ss a b e : behind rs ss (a ++ b) → behind (rs ++ [e]) ss (a ++ [e] ++ b).
Proof. unfold behind. intros ->. solve_Permutation. Qed.
Lemma behind_stored rs ss a b e : behind rs ss (a ++ [e] ++ b) → behind rs (ss ++ [e]) (a ++ b).
Proof. unfold behind. intros ->. solve_Permutation. Qed.

Lemma in_order_logged rs ss a b e : (∀ e', e' ∈ a ++ b → e'.1 ≠ e.1) → in_order rs ss (a ++ b) → in_order (rs ++ [e]) ss (a ++ [e] ++ b).
Proof.
  intros Hab Ho k. rewrite !of_key_app, Ho, !of_key_app. destruct (decide (e.1 = k)) as [<-|Hne].
  - rewrite (of_key_none e.1 a), (of_key_none e.1 b) by (intros; apply Hab; set_solver). by rewrite !app_nil_r.
  - rewrite (of_key_none k [e]) by (by intros ? ->%list_elem_of_singleton). by rewrite app_nil_r.
Qed.
Lemma in_order_stored rs ss a b e : (∀ e', e' ∈ a ++ b → e'.1 ≠ e.1) → in_order rs ss (a ++ [e] ++ b) → in_order rs (ss ++ [e]) (a ++ b).
Proof.
  intros Hab Ho k. rewrite Ho, !of_key_app. destruct (decide (e.1 = k)) as [<-|Hne].
  - rewrite (of_key_none e.1 a), (of_key_none e.1 b) by (intros; apply Hab; set_solver). by rewrite !app_nil_r.
  - rewrite (of_key_none k [e]) by (by intros ? ->%list_elem_of_singleton). by rewrite !app_nil_r.
Qed.
End flight.

(** ** A memtable under writers *)
Section memtable.
Context `{!Zlib}.
Import Writers.
Implicit Types (w : World) (m : MemTable.t) (rs ss : list kv).

(** The log holds [rs], the map was stored in the order [ss]. *)
Record mem_logged w (enable_wal : bool) (path_of_wal : nat → string) m rs ss : Prop := {
  ml_log : enable_wal = true → MemTable.wal_ m ≠ None;
  ml_sorted : ksorted (MemTable.map_ m);
  ml_entries : Forall kv_ok (MemTable.map_ m);
  ml_map : kv_map (MemTable.map_ m) = MemTableSpec.replay ss;
  ml_wal l : MemTable.wal_ m = Some l → Wal.path_ l = path_of_wal (MemTable.id_ m) ∧ WalSpec.logged l (files w) rs }.

(** Without writers the two are the same. *)
Lemma mem_logged_at w b p m : mem_at w b p m → ∃ rs ss, mem_logged w b p m rs ss ∧ behind rs ss [] ∧ in_order rs ss [].
Proof.
  intros [Hon Hs He Hw]. destruct (MemTable.wal_ m) as [l|] eqn:El.
  - destruct (Hw l eq_refl) as (Hp & rs & Hlog & Hrs). exists rs, rs. split_and!; [|unfold behind; by rewrite app_nil_r|intros k; by rewrite app_nil_r].
    split; [by rewrite El|done|done|done|]. intros ? E. rewrite El in E. by injection E as <-.
  - exists (rev (MemTable.map_ m)), (rev (MemTable.map_ m)). split_and!; [|unfold behind; by rewrite app_nil_r|intros k; by rewrite app_nil_r].
    split; [by rewrite El|done|done|by rewrite replay_rev|by rewrite El].
Qed.

Lemma mem_at_logged w b p m rs ss : mem_logged w b p m rs ss → in_order rs ss [] → mem_at w b p m.
Proof.
  intros [Hon Hs He Hm Hw] Ho. split; [done..|]. intros l Hl. destruct (Hw l Hl) as [Hp Hlog]. split; [done|]. exists rs.
  split; [done|]. rewrite Hm. apply replay_in_order. intros k. specialize (Ho k). by rewrite app_nil_r in Ho.
Qed.

Lemma mem_logged_agree w w' b p m rs ss : mem_logged w b p m rs ss → files w' !! p (MemTable.id_ m) = files w !! p (MemTable.id_ m) → mem_logged w' b p m rs ss.
Proof.
  intros [Hon Hs He Hm Hw] Hf. split; [done..|]. intros l Hl. destruct (Hw l Hl) as (Hp & buf & file & ?). split; [done|].
  exists buf, file. by rewrite Hp, Hf, <-Hp.
Qed.

(** The two halves of a put. *)
Lemma log_spec w b p m rs ss e : mem_logged w b p m rs ss → kv_ok e → ∃ m', log m e.1 e.2 = (m', inl tt) ∧
  mem_logged w b p m' (rs ++ [e]) ss ∧ MemTable.id_ m' = MemTable.id_ m ∧ MemTable.map_ m' = MemTable.map_ m.
Proof.
  intros [Hon Hs He Hm Hw] (_ & Hk & Hv). unfold log. destruct (MemTable.wal_ m) as [l|] eqn:El.
  - destruct (Hw l eq_refl) as [Hp Hlog]. destruct (WalSpec.put_logged l (files w) rs e.1 e.2 Hlog) as (l' & -> & Hlog' & Hp'); [done|].
    eexists. split; [done|]. split_and!; [|done|done]. split; [done..|]. intros ? [= <-]. simpl. rewrite Hp'. split; [done|]. by destruct e.
  - exists m. split_and!; [done| |done|done]. split; [by rewrite El|done|done|done|by rewrite El].
Qed.

Lemma store_spec w b p m rs ss e : mem_logged w b p m rs ss → kv_ok e → let m' := MemTable.store m (MemTable.wal_ m) e.1 e.2 in
  mem_logged w b p m' rs (ss ++ [e]) ∧ MemTable.id_ m' = MemTable.id_ m ∧ kv_map (MemTable.map_ m') = <[e.1 := e.2]> (kv_map (MemTable.map_ m)).
Proof.
  intros [Hon Hs He Hm Hw] Hok m'. assert (ksorted (MemTable.map_ m')) as Hs' by (by apply StdMap.assign_sorted).
  assert (kv_map (MemTable.map_ m') = <[e.1 := e.2]> (kv_map (MemTable.map_ m))) as Hm' by (by apply StdMap.assign_map).
  split_and!; [|done|done]. split; [done|done| | |done].
  - apply Forall_forall. intros [k v] Hin. apply kv_map_lookup in Hin; [|done]. rewrite Hm' in Hin.
    apply lookup_insert_Some in Hin as [[<- <-]|[_ Hin]]; [by destruct e|]. apply kv_map_lookup in Hin; [|done]. by eapply Forall_forall in He.
  - destruct e as [k v]. by rewrite Hm', MemTableSpec.replay_snoc, Hm.
Qed.

(** [MemTable::put] is its two halves. *)
Lemma put_halves m k v : MemTable.put m k v = match log m k v with
  | (m', inl _) => (MemTable.store m' (MemTable.wal_ m') k v, inl tt)
  | (m', inr err) => (m', inr err) end.
Proof. unfold MemTable.put, log. destruct (MemTable.wal_ m) as [l|] eqn:El; [destruct (Wal.put l k v) as [? []]; done|by rewrite El]. Qed.
End memtable.

(** ** The invariant *)
Section writers.
Context `{!Zlib} `{!Snappy} `{!SnappyLaws} `{!SnappyBound} `{!Farmhash} `{!Libm} `{!Json} `{!JsonLaws} `{!LoopFuel}.
Import LsmStorageInner Writers.
Implicit Types (g : ghost) (w : World) (s : LsmStorageInner.t) (xs : list writer) (x y : writer) (tr : list label).

(** The answers of a trace, over the map [m] of its beginning. *)
Definition answered (m : gmap bytes bytes) tr : Prop := ∀ tr1 k v tr2, tr = tr1 ++ Answer k v :: tr2 →
  v = default [] (put_all m (stores tr1) !! k).

Lemma answered_snoc m tr l : answered m tr → (∀ k v, l = Answer k v → v = default [] (put_all m (stores tr) !! k)) → answered m (tr ++ [l]).
Proof.
  intros Ha Hl tr1 k v tr2. destruct tr2 as [|l' tr2 _] using rev_ind.
  - intros [<- [= ->]]%(app_inj_2 _ _ [l] [Answer k v]); [|done]. by apply Hl.
  - rewrite app_comm_cons, (assoc_L (++)). intros [E [= ->]]%(app_inj_2 _ _ [l] [l']); [|done]. by eapply Ha.
Qed.

Lemma stores_app tr tr' : stores (tr ++ tr') = stores tr ++ stores tr'.
Proof. apply omap_app. Qed.
Lemma stores_of_app i tr tr' : stores_of i (tr ++ tr') = stores_of i tr ++ stores_of i tr'.
Proof. apply omap_app. Qed.
Lemma put_all_snoc m es e : put_all m (es ++ [e]) = (Op.meaning (put_all m es) (Op.Put e.1 e.2)).1.
Proof. unfold put_all. by rewrite foldl_app. Qed.

(** Each put may cost an id. *)
Definition cost x : nat := length (todo x) + match at_ x with Stored | Freezing => 1 | _ => 0 end.
Definition pending xs : nat := sum_list_with cost xs.

Lemma pending_insert xs i x y : xs !! i = Some x → pending (<[i := y]> xs) + cost x = pending xs + cost y.
Proof.
  intros Hi. pose proof (lookup_lt_Some _ _ _ Hi) as Hlt. unfold pending. rewrite (insert_take_drop _ _ _ Hlt).
  assert (sum_list_with cost xs = sum_list_with cost (take i xs) + (cost x + sum_list_with cost (drop (S i) xs))) as E.
  { rewrite <-(take_drop_middle _ _ _ Hi) at 1. by rewrite sum_list_with_app. }
  rewrite E, sum_list_with_app. simpl. lia.
Qed.

Lemma pending_member xs i x : xs !! i = Some x → cost x ≤ pending xs.
Proof. intros Hi. pose proof (pending_insert xs i x (Writer Ready []) Hi) as E. change (cost (Writer Ready [])) with 0 in E. lia. Qed.

Lemma pending_start programs : pending (start programs) = sum_list_with length programs.
Proof.
  unfold pending, start. induction programs as [|p ps IH]; [done|]. rewrite fmap_cons. simpl. rewrite IH. unfold cost. cbn [at_ todo]. lia.
Qed.

(** The steps a writer has left, and whether the next one can be taken. *)
Definition weight x : nat := match at_ x with
  | Ready => 4 * length (todo x)
  | Logged => 4 * length (todo x) - 1
  | Stored => 4 * length (todo x) + 2
  | Freezing => 4 * length (todo x) + 1
  end.
Definition can_move xs x : Prop := match at_ x with
  | Ready | Logged => todo x ≠ []
  | Stored => True
  | Freezing => existsb shares xs = false
  end.

(** Some writer can go on, unless all are done. *)
Lemma someone_moves xs : (∀ i x, xs !! i = Some x → at_ x = Logged → todo x ≠ []) →
  Forall (λ x, at_ x = Ready ∧ todo x = []) xs ∨ ∃ i x, xs !! i = Some x ∧ can_move xs x.
Proof.
  intros Hlog. destruct (existsb shares xs) eqn:Hin.
  - right. apply existsb_exists in Hin as (x & (i & Hi)%list_elem_of_In%list_elem_of_lookup & Hx). exists i, x. split; [done|].
    unfold can_move, shares in *. destruct (at_ x) eqn:Ha; try done. by eapply Hlog.
  - destruct (decide (Forall (λ x, at_ x = Ready ∧ todo x = []) xs)) as [|Hn]; [by left|right].
    apply not_Forall_Exists, Exists_exists in Hn as (x & (i & Hi)%list_elem_of_lookup & Hx); [|apply _]. exists i, x. split; [done|].
    unfold can_move. destruct (at_ x) eqn:Ha; [naive_solver|by eapply Hlog|done|done].
Qed.

Section invariant.
Context g s0 (programs : list (list kv)) (n : nat).
Context (Hread : read_ok g (state s0)) (Hprograms : Forall (Forall kv_ok) programs).

#[local] Abbreviation logged_in w s := (mem_logged w (LsmStorageOptions.enable_wal (options s)) (path_of_wal_val s)).

(** A memtable with [fl] between its log and its map. *)
Definition lagging w s (fl : list kv) (m : MemTable.t) : Prop := ∃ rs ss,
  logged_in w s m rs ss ∧ behind rs ss fl ∧ (separate programs → in_order rs ss fl).

(** The structure that writers leave alone. *)
Record kept s : Prop := {
  kp_l0 : LsmStorageState.l0_sstables (state s) = LsmStorageState.l0_sstables (state s0);
  kp_levels : LsmStorageState.levels (state s) = LsmStorageState.levels (state s0);
  kp_tables : LsmStorageState.sstables (state s) = LsmStorageState.sstables (state s0);
  kp_path : path s = path s0;
  kp_options : options s = options s0 }.

(** How far the writers are. *)
Definition progress xs tr : Prop := ∀ i x, xs !! i = Some x → (at_ x = Logged → todo x ≠ []) ∧
  ∃ p, programs !! i = Some p ∧ p = stores_of i tr ++ todo x.

Record stands w (c : config) tr : Prop := {
  st_kept : kept (engine c);
  st_cache : BlockCacheSpec.cache_ok (blocks g) (cache w);
  st_manifest m : manifest (engine c) = Some m → Manifest.path_ m = manifest_path (path (engine c));
  st_current : lagging w (engine c) (in_flight (writers c)) (memtable (engine c));
  st_older : Forall (lagging w (engine c) []) (LsmStorageState.imm_memtables (state (engine c)));
  st_nodup : NoDup (mem_ids (state (engine c)));
  st_fresh id : id ∈ mem_ids (state (engine c)) → id < next_sst_id (engine c);
  st_ids : next_sst_id (engine c) + pending (writers c) ≤ n;
  st_map : shown g (state (engine c)) = put_all (shown g (state s0)) (stores tr);
  st_answers : answered (shown g (state s0)) tr;
  st_length : length (writers c) = length programs;
  st_progress : progress (writers c) tr }.

Lemma stands_read w c tr : stands w c tr → read_ok g (state (engine c)).
Proof.
  intros [[Hl0 Hlv Ht _ _] _ _ Hcur Hold _ _ _ _ _ _ _]. destruct Hread as [_ Hro Hlvs]. split.
  - constructor; [destruct Hcur as (rs & ss & [] & _); done|]. eapply Forall_impl; [exact Hold|]. by intros m (rs & ss & [] & _).
  - intros id Hid. unfold ids_of in *. rewrite Hl0, Hlv in Hid. destruct (Hro id Hid) as (t & Hts & Hrest). exists t. by split; [rewrite Ht|].
  - by rewrite Hlv.
Qed.

(** A writer that stays where its put is. *)
Lemma progress_step xs tr i x y : progress xs tr → xs !! i = Some x → todo y = todo x → (at_ y = Logged → todo x ≠ []) → progress (<[i := y]> xs) tr.
Proof.
  intros Hp Hi Ht Hy j z [(<- & -> & _)|[? Hz]]%list_lookup_insert_Some; [|by apply Hp]. destruct (Hp i x Hi) as (_ & p & ? & ?).
  rewrite Ht. split; [done|]. by exists p.
Qed.

Lemma program_ok xs tr i x e : progress xs tr → xs !! i = Some x → e ∈ todo x → kv_ok e.
Proof.
  intros Hp Hi He. destruct (Hp i x Hi) as (_ & p & Hpi & ->). pose proof (proj1 (Forall_forall _ _) Hprograms _ (list_elem_of_lookup_2 _ _ _ Hpi)) as Hf.
  apply (proj1 (Forall_forall _ _) Hf). set_solver.
Qed.

(** The puts that others are in. *)
Lemma others_separate xs tr i x e (a b : list kv) : progress xs tr → xs !! i = Some x → e ∈ todo x → separate programs →
  (∀ e', e' ∈ a ++ b → ∃ j y, j ≠ i ∧ xs !! j = Some y ∧ e' ∈ todo y) → ∀ e', e' ∈ a ++ b → e'.1 ≠ e.1.
Proof.
  intros Hp Hi He Hsep Hab e' (j & y & Hne & Hj & He')%Hab. destruct (Hp i x Hi) as (_ & p & Hpi & ->). destruct (Hp j y Hj) as (_ & q & Hqj & ->).
  eapply (Hsep j i); [done..| |]; set_solver.
Qed.

Lemma lagging_agree w w' s s' fl m : lagging w s fl m → path s' = path s → options s' = options s →
  files w' !! path_of_wal_val s (MemTable.id_ m) = files w !! path_of_wal_val s (MemTable.id_ m) → lagging w' s' fl m.
Proof.
  intros (rs & ss & Hlog & ? & ?) Hp Ho Hf. exists rs, ss. split_and!; [|done..].
  assert (path_of_wal_val s' = path_of_wal_val s) as E by (unfold path_of_wal_val; by rewrite Hp). rewrite E, Ho. by eapply mem_logged_agree.
Qed.

Lemma with_same s : with_memtable s (memtable s) = s.
Proof. by destruct s as [[] ? ? ? ? ?]. Qed.

(** A step inside the shared lock: writer [i] changes the memtable. *)
Lemma stands_inside w s xs tr i x y m tr' : stands w (Config s xs) tr → xs !! i = Some x → MemTable.id_ m = MemTable.id_ (memtable s) →
  lagging w s (in_flight (<[i := y]> xs)) m → cost y ≤ cost x →
  shown g (state (with_memtable s m)) = put_all (shown g (state s0)) (stores tr') → answered (shown g (state s0)) tr' →
  progress (<[i := y]> xs) tr' → stands w (Config (with_memtable s m) (<[i := y]> xs)) tr'.
Proof.
  intros [[] Hc Hm Hcur Hold Hnd Hfr Hids Hmap Ha Hlen Hp] Hi Hid Hlag Hcost Hmap' Ha' Hp'. cbn [engine writers] in *.
  assert (mem_ids (state (with_memtable s m)) = mem_ids (state s)) as E.
  { unfold mem_ids, memtables. cbn. by rewrite Hid. }
  split; cbn [engine writers]; rewrite ?E; try done; [|by rewrite length_insert].
  pose proof (pending_insert xs i x y Hi). cbn. lia.
Qed.

Lemma log_step w s xs tr i x k v rest : stands w (Config s xs) tr → xs !! i = Some x → at_ x = Ready → todo x = (k, v) :: rest →
  ∃ m, log (memtable s) k v = (m, inl tt) ∧ stands w (Config (with_memtable s m) (<[i := Writer Logged (todo x)]> xs)) tr.
Proof.
  intros Hst Hi Hat Htodo. pose proof Hst as [_ _ _ (rs & ss & Hlog & Hb & Ho) _ _ _ _ Hmap Ha _ Hp]. cbn [engine writers] in *.
  assert ((k, v) ∈ todo x) as Hin by (rewrite Htodo; by left). assert (kv_ok (k, v)) as Hkv by (by eapply program_ok).
  destruct (in_flight_split xs i x Hi) as (a & b & Ef & Ey & Hab). assert (flight x = []) as Ex by (unfold flight; by rewrite Hat).
  rewrite Ex in Ef. rewrite Ef in Hb, Ho. cbn [app] in Hb, Ho.
  destruct (log_spec _ _ _ _ _ _ _ Hlog Hkv) as (m & Hm & Hlog' & Hid & Emap). cbn [fst snd] in Hm. exists m. split; [done|].
  apply (stands_inside w s xs tr i x _ m tr); [done|done|done| | | |done|].
  - rewrite Ey. unfold flight at 1. cbn [at_ todo]. rewrite Htodo. exists (rs ++ [(k, v)]), ss. split_and!; [done|by apply behind_logged|].
    intros Hsep. apply in_order_logged; [by eapply others_separate|by apply Ho].
  - unfold cost. cbn [at_ todo]. lia.
  - rewrite <-Hmap. unfold shown, contents, memtables. cbn. unfold memtable in Emap. by rewrite Emap.
  - apply (progress_step _ _ i x); [done|done|done|]. intros _. by rewrite Htodo.
Qed.

Lemma store_step w s xs tr i x k v rest : stands w (Config s xs) tr → xs !! i = Some x → at_ x = Logged → todo x = (k, v) :: rest →
  stands w (Config (with_memtable s (MemTable.store (memtable s) (MemTable.wal_ (memtable s)) k v)) (<[i := Writer Stored rest]> xs)) (tr ++ [Store i (k, v)]).
Proof.
  intros Hst Hi Hat Htodo. pose proof Hst as [_ _ _ (rs & ss & Hlog & Hb & Ho) _ _ _ _ Hmap Ha _ Hp]. cbn [engine writers] in *.
  assert ((k, v) ∈ todo x) as Hin by (rewrite Htodo; by left). assert (kv_ok (k, v)) as Hkv by (by eapply program_ok).
  destruct (in_flight_split xs i x Hi) as (a & b & Ef & Ey & Hab). assert (flight x = [(k, v)]) as Ex by (unfold flight; by rewrite Hat, Htodo).
  rewrite Ex in Ef. rewrite Ef in Hb, Ho. destruct (store_spec _ _ _ _ _ _ _ Hlog Hkv) as (Hlog' & Hid & Emap). cbn [fst snd] in *.
  set (m := MemTable.store _ _ _ _) in *. apply (stands_inside w s xs tr i x _ m); [done|done|done| | | | |].
  - rewrite Ey. unfold flight at 1. cbn [at_ app]. exists rs, (ss ++ [(k, v)]). split_and!; [done|by apply behind_stored|].
    intros Hsep. apply in_order_stored; [by eapply others_separate|by apply Ho].
  - unfold cost. cbn [at_ todo]. rewrite Htodo, Hat. simpl. lia.
  - unfold shown. rewrite (contents_memtable g s m k v Emap), visible_insert. fold (shown g (state s)).
    rewrite Hmap, stores_app. change (stores [Store i (k, v)]) with [(k, v)]. by rewrite put_all_snoc.
  - apply answered_snoc; [done|by intros ? ? [=]].
  - intros j y [(<- & <- & _)|[Hne Hj]]%list_lookup_insert_Some.
    + destruct (Hp i x Hi) as (_ & p & Hpi & Ep). split; [done|]. exists p. split; [done|]. rewrite stores_of_app. cbn. rewrite decide_True by done.
      by rewrite Ep, Htodo, <-(assoc_L (++)).
    + destruct (Hp j y Hj) as (? & p & Hpj & Ep). split; [done|]. exists p. split; [done|]. rewrite stores_of_app. cbn. rewrite decide_False by done. by rewrite app_nil_r.
Qed.

Lemma check_step w s xs tr i x st : stands w (Config s xs) tr → xs !! i = Some x → at_ x = Stored → st = Freezing ∨ st = Ready →
  stands w (Config s (<[i := Writer st (todo x)]> xs)) tr.
Proof.
  intros Hst Hi Hat Hst'. pose proof Hst as [_ _ _ Hlag _ _ _ _ Hmap Ha _ Hp]. cbn [engine writers] in *. rewrite <-(with_same s) at 1.
  destruct (in_flight_split xs i x Hi) as (a & b & Ef & Ey & _).
  apply (stands_inside w s xs tr i x); [done|done|done| | |by rewrite with_same|done|].
  - rewrite Ey. replace (flight (Writer st (todo x))) with (flight x) by (unfold flight; rewrite Hat; by destruct Hst' as [->| ->]). by rewrite <-Ef.
  - unfold cost. rewrite Hat. cbn [at_ todo]. destruct Hst' as [->| ->]; lia.
  - apply (progress_step _ _ i x); [done..|]. intros E. cbn in E. destruct Hst' as [->| ->]; done.
Qed.

(** A freeze, while nobody is inside. *)
Lemma writer_freeze w s xs tr i x : stands w (Config s xs) tr → xs !! i = Some x → at_ x = Freezing → existsb shares xs = false → (Z.of_nat n < 2 ^ 64)%Z →
  runs (force_freeze_memtable s) w (λ w' s', stands w' (Config s' (<[i := Writer Ready (todo x)]> xs)) tr).
Proof.
  intros Hst Hi Hat Hout Hn. pose proof Hst as [[] Hc Hm Hcur Hold Hnd Hfr Hids Hmap Ha Hlen Hp]. cbn [engine writers] in *.
  pose proof (pending_insert xs i x (Writer Ready (todo x)) Hi) as Hpend. pose proof (pending_member xs i x Hi) as Hmem.
  unfold cost in Hpend, Hmem. rewrite Hat in Hpend, Hmem. cbn [at_ todo] in Hpend, Hmem.
  unfold force_freeze_memtable. eapply runs_bind; [apply new_memtable_spec|]. intros w1 m (Hid & Hnil & Hok & Hc1 & Hf1). cbn beta zeta.
  eapply runs_mono; [apply (record_added (frozen s m)); [done|unfold ManifestRecordSpec.record_ok, ManifestRecordSpec.id_ok; cbn; lia]|].
  intros w' s' ((mf & -> & Hmf) & Hc2 & Hf2 & _).
  assert (∀ id, id ≠ next_sst_id s → files w' !! path_of_wal_val s id = files w !! path_of_wal_val s id) as Hwal.
  { intros id Hne. rewrite Hf2 by apply (Names.path_wal_manifest s). apply Hf1. intros E. by apply (Names.path_wal_inj s) in E. }
  assert (in_flight (<[i := Writer Ready (todo x)]> xs) = [] ∧ in_flight xs = []) as [Ef' Ef].
  { destruct (in_flight_split xs i x Hi) as (a & b & E1 & E2 & _). rewrite E2. rewrite (in_flight_none xs Hout) in E1.
    symmetry in E1. apply app_nil in E1 as [-> [_ ->]%app_nil]. split; [done|by apply in_flight_none]. }
  rewrite Ef in Hcur. split; cbn [engine writers]; try done.
  - by rewrite Hc2, Hc1.
  - rewrite Ef'. destruct (mem_logged_at w' (LsmStorageOptions.enable_wal (options s)) (path_of_wal_val s) m) as (rs & ss & ? & ? & ?).
    + eapply mem_ok_agree; [exact Hok|]. apply Hf2. apply (Names.path_wal_manifest s).
    + by exists rs, ss.
  - constructor.
    + eapply lagging_agree; [exact Hcur|done|done|]. apply Hwal, Nat.lt_neq, Hfr. by left.
    + apply Forall_forall. intros m' Hm'. eapply lagging_agree; [by apply (proj1 (Forall_forall _ _) Hold)|done|done|]. apply Hwal, Nat.lt_neq, Hfr, list_elem_of_fmap_2. by right.
  - change (NoDup (MemTable.id_ m :: mem_ids (state s))). rewrite Hid. constructor; [|done]. intros Hin. specialize (Hfr _ Hin). lia.
  - change (∀ id, id ∈ MemTable.id_ m :: mem_ids (state s) → id < S (next_sst_id s)). rewrite Hid.
    intros id [->|Hin]%elem_of_cons; [lia|]. specialize (Hfr _ Hin). lia.
  - cbn. lia.
  - rewrite <-Hmap. unfold shown. f_equal. exact (contents_frozen g s m Hnil).
  - by rewrite length_insert.
  - apply (progress_step _ _ i x); done.
Qed.

Lemma write_step w s xs tr i x : stands w (Config s xs) tr → xs !! i = Some x → (Z.of_nat n < 2 ^ 64)%Z →
  runs (write s xs i x) w (λ w' r, stands w' (Config r.1.1 (<[i := r.1.2]> xs)) (tr ++ r.2) ∧ (can_move xs x → weight r.1.2 < weight x)).
Proof.
  intros Hst Hi Hn. assert (stands w (Config s (<[i := x]> xs)) (tr ++ [])) as Hsame by (by rewrite list_insert_id, app_nil_r).
  unfold write, can_move, weight. destruct (at_ x) eqn:Hat, (todo x) as [|[k v] rest] eqn:Htodo; try (by apply runs_ret).
  - destruct (log_step w s xs tr i x k v rest) as (m & -> & Hst'); [done..|]. apply runs_ret. cbn [fst snd at_ todo]. rewrite app_nil_r. split; [by rewrite <-Htodo|]. simpl. lia.
  - apply runs_ret. split; [by apply (store_step w s xs tr i x)|]. simpl. lia.
  - apply runs_ret. cbn [fst snd]. rewrite app_nil_r, <-Htodo. split; [apply check_step; [done..|]; case_decide; auto|]. rewrite Htodo. case_decide; simpl; lia.
  - apply runs_ret. cbn [fst snd]. rewrite app_nil_r, <-Htodo. split; [apply check_step; [done..|]; case_decide; auto|]. rewrite Htodo. case_decide; simpl; lia.
  - destruct (existsb shares xs) eqn:Hout; [by apply runs_ret|]. eapply runs_bind; [by apply (writer_freeze w s xs tr i x)|].
    intros w' s' Hst'. apply runs_ret. cbn [fst snd at_ todo]. rewrite app_nil_r, <-Htodo. split; [done|]. rewrite Htodo. simpl. lia.
  - destruct (existsb shares xs) eqn:Hout; [by apply runs_ret|]. eapply runs_bind; [by apply (writer_freeze w s xs tr i x)|].
    intros w' s' Hst'. apply runs_ret. cbn [fst snd at_ todo]. rewrite app_nil_r, <-Htodo. split; [done|]. rewrite Htodo. simpl. lia.
Qed.

Lemma sync_mem w s m rs ss : logged_in w s m rs ss → runs (on_fs (MemTable.sync_wal m)) w (λ w' r,
  logged_in w' s r.1 rs ss ∧ MemTable.id_ r.1 = MemTable.id_ m ∧ MemTable.map_ r.1 = MemTable.map_ m ∧ cache w' = cache w ∧
  ∀ p, p ≠ path_of_wal_val s (MemTable.id_ m) → files w' !! p = files w !! p).
Proof.
  intros [Hon Hs He Hm Hw]. destruct (MemTable.wal_ m) as [l|] eqn:El; cycle 1.
  { eapply runs_mono; [apply (runs_on_fs _ _ (files w) (m, inl tt)); unfold MemTable.sync_wal; by rewrite El|].
    intros w' r [-> ->]. cbn [fst]. split_and!; [|done..]. split; rewrite ?El; done. }
  destruct (Hw l eq_refl) as [Hp Hlog]. destruct (WalSpec.sync_logged l (files w) rs Hlog) as (l' & Hsync & Hlog' & Hp').
  eapply runs_mono; [apply (runs_on_fs _ _ (<[Wal.path_ l := WalSpec.frames rs]> (files w)) (MemTable.mk (MemTable.id_ m) (MemTable.map_ m) (Some l') (MemTable.approximate_size_ m), inl tt))|].
  { unfold MemTable.sync_wal, mbind, eff_bind. by rewrite El, Hsync. }
  intros w' r [-> ->]. cbn [fst files cache]. split_and!; [|done..|].
  - split; [done..|]. cbn [MemTable.wal_ MemTable.id_]. intros ? [= <-]. by rewrite Hp'.
  - intros p Hne. apply lookup_insert_ne. by rewrite Hp.
Qed.

Lemma writers_sync w s xs tr : stands w (Config s xs) tr → runs (sync s) w (λ w' s', stands w' (Config s' xs) tr).
Proof.
  intros [[] Hc Hm (rs & ss & Hlog & Hb & Ho) Hold Hnd Hfr Hids Hmap Ha Hlen Hp]. cbn [engine writers] in *. unfold sync.
  eapply runs_bind; [by apply sync_mem|]. intros w' [m r] (Hlog' & Hid & Emap & Hc' & Hf). cbn [fst] in *. apply runs_ret.
  change (set_state s _) with (with_memtable s m). assert (mem_ids (state (with_memtable s m)) = mem_ids (state s)) as E.
  { unfold mem_ids, memtables. cbn. by rewrite Hid. }
  split; cbn [engine writers]; rewrite ?E; try done.
  - by rewrite Hc'.
  - by exists rs, ss.
  - apply Forall_forall. intros m' Hm'. eapply lagging_agree; [by apply (proj1 (Forall_forall _ _) Hold)|done|done|]. apply Hf.
    intros Eid%Names.path_wal_inj. apply NoDup_cons in Hnd as [Hnin _]. apply Hnin. rewrite <-Eid. by apply list_elem_of_fmap_2.
  - rewrite <-Hmap. unfold shown, contents, memtables. cbn. unfold memtable in Emap. by rewrite Emap.
Qed.

Lemma writers_step w c tr e : stands w c tr → (Z.of_nat n < 2 ^ 64)%Z → runs (perform c e) w (λ w' r, stands w' r.1 (tr ++ r.2)).
Proof.
  intros Hst Hn. destruct c as [s xs], e as [i|key|]; cbn [perform engine writers].
  - destruct (xs !! i) as [x|] eqn:Hi; [|apply runs_ret; by rewrite app_nil_r].
    eapply runs_bind; [by apply (write_step w s xs tr i x)|]. intros w' [[s' y] l] [Hst' _]. by apply runs_ret.
  - eapply runs_bind; [apply (get_read_spec g); [by apply (stands_read _ _ _ Hst)|apply Hst]|]. intros w' v [[Hf Hc] ->]. apply runs_ret.
    cbn [fst snd]. destruct Hst as [Hk ? ? Hcur Hold ? ? ? Hmap Ha Hlen Hp]. cbn [engine writers] in *. split; cbn [engine writers]; try done.
    + eapply lagging_agree; [exact Hcur|done|done|by rewrite Hf].
    + eapply Forall_impl; [exact Hold|]. intros m Hm. eapply lagging_agree; [exact Hm|done|done|by rewrite Hf].
    + rewrite stores_app. by rewrite app_nil_r.
    + apply answered_snoc; [done|]. intros k v [= <- <-]. by rewrite Hmap.
    + intros j y Hj. destruct (Hp j y Hj) as (? & p & ? & ?). split; [done|]. exists p. rewrite stores_of_app. by rewrite app_nil_r.
  - eapply runs_bind; [by apply (writers_sync w s xs tr)|]. intros w' s' Hst'. apply runs_ret. by rewrite app_nil_r.
Qed.

Lemma perform_all_steps w c tr es : stands w c tr → (Z.of_nat n < 2 ^ 64)%Z → runs (perform_all c es) w (λ w' r, stands w' r.1 (tr ++ r.2)).
Proof.
  intros Hst Hn. revert w c tr Hst. induction es as [|e es IH]; intros w c tr Hst; [apply runs_ret; by rewrite app_nil_r|].
  eapply runs_bind; [by apply (writers_step w c tr e)|]. intros w1 [c1 l1] Hst1. eapply runs_bind; [by apply IH|].
  intros w2 [c2 l2] Hst2. apply runs_ret. cbn [fst snd] in *. by rewrite (assoc_L (++)).
Qed.

(** The writers can always finish. *)
Lemma finish w c tr : stands w c tr → (Z.of_nat n < 2 ^ 64)%Z → ∃ es, length es ≤ sum_list_with weight (writers c) ∧
  runs (perform_all c es) w (λ w' r, stands w' r.1 (tr ++ r.2) ∧ finished r.1).
Proof.
  intros Hst Hn. remember (sum_list_with weight (writers c)) as N eqn:EN. revert w c tr Hst EN. induction N as [N IH] using lt_wf_ind. intros w c tr Hst EN.
  destruct (someone_moves (writers c)) as [Hfin|(i & x & Hi & Hmove)].
  { intros i x Hi. by apply (st_progress _ _ _ Hst i x Hi). }
  { exists []. split; [simpl; lia|]. apply runs_ret. by rewrite app_nil_r. }
  destruct c as [s xs]. cbn [engine writers] in *. destruct (write_step w s xs tr i x Hst Hi Hn) as (w1 & [[s1 y] l1] & Hrun & Hst1 & Hlt).
  specialize (Hlt Hmove). cbn [fst snd] in *. assert (sum_list_with weight (<[i := y]> xs) < N) as HN.
  { pose proof (lookup_lt_Some _ _ _ Hi) as Hlen. rewrite EN, (insert_take_drop _ _ _ Hlen).
    assert (sum_list_with weight xs = sum_list_with weight (take i xs) + (weight x + sum_list_with weight (drop (S i) xs))) as E.
    { rewrite <-(take_drop_middle _ _ _ Hi) at 1. by rewrite sum_list_with_app. }
    rewrite E, sum_list_with_app. simpl. lia. }
  destruct (IH _ HN w1 (Config s1 (<[i := y]> xs)) (tr ++ l1) Hst1 eq_refl) as (es & Hes & w2 & [c2 l2] & Hrun2 & Hst2 & Hfin).
  exists (Write i :: es). split; [simpl; lia|]. exists w2, (c2, l1 ++ l2). split; [|cbn [fst snd]; by rewrite (assoc_L (++))].
  cbn [perform_all perform engine writers]. rewrite Hi.
  rewrite (eff_bind_run _ _ _ w1 (Config s1 (<[i := y]> xs), l1)); [by rewrite (eff_bind_run _ _ _ _ _ Hrun2)|].
  by rewrite (eff_bind_run _ _ _ _ _ Hrun).
Qed.
End invariant.

(** The writers at their beginning, in any engine. *)
Lemma stands_start g w s programs : engine_ok g w s → stands g s programs (next_sst_id s + sum_list_with length programs) w (Config s (start programs)) [].
Proof.
  intros Hok. assert (in_flight (start programs) = []) as Ef.
  { apply in_flight_none. unfold start. by induction programs as [|p ps IH]. }
  assert (∀ m, m ∈ memtables (state s) → lagging programs w s [] m) as Hlag.
  { intros m Hm. destruct (mem_logged_at _ _ _ _ (proj1 (Forall_forall _ _) (eo_mems _ _ _ Hok) m Hm)) as (rs & ss & ? & ? & ?). by exists rs, ss. }
  split; cbn [engine writers].
  - done.
  - apply Hok.
  - apply Hok.
  - rewrite Ef. apply Hlag. by left.
  - apply Forall_forall. intros m Hm. apply Hlag. by right.
  - by pose proof (eo_nodup _ _ _ Hok) as (? & _ & _)%NoDup_app.
  - intros id Hid. apply (eo_fresh _ _ _ Hok). by left.
  - by rewrite pending_start.
  - done.
  - intros tr1 k v tr2 E. by destruct tr1.
  - by unfold start; rewrite length_fmap.
  - intros i x Hi. unfold start in Hi. apply list_lookup_fmap_Some in Hi as (p & -> & Hp). split; [done|]. by exists p.
Qed.

(** The trace of a program. *)
Lemma program_progress (programs : list (list kv)) xs tr i p : progress programs xs tr → length xs = length programs → programs !! i = Some p →
  ∃ x, xs !! i = Some x ∧ p = stores_of i tr ++ todo x.
Proof.
  intros Hp Hlen Hi. destruct (lookup_lt_is_Some_2 xs i) as [x Hx]; [rewrite Hlen; by eapply lookup_lt_Some|]. exists x. split; [done|].
  destruct (Hp i x Hx) as (_ & q & Hq & ->). by simplify_eq.
Qed.

(** ** A writer on its own

    Its steps are the put of [LsmStorage]. *)
Lemma writer_alone w s k v rest : ∃ n l, n ≤ 4 ∧
  perform_all (Config s [Writer Ready ((k, v) :: rest)]) (repeat (Write 0) n) w = (s ← put s k v; mret (Config s [Writer Ready rest], l)) w.
Proof.
  unfold put. fold (memtable s). rewrite put_halves. destruct (log (memtable s) k v) as [m [[]|err]] eqn:El; cbn [fst].
  - set (m' := MemTable.store m _ k v). change (set_state s _) with (with_memtable s m'). change (options (with_memtable s m')) with (options s).
    destruct (decide (LsmStorageOptions.target_sst_size (options s) ≤ MemTable.approximate_size_ m')) as [Hd|Hd].
    + exists 4, [Store 0 (k, v)]. split; [done|]. cbn [repeat perform_all perform writers engine lookup list_lookup write at_ todo]. rewrite El.
      change (memtable (with_memtable s m)) with m. fold m'. unfold mbind, eff_bind, mret, eff_ret. cbn. unfold memtable. cbn. rewrite decide_True by done. cbn.
      unfold mbind, eff_bind, mret, eff_ret. change (with_memtable (with_memtable s m) _) with (with_memtable s m').
      destruct (force_freeze_memtable (with_memtable s m') w) as [[w' s']|]; done.
    + exists 3, [Store 0 (k, v)]. split; [lia|]. cbn [repeat perform_all perform writers engine lookup list_lookup write at_ todo]. rewrite El.
      change (memtable (with_memtable s m)) with m. fold m'. unfold mbind, eff_bind, mret, eff_ret. cbn. unfold memtable. cbn. rewrite decide_False by done. done.
  - change (set_state s _) with (with_memtable s m). change (options (with_memtable s m)) with (options s).
    destruct (decide (LsmStorageOptions.target_sst_size (options s) ≤ MemTable.approximate_size_ m)) as [Hd|Hd].
    + exists 3, []. split; [lia|]. cbn [repeat perform_all perform writers engine lookup list_lookup write at_ todo]. rewrite El.
      unfold mbind, eff_bind, mret, eff_ret. cbn. unfold memtable. cbn. rewrite decide_True by done. cbn.
      unfold mbind, eff_bind, mret, eff_ret. destruct (force_freeze_memtable (with_memtable s m) w) as [[w' s']|]; done.
    + exists 2, []. split; [lia|]. cbn [repeat perform_all perform writers engine lookup list_lookup write at_ todo]. rewrite El.
      unfold mbind, eff_bind, mret, eff_ret. cbn. unfold memtable. cbn. rewrite decide_False by done. done.
Qed.
End writers.

(** ** Properties *)
Section properties.
Context `{!Zlib} `{!Snappy} `{!SnappyLaws} `{!SnappyBound} `{!Farmhash} `{!Libm} `{!Json} `{!JsonLaws} `{!LoopFuel}.
Import LsmStorageInner Writers.
Implicit Types (g : ghost) (w : World) (s : LsmStorageInner.t).

(** C7: concurrent puts take effect one at a time.  In any engine that satisfies
    the invariant let any number of writers run programs of puts, beside readers
    and calls of [sync], their steps in any order.  Nothing fails.  The map of the
    engine is at any time the old map after the puts that were stored, in the
    order of their stores, each between the begin and the end of its call; a [get]
    answers from that map at its moment; and each writer's puts are stored in the
    order of its program.  From there the writers can always finish, after which
    each program is stored to its end. *)
Theorem writers_linearizable g w s programs es : engine_ok g w s → Forall (Forall kv_ok) programs →
  (Z.of_nat (next_sst_id s + sum_list_with length programs) < 2 ^ 64)%Z →
  ∃ w' c tr, perform_all (Config s (start programs)) es w = Ok (w', (c, tr)) ∧
    shown g (state (engine c)) = put_all (shown g (state s)) (stores tr) ∧ answered (shown g (state s)) tr ∧
    (∀ i p, programs !! i = Some p → stores_of i tr `prefix_of` p) ∧
    ∃ es' w'' c' tr', perform_all c es' w' = Ok (w'', (c', tr')) ∧ finished c' ∧
      shown g (state (engine c')) = put_all (shown g (state s)) (stores (tr ++ tr')) ∧
      ∀ i p, programs !! i = Some p → stores_of i (tr ++ tr') = p.
Proof.
  intros Hok Hprograms Hids. pose proof (engine_read_ok _ _ _ Hok) as Hread. pose proof (stands_start g w s programs Hok) as Hst0.
  destruct (perform_all_steps g s programs _ Hread Hprograms w _ [] es Hst0 Hids) as (w' & [c tr] & Hrun & Hst). cbn [fst snd app] in Hst.
  exists w', c, tr. split; [done|]. pose proof Hst as [_ _ _ _ _ _ _ _ Hmap Ha Hlen Hp]. split_and!; [done|done| |].
  { intros i p Hi. destruct (program_progress _ _ _ _ _ Hp Hlen Hi) as (x & _ & ->). by eexists. }
  destruct (finish g s programs _ Hread Hprograms w' c tr Hst Hids) as (es' & _ & w'' & [c' tr'] & Hrun' & Hst' & Hfin). cbn [fst snd] in *.
  exists es', w'', c', tr'. split_and!; [done|done|apply Hst'|]. intros i p Hi. pose proof Hst' as [_ _ _ _ _ _ _ _ _ _ Hlen' Hp'].
  destruct (program_progress _ _ _ _ _ Hp' Hlen' Hi) as (x & Hx & ->). destruct (proj1 (Forall_forall _ _) Hfin x (list_elem_of_lookup_2 _ _ _ Hx)) as [_ ->].
  by rewrite app_nil_r.
Qed.

(** C8: the logs are ahead of the maps, and hold the same when different writers
    put different keys.  At any time of a schedule of concurrent writers the log
    of every memtable is a sequence of whole frames whose records contain
    everything the map was given, so no store is missing from its log; when no
    writer is inside, they contain nothing else.  If moreover no two writers put
    the same key, the log replays to exactly the map, as every recovery relies on. *)
Theorem writers_write_ahead g w s programs es : engine_ok g w s → Forall (Forall kv_ok) programs →
  (Z.of_nat (next_sst_id s + sum_list_with length programs) < 2 ^ 64)%Z →
  ∃ w' c tr, perform_all (Config s (start programs)) es w = Ok (w', (c, tr)) ∧
    (∀ m, m ∈ memtables (state (engine c)) → ∃ rs ss, kv_map (MemTable.map_ m) = MemTableSpec.replay ss ∧ ss ⊆+ rs ∧
      (existsb shares (writers c) = false → rs ≡ₚ ss) ∧
      ∀ l, MemTable.wal_ m = Some l → Wal.path_ l = path_of_wal_val (engine c) (MemTable.id_ m) ∧ WalSpec.logged l (files w') rs) ∧
    (separate programs → existsb shares (writers c) = false → Forall (mem_ok w' (engine c)) (memtables (state (engine c)))).
Proof.
  intros Hok Hprograms Hids. pose proof (engine_read_ok _ _ _ Hok) as Hread. pose proof (stands_start g w s programs Hok) as Hst0.
  destruct (perform_all_steps g s programs _ Hread Hprograms w _ [] es Hst0 Hids) as (w' & [c tr] & Hrun & Hst). cbn [fst snd app] in Hst.
  exists w', c, tr. split; [done|].
  assert (∀ m, m ∈ memtables (state (engine c)) → ∃ fl, lagging programs w' (engine c) fl m ∧ (existsb shares (writers c) = false → fl = [])) as Hall.
  { intros m [->|Hm]%elem_of_cons; [eexists; split; [apply Hst|by apply in_flight_none]|]. exists []. split; [|done].
    by apply (proj1 (Forall_forall _ _) (st_older _ _ _ _ _ _ _ Hst)). }
  split.
  - intros m (fl & (rs & ss & [] & Hb & _) & Hfl)%Hall. exists rs, ss. split_and!; [done| | |done].
    + rewrite (Hb : rs ≡ₚ ss ++ fl). by apply submseteq_inserts_r.
    + intros Hout. rewrite (Hb : rs ≡ₚ ss ++ fl), (Hfl Hout). by rewrite app_nil_r.
  - intros Hsep Hout. apply Forall_forall. intros m (fl & (rs & ss & Hlog & _ & Ho) & Hfl)%Hall.
    eapply mem_at_logged; [exact Hlog|]. rewrite <-(Hfl Hout). by apply Ho.
Qed.
End properties.

(** ** Runs *)
Section demo.
#[local] Existing Instance demo_zlib.
#[local] Existing Instance demo_snappy.
#[local] Existing Instance demo_snappy_laws.
#[local] Existing Instance demo_snappy_bound.
#[local] Existing Instance demo_farmhash.
#[local] Existing Instance demo_libm.
#[local] Existing Instance demo_json.
#[local] Existing Instance demo_json_laws.
#[local] Existing Instance demo_fuel.
Import LsmStorageInner Writers.

(** Two writers of different keys.  The first one fills the memtable and waits for
    the second one to leave before it freezes; the second one saw it full too and
    freezes the next one, which is empty. *)
Definition demo_programs : list (list kv) := [[([x61], [x01; x02; x03])]; [([x62], [x04]); ([x63], [x05])]].
Definition demo_steps : list event :=
  [Write 0; Write 1; Write 0; Read [x61]; Write 0; Write 0; Write 1; Read [x62]; Write 1; Write 0; Sync; Write 1; Write 1; Write 1; Write 1].

Example demo_steps_trace :
  match (s ← open "db" (demo_options demo_simple true); perform_all (Config s (start demo_programs)) demo_steps) (MkWorld ∅ (BlockCache.create 4)) with
  | Ok (_, (c, tr)) => Some (tr, at_ <$> writers c, mem_ids (state (engine c)), MemTable.map_ (memtable (engine c)))
  | Err _ => None
  end = Some ([Store 0 ([x61], [x01; x02; x03]); Answer [x61] [x01; x02; x03]; Store 1 ([x62], [x04]); Answer [x62] [x04]; Store 1 ([x63], [x05])],
    [Ready; Ready], [2; 1; 0], [([x63], [x05])]).
Proof. vm_compute. reflexivity. Qed.

Lemma demo_programs_ok : Forall (Forall kv_ok) demo_programs.
Proof. apply (bool_decide_unpack _). vm_compute. exact I. Qed.

Lemma demo_separate : separate demo_programs.
Proof.
  assert (∀ e e', e ∈ [([x61], [x01; x02; x03])] → e' ∈ [([x62], [x04]); ([x63], [x05])] → e.1 ≠ e'.1) as H.
  { intros e e' ->%list_elem_of_singleton [->|E]%elem_of_cons; [|apply list_elem_of_singleton in E as ->]; discriminate. }
  intros [|[|i]] [|[|j]] p q e e' Hij Hp Hq He He'; try (by destruct Hij); try discriminate Hp; try discriminate Hq;
    injection Hp as <-; injection Hq as <-; [by apply H|symmetry; by apply H].
Qed.

Lemma writers_linearizable_witness : ∃ g w s a w' c tr, demo_run demo_simple true demo_ops = Ok (w, (s, a)) ∧
  perform_all (Config s (start demo_programs)) demo_steps w = Ok (w', (c, tr)) ∧
  shown g (state (engine c)) = put_all (shown g (state s)) (stores tr) ∧ answered (shown g (state s)) tr.
Proof.
  destruct (demo_engine demo_simple true demo_ops demo_good_simple) as (w & s & a & g & Hrun & Hal & _ & _ & Hn & _).
  destruct (writers_linearizable g w s demo_programs demo_steps) as (w' & c & tr & Hall & Hsh & Ha & _).
  - apply Hal.
  - exact demo_programs_ok.
  - simpl. lia.
  - exists g, w, s, a, w', c, tr. split; [exact Hrun|]. split; [exact Hall|]. split; [exact Hsh|exact Ha].
Defined.

Lemma writers_write_ahead_witness : ∃ w s a w' c tr, demo_run demo_simple true demo_ops = Ok (w, (s, a)) ∧
  perform_all (Config s (start demo_programs)) demo_steps w = Ok (w', (c, tr)) ∧
  (existsb shares (writers c) = false → Forall (mem_ok w' (engine c)) (memtables (state (engine c)))).
Proof.
  destruct (demo_engine demo_simple true demo_ops demo_good_simple) as (w & s & a & g & Hrun & Hal & _ & _ & Hn & _).
  destruct (writers_write_ahead g w s demo_programs demo_steps) as (w' & c & tr & Hall & _ & Hmems).
  - apply Hal.
  - exact demo_programs_ok.
  - simpl. lia.
  - exists w, s, a, w', c, tr. split; [exact Hrun|]. split; [exact Hall|]. apply Hmems, demo_separate.
Defined.

(** Two writers of one key store in the other order than they log, and the engine
    answers otherwise after a restart. *)
Example log_order_differs :
  match (s ← open "db" (demo_options demo_simple true);
      perform_all (Config s (start [[([x61], [x01])]; [([x61], [x02])]])) [Write 0; Write 1; Write 1; Write 0; Sync; Read [x61]]) (MkWorld ∅ (BlockCache.create 4)) with
  | Ok (w, (_, tr)) =>
      match (s ← open "db" (demo_options demo_simple true); Op.runs_all s [Op.Get [x61]]) (MkWorld (files w) (BlockCache.create 4)) with
      | Ok (_, (_, after)) => Some (tr, after)
      | Err _ => None
      end
  | Err _ => None
  end = Some ([Store 1 ([x61], [x02]); Store 0 ([x61], [x01]); Answer [x61] [x01]], [Op.Found [x02]]).
Proof. vm_compute. reflexivity. Qed.
End demo.
