(* ===== verification/LsmSnapshot.v ===== *)
(** * A scan beside everything else

    The iterator that [scan] returned outlives the call: the client drains it at
    its own pace while it and the threads go on.  It keeps the memtables' entries
    it copied and the tables it opened, whose files stay readable through their
    descriptors after a compaction has removed them, so it shows the map of the
    moment it was made. *)
From S2P Require Import Prelude Endian Key Iterators Block BlockCache Double Bloom Table Sizes TableIterator Wal MemTable State Layers SimpleLeveled Tiered Leveled Compact Manifest LsmStorage LsmSpec LsmRead LsmWrite LsmGen LsmCompact LsmInstall LsmStrategies LsmLeveled LsmJournal LsmTrace LsmOpen LsmThreads LsmConcurrent LsmEngine.

(** ** Definitions *)
Module Reader.
Import LsmStorageInner.

Section code.
Context `{!Zlib} `{!Snappy} `{!Farmhash} `{!Libm} `{!Json} `{!LoopFuel}.

(** One round of a loop over the iterator: the entry it stands on, and [next]. *)
Definition advance (it : ScanIterator) : eff BlockCache.t (ScanIterator * list kv) :=
  if is_valid (W:=BlockCache.t) it then
    k ← lift (key (W:=BlockCache.t) it); v ← lift (value (W:=BlockCache.t) it);
    it ← next it; mret (it, [(k, v)])
  else mret (it, []).

(** What happens next: a call or a step of a thread, or a round of the loop. *)
Inductive event :=
| Other (e : Threads.event)
| Advance.

(** The engine, the iterator, the answers and the entries seen. *)
Fixpoint run (c : Threads.config) (it : ScanIterator) (es : list event) : eff World (Threads.config * list Op.answer * list kv) :=
  match es with
  | [] => mret (c, [], [])
  | Other e :: es => '(c, a) ← Threads.perform c e; '(c, rest, seen) ← run c it es; mret (c, a ++ rest, seen)
  | Advance :: es => '(it, l) ← on_cache (advance it); '(c, a, seen) ← run c it es; mret (c, a, l ++ seen)
  end.
End code.

(** The other steps, and the number of rounds. *)
Fixpoint others (es : list event) : list Threads.event :=
  match es with [] => [] | Other e :: es => e :: others es | Advance :: es => others es end.
Fixpoint rounds (es : list event) : nat :=
  match es with [] => 0 | Other _ :: es => rounds es | Advance :: es => S (rounds es) end.
End Reader.

(** ** The iterators of a scan and a growing record of blocks *)
Section mono.
Context `{!Zlib} `{!Snappy} `{!Farmhash} `{!LoopFuel} (c c' : gmap (nat * nat) Block.t) (Hc : c ⊆ c').
#[local] Abbreviation Inv := (BlockCacheSpec.cache_ok c).
#[local] Abbreviation Inv' := (BlockCacheSpec.cache_ok c').

Section wrapped.
Context {I : Type} `{!StorageIterator BlockCache.t I} `{!IteratorSpec BlockCache.t I Inv} `{HI : !IteratorSpec BlockCache.t I Inv'}.
Context (Hm : ∀ (it : I) l, denotes (Inv:=Inv) it l → denotes (Inv:=Inv') it l).

Lemma lsm_denotes_mono (it : LsmIterator.t I) l : denotes (Inv:=Inv) it l → denotes (Inv:=Inv') it l.
Proof.
  intros Hr. change (LsmIterator.repr (Inv:=Inv') it l). change (LsmIterator.repr (Inv:=Inv) it l) in Hr.
  unfold LsmIterator.repr, LsmIterator.standing in *. destruct (LsmIterator.is_valid_ it); [|done].
  destruct Hr as (l0 & k & v & l' & (i & k' & v' & l'' & ? & ? & Hd & ?) & ?).
  exists l0, k, v, l'. split; [|done]. exists i, k', v', l''. split_and!; [done|done|by apply Hm|done].
Qed.

Lemma fused_denotes_mono (it : FusedIterator.t I) l : denotes (Inv:=Inv) it l → denotes (Inv:=Inv') it l.
Proof. intros [? Hd]. split; [done|]. destruct (FusedIterator.iter_ it); [by apply Hm|done]. Qed.
End wrapped.

Lemma scan_denotes_mono (it : LsmStorageInner.ScanIterator) l : denotes (Inv:=Inv) it l → denotes (Inv:=Inv') it l.
Proof.
  apply fused_denotes_mono, lsm_denotes_mono, two_merge_denotes_mono; [|apply merge_denotes_mono, concat_denotes_mono, Hc].
  apply two_merge_denotes_mono; apply merge_denotes_mono; [done|apply table_denotes_mono, Hc].
Qed.
End mono.

(** ** Reading *)
Section snapshot.
Context `{!Zlib} `{!Snappy} `{!SnappyLaws} `{!SnappyBound} `{!Farmhash} `{!Libm} `{!Json} `{!JsonLaws} `{!LoopFuel}.
Import LsmStorageInner Threads Reader.
Implicit Types (g : ghost) (w : World) (s : LsmStorageInner.t) (h : list kv).

Lemma advance_spec g (it : ScanIterator) l : denotes (Inv:=BlockCacheSpec.cache_ok (blocks g)) it l →
  wp (BlockCacheSpec.cache_ok (blocks g)) (advance it) (λ r, denotes (Inv:=BlockCacheSpec.cache_ok (blocks g)) r.1 (drop 1 l) ∧ r.2 = take 1 l).
Proof.
  intros Hd. unfold advance. destruct l as [|[k v] l].
  { rewrite (denotes_valid_nil _ Hd). by apply wp_ret. }
  rewrite (denotes_valid_cons _ _ _ Hd).
  eapply wp_bind_ok; [by eapply denotes_key|]. eapply wp_bind_ok; [by eapply denotes_value|].
  eapply wp_bind; [by eapply denotes_next|]. intros it' Hd'. by apply wp_ret.
Qed.

Lemma run_spec h g w s c it l es : alive h g w s → standing (length h + 3) g w s c →
  denotes (Inv:=BlockCacheSpec.cache_ok (blocks g)) it l →
  (∀ o, compaction_controller s ≠ CompactionController.Leveled o) → Forall (admissible (compaction_controller s)) (others es) →
  let ops := calls (others es) in let h' := h ++ written ops in
  fits h' → S (length h') < loop_fuel → (Z.of_nat (next_sst_id s + length es) < 2 ^ 64)%Z →
  runs (Reader.run (Config s c) it es) w (λ w' r, r.1.2 = (Op.meanings (shown g (state s)) ops).2 ∧ r.2 = take (rounds es) l).
Proof.
  revert h g w s c it l; induction es as [|e es IH]; intros h g w s c it l Hal Hst Hd Hc Hadm ops h' Hfits Hfuel Hids; [by apply runs_ret|].
  unfold h', ops in *. clear h' ops. destruct e as [e|]; cbn [Reader.run others rounds length] in *.
  - apply Forall_cons in Hadm as [He Hadm]. rewrite calls_cons in *. rewrite meanings_app. cbn [snd].
    assert (h ++ written (calls [e] ++ calls (others es)) = (h ++ written (calls [e])) ++ written (calls (others es))) as Eh.
    { unfold written. by rewrite fmap_app, join_app, (assoc_L (++)). }
    rewrite Eh in Hfits, Hfuel. assert (h ++ written (calls [e]) ⊆+ (h ++ written (calls [e])) ++ written (calls (others es))) as Hsub by (by apply submseteq_inserts_r).
    pose proof (submseteq_length _ _ Hsub) as Hlen.
    eapply runs_bind; [apply (perform_step h g w s c e Hal Hst Hc He); [by eapply fits_submseteq|lia|unfold room; lia]|].
    intros w1 [[s1 c1] a] (g1 & (Hg1 & Hal1 & Hsh1 & Hn1 & Ec1 & _) & Hst1 & Ha). cbn [engine thread fst snd] in *. subst a.
    eapply runs_bind; [apply (IH (h ++ written (calls [e])) g1 w1 s1 c1 it l); rewrite ?Ec1; try done; [|lia]|].
    { eapply scan_denotes_mono; [by apply blocks_mono|done]. }
    intros w2 [[c2 a2] seen] [Ha2 Hs2]. cbn [fst snd] in *. apply runs_ret. cbn [fst snd]. by rewrite Ha2, Hs2, Hsh1.
  - eapply runs_bind; [apply (runs_on_cache (blocks g)); [by apply advance_spec|apply Hal]|].
    intros w1 [it1 seen1] [Hsame [Hd1 Hs1]]. cbn [fst snd] in Hd1, Hs1. destruct (steps_read h g w s w1 Hal Hsame) as [Hstep Hb].
    pose proof Hstep as (_ & Hal1 & _).
    eapply runs_bind; [apply (IH h g w1 s c it1 (drop 1 l)); try done; [|lia]|].
    { eapply standing_kept; [|exact Hstep|exact Hb|exact Hst]. apply Hal. }
    intros w2 [[c2 a2] seen] [Ha2 Hs2]. cbn [fst snd] in *. apply runs_ret. cbn [fst snd]. split; [done|]. rewrite Hs1, Hs2. destruct l; simpl; [by rewrite take_nil|done].
Qed.

(** ** Properties *)

(** C9: a scan is a snapshot. Open a new directory, with any strategy but the
    leveled one, run any schedule of calls and compaction steps, and call [scan].
    Then let the client drain the iterator one entry at a time, with any further
    calls and compaction steps between any two entries, flushes and compactions
    that replace the very tables it reads included. No call and no round throws;
    after any number of rounds the client has seen exactly that many of the first
    entries in the range, in order, of the map at the moment of [scan]; and the
    calls are answered as if nobody were reading. *)
Theorem scan_is_snapshot p opts fs capacity es lower upper (es' : list Reader.event) :
  options_ok opts → fs !! manifest_path p = None →
  (∀ o, LsmStorageOptions.compaction_options opts ≠ CompactionOptions.Leveled o) →
  Forall (admissible (CompactionController.create (LsmStorageOptions.compaction_options opts))) (es ++ others es') →
  let ops := calls es in let ops' := calls (others es') in
  fits (written ops ++ written ops') → S (length (written ops ++ written ops')) < loop_fuel →
  (Z.of_nat (1 + length es + length es') < 2 ^ 64)%Z →
  ∃ w c w1 it w2 c2, (s ← open p opts; perform_all (Config s Idle) es) (MkWorld fs (BlockCache.create capacity)) =
      Ok (w, (c, (Op.meanings ∅ ops).2)) ∧
    on_cache (scan (engine c) lower upper) w = Ok (w1, it) ∧
    Reader.run c it es' w1 = Ok (w2, (c2, (Op.meanings (Op.meanings ∅ ops).1 ops').2,
      take (rounds es') (filter (λ e, in_range lower upper e.1) (entries (Op.meanings ∅ ops).1)))).
Proof.
  intros Ho Hf Hc [Hadm Hadm']%Forall_app ops ops' Hfits Hfuel Hids. rewrite length_app in Hfuel.
  destruct (open_perform p opts fs capacity es) as (w & [[s c] a] & Hrun & g & Hal & Hst & _ & Hsh & Eo & _ & En & Ha);
    [done|done|done|done|by eapply fits_submseteq, Hfits; apply submseteq_inserts_r|fold ops; lia|lia|].
  cbn [engine thread fst snd] in *. subst a. pose proof Hal as [_ Ec _ _ _ _]. pose proof (stock_size _ _ _ _ Hal) as Hsz.
  destruct (runs_on_cache (blocks g) (scan s lower upper) w (λ it, denotes (Inv:=BlockCacheSpec.cache_ok (blocks g)) it
      (filter (λ e, in_range lower upper e.1) (entries (shown g (state s)))))) as (w1 & it & Hscan & Hsame & Hd).
  { apply scan_spec; [by eapply engine_read_ok, Hal|]. unfold ops in *. lia. }
  { apply Hal. }
  destruct (steps_read _ g w s w1 Hal Hsame) as [Hstep Hb]. pose proof Hstep as (_ & Hal1 & _).
  destruct (run_spec _ g w1 s c it (filter (λ e : kv, in_range lower upper e.1) (entries (shown g (state s)))) es' Hal1) as (w2 & [[c2 a] seen] & Hrun' & Ha & Hs); [|exact Hd| | |exact Hfits| |lia|].
  - eapply standing_kept; [|exact Hstep|exact Hb|exact Hst]. apply Hal.
  - intros o E. rewrite Ec, Eo in E. destruct (LsmStorageOptions.compaction_options opts) as [x|x|x|] eqn:Eopt; try done. by destruct (Hc x).
  - by rewrite Ec, Eo.
  - rewrite length_app. unfold ops, ops' in *. lia.
  - cbn [fst snd] in Ha, Hs. subst a seen. exists w, (Config s c), w1, it, w2, c2. rewrite Hsh in *. by split_and!.
Qed.
End snapshot.

(** ** A run *)
Section demo.
#[local] Existing Instance demo_zlib.
#[local] Existing Instance demo_snappy.
#[local] Existing Instance demo_snappy_laws.
#[local] Existing Instance demo_snappy_bound.
#[local] Existing Instance demo_farmhash.
#[local] Existing Instance demo_libm.
#[local] Existing Instance demo_json.
#[local] Existing Instance demo_json_laws.
#[local] Instance demo_fuel : LoopFuel := 20.
Import LsmStorageInner Threads Reader.

(** The scan starts before a compaction and ends after it and after two writes. *)
Definition demo_reading : list Reader.event :=
  [Advance] ++ repeat (Other Compaction) 6 ++ [Other (Call (Op.Delete [x63])); Advance; Other (Call (Op.Put [x65] [x05; x05]));
   Other (Call Op.TriggerFlush)] ++ repeat (Other Compaction) 2 ++ [Other (Call (Op.Get [x63])); Advance; Advance].

Lemma scan_is_snapshot_witness : ∃ w c w1 it w2 c2,
  (s ← open "db" (demo_options demo_simple true); perform_all (Config s Idle) (Call <$> demo_ops)) (MkWorld ∅ (BlockCache.create 4)) =
    Ok (w, (c, repeat Op.Done 7)) ∧
  on_cache (scan (engine c) Unbounded Unbounded) w = Ok (w1, it) ∧
  Reader.run c it demo_reading w1 = Ok (w2, (c2, [Op.Done; Op.Done; Op.Done; Op.Found []], [([x62], [x02]); ([x63], [x03; x03]); ([x64], [x04])])).
Proof.
  destruct (scan_is_snapshot "db" (demo_options demo_simple true) ∅ 4 (Call <$> demo_ops) Unbounded Unbounded demo_reading)
    as (w & c & w1 & it & w2 & c2 & Hrun & Hscan & Hread).
  - apply demo_options_ok. by right; left.
  - done.
  - done.
  - repeat constructor; try done; demo_decide.
  - apply demo_fits; demo_decide.
  - demo_decide.
  - demo_decide.
  - exists w, c, w1, it, w2, c2. split; [|split; [exact Hscan|]].
    + rewrite Hrun. refine (f_equal (λ a, Ok (w, (c, a))) _). vm_compute. reflexivity.
    + rewrite Hread. refine (f_equal (λ a, Ok (w2, (c2, a.1, a.2))) (_ : (_, _) = (_, _))). vm_compute. reflexivity.
Defined.

(** The tables it reads are gone by then. *)
Example demo_reading_compacts :
  match (s ← open "db" (demo_options demo_simple true); '(c, _) ← perform_all (Config s Idle) (Call <$> demo_ops);
      it ← on_cache (scan (engine c) Unbounded Unbounded); '(c', _, _) ← Reader.run c it demo_reading; mret (c, c')) (MkWorld ∅ (BlockCache.create 4)) with
  | Ok (_, (c, c')) => Some (ids_of (state (engine c)), ids_of (state (engine c')))
  | Err _ => None
  end = Some ([1; 0], [2; 3]).
Proof. vm_compute. reflexivity. Qed.
End demo.
