(* ===== verification/LsmCrash.v ===== *)
(** * Crashes

    The process dies at any point of a schedule, with logs on.  What the logs'
    streams still buffer is lost, or reaches the files up to any byte; the
    manifest and the tables were written with system calls.  Nothing is assumed
    of any other file, so the process may also die in the middle of a step: until
    its record is in the manifest, a freeze, a flush and a compaction have written
    only such files, and a compaction removes files only after its record
    ([crashed_freeze], [crashed_flush], [crashed_output], [crashed_removal]).
    Opening the directory gives every log back up to its last whole record, on
    top of all tables. *)
From S2P Require Import Prelude Endian Key Iterators Block BlockCache Double Bloom Table Sizes TableIterator Wal MemTable State Layers SimpleLeveled Tiered Leveled Compact Manifest LsmStorage LsmSpec LsmRead LsmWrite LsmGen LsmCompact LsmInstall LsmStrategies LsmLeveled LsmJournal LsmTrace LsmOpen LsmThreads LsmConcurrent LsmEngine.

(** ** Definitions *)
Section crash.
Context `{!Zlib} `{!Snappy} `{!SnappyLaws} `{!SnappyBound} `{!Farmhash} `{!Libm} `{!Json} `{!JsonLaws} `{!LoopFuel}.
Import LsmStorageInner.
Implicit Types (g : ghost) (w : World) (s : LsmStorageInner.t) (h : list kv) (m : MemTable.t) (fs : Fs.t).

(** What may be left of the files. *)
Record crashed w s fs : Prop := {
  cr_manifest : fs !! manifest_path (path s) = files w !! manifest_path (path s);
  cr_tables id : id ∈ ids_of (state s) → fs !! path_of_sst_val s id = files w !! path_of_sst_val s id;
  cr_logs m l buf : m ∈ memtables (state s) → MemTable.wal_ m = Some l → Wal.fp_ l = Some buf →
    ∃ n, fs !! Wal.path_ l = Some (default [] (files w !! Wal.path_ l) ++ take n buf) }.

(** [m'] holds the writes of [m] up to the last record that is whole in its file. *)
Definition survivor fs s m m' : Prop := ∃ rs n i,
  kv_map (MemTable.map_ m) = MemTableSpec.replay rs ∧ fs !! path_of_wal_val s (MemTable.id_ m) = Some (take n (WalSpec.frames rs)) ∧
  kv_map (MemTable.map_ m') = MemTableSpec.replay (take i rs) ∧ i ≤ length rs ∧
  length (WalSpec.frames (take i rs)) ≤ n ∧ (i = length rs ∨ n < length (WalSpec.frames (take (S i) rs))).

(** Nothing is buffered. *)
Definition synced m : Prop := ∀ l, MemTable.wal_ m = Some l → Wal.fp_ l = Some [].

(** ** The records of a log *)
Lemma replay_elem rs e : e ∈ entries (MemTableSpec.replay rs) → e ∈ rs.
Proof.
  intros He. assert (kv_map (entries (MemTableSpec.replay rs)) !! e.1 = Some e.2) as Hl.
  { apply kv_map_lookup; [apply entries_sorted|by destruct e]. }
  rewrite kv_map_entries in Hl. clear He. induction rs as [|[k v] rs IH] using rev_ind; [done|].
  rewrite MemTableSpec.replay_snoc in Hl. apply elem_of_app. apply lookup_insert_Some in Hl as [[-> ->]|[_ Hl]]; [right; destruct e; set_solver|].
  left. by apply IH.
Qed.

Lemma replay_key rs e : e ∈ rs → is_Some (MemTableSpec.replay rs !! e.1).
Proof.
  induction rs as [|[k v] rs IH] using rev_ind; [by intros ?%not_elem_of_nil|].
  rewrite MemTableSpec.replay_snoc. intros [He|He%list_elem_of_singleton]%elem_of_app; [|subst e; by rewrite lookup_insert_eq].
  rewrite lookup_insert_is_Some'. right. by apply IH.
Qed.

(** What a part of a log replays to fits the formats. *)
Lemma replay_ok rs i m : kv_map (MemTable.map_ m) = MemTableSpec.replay rs → Forall kv_ok (MemTable.map_ m) → Forall WalSpec.record_ok rs →
  Forall kv_ok (entries (MemTableSpec.replay (take i rs))).
Proof.
  intros Em Hok Hrs. apply Forall_forall. intros e He%replay_elem. assert (e ∈ rs) as Hin by (by apply (sublist_subseteq _ _ (sublist_take rs i))).
  pose proof (proj1 (Forall_forall _ _) Hrs e Hin) as [Hk Hv]. split_and!; [|done|done].
  destruct (replay_key rs e Hin) as [v Hl]. rewrite <-Em in Hl. apply kv_map_Some_key in Hl.
  apply list_elem_of_fmap_1 in Hl as (e' & -> & He'). by apply (proj1 (Forall_forall _ _) Hok e').
Qed.

(** ** Recovery *)
Lemma crashed_mem w s fs m : LsmStorageOptions.enable_wal (options s) = true → mem_ok w s m → m ∈ memtables (state s) → crashed w s fs →
  ∃ m', MemTable.id_ m' = MemTable.id_ m ∧ mem_on_file fs s m' ∧ survivor fs s m m' ∧ (synced m → MemTable.map_ m' = MemTable.map_ m).
Proof.
  intros Ewal [Hon Hs He Hw] Hm Hcr. destruct (MemTable.wal_ m) as [l|] eqn:El; [|by destruct (Hon Ewal)].
  destruct (Hw l eq_refl) as (Hp & rs & (buf & file & Hfp & Hf & Hlog & Hok) & Hrs).
  destruct (cr_logs _ _ _ Hcr m l buf Hm El Hfp) as [n0 Hfs]. rewrite Hf in Hfs. cbn [default from_option id] in Hfs.
  set (n := length file + n0). assert (file ++ take n0 buf = take n (WalSpec.frames rs)) as Et.
  { rewrite <-Hlog. unfold n. by rewrite take_app_add. }
  rewrite Et in Hfs. destruct (recover_loop_take rs n Hok) as (i & Hloop & Hi & Hle & Hmax).
  set (m' := MemTable.mk (MemTable.id_ m) (entries (MemTableSpec.replay (take i rs))) None 0). exists m'.
  assert (kv_map (MemTable.map_ m') = MemTableSpec.replay (take i rs)) as Em' by apply kv_map_entries.
  split_and!; [done| | |].
  - exists (take n (WalSpec.frames rs)), (length (WalSpec.frames (take i rs))), (take i rs). rewrite Hp in Hfs.
    split_and!; [done|done|by rewrite Em'|apply entries_sorted|by apply (replay_ok rs i m)].
  - exists rs, n, i. rewrite Hp in Hfs. by split_and!.
  - intros Hsy. apply ksorted_ext; [apply entries_sorted|done|]. rewrite Em', <-Hrs.
    specialize (Hsy l El). rewrite Hfp in Hsy. injection Hsy as ->. rewrite app_nil_r in Hlog.
    destruct Hmax as [->|Hlt]; [by rewrite take_ge|].
    rewrite <-(take_drop (S i) rs), WalSpec.frames_app in Hlog. apply (f_equal length) in Hlog. rewrite length_app in Hlog. unfold n in Hlt. lia.
Qed.

Lemma crashed_mems w s fs ms : LsmStorageOptions.enable_wal (options s) = true → crashed w s fs →
  Forall (mem_ok w s) ms → (∀ m, m ∈ ms → m ∈ memtables (state s)) →
  ∃ ms', MemTable.id_ <$> ms' = MemTable.id_ <$> ms ∧ Forall (mem_on_file fs s) ms' ∧ Forall2 (survivor fs s) ms ms' ∧
    (Forall synced ms → mem_stock ms' = mem_stock ms).
Proof.
  intros Ewal Hcr. induction ms as [|m ms IH]; intros Hok Hin; [by exists []|]. apply Forall_cons in Hok as [Hm Hok].
  destruct (crashed_mem w s fs m) as (m' & Eid & Hon & Hsur & Hsy); [done|done|apply Hin; set_solver|done|].
  destruct IH as (ms' & Eids & Hons & Hsurs & Hsys); [done|intros; apply Hin; set_solver|].
  exists (m' :: ms'). rewrite !fmap_cons, Eid, Eids. split_and!; [done|by constructor|by constructor|].
  intros [Hs1 Hs2]%Forall_cons. by rewrite !mem_stock_cons, Hsy, Hsys.
Qed.

(** A crash leaves a directory that can be opened. *)
Lemma crashed_directory h g w s fs data : alive h g w s → journaled w s → LsmStorageOptions.enable_wal (options s) = true → crashed w s fs →
  files w !! manifest_path (path s) = Some data → (Z.of_nat (length data) < 2 ^ 63)%Z →
  ∃ ms, directory fs s ms ∧ Forall2 (survivor fs s) (memtables (state s)) ms ∧
    (Forall synced (memtables (state s)) → mem_stock ms = mem_stock (memtables (state s))).
Proof.
  intros Hal (rs & st & n & (mf & Em & Epm & Hfd & Hfm) & Hok & Hrep) Ewal Hcr Hdata Hlen. pose proof Hal as [].
  destruct (crashed_mems w s fs (memtables (state s))) as (ms & Eids & Hons & Hsurs & Hsys); [done|done|apply al_engine|done|].
  exists ms. split_and!; [|done|done]. split.
  - exists rs, st, n. rewrite Epm in Hfm. rewrite Hdata in Hfm. injection Hfm as ->.
    rewrite (cr_manifest _ _ _ Hcr). by split_and!.
  - intros id Hid. destruct (eo_tables _ _ _ al_engine id Hid) as (t & kvss & d & []). exists t, d. split_and!; try done.
    by rewrite (cr_tables _ _ _ Hcr).
  - exact Eids.
  - by rewrite Ewal.
Qed.

(** What the engine stores if [ms] is what is left of its memtables. *)
Definition left_over g s (ms : list MemTable.t) : gmap bytes bytes :=
  visible (merged (MemTable.map_ <$> ms) ∪ stored (content g) (ids_of (state s))).

Lemma left_over_stock g s ms : left_over g s ms = visible (kv_map (mem_stock ms ++ level_entries g (ids_of (state s)))).
Proof.
  unfold left_over. rewrite kv_map_app, <-stored_level. do 2 f_equal. unfold mem_stock.
  induction ms as [|m ms IH]; [done|]. rewrite !fmap_cons, merged_cons, IH. by rewrite <-kv_map_app.
Qed.

(** ** Steps that were interrupted *)

(** Only tables outside of the tree and logs of no memtable differ. *)
Lemma crashed_outside g w s fs : engine_ok g w s →
  (∀ p, fs !! p ≠ files w !! p → (∃ id, p = path_of_sst_val s id ∧ id ∉ ids_of (state s)) ∨
    (∃ id, p = path_of_wal_val s id ∧ id ∉ mem_ids (state s))) → crashed w s fs.
Proof.
  intros Hok Hout. assert (∀ p, (∀ id, id ∉ ids_of (state s) → p ≠ path_of_sst_val s id) → (∀ id, id ∉ mem_ids (state s) → p ≠ path_of_wal_val s id) →
    fs !! p = files w !! p) as Hsame.
  { intros p Hs Hw. destruct (decide (fs !! p = files w !! p)) as [|Hne]; [done|].
    destruct (Hout p Hne) as [(id & -> & Hid)|(id & -> & Hid)]; exfalso; [by apply (Hs id)|by apply (Hw id)]. }
  split.
  - apply Hsame; intros id _ E; [by apply (Names.path_sst_manifest s id)|by apply (Names.path_wal_manifest s id)].
  - intros id Hid. apply Hsame; intros id' Hid' E; [apply Names.path_of_sst_inj in E; congruence|by apply Names.path_sst_wal in E].
  - intros m l buf Hm Hl _. exists 0. pose proof (proj1 (Forall_forall _ _) (eo_mems _ _ _ Hok) m Hm) as [_ _ _ Hw].
    destruct (Hw l Hl) as (Ep & rs & (? & file & _ & Hf & _) & _). rewrite Hsame.
    + rewrite Hf. simpl. by rewrite app_nil_r.
    + rewrite Ep. intros id' _ E. by apply eq_sym, Names.path_sst_wal in E.
    + rewrite Ep. intros id' Hid' E. apply Names.path_wal_inj in E as <-. by apply Hid', list_elem_of_fmap_2.
Qed.

(** Nothing of what is buffered has reached the files. *)
Lemma crashed_at_once g w s : engine_ok g w s → crashed w s (files w).
Proof. intros Hok. by apply (crashed_outside g). Qed.

(** A freeze that has created the new log. *)
Lemma crashed_freeze g w s w' m : engine_ok g w s → new_memtable s (next_sst_id s) w = Ok (w', m) → crashed w s (files w').
Proof.
  intros Hok Hrun. destruct (new_memtable_spec s w (next_sst_id s)) as (w0 & m0 & E & _ & _ & _ & _ & Hf).
  rewrite Hrun in E. injection E as <- <-. apply (crashed_outside g); [done|]. intros p Hp. right. exists (next_sst_id s).
  split; [apply dec_stable; intros Hne; by apply Hp, Hf|]. intros Hin. pose proof (eo_fresh _ _ _ Hok (next_sst_id s) (or_introl Hin)). lia.
Qed.

(** A flush that has written any part of its table. *)
Lemma crashed_flush g w s m data : engine_ok g w s → m ∈ LsmStorageState.imm_memtables (state s) →
  crashed w s (<[path_of_sst_val s (MemTable.id_ m) := data]> (files w)).
Proof.
  intros Hok Hm. apply (crashed_outside g); [done|]. intros p Hp. left. exists (MemTable.id_ m).
  split; [apply dec_stable; intros Hne; apply Hp; by rewrite lookup_insert_ne by done|].
  pose proof (eo_nodup _ _ _ Hok) as (_ & Hd & _)%NoDup_app. apply Hd. apply list_elem_of_fmap_2. by right.
Qed.

(** A compaction that has written any part of a table of its output. *)
Lemma crashed_output g w s id data : engine_ok g w s → next_sst_id s ≤ id → crashed w s (<[path_of_sst_val s id := data]> (files w)).
Proof.
  intros Hok Hid. apply (crashed_outside g); [done|]. intros p Hp. left. exists id.
  split; [apply dec_stable; intros Hne; apply Hp; by rewrite lookup_insert_ne by done|].
  intros Hin. assert (id < next_sst_id s) by (apply (eo_fresh _ _ _ Hok); right; by eapply engine_some). lia.
Qed.

(** A compaction that has installed its output and removed a part of its inputs. *)
Lemma crashed_removal g w s ids : engine_ok g w s → (∀ id, id ∈ ids → id ∉ ids_of (state s)) →
  crashed w s (foldr delete (files w) (path_of_sst_val s <$> ids)).
Proof.
  intros Hok Hids. apply (crashed_outside g); [done|]. intros p Hp. left.
  destruct (decide (p ∈ path_of_sst_val s <$> ids)) as [(id & -> & Hid)%list_elem_of_fmap_1|Hn]; [exists id; auto|].
  destruct Hp. by rewrite lookup_foldr_delete_not_elem_of.
Qed.

(** ** Properties *)

(** C10: a crash loses at most the ends of the logs. With logs on and any strategy
    but the leveled one, stop a process at any point of a schedule of calls and
    compaction steps, in the middle of a compaction too. Of what the logs' streams
    buffer any number of bytes has reached the files; the manifest and the tables
    of the tree are as written, and any other file may hold anything. Opening the
    directory succeeds, and the engine stores all tables of the tree under the
    memtables with, each, the longest prefix of its writes that is whole in its
    log. If nothing was buffered, as after a [sync] of an engine without immutable
    memtables, nothing is lost at all. *)
Theorem crash_loses_log_ends p opts (fs0 : Fs.t) capacity capacity' es :
  options_ok opts → LsmStorageOptions.enable_wal opts = true → fs0 !! manifest_path p = None →
  (∀ o, LsmStorageOptions.compaction_options opts ≠ CompactionOptions.Leveled o) →
  Forall (Threads.admissible (CompactionController.create (LsmStorageOptions.compaction_options opts))) es →
  fits (written (Threads.calls es)) → S (length (written (Threads.calls es))) < loop_fuel → (Z.of_nat (1 + length es) < 2 ^ 64 - 1)%Z →
  ∃ w c g, (s ← open p opts; Threads.perform_all (Threads.Config s Threads.Idle) es) (MkWorld fs0 (BlockCache.create capacity)) =
      Ok (w, (c, (Op.meanings ∅ (Threads.calls es)).2)) ∧ let s := Threads.engine c in engine_ok g w s ∧
    ∀ fs data, crashed w s fs → files w !! manifest_path p = Some data → (Z.of_nat (length data) < 2 ^ 63)%Z →
    ∃ ms w' s' g', open p opts (MkWorld fs (BlockCache.create capacity')) = Ok (w', s') ∧ engine_ok g' w' s' ∧
      Forall2 (survivor fs s) (memtables (state s)) ms ∧ shown g' (state s') = left_over g s ms ∧
      (Forall synced (memtables (state s)) → shown g' (state s') = (Op.meanings ∅ (Threads.calls es)).1).
Proof.
  intros Ho Ewal Hf Hc Hadm Hfits Hfuel Hids.
  destruct (open_perform p opts fs0 capacity es) as (w & [c a] & Hrun & g & Hal & _ & Hj & Hsh & Eo & Ep & En & Ha); [done..|lia|].
  cbn [fst snd] in *. subst a. exists w, c, g. split; [done|]. split; [apply Hal|]. intros fs data Hcr Hdata Hlen. rewrite <-Eo, <-Ep in *.
  destruct (crashed_directory _ g w _ fs data Hal Hj) as (ms & Hdir & Hsurs & Hsys); [done..|].
  destruct (reopen_spec _ (mem_stock ms ++ level_entries g (ids_of (state (Threads.engine c)))) g w fs _ ms capacity' Hal Hdir)
    as (w' & s' & Hopen & g' & [Hok _ _ _ _ _] & Hsh' & _); [done|lia|].
  exists ms, w', s', g'. rewrite left_over_stock. split_and!; [done..|]. intros Hsy. rewrite Hsh', Hsys by done.
  rewrite <-Hsh. unfold shown. by rewrite contents_stock.
Qed.
End crash.

(** ** A run *)
Section demo.
#[local] Existing Instance demo_zlib.
#[local] Existing Instance demo_snappy.
#[local] Existing Instance demo_snappy_laws.
#[local] Existing Instance demo_snappy_bound.
#[local] Existing Instance demo_farmhash.
#[local] Existing Instance demo_libm.
#[local] Existing Instance demo_json.
#[local] Existing Instance demo_json_laws.
#[local] Instance demo_fuel : LoopFuel := 20.
Import LsmStorageInner Threads.

Lemma crash_loses_log_ends_witness : ∃ w c w' s' g',
  (s ← open "db" (demo_options demo_simple true); perform_all (Config s Idle) demo_schedule) (MkWorld ∅ (BlockCache.create 4)) =
    Ok (w, (c, repeat Op.Done 9 ++ [Op.Found [x02]; Op.Done; Op.Found []])) ∧
  open "db" (demo_options demo_simple true) (MkWorld (files w) (BlockCache.create 4)) = Ok (w', s') ∧ engine_ok g' w' s'.
Proof.
  destruct (crash_loses_log_ends "db" (demo_options demo_simple true) ∅ 4 4 demo_schedule) as (w & c & g & Hrun & Hok & Hcrash).
  - apply demo_options_ok. by right; left.
  - done.
  - done.
  - done.
  - apply demo_schedule_admissible.
  - apply demo_fits; demo_decide.
  - demo_decide.
  - demo_decide.
  - assert (match (s ← open "db" (demo_options demo_simple true); perform_all (Config s Idle) demo_schedule) (MkWorld ∅ (BlockCache.create 4)) with
      | Ok (w, _) => demo_short w | Err _ => false end = true) as Hlen by (vm_compute; reflexivity).
    rewrite Hrun in Hlen. assert (∃ data, files w !! manifest_path "db" = Some data) as [data Hdata].
    { unfold demo_short in Hlen. destruct (files w !! manifest_path "db"); [by eexists|done]. }
    destruct (Hcrash (files w) data) as (ms & w' & s' & g' & Hopen & Hok' & _); [by eapply crashed_at_once|exact Hdata|by apply (demo_short_spec w)|].
    exists w, c, w', s', g'. split; [|split; [exact Hopen|exact Hok']]. rewrite Hrun.
    refine (f_equal (λ a, Ok (w, (c, a))) _). vm_compute. reflexivity.
Defined.

(** [sync] writes out the log of the mutable memtable only.  A put that fills the
    memtable is followed by [sync]; then the process dies with its buffers, and the
    write is gone. *)
Example sync_leaves_frozen_logs :
  match (s ← open "db" (demo_options demo_simple true); Op.runs_all s [Op.Put [x61] [x01]; Op.Put [x62] [x02]; Op.Sync; Op.Get [x61]])
      (MkWorld ∅ (BlockCache.create 4)) with
  | Ok (w, (_, before)) =>
      match (s ← open "db" (demo_options demo_simple true); Op.runs_all s [Op.Get [x61]]) (MkWorld (files w) (BlockCache.create 4)) with
      | Ok (_, (_, after)) => Some (before, after)
      | Err _ => None
      end
  | Err _ => None
  end = Some ([Op.Done; Op.Done; Op.Done; Op.Found [x01]], [Op.Found []]).
Proof. vm_compute. reflexivity. Qed.

(** Two writers may both see a full memtable and freeze it in turn: the second one
    freezes an empty memtable, whose flush asks for a filter of no keys, and the
    number of its bits is computed from a quotient by zero. *)
Example empty_memtable_flush :
  match (s ← open "db" (demo_options demo_simple false); s ← put s [x61] [x01; x02; x03]; s ← force_freeze_memtable s;
      s ← force_flush_next_imm_memtable s; force_flush_next_imm_memtable s) (MkWorld ∅ (BlockCache.create 4)) with
  | Err (UB _) => true
  | _ => false
  end = true.
Proof. vm_compute. reflexivity. Qed.

(** The life of one process: open, calls, the destructor. *)
Definition process (ops : list Op.t) (fs : Fs.t) : res (Fs.t * list Op.answer) :=
  match (s ← open "db" (demo_options CompactionOptions.NoCompaction true); '(s, a) ← Op.runs_all s ops; MiniLsm.destroy s;; mret a)
      (MkWorld fs (BlockCache.create 4)) with
  | Ok (w, a) => Ok (files w, a)
  | Err e => Err e
  end.

(** A write survives one restart and not the second: the second process writes its
    first record over the one that names the log of the first. *)
Example third_process_loses_data :
  ('(fs, a) ← process [Op.Put [x61] [x01]] ∅; '(fs, b) ← process [Op.Get [x61]] fs; '(_, c) ← process [Op.Get [x61]] fs; mret (a, b, c)) =
  Ok ([Op.Done], [Op.Found [x01]], [Op.Found []]).
Proof. vm_compute. reflexivity. Qed.
End demo.
