(* ===== verification/Cli.v ===== *)
(** * The command line tool: bin/mini_lsm_cli.cpp

    A session reads lines, splits them into words and calls the engine.  The
    flush thread of the open engine runs between the lines.  The second half
    says what a session should print: the lines are requests to a map that is
    on disk, and open or not. *)
From S2P Require Import Prelude Endian Key Iterators Block BlockCache Double Bloom Table Sizes TableIterator Wal MemTable State Layers SimpleLeveled Tiered Leveled Compact Manifest LsmStorage LsmSpec LsmRead LsmWrite LsmGen LsmCompact LsmInstall LsmStrategies LsmLeveled LsmJournal LsmTrace LsmOpen LsmThreads LsmConcurrent LsmEngine.

(** ** Definitions *)
Module Cli.
Import LsmStorageInner.

(** A text literal. *)
Definition text (s : string) : bytes := String.list_byte_of_string s.
Definition newline : bytes := [x0a].

(** *** The lines of the input

    [std::getline] takes the characters up to a newline, and what is left at the
    end of the input if it is not empty. *)
Fixpoint lines_from (line : bytes) (input : bytes) : list bytes :=
  match input with
  | [] => if decide (line = []) then [] else [line]
  | c :: input => if decide (c = x0a) then line :: lines_from [] input else lines_from (line ++ [c]) input
  end.
Definition lines (input : bytes) : list bytes := lines_from [] input.

(** *** [std::istringstream >> std::string]

    Leading white space is skipped; the word ends at the next white space.  It
    fails if there is no word left. *)
Definition isspace (c : byte) : bool := bool_decide (c ∈ [x20; x09; x0a; x0b; x0c; x0d]).

Fixpoint skip_spaces (iss : bytes) : bytes :=
  match iss with c :: rest => if isspace c then skip_spaces rest else iss | [] => [] end.
Fixpoint take_word (iss : bytes) : bytes * bytes :=
  match iss with
  | c :: rest => if isspace c then ([], iss) else let r := take_word rest in (c :: r.1, r.2)
  | [] => ([], [])
  end.
Definition read (iss : bytes) : option (bytes * bytes) :=
  match skip_spaces iss with [] => None | iss => Some (take_word iss) end.

(** *** The messages *)
Definition say (s : string) : bytes := text s ++ newline.
Definition ok : bytes := say "OK".
Definition not_opened : bytes := say "Error: DB not opened. Run 'open <path>' first.".

(** [opts] of the code. *)
Definition options : LsmStorageOptions.t :=
  let o := LsmStorageOptions.default_for_week1_test in
  LsmStorageOptions.mk (LsmStorageOptions.block_size o) (LsmStorageOptions.target_sst_size o) (LsmStorageOptions.num_memtable_limit o)
    (LsmStorageOptions.compaction_options o) true (LsmStorageOptions.serializable o) (LsmStorageOptions.compression o).

(** The constructor of [LsmStorageInner] makes a block cache of its own. *)
Definition block_cache_capacity : nat := Z.to_nat (Z.shiftl 1 20).
Definition new_cache : eff World unit := λ w, Ok (MkWorld (files w) (BlockCache.create block_cache_capacity), tt).

Section code.
Context `{!Zlib} `{!Snappy} `{!Farmhash} `{!Libm} `{!Json} `{!LoopFuel}.

(** [db->close()], if there is one. *)
Definition close_db (db : option t) : eff World (option t) :=
  match db with Some s => s ← MiniLsm.close s; mret (Some s) | None => mret None end.

(** *** The commands

    On what follows the command's name.  An exception ends the model of the
    session: the code prints it and goes on with what the call left behind. *)
Definition open_command (db : option t) (iss : bytes) : eff World (option t * bytes) :=
  match read iss with
  | None => mret (db, say "Usage: open <path>")
  | Some (path, _) =>
      db ← close_db db;
      new_cache;;
      s ← open (String.string_of_list_byte path) options;
      match db with Some old => MiniLsm.destroy old | None => mret tt end;;
      mret (Some s, ok)
  end.

Definition put_command (db : option t) (iss : bytes) : eff World (option t * bytes) :=
  match db with
  | None => mret (db, not_opened)
  | Some s =>
      match read iss with
      | None => mret (db, say "Usage: put <k> <v>")
      | Some (k, iss) =>
          match read iss with
          | None => mret (db, say "Usage: put <k> <v>")
          | Some (v, _) => s ← put s k v; mret (Some s, ok)
          end
      end
  end.

Definition get_command (db : option t) (iss : bytes) : eff World (option t * bytes) :=
  match db with
  | None => mret (db, not_opened)
  | Some s =>
      match read iss with
      | None => mret (db, say "Usage: get <k>")
      | Some (k, _) =>
          val ← get s k;
          mret (db, if decide (val ≠ []) then val ++ newline else say "(not found)")
      end
  end.

Definition delete_command (db : option t) (iss : bytes) : eff World (option t * bytes) :=
  match db with
  | None => mret (db, not_opened)
  | Some s =>
      match read iss with
      | None => mret (db, say "Usage: delete <k>")
      | Some (k, _) => s ← del s k; mret (Some s, ok)
      end
  end.

(** One line of a scan's output. *)
Definition print_entry (e : kv) : bytes := e.1 ++ text " " ++ e.2 ++ newline.

Definition scan_command (db : option t) (iss : bytes) : eff World (option t * bytes) :=
  match db with
  | None => mret (db, not_opened)
  | Some s =>
      match read iss with
      | None => mret (db, say "Usage: scan <lower> <upper>")
      | Some (l, iss) =>
          match read iss with
          | None => mret (db, say "Usage: scan <lower> <upper>")
          | Some (u, _) =>
              let lower := if decide (l = text "*") then Unbounded else Included l in
              let upper := if decide (u = text "*") then Unbounded else Excluded u in
              entries ← on_cache (iter ← scan s lower upper; collect loop_fuel iter);
              mret (db, mjoin (print_entry <$> entries) ++ ok)
          end
      end
  end.

Definition flush_command (db : option t) : eff World (option t * bytes) :=
  match db with
  | None => mret (db, not_opened)
  | Some s => s ← force_flush_next_imm_memtable s; mret (Some s, ok)
  end.

Definition compact_command (db : option t) : eff World (option t * bytes) :=
  match db with
  | None => mret (db, not_opened)
  | Some s => s ← force_full_compaction s; mret (Some s, ok)
  end.

(** The body of the loop: the engine, the output, and whether to go on. *)
Definition command (db : option t) (line : bytes) : eff World (option t * bytes * bool) :=
  if decide (line = []) then mret (db, [], true) else
  let '(cmd, iss) := default ([], []) (read line) in
  if decide (cmd = text "quit" ∨ cmd = text "exit") then db ← close_db db; mret (db, [], false)
  else
    r ← (if decide (cmd = text "open") then open_command db iss
         else if decide (cmd = text "put") then put_command db iss
         else if decide (cmd = text "get") then get_command db iss
         else if decide (cmd = text "delete") then delete_command db iss
         else if decide (cmd = text "scan") then scan_command db iss
         else if decide (cmd = text "flush") then flush_command db
         else if decide (cmd = text "compact") then compact_command db
         else mret (db, text "Unknown command: " ++ cmd ++ newline));
    mret (r, true).

(** What happens next: a line of the input, or a pass of the flush thread. *)
Inductive event :=
| Line (line : bytes)
| FlushThread.

Fixpoint repl (db : option t) (es : list event) : eff World (option t * bytes) :=
  match es with
  | [] => mret (db, [])
  | FlushThread :: es =>
      db ← match db with Some s => '(s, _) ← trigger_flush s; mret (Some s) | None => mret None end;
      repl db es
  | Line line :: es =>
      '(db, out, continue) ← command db line;
      if (continue : bool) then '(db, rest) ← repl db es; mret (db, out ++ rest) else mret (db, out)
  end.

(** The loop, the last [close] and the destructor of [db]. *)
Definition main (es : list event) : eff World bytes :=
  '(db, out) ← repl None es;
  db ← close_db db;
  match db with Some s => MiniLsm.destroy s | None => mret tt end;;
  mret out.
End code.

(** The lines of a schedule. *)
Definition typed (es : list event) : list bytes :=
  omap (λ e, match e with Line line => Some line | FlushThread => None end) es.
End Cli.

(** ** What a session should print *)
Module CliSpec.
Import Cli.

(** The words of a line. *)
Fixpoint words (s : bytes) : list bytes :=
  match s with
  | [] => []
  | c :: s =>
      if isspace c then words s
      else match s with
           | d :: _ => if isspace d then [c] :: words s
                       else match words s with w :: ws => (c :: w) :: ws | [] => [[c]] end
           | [] => [[c]]
           end
  end.

(** What a line asks for.  [Misuse] is a complaint of a command that looks for
    the engine first. *)
Inductive request :=
| Nothing
| Stop
| Complain (message : bytes)
| Misuse (message : bytes)
| Open (path : bytes)
| Store (key value : bytes)
| Lookup (key : bytes)
| Remove (key : bytes)
| Range (lower upper : bytes)
| Flush
| Compact.

Definition request_of (line : bytes) : request :=
  if decide (line = []) then Nothing else
  match words line with
  | [] => Complain (text "Unknown command: " ++ newline)
  | cmd :: args =>
      if decide (cmd = text "quit" ∨ cmd = text "exit") then Stop
      else if decide (cmd = text "open") then match args with path :: _ => Open path | [] => Complain (say "Usage: open <path>") end
      else if decide (cmd = text "put") then match args with k :: v :: _ => Store k v | _ => Misuse (say "Usage: put <k> <v>") end
      else if decide (cmd = text "get") then match args with k :: _ => Lookup k | [] => Misuse (say "Usage: get <k>") end
      else if decide (cmd = text "delete") then match args with k :: _ => Remove k | [] => Misuse (say "Usage: delete <k>") end
      else if decide (cmd = text "scan") then match args with l :: u :: _ => Range l u | _ => Misuse (say "Usage: scan <lower> <upper>") end
      else if decide (cmd = text "flush") then Flush
      else if decide (cmd = text "compact") then Compact
      else Complain (text "Unknown command: " ++ cmd ++ newline)
  end.

(** The map on disk, and whether it is open. *)
Record disk := Disk { stored : gmap bytes bytes; opened : bool }.

Definition bound (b : bytes) (f : bytes → Bound) : Bound := if decide (b = text "*") then Unbounded else f b.

(** The answer of an open map. *)
Definition reply (m : gmap bytes bytes) (r : request) : gmap bytes bytes * bytes :=
  match r with
  | Store k v => (<[k := v]> m, ok)
  | Remove k => (delete k m, ok)
  | Lookup k => (m, match m !! k with Some v => v ++ newline | None => say "(not found)" end)
  | Range l u => (m, mjoin (print_entry <$> filter (λ e, in_range (bound l Included) (bound u Excluded) e.1) (entries m)) ++ ok)
  | Misuse message => (m, message)
  | _ => (m, ok)
  end.

Definition answer (d : disk) (r : request) : disk * bytes :=
  match r with
  | Nothing | Stop => (d, [])
  | Complain message => (d, message)
  | Open _ => (Disk (stored d) true, ok)
  | _ => if opened d then let a := reply (stored d) r in (Disk a.1 true, a.2) else (d, not_opened)
  end.

Fixpoint answers (d : disk) (lines : list bytes) : disk * bytes :=
  match lines with
  | [] => (d, [])
  | line :: lines =>
      match request_of line with
      | Stop => (d, [])
      | r => let a := answer d r in let rest := answers a.1 lines in (rest.1, a.2 ++ rest.2)
      end
  end.

(** The directory [p] is opened, at most once. *)
Fixpoint opens (p : string) (opened : bool) (lines : list bytes) : bool :=
  match lines with
  | [] => true
  | line :: lines =>
      match request_of line with
      | Stop => true
      | Open path => negb opened && bool_decide (String.string_of_list_byte path = p) && opens p true lines
      | _ => opens p opened lines
      end
  end.

(** What the lines write. *)
Definition writes (r : request) : list kv :=
  match r with Store k v => [(k, v)] | Remove k => [(k, [])] | _ => [] end.
Definition written (lines : list bytes) : list kv := mjoin (writes ∘ request_of <$> lines).
End CliSpec.

(** ** Words *)
Section words.
Import Cli CliSpec.

Lemma words_space c s : isspace c = true → words (c :: s) = words s.
Proof. intros Hc. cbn [words]. by rewrite Hc. Qed.

Lemma words_word c s : isspace c = false → words (c :: s) = (take_word (c :: s)).1 :: words (take_word (c :: s)).2.
Proof.
  revert c; induction s as [|d s IH]; intros c Hc; cbn [words take_word]; rewrite Hc; [done|]. cbn [fst snd].
  destruct (isspace d) eqn:Hd; [cbn [fst snd]; by rewrite words_space|]. specialize (IH d Hd). cbn [words take_word] in IH. rewrite Hd in IH. by rewrite IH.
Qed.

(** Reading takes the words of the line one after the other. *)
Lemma words_read s : words s = match read s with Some (w, rest) => w :: words rest | None => [] end.
Proof.
  unfold read. induction s as [|c s IH]; [done|]. cbn [skip_spaces]. destruct (isspace c) eqn:Hc; [by rewrite words_space|].
  rewrite words_word by done. by destruct (take_word (c :: s)).
Qed.

Lemma read_nonempty s w rest : read s = Some (w, rest) → w ≠ [].
Proof.
  unfold read. induction s as [|c s IH]; [done|]. cbn [skip_spaces]. destruct (isspace c) eqn:Hc; [done|].
  cbn [take_word]. rewrite Hc. intros E. injection E as <- <-. done.
Qed.
End words.

(** ** A line *)
Section session.
Context `{!Zlib} `{!Snappy} `{!SnappyLaws} `{!SnappyBound} `{!Farmhash} `{!Libm} `{!Json} `{!JsonLaws} `{!LoopFuel}.
Import LsmStorageInner Cli CliSpec.
Implicit Types (g : ghost) (w : World) (s : LsmStorageInner.t) (h : list kv).

Lemma shown_nonempty g st k : shown g st !! k ≠ Some [].
Proof. unfold shown. by intros [_ ?]%lookup_visible. Qed.

Section line.
Context h g w s (Hal : alive h g w s) (Ho : LsmStorageInner.options s = Cli.options).
#[local] Abbreviation m := (shown g (state s)).

(** The rest of a line, as a request to the open engine. *)
Definition served (h' : list kv) (d : gmap bytes bytes * bytes) (w' : World) (r : option t * bytes) : Prop :=
  ∃ s', r.1 = Some s' ∧ r.2 = d.2 ∧ steps h' (S (length h')) g w s d.1 w' s'.

Lemma controller : compaction_controller s = CompactionController.NoCompaction.
Proof. destruct Hal as [_ -> _ _ _ _]. by rewrite Ho. Qed.

Context (r : request) (Hok : Forall kv_ok (writes r)).
#[local] Abbreviation h' := (h ++ writes r).
Context (Hfits : fits h') (Hfuel : S (length h') < loop_fuel) (Hids : (Z.of_nat (next_sst_id s + S (length h')) < 2 ^ 64)%Z).

Lemma served_same message : reply m r = (m, message) → served h' (reply m r) w (Some s, message).
Proof.
  intros ->. exists s. split_and!; [done..|]. eapply steps_mono; [| |by apply (steps_refl h 0)]; [by apply submseteq_inserts_r|lia].
Qed.

(** A call of the engine. *)
Lemma served_op (op : Op.t) {A} (c : eff World A) (f : A → eff World (t * Op.answer)) (f' : A → eff World (option t * bytes)) (d : gmap bytes bytes * bytes) :
  Op.writes op = writes r → Op.admissible CompactionController.NoCompaction op → Op.run s op = c ≫= f → d.1 = (Op.meaning m op).1 →
  (∀ a w' (P : World → t → Prop), runs (f a) w' (λ w' x, P w' x.1 ∧ x.2 = (Op.meaning m op).2) →
    runs (f' a) w' (λ w' x, ∃ s', x.1 = Some s' ∧ x.2 = d.2 ∧ P w' s')) →
  runs (c ≫= f') w (served h' d).
Proof.
  intros Hw Hadm E Ed Hf. eapply (runs_bind_inv c f f'); [intros a w'; apply Hf|]. rewrite <-E, Ed. unfold served. rewrite <-Hw in Hfits, Hfuel, Hids |- *.
  by apply run_step; [|rewrite controller|..].
Qed.

Lemma put_served iss : r = match words iss with k :: v :: _ => Store k v | _ => Misuse (say "Usage: put <k> <v>") end →
  runs (put_command (Some s) iss) w (served h' (reply m r)).
Proof.
  rewrite words_read. unfold put_command. destruct (read iss) as [[k iss']|]; [|intros E; apply runs_ret, served_same; by rewrite E].
  rewrite words_read. destruct (read iss') as [[v rest]|] eqn:Hv; [|intros E; apply runs_ret, served_same; by rewrite E].
  intros E. pose proof (read_nonempty _ _ _ Hv) as Hne. pose proof Hok as Hkv. rewrite E in Hkv. apply Forall_inv in Hkv. rewrite E at 2.
  apply (served_op (Op.Put k v) _ (λ s, mret (s, Op.Done))); [by rewrite E|done|done|by simpl; rewrite decide_False|].
  intros a w' P [Ha _]%runs_ret_inv. apply runs_ret. by exists a.
Qed.

Lemma get_served iss : r = match words iss with k :: _ => Lookup k | [] => Misuse (say "Usage: get <k>") end →
  runs (get_command (Some s) iss) w (served h' (reply m r)).
Proof.
  rewrite words_read. unfold get_command. destruct (read iss) as [[k rest]|]; [|intros E; apply runs_ret, served_same; by rewrite E].
  intros E. rewrite E at 2. apply (served_op (Op.Get k) _ (λ v, mret (s, Op.Found v))); [by rewrite E|done..|].
  intros v w' P [Ha [= ->]]%runs_ret_inv. apply runs_ret. exists s. split_and!; [done| |done]. simpl.
  pose proof (shown_nonempty g (state s) k) as Hne. destruct (m !! k) as [v|]; simpl; [|done].
  rewrite decide_True; [done|]. by intros ->.
Qed.

Lemma delete_served iss : r = match words iss with k :: _ => Remove k | [] => Misuse (say "Usage: delete <k>") end →
  runs (delete_command (Some s) iss) w (served h' (reply m r)).
Proof.
  rewrite words_read. unfold delete_command. destruct (read iss) as [[k rest]|]; [|intros E; apply runs_ret, served_same; by rewrite E].
  intros E. pose proof Hok as Hkv. rewrite E in Hkv. apply Forall_inv in Hkv. rewrite E at 2.
  apply (served_op (Op.Delete k) _ (λ s, mret (s, Op.Done))); [by rewrite E|done..|].
  intros a w' P [Ha _]%runs_ret_inv. apply runs_ret. by exists a.
Qed.

Lemma scan_served iss : r = match words iss with l :: u :: _ => Range l u | _ => Misuse (say "Usage: scan <lower> <upper>") end →
  runs (scan_command (Some s) iss) w (served h' (reply m r)).
Proof.
  rewrite words_read. unfold scan_command. destruct (read iss) as [[l iss']|]; [|intros E; apply runs_ret, served_same; by rewrite E].
  rewrite words_read. destruct (read iss') as [[u rest]|]; [|intros E; apply runs_ret, served_same; by rewrite E].
  intros E. rewrite E at 2. apply (served_op (Op.Scan (bound l Included) (bound u Excluded)) _ (λ l, mret (s, Op.Range l))); [by rewrite E|done..|].
  intros es w' P [Ha [= ->]]%runs_ret_inv. apply runs_ret. by exists s.
Qed.

Lemma compact_served : r = Compact → runs (compact_command (Some s)) w (served h' (reply m r)).
Proof.
  intros E. rewrite E at 2. apply (served_op Op.ForceFullCompaction _ (λ s, mret (s, Op.Done))); [by rewrite E|done..|].
  intros a w' P [Ha _]%runs_ret_inv. apply runs_ret. by exists a.
Qed.

Lemma flush_served : r = Flush → runs (flush_command (Some s)) w (served h' (reply m r)).
Proof.
  intros E. rewrite E at 2. apply (served_op Op.ForceFlush _ (λ s, mret (s, Op.Done))); [by rewrite E|done..|].
  intros a w' P [Ha _]%runs_ret_inv. apply runs_ret. by exists a.
Qed.

(** A command that looks for the engine, in the loop. *)
Definition stops (r : request) : bool := match r with Stop => true | _ => false end.
Definition stepped_to (w' : World) (x : option t * bytes * bool) : Prop :=
  let a := answer (Disk m true) r in
  ∃ s', x.1 = (Some s', a.2) ∧ x.2 = negb (stops r) ∧ opened a.1 = true ∧ steps h' (S (length h')) g w s (stored a.1) w' s'.

Lemma served_command (c : eff World (option t * bytes)) : answer (Disk m true) r = (Disk (reply m r).1 true, (reply m r).2) → r ≠ Stop →
  runs c w (served h' (reply m r)) → runs (r ← c; mret (r, true)) w stepped_to.
Proof.
  intros Ea Hs Hc. eapply runs_bind; [exact Hc|]. intros w' [db' out] (s' & E1 & E2 & Hst). simpl in E1, E2. subst db' out.
  apply runs_ret. exists s'. rewrite Ea. split_and!; [done|by destruct r|done|done].
Qed.

Lemma same_command out : answer (Disk m true) r = (Disk m true, out) → r ≠ Stop → stepped_to w (Some s, out, true).
Proof.
  intros Ea Hs. exists s. rewrite Ea. split_and!; [done|by destruct r|done|].
  eapply steps_mono; [| |by apply (steps_refl h 0)]; [by apply submseteq_inserts_r|lia].
Qed.

Lemma stop_command : r = Stop → runs (db ← close_db (Some s); mret (db, [], false)) w stepped_to.
Proof.
  intros E. unfold close_db. assert (h ⊆+ h') as Hsub by (by apply submseteq_inserts_r).
  eapply runs_bind; [eapply runs_bind; [apply (close_step_spec h g); [done|by eapply fits_submseteq|lia]|]|].
  - intros w' s' [Hs _]. by apply (runs_ret _ _ (λ w' db, ∃ s', db = Some s' ∧ steps h 1 g w s m w' s')), (ex_intro _ s').
  - intros w' db (s' & -> & Hs). apply runs_ret. exists s'. replace (answer _ r) with (Disk m true, []: bytes) by (by rewrite E).
    split_and!; [done|by rewrite E|done|]. eapply steps_mono; [exact Hsub| |exact Hs]. lia.
Qed.

(** A line that does not open anything. *)
Lemma command_spec line : r = request_of line → (∀ p, r ≠ Open p) → runs (command (Some s) line) w stepped_to.
Proof.
  unfold request_of, command. intros E Hne. case_decide as Hl; [by apply runs_ret, same_command; rewrite E|]. rewrite words_read in E.
  destruct (read line) as [[cmd iss]|]; cbn [default from_option id] in *; cycle 1.
  { do 8 (rewrite decide_False by (intros ?; naive_solver)). apply runs_ret, same_command; by rewrite E. }
  case_decide; [by apply stop_command|].
  case_decide.
  { destruct (words iss) as [|p ps] eqn:Ew; [|by destruct (Hne p)]. rewrite words_read in Ew. unfold open_command.
    destruct (read iss) as [[??]|]; [done|]. eapply runs_bind; [by apply (runs_ret _ _ (λ w' x, w' = w ∧ x = (Some s, say "Usage: open <path>")))|].
    intros w' x [-> ->]. apply runs_ret, same_command; by rewrite E. }
  repeat case_decide; try (apply served_command; [by rewrite E; repeat case_match|by rewrite E; repeat case_match|]).
  all: first [by apply put_served|by apply get_served|by apply delete_served|by apply scan_served|by apply flush_served|by apply compact_served|idtac].
  eapply runs_bind; [by apply (runs_ret _ _ (λ w' x, w' = w ∧ x = (Some s, text "Unknown command: " ++ cmd ++ newline)))|].
  intros w' x [-> ->]. apply runs_ret, same_command; by rewrite E.
Qed.
End line.

(** ** Sessions *)

(** Before the engine is open, nothing happens. *)
Lemma closed_command line w m : (∀ p, request_of line ≠ Open p) →
  let a := answer (Disk m false) (request_of line) in
  a.1 = Disk m false ∧ command None line w = Ok (w, (None, a.2, negb (stops (request_of line)))).
Proof.
  unfold request_of, command. intros Hne. case_decide as Hl; [done|]. rewrite words_read in *.
  destruct (read line) as [[cmd iss]|]; cbn [default from_option id] in *; cycle 1.
  { do 8 (rewrite decide_False by (intros ?; naive_solver)). done. }
  case_decide; [done|]. case_decide.
  { destruct (words iss) as [|p ps] eqn:Ew; [|by destruct (Hne p)]. rewrite words_read in Ew. unfold open_command.
    by destruct (read iss) as [[??]|]. }
  repeat case_decide; repeat case_match; by simplify_eq.
Qed.

(** Opening. *)
Lemma open_request line q : request_of line = Open q → command None line =
  (r ← (new_cache;; s ← open (String.string_of_list_byte q) Cli.options; mret tt;; mret (Some s, ok)); mret (r, true)).
Proof.
  unfold request_of, command. case_decide as Hl; [done|]. rewrite words_read.
  destruct (read line) as [[cmd iss]|]; [|done]. cbn [default from_option id]. intros E.
  case_decide; [done|]. case_decide; cycle 1.
  { repeat case_decide; repeat case_match; by simplify_eq. }
  rewrite words_read in E. unfold open_command. destruct (read iss) as [[path rest]|]; [|done]. by simplify_eq.
Qed.

Lemma open_cases r : (∃ q, r = Open q) ∨ ∀ q, r ≠ Open q.
Proof. destruct r; try (by right). left. by eexists. Qed.

(** The engine of directory [p] stores [m], with [h] written and ids below [k].
    [J] says whether the manifest describes it. *)
Definition at_engine (p : string) (J : Prop) g (h : list kv) (k : nat) w s (m : gmap bytes bytes) : Prop :=
  alive h g w s ∧ shown g (state s) = m ∧ LsmStorageInner.options s = Cli.options ∧ path s = p ∧ next_sst_id s ≤ k ∧ (J → journaled w s).

Lemma at_engine_steps p (J : Prop) g h h' (k i : nat) w s m m' w' s' : at_engine p J g h k w s m → steps h' i g w s m' w' s' →
  ∃ g', at_engine p J g' h' (k + i) w' s' m'.
Proof.
  intros (Hal & Hsh & Eo & Ep & Hk & Hj) (g' & _ & Hal' & Hsh' & Hn & _ & Eo' & Ep' & Hj').
  exists g'. split_and!; [done|done|congruence|congruence|lia|auto].
Qed.

(** Opening the directory brings [m] back. *)
Definition opens_to (p : string) (J : Prop) (fs : Fs.t) (h : list kv) (m : gmap bytes bytes) (k : nat) : Prop :=
  runs (open p Cli.options) (MkWorld fs (BlockCache.create block_cache_capacity)) (λ w s, ∃ g, at_engine p J g h k w s m).

Section repl.
Context (p : string) (fs0 : Fs.t) (h0 : list kv) (m0 : gmap bytes bytes) (n0 : nat) (J : Prop).
Context (Hopen : opens_to p J fs0 h0 m0 n0).
#[local] Abbreviation at_engine := (at_engine p J).

(** The session stands at [d], with [h] written and ids below [k]. *)
Definition at_disk (h : list kv) (k : nat) w (db : option t) (d : disk) : Prop :=
  match db with
  | None => d = Disk m0 false ∧ files w = fs0 ∧ n0 ≤ k ∧ h0 ⊆+ h
  | Some s => opened d = true ∧ ∃ g, at_engine g h k w s (stored d)
  end.

Lemma at_disk_mono h h' (k k' : nat) w db d : h ⊆+ h' → k ≤ k' → at_disk h k w db d → at_disk h' k' w db d.
Proof.
  intros Hh Hk. destruct db as [s|]; cbn [at_disk].
  - intros (? & g & ? & ? & ? & ? & ? & ?). split; [done|]. exists g. split_and!; [by eapply alive_mono|done..|lia|done].
  - intros (? & ? & ? & ?). split_and!; [done..|lia|by etrans].
Qed.

(** One line. *)
Lemma line_spec h k w db d line : at_disk h k w db d → let r := request_of line in let h' := h ++ writes r in
  (∀ q, r = Open q → opened d = false ∧ String.string_of_list_byte q = p) → Forall kv_ok (writes r) →
  fits h' → S (length h') < loop_fuel → (Z.of_nat (k + S (length h')) < 2 ^ 64)%Z →
  runs (command db line) w (λ w' x, at_disk h' (k + S (length h')) w' x.1.1 (answer d r).1 ∧
    x.1.2 = (answer d r).2 ∧ x.2 = negb (stops r)).
Proof.
  intros Hd r h' Hq Hok Hfits Hfuel Hids. destruct (open_cases r) as [[q Eq]|Hno]; cycle 1.
  - destruct db as [s|].
    + destruct Hd as (Hop & g & He). pose proof He as (Hal & Hsh & Eo & Ep & Hk & _). destruct d as [m b]. simpl in Hop, Hsh. subst b m.
      eapply runs_mono; [apply (command_spec h g w s Hal Eo r Hok Hfits Hfuel); [unfold h' in Hids; lia|done|done]|].
      intros w' [[db' out] c] (s' & E1 & E2 & E3 & Hs). simpl in E1, E2. simplify_eq. cbn [fst snd]. split_and!; [|done..].
      split; [exact E3|]. by eapply at_engine_steps.
    + destruct Hd as (-> & Hf & Hn & Hh). destruct (closed_command line w m0 Hno) as [Ea Ec].
      exists w, (None, (answer (Disk m0 false) r).2, negb (stops r)). split; [exact Ec|]. cbn [fst snd]. split_and!; [|done..].
      fold r in Ea. rewrite Ea. apply (at_disk_mono h _ k); [by apply submseteq_inserts_r|lia|done].
  - destruct (Hq q Eq) as [Hop Ep]. destruct db as [s|]; [by destruct Hd as [E _]; rewrite E in Hop|].
    destruct Hd as (-> & Hf & Hn & Hh). rewrite (open_request line q Eq), Ep.
    replace (answer (Disk m0 false) r) with (Disk m0 true, ok) by (by rewrite Eq). replace (stops r) with false by (by rewrite Eq).
    destruct Hopen as (w1 & s1 & Hrun & g & Hal & Hsh & Eo & Ep1 & Hn1 & Hj).
    exists w1, (Some s1, ok, true). split.
    { unfold new_cache, mbind, eff_bind, mret, eff_ret. by rewrite Hf, Hrun. }
    cbn [fst snd]. split_and!; [|done..]. split; [done|]. exists g. split_and!; try done; [|lia].
    eapply alive_mono; [|exact Hal]. etrans; [exact Hh|]. by apply submseteq_inserts_r.
Qed.

Lemma opens_cons d line ls : opens p (opened d) (line :: ls) = true → let r := request_of line in
  (∀ q, r = Open q → opened d = false ∧ String.string_of_list_byte q = p) ∧ (r ≠ Stop → opens p (opened (answer d r).1) ls = true).
Proof.
  intros Ho r. cbn [opens] in Ho. fold r in Ho. destruct r as [| | | |q|k v|k|k|l u| |] eqn:Er; try (split; [done|]; intros _; simpl; by destruct (opened d) eqn:E; simpl; rewrite ?E).
  - by split.
  - apply andb_prop in Ho as [[Hn Hp%bool_decide_eq_true]%andb_prop Ho]. split; [|done]. intros q' [= <-]. by destruct (opened d).
Qed.

(** A pass of the flush thread. *)
Lemma flush_thread_spec h k w db d : at_disk h k w db d → fits h → S (length h) < loop_fuel → (Z.of_nat (k + S (length h)) < 2 ^ 64)%Z →
  runs (match db with Some s => '(s, _) ← trigger_flush s; mret (Some s) | None => mret None end) w
    (λ w' db', at_disk h (k + S (length h)) w' db' d).
Proof.
  intros Hd Hfits Hfuel Hids. destruct db as [s|]; cycle 1.
  { apply runs_ret. eapply (at_disk_mono h _ k); [done|lia|exact Hd]. }
  destruct Hd as (Hop & g & He). pose proof He as (Hal & Hsh & Eo & Ep & Hk & _). assert (h ++ Op.writes Op.TriggerFlush = h) as Eh by apply app_nil_r.
  eapply (runs_bind_inv (trigger_flush s) (λ x, let '(s, _) := x in mret (s, Op.Done))); cycle 1.
  - apply (run_step h g w s Op.TriggerFlush); rewrite ?Eh; [done..|lia].
  - intros [s' b] w' [Hs _]%runs_ret_inv. rewrite Eh in Hs. apply runs_ret. split; [done|]. rewrite <-Hsh. cbn [Op.meaning fst] in Hs.
    eapply at_engine_steps; [exact He|exact Hs].
Qed.

Lemma typed_cons e es : typed (e :: es) = (match e with Line line => [line] | FlushThread => [] end) ++ typed es.
Proof. by destruct e. Qed.
Lemma written_cons line ls : CliSpec.written (line :: ls) = writes (request_of line) ++ CliSpec.written ls.
Proof. done. Qed.

Lemma repl_spec (N : nat) es : ∀ h k w db d, at_disk h k w db d → opens p (opened d) (typed es) = true →
  let ls := typed es in let h' := h ++ CliSpec.written ls in
  Forall kv_ok (CliSpec.written ls) → fits h' → S (length h') ≤ N → N < loop_fuel → (Z.of_nat (k + length es * N) < 2 ^ 64)%Z →
  runs (repl db es) w (λ w' x, at_disk h' (k + length es * N) w' x.1 (answers d ls).1 ∧ x.2 = (answers d ls).2).
Proof.
  induction es as [|e es IH]; intros h k w db d Hd Ho ls h' Hok Hfits HN Hfuel Hids.
  { apply runs_ret. unfold h'. cbn. rewrite app_nil_r, Nat.add_0_r. by split. }
  unfold ls in *. clear ls. rewrite typed_cons in *. cbn [length] in *. destruct e as [line|]; cbn [app repl] in *.
  - rewrite written_cons in *. apply Forall_app in Hok as [Hok1 Hok2]. destruct (opens_cons d line (typed es) Ho) as [Hq Hnext].
    set (r := request_of line) in *. assert (h' = (h ++ writes r) ++ CliSpec.written (typed es)) as Eh by exact (assoc_L (++) _ _ _).
    assert (h ++ writes r ⊆+ h') as Hsub by (rewrite Eh; by apply submseteq_inserts_r). pose proof (submseteq_length _ _ Hsub) as Hlen.
    assert (k + N ≤ k + S (length es) * N) as HkN by nia.
    eapply runs_bind; [apply (line_spec h k w db d line Hd Hq Hok1); fold r; [by eapply fits_submseteq|lia|lia]|].
    intros w1 [[db1 out] c] (Hd1 & E1 & E2). cbn [fst snd] in *. fold r in Hd1, E1, E2. subst out c. cbn [answers]. fold r.
    destruct (stops r) eqn:Es; cbn [negb].
    { destruct r; try done. apply runs_ret. split; [|done]. eapply at_disk_mono; [exact Hsub| |exact Hd1]. lia. }
    assert (r ≠ Stop) as Hr by (by intros Er; rewrite Er in Es).
    eapply runs_bind; [apply (IH (h ++ writes r) (k + N) w1 db1 (answer d r).1); rewrite <-?Eh; [|by apply Hnext|done|done|done|done|nia]|].
    + eapply at_disk_mono; [done| |exact Hd1]. lia.
    + intros w2 [db2 rest] [Hd2 E2]. cbn [fst snd] in *. subst rest. apply runs_ret. rewrite <-Eh in Hd2.
      replace (k + S (length es) * N) with (k + N + length es * N) by lia. cbn [fst snd]. by destruct r.
  - assert (h ⊆+ h') as Hsub by (by apply submseteq_inserts_r). pose proof (submseteq_length _ _ Hsub) as Hlen.
    eapply runs_bind; [apply (flush_thread_spec h k w db d Hd); [by eapply fits_submseteq|lia|nia]|]. intros w1 db1 Hd1.
    replace (k + S (length es) * N) with (k + N + length es * N) by lia.
    apply IH; [eapply at_disk_mono; [done| |exact Hd1]; lia|done..|nia].
Qed.

(** The end of [main]. *)
Lemma shutdown_engine g h k w s m : at_engine g h k w s m → fits h → (Z.of_nat (k + 1) < 2 ^ 64 - 2)%Z →
  runs (db ← close_db (Some s); match db with Some s => MiniLsm.destroy s | None => mret tt end) w (λ w' _, J →
    ∃ data, files w' !! manifest_path p = Some data ∧ ((Z.of_nat (length data) < 2 ^ 63)%Z → opens_to p False (files w') h m (k + 4))).
Proof.
  intros He Hfits Hids. pose proof He as (Hal & Hsh & Eo & Ep & Hk & _). unfold close_db.
  eapply runs_bind; [eapply runs_bind; [apply (close_step_spec h g); [done|done|lia]|]|].
  { intros w1 s1 [Hs _]. by apply (runs_ret _ _ (λ w' db, ∃ s', db = Some s' ∧ steps h 1 g w s (shown g (state s)) w' s')), (ex_intro _ s1). }
  intros w1 db (s1 & -> & Hs). rewrite Hsh in Hs. destruct (at_engine_steps p J g h h k 1 w s m m w1 s1 He Hs) as (g1 & Hal1 & Hsh1 & Eo1 & Ep1 & Hk1 & Hj1).
  destruct (destroy_runs h g1 w1 s1) as (w2 & [] & Hrun & _); [done|done|lia|]. exists w2, tt. split; [done|]. intros HJ.
  destruct (restart_run h g1 w1 s1) as (w2' & [] & Hrun' & data & Hdata & Hre); [done|by apply Hj1|done|lia|].
  rewrite Hrun in Hrun'. injection Hrun' as <-. rewrite Ep1 in *. exists data. split; [done|]. intros Hlen. rewrite Eo1 in Hre.
  eapply runs_mono; [by apply Hre|]. intros w3 s3 (g3 & Hal3 & Hsh3 & Eo3 & Ep3 & Hn3). exists g3. split_and!; [done|congruence|done|done|lia|done].
Qed.

Lemma main_spec (N : nat) es w : files w = fs0 → opens p false (typed es) = true → let ls := typed es in let h' := h0 ++ CliSpec.written ls in
  let a := answers (Disk m0 false) ls in
  Forall kv_ok (CliSpec.written ls) → fits h' → S (length h') ≤ N → N < loop_fuel → (Z.of_nat (n0 + length es * N + 1) < 2 ^ 64 - 2)%Z →
  runs (main es) w (λ w' out, out = a.2 ∧
    (J → (∀ data, files w' !! manifest_path p = Some data → (Z.of_nat (length data) < 2 ^ 63)%Z) →
     opens_to p False (files w') h' (stored a.1) (n0 + length es * N + 4))).
Proof.
  intros Hf Ho ls h' a Hok Hfits HN Hfuel Hids. unfold main.
  eapply runs_bind; [apply (repl_spec N es h0 n0 w None (Disk m0 false)); [by split_and!|done|done|done|done|done|lia]|].
  intros w1 [db out] [Hd Eout]. cbn [fst snd] in *. fold a in Hd, Eout. subst out. destruct db as [s|].
  - destruct Hd as (_ & g & He). destruct (shutdown_engine g h' _ w1 s _ He) as (w2 & [] & Hrun & Hre); [done|lia|].
    exists w2, a.2. split; [|split; [done|]].
    + apply eff_bind_Ok in Hrun as (w3 & db & E1 & E2). rewrite (eff_bind_run _ _ _ _ _ E1). by rewrite (eff_bind_run _ _ _ _ _ E2).
    + intros HJ Hlen. destruct (Hre HJ) as (data & Hdata & Hopens). by apply Hopens, Hlen.
  - destruct Hd as (Ed & Hf1 & _ & Hh). exists w1, a.2. split; [done|]. split; [done|]. intros _ _. unfold a, ls in *. rewrite Hf1, Ed.
    eapply runs_mono; [exact Hopen|]. intros w2 s2 (g & Hal & ? & ? & ? & ? & _). exists g. split_and!; [by eapply alive_mono|done..|lia|done].
Qed.
End repl.
End session.

(** ** Properties *)
Section properties.
Context `{!Zlib} `{!Snappy} `{!SnappyLaws} `{!SnappyBound} `{!Farmhash} `{!Libm} `{!Json} `{!JsonLaws} `{!LoopFuel}.
Import LsmStorageInner Cli CliSpec.

Lemma cli_options_ok : options_ok Cli.options.
Proof. split; [|done]. apply (bool_decide_unpack _). vm_compute. exact I. Qed.

Lemma new_directory p fs : fs !! manifest_path p = None → opens_to p True fs [] ∅ 1.
Proof.
  intros Hf. eapply runs_mono; [apply open_fresh_spec; [apply cli_options_ok|done|apply create_cache_ok]|].
  intros w s (Hal & Hj & Hsh & Eo & Ep & En). exists ∅. split_and!; [done..|lia|done].
Qed.

(** C11: in a session that opens one new directory, once, the tool answers as a
    map would. Take any input whose lines open no directory but [p], which has no
    manifest, and that at most once ([opens]), with keys and values that fit the
    formats, and any passes of the flush thread between the lines. (A second
    [open] may lose writes: [sync_leaves_frozen_logs].) The session ends without
    an exception and prints exactly what [answers] says: unknown commands, missing
    words and commands before [open] get their messages, [put] and [delete] update
    the map, [get] prints the value or that there is none, [scan] the entries of
    the range in order with [*] for no bound, and nothing follows [quit] or
    [exit]. The bounds are on what is written and on the number of lines and
    passes. *)
Theorem cli_refines_map p fs cache input es (N : nat) :
  fs !! manifest_path p = None → typed es = lines input → opens p false (lines input) = true →
  Forall kv_ok (CliSpec.written (lines input)) → fits (CliSpec.written (lines input)) →
  length (CliSpec.written (lines input)) < N → N < loop_fuel → (Z.of_nat (length es * N + 2) < 2 ^ 64 - 2)%Z →
  ∃ w', main es (MkWorld fs cache) = Ok (w', (answers (Disk ∅ false) (lines input)).2).
Proof.
  intros Hf <- Ho Hok Hfits HN Hfuel Hids.
  destruct (main_spec p fs [] ∅ 1 True (new_directory p fs Hf) N es (MkWorld fs cache)) as (w' & out & Hrun & -> & _); [done..|lia|].
  by exists w'.
Qed.

(** C12: what a session stored is there in the next one, if each opens the
    directory once. A second session of the tool on the files that the first one
    left, again with passes of the flush thread anywhere, prints what [answers]
    says of the map that the first one left behind, however it ended: by [quit],
    by [exit] or with its input. *)
Theorem cli_sessions_keep_data p fs cache cache' input input' es es' (N : nat) :
  fs !! manifest_path p = None → typed es = lines input → typed es' = lines input' →
  opens p false (lines input) = true → opens p false (lines input') = true →
  let h := CliSpec.written (lines input) ++ CliSpec.written (lines input') in
  Forall kv_ok h → fits h → length h < N → N < loop_fuel → (Z.of_nat ((length es + length es') * N + 6) < 2 ^ 64 - 2)%Z →
  ∃ w', main es (MkWorld fs cache) = Ok (w', (answers (Disk ∅ false) (lines input)).2) ∧
    ((∀ data, files w' !! manifest_path p = Some data → (Z.of_nat (length data) < 2 ^ 63)%Z) →
     ∃ w'', main es' (MkWorld (files w') cache') =
       Ok (w'', (answers (Disk (stored (answers (Disk ∅ false) (lines input)).1) false) (lines input')).2)).
Proof.
  intros Hf <- <- Ho Ho' h [Hok Hok']%Forall_app Hfits HN Hfuel Hids. unfold h in HN. rewrite length_app in HN.
  destruct (main_spec p fs [] ∅ 1 True (new_directory p fs Hf) N es (MkWorld fs cache)) as (w' & out & Hrun & -> & Hre);
    [done|done|done| |simpl; lia|lia|lia|].
  { eapply fits_submseteq; [|exact Hfits]. by apply submseteq_inserts_r. }
  exists w'. split; [done|]. intros Hlen. specialize (Hre I Hlen).
  destruct (main_spec p _ _ _ _ _ Hre N es' (MkWorld (files w') cache')) as (w'' & out & Hrun' & -> & _);
    [done|done|done|done|simpl; rewrite length_app; lia|lia|lia|].
  by exists w''.
Qed.
End properties.

(** ** Runs *)
Section demo.
#[local] Existing Instance demo_zlib.
#[local] Existing Instance demo_snappy.
#[local] Existing Instance demo_snappy_laws.
#[local] Existing Instance demo_snappy_bound.
#[local] Existing Instance demo_farmhash.
#[local] Existing Instance demo_libm.
#[local] Existing Instance demo_json.
#[local] Existing Instance demo_json_laws.
#[local] Instance demo_fuel : LoopFuel := 20.
Import Cli CliSpec.

Definition demo_input : bytes :=
  mjoin (say <$> ["get a"; "open db"; "put a 1"; ""; "  put b	2 3"; "put c"; "delete a"; "get a"; "scan a *"; "flush"; "frob"; "quit"; "put a 9"])%string.
Definition demo_input' : bytes := mjoin (say <$> ["open db"; "get b"; "put a 4"; "compact"; "scan * *"])%string ++ text "get c".
Definition demo_events : list event := FlushThread :: ((λ line, Line line) <$> lines demo_input).
Definition demo_events' : list event := ((λ line, Line line) <$> lines demo_input') ++ [FlushThread].

Lemma cli_refines_map_witness : ∃ w', main demo_events (MkWorld ∅ (BlockCache.create 4)) =
  Ok (w', mjoin (say <$> ["Error: DB not opened. Run 'open <path>' first."; "OK"; "OK"; "OK"; "Usage: put <k> <v>"; "OK"; "(not found)";
    "b 2"; "OK"; "OK"; "Unknown command: frob"])%string).
Proof.
  destruct (cli_refines_map "db" ∅ (BlockCache.create 4) demo_input demo_events 10) as (w' & Hrun).
  - done.
  - demo_decide.
  - demo_decide.
  - demo_decide.
  - apply demo_fits; demo_decide.
  - demo_decide.
  - demo_decide.
  - demo_decide.
  - exists w'. rewrite Hrun. refine (f_equal (λ a, Ok (w', a)) _). vm_compute. reflexivity.
Defined.

Lemma demo_manifest_short w' data : (match main demo_events (MkWorld ∅ (BlockCache.create 4)) with
    | Ok (w', _) => demo_short w' | Err _ => false end = true) →
  main demo_events (MkWorld ∅ (BlockCache.create 4)) = Ok (w', (answers (Disk ∅ false) (lines demo_input)).2) →
  files w' !! LsmStorageInner.manifest_path "db" = Some data → (Z.of_nat (length data) < 2 ^ 63)%Z.
Proof. intros Hs Hrun Hd. rewrite Hrun in Hs. by apply (demo_short_spec w'). Qed.

Lemma cli_sessions_keep_data_witness : ∃ w' w'', main demo_events (MkWorld ∅ (BlockCache.create 4)) = Ok (w', (answers (Disk ∅ false) (lines demo_input)).2) ∧
  main demo_events' (MkWorld (files w') (BlockCache.create 4)) =
    Ok (w'', mjoin (say <$> ["OK"; "2"; "OK"; "OK"; "a 4"; "b 2"; "OK"; "(not found)"])%string).
Proof.
  destruct (cli_sessions_keep_data "db" ∅ (BlockCache.create 4) (BlockCache.create 4) demo_input demo_input' demo_events demo_events' 10)
    as (w' & Hrun & Hnext).
  - done.
  - demo_decide.
  - demo_decide.
  - demo_decide.
  - demo_decide.
  - demo_decide.
  - apply demo_fits; demo_decide.
  - demo_decide.
  - demo_decide.
  - demo_decide.
  - destruct Hnext as (w'' & Hrun').
    { intros data. apply demo_manifest_short; [vm_compute; reflexivity|exact Hrun]. }
    exists w', w''. split; [exact Hrun|]. rewrite Hrun'. refine (f_equal (λ a, Ok (w'', a)) _). vm_compute. reflexivity.
Defined.
End demo.
