(* ===== verification/Bench.v ===== *)
(** * The benchmarks: bench/bench_common.h, bench/bench_write.cpp, bench/bench_read.cpp

    Two programs that load generated entries into a new directory and measure.
    What they measure with is an input: the readings of the clock, the draws of
    the random generator, and when the threads of the engine run between the
    calls.  A run returns a record of what was measured, and what is printed is a function
    of it; doubles are printed from their exact value.  The constants of the read
    benchmark are a record too, so that a small run can be computed.  The second half says what
    the programs measure: the read benchmark finds what it should, and the write
    benchmark looks at a single table. *)
From Stdlib Require Import SpecFloat.
From stdpp Require Import pretty.
From S2P Require Import Prelude Endian Key Iterators Block BlockCache Double Rounding Bloom Table Sizes TableIterator Wal MemTable State Layers SimpleLeveled Tiered Leveled Compact Manifest LsmStorage LsmSpec LsmRead LsmWrite LsmGen LsmCompact LsmInstall LsmStrategies LsmLeveled LsmJournal LsmTrace LsmOpen LsmThreads LsmConcurrent LsmEngine Cli.

(** ** Definitions *)

(** *** Timer *)
Module Timer.
(** A reading of the steady clock, in nanoseconds. *)
Record t := mk { start_ : Z }.
Definition reset (now : Z) : t := mk now.

(** The time since the start, in units of [per] nanoseconds. *)
Definition elapsed (per : Z) (timer : t) (now : Z) : double := Double.div (Double.of_Z (now - start_ timer)) (Double.of_Z per).
Definition elapsed_ms : t → Z → double := elapsed 1000000.
Definition elapsed_us : t → Z → double := elapsed 1000.
End Timer.

(** *** LatencyHistogram *)
Module LatencyHistogram.
Definition t : Type := list double.    (* samples_ *)

Definition c99_9 : double := S754_finite false 7029837543348634 (-46).    (* 99.9 *)

Definition record (us : double) (h : t) : t := h ++ [us].
Definition sort (h : t) : t := std_sort Double.ltb h.
Definition count (h : t) : nat := length h.

Definition percentile (p : double) (h : t) : res double :=
  match h with
  | [] => mret (S754_zero false)
  | _ =>
      idx ← Double.to_unsigned 64 (Double.mul (Double.div p Double.c100) (Double.of_Z (Z.of_nat (length h))));
      let idx := if decide (Z.of_nat (length h) ≤ idx)%Z then length h - 1 else Z.to_nat idx in
      deref (h !! idx) "samples_[idx]"
  end.

(** They sort first, and leave the samples sorted. *)
Definition sorted_percentile (p : double) (h : t) : res (t * double) := let h := sort h in v ← percentile p h; mret (h, v).
Definition p50 : t → res (t * double) := sorted_percentile (Double.of_Z 50).
Definition p99 : t → res (t * double) := sorted_percentile (Double.of_Z 99).
Definition p999 : t → res (t * double) := sorted_percentile c99_9.
End LatencyHistogram.

(** *** Text *)
Module Text.
Import Cli.

(** [%0wd] *)
Definition zero_padded (w : nat) (i : Z) : string :=
  let sign := if decide (i < 0)%Z then "-"%string else ""%string in
  let digits := pretty (Z.to_nat (Z.abs i)) in
  sign +:+ String.concat "" (replicate (w - String.length sign - String.length digits) "0"%string) +:+ digits.

(** [snprintf] into a buffer of [n] characters, and the string in it. *)
Definition snprintf (n : nat) (s : string) : bytes := take (n - 1) (text s).

Definition gen_key (i : Z) : bytes := snprintf 32 ("key_" +:+ zero_padded 11 i).

Definition gen_val (i : Z) (val_size : nat) : bytes :=
  let v := snprintf 32 ("val_" +:+ zero_padded 8 i +:+ "_") in
  let v := v ++ replicate (val_size - length v) x78 in    (* while (v.size() < val_size) v += 'x'; *)
  take val_size v.                                         (* v.resize(val_size), which does not grow it *)

Definition print_separator (c : byte) (width : nat) : bytes := replicate width c ++ newline.
Definition print_header (title : string) : bytes :=
  print_separator x3d 70 ++ text "  " ++ text title ++ newline ++ print_separator x3d 70.

Definition to_string (n : Z) : string := pretty (Z.to_N n).
Definition human_bytes (size : Z) : string :=
  if decide (1024 * 1024 * 1024 < size)%Z then to_string (size / (1024 * 1024 * 1024)) +:+ " GB"
  else if decide (1024 * 1024 < size)%Z then to_string (size / (1024 * 1024)) +:+ " MB"
  else if decide (1024 < size)%Z then to_string (size / 1024) +:+ " KB"
  else to_string size +:+ " B".

(** [%ws] and [%-ws] *)
Definition spaces (n : nat) : string := String.concat "" (replicate n " "%string).
Definition pad_left (w : nat) (s : string) : string := spaces (w - String.length s) +:+ s.
Definition pad_right (w : nat) (s : string) : string := s +:+ spaces (w - String.length s).

(** [%.nf]: the exact value of the double, rounded to [n] decimals, ties to even.
    The sign of a NaN is not shown. *)
Definition div_even (a b : Z) : Z :=
  let q := (a / b)%Z in
  let r := (2 * (a mod b))%Z in
  if decide (r < b)%Z then q else if decide (r = b)%Z then if Z.even q then q else (q + 1)%Z else (q + 1)%Z.
Definition scaled (n : nat) (m : positive) (e : Z) : Z :=
  let a := (Z.pos m * 10 ^ Z.of_nat n)%Z in
  if decide (0 ≤ e)%Z then (a * 2 ^ e)%Z else div_even a (2 ^ (- e)).
Definition decimal (n : nat) (v : Z) : string :=
  to_string (v / 10 ^ Z.of_nat n) +:+
  match n with O => ""%string | S _ => "." +:+ zero_padded n (v mod 10 ^ Z.of_nat n) end.
Definition signed (s : bool) (t : string) : string := if s then "-" +:+ t else t.
Definition fixed (n : nat) (x : double) : string :=
  match x with
  | S754_zero s => signed s (decimal n 0)
  | S754_finite s m e => signed s (decimal n (scaled n m e))
  | S754_infinity s => signed s "inf"
  | S754_nan => "nan"%string
  end.
End Text.

(** *** Directories *)
Module Dir.
(** The rest of [s] after [p]. *)
Fixpoint strip_prefix (p s : string) : option string :=
  match p, s with
  | EmptyString, _ => Some s
  | String c p, String d s => if decide (c = d) then strip_prefix p s else None
  | String _ _, EmptyString => None
  end.
Definition slash : Ascii.ascii := Ascii.ascii_of_nat 47.
Definition dot : Ascii.ascii := Ascii.ascii_of_nat 46.
Fixpoint has (c : Ascii.ascii) (s : string) : bool :=
  match s with EmptyString => false | String d s => bool_decide (c = d) || has c s end.

(** The name of a path below [dir], and the name of an entry of [dir] itself. *)
Definition below (dir path : string) : option string := strip_prefix (dir +:+ "/") path.
Definition entry (dir path : string) : option string :=
  match below dir path with Some name => if has slash name then None else Some name | None => None end.

(** [path::extension] of a file name: from the last dot, if the name does not
    start with it. *)
Fixpoint from_dot (s : string) : string :=
  match s with
  | EmptyString => EmptyString
  | String c s' => if has dot s' then from_dot s' else if decide (c = dot) then s else EmptyString
  end.
Definition extension (name : string) : string :=
  if decide (name = ".."%string) then EmptyString
  else match name with EmptyString => EmptyString | String _ name => from_dot name end.

(** [std::filesystem::remove_all] *)
Definition remove_all (dir : string) : eff World unit :=
  on_fs (λ fs, Ok (filter (λ f, below dir f.1 = None) fs, tt)).

(** The sum of the sizes of the files of [dir] that end in [.sst]. *)
Definition is_sst (dir path : string) : bool :=
  match entry dir path with Some name => bool_decide (extension name = ".sst"%string) | None => false end.
Definition sst_bytes (dir : string) (fs : Fs.t) : Z :=
  foldr (λ e total, u64 (total + Z.of_nat (length e.2))) 0%Z (map_to_list (filter (λ e, is_sst dir e.1 = true) fs)).
End Dir.

(** *** TempDB *)
Module TempDB.
Import LsmStorageInner Threads.

(** The engine behind [db_], with its threads. *)
Record t := mk { dir_ : string; db_ : config }.

(** [now] is a reading of the clock. *)
Definition dir_name (label : string) (now : Z) : string := "/tmp/bench_" +:+ label +:+ "_" +:+ pretty now.

Section code.
Context `{!Zlib} `{!Snappy} `{!Farmhash} `{!Libm} `{!Json} `{!LoopFuel}.

Definition create (label : string) (opts : LsmStorageOptions.t) (now : Z) : eff World t :=
  let dir := dir_name label now in
  Cli.new_cache;;
  s ← MiniLsm.open dir opts;
  mret (mk dir (Config s Idle)).

(** [compaction_thread->join()] after [stop_flag] is set: the pass ends. *)
Fixpoint join (fuel : nat) (c : config) : eff World LsmStorageInner.t :=
  match thread c with
  | Idle => mret (engine c)
  | _ =>
      match fuel with
      | O => lift (Err OutOfFuel)
      | S fuel => '(s, k) ← compactor_step (engine c) (thread c); join fuel (Config s k)
      end
  end.

(** The destructor closes the engine and removes the directory; then the
    destructor of [db_] closes the engine again. *)
Definition destroy (db : t) : eff World unit :=
  s ← join loop_fuel (db_ db);
  s ← MiniLsm.close s;
  Dir.remove_all (dir_ db);;
  MiniLsm.destroy s.

Definition sst_bytes (db : t) : eff World Z := λ w, Ok (w, Dir.sst_bytes (dir_ db) (files w)).
End code.
End TempDB.

(** *** bench_write.cpp *)
Module BenchWrite.
Import LsmStorageInner Threads Text.

Module WriteResult.
Record t := mk {
  strategy_name : string;
  num_keys : nat;
  val_size : nat;
  wall_ms : double;
  ops_per_sec : double;
  mb_per_sec : double;
  user_bytes : Z;       (* bytes the user wrote *)
  disk_bytes : Z;       (* bytes actually on disk (SST files) *)
  write_amp : double }. (* disk_bytes / user_bytes *)
End WriteResult.

(** What the threads of the engine do between two calls. *)
Inductive pass := FlushPass | CompactionStep.
Definition event_of (p : pass) : event := match p with FlushPass => Call Op.TriggerFlush | CompactionStep => Compaction end.

(** What a run depends on: the passes before each call, the flush being the last,
    and three readings of the clock. *)
Record environment := Env { passes : nat → list pass; now : Z; started : Z; stopped : Z }.

Section code.
Context `{!Zlib} `{!Snappy} `{!Farmhash} `{!Libm} `{!Json} `{!LoopFuel}.

Fixpoint background (ps : list pass) (c : config) : eff World config :=
  match ps with [] => mret c | p :: ps => '(c, _) ← perform c (event_of p); background ps c end.

(** The loop of puts, [n] of them from [i] on. *)
Fixpoint put_all (e : environment) (val_size : nat) (i n : nat) (c : config) : eff World config :=
  match n with
  | O => mret c
  | S n =>
      c ← background (passes e i) c;
      s ← MiniLsm.put (engine c) (gen_key (Z.of_nat i)) (gen_val (Z.of_nat i) val_size);
      put_all e val_size (S i) n (Config s (thread c))
  end.

(** The loop and the flush. *)
Definition load (e : environment) (num_keys val_size : nat) (c : config) : eff World config :=
  c ← put_all e val_size 0 num_keys c;
  c ← background (passes e num_keys) c;
  s ← MiniLsm.force_flush (engine c);
  mret (Config s (thread c)).

Definition result (e : environment) (name : string) (num_keys val_size : nat) (disk_bytes : Z) : WriteResult.t :=
  let key_size := length (gen_key 0) in
  let user_bytes := u64 (Z.of_nat num_keys * Z.of_nat (key_size + val_size)) in
  let wall_ms := Timer.elapsed_ms (Timer.mk (started e)) (stopped e) in
  let seconds := Double.div wall_ms (Double.of_Z 1000) in
  let ops_per_sec := Double.div (Double.of_Z (Z.of_nat num_keys)) seconds in
  let mb_per_sec := Double.div (Double.div (Double.of_Z user_bytes) (Double.mul (Double.of_Z 1024) (Double.of_Z 1024))) seconds in
  let write_amp := if decide (0 < disk_bytes)%Z then Double.div (Double.of_Z disk_bytes) (Double.of_Z user_bytes) else Double.c1 in
  WriteResult.mk name num_keys val_size wall_ms ops_per_sec mb_per_sec user_bytes disk_bytes write_amp.

Definition run_write_bench (e : environment) (name : string) (opts : LsmStorageOptions.t) (num_keys val_size : nat) : eff World WriteResult.t :=
  tdb ← TempDB.create name opts (now e);
  c ← load e num_keys val_size (TempDB.db_ tdb);
  let tdb := TempDB.mk (TempDB.dir_ tdb) c in
  disk_bytes ← TempDB.sst_bytes tdb;
  TempDB.destroy tdb;;
  mret (result e name num_keys val_size disk_bytes).

(** *** The six configurations of [main] *)
Definition sized (opts : LsmStorageOptions.t) (compression : CompressionType) : LsmStorageOptions.t :=
  LsmStorageOptions.mk 4096 (Z.to_nat (Z.shiftl 2 20)) (LsmStorageOptions.num_memtable_limit opts) (LsmStorageOptions.compaction_options opts)
    (LsmStorageOptions.enable_wal opts) (LsmStorageOptions.serializable opts) compression.

Definition simple_opts : SimpleLeveledCompactionOptions.t := SimpleLeveledCompactionOptions.mk 0 200 4.
Definition tiered_opts : TieredCompactionOptions.t := TieredCompactionOptions.mk 3 200 1 2 (TieredCompactionOptions.max_merge_width TieredCompactionOptions.default).
Definition lev_opts : LeveledCompactionOptions.t := LeveledCompactionOptions.mk 2 2 4 16.

Definition no_compaction (compression : CompressionType) : LsmStorageOptions.t := sized LsmStorageOptions.default_for_week1_test compression.
Definition simple_leveled : LsmStorageOptions.t := sized (LsmStorageOptions.default_for_week2_test (CompactionOptions.Simple simple_opts)) None_.
Definition tiered : LsmStorageOptions.t := sized (LsmStorageOptions.default_for_week2_test (CompactionOptions.Tiered tiered_opts)) None_.
Definition leveled (compression : CompressionType) : LsmStorageOptions.t :=
  sized (LsmStorageOptions.default_for_week2_test (CompactionOptions.Leveled lev_opts)) compression.

Definition configurations : list (string * LsmStorageOptions.t) :=
  [("NoCompaction", no_compaction None_); ("SimpleLeveled", simple_leveled); ("Tiered", tiered); ("Leveled", leveled None_);
   ("NoCompact (Snappy)", no_compaction Snappy_); ("Leveled (Snappy)", leveled Snappy_)]%string.

Definition NUM_KEYS : nat := Z.to_nat 200000.
Definition VAL_SIZE : nat := 100.

(** *** The output *)
Definition print_result (r : WriteResult.t) : bytes :=
  Cli.say ("  " +:+ pad_right 20 (WriteResult.strategy_name r) +:+ "  " +:+ pad_left 8 (fixed 0 (WriteResult.ops_per_sec r)) +:+
    " ops/s  " +:+ pad_left 6 (fixed 1 (WriteResult.mb_per_sec r)) +:+ " MB/s  " +:+ fixed 1 (WriteResult.write_amp r) +:+
    "x write-amp  " +:+ human_bytes (WriteResult.disk_bytes r) +:+ " on disk").

Definition banner : bytes :=
  let key_size := length (gen_key 0) in
  Cli.newline ++ print_header "Mini-LSM Write Throughput Benchmark" ++
  Cli.say ("  Keys: " +:+ to_string (Z.of_nat NUM_KEYS) +:+ "  |  Key size: ~" +:+ to_string (Z.of_nat key_size) +:+
    " B  |  Value size: " +:+ to_string (Z.of_nat VAL_SIZE) +:+ " B") ++
  Cli.say ("  Total user data: " +:+ human_bytes (u64 (Z.of_nat NUM_KEYS * Z.of_nat (key_size + VAL_SIZE)))) ++
  Cli.newline.

Definition print_results (results : list WriteResult.t) : bytes :=
  Cli.say ("  " +:+ pad_right 20 "Strategy" +:+ "  " +:+ pad_left 14 "Ops/sec" +:+ "  " +:+ pad_left 10 "MB/sec" +:+ "  " +:+
    pad_left 12 "Write Amp" +:+ "  " +:+ pad_left 14 "Disk Size") ++
  print_separator x2d 70 ++
  mjoin (print_result <$> results) ++
  Cli.newline ++
  Cli.say "  * Write amplification = (bytes written to disk) / (bytes written by user)" ++
  Cli.say "  * Lower write amp = better for write-heavy workloads" ++
  Cli.newline.

Fixpoint run_all (es : nat → environment) (i : nat) (configurations : list (string * LsmStorageOptions.t)) : eff World (list WriteResult.t) :=
  match configurations with
  | [] => mret []
  | (name, opts) :: configurations =>
      r ← run_write_bench (es i) name opts NUM_KEYS VAL_SIZE;
      results ← run_all es (S i) configurations;
      mret (r :: results)
  end.
Definition main (es : nat → environment) : eff World bytes :=
  results ← run_all es 0 configurations;
  mret (banner ++ print_results results).
End code.
End BenchWrite.

(** *** bench_read.cpp *)
Module BenchRead.
Import LsmStorageInner Threads Text.

(** The constants of [run_read_suite]. *)
Record scale := Scale {
  NUM_WRITE : nat;     (* keys to pre-populate *)
  NUM_READ : nat;      (* random GETs to measure *)
  NUM_MISS : nat;      (* non-existent key GETs *)
  VAL_SIZE : nat;
  TARGET : nat }.      (* target_sst_size *)
Definition code_scale : scale := Scale (Z.to_nat 200000) (Z.to_nat 50000) (Z.to_nat 50000) 100 (Z.to_nat (Z.shiftl 2 20)).

(** What a run depends on.  Calls are numbered: first the puts, then the flush,
    the compaction, the two kinds of gets and the scan; phases by the numbers of
    the code.  [flushes] counts the passes of the flush thread before a call,
    [dist] is the random generator, the other functions are readings of the
    clock around a call and around a phase. *)
Record environment := Env {
  flushes : nat → nat;
  dist : nat → nat;
  now : Z;
  call_start : nat → Z;
  call_stop : nat → Z;
  phase_start : nat → Z;
  phase_stop : nat → Z }.

(** What is measured, and the values of the gets, which the code drops. *)
Module Report.
Record phase := Phase { ops_s : double; p50_ms : double; p99_ms : double; p999_ms : option double; vals : list bytes }.
Record t := mk { sst_on_disk : string; random_get : phase; miss_get : phase; keys_scanned : nat; keys_s : double; scan_ms : double }.
End Report.

Section code.
Context `{!Zlib} `{!Snappy} `{!Farmhash} `{!Libm} `{!Json} `{!LoopFuel}.
Context (sc : scale) (e : environment).

Definition options_of (comp : CompressionType) : LsmStorageOptions.t :=
  let o := LsmStorageOptions.default_for_week1_test in
  LsmStorageOptions.mk 4096 (TARGET sc) (LsmStorageOptions.num_memtable_limit o) (LsmStorageOptions.compaction_options o) false
    (LsmStorageOptions.serializable o) comp.

Fixpoint flush_passes (n : nat) (s : t) : eff World t :=
  match n with O => mret s | S n => '(s, _) ← trigger_flush s; flush_passes n s end.

(** Phase 1: [n] puts from [i] on. *)
Fixpoint load (i n : nat) (s : t) : eff World t :=
  match n with
  | O => mret s
  | S n =>
      s ← flush_passes (flushes e i) s;
      s ← MiniLsm.put s (gen_key (Z.of_nat i)) (gen_val (Z.of_nat i) (VAL_SIZE sc));
      load (S i) n s
  end.
Definition populate (s : t) : eff World t :=
  s ← load 0 (NUM_WRITE sc) s;
  s ← flush_passes (flushes e (NUM_WRITE sc)) s;
  s ← MiniLsm.force_flush s;
  s ← flush_passes (flushes e (NUM_WRITE sc + 1)) s;
  MiniLsm.force_full_compaction s.

(** A loop of timed gets: the [i]-th of the phase is call [k + i]. *)
Fixpoint timed_gets (key_idx : nat → nat) (k i n : nat) (s : t) (hist : LatencyHistogram.t) : eff World (t * LatencyHistogram.t * list bytes) :=
  match n with
  | O => mret (s, hist, [])
  | S n =>
      s ← flush_passes (flushes e (k + i)) s;
      val ← MiniLsm.get s (gen_key (Z.of_nat (key_idx i)));
      let us := Timer.elapsed_us (Timer.mk (call_start e (k + i))) (call_stop e (k + i)) in
      '(s, hist, vals) ← timed_gets key_idx k (S i) n s (LatencyHistogram.record us hist);
      mret (s, hist, val :: vals)
  end.

Definition wall_ms (phase : nat) : double := Timer.elapsed_ms (Timer.mk (phase_start e phase)) (phase_stop e phase).
Definition per_second (n phase : nat) : double := Double.div (Double.of_Z (Z.of_nat n)) (Double.div (wall_ms phase) (Double.of_Z 1000)).
Definition to_ms (us : double) : double := Double.div us (Double.of_Z 1000).

(** Phase 2. *)
Definition random_get (s : t) : eff World (t * Report.phase) :=
  '(s, hist, vals) ← timed_gets (dist e) (NUM_WRITE sc + 2) 0 (NUM_READ sc) s [];
  '(hist, p50) ← lift (LatencyHistogram.p50 hist);
  '(hist, p99) ← lift (LatencyHistogram.p99 hist);
  '(_, p999) ← lift (LatencyHistogram.p999 hist);
  mret (s, Report.Phase (per_second (NUM_READ sc) 2) (to_ms p50) (to_ms p99) (Some (to_ms p999)) vals).

(** Phase 3. *)
Definition miss_get (s : t) : eff World (t * Report.phase) :=
  '(s, hist, vals) ← timed_gets (λ i, NUM_WRITE sc + i) (NUM_WRITE sc + 2 + NUM_READ sc) 0 (NUM_MISS sc) s [];
  '(hist, p50) ← lift (LatencyHistogram.p50 hist);
  '(_, p99) ← lift (LatencyHistogram.p99 hist);
  mret (s, Report.Phase (per_second (NUM_MISS sc) 3) (to_ms p50) (to_ms p99) None vals).

(** Phase 4: [while (iter.is_valid()) { ++count; iter.next(); }] *)
Fixpoint count_entries {I} `{!StorageIterator BlockCache.t I} (fuel count : nat) (iter : I) : eff BlockCache.t nat :=
  match fuel with
  | O => lift (Err OutOfFuel)
  | S fuel => if is_valid iter then iter ← next iter; count_entries fuel (S count) iter else mret count
  end.
Definition sequential_scan (s : t) : eff World (t * nat) :=
  s ← flush_passes (flushes e (NUM_WRITE sc + 2 + NUM_READ sc + NUM_MISS sc)) s;
  iter ← MiniLsm.scan s Unbounded Unbounded;
  count ← on_cache (count_entries loop_fuel 0 iter);
  mret (s, count).

(** What a suite prints. *)
Definition print_report (label : string) (r : Report.t) : bytes :=
  let d n := to_string (Z.of_nat n) in
  let r2 := Report.random_get r in
  let r3 := Report.miss_get r in
  Cli.newline ++ print_header label ++
  Cli.say ("  Pre-populate: " +:+ d (NUM_WRITE sc) +:+ " keys (" +:+ d (VAL_SIZE sc) +:+ "-byte values)") ++
  Cli.say ("  Random GET:   " +:+ d (NUM_READ sc) +:+ " operations") ++
  Cli.say ("  Miss GET:     " +:+ d (NUM_MISS sc) +:+ " operations (non-existent keys)") ++
  Cli.newline ++
  Cli.say ("  [1/4] Loading " +:+ d (NUM_WRITE sc) +:+ " keys...") ++
  Cli.say ("  Done. SST on disk: " +:+ Report.sst_on_disk r) ++ Cli.newline ++
  Cli.say ("  [2/4] Random GET (" +:+ d (NUM_READ sc) +:+ " ops on existing keys)...") ++
  Cli.say ("    Throughput:  " +:+ fixed 0 (Report.ops_s r2) +:+ " ops/sec") ++
  Cli.say ("    Latency p50: " +:+ fixed 3 (Report.p50_ms r2) +:+ " ms") ++
  Cli.say ("    Latency p99: " +:+ fixed 3 (Report.p99_ms r2) +:+ " ms") ++
  default [] ((λ p999, Cli.say ("    Latency p999:" +:+ fixed 3 p999 +:+ " ms")) <$> Report.p999_ms r2) ++
  Cli.newline ++
  Cli.say ("  [3/4] Non-existent key GET (" +:+ d (NUM_MISS sc) +:+ " ops, keys > " +:+ d (NUM_WRITE sc) +:+ ")...") ++
  Cli.say ("    Throughput:  " +:+ fixed 0 (Report.ops_s r3) +:+ " ops/sec") ++
  Cli.say ("    Latency p50: " +:+ fixed 3 (Report.p50_ms r3) +:+ " ms") ++
  Cli.say ("    Latency p99: " +:+ fixed 3 (Report.p99_ms r3) +:+ " ms") ++
  Cli.say "    (Lower latency vs existing-key GET = Bloom filters working)" ++
  Cli.newline ++
  Cli.say ("  [4/4] Sequential scan (all " +:+ d (NUM_WRITE sc) +:+ " keys)...") ++
  Cli.say ("    Keys scanned: " +:+ d (Report.keys_scanned r)) ++
  Cli.say ("    Throughput:   " +:+ fixed 0 (Report.keys_s r) +:+ " keys/sec") ++
  Cli.say ("    Scan time:    " +:+ fixed 1 (Report.scan_ms r) +:+ " ms") ++
  Cli.newline.

Definition run_read_suite (db_name : string) (comp : CompressionType) : eff World Report.t :=
  tdb ← TempDB.create db_name (options_of comp) (now e);
  s ← populate (engine (TempDB.db_ tdb));
  sst ← TempDB.sst_bytes tdb;
  '(s, r2) ← random_get s;
  '(s, r3) ← miss_get s;
  '(s, count) ← sequential_scan s;
  TempDB.destroy (TempDB.mk (TempDB.dir_ tdb) (Config s Idle));;
  mret (Report.mk (human_bytes sst) r2 r3 count (per_second count 4) (wall_ms 4)).
End code.

Section main.
Context `{!Zlib} `{!Snappy} `{!Farmhash} `{!Libm} `{!Json} `{!LoopFuel}.

(** Without and with compression. *)
Definition main (e1 e2 : environment) : eff World bytes :=
  r1 ← run_read_suite code_scale e1 "read_none" None_;
  r2 ← run_read_suite code_scale e2 "read_snappy" Snappy_;
  mret (Cli.newline ++ print_header "Mini-LSM Read Performance & Compression Comparison" ++
    print_report code_scale "Read Benchmark — Uncompressed (None)" r1 ++
    print_report code_scale "Read Benchmark — Snappy Compressed" r2 ++
    print_separator x2d 70 ++
    Cli.say "  Note: run on the same machine to compare strategies." ++
    Cli.say "  Results vary with CPU speed, disk speed, and cache warmth." ++ Cli.newline).
End main.
End BenchRead.

(** ** Printed numbers *)

(** The printed decimal is within half a unit of its last place, and the smallest
    distance is taken. *)
Lemma div_even_nearest (a b : Z) : (0 < b → 2 * Z.abs (a - b * Text.div_even a b) ≤ b)%Z.
Proof.
  intros Hb. unfold Text.div_even. pose proof (Z.div_mod a b) as E. pose proof (Z.mod_pos_bound a b Hb) as Hm.
  repeat case_decide; try destruct (Z.even _); lia.
Qed.

Lemma scaled_nearest (n : nat) m (e : Z) : (e < 0 → 2 * Z.abs (Z.pos m * 10 ^ Z.of_nat n - 2 ^ (- e) * Text.scaled n m e) ≤ 2 ^ (- e))%Z.
Proof. intros He. unfold Text.scaled. rewrite decide_False by lia. apply div_even_nearest. apply Z.pow_pos_nonneg; lia. Qed.

(** ** Generated keys and values *)
Section text.
Import Text Cli.

Lemma length_text s : length (text s) = String.length s.
Proof. unfold text. induction s as [|c s IH]; [done|]. exact (f_equal S IH). Qed.
#[local] Instance text_inj : Inj (=) (=) text.
Proof. intros s1 s2 E%(f_equal String.string_of_list_byte). unfold text in E. by rewrite !String.string_of_list_byte_of_string in E. Qed.

Lemma length_append (s1 s2 : string) : String.length (s1 +:+ s2) = String.length s1 + String.length s2.
Proof. induction s1 as [|c s1 IH]; [done|]. exact (f_equal S IH). Qed.

Lemma length_zeros k : String.length (String.concat "" (replicate k "0"%string)) = k.
Proof. induction k as [|[|k] IH]; [done..|]. exact (f_equal S IH). Qed.

Lemma length_pretty_go (k : nat) : ∀ (x : N) s, (x < 10 ^ N.of_nat k)%N → String.length (pretty_N_go x s) ≤ k + String.length s.
Proof.
  induction k as [|k IH]; intros x s Hx.
  - change (10 ^ N.of_nat 0)%N with 1%N in Hx. by assert (x = 0)%N as -> by lia.
  - destruct (decide (0 < x)%N) as [Hp|Hp]; [|assert (x = 0)%N as -> by lia; rewrite pretty_N_go_0; lia].
    rewrite pretty_N_go_step by done. rewrite Nat2N.inj_succ, N.pow_succ_r' in Hx.
    etrans; [apply IH, N.Div0.div_lt_upper_bound; lia|]. cbn [String.length]. lia.
Qed.

Lemma length_pretty (k n : nat) : 0 < k → (Z.of_nat n < 10 ^ Z.of_nat k)%Z → String.length (pretty n) ≤ k.
Proof.
  intros Hk Hn. unfold pretty, pretty_nat, pretty, pretty_N. case_decide; [simpl; lia|].
  etrans; [apply (length_pretty_go k)|simpl; lia]. apply N2Z.inj_lt. rewrite N2Z.inj_pow, !nat_N_Z. exact Hn.
Qed.

(** The ids of entries that an [int] can count. *)
Definition is_int (i : nat) : Prop := (Z.of_nat i < 2 ^ 31)%Z.

Lemma zero_padded_nat (w i : nat) : zero_padded w (Z.of_nat i) =
  String.concat "" (replicate (w - String.length (pretty i)) "0"%string) +:+ pretty i.
Proof. unfold zero_padded. rewrite decide_False by lia. by rewrite Z.abs_eq, Nat2Z.id, Nat.sub_0_r by lia. Qed.

Lemma length_zero_padded (w i : nat) : is_int i → 10 ≤ w → String.length (zero_padded w (Z.of_nat i)) = w.
Proof.
  intros Hi Hw. rewrite zero_padded_nat, length_append, length_zeros. unfold is_int in Hi.
  pose proof (length_pretty 10 i ltac:(lia) ltac:(lia)). lia.
Qed.

Lemma snprintf_whole (n : nat) s : String.length s < n → snprintf n s = text s.
Proof. intros Hs. unfold snprintf. apply take_ge. rewrite length_text. lia. Qed.

(** Every generated key has 15 bytes. *)
Lemma gen_key_text (i : nat) : is_int i → gen_key (Z.of_nat i) = text ("key_" +:+ zero_padded 11 (Z.of_nat i)).
Proof. intros Hi. apply snprintf_whole. rewrite length_append, length_zero_padded by (done || lia). simpl. lia. Qed.
Lemma length_gen_key (i : nat) : is_int i → length (gen_key (Z.of_nat i)) = 15.
Proof. intros Hi. by rewrite gen_key_text, length_text, length_append, length_zero_padded by (done || lia). Qed.

(** Different numbers have different keys. *)
Lemma gen_key_inj (i j : nat) : is_int i → is_int j → gen_key (Z.of_nat i) = gen_key (Z.of_nat j) → i = j.
Proof.
  intros Hi Hj. rewrite !gen_key_text by done. intros E%(inj text)%(inj (String.append "key_")). rewrite !zero_padded_nat in E.
  apply (f_equal (λ s, Names.scan_name 0 (s +:+ ""))) in E. rewrite !Names.append_assoc, !Names.scan_zeros, !Names.scan_pretty in E. by injection E.
Qed.

Lemma length_gen_val i val_size : length (gen_val i val_size) = val_size.
Proof. unfold gen_val. rewrite length_take, length_app, length_replicate. lia. Qed.
Lemma gen_val_nonempty i val_size : 0 < val_size → gen_val i val_size ≠ [].
Proof. intros Hv E%(f_equal length). rewrite length_gen_val in E. simpl in E. lia. Qed.

Lemma gen_ok (i : nat) val_size : is_int i → (Z.of_nat val_size < 65536)%Z → kv_ok (gen_key (Z.of_nat i), gen_val (Z.of_nat i) val_size).
Proof.
  intros Hi Hv. pose proof (length_gen_key i Hi) as Hl. unfold kv_ok. cbn [fst snd]. split_and!.
  - intros E. by rewrite E in Hl.
  - rewrite Hl. lia.
  - by rewrite length_gen_val.
Qed.
End text.

(** ** What is loaded *)
Section loaded.
Import Text.
Context (val_size : nat).

Definition generated (i : nat) : kv := (gen_key (Z.of_nat i), gen_val (Z.of_nat i) val_size).
Definition loaded (n : nat) : list kv := generated <$> seq 0 n.
(** The map of the first [n] entries. *)
Fixpoint table_of (n : nat) : gmap bytes bytes :=
  match n with O => ∅ | S n => <[gen_key (Z.of_nat n) := gen_val (Z.of_nat n) val_size]> (table_of n) end.

Lemma loaded_snoc n : loaded (S n) = loaded n ++ [generated n].
Proof. unfold loaded. by rewrite seq_S, fmap_app. Qed.
Lemma length_loaded n : length (loaded n) = n.
Proof. unfold loaded. by rewrite length_fmap, length_seq. Qed.
Lemma loaded_mono n n' : n ≤ n' → loaded n ⊆+ loaded n'.
Proof. induction 1 as [|n' _ IH]; [done|]. rewrite loaded_snoc. etrans; [exact IH|]. by apply submseteq_inserts_r. Qed.

Lemma lookup_table n (i : nat) : is_int n → is_int i → table_of n !! gen_key (Z.of_nat i) =
  if decide (i < n) then Some (gen_val (Z.of_nat i) val_size) else None.
Proof.
  intros Hn Hi. induction n as [|n IH]; [done|]. cbn [table_of]. assert (is_int n) as Hn' by (unfold is_int in *; lia).
  destruct (decide (i = n)) as [->|Hne]; [rewrite lookup_insert_eq, decide_True; [done|lia]|].
  rewrite lookup_insert_ne by (by intros E%gen_key_inj). rewrite (IH Hn'). repeat case_decide; done || lia.
Qed.
Lemma size_table n : is_int n → size (table_of n) = n.
Proof.
  induction n as [|n IH]; intros Hn; [done|]. cbn [table_of]. assert (is_int n) as Hn' by (unfold is_int in *; lia).
  rewrite map_size_insert_None; [by rewrite IH|]. rewrite lookup_table, decide_False by (done || lia). done.
Qed.
End loaded.

(** ** Percentiles *)
Section percentiles.
Import LatencyHistogram.

(** The values the programs pass. *)
Definition asked (p : double) : Prop := p = Double.of_Z 50 ∨ p = Double.of_Z 99 ∨ p = c99_9.

Lemma asked_normal p : asked p → ∃ m, normal (Double.div p Double.c100) m (-53).
Proof. intros [->|[->| ->]]; eexists; (eapply (is_normal _ (-53)); vm_compute; by split). Qed.

(** A percentile is one of the samples: the index is in range, and nothing
    undefined happens on the way to it. *)
Lemma percentile_sample p h : asked p → (Z.of_nat (length h) < 2 ^ 53)%Z →
  percentile p h ⇓ λ v, h = [] ∧ v = S754_zero false ∨ v ∈ h.
Proof.
  intros (m & Hm)%asked_normal Hlen. unfold percentile. destruct h as [|us h]; [by apply returns_ret; left|]. set (l := us :: h) in *.
  destruct (fraction_of_integer _ _ _ (Z.of_nat (length l)) Hm) as (z & Hz); [done| |].
  { split; [simpl; lia|exact Hlen]. }
  rewrite Hz. cbn [mbind res_bind]. set (idx := if decide _ then _ else _). assert (idx < length l) as Hidx.
  { assert (length l = S (length h)) by done. unfold idx. case_decide; lia. }
  destruct (lookup_lt_is_Some_2 l idx Hidx) as [v Hv]. apply (returns_eq _ v); [exact (f_equal (λ o, deref o _) Hv)|]. right. by eapply list_elem_of_lookup_2.
Qed.

Lemma sorted_percentile_runs p h w : asked p → (Z.of_nat (length h) < 2 ^ 53)%Z →
  runs (lift (sorted_percentile p h)) w (λ w' r, w' = w ∧ r.1 ≡ₚ h ∧ (h = [] ∨ r.2 ∈ h)).
Proof.
  intros Hp Hlen. pose proof (std_sort_perm Double.ltb h) as Hperm. apply runs_lift. unfold sorted_percentile.
  eapply returns_bind; [apply percentile_sample; [done|]; unfold sort; by rewrite Hperm|]. intros v Hv. apply returns_ret. cbn [fst snd].
  unfold sort in *. split; [done|]. destruct Hv as [[E _]|Hv]; [left; rewrite E in Hperm; by apply Permutation_nil_l in Hperm|right; by rewrite <-Hperm].
Qed.
End percentiles.

(** ** Counting entries *)
Lemma count_collect {I} `{!StorageIterator BlockCache.t I} fuel : ∀ (count : nat) (iter : I) c c' l,
  collect fuel iter c = Ok (c', l) → BenchRead.count_entries fuel count iter c = Ok (c', count + length l).
Proof.
  induction fuel as [|fuel IH]; intros count iter c c' l; [done|]. cbn [collect BenchRead.count_entries]. destruct (is_valid iter); cycle 1.
  { intros [= <- <-]. by rewrite Nat.add_0_r. }
  intros (c1 & k & [-> Hk]%lift_Ok & (c2 & v & [-> Hv]%lift_Ok & (c3 & iter' & Hn & (c4 & rest & Hr & [= <- <-])%eff_bind_Ok)%eff_bind_Ok)%eff_bind_Ok)%eff_bind_Ok.
  rewrite (eff_bind_run _ _ _ _ _ Hn), (IH (S count) iter' _ _ _ Hr). simpl. by rewrite Nat.add_succ_r.
Qed.

(** ** The destructor *)
Section destructor.
Context `{!Zlib} `{!Snappy} `{!SnappyLaws} `{!SnappyBound} `{!Farmhash} `{!Libm} `{!Json} `{!JsonLaws} `{!LoopFuel}.
Import LsmStorageInner.
Implicit Types (g : ghost) (w : World) (s : LsmStorageInner.t) (h : list kv).

(** The second close finds nothing to do. *)
Lemma destroy_drained w s : LsmStorageOptions.enable_wal (options s) = false → drained (state s) →
  runs (MiniLsm.destroy s) w (λ w' _, MemTable.wal_ (LsmStorageState.memtable (state s)) = None → w' = w).
Proof.
  intros Hw [Hm Hi]. unfold MiniLsm.destroy, MiniLsm.close. rewrite Hw. unfold MemTable.is_empty. rewrite Hm. cbn [negb bool_decide].
  eapply runs_bind; [|intros w1 s1 E; exact E]. apply (runs_bind _ _ w (λ w' s', w' = w ∧ s' = s)); [by apply runs_ret|].
  intros w1 s1 [-> ->]. rewrite Hi. cbn [length loop]. apply (runs_bind _ _ w (λ w' r, w' = w ∧ r = inr s)).
  { unfold MiniLsm.close_step. rewrite Hi. by apply runs_ret. }
  intros w1 r [-> ->]. apply runs_ret. rewrite Hi. cbn [MiniLsm.destroy_memtables]. unfold destroy_memtable.
  destruct (MemTable.wal_ _); [by eexists _, _|by exists w, tt].
Qed.

Lemma join_idle n s : TempDB.join n (Threads.Config s Threads.Idle) = mret s.
Proof. by destruct n. Qed.

(** Destroying a database whose compaction thread is idle. *)
Lemma destroy_idle h g w s dir : alive h g w s → LsmStorageOptions.enable_wal (options s) = false → fits h →
  (Z.of_nat (next_sst_id s) < 2 ^ 64 - 1)%Z →
  runs (TempDB.destroy (TempDB.mk dir (Threads.Config s Threads.Idle))) w (λ _ _, True).
Proof.
  intros Hal Hw Hfits Hids. unfold TempDB.destroy. cbn [TempDB.db_ TempDB.dir_]. rewrite join_idle.
  eapply runs_bind; [by apply (runs_ret _ _ (λ w' s', w' = w ∧ s' = s))|]. intros w0 s0 [-> ->].
  eapply runs_bind; [by apply (close_step_spec h g)|]. intros w1 s1 [(g1 & _ & _ & _ & _ & _ & Eo & _) Hd].
  eapply runs_bind; [by eapply (runs_on_fs (λ fs, Ok (filter _ fs, tt)))|]. intros w2 [] _.
  eapply runs_mono; [apply destroy_drained; [by rewrite Eo|by apply Hd]|done].
Qed.
End destructor.

(** ** The read benchmark *)
Section read.
Context `{!Zlib} `{!Snappy} `{!SnappyLaws} `{!SnappyBound} `{!Farmhash} `{!Libm} `{!Json} `{!JsonLaws} `{!LoopFuel}.
Import LsmStorageInner Text BenchRead.
Implicit Types (g : ghost) (w : World) (s : LsmStorageInner.t) (h : list kv).

(** The engine of directory [p] stores [m], with [h] written and ids below [k]. *)
Definition stands (opts : LsmStorageOptions.t) (p : string) h (k : nat) w s (m : gmap bytes bytes) : Prop :=
  ∃ g, alive h g w s ∧ shown g (state s) = m ∧ next_sst_id s ≤ k ∧ options s = opts ∧ path s = p.

Lemma stands_fresh opts p fs cap : options_ok opts → fs !! manifest_path p = None →
  runs (open p opts) (MkWorld fs (BlockCache.create cap)) (λ w s, stands opts p [] 1 w s ∅).
Proof.
  intros Ho Hf. eapply runs_mono; [apply open_fresh_spec; [done|done|apply create_cache_ok]|].
  intros w s (Hal & _ & Hsh & Eo & Ep & En). exists ∅. split_and!; [done..|lia|done|done].
Qed.

Section suite.
Context (sc : scale) (e : environment) (opts : LsmStorageOptions.t) (p : string) (N : nat).
Context (Hno : LsmStorageOptions.compaction_options opts = CompactionOptions.NoCompaction) (HN : N < loop_fuel).

(** A call of the engine, with another way to return. *)
Lemma stands_call h (k : nat) w s m op {A B} (c : eff World A) (f : A → eff World (t * Op.answer)) (f' : A → eff World B) (Q : World → B → Prop) :
  stands opts p h k w s m → Op.run s op = c ≫= f → Op.admissible CompactionController.NoCompaction op →
  fits (h ++ Op.writes op) → S (length (h ++ Op.writes op)) ≤ N → (Z.of_nat (k + N) < 2 ^ 64)%Z →
  (∀ a w', runs (f a) w' (λ w' r, stands opts p (h ++ Op.writes op) (k + N) w' r.1 (Op.meaning m op).1 ∧ r.2 = (Op.meaning m op).2) → runs (f' a) w' Q) →
  runs (c ≫= f') w Q.
Proof.
  intros (g & Hal & Hsh & Hk & Eo & Ep) E Hadm Hfits HN' Hids Hf. eapply (runs_bind_inv c f f'); [intros a w'; apply Hf|]. rewrite <-E, <-Hsh.
  eapply runs_mono; [apply (run_step h g w s op); [done| |done|lia|lia]|].
  { rewrite (al_controller _ _ _ _ Hal), Eo, Hno. exact Hadm. }
  intros w' [s' a] [(g' & _ & Hal' & Hsh' & Hn & _ & Eo' & Ep' & _) Ha]. split; [|done].
  exists g'. split_and!; [done|done|simpl in *; lia|congruence|congruence].
Qed.

Lemma flush_passes_spec n : ∀ h (k : nat) w s m, stands opts p h k w s m → fits h → S (length h) ≤ N → (Z.of_nat (k + n * N) < 2 ^ 64)%Z →
  runs (flush_passes n s) w (λ w' s', stands opts p h (k + n * N) w' s' m).
Proof.
  induction n as [|n IH]; intros h k w s m Hs Hfits HN' Hids; [apply runs_ret; by rewrite Nat.add_0_r|]. cbn [flush_passes Nat.mul] in *.
  eapply (stands_call h k w s m Op.TriggerFlush (trigger_flush s) (λ x, let '(s, _) := x in mret (s, Op.Done)));
    [done|done|done|by rewrite app_nil_r|by rewrite app_nil_r|lia|].
  intros [s' b] w' [Hs' _]%runs_ret_inv. cbn [fst snd] in Hs'. rewrite app_nil_r in Hs'. rewrite Nat.add_assoc. apply IH; [done..|lia].
Qed.

(** The ids used before call [k]. *)
Fixpoint turns (k : nat) : nat := match k with O => 0 | S k => turns k + S (flushes e k) end.
Lemma turns_mono k k' : k ≤ k' → turns k ≤ turns k'.
Proof. induction 1; simpl; lia. Qed.

(** The moment before call [k]. *)
Definition at_call (k : nat) h w s m : Prop := stands opts p h (1 + turns k * N) w s m.

(** The number of calls in all. *)
Context (K : nat) (HK : (Z.of_nat (1 + turns K * N) < 2 ^ 64)%Z).

(** Call [k], after the passes that come before it. *)
Lemma turn_spec (k : nat) h w s m op {A B} (c : t → eff World A) (f : t → A → eff World (t * Op.answer)) (f' : t → A → eff World B) (Q : World → B → Prop) :
  at_call k h w s m → k < K → (∀ s, Op.run s op = c s ≫= f s) → Op.admissible CompactionController.NoCompaction op →
  fits (h ++ Op.writes op) → S (length (h ++ Op.writes op)) ≤ N →
  (∀ s a w', runs (f s a) w' (λ w' r, at_call (S k) (h ++ Op.writes op) w' r.1 (Op.meaning m op).1 ∧ r.2 = (Op.meaning m op).2) → runs (f' s a) w' Q) →
  runs (s ← flush_passes (flushes e k) s; c s ≫= f' s) w Q.
Proof.
  intros Hs Hk E Hadm Hfits HN' Hf. pose proof (turns_mono (S k) K Hk) as Hmono. cbn [turns] in Hmono.
  assert (h ⊆+ h ++ Op.writes op) as Hsub by (by apply submseteq_inserts_r). pose proof (submseteq_length _ _ Hsub).
  eapply runs_bind; [apply (flush_passes_spec (flushes e k)); [exact Hs|by eapply fits_submseteq|lia|nia]|]. intros w1 s1 Hs1.
  eapply (stands_call h _ w1 s1 m op (c s1) (f s1)); [exact Hs1|apply E|done|done|done|nia|]. intros a w' Ha. apply Hf.
  eapply runs_mono; [exact Ha|]. intros w2 r [Hr ?]. split; [|done]. unfold at_call.
  replace (1 + turns (S k) * N) with (1 + turns k * N + flushes e k * N + N) by (simpl; lia). exact Hr.
Qed.

(** *** The phases *)
Context (Hv : 0 < VAL_SIZE sc) (Hv16 : (Z.of_nat (VAL_SIZE sc) < 65536)%Z).
#[local] Abbreviation keys := (NUM_WRITE sc).
#[local] Abbreviation puts n := (loaded (VAL_SIZE sc) n).
#[local] Abbreviation db n := (table_of (VAL_SIZE sc) n).
Context (HW : is_int keys) (Hfits : fits (puts keys)) (HWN : S keys ≤ N) (HWK : keys ≤ K).

Lemma load_spec n : ∀ (i : nat) w s, at_call i (puts i) w s (db i) → i + n = keys →
  runs (load sc e i n s) w (λ w' s', at_call keys (puts keys) w' s' (db keys)).
Proof.
  induction n as [|n IH]; intros i w s Hs En; [apply runs_ret; by replace keys with i by lia|]. cbn [load]. rewrite Nat.add_succ_r in En.
  assert (is_int i) as Hi by (unfold is_int in *; lia). change (fits (puts keys)) in Hfits.
  assert (puts i ++ Op.writes (Op.Put (gen_key (Z.of_nat i)) (gen_val (Z.of_nat i) (VAL_SIZE sc))) = puts (S i)) as Eh by (by rewrite loaded_snoc).
  apply (turn_spec i (puts i) w s (db i) (Op.Put (gen_key (Z.of_nat i)) (gen_val (Z.of_nat i) (VAL_SIZE sc))) _ (λ s s', mret (s', Op.Done)));
    rewrite ?Eh; [done|lia|done|by apply gen_ok|eapply fits_submseteq, Hfits; apply loaded_mono; lia|rewrite length_loaded; lia|].
  intros s0 s1 w1 [Hs1 _]%runs_ret_inv. cbn [fst snd Op.meaning] in Hs1. rewrite decide_False in Hs1 by (by apply gen_val_nonempty).
  apply IH; [exact Hs1|lia].
Qed.

(** A call that writes nothing. *)
Lemma turn_reads (k : nat) w s op {A B} (c : t → eff World A) (f : t → A → eff World (t * Op.answer)) (f' : t → A → eff World B) (Q : World → B → Prop) :
  at_call k (puts keys) w s (db keys) → k < K → (∀ s, Op.run s op = c s ≫= f s) → Op.admissible CompactionController.NoCompaction op → Op.writes op = [] →
  (∀ s a w', runs (f s a) w' (λ w' r, at_call (S k) (puts keys) w' r.1 (Op.meaning (db keys) op).1 ∧ r.2 = (Op.meaning (db keys) op).2) → runs (f' s a) w' Q) →
  runs (s ← flush_passes (flushes e k) s; c s ≫= f' s) w Q.
Proof.
  intros Hs Hk E Hadm Hw Hf. apply (turn_spec k (puts keys) w s (db keys) op c f); rewrite ?Hw, ?app_nil_r; try done. rewrite length_loaded. lia.
Qed.

Lemma populate_spec w s : at_call 0 [] w s ∅ → keys + 2 ≤ K →
  runs (populate sc e s) w (λ w' s', at_call (keys + 2) (puts keys) w' s' (db keys)).
Proof.
  intros Hs HK2. unfold populate. eapply runs_bind; [by apply (load_spec keys 0 w s)|]. intros w1 s1 Hs1.
  apply (turn_reads keys w1 s1 Op.ForceFlush _ (λ s s', mret (s', Op.Done))); [done|lia|done..|]. intros s2 s3 w3 [Hs3 _]%runs_ret_inv.
  rewrite Nat.add_1_r. apply runs_eta, (turn_reads (S keys) w3 s3 Op.ForceFullCompaction _ (λ s s', mret (s', Op.Done))); [done|lia|done..|].
  intros s4 s5 w5 [Hs5 _]%runs_ret_inv. apply runs_ret. by replace (keys + 2) with (S (S keys)) by lia.
Qed.

(** The gets of a phase, as the calls from [k] on. *)
Definition answers (key_idx : nat → nat) (i n : nat) : list bytes :=
  (λ j, default [] (db keys !! gen_key (Z.of_nat (key_idx j)))) <$> seq i n.

Lemma timed_gets_spec key_idx (k n : nat) : ∀ (i : nat) w s hist, at_call (k + i) (puts keys) w s (db keys) → k + i + n ≤ K →
  runs (timed_gets e key_idx k i n s hist) w (λ w' r, at_call (k + i + n) (puts keys) w' r.1.1 (db keys) ∧
    length r.1.2 = length hist + n ∧ r.2 = answers key_idx i n).
Proof.
  induction n as [|n IH]; intros i w s hist Hs Hk; [apply runs_ret; by rewrite !Nat.add_0_r|]. cbn [timed_gets].
  apply (turn_reads (k + i) w s (Op.Get (gen_key (Z.of_nat (key_idx i)))) _ (λ s v, mret (s, Op.Found v))); [done|lia|done..|].
  intros s1 v w1 [Hs1 [= ->]]%runs_ret_inv. cbn [fst] in Hs1. rewrite <-Nat.add_succ_r in Hs1.
  eapply runs_bind; [apply (IH (S i)); [exact Hs1|lia]|]. intros w2 [[s2 hist'] vals] (Hs2 & Hl & Ev). cbn [fst snd] in *. subst vals. apply runs_ret.
  split_and!; [by replace (k + i + S n) with (k + S i + n) by lia| |done]. cbn [fst snd]. rewrite Hl. unfold LatencyHistogram.record. rewrite length_app. simpl. lia.
Qed.

Lemma answers_dist : (∀ i, i < NUM_READ sc → dist e i < keys) →
  answers (dist e) 0 (NUM_READ sc) = (λ i, gen_val (Z.of_nat (dist e i)) (VAL_SIZE sc)) <$> seq 0 (NUM_READ sc).
Proof.
  intros Hd. apply list_fmap_ext. intros j i [Ei Hi]%lookup_seq. simpl in Ei. subst j. pose proof (Hd i Hi). rewrite lookup_table by (unfold is_int in *; lia).
  by rewrite decide_True.
Qed.
Lemma answers_miss : is_int (keys + NUM_MISS sc) → answers (λ i, keys + i) 0 (NUM_MISS sc) = replicate (NUM_MISS sc) [].
Proof.
  intros Hi. apply list_eq_same_length with (NUM_MISS sc); [by rewrite length_replicate|unfold answers; by rewrite length_fmap, length_seq|].
  intros i x y Hlt. unfold answers. rewrite list_lookup_fmap, lookup_seq_lt by done. simpl. rewrite lookup_table by (unfold is_int in *; lia).
  rewrite decide_False by lia. rewrite lookup_replicate_2 by done. intros Ex Ey. by simplify_eq/=.
Qed.

(** The phases on a loaded engine, from call [k] on. *)
Definition phase_done (k : nat) (vals : list bytes) w (r : t * Report.phase) : Prop :=
  at_call k (puts keys) w r.1 (db keys) ∧ Report.vals r.2 = vals.

Lemma random_get_spec w s : at_call (keys + 2) (puts keys) w s (db keys) → keys + 2 + NUM_READ sc ≤ K → is_int (NUM_READ sc) →
  (∀ i, i < NUM_READ sc → dist e i < keys) →
  runs (random_get sc e s) w (phase_done (keys + 2 + NUM_READ sc) ((λ i, gen_val (Z.of_nat (dist e i)) (VAL_SIZE sc)) <$> seq 0 (NUM_READ sc))).
Proof.
  intros Hs Hk Hi Hd. unfold random_get, is_int in *. eapply runs_bind; [apply (timed_gets_spec (dist e) (keys + 2) (NUM_READ sc) 0 w s []); [by rewrite Nat.add_0_r|lia]|].
  intros w1 [[s1 h1] vals] (Hs1 & Hl & Ev). cbn [fst snd length Nat.add] in *. rewrite answers_dist in Ev by done. subst vals.
  eapply runs_bind; [apply sorted_percentile_runs; [by left|rewrite Hl; lia]|]. intros w2 [h2 v2] (-> & Hp2 & _). cbn [fst] in Hp2.
  eapply runs_bind; [apply sorted_percentile_runs; [by right; left|rewrite Hp2, Hl; lia]|]. intros w3 [h3 v3] (-> & Hp3 & _). cbn [fst] in Hp3.
  eapply runs_bind; [apply sorted_percentile_runs; [by right; right|rewrite Hp3, Hp2, Hl; lia]|]. intros w4 [h4 v4] (-> & _).
  apply runs_ret. split; [|done]. by rewrite Nat.add_0_r in Hs1.
Qed.

Lemma miss_get_spec w s : let k := keys + 2 + NUM_READ sc in at_call k (puts keys) w s (db keys) → k + NUM_MISS sc ≤ K →
  is_int (keys + NUM_MISS sc) →
  runs (miss_get sc e s) w (phase_done (k + NUM_MISS sc) (replicate (NUM_MISS sc) [])).
Proof.
  intros k Hs Hk Hi. unfold miss_get. eapply runs_bind; [apply (timed_gets_spec (λ i, keys + i) k (NUM_MISS sc) 0 w s []); [by rewrite Nat.add_0_r|lia]|].
  intros w1 [[s1 h1] vals] (Hs1 & Hl & Ev). cbn [fst snd length Nat.add] in *. rewrite answers_miss in Ev by done. subst vals. unfold is_int in Hi.
  eapply runs_bind; [apply sorted_percentile_runs; [by left|rewrite Hl; lia]|]. intros w2 [h2 v2] (-> & Hp2 & _). cbn [fst] in Hp2.
  eapply runs_bind; [apply sorted_percentile_runs; [by right; left|rewrite Hp2, Hl; lia]|]. intros w3 [h3 v3] (-> & _).
  apply runs_ret. split; [|done]. by rewrite Nat.add_0_r in Hs1.
Qed.

Lemma sequential_scan_spec w s : let k := keys + 2 + NUM_READ sc + NUM_MISS sc in at_call k (puts keys) w s (db keys) → k < K →
  runs (sequential_scan sc e s) w (λ w' r, at_call (S k) (puts keys) w' r.1 (db keys) ∧ r.2 = keys).
Proof.
  intros k Hs Hk. unfold sequential_scan. fold k.
  assert (runs (s ← flush_passes (flushes e k) s; l ← on_cache (it ← scan s Unbounded Unbounded; collect loop_fuel it); mret (s, length l)) w
    (λ w' r, at_call (S k) (puts keys) w' r.1 (db keys) ∧ r.2 = keys)) as (w' & r & Hrun & Hr).
  { apply (turn_reads k w s (Op.Scan Unbounded Unbounded) _ (λ s l, mret (s, Op.Range l))); [done..|]. intros s1 l w1 [Hs1 [= ->]]%runs_ret_inv.
    apply runs_ret. split; [exact Hs1|]. cbn [snd]. rewrite filter_all by (apply Forall_forall; by intros). by rewrite length_entries, size_table. }
  exists w', r. split; [|done]. apply eff_bind_Ok in Hrun as (w1 & s1 & E1 & (w2 & l & E2 & [= <- <-])%eff_bind_Ok).
  rewrite (eff_bind_run _ _ _ _ _ E1). apply on_cache_Ok in E2 as (c2 & E2 & ->).
  apply eff_bind_Ok in E2 as (c1 & it & Hscan & Hcol). unfold MiniLsm.scan, mbind, eff_bind, on_cache. rewrite Hscan. cbn [cache files].
  by rewrite (count_collect _ 0 _ _ _ _ Hcol).
Qed.
End suite.

(** C39: the read benchmark reads what it should.  Run the suite on a directory
    without a manifest, with any compression, any draws below the number of keys,
    any readings of the clock and any passes of the flush thread between the
    calls.  It returns, so that no percentile is taken outside of the samples;
    every get of an existing key finds the value that was generated for it, every
    get of a missing key finds nothing, and the scan counts every key once.  The
    bounds are on the size of the data and on the number of calls and passes. *)
Theorem read_suite_finds_keys sc e db_name comp fs cache (N : nat) :
  let total := NUM_WRITE sc + 2 + NUM_READ sc + NUM_MISS sc + 1 in
  fs !! manifest_path (TempDB.dir_name db_name (now e)) = None →
  0 < VAL_SIZE sc → (Z.of_nat (VAL_SIZE sc) < 65536)%Z → is_int (NUM_READ sc) → is_int (NUM_WRITE sc + NUM_MISS sc) →
  (∀ i, i < NUM_READ sc → dist e i < NUM_WRITE sc) →
  fits (loaded (VAL_SIZE sc) (NUM_WRITE sc)) → NUM_WRITE sc < N → N < loop_fuel → (Z.of_nat (1 + turns e total * N) < 2 ^ 64 - 1)%Z →
  ∃ w' r, run_read_suite sc e db_name comp (MkWorld fs cache) = Ok (w', r) ∧ Report.keys_scanned r = NUM_WRITE sc ∧
    Report.vals (Report.random_get r) = (λ i, gen_val (Z.of_nat (dist e i)) (VAL_SIZE sc)) <$> seq 0 (NUM_READ sc) ∧
    Report.vals (Report.miss_get r) = replicate (NUM_MISS sc) [].
Proof.
  intros total Hf Hv Hv16 Hr Hm Hd Hfits HN HNf Hids. set (opts := options_of sc comp). set (p := TempDB.dir_name db_name (now e)) in *.
  assert (is_int (NUM_WRITE sc)) as Hw by (unfold is_int in *; lia). assert (Z.of_nat (1 + turns e total * N) < 2 ^ 64)%Z as Hids' by lia.
  assert (options_ok opts) as Ho by (split; [apply (bool_decide_unpack _); vm_compute; exact I|done]).
  assert (runs (run_read_suite sc e db_name comp) (MkWorld fs cache) (λ _ r, Report.keys_scanned r = NUM_WRITE sc ∧
    Report.vals (Report.random_get r) = (λ i, gen_val (Z.of_nat (dist e i)) (VAL_SIZE sc)) <$> seq 0 (NUM_READ sc) ∧
    Report.vals (Report.miss_get r) = replicate (NUM_MISS sc) [])) as (w' & r & Hrun & Hres); [|by exists w', r].
  unfold run_read_suite, TempDB.create. fold p.
  apply (runs_bind _ _ _ (λ w db, ∃ s, db = TempDB.mk p (Threads.Config s Threads.Idle) ∧ at_call e opts p N 0 [] w s ∅)).
  { eapply (runs_bind _ _ _ (λ w' _, w' = MkWorld fs (BlockCache.create Cli.block_cache_capacity))); [by eexists _, _|]. intros w0 [] ->.
    eapply runs_bind; [by apply (stands_fresh opts p)|]. intros w1 s1 Hs1. apply runs_ret. by exists s1. }
  intros w1 db (s1 & -> & Hs1). cbn [TempDB.db_ TempDB.dir_ Threads.engine].
  eapply runs_bind; [apply (populate_spec sc e opts p N eq_refl HNf total); done || lia|]. intros w2 s2 Hs2.
  eapply runs_bind; [by apply (runs_return (λ w, Dir.sst_bytes p (files w)))|]. intros w3 sst [-> _].
  eapply runs_bind; [apply (random_get_spec sc e opts p N eq_refl HNf total); done || lia|]. intros w4 [s4 r4] [Hs4 E4].
  eapply runs_bind; [apply (miss_get_spec sc e opts p N eq_refl HNf total); done || lia|]. intros w5 [s5 r5] [Hs5 E5].
  eapply runs_bind; [apply (sequential_scan_spec sc e opts p N eq_refl HNf total); done || lia|]. intros w6 [s6 count] [Hs6 E6].
  cbn [fst snd] in *. destruct Hs6 as (g & Hal & _ & Hn & Eo & _).
  eapply runs_bind; [eapply destroy_idle; [exact Hal|by rewrite Eo|done|]|].
  { unfold total in Hids. rewrite Nat.add_1_r in Hids. lia. }
  intros w7 [] _. by apply runs_ret.
Qed.
End read.

(** ** The write benchmark *)

(** *** Directories *)
Section dir.
Import Dir LsmStorageInner.

Lemma append_cons c s1 s2 : String c s1 +:+ s2 = String c (s1 +:+ s2).
Proof. done. Qed.
Lemma strip_append p s : strip_prefix p (p +:+ s) = Some s.
Proof. induction p as [|c p IH]; [done|]. rewrite append_cons. cbn [strip_prefix]. by rewrite decide_True. Qed.

(** A directory whose name does not end in a slash. *)
Definition plain (dir : string) : Prop := ∀ name, join_path dir name = dir +:+ "/" +:+ name.

Lemma below_join dir name : plain dir → below dir (join_path dir name) = Some name.
Proof. intros Hp. unfold below. rewrite Hp, <-Names.append_assoc. apply strip_append. Qed.

Lemma is_sst_join dir name : plain dir → has slash name = false → is_sst dir (join_path dir name) = bool_decide (extension name = ".sst"%string).
Proof. intros Hp Hs. unfold is_sst, entry. by rewrite below_join, Hs. Qed.

Lemma manifest_no_sst dir : plain dir → is_sst dir (manifest_path dir) = false.
Proof. intros Hp. unfold manifest_path. by rewrite is_sst_join. Qed.

(** A digit is neither a dot nor a slash. *)
Definition number (s : string) : Prop := has slash s = false ∧ has dot s = false.

Lemma has_append c s1 s2 : has c (s1 +:+ s2) = has c s1 || has c s2.
Proof. induction s1 as [|d s1 IH]; [done|]. rewrite append_cons. cbn [has]. by rewrite IH, orb_assoc. Qed.
Lemma number_append s1 s2 : number s1 → number s2 → number (s1 +:+ s2).
Proof. intros [H1 H2] [H3 H4]. split; rewrite has_append; [by rewrite H1, H3|by rewrite H2, H4]. Qed.
Lemma number_zeros k : number (String.concat "" (replicate k "0"%string)).
Proof. induction k as [|[|k] IH]; [done..|]. exact (number_append "0" _ (conj eq_refl eq_refl) IH). Qed.
Lemma number_char (x : N) : number (String (pretty_N_char x) "").
Proof. unfold number, pretty_N_char. repeat case_match; done. Qed.
Lemma number_go (x : N) : ∀ s, number s → number (pretty_N_go x s).
Proof.
  induction (N.lt_wf_0 x) as [x _ IH]; intros s Hs. destruct (decide (0 < x)%N) as [Hx|Hx].
  - rewrite pretty_N_go_step by done. apply IH; [by apply N.div_lt|]. exact (number_append _ s (number_char _) Hs).
  - assert (x = 0)%N as -> by lia. by rewrite pretty_N_go_0.
Qed.
Lemma number_nat (n : nat) : number (pretty n).
Proof. unfold pretty, pretty_nat, pretty, pretty_N. case_decide; [done|]. by apply number_go. Qed.

Lemma from_dot_suffix s suffix : has dot s = false → from_dot (s +:+ suffix) = from_dot suffix ∨ has dot suffix = false.
Proof.
  intros Hs. destruct (has dot suffix) eqn:E; [left|by right]. induction s as [|c s IH]; [done|]. rewrite append_cons. cbn [from_dot has] in *.
  apply orb_false_iff in Hs as [_ Hs]. rewrite has_append, E, orb_true_r. by apply IH.
Qed.

(** Every table file counts. *)
Lemma sst_is_sst s id : plain (path s) → is_sst (path s) (path_of_sst_val s id) = true.
Proof.
  intros Hp. pose proof (number_append _ _ (number_zeros (5 - String.length (pretty id))) (number_nat id)) as [Hsl Hdot].
  unfold path_of_sst_val. rewrite is_sst_join; [|done|unfold pad5; by rewrite has_append, Hsl]. apply bool_decide_eq_true. unfold pad5.
  assert (String.concat "" (replicate (5 - String.length (pretty id)) "0"%string) +:+ pretty id ≠ ""%string) as Hne.
  { intros E%(f_equal String.length). rewrite length_append, length_zeros in E. simpl in E. lia. }
  generalize dependent (String.concat "" (replicate (5 - String.length (pretty id)) "0"%string) +:+ pretty id). intros [|c s1]; [done|].
  intros _ Hdot _. unfold extension.
  rewrite decide_False by (intros E; apply (f_equal (λ s, has (Ascii.ascii_of_nat 115) s)) in E; rewrite has_append in E; cbn in E; by rewrite orb_true_r in E).
  rewrite append_cons. cbn [has] in Hdot. apply orb_false_iff in Hdot as [_ Hdot]. by destruct (from_dot_suffix s1 ".sst" Hdot).
Qed.

(** The sum over a directory with a single table. *)
Lemma sst_bytes_single dir fs path data : (∀ p, p ≠ path → is_sst dir p = true → fs !! p = None) → is_sst dir path = true →
  fs !! path = Some data → sst_bytes dir fs = u64 (Z.of_nat (length data)).
Proof.
  intros Hnone Hs Hd. unfold sst_bytes. replace (filter _ fs) with ({[path := data]} : Fs.t); [by rewrite map_to_list_singleton|].
  apply map_eq. intros p. apply option_eq. intros d. rewrite map_lookup_filter_Some, lookup_singleton_Some. cbn [fst]. split.
  - by intros [<- <-].
  - intros [Hp Hsp]. destruct (decide (p = path)) as [->|Hne]; [by rewrite Hd in Hp; simplify_eq|]. by rewrite (Hnone p) in Hp.
Qed.
End dir.

(** The directory of a run. *)
Section dir_name.
Import Dir LsmStorageInner.

Lemma get_last s c : String.get (String.length (s +:+ String c "") - 1) (s +:+ String c "") = Some c.
Proof.
  rewrite length_append. cbn [String.length]. rewrite Nat.add_sub. induction s as [|d s IH]; [done|]. exact IH.
Qed.
Lemma has_get s c : ∀ (i : nat), String.get i s = Some c → has c s = true.
Proof.
  induction s as [|d s IH]; intros [|i]; cbn [String.get has]; try done.
  - intros [= ->]. by rewrite bool_decide_true.
  - intros E%IH. by rewrite E, orb_true_r.
Qed.
Lemma get_append s1 s2 : s2 ≠ ""%string → String.get (String.length (s1 +:+ s2) - 1) (s1 +:+ s2) = String.get (String.length s2 - 1) s2.
Proof.
  intros Hs. rewrite length_append. assert (String.length s2 ≠ 0) as Hl by (by destruct s2). replace (String.length s1 + String.length s2 - 1) with (String.length s1 + (String.length s2 - 1)) by lia.
  induction s1 as [|c s1 IH]; [done|]. exact IH.
Qed.

Lemma number_Z (z : Z) : has slash (pretty z) = false ∧ pretty z ≠ ""%string.
Proof.
  assert (∀ n : N, has slash (pretty n) = false ∧ pretty n ≠ ""%string) as Hn.
  { intros n. unfold pretty, pretty_N. case_decide; [done|]. split; [by apply number_go|]. rewrite pretty_N_go_step by lia.
    intros E. pose proof (Names.scan_pretty_go (n / 10) (String (pretty_N_char (n `mod` 10)) "")) as Hs. rewrite E in Hs.
    cbn [Names.scan_name] in Hs. rewrite Names.digit_pretty in Hs by (apply N.mod_lt; lia). injection Hs as Hs. pose proof (N.div_mod n 10 ltac:(lia)). lia. }
  unfold pretty, pretty_Z. destruct z as [|x|x]; [done|apply Hn|]. destruct (Hn (Npos x)) as [Hs _]. split; [|done].
  exact Hs.
Qed.

Lemma dir_name_plain label now : plain (TempDB.dir_name label now).
Proof.
  intros name. unfold join_path. destruct (number_Z now) as [Hs Hne]. unfold TempDB.dir_name in *. rewrite decide_False by done.
  rewrite decide_False; [done|]. rewrite <-!Names.append_assoc, get_append by done. intros E%has_get. change (has slash (pretty now) = true) in E. congruence.
Qed.
End dir_name.

(** *** Loading without a compaction strategy and without logs *)
Section write.
Context `{!Zlib} `{!Snappy} `{!SnappyLaws} `{!SnappyBound} `{!Farmhash} `{!Libm} `{!Json} `{!JsonLaws} `{!LoopFuel}.
Import LsmStorageInner Threads Text BenchWrite.
Implicit Types (g : ghost) (w : World) (s : LsmStorageInner.t) (h : list kv).

(** What a call does to the memtables and the files, read off the code. *)
Lemma add_record_shape s r w w' s' : add_manifest_record s r w = Ok (w', s') →
  (∀ m, manifest s = Some m → Manifest.path_ m = manifest_path (path s)) →
  state s' = state s ∧ ∀ f, f ≠ manifest_path (path s) → files w' !! f = files w !! f.
Proof.
  unfold add_manifest_record. destruct (manifest s) as [m|]; [|by intros [= -> ->]].
  intros (w1 & [m' x] & E & [= <- <-])%eff_bind_Ok Hm. split; [done|]. intros f Hf. rewrite <-(Hm m eq_refl) in Hf. unfold on_fs in E.
  destruct (Manifest.add_record m r (files w)) as [[fs [m1 x1]]|] eqn:Ea; [|done]. injection E as <- <- <-. cbn [files].
  unfold Manifest.add_record, Manifest.add_record_when_init in Ea. repeat case_match; simplify_eq; [by rewrite lookup_insert_ne|done..].
Qed.

Definition plain_memtable (m : MemTable.t) : Prop := MemTable.wal_ m = None.

Lemma length_assign k v (l : list kv) : length (StdMap.assign k v l) ≤ S (length l).
Proof. induction l as [|[k' v'] l IH]; cbn [StdMap.assign]; [done|]. repeat case_match; simpl in *; lia. Qed.

(** [put] stores; a memtable that reaches the target size is frozen. *)
Lemma put_shape s k v w w' s' : put s k v w = Ok (w', s') → LsmStorageOptions.enable_wal (options s) = false →
  plain_memtable (LsmStorageState.memtable (state s)) → (∀ m, manifest s = Some m → Manifest.path_ m = manifest_path (path s)) →
  let m := MemTable.store (LsmStorageState.memtable (state s)) None k v in
  (∀ f, f ≠ manifest_path (path s) → files w' !! f = files w !! f) ∧
  LsmStorageState.l0_sstables (state s') = LsmStorageState.l0_sstables (state s) ∧
  if decide (LsmStorageOptions.target_sst_size (options s) ≤ MemTable.approximate_size_ m)
  then LsmStorageState.memtable (state s') = MemTable.create (next_sst_id s) ∧
    LsmStorageState.imm_memtables (state s') = m :: LsmStorageState.imm_memtables (state s)
  else LsmStorageState.memtable (state s') = m ∧ LsmStorageState.imm_memtables (state s') = LsmStorageState.imm_memtables (state s).
Proof.
  unfold put, MemTable.put, plain_memtable. intros E Hw Hm Hman. rewrite Hm in E. cbn [fst] in E. cbv zeta in *. case_decide as Hd; rewrite ?decide_True, ?decide_False by done.
  - unfold force_freeze_memtable, new_memtable in E. cbn [options set_next_sst_id set_state state] in E. rewrite Hw in E.
    apply eff_bind_Ok in E as (w1 & m & [= <- <-] & E). apply add_record_shape in E as [Est Hf]; [|exact Hman]. rewrite Est. done.
  - by injection E as <- <-.
Qed.

(** [force_flush_next_imm_memtable] writes one table. *)
Lemma flush_shape s m ms w w' s' : force_flush_next_imm_memtable s w = Ok (w', s') → LsmStorageState.imm_memtables (state s) = ms ++ [m] →
  plain_memtable m → (∀ m, manifest s = Some m → Manifest.path_ m = manifest_path (path s)) →
  (∀ f, f ≠ manifest_path (path s) → f ≠ path_of_sst_val s (MemTable.id_ m) → files w' !! f = files w !! f).
Proof.
  intros E Hi Hw Hman f Hf1 Hf2. unfold force_flush_next_imm_memtable in E. rewrite Hi, last_snoc in E.
  apply eff_bind_Ok in E as (w1 & b & [-> _]%lift_Ok & E). apply eff_bind_Ok in E as (w2 & sst & E2 & E). cbv zeta in E.
  apply eff_bind_Ok in E as (w3 & s3 & E3 & E). apply eff_bind_Ok in E as (w4 & [] & E4 & [= <- <-]).
  unfold destroy_memtable in E4. rewrite Hw in E4. injection E4 as <-.
  apply add_record_shape in E3 as [_ Hf3]; [|exact Hman]. rewrite (Hf3 f Hf1). unfold on_fs in E2.
  destruct (SsTableBuilder.build _ _ _ _ (files w)) as [[fs t]|] eqn:Eb; [|done]. injection E2 as <- <-. cbn [files].
  unfold SsTableBuilder.build in Eb. apply eff_bind_Ok in Eb as (fs1 & buf & [-> _]%lift_Ok & Eb). apply eff_bind_Ok in Eb as (fs2 & file & Ec & [-> _]%lift_Ok).
  unfold FileObject.create, FileObject.open in Ec. rewrite lookup_insert_eq in Ec. injection Ec as <- _. by rewrite lookup_insert_ne.
Qed.

(** Opening a new directory makes the manifest and nothing else. *)
Lemma open_shape p opts w w' s : open p opts w = Ok (w', s) → files w !! manifest_path p = None → LsmStorageOptions.enable_wal opts = false →
  state s = LsmStorageState.create opts ∧ ∀ f, f ≠ manifest_path p → files w' !! f = files w !! f.
Proof.
  intros E Hf Hw. unfold open in E. apply eff_bind_Ok in E as (w1 & b & Eb & E). unfold exists_, on_fs in Eb. injection Eb as <- <-.
  rewrite Hf in E. cbn [negb bool_decide] in E. unfold open_fresh in E. cbv zeta in E. change (options (create opts p)) with opts in E. rewrite Hw in E.
  apply eff_bind_Ok in E as (w1 & s1 & [= <- <-] & E). cbn [files cache path create] in E. apply eff_bind_Ok in E as (w1 & r & Er & E).
  unfold on_fs, Manifest.create in Er. injection Er as <- <-. cbn [files] in E.
  unfold add_init_record in E. cbn [manifest set_manifest] in E. apply eff_bind_Ok in E as (w2 & [m x] & Ea & [= <- <-]). split; [done|].
  intros f Hne. unfold on_fs in Ea. cbn [files] in Ea. unfold Manifest.add_record_when_init in Ea. cbn [Manifest.fd_ Manifest.path_] in Ea.
  destruct (dump _) as [str|[]]; simplify_eq; cbn [files]; by rewrite ?lookup_insert_ne.
Qed.

(** One more entry. *)
Lemma div_step q i : 0 < q → if decide (S (i `mod` q) = q) then S i `div` q = S (i `div` q) ∧ S i `mod` q = 0
  else S i `div` q = i `div` q ∧ S i `mod` q = S (i `mod` q).
Proof.
  intros Hq. pose proof (Nat.div_mod_eq i q) as E. pose proof (Nat.mod_upper_bound i q ltac:(lia)). case_decide.
  - split; symmetry; [apply (Nat.div_unique _ _ _ 0)|apply (Nat.mod_unique _ _ (S (i `div` q)))]; lia.
  - split; symmetry; [apply (Nat.div_unique _ _ _ (S (i `mod` q)))|apply (Nat.mod_unique _ _ (i `div` q))]; lia.
Qed.

Section load.
Context (e : environment) (opts : LsmStorageOptions.t) (p : string) (V q num : nat).
Context (Hno : LsmStorageOptions.compaction_options opts = CompactionOptions.NoCompaction) (Hwal : LsmStorageOptions.enable_wal opts = false).
Context (Hp : plain p) (HV : 0 < V) (HV16 : (Z.of_nat V < 65536)%Z) (Hq : 0 < q).
Context (Hlow : (q - 1) * (15 + V) < LsmStorageOptions.target_sst_size opts) (Hhigh : LsmStorageOptions.target_sst_size opts ≤ q * (15 + V)).
Context (Hnum : is_int num) (Hlimit : num `div` q < LsmStorageOptions.num_memtable_limit opts).
Context (Hfits : fits (loaded V num)) (Hfuel : S num < loop_fuel).

(** After [i] puts: a memtable is frozen every [q] entries, and nothing is on disk. *)
Record filling (i : nat) w s : Prop := {
  fl_stands : stands opts p (loaded V i) (1 + i) w s (table_of V i);
  fl_l0 : LsmStorageState.l0_sstables (state s) = [];
  fl_imm : length (LsmStorageState.imm_memtables (state s)) = i `div` q;
  fl_size : MemTable.approximate_size_ (LsmStorageState.memtable (state s)) = (i `mod` q) * (15 + V);
  fl_count : length (MemTable.map_ (LsmStorageState.memtable (state s))) ≤ i `mod` q;
  fl_imms : Forall (λ m, plain_memtable m ∧ length (MemTable.map_ m) ≤ q) (LsmStorageState.imm_memtables (state s));
  fl_plain : plain_memtable (LsmStorageState.memtable (state s));
  fl_files f : Dir.is_sst p f = true → files w !! f = None }.

Lemma filling_fresh fs cap : options_ok opts → (∀ f, Dir.below p f ≠ None → fs !! f = None) →
  runs (open p opts) (MkWorld fs (BlockCache.create cap)) (λ w s, filling 0 w s).
Proof.
  intros Ho Hfs. assert (fs !! manifest_path p = None) as Hm by (apply Hfs; unfold manifest_path; by rewrite below_join).
  destruct (stands_fresh opts p fs cap Ho Hm) as (w & s & Hrun & Hs). exists w, s. split; [done|].
  destruct (open_shape _ _ _ _ _ Hrun Hm Hwal) as [Est Hf]. split; rewrite ?Est; try done.
  - by rewrite Nat.Div0.div_0_l.
  - by rewrite Nat.Div0.mod_0_l.
  - cbn. lia.
  - intros f Hsst. rewrite Hf; [|by intros ->; rewrite manifest_no_sst in Hsst]. apply Hfs. unfold Dir.is_sst, Dir.entry in Hsst. by destruct (Dir.below p f).
Qed.

Lemma filling_manifest i w s : filling i w s → options s = opts ∧ path s = p ∧ ∀ m, manifest s = Some m → Manifest.path_ m = manifest_path (path s).
Proof. intros [(g & Hal & _ & _ & Eo & Ep) _]. split_and!; [done..|]. apply (eo_manifest _ _ _ (al_engine _ _ _ _ Hal)). Qed.

Lemma filling_put i w s : filling i w s → i < num →
  runs (MiniLsm.put s (gen_key (Z.of_nat i)) (gen_val (Z.of_nat i) V)) w (λ w' s', filling (S i) w' s').
Proof.
  intros Hfl Hi. pose proof Hfl as []. destruct fl_stands0 as (g & Hal & Hsh & Hn & Eo & Ep). assert (is_int i) as Hint by (unfold is_int in *; lia).
  destruct (put_step (loaded V i) g w s (gen_key (Z.of_nat i)) (gen_val (Z.of_nat i) V)) as (w' & s' & Hrun & (_ & Hal' & Hsh' & Hn' & _ & Eo' & Ep' & _) & _);
    [done|by apply gen_ok|unfold room, is_int in *; lia|].
  exists w', s'. split; [exact Hrun|]. destruct (filling_manifest _ _ _ Hfl) as (_ & _ & Hman).
  destruct (put_shape _ _ _ _ _ _ Hrun) as (Hf & Hl0 & Hcase); [by rewrite Eo|done|done|]. rewrite Eo in Hcase. rewrite Ep in Hf.
  assert (stands opts p (loaded V (S i)) (1 + S i) w' s' (table_of V (S i))) as Hst.
  { exists g. rewrite loaded_snoc. split_and!; [done| |lia|congruence|congruence]. rewrite Hsh', visible_insert, decide_False by (by apply gen_val_nonempty).
    fold (shown g (state s)). by rewrite Hsh. }
  assert (∀ f, Dir.is_sst p f = true → files w' !! f = None) as Hfiles.
  { intros f Hsst. rewrite Hf; [auto|]. intros ->. by rewrite manifest_no_sst in Hsst. }
  pose proof (Nat.mod_upper_bound i q ltac:(lia)) as Hmod. pose proof (div_step q i Hq) as Hdiv.
  set (m := MemTable.store _ None _ _) in *.
  assert (MemTable.approximate_size_ m = S (i `mod` q) * (15 + V)) as Esize.
  { unfold m, MemTable.store. cbn [MemTable.approximate_size_]. rewrite fl_size0, length_gen_key, length_gen_val by done. lia. }
  assert (length (MemTable.map_ m) ≤ S (i `mod` q)) as Ecount.
  { unfold m, MemTable.store. cbn [MemTable.map_]. etrans; [apply length_assign|]. lia. }
  assert (plain_memtable m) as Hplain by done. destruct (decide (S (i `mod` q) = q)) as [Eq|Eq].
  - destruct Hdiv as [Ed Em]. rewrite decide_True in Hcase by (rewrite Esize, Eq; done). destruct Hcase as [Emem Eimm].
    split; rewrite ?Hl0, ?Emem, ?Eimm, ?Ed, ?Em; try done; [by simpl; rewrite fl_imm0|]. constructor; [split; [done|lia]|done].
  - destruct Hdiv as [Ed Em]. rewrite decide_False in Hcase.
    { destruct Hcase as [Emem Eimm]. by split; rewrite ?Hl0, ?Emem, ?Eimm, ?Ed, ?Em. }
    rewrite Esize. assert (S (i `mod` q) ≤ q - 1) as Hle by lia. pose proof (Nat.mul_le_mono_r _ _ (15 + V) Hle). lia.
Qed.

(** Between the calls nothing happens: the flush thread waits for more memtables,
    and without a strategy there is nothing to compact. *)
Lemma background_idle ps s w : length (LsmStorageState.imm_memtables (state s)) < LsmStorageOptions.num_memtable_limit (options s) →
  compaction_controller s = CompactionController.NoCompaction → background ps (Config s Idle) w = Ok (w, Config s Idle).
Proof.
  intros Hlim Hc. induction ps as [|pass ps IH]; [done|]. cbn [background]. destruct pass; cbn [event_of perform engine thread].
  - unfold Op.run, trigger_flush. rewrite decide_False by lia. exact IH.
  - unfold compactor_step. rewrite Hc. exact IH.
Qed.

Lemma filling_idle ps i w s : filling i w s → i ≤ num → background ps (Config s Idle) w = Ok (w, Config s Idle).
Proof.
  intros [(g & Hal & _ & _ & Eo & _) _ Hi] Hle. apply background_idle.
  - rewrite Hi, Eo. eapply Nat.le_lt_trans; [|exact Hlimit]. by apply Nat.Div0.div_le_mono.
  - by rewrite (al_controller _ _ _ _ Hal), Eo, Hno.
Qed.

Lemma put_all_spec n : ∀ (i : nat) w s, filling i w s → i + n = num →
  runs (put_all e V i n (Config s Idle)) w (λ w' c, ∃ s', c = Config s' Idle ∧ filling num w' s').
Proof.
  induction n as [|n IH]; intros i w s Hfl En; cbn [put_all].
  { apply runs_ret. exists s. split; [done|]. by replace num with i by lia. }
  apply (runs_bind _ _ _ (λ w' c, w' = w ∧ c = Config s Idle)); [eexists _, _; split; [apply (filling_idle _ i); [done|lia]|done]|].
  intros w0 c [-> ->]. cbn [engine thread]. eapply runs_bind; [apply (filling_put i); [done|lia]|]. intros w1 s1 Hfl1. apply IH; [done|lia].
Qed.

(** A directory with a single table, of at most [q] entries. *)
Definition one_table (fs : Fs.t) : Prop := ∃ id data t kvss, Dir.sst_bytes p fs = Z.of_nat (length data) ∧
  SsTable.open id true (TableBuilderSpec.file_of data) = Ok t ∧ holds t kvss ∧ length (mjoin kvss) ≤ q.

Lemma flush_one w s : filling num w s → q ≤ num →
  runs (MiniLsm.force_flush s) w (λ w' s', one_table (files w') ∧ ∃ g, alive (loaded V num) g w' s' ∧ next_sst_id s' ≤ 1 + num ∧ options s' = opts).
Proof.
  intros Hfl Hqn. pose proof Hfl as []. destruct fl_stands0 as (g & Hal & _ & Hn & Eo & Ep). assert (room s) as Hroom by (unfold room, is_int in *; lia).
  pose proof (fits_imms _ g w s Hal Hfits) as Hfi.
  destruct (flush_step _ g w s Hal Hfits Hroom) as (w' & s' & Hrun & g' & (_ & Hal' & _ & Hn' & _ & Eo' & Ep' & _) & _).
  exists w', s'. split; [exact Hrun|]. split; cycle 1.
  { exists g'. split_and!; [done|lia|congruence]. }
  destruct (flush_spec g w s (al_engine _ _ _ _ Hal) Hroom) as (w1 & s1 & Hrun1 & Hres).
  { intros m [ms E]%last_Some. rewrite E in Hfi. apply Forall_app in Hfi as [_ Hfi]. by apply Forall_inv in Hfi. }
  rewrite Hrun in Hrun1. injection Hrun1 as <- <-. assert (0 < num `div` q) as Hdiv by (apply Nat.div_str_pos; lia).
  destruct Hres as [(E & _)|(ms & m & t & kvss & E & Est & Hkv & Hok' & _ & _ & _ & _)]; [by rewrite E in fl_imm0; simpl in *; lia|].
  rewrite E in fl_imms0. apply Forall_app in fl_imms0 as [_ [Hplain Hcount]%Forall_inv]. set (id := MemTable.id_ m) in *.
  destruct (eo_tables _ _ _ Hok' id) as (t' & kvss' & data & []).
  { rewrite Est, flushed_ids; [by left|apply (eo_tiers _ _ _ (al_engine _ _ _ _ Hal))]. }
  rewrite lookup_insert_eq in ta_ghost. injection ta_ghost as <-. exists id, data, t', kvss.
  split_and!; [|done|done|by rewrite Hkv]. destruct (filling_manifest _ _ _ Hfl) as (_ & _ & Hman).
  rewrite <-(u64_small (Z.of_nat (length data))) by lia.
  assert (path_of_sst_val s' id = path_of_sst_val s id) as Epath by (unfold path_of_sst_val; by rewrite Ep').
  assert (Dir.is_sst p (path_of_sst_val s id) = true) as Hsst by (rewrite <-Ep; apply sst_is_sst; by rewrite Ep).
  rewrite Epath in ta_file. apply (sst_bytes_single p (files w') (path_of_sst_val s id)); [|done|done].
  intros f Hne Hs. rewrite (flush_shape s m ms w w' s' Hrun E Hplain Hman f); [auto| |done].
  rewrite Ep. intros ->. by rewrite manifest_no_sst in Hs.
Qed.

Lemma bench_load_spec w s : filling 0 w s → q ≤ num →
  runs (load e num V (Config s Idle)) w (λ w' c, ∃ s', c = Config s' Idle ∧ one_table (files w') ∧
    ∃ g, alive (loaded V num) g w' s' ∧ next_sst_id s' ≤ 1 + num ∧ options s' = opts).
Proof.
  intros Hfl Hqn. unfold load. eapply runs_bind; [by apply (put_all_spec num 0)|]. intros w1 c (s1 & -> & Hfl1).
  apply (runs_bind _ _ _ (λ w' c, w' = w1 ∧ c = Config s1 Idle)); [eexists _, _; split; [by apply (filling_idle _ num)|done]|].
  intros w0 c [-> ->]. cbn [engine thread]. eapply runs_bind; [by apply flush_one|]. intros w2 s2 Hs2. apply runs_ret. by exists s2.
Qed.
End load.

(** C40: without a compaction strategy and without logs, which are the two of its
    configurations named NoCompaction and NoCompact (Snappy), the write benchmark
    measures one memtable however many keys it wrote. With memtables that reach
    the target size after [q] puts, fewer frozen memtables than the flush thread
    waits for, and any passes of the threads: the benchmark returns, reports the
    bytes of all keys and values as written by the user, and as bytes on disk the
    size of a single table, which holds at most [q] of the entries, since
    [force_flush] flushes one memtable. With the constants of the code [q] is
    18237 of 200000 keys ([code_entries_per_memtable]), so that the write
    amplification it prints says little. *)
Theorem write_bench_measures_one_memtable e name opts num_keys val_size q fs cache :
  let p := TempDB.dir_name name (now e) in
  options_ok opts → LsmStorageOptions.compaction_options opts = CompactionOptions.NoCompaction → LsmStorageOptions.enable_wal opts = false →
  0 < val_size → (Z.of_nat val_size < 65536)%Z → is_int num_keys → q ≤ num_keys →
  (q - 1) * (15 + val_size) < LsmStorageOptions.target_sst_size opts ≤ q * (15 + val_size) →
  num_keys `div` q < LsmStorageOptions.num_memtable_limit opts →
  fits (loaded val_size num_keys) → S num_keys < loop_fuel →
  (∀ f, Dir.below p f ≠ None → fs !! f = None) →
  ∃ w' r id data t kvss, run_write_bench e name opts num_keys val_size (MkWorld fs cache) = Ok (w', r) ∧
    WriteResult.user_bytes r = (Z.of_nat num_keys * Z.of_nat (15 + val_size))%Z ∧
    WriteResult.disk_bytes r = Z.of_nat (length data) ∧
    SsTable.open id true (TableBuilderSpec.file_of data) = Ok t ∧ holds t kvss ∧ length (mjoin kvss) ≤ q.
Proof.
  intros p Ho Hno Hwal HV HV16 Hnum Hq Htarget Hlimit Hfits Hfuel Hfs.
  assert (0 < q) as Hq0 by (destruct q; [simpl in Htarget; lia|lia]).
  assert (runs (run_write_bench e name opts num_keys val_size) (MkWorld fs cache) (λ _ r, ∃ id data t kvss,
    WriteResult.user_bytes r = (Z.of_nat num_keys * Z.of_nat (15 + val_size))%Z ∧ WriteResult.disk_bytes r = Z.of_nat (length data) ∧
    SsTable.open id true (TableBuilderSpec.file_of data) = Ok t ∧ holds t kvss ∧ length (mjoin kvss) ≤ q)) as (w' & r & Hrun & id & data & t & kvss & Hr);
    [|by exists w', r, id, data, t, kvss].
  pose proof (dir_name_plain name (now e)) as Hp. fold p in Hp. unfold run_write_bench, TempDB.create. fold p.
  apply (runs_bind _ _ _ (λ w db, ∃ s, db = TempDB.mk p (Config s Idle) ∧ filling opts p val_size q 0 w s)).
  { eapply (runs_bind _ _ _ (λ w' _, w' = MkWorld fs (BlockCache.create Cli.block_cache_capacity))); [by eexists _, _|]. intros w0 [] ->.
    eapply runs_bind; [apply (filling_fresh opts p val_size q num_keys); done || lia|]. intros w1 s1 Hs1. apply runs_ret. by exists s1. }
  intros w1 db (s1 & -> & Hfl). cbn [TempDB.db_ TempDB.dir_].
  eapply runs_bind; [apply (bench_load_spec e opts p val_size q num_keys); done || lia|].
  intros w2 c (s2 & -> & (id & data & t & kvss & Hbytes & Hone) & g & Hal & Hn & Eo).
  eapply runs_bind; [by apply (runs_return (λ w, Dir.sst_bytes p (files w)))|]. intros w3 disk [-> ->].
  eapply runs_bind; [eapply destroy_idle; [exact Hal|by rewrite Eo|done|unfold is_int in *; lia]|]. intros w4 [] _.
  apply runs_ret. exists id, data, t, kvss. split_and!; [|exact Hbytes|apply Hone..]. unfold result. cbn [WriteResult.user_bytes].
  change (gen_key 0) with (gen_key (Z.of_nat 0)). rewrite length_gen_key by done. apply u64_small. unfold is_int in *. nia.
Qed.
End write.

(** *** The constants of the code *)

(** A memtable of two megabytes holds 18237 entries of 115 bytes, and ten of them
    are frozen while the flush thread waits for fifty. *)
Lemma code_entries_per_memtable : let opts := BenchWrite.no_compaction None_ in let q := Z.to_nat 18237 in let c := 15 + BenchWrite.VAL_SIZE in
  (q - 1) * c < LsmStorageOptions.target_sst_size opts ≤ q * c ∧
  BenchWrite.NUM_KEYS `div` q = 10 ∧ 10 < LsmStorageOptions.num_memtable_limit opts.
Proof.
  cbv zeta. unfold BenchWrite.no_compaction, BenchWrite.sized, BenchWrite.VAL_SIZE, BenchWrite.NUM_KEYS.
  cbn [LsmStorageOptions.target_sst_size LsmStorageOptions.num_memtable_limit LsmStorageOptions.default_for_week1_test].
  change (Z.shiftl 2 20) with 2097152%Z. split_and!; [lia..| |lia]. symmetry. apply (Nat.div_unique _ _ _ (Z.to_nat 17630)); lia.
Qed.

(** Doubles that are not below zero. *)
Definition nonneg (x : double) : Prop :=
  match x with S754_finite s _ _ | S754_infinity s | S754_zero s => s = false | S754_nan => True end.

Lemma nonneg_round m e l : nonneg (binary_round_aux Double.prec Double.emax false m e l).
Proof. unfold binary_round_aux. repeat case_match; done. Qed.
Lemma nonneg_of_nat (n : nat) : nonneg (Double.of_Z (Z.of_nat n)).
Proof. unfold Double.of_Z, binary_normalize. destruct (Z.of_nat n) eqn:E; [done| |lia]. unfold binary_round. case_match. apply nonneg_round. Qed.
Lemma nonneg_div x y : nonneg x → nonneg y → nonneg (Double.div x y).
Proof.
  unfold Double.div, SFdiv. intros Hx Hy. destruct x as [sx|sx| |sx mx ex], y as [sy|sy| |sy my ey]; simpl in *; subst; try done.
  case_match. case_match. apply nonneg_round.
Qed.
Lemma nonneg_ltb x : nonneg x → Double.ltb x (S754_zero false) = false.
Proof. destruct x as [[]|[]| |[] m e]; done. Qed.

(** The simple strategy of the write benchmark does not compact before level 0 has
    200 tables: no level is less than zero percent of the one above it.  The
    200000 keys make eleven memtables. *)
Lemma simple_bench_waits snapshot : length (LsmStorageState.l0_sstables snapshot) < 200 →
  SimpleLeveledCompactionController.generate_compaction_task BenchWrite.simple_opts snapshot = None.
Proof.
  intros Hl. unfold SimpleLeveledCompactionController.generate_compaction_task.
  change (SimpleLeveledCompactionOptions.max_levels BenchWrite.simple_opts) with 4.
  change (SimpleLeveledCompactionOptions.level0_file_num_compaction_trigger BenchWrite.simple_opts) with 200.
  rewrite decide_False by done. rewrite decide_False by lia. cut (∀ n i, SimpleLeveledCompactionController.ratio_loop BenchWrite.simple_opts snapshot i n = None); [done|].
  induction n as [|n IH]; intros i; [done|]. cbn [SimpleLeveledCompactionController.ratio_loop]. repeat case_match; rewrite ?IH; try done.
  exfalso. unfold SimpleLeveledCompactionController.too_small in *.
  match goal with Hlt : Double.ltb _ _ = true |- _ => rewrite nonneg_ltb in Hlt; [done|] end.
  apply nonneg_div; apply nonneg_of_nat.
Qed.

(** ** Runs *)
Section demo.
#[local] Existing Instance demo_zlib.
#[local] Existing Instance demo_snappy.
#[local] Existing Instance demo_snappy_laws.
#[local] Existing Instance demo_snappy_bound.
#[local] Existing Instance demo_farmhash.
#[local] Existing Instance demo_libm.
#[local] Existing Instance demo_json.
#[local] Existing Instance demo_json_laws.
#[local] Instance demo_fuel : LoopFuel := 20.
Import Text Cli.

Example gen_key_text_42 : gen_key 42 = text "key_00000000042".
Proof. reflexivity. Qed.
Example gen_val_text_42 : gen_val 42 20 = text "val_00000042_xxxxxxx".
Proof. reflexivity. Qed.
Example human_bytes_text : human_bytes 2097152 = "2 MB"%string ∧ human_bytes 1024 = "1024 B"%string.
Proof. by split. Qed.
Example fixed_text : fixed 1 (Double.div (Double.of_Z 5) (Double.of_Z 4)) = "1.2"%string ∧ fixed 3 (Double.div Double.c1 (Double.of_Z 3)) = "0.333"%string ∧
  fixed 0 (Double.of_Z 1500000) = "1500000"%string ∧ fixed 1 (Double.div Double.c1 (S754_zero false)) = "inf"%string.
Proof. vm_compute. by split_and!. Qed.
(** A run as it is printed. *)
Example print_result_text : BenchWrite.print_result (BenchWrite.WriteResult.mk "Tiered" 5 10 Double.c1 (Double.of_Z 5000) Double.c1 125 2049 (Double.of_Z 2)) =
  say "  Tiered                    5000 ops/s     1.0 MB/s  2.0x write-amp  2 KB on disk".
Proof. vm_compute. reflexivity. Qed.
(** The title has a dash of three bytes. *)
Example dash : length (text "—") = 3.
Proof. reflexivity. Qed.
(** The median of four samples is the third. *)
Example p50_of_four : LatencyHistogram.p50 (Double.of_Z <$> [40; 10; 30; 20]%Z) = Ok (Double.of_Z <$> [10; 20; 30; 40]%Z, Double.of_Z 30).
Proof. vm_compute. reflexivity. Qed.
Example extensions : Dir.extension "00001.sst" = ".sst"%string ∧ Dir.extension "MANIFEST" = ""%string ∧ Dir.extension ".sst" = ""%string.
Proof. by split_and!. Qed.

(** Three keys in memtables of two. *)
Definition demo_scale : BenchRead.scale := BenchRead.Scale 3 2 2 20 40.
Definition demo_read : BenchRead.environment :=
  BenchRead.Env (λ _, 1) (λ i, 2 - i) 7 (λ k, Z.of_nat (1000 * k)) (λ k, Z.of_nat (1000 * k + 300)) (λ _, 0%Z) (λ _, 1000000%Z).

Lemma read_suite_finds_keys_witness : ∃ w' r, BenchRead.run_read_suite demo_scale demo_read "read_none" None_ (MkWorld ∅ (BlockCache.create 4)) = Ok (w', r) ∧
  BenchRead.Report.keys_scanned r = 3 ∧
  BenchRead.Report.vals (BenchRead.Report.random_get r) = text <$> ["val_00000002_xxxxxxx"; "val_00000001_xxxxxxx"]%string ∧
  BenchRead.Report.vals (BenchRead.Report.miss_get r) = [[]; []].
Proof.
  destruct (read_suite_finds_keys demo_scale demo_read "read_none" None_ ∅ (BlockCache.create 4) 10) as (w' & r & Hrun & Hscan & Hget & Hmiss).
  - done.
  - demo_decide.
  - demo_decide.
  - demo_decide.
  - demo_decide.
  - intros i Hi. simpl in *. lia.
  - apply demo_fits; demo_decide.
  - demo_decide.
  - demo_decide.
  - demo_decide.
  - exists w', r. split; [exact Hrun|]. split; [exact Hscan|]. split; [|exact Hmiss]. rewrite Hget. vm_compute. reflexivity.
Defined.

(** Five entries of 25 bytes in memtables of 50. *)
Definition demo_small : LsmStorageOptions.t := LsmStorageOptions.mk 4096 50 10 CompactionOptions.NoCompaction false false None_.
Definition demo_write : BenchWrite.environment :=
  BenchWrite.Env (λ i, if decide (i = 3) then [BenchWrite.FlushPass; BenchWrite.CompactionStep] else []) 7 0 1000000.

(** Five entries were written, and the one table of two is as large as all of
    them: the write amplification seems to be 1. *)
Example demo_write_run :
  match BenchWrite.run_write_bench demo_write "NoCompaction" demo_small 5 10 (MkWorld ∅ (BlockCache.create 4)) with
  | Ok (_, r) => Some (BenchWrite.print_result r) | Err _ => None
  end = Some (say "  NoCompaction              5000 ops/s     0.1 MB/s  1.0x write-amp  126 B on disk").
Proof. vm_compute. reflexivity. Qed.

Lemma write_bench_measures_one_memtable_witness : ∃ w' r id data t kvss,
  BenchWrite.run_write_bench demo_write "NoCompaction" demo_small 5 10 (MkWorld ∅ (BlockCache.create 4)) = Ok (w', r) ∧
  BenchWrite.WriteResult.user_bytes r = 125%Z ∧ BenchWrite.WriteResult.disk_bytes r = Z.of_nat (length data) ∧
  SsTable.open id true (TableBuilderSpec.file_of data) = Ok t ∧ holds t kvss ∧ length (mjoin kvss) ≤ 2.
Proof.
  destruct (write_bench_measures_one_memtable demo_write "NoCompaction" demo_small 5 10 2 ∅ (BlockCache.create 4))
    as (w' & r & id & data & t & kvss & Hrun & Huser & Hdisk & Hopen & Hholds & Hcount).
  - split; [apply (bool_decide_unpack _); vm_compute; exact I|exact I].
  - done.
  - done.
  - demo_decide.
  - demo_decide.
  - demo_decide.
  - demo_decide.
  - demo_decide.
  - demo_decide.
  - apply demo_fits; demo_decide.
  - demo_decide.
  - done.
  - exists w', r, id, data, t, kvss. split; [exact Hrun|]. split; [exact Huser|]. split; [exact Hdisk|]. split; [exact Hopen|]. split; [exact Hholds|exact Hcount].
Defined.
End demo.
